(* ===== verification/_CoqProject ===== *)
-Q . S2P
Prelude.v
Bytes.v
Core.v
Aggregate.v
Catalog.v
GroupCatalog.v
GroupPartition.v
Redirect.v
Keys.v
Store.v
RaftType.v
LogStore.v
StateMachine.v
ShardSpec.v
Codecs.v
RequestCodecs.v
Apply.v
Reads.v
History.v
Snapshot.v
Install.v
Restore.v
Config.v
Topology.v
Bootstrap.v
Wire.v
Follow.v
FollowStream.v
Cluster.v
SingleNode.v
Service.v
StatePages.v
FollowService.v
GroupService.v
GroupFetch.v
FusePath.v
FuseHandle.v
FuseCodec.v
FuseInodes.v
FuseBackend.v
FuseStream.v
Fuse.v
FuseSafety.v
FuseListing.v
Client.v
ClientFollow.v
GrpcBackend.v
EndToEnd.v
RaftNetwork.v
Ctl.v
CtlOutput.v
CtlAggregate.v
CtlSnapshot.v
Server.v
