(* ===== verification/Prelude.v ===== *)
(** * EventFS: a verification development

    EventFS is an event store on multi-Raft with a file system in front of it.
    This library models its own logic, from the file handle a program writes to
    down to the bytes in the key-value store of each replica, and proves what
    the layers promise each other and the program.

    ** The program

    A cluster node ([es-server]) hosts Raft groups, the shards. One of them, the
    control shard, keeps the catalog of aggregate types (which shard holds which
    of the 256 partitions of a type, at which generation) and the catalog of
    consumer groups. Every shard keeps the events, instance heads, state
    documents, idempotency records and consumer-group progress of the
    partitions placed on it. openraft orders the requests of a shard; the state
    machine ([es-storage]) applies them to an ordered store shared by the shards
    of a node. [es-core] holds the data types and the pure transitions that the
    state machine runs. The gRPC service of [es-server] routes a client's
    request to the leader of the right shard; [es-raft] carries the messages of
    openraft between the nodes and serves the administration of a node's groups;
    the SDK ([es-client]) finds a node that answers and keeps followed streams
    open; [eventfs-fuse] maps directories and files to calls of the SDK, and the
    command line [es-ctl] calls the SDK and the administration service.

    A request therefore travels: [Fuse] handlers, [FuseCodec], [GrpcBackend],
    [Client], [Service]/[GroupService]/[StatePages], [Cluster] (Raft),
    [StateMachine], [Store]. [EndToEnd] composes all of them; [CtlAggregate]
    does the same for the commands of the command line.

    ** The library

    Foundations
    - [Prelude.v]: machine integers and their wrap-around, the [result] type and
      its monad, lists, options and sorted maps, tactics and hints.
    - [Bytes.v]: byte strings, fixed-width integers, lexicographic and prefix
      order.

    [es-core/src]
    - [Core.v]: [error.rs], [limits.rs], [hlc.rs].
    - [Aggregate.v]: [aggregate.rs], identities, routing, fingerprints.
    - [Catalog.v]: [aggregate.rs], [AggregateCatalog::apply] by command.
    - [GroupCatalog.v], [GroupPartition.v]: [aggregate_group.rs], settings and
      catalog; claiming, settling, renewing and expiring deliveries.
    - [Redirect.v]: [redirect.rs], leader hints and the retry plan.

    [es-storage/src]
    - [Keys.v]: [key.rs]. [Store.v]: [encode.rs] and the helpers of
      [storage.rs], with the interfaces [Tree] and [Codec].
    - [RaftType.v]: [raft_type.rs]. [LogStore.v]: [log_storage.rs].
    - [StateMachine.v]: [state_machine.rs], [apply] with its batch and caches,
      and the reads. [ShardSpec.v]: the specification of a shard, without bytes
      or caches. [Apply.v], [Reads.v]: the refinement. [History.v]: sequences of
      batches and restarts.
    - [Snapshot.v], [Install.v]: [snapshot.rs] and the snapshot functions of
      [state_machine.rs]. [Restore.v]: the offline [restore] of [snapshot.rs].
    - [Codecs.v], [RequestCodecs.v]: codecs that satisfy the laws, for witnesses.

    [es-server/src], [es-raft/src], [es-proto/src]
    - [Config.v]: [config.rs]. [Topology.v]: [rpc_support.rs], [endpoint.rs] and
      [tls.rs]. [Bootstrap.v]: [bootstrap.rs], applying a changed
      configuration ([watcher.rs]), the overrides ([main.rs]) and
      [es-raft/src/manager.rs]. [Server.v]: [factory.rs], [server.rs], the order
      of [main.rs] and the loop of [watcher.rs].
    - [RaftNetwork.v]: [network.rs], [rpc_service.rs] and [admin_service.rs] of
      [es-raft/src], and [limits.rs].
    - [aggregate_service.rs] in nine files: [Wire.v] (messages, tokens,
      cursors), [Follow.v] and [FollowStream.v] (the tasks behind a followed
      stream), [FollowService.v] (the handler that starts them), [Cluster.v] (what
      handlers act on), [Service.v] (types, events, state documents),
      [StatePages.v] (listing), [GroupService.v] and [GroupFetch.v] (consumer
      groups). [SingleNode.v] is a cluster at which
      the laws of [Cluster.v] hold.

    [es-client/src] and [eventfs-fuse/src]
    - [Client.v]: [error.rs] and [call] of [aggregate.rs]. [ClientFollow.v]:
      [run_follow]. [GrpcBackend.v]: the SDK's methods and [GrpcBackend] of
      [backend.rs].
    - [FusePath.v]: [path.rs]. [FuseHandle.v]: [handle.rs]. [FuseCodec.v]:
      [codec.rs]. [FuseInodes.v], [FuseStream.v], [Fuse.v]: [fuse.rs], the inode
      table, the stream buffers and the handlers. [FuseBackend.v]: the trait of
      [backend.rs], [config.rs] and the limits of [main.rs].
    - [FuseSafety.v], [FuseListing.v]: theorems on the handlers.
    - [EndToEnd.v]: a file written is a record stored.

    [es-ctl/src]
    - [Ctl.v]: [client.rs], [shards.rs], [commands/init.rs], [member.rs] and
      [status.rs]. [CtlAggregate.v]: the parsers of [cli.rs] and
      [commands/aggregate.rs]. [CtlSnapshot.v]: [commands/snapshot.rs].
      [CtlOutput.v]: [output.rs].

    ** How state and effects are modelled

    Pure code is a function. The state machine threads an [ApplyBatch] over a
    [tree]. A handler of the service is an [Act]: it takes the world of the
    cluster and returns the next world and a [result], where a [Failure] is a
    status or a panic. A handler of the file system is a [Task] of critical
    sections and backend calls, so that handlers interleave as the code's tasks
    do; stream buffers are a step relation whose steps are single critical
    sections. The tasks behind a followed stream are functions from the messages
    they receive to those they send. A command of [es-ctl] is a [Cmd] or a
    [Script], which end with a value or the messages of an [anyhow] error.
    Integers are [N] with their width and wrap-around written where the code can
    reach it.

    ** Parameters and what is assumed of them

    Code that is not in the repository is a parameter. Where something is relied on,
    a class of laws states the documented behaviour; the witnesses use instances.
    - surrealkv: [Tree], [TreeLaws] (a call that succeeds did what it says),
      [TreeHealthy] (calls succeed); instance [mem_tree].
    - bincode: [Codec], gathered in [SmCodecs], [TokenCodecs], [RpcCodecs], with
      [..Laws] (decoding gives back what was encoded) and [..Total]; instances
      in [Codecs.v] and [RequestCodecs.v].
    - xxh3: [Xxh3], whose laws are the widths of its results.
    - zstd and lz4: [Frames]; serde_json: [Json] and [SerdeJson]; [Debug] and
      [Display] texts: [DebugResponse], [DebugText].
    - the operating system, address parsing and TLS: [Platform].
    - openraft, tonic between nodes, the clock and identifiers: [Cluster].
      [ClusterLaws] says that a write that succeeds was applied once, in some
      state the shard went through during the call, that a node's store holds a
      state the shard went through, and that shards move only by requests the
      programs write ([service_request]): the catalog's commands for moving a
      partition are applied by the state machine, but nothing in the repository
      sends them. Any call may find that others acted meanwhile.
    - openraft's messages and handles: [RaftMessages], [RaftMessageLaws],
      [RaftHandle]. The administration service as a client sees it: [AdminRpc];
      [AdminNetwork] of [Ctl.v] says that a change that is acknowledged was
      accepted by the service of the node at that endpoint, which hosts the shard
      named.
    - uuid and clap, for the command line: [uuid_parse], [new_v4]; commands start
      from parsed arguments.
    - tonic between client and nodes: [tonic_connect] and [rpc] of [Client.v];
      [Network] of [EndToEnd.v] says that an answer that arrives was given by a
      node to this request, during the call. A request without an answer may or
      may not have had its effect.

    ** What the theorems show

    - One shard. [apply_refines], [apply_succeeds], [restart_recovers],
      [log_ops_refine], [snapshot_transfers_state], [snapshot_round_trip],
      [restore_returns_to_snapshot]: bytes, caches, restarts, the Raft log,
      snapshots and the offline restore implement the sequential specification.
      [history_consistent], [history_append_only], [append_exactly_once]: what
      that specification keeps over any history.
    - The domain. [catalog_reachable_wf]; [partition_reachable_wf],
      [partition_step_no_loss], [delivery_protected]: no event of a consumer
      group is lost, or handed to a second consumer while it is protected.
    - The service. [append_acknowledged_once], [register_leaves_type_active],
      [state_pages_complete], [fetch_hands_out_recorded],
      [settlements_answered_in_order], [create_group_covers_partitions],
      [handlers_do_not_panic]; [follow_resumable] for a followed stream from the
      beginning or a cursor. What an append leaves is [recorded]: an event in the
      partition of its instance, on the shard that the definition names.
    - Configuration and start-up. [config_validate_documented], [cluster_members_agree],
      [bootstrap_tasks_agree]; [created_shard_recovers]; a running node,
      [published_shards_running], [change_followed], [listeners_separate],
      [stop_closes_every_shard].
    - Between the nodes. [raft_messages_exact]; [oversized_batches_split] and
      [batch_splitting_ends], for batches larger than a message.
    - The client. [call_history] (bounded requests, no unsafe repetition),
      [call_finds_leader], [client_follow_gapless].
    - The file system. [path_round_trip], [inodes_stable], [stream_delivers],
      [stream_no_lost_wakeup], [buffered_submits_once], [consumer_exclusive],
      [states_listed].
    - End to end. [event_file_recorded], [state_file_replaces_opened].
    - The command line. [append_command_recorded], [state_put_replaces_expected]
      and [follow_command_gapless], down to the shards; [group_update_keeps_rest],
      [member_changes_keep_others], [restore_command_safe]; what is printed is
      accepted as an argument, [arguments_round_trip], and tables are aligned,
      [table_columns_aligned].
    - What the code does against its intent. [follow_now_cursor_rewinds],
      [build_fails_behind_residue], [recreated_group_inherits_progress],
      [other_directories_list_empty], [settlement_token_panics],
      [failed_restore_drops_snapshots], [unreachable_reported_uninitialized],
      [init_stops_at_unreachable], [token_argument_panics],
      [write_during_change_missed].

    ** Fuel and bounds

    - [advance] removes a gap at each turn: the size of the set is enough
      ([advance_exits]).
    - [call_loop] runs on [call_attempts], four more than four times the number
      of nodes; the plan's budget is used up before it ([call_history]).
    - [records_loop] reads at least a record header at each turn: the number of
      bytes left is enough ([records_loop_total]).
    - [strip_all] and [utf8_lossy] consume at least a byte at each turn; their
      fuel is the length.
    - [fetch_rounds] is bounded by the number of times a waiting fetch wakes up,
      [None] being a fetch that still waits; a theorem on its result holds for
      every bound, and without a wait one round returns.
    - [with_admin_leader] has three rounds, as in the code ([admin_rounds]).
    - [follow_loop] of [CtlAggregate.v] reads a finite beginning of a stream;
      its result is [None] while it waits for more.
    - [list_states] of [Fuse.v] goes on while the server gives another page
      token; [read_entries] reads a directory to its end, and [states_listed]
      shows how many calls are enough.
    - Widths are those of the code: lengths, positions and versions in [u64],
      leases and attempts in [u32]. Allocation does not fail.

    ** Not modelled

    - [es-ctl]: which fields a command prints, its JSON, clap, reading the CA file
      and the exit code.
    - [snapshot.rs]: [SnapshotFile], an asynchronous file handle that deletes
      its file when dropped, [cleanup_incoming], and the temporary files of
      writers. A finished file appears in the directory at once.
    - What the process asks of the system: directories, the store's files, the
      notifications about the configuration file and the listening sockets are
      parameters of [Server.v]; mounting and the kernel protocol of the file
      system are left out. [wait_peers_ready] of [bootstrap.rs] only delays.
    - Waiting times: a sleep only lets the world go on.
    - Tests, benchmarks and generated protobuf code. *)

From stdpp Require Export base tactics option list gmap fin_maps strings sorting pretty.
From Stdlib Require Export NArith Lia.
From Stdlib Require Export Strings.Byte.

#[export] Set Default Goal Selector "!".

(** ** Machine integers

    An unsigned Rust integer is an [N]; the width is written out where the
    source can reach it: the largest value of each width, and the arithmetic
    the source calls ([checked_add], [saturating_add], [wrapping_add],
    [saturating_mul], the [as u32] cast). Rust's [saturating_sub] on an
    unsigned integer is [N.sub]. *)

Abbreviation u16_max := 65535%N.
Abbreviation u32_max := 4294967295%N.
Abbreviation u64_max := 18446744073709551615%N.
Abbreviation u128_max := 340282366920938463463374607431768211455%N.

Definition checked_add_u64 (a b : N) : option N :=
  if (a + b <=? u64_max)%N then Some (a + b)%N else None.

Definition saturating_add_u64 (a b : N) : N := N.min (a + b) u64_max.

Definition saturating_add_u32 (a b : N) : N := N.min (a + b) u32_max.

Definition saturating_mul_u64 (a b : N) : N := N.min (a * b) u64_max.

(** [+] on a [u64]: the release profile wraps around. *)
Definition wrapping_add_u64 (a b : N) : N := ((a + b) mod 18446744073709551616)%N.

Definition wrapping_add_u32 (a b : N) : N := ((a + b) mod 4294967296)%N.

Definition as_u32 (a : N) : N := (a mod 4294967296)%N.

(** The length of a [Vec], a string or a slice, as the [usize] the source
    casts to [u64]. *)
Definition len {A} (l : list A) : N := N.of_nat (length l).

(** ** Results

    Rust's [Result<T, E>], with stdpp's bind notation for the [?] operator. *)

Inductive result (E A : Type) : Type :=
| Ok (a : A)
| Err (e : E).

Arguments Ok {E A} a.
Arguments Err {E A} e.

#[export] Instance result_ret {E} : MRet (result E) := fun A a => Ok a.

#[export] Instance result_bind {E} : MBind (result E) := fun A B f r =>
  match r with Ok a => f a | Err e => Err e end.

#[export] Instance result_fmap {E} : FMap (result E) := fun A B f r =>
  match r with Ok a => Ok (f a) | Err e => Err e end.

#[export] Instance result_eq_dec {E A} `{EqDecision E, EqDecision A} :
  EqDecision (result E A).
Proof. solve_decision. Defined.

Definition is_ok {E A} (r : result E A) : bool :=
  match r with Ok _ => true | Err _ => false end.

(** [Result::map_err]. *)
Definition map_err {E F A} (f : E -> F) (r : result E A) : result F A :=
  match r with Ok a => Ok a | Err e => Err (f e) end.

(** [Option::ok_or_else]. *)
Definition ok_or {E A} (e : E) (o : option A) : result E A :=
  match o with Some a => Ok a | None => Err e end.

(** [Iterator::collect::<Result<Vec<_>, _>>] over a mapped list. *)
Fixpoint result_mapM {E A B} (f : A -> result E B) (l : list A) : result E (list B) :=
  match l with
  | [] => Ok []
  | a :: l' => b ← f a; bs ← result_mapM f l'; Ok (b :: bs)
  end.

Lemma bind_Ok {E A B} (f : A -> result E B) (a : A) : (Ok a ≫= f) = f a.
Proof. reflexivity. Qed.

Lemma bind_Ok_inv {E A B} (r : result E A) (f : A -> result E B) (b : B) :
  (r ≫= f) = Ok b -> exists a, r = Ok a /\ f a = Ok b.
Proof. destruct r as [a|e]; intros H; [by exists a | discriminate]. Qed.

Lemma map_err_Ok {E F A} (f : E -> F) (r : result E A) a : map_err f r = Ok a -> r = Ok a.
Proof. destruct r; cbn; congruence. Qed.

Lemma result_mapM_Forall2 {E A B} (f : A -> result E B) l bs :
  Forall2 (fun a b => f a = Ok b) l bs -> result_mapM f l = Ok bs.
Proof. induction 1 as [|a b l bs Hab _ IH]; [done|]. cbn. by rewrite Hab, IH. Qed.

Lemma result_mapM_inv {E A B} (f : A -> result E B) l bs :
  result_mapM f l = Ok bs -> Forall2 (fun a b => f a = Ok b) l bs.
Proof.
  revert bs. induction l as [|a l IH]; intros bs; cbn; [intros [= <-]; constructor|].
  intros (b & Hb & (bs' & Hbs & [= <-])%bind_Ok_inv)%bind_Ok_inv. constructor; auto.
Qed.

Lemma result_mapM_Ok_map {E A B} (f : A -> result E B) (g : A -> B) l :
  (forall a, a ∈ l -> f a = Ok (g a)) -> result_mapM f l = Ok (map g l).
Proof.
  induction l as [|a l IH]; intros H; [done|]. cbn.
  rewrite H by set_solver. cbn. rewrite IH; [done|]. set_solver.
Qed.

(** ** Bounds of the arithmetic *)

Create HintDb machine.
Create Rewrite HintDb machine.

Lemma checked_add_u64_Some a b c :
  checked_add_u64 a b = Some c <-> c = (a + b)%N /\ (c <= u64_max)%N.
Proof.
  unfold checked_add_u64. case_match eqn:H; [apply N.leb_le in H | apply N.leb_gt in H].
  - split; [intros [= <-]; lia | intros [-> _]; done].
  - split; [discriminate | intros [-> ?]; lia].
Qed.

Lemma checked_add_u64_None a b :
  checked_add_u64 a b = None <-> (u64_max < a + b)%N.
Proof.
  unfold checked_add_u64. case_match eqn:H; [apply N.leb_le in H | apply N.leb_gt in H].
  - split; [discriminate | lia].
  - done.
Qed.

Lemma saturating_add_u64_le a b : (saturating_add_u64 a b <= u64_max)%N.
Proof. unfold saturating_add_u64. lia. Qed.

Lemma saturating_add_u64_exact a b :
  (a + b <= u64_max)%N -> saturating_add_u64 a b = (a + b)%N.
Proof. unfold saturating_add_u64. lia. Qed.

#[export] Hint Resolve saturating_add_u64_le : machine.

Lemma len_app {A} (l1 l2 : list A) : len (l1 ++ l2) = (len l1 + len l2)%N.
Proof. unfold len. rewrite length_app. lia. Qed.

Lemma len_nil {A} : len (@nil A) = 0%N.
Proof. reflexivity. Qed.

Lemma len_cons {A} (x : A) l : len (x :: l) = (1 + len l)%N.
Proof. unfold len. cbn [length]. lia. Qed.

#[export] Hint Rewrite @len_app @len_nil @len_cons : machine.

(** ** Ordered maps

    A [BTreeMap] is a [gmap]; where the source iterates it, the iteration runs
    in ascending key order, which [btree_iter] gives for integer keys. *)

Definition key_le {A} (x y : N * A) : Prop := (x.1 <= y.1)%N.

#[export] Instance key_le_dec {A} (x y : N * A) : Decision (key_le x y).
Proof. unfold key_le. apply _. Defined.

Definition btree_iter {A} (m : gmap N A) : list (N * A) :=
  merge_sort key_le (map_to_list m).

(** [BTreeMap::values]. *)
Definition btree_values {A} (m : gmap N A) : list A := (btree_iter m).*2.

Lemma btree_iter_permutation {A} (m : gmap N A) : btree_iter m ≡ₚ map_to_list m.
Proof. apply merge_sort_Permutation. Qed.

Lemma elem_of_btree_iter {A} (m : gmap N A) k v :
  (k, v) ∈ btree_iter m <-> m !! k = Some v.
Proof. rewrite btree_iter_permutation. apply elem_of_map_to_list. Qed.

Lemma elem_of_btree_values {A} (m : gmap N A) v :
  v ∈ btree_values m <-> exists k, m !! k = Some v.
Proof.
  unfold btree_values. rewrite list_elem_of_fmap. split.
  - intros ([k w] & -> & H). exists k. by apply elem_of_btree_iter.
  - intros [k H]. exists (k, v). split; [done|]. by apply elem_of_btree_iter.
Qed.

Lemma NoDup_btree_iter_keys {A} (m : gmap N A) : NoDup (btree_iter m).*1.
Proof. rewrite btree_iter_permutation. apply NoDup_fst_map_to_list. Qed.

Lemma length_btree_iter {A} (m : gmap N A) : length (btree_iter m) = size m.
Proof. rewrite btree_iter_permutation. apply length_map_to_list. Qed.

#[export] Instance key_le_trans {A} : Transitive (@key_le A).
Proof. intros x y z; unfold key_le; lia. Qed.

#[export] Instance key_le_total {A} : Total (@key_le A).
Proof. intros x y; unfold key_le; lia. Qed.

(** The iteration order is strictly ascending in the keys. *)
Lemma btree_iter_sorted {A} (m : gmap N A) :
  StronglySorted (fun x y => x.1 < y.1)%N (btree_iter m).
Proof.
  pose proof (StronglySorted_merge_sort (@key_le A) (map_to_list m)) as Hs.
  pose proof (NoDup_btree_iter_keys m) as Hnd.
  unfold btree_iter in *. revert Hs Hnd.
  generalize (merge_sort key_le (map_to_list m)). intros l.
  induction 1 as [|x l Hl IH Hx]; intros Hnd; [constructor|].
  cbn in Hnd. apply NoDup_cons in Hnd as [Hx' Hnd]. constructor; [by apply IH|].
  rewrite Forall_forall in Hx |- *. intros y Hy. specialize (Hx y Hy).
  unfold key_le in Hx. assert (x.1 <> y.1); [|lia].
  intros Heq. apply Hx'. rewrite Heq. apply list_elem_of_fmap. eauto.
Qed.

(** ** Boolean list predicates *)

Lemma existsb_False {A} (f : A -> bool) l :
  existsb f l = false <-> forall x, x ∈ l -> f x = false.
Proof.
  induction l as [|a l IH]; cbn.
  - split; [intros _ x Hx; set_solver | done].
  - rewrite orb_false_iff, IH. split.
    + intros [Ha Hl] x [->|Hx]%elem_of_cons; auto.
    + intros H; split; [apply H, elem_of_cons; by left|].
      intros x Hx; apply H, elem_of_cons; by right.
Qed.

Lemma existsb_True {A} (f : A -> bool) l :
  existsb f l = true <-> exists x, x ∈ l /\ f x = true.
Proof.
  rewrite existsb_exists. split; intros (x & Hx & Hf); exists x;
    (split; [by apply list_elem_of_In | done]).
Qed.

Lemma forallb_True {A} (f : A -> bool) l :
  forallb f l = true <-> forall x, x ∈ l -> f x = true.
Proof.
  rewrite forallb_forall. split; intros H x Hx; apply H; by apply list_elem_of_In.
Qed.

(** ** Tactics

    [inv_result] decomposes the equations a fallible computation leaves;
    [split_ifs] follows the branches of the code under proof, turning each
    boolean test into the proposition it decides. *)

Ltac inv_result :=
  repeat match goal with
  | H : Ok _ = Ok _ |- _ => injection H as H
  | H : Err _ = Err _ |- _ => injection H as H
  | H : Ok _ = Err _ |- _ => discriminate H
  | H : Err _ = Ok _ |- _ => discriminate H
  | H : (_ ≫= _) = Ok _ |- _ => apply bind_Ok_inv in H as (? & ? & H)
  end; try subst.

Ltac bool_facts :=
  repeat match goal with
  | H : (_ <? _)%N = true |- _ => apply N.ltb_lt in H
  | H : (_ <? _)%N = false |- _ => apply N.ltb_ge in H
  | H : (_ <=? _)%N = true |- _ => apply N.leb_le in H
  | H : (_ <=? _)%N = false |- _ => apply N.leb_gt in H
  | H : (_ =? _)%N = true |- _ => apply N.eqb_eq in H
  | H : (_ =? _)%N = false |- _ => apply N.eqb_neq in H
  | H : andb _ _ = true |- _ => apply andb_true_iff in H as [? ?]
  | H : orb _ _ = false |- _ => apply orb_false_iff in H as [? ?]
  | H : negb _ = true |- _ => apply negb_true_iff in H
  | H : negb _ = false |- _ => apply negb_false_iff in H
  | H : bool_decide _ = true |- _ => apply bool_decide_eq_true in H
  | H : bool_decide _ = false |- _ => apply bool_decide_eq_false in H
  end.

(** Split the conjunctions in sight, without unfolding what is named. *)
Ltac split_ands := repeat match goal with |- _ /\ _ => split end.

(** Case on the next boolean test of the goal. *)
Ltac case_if :=
  match goal with
  | |- context [if ?b then _ else _] => let E := fresh "E" in destruct b eqn:E
  end.

Ltac split_ifs :=
  repeat (case_match; try discriminate); bool_facts.
