(* ===== verification/Bytes.v ===== *)
(** * Byte strings

    Rust's [Vec<u8>] as a list of bytes: fixed-width big- and little-endian
    integers ([to_be_bytes], [to_le_bytes] and their inverses), the
    lexicographic order that [Vec<u8>] and the key-value store compare keys
    with, and the prefix order. *)

From S2P Require Import Prelude.

Abbreviation Bytes := (list byte).

#[export] Instance byte_eq_dec : EqDecision byte.
Proof. intros x y. destruct (byte_eq_dec x y) as [H|H]; [by left | by right]. Defined.

#[export] Program Instance byte_countable : Countable byte :=
  inj_countable Byte.to_N Byte.of_N _.
Next Obligation. intros x. apply Byte.of_to_N. Qed.

(** ** Integers as bytes *)

(** The [as u8] cast. *)
Definition byte_of_N (n : N) : byte :=
  match Byte.of_N (n mod 256) with Some b => b | None => x00 end.

(** [to_be_bytes] of a [w]-byte integer. *)
Fixpoint be_bytes (w : nat) (n : N) : Bytes :=
  match w with
  | O => []
  | S w' => byte_of_N (n / 256 ^ N.of_nat w') :: be_bytes w' n
  end.

(** [from_be_bytes]. *)
Fixpoint be_value (l : Bytes) : N :=
  match l with
  | [] => 0
  | b :: l' => Byte.to_N b * 256 ^ len l' + be_value l'
  end%N.

(** [to_le_bytes] of a [w]-byte integer. *)
Fixpoint le_bytes (w : nat) (n : N) : Bytes :=
  match w with
  | O => []
  | S w' => byte_of_N n :: le_bytes w' (n / 256)
  end.

(** [from_le_bytes]. *)
Fixpoint le_value (l : Bytes) : N :=
  match l with
  | [] => 0
  | b :: l' => Byte.to_N b + 256 * le_value l'
  end%N.

(** ** The order on byte strings *)

(** [Ord] of [Vec<u8>]: lexicographic, a proper prefix being smaller. *)
Fixpoint bytes_cmp (x y : Bytes) : comparison :=
  match x, y with
  | [], [] => Eq
  | [], _ :: _ => Lt
  | _ :: _, [] => Gt
  | a :: x', b :: y' =>
      match (Byte.to_N a ?= Byte.to_N b)%N with
      | Eq => bytes_cmp x' y'
      | c => c
      end
  end.

Definition bytes_ltb (x y : Bytes) : bool :=
  match bytes_cmp x y with Lt => true | _ => false end.

Definition bytes_leb (x y : Bytes) : bool :=
  match bytes_cmp x y with Gt => false | _ => true end.

(** [String::as_bytes]: the bytes of a string. *)
Definition as_bytes (s : string) : Bytes := String.list_byte_of_string s.

(** ** Strings *)

(** [str::starts_with]. *)
Definition starts_with (prefix s : string) : bool := String.prefix prefix s.

(** [str::contains]. *)
Fixpoint contains (needle hay : string) : bool :=
  starts_with needle hay || match hay with EmptyString => false | String _ rest => contains needle rest end.

(** [str::strip_suffix]. *)
Fixpoint strip_suffix (suffix s : string) : option string :=
  if bool_decide (s = suffix) then Some ""
  else match s with EmptyString => None | String a rest => String a <$> strip_suffix suffix rest end.

(** [str::ends_with]. *)
Definition ends_with (suffix s : string) : bool := bool_decide (is_Some (strip_suffix suffix s)).

(** ** Lemmas: bytes *)

Create Rewrite HintDb bytes.

Lemma to_N_lt b : (Byte.to_N b < 256)%N.
Proof. pose proof (Byte.to_N_bounded b). lia. Qed.

Lemma to_N_byte_of_N n : Byte.to_N (byte_of_N n) = (n mod 256)%N.
Proof.
  unfold byte_of_N. destruct (Byte.of_N (n mod 256)) as [b|] eqn:H.
  - by apply Byte.to_of_N.
  - apply Byte.of_N_None_iff in H. pose proof (N.mod_lt n 256). lia.
Qed.

Lemma byte_of_N_to_N b : byte_of_N (Byte.to_N b) = b.
Proof.
  unfold byte_of_N. rewrite N.mod_small by apply to_N_lt.
  by rewrite Byte.of_to_N.
Qed.

Lemma to_N_inj a b : Byte.to_N a = Byte.to_N b -> a = b.
Proof. intros H. rewrite <- (byte_of_N_to_N a), <- (byte_of_N_to_N b). by rewrite H. Qed.

Lemma length_be_bytes w n : length (be_bytes w n) = w.
Proof. induction w; cbn; auto. Qed.

Lemma length_le_bytes w n : length (le_bytes w n) = w.
Proof. revert n; induction w; intros; cbn; auto. Qed.

Lemma len_be_bytes w n : len (be_bytes w n) = N.of_nat w.
Proof. unfold len. by rewrite length_be_bytes. Qed.

Lemma len_le_bytes w n : len (le_bytes w n) = N.of_nat w.
Proof. unfold len. by rewrite length_le_bytes. Qed.

#[export] Hint Rewrite length_be_bytes length_le_bytes len_be_bytes len_le_bytes : bytes.

Lemma be_value_bound l : (be_value l < 256 ^ len l)%N.
Proof.
  induction l as [|b l IH]; [cbn; lia|]. cbn [be_value]. rewrite len_cons, N.pow_add_r.
  pose proof (to_N_lt b). change (256 ^ 1)%N with 256%N. nia.
Qed.

Lemma le_value_bound l : (le_value l < 256 ^ len l)%N.
Proof.
  induction l as [|b l IH]; [cbn; lia|]. cbn [le_value]. rewrite len_cons, N.pow_add_r.
  pose proof (to_N_lt b). change (256 ^ 1)%N with 256%N. nia.
Qed.

Lemma pow256_pos k : (0 < 256 ^ k)%N.
Proof. apply N.neq_0_lt_0, N.pow_nonzero. lia. Qed.

(** Decoding an encoded integer truncates it to its width. *)
Lemma be_value_be_bytes w n : be_value (be_bytes w n) = (n mod 256 ^ N.of_nat w)%N.
Proof.
  induction w as [|w IH]; [cbn; by rewrite N.mod_1_r|].
  cbn [be_bytes be_value]. rewrite IH, len_be_bytes, to_N_byte_of_N.
  rewrite Nat2N.inj_succ, N.pow_succ_r', (N.mul_comm 256).
  pose proof (pow256_pos (N.of_nat w)).
  rewrite (N.Div0.mod_mul_r n (256 ^ N.of_nat w) 256). lia.
Qed.

Lemma le_value_le_bytes w n : le_value (le_bytes w n) = (n mod 256 ^ N.of_nat w)%N.
Proof.
  revert n. induction w as [|w IH]; intros n; [cbn; by rewrite N.mod_1_r|].
  cbn [le_bytes le_value]. rewrite IH, to_N_byte_of_N.
  rewrite Nat2N.inj_succ, N.pow_succ_r'.
  pose proof (pow256_pos (N.of_nat w)).
  rewrite (N.Div0.mod_mul_r n 256 (256 ^ N.of_nat w)). lia.
Qed.

Lemma be_bytes_inj w m n :
  (m < 256 ^ N.of_nat w)%N -> (n < 256 ^ N.of_nat w)%N ->
  be_bytes w m = be_bytes w n -> m = n.
Proof.
  intros Hm Hn H. apply (f_equal be_value) in H. rewrite !be_value_be_bytes in H.
  by rewrite !N.mod_small in H.
Qed.

Lemma be_value_inj x y : length x = length y -> be_value x = be_value y -> x = y.
Proof.
  revert y. induction x as [|a x IH]; intros [|b y] Hl Hv; try done.
  injection Hl as Hl. cbn in Hv. assert (Hxy : len x = len y) by (unfold len; lia).
  rewrite Hxy in Hv. pose proof (be_value_bound x) as Hx. pose proof (be_value_bound y) as Hy.
  rewrite Hxy in Hx. assert (Byte.to_N a = Byte.to_N b) as Hab by nia.
  f_equal; [by apply to_N_inj|]. apply IH; [done|]. rewrite Hab in Hv. lia.
Qed.

(** ** Lemmas: order *)

Lemma bytes_cmp_refl x : bytes_cmp x x = Eq.
Proof. induction x; cbn; [done|]. by rewrite N.compare_refl. Qed.

Lemma bytes_cmp_eq x y : bytes_cmp x y = Eq -> x = y.
Proof.
  revert y. induction x as [|a x IH]; intros [|b y]; cbn; try done.
  destruct (N.compare_spec (Byte.to_N a) (Byte.to_N b)) as [H|H|H]; try done.
  intros Hc. f_equal; [by apply to_N_inj | by apply IH].
Qed.

Lemma bytes_cmp_antisym x y : bytes_cmp y x = CompOpp (bytes_cmp x y).
Proof.
  revert y. induction x as [|a x IH]; intros [|b y]; cbn; try done.
  rewrite (N.compare_antisym (Byte.to_N a) (Byte.to_N b)).
  destruct (N.compare (Byte.to_N a) (Byte.to_N b)); cbn; auto.
Qed.

Lemma bytes_cmp_lt_trans x y z :
  bytes_cmp x y = Lt -> bytes_cmp y z = Lt -> bytes_cmp x z = Lt.
Proof.
  revert y z. induction x as [|a x IH]; intros [|b y] [|c z]; cbn; try done.
  destruct (N.compare_spec (Byte.to_N a) (Byte.to_N b));
    destruct (N.compare_spec (Byte.to_N b) (Byte.to_N c));
    destruct (N.compare_spec (Byte.to_N a) (Byte.to_N c)); try done; try lia.
  apply IH.
Qed.

Definition bytes_lt (x y : Bytes) : Prop := bytes_ltb x y = true.

Definition bytes_le (x y : Bytes) : Prop := bytes_leb x y = true.

#[export] Instance bytes_lt_dec x y : Decision (bytes_lt x y).
Proof. unfold bytes_lt. apply _. Defined.

#[export] Instance bytes_le_dec x y : Decision (bytes_le x y).
Proof. unfold bytes_le. apply _. Defined.

Lemma bytes_lt_cmp x y : bytes_lt x y <-> bytes_cmp x y = Lt.
Proof. unfold bytes_lt, bytes_ltb. by destruct (bytes_cmp x y). Qed.

Lemma bytes_le_cmp x y : bytes_le x y <-> bytes_cmp x y <> Gt.
Proof. unfold bytes_le, bytes_leb. by destruct (bytes_cmp x y). Qed.

Lemma bytes_le_lt_eq x y : bytes_le x y <-> bytes_lt x y \/ x = y.
Proof.
  rewrite bytes_le_cmp, bytes_lt_cmp. split.
  - destruct (bytes_cmp x y) eqn:H; [right; by apply bytes_cmp_eq | by left | done].
  - intros [-> | ->]; [done | by rewrite bytes_cmp_refl].
Qed.

#[export] Instance bytes_lt_trans : Transitive bytes_lt.
Proof. intros x y z. rewrite !bytes_lt_cmp. apply bytes_cmp_lt_trans. Qed.

#[export] Instance bytes_lt_irrefl : Irreflexive bytes_lt.
Proof. intros x. red. rewrite bytes_lt_cmp, bytes_cmp_refl. done. Qed.

#[export] Instance bytes_le_trans : Transitive bytes_le.
Proof.
  intros x y z. rewrite !bytes_le_lt_eq. intros [H1| ->] [H2| ->]; auto.
  left. by trans y.
Qed.

#[export] Instance bytes_le_total : Total bytes_le.
Proof.
  intros x y. rewrite !bytes_le_cmp, (bytes_cmp_antisym x y).
  destruct (bytes_cmp x y); cbn; auto.
Qed.

#[export] Instance bytes_le_refl : Reflexive bytes_le.
Proof. intros x. rewrite bytes_le_lt_eq. by right. Qed.

Lemma bytes_lt_le x y : bytes_lt x y -> bytes_le x y.
Proof. rewrite bytes_le_lt_eq. by left. Qed.

Lemma bytes_lt_nle x y : bytes_lt x y <-> ~ bytes_le y x.
Proof.
  rewrite bytes_lt_cmp, bytes_le_cmp, (bytes_cmp_antisym x y).
  destruct (bytes_cmp x y); cbn; intuition congruence.
Qed.

Lemma bytes_le_lt_trans x y z : bytes_le x y -> bytes_lt y z -> bytes_lt x z.
Proof. rewrite bytes_le_lt_eq. intros [H| ->] ?; [by trans y | done]. Qed.

Lemma bytes_lt_le_trans x y z : bytes_lt x y -> bytes_le y z -> bytes_lt x z.
Proof. rewrite bytes_le_lt_eq. intros ? [H| ->]; [by trans y | done]. Qed.

#[export] Instance bytes_le_antisym : AntiSymm (=) bytes_le.
Proof.
  intros x y Hxy Hyx. apply bytes_le_lt_eq in Hxy as [H|H]; [|done].
  apply bytes_lt_nle in H. done.
Qed.

(** Comparing below a common prefix. *)
Lemma bytes_cmp_app p x y : bytes_cmp (p ++ x) (p ++ y) = bytes_cmp x y.
Proof. induction p; cbn; [done|]. by rewrite N.compare_refl. Qed.

(** A difference inside equally long heads decides the comparison. *)
Lemma bytes_cmp_app_lt p q x y :
  length p = length q -> bytes_cmp p q = Lt -> bytes_cmp (p ++ x) (q ++ y) = Lt.
Proof.
  revert q. induction p as [|a p IH]; intros [|b q] Hl; cbn; try done.
  destruct (N.compare (Byte.to_N a) (Byte.to_N b)); try done.
  apply IH. cbn in Hl. lia.
Qed.

(** The numeric order is the byte order of equally wide big-endian integers. *)
Lemma bytes_cmp_be_value x y :
  length x = length y -> bytes_cmp x y = (be_value x ?= be_value y)%N.
Proof.
  revert y. induction x as [|a x IH]; intros [|b y] Hl; try done.
  injection Hl as Hl. cbn.
  assert (Hxy : len x = len y) by (unfold len; lia). rewrite Hxy.
  pose proof (be_value_bound x) as Hx. pose proof (be_value_bound y) as Hy. rewrite Hxy in Hx.
  destruct (N.compare_spec (Byte.to_N a) (Byte.to_N b)) as [H|H|H].
  - rewrite (IH y Hl), H.
    destruct (N.compare_spec (be_value x) (be_value y));
      symmetry; [apply N.compare_eq_iff | apply N.compare_lt_iff | apply N.compare_gt_iff]; lia.
  - symmetry. apply N.compare_lt_iff. nia.
  - symmetry. apply N.compare_gt_iff. nia.
Qed.

Lemma bytes_cmp_be_bytes w m n :
  (m < 256 ^ N.of_nat w)%N -> (n < 256 ^ N.of_nat w)%N ->
  bytes_cmp (be_bytes w m) (be_bytes w n) = (m ?= n)%N.
Proof.
  intros Hm Hn. rewrite bytes_cmp_be_value by by rewrite !length_be_bytes.
  by rewrite !be_value_be_bytes, !N.mod_small.
Qed.

(** ** Lemmas: prefixes and splitting *)

Lemma app_inj_length {A} (x1 y1 x2 y2 : list A) :
  length x1 = length x2 -> x1 ++ y1 = x2 ++ y2 -> x1 = x2 /\ y1 = y2.
Proof. intros Hl H. by apply app_inj_1. Qed.

Lemma bytes_le_app p x : bytes_le p (p ++ x).
Proof.
  apply bytes_le_cmp. rewrite <- (app_nil_r p) at 1. rewrite bytes_cmp_app. destruct x; discriminate.
Qed.

Lemma as_bytes_inj s t : as_bytes s = as_bytes t -> s = t.
Proof.
  intros H. unfold as_bytes in H.
  rewrite <- (String.string_of_list_byte_of_string s),
    <- (String.string_of_list_byte_of_string t). by rewrite H.
Qed.

Lemma as_bytes_app s t : as_bytes (s +:+ t) = as_bytes s ++ as_bytes t.
Proof.
  unfold as_bytes, String.list_byte_of_string. induction s as [|a s IH]; [done|].
  change (String a s +:+ t) with (String a (s +:+ t)). cbn. f_equal. exact IH.
Qed.

Lemma strip_suffix_Some suffix s t : strip_suffix suffix s = Some t <-> s = t +:+ suffix.
Proof.
  revert t. induction s as [|a s IH]; intros t; cbn [strip_suffix]; case_bool_decide as Hs.
  - subst suffix. split; [by intros [= <-]|by destruct t].
  - split; [done|]. destruct t; [|done]. intros H. by destruct Hs.
  - subst suffix. split; [by intros [= <-]|]. intros Ht. apply (f_equal as_bytes), (f_equal length) in Ht.
    rewrite as_bytes_app, length_app in Ht. destruct t; [done|]. cbn in Ht. lia.
  - rewrite fmap_Some. setoid_rewrite IH. split.
    + intros (r & -> & ->). done.
    + destruct t as [|b t]; [intros H; by destruct Hs|]. intros [= <- ->]. eauto.
Qed.

Lemma ends_with_iff suffix s : ends_with suffix s = true <-> exists t, s = t +:+ suffix.
Proof. unfold ends_with. rewrite bool_decide_eq_true. unfold is_Some. by setoid_rewrite strip_suffix_Some. Qed.

Lemma length_as_bytes s : length (as_bytes s) = String.length s.
Proof.
  unfold as_bytes, String.list_byte_of_string. induction s as [|a s IH]; [done|].
  cbn. f_equal. exact IH.
Qed.

#[export] Hint Rewrite length_as_bytes : bytes.

(** ** Length-prefixed fields *)

(** An 8-byte big-endian length followed by the bytes. *)
Definition len_prefixed (b : Bytes) : Bytes := be_bytes 8 (len b) ++ b.

Lemma u64_lt_pow n : (n <= u64_max)%N -> (n < 256 ^ N.of_nat 8)%N.
Proof. change (256 ^ N.of_nat 8)%N with 18446744073709551616%N. lia. Qed.

Lemma u16_lt_pow n : (n <= u16_max)%N -> (n < 256 ^ N.of_nat 2)%N.
Proof. change (256 ^ N.of_nat 2)%N with 65536%N. lia. Qed.

Lemma u128_lt_pow n : (n <= u128_max)%N -> (n < 256 ^ N.of_nat 16)%N.
Proof.
  change (256 ^ N.of_nat 16)%N with 340282366920938463463374607431768211456%N. lia.
Qed.

Create HintDb widths.
#[export] Hint Resolve u64_lt_pow u16_lt_pow u128_lt_pow : widths.

Lemma be_bytes_app_inj w m n x y :
  (m < 256 ^ N.of_nat w)%N -> (n < 256 ^ N.of_nat w)%N ->
  be_bytes w m ++ x = be_bytes w n ++ y -> m = n /\ x = y.
Proof.
  intros Hm Hn H. apply app_inj_length in H as [H ->]; [|by rewrite !length_be_bytes].
  split; [by eapply be_bytes_inj | done].
Qed.

(** A length-prefixed field is read back unambiguously from the front. *)
Lemma len_prefixed_app_inj a b x y :
  (len a <= u64_max)%N -> (len b <= u64_max)%N ->
  len_prefixed a ++ x = len_prefixed b ++ y -> a = b /\ x = y.
Proof.
  intros Ha Hb H. unfold len_prefixed in H. rewrite <- !app_assoc in H.
  apply be_bytes_app_inj in H as [Hl H]; [|auto with widths|auto with widths].
  apply app_inj_length in H; [done|]. unfold len in Hl. lia.
Qed.

Lemma len_len_prefixed b : len (len_prefixed b) = (8 + len b)%N.
Proof. unfold len_prefixed. by rewrite len_app, len_be_bytes. Qed.

#[export] Hint Rewrite len_len_prefixed : bytes.
