(* ===== verification/Core.v ===== *)
(** * es-core: errors, limits and the hybrid logical clock

    [es-core/src/error.rs], [limits.rs] and [hlc.rs]. *)

From S2P Require Import Prelude.
From S2P Require Import Bytes.

(** ** error.rs *)

Inductive Error : Type :=
| NotLeader (leader_addr : option string)
| Raft (msg : string)
| Storage (msg : string)
| Serde (msg : string)
| ShardNotLocal (shard_id : N)
| NotFound (msg : string)
| InvalidRequest (msg : string)
| InvalidInput (msg : string)
| Internal (msg : string).

#[export] Instance Error_eq_dec : EqDecision Error.
Proof. solve_decision. Defined.

(** [es_core::Result]. *)
Abbreviation Result := (result Error).

Definition quote (s : string) : string :=
  String (Ascii.ascii_of_nat 34) s +:+ String (Ascii.ascii_of_nat 34) "".

(** The [Display] the [thiserror] attributes derive. The [Debug] of a leader
    address is written without escapes: an address has no character that
    needs one. *)
Definition error_to_string (e : Error) : string :=
  match e with
  | NotLeader None => "非 leader 节点，请重定向到: None"
  | NotLeader (Some a) => "非 leader 节点，请重定向到: Some(" +:+ quote a +:+ ")"
  | Raft m => "Raft 错误: " +:+ m
  | Storage m => "存储错误: " +:+ m
  | Serde m => "序列化错误: " +:+ m
  | ShardNotLocal s => "分片 " +:+ pretty s +:+ " 不由本节点服务"
  | NotFound m => "未找到: " +:+ m
  | InvalidRequest m => "无效请求: " +:+ m
  | InvalidInput m => "无效输入: " +:+ m
  | Internal m => "内部错误: " +:+ m
  end.

(** ** limits.rs *)

Definition MAX_EVENT_PAYLOAD_BYTES : N := 1024 * 1024.

Definition MAX_AGGREGATE_EVENT_BYTES : N := 7 * 1024 * 1024.

Definition MAX_SNAPSHOT_CHUNK_BYTES : N := 6 * 1024 * 1024.

(** ** hlc.rs *)

(** [wall] is a [u64] of milliseconds and [logical] a [u32] counter. *)
Record Hlc : Type := mkHlc { wall : N; logical : N }.

#[export] Instance Hlc_eq_dec : EqDecision Hlc.
Proof. solve_decision. Defined.

(** The derived [Ord]: [wall] first, then [logical]. *)
Definition hlc_lt (a b : Hlc) : Prop :=
  (wall a < wall b)%N \/ (wall a = wall b /\ logical a < logical b)%N.

#[export] Instance hlc_lt_dec a b : Decision (hlc_lt a b).
Proof. unfold hlc_lt. apply _. Defined.

(** [Hlc::next]. *)
Definition hlc_next (prev : option Hlc) (now_ms : N) : Hlc :=
  match prev with
  | None => mkHlc now_ms 0
  | Some p =>
      if (wall p <? now_ms)%N then mkHlc now_ms 0
      else mkHlc (wall p) (wrapping_add_u32 (logical p) 1)
  end.

(** [Hlc::now] at the physical time [ms]. *)
Definition hlc_now (ms : N) : Hlc := hlc_next None ms.

(** The fields at their widths. *)
Definition hlc_wf (h : Hlc) : Prop := (wall h <= u64_max /\ logical h <= u32_max)%N.

(** A clock that is read again and again, each reading fed back as [prev]. *)
Fixpoint hlc_run (prev : option Hlc) (times : list N) : list Hlc :=
  match times with
  | [] => []
  | t :: ts => let h := hlc_next prev t in h :: hlc_run (Some h) ts
  end.

#[export] Instance hlc_lt_trans : Transitive hlc_lt.
Proof. intros a b c. unfold hlc_lt. lia. Qed.

Lemma hlc_next_wf prev now :
  (forall p, prev = Some p -> hlc_wf p) -> (now <= u64_max)%N -> hlc_wf (hlc_next prev now).
Proof.
  intros Hp Hnow. unfold hlc_next, hlc_wf. destruct prev as [p|]; cbn; [|lia].
  destruct (Hp p eq_refl). split_ifs; cbn; [lia|].
  unfold wrapping_add_u32. pose proof (N.mod_lt (logical p + 1) 4294967296). lia.
Qed.

(** One reading is above the previous one exactly when the clock moved or the
    counter did not wrap. *)
Lemma hlc_next_lt_iff p now :
  hlc_wf p -> hlc_lt p (hlc_next (Some p) now) <-> (wall p < now \/ logical p < u32_max)%N.
Proof.
  intros [_ Hl]. unfold hlc_next, hlc_lt. case_match; bool_facts; cbn; [lia|].
  unfold wrapping_add_u32. destruct (decide (logical p = u32_max)) as [->|Hne].
  - change ((u32_max + 1) mod 4294967296)%N with 0%N. lia.
  - rewrite N.mod_small by lia. lia.
Qed.

(** A reading that leaves room for [n] more before its counter wraps. *)
Definition hlc_room (p : Hlc) (n : nat) : Prop :=
  hlc_wf p /\ (logical p + N.of_nat n <= u32_max)%N.

Lemma hlc_next_room p t n :
  hlc_room p (S n) -> (t <= u64_max)%N ->
  hlc_room (hlc_next (Some p) t) n /\ hlc_lt p (hlc_next (Some p) t).
Proof.
  intros [Hw Hb] Ht. split; [split|].
  - by apply hlc_next_wf; [intros ? [= <-]|].
  - unfold hlc_next. case_match; cbn; [lia|].
    unfold wrapping_add_u32. rewrite N.mod_small by lia. lia.
  - apply hlc_next_lt_iff; [done|]. lia.
Qed.

Lemma hlc_run_sorted p times :
  hlc_room p (length times) -> Forall (fun t => t <= u64_max)%N times ->
  StronglySorted hlc_lt (p :: hlc_run (Some p) times).
Proof.
  revert p. induction times as [|t ts IH]; intros p Hp Ht; [repeat constructor|].
  apply Forall_cons in Ht as [Ht Hts].
  destruct (hlc_next_room p t (length ts) Hp Ht) as [Hroom Hlt].
  specialize (IH _ Hroom Hts). cbn [hlc_run]. constructor; [done|].
  apply StronglySorted_inv in IH as [_ Hall]. constructor; [done|].
  eapply Forall_impl; [exact Hall|]. intros h Hh. by etrans.
Qed.

(** A clock fed back into itself ([Hlc::next] with the previous reading)
    gives strictly increasing readings, whatever the physical clock does
    (including running backwards), as long as fewer than 2^32 readings are
    taken, so that the logical counter cannot wrap. *)
Theorem hlc_run_strictly_increasing (times : list N)
  (Hlen : (N.of_nat (length times) <= u32_max)%N)
  (Htimes : Forall (fun t => t <= u64_max)%N times) :
  StronglySorted hlc_lt (hlc_run None times).
Proof.
  destruct times as [|t ts]; [constructor|]. apply Forall_cons in Htimes as [Ht Hts].
  apply hlc_run_sorted; [|done]. unfold hlc_room, hlc_wf. cbn [hlc_next wall logical length] in *.
  lia.
Qed.

Lemma hlc_run_strictly_increasing_witness :
  hlc_run None [1000; 1000; 1001; 999]%N =
    [mkHlc 1000 0; mkHlc 1000 1; mkHlc 1001 0; mkHlc 1001 1] /\
  StronglySorted hlc_lt (hlc_run None [1000; 1000; 1001; 999]%N).
Proof.
  split; [reflexivity|]. apply hlc_run_strictly_increasing.
  - vm_compute. discriminate.
  - repeat constructor; vm_compute; discriminate.
Defined.

(** At the largest logical counter the next reading of a clock that did not
    advance is below the previous one: the counter wraps to zero, so
    [Hlc::next] does not keep its promise there. *)
Theorem hlc_next_wraps (w now : N) (Hnow : (now <= w)%N) :
  hlc_next (Some (mkHlc w u32_max)) now = mkHlc w 0 /\
  hlc_lt (hlc_next (Some (mkHlc w u32_max)) now) (mkHlc w u32_max).
Proof.
  unfold hlc_next. cbn [wall logical]. case_match; bool_facts; [lia|].
  split; [done|]. right. split; [done|]. vm_compute. done.
Qed.

Lemma hlc_next_wraps_witness :
  hlc_next (Some (mkHlc 1000 u32_max)) 1000 = mkHlc 1000 0 /\
  hlc_lt (hlc_next (Some (mkHlc 1000 u32_max)) 1000) (mkHlc 1000 u32_max).
Proof. apply (hlc_next_wraps 1000 1000). lia. Defined.
