(* ===== verification/Aggregate.v ===== *)
(** * es-core: aggregate identities, events and the partition hash

    [es-core/src/aggregate.rs], up to the catalog: identifier validation, the
    aggregate-type identity with its textual form, the event and state records,
    the partition of an instance and the idempotency fingerprint. The XXH3
    hash is third-party code and a parameter ([Xxh3]). *)

From S2P Require Import Prelude.
From S2P Require Import Bytes.
From S2P Require Import Core.

(** ** Identifiers *)

Definition EVENT_PARTITION_COUNT : N := 256.

Definition MAX_IDENTIFIER_BYTES : N := 128.

Definition RESERVED_IDENTIFIERS : list string := ["events.jsonl"; "states"; "groups"].

Definition is_ascii_alphanumeric (b : byte) : bool :=
  let n := Byte.to_N b in
  ((48 <=? n) && (n <=? 57) || (65 <=? n) && (n <=? 90) || (97 <=? n) && (n <=? 122))%N.

Definition identifier_byte (b : byte) : bool :=
  is_ascii_alphanumeric b || existsb (fun c => bool_decide (b = c)) (as_bytes "._-").

Definition validate_aggregate_identifier (kind value : string) : Result unit :=
  let bytes := as_bytes value in
  if bool_decide (bytes = []) || (MAX_IDENTIFIER_BYTES <? len bytes)%N then
    Err (InvalidInput (kind +:+ " 长度必须为 1..=128 字节"))
  else if existsb (fun r => bool_decide (r = value)) RESERVED_IDENTIFIERS then
    Err (InvalidInput (kind +:+ " 不能使用保留名称 " +:+ value))
  else
    let first := default x00 (head bytes) in
    if negb (is_ascii_alphanumeric first) || existsb (fun b => negb (identifier_byte b)) bytes then
      Err (InvalidInput (kind +:+ " 必须匹配 [A-Za-z0-9][A-Za-z0-9._-]{0,127}"))
    else Ok tt.

(** ** AggregateTypeId *)

Record AggregateTypeId : Type := mkTypeId {
  business_space : string;
  aggregate_type : string
}.

#[export] Instance AggregateTypeId_eq_dec : EqDecision AggregateTypeId.
Proof. solve_decision. Defined.

#[export] Program Instance AggregateTypeId_countable : Countable AggregateTypeId :=
  inj_countable' (fun t => (business_space t, aggregate_type t))
    (fun p => mkTypeId p.1 p.2) _.
Next Obligation. by intros []. Qed.

(** [AggregateTypeId::new]. *)
Definition type_id_new (space ty : string) : Result AggregateTypeId :=
  _ ← validate_aggregate_identifier "business_space" space;
  _ ← validate_aggregate_identifier "aggregate_type" ty;
  Ok (mkTypeId space ty).

(** [AggregateTypeId::validate]. *)
Definition type_id_validate (t : AggregateTypeId) : Result unit :=
  _ ← validate_aggregate_identifier "business_space" (business_space t);
  validate_aggregate_identifier "aggregate_type" (aggregate_type t).

(** [canonical_name], which is also the [Display]. *)
Definition canonical_name (t : AggregateTypeId) : string :=
  business_space t +:+ "/" +:+ aggregate_type t.

(** [str::split] on a character: one more part than separators. *)
Fixpoint split_char (c : Ascii.ascii) (s : string) : list string :=
  match s with
  | "" => [""]
  | String a s' =>
      if bool_decide (a = c) then "" :: split_char c s'
      else match split_char c s' with
           | p :: ps => String a p :: ps
           | [] => [String a ""]
           end
  end.

Definition slash : Ascii.ascii := Ascii.ascii_of_nat 47.

(** [FromStr]: [parts.next()] three times. *)
Definition type_id_from_str (value : string) : Result AggregateTypeId :=
  let parts := split_char slash value in
  let space := default "" (parts !! 0) in
  let ty := default "" (parts !! 1) in
  if bool_decide (is_Some (parts !! 2)) || bool_decide (space = "") || bool_decide (ty = "") then
    Err (InvalidInput "聚合类型身份必须是 business_space/aggregate_type")
  else type_id_new space ty.

(** ** Hashing

    A hasher is the bytes it was fed: [update] appends, and [digest] and
    [digest128] depend on the bytes alone. *)

Class Xxh3 : Type := {
  xxh3_digest : Bytes -> N;
  xxh3_digest128 : Bytes -> N
}.

(** The digests at their widths. *)
Class Xxh3Laws `{Xxh3} : Prop := {
  xxh3_digest_bound : forall b, (xxh3_digest b <= u64_max)%N;
  xxh3_digest128_bound : forall b, (xxh3_digest128 b <= u128_max)%N
}.

Inductive EventPartitionHash : Type := Xxh3V1.

#[export] Instance EventPartitionHash_eq_dec : EqDecision EventPartitionHash.
Proof. solve_decision. Defined.

(** [EventPartitionHash::partition]; the result is the [as u16] cast. *)
Definition partition `{Xxh3} (h : EventPartitionHash) (seed : Bytes) (aggregate_id : string)
    (partition_count : N) : Result N :=
  _ ← validate_aggregate_identifier "aggregate_id" aggregate_id;
  if (partition_count =? 0)%N then Err (InvalidInput "partition_count 必须大于 0")
  else
    let hash := match h with Xxh3V1 => xxh3_digest (seed ++ as_bytes aggregate_id) end in
    Ok ((hash mod partition_count) mod 65536)%N.

(** ** Events, versions and state documents *)

(** A [Uuid] is its 128-bit value; [as_bytes] is its big-endian form, and the
    order of uuids is the order of the values. *)
Abbreviation Uuid := N (only parsing).

Definition uuid_bytes (u : Uuid) : Bytes := be_bytes 16 u.

Record NewAggregateEvent : Type := mkNewEvent {
  ne_event_id : Uuid;
  ne_event_type : string;
  ne_data : Bytes;
  ne_metadata : Bytes
}.

Record AggregateEvent : Type := mkEvent {
  ev_aggregate_type : AggregateTypeId;
  ev_partition_id : N;
  ev_aggregate_id : string;
  ev_aggregate_version : N;
  ev_event_id : Uuid;
  ev_event_type : string;
  ev_data : Bytes;
  ev_metadata : Bytes;
  ev_hlc : Hlc;
  ev_partition_position : N
}.

Inductive ExpectedAggregateVersion : Type :=
| AnyVersion
| NoAggregate
| AggregateExists
| ExactVersion (version : N).

Record AggregateMeta : Type := mkMeta { current_version : N }.

Inductive ExpectedStateRevision : Type :=
| Absent
| ExactRevision (revision : N).

Record AggregateState : Type := mkState { st_revision : N; st_data : Bytes }.

Record AggregateStateDocument : Type := mkDocument {
  doc_revision : N;
  doc_data : Bytes;
  doc_modified_hlc : Hlc
}.

Record AggregateAppendResult : Type := mkAppendResult {
  ar_aggregate_version : N;
  ar_partition_position : N
}.

#[export] Instance NewAggregateEvent_eq_dec : EqDecision NewAggregateEvent.
Proof. solve_decision. Defined.
#[export] Instance AggregateEvent_eq_dec : EqDecision AggregateEvent.
Proof. solve_decision. Defined.
#[export] Instance ExpectedAggregateVersion_eq_dec : EqDecision ExpectedAggregateVersion.
Proof. solve_decision. Defined.
#[export] Instance AggregateState_eq_dec : EqDecision AggregateState.
Proof. solve_decision. Defined.
#[export] Instance AggregateStateDocument_eq_dec : EqDecision AggregateStateDocument.
Proof. solve_decision. Defined.
#[export] Instance AggregateAppendResult_eq_dec : EqDecision AggregateAppendResult.
Proof. solve_decision. Defined.

(** ** The append fingerprint *)

(** [update_bytes]: a length-prefixed field. *)
Definition update_bytes (hasher bytes : Bytes) : Bytes :=
  hasher ++ be_bytes 8 (len bytes) ++ bytes.

Definition expected_bytes (expected : ExpectedAggregateVersion) : Bytes :=
  match expected with
  | AnyVersion => [x00]
  | NoAggregate => [x01]
  | AggregateExists => [x02]
  | ExactVersion version => [x03] ++ be_bytes 8 version
  end.

(** The bytes the hasher has been fed when [digest128] is called. *)
Definition append_fingerprint_input (t : AggregateTypeId) (aggregate_id : string)
    (expected : ExpectedAggregateVersion) (event : NewAggregateEvent) : Bytes :=
  let h := update_bytes [] (as_bytes (business_space t)) in
  let h := update_bytes h (as_bytes (aggregate_type t)) in
  let h := update_bytes h (as_bytes aggregate_id) in
  let h := h ++ expected_bytes expected in
  let h := h ++ uuid_bytes (ne_event_id event) in
  let h := update_bytes h (as_bytes (ne_event_type event)) in
  let h := update_bytes h (ne_data event) in
  update_bytes h (ne_metadata event).

Definition aggregate_append_fingerprint `{Xxh3} (t : AggregateTypeId) (aggregate_id : string)
    (expected : ExpectedAggregateVersion) (event : NewAggregateEvent) : N :=
  xxh3_digest128 (append_fingerprint_input t aggregate_id expected event).

(** The widths Rust's types give an append request. *)
Definition append_input_wf (t : AggregateTypeId) (aggregate_id : string)
    (expected : ExpectedAggregateVersion) (event : NewAggregateEvent) : Prop :=
  (len (as_bytes (business_space t)) <= u64_max /\
   len (as_bytes (aggregate_type t)) <= u64_max /\
   len (as_bytes aggregate_id) <= u64_max /\
   (forall v, expected = ExactVersion v -> v <= u64_max) /\
   ne_event_id event <= u128_max /\
   len (as_bytes (ne_event_type event)) <= u64_max /\
   len (ne_data event) <= u64_max /\
   len (ne_metadata event) <= u64_max)%N.

(** ** Lemmas: identifiers *)

Create HintDb ident.

(** What [validate_aggregate_identifier] accepts, whatever the field's name. *)
Definition identifier_ok (v : string) : Prop :=
  as_bytes v <> [] /\ (len (as_bytes v) <= MAX_IDENTIFIER_BYTES)%N /\
  v ∉ RESERVED_IDENTIFIERS /\
  is_ascii_alphanumeric (default x00 (head (as_bytes v))) = true /\
  Forall (fun b => identifier_byte b = true) (as_bytes v).

Lemma validate_identifier_iff kind v :
  validate_aggregate_identifier kind v = Ok tt <-> identifier_ok v.
Proof.
  unfold validate_aggregate_identifier, identifier_ok.
  destruct (bool_decide (as_bytes v = [])) eqn:He; cbn [orb];
    [apply bool_decide_eq_true in He; split; [discriminate | tauto]|].
  destruct (MAX_IDENTIFIER_BYTES <? len (as_bytes v))%N eqn:Hl;
    [bool_facts; split; [discriminate | lia]|].
  destruct (existsb _ RESERVED_IDENTIFIERS) eqn:Hr.
  { apply existsb_True in Hr as (r & Hr & Heq). bool_facts. subst.
    split; [discriminate | tauto]. }
  assert (v ∉ RESERVED_IDENTIFIERS).
  { intros Hin. rewrite existsb_False in Hr. specialize (Hr v Hin).
    by apply bool_decide_eq_false in Hr. }
  bool_facts.
  destruct (is_ascii_alphanumeric (default x00 (head (as_bytes v)))) eqn:Ha; cbn [negb orb];
    [|split; [discriminate | intros (_ & _ & _ & ? & _); discriminate]].
  destruct (existsb _ (as_bytes v)) eqn:Hb.
  - split; [discriminate|]. intros (_ & _ & _ & _ & Hall).
    apply existsb_True in Hb as (b & Hb & Hnb). rewrite Forall_forall in Hall.
    rewrite (Hall b Hb) in Hnb. discriminate.
  - split; [|done]. intros _. repeat split; try done. apply Forall_forall. intros b Hin.
    rewrite existsb_False in Hb. specialize (Hb b Hin). by apply negb_false_iff in Hb.
Qed.

Lemma validate_identifier_result kind v :
  validate_aggregate_identifier kind v = Ok tt \/
  exists m, validate_aggregate_identifier kind v = Err (InvalidInput m).
Proof. unfold validate_aggregate_identifier. repeat case_match; eauto. Qed.

Definition type_id_ok (t : AggregateTypeId) : Prop :=
  identifier_ok (business_space t) /\ identifier_ok (aggregate_type t).

Lemma type_id_validate_iff t : type_id_validate t = Ok tt <-> type_id_ok t.
Proof.
  unfold type_id_validate, type_id_ok.
  destruct (validate_identifier_result "business_space" (business_space t)) as [H1|[m H1]];
    rewrite H1; cbn [mbind result_bind].
  - rewrite validate_identifier_iff in H1. rewrite validate_identifier_iff. tauto.
  - split; [discriminate|]. intros [H _]. apply (validate_identifier_iff "business_space") in H.
    congruence.
Qed.

Lemma type_id_validate_result t :
  type_id_validate t = Ok tt \/ exists m, type_id_validate t = Err (InvalidInput m).
Proof.
  unfold type_id_validate.
  destruct (validate_identifier_result "business_space" (business_space t)) as [->|[m ->]];
    cbn [mbind result_bind]; [apply validate_identifier_result | eauto].
Qed.

Lemma type_id_new_Ok space ty t :
  type_id_new space ty = Ok t <-> t = mkTypeId space ty /\ type_id_ok t.
Proof.
  unfold type_id_new. split.
  - intros H. inv_result. split; [done|].
    match goal with
    | H1 : validate_aggregate_identifier _ _ = Ok ?u, H2 : validate_aggregate_identifier _ _ = Ok ?w
      |- _ => destruct u, w; apply validate_identifier_iff in H1, H2 end.
    by split.
  - intros [-> [H1 H2]]. cbn in H1, H2.
    by rewrite (proj2 (validate_identifier_iff _ _) H1), (proj2 (validate_identifier_iff _ _) H2).
Qed.

(** An identifier fits every length field and holds no separator. *)
Lemma identifier_ok_len v : identifier_ok v -> (len (as_bytes v) <= 128)%N.
Proof. unfold identifier_ok, MAX_IDENTIFIER_BYTES. tauto. Qed.

Lemma identifier_ok_nonempty v : identifier_ok v -> v <> "".
Proof. intros [H _] ->. by apply H. Qed.

Definition slash_byte : byte := x2f.

Lemma identifier_ok_no_slash v : identifier_ok v -> slash_byte ∉ as_bytes v.
Proof.
  intros (_ & _ & _ & _ & H) Hin. rewrite Forall_forall in H. by apply H in Hin.
Qed.

#[export] Hint Resolve identifier_ok_len identifier_ok_nonempty identifier_ok_no_slash : ident.

(** Two byte strings joined by a separator the heads do not contain. *)
Lemma sep_app_inj (c : byte) (x1 y1 x2 y2 : Bytes) :
  c ∉ x1 -> c ∉ x2 -> x1 ++ c :: y1 = x2 ++ c :: y2 -> x1 = x2 /\ y1 = y2.
Proof.
  revert x2. induction x1 as [|a x1 IH]; intros [|b x2] H1 H2 H; cbn in H.
  - by injection H.
  - injection H as -> _. set_solver.
  - injection H as <- _. set_solver.
  - injection H as -> H. destruct (IH x2) as [-> ->]; set_solver.
Qed.

Lemma canonical_name_bytes t :
  as_bytes (canonical_name t) =
  as_bytes (business_space t) ++ slash_byte :: as_bytes (aggregate_type t).
Proof. unfold canonical_name. by rewrite !as_bytes_app. Qed.

Lemma canonical_name_inj t u :
  type_id_ok t -> type_id_ok u -> canonical_name t = canonical_name u -> t = u.
Proof.
  intros [Ht _] [Hu _] H. apply (f_equal as_bytes) in H. rewrite !canonical_name_bytes in H.
  apply sep_app_inj in H as [H1 H2]; [|auto with ident|auto with ident].
  apply as_bytes_inj in H1, H2. destruct t, u. cbn in *. congruence.
Qed.

Lemma canonical_name_len t : type_id_ok t -> (len (as_bytes (canonical_name t)) <= 257)%N.
Proof.
  intros [H1%identifier_ok_len H2%identifier_ok_len]. rewrite canonical_name_bytes.
  autorewrite with machine. lia.
Qed.

(** ** Lemmas: splitting *)

Lemma split_char_no_sep s :
  slash_byte ∉ as_bytes s -> split_char slash s = [s].
Proof.
  induction s as [|a s IH]; intros H; [done|]. cbn.
  change (as_bytes (String a s)) with (Ascii.byte_of_ascii a :: as_bytes s) in H.
  rewrite bool_decide_eq_false_2.
  - rewrite IH; [done|]. set_solver.
  - intros ->. set_solver.
Qed.

Lemma split_char_sep s t :
  slash_byte ∉ as_bytes s ->
  split_char slash (s +:+ String slash t) = s :: split_char slash t.
Proof.
  induction s as [|a s IH]; intros H; [done|].
  change (String a s +:+ String slash t) with (String a (s +:+ String slash t)). cbn [split_char].
  change (as_bytes (String a s)) with (Ascii.byte_of_ascii a :: as_bytes s) in H.
  rewrite bool_decide_eq_false_2 by (intros ->; set_solver).
  rewrite IH; [done|]. set_solver.
Qed.

(** Joining the parts gives the string back. *)
Fixpoint join_slash (l : list string) : string :=
  match l with
  | [] => ""
  | [p] => p
  | p :: l' => p +:+ String slash (join_slash l')
  end.

Lemma split_char_nonempty s : split_char slash s <> [].
Proof. destruct s; cbn; [done|]. case_match; [done|]. by case_match. Qed.

Lemma join_split s : join_slash (split_char slash s) = s.
Proof.
  induction s as [|a s IH]; [done|]. cbn [split_char]. case_match; bool_facts.
  - subst. destruct (split_char slash s) eqn:E; [by apply split_char_nonempty in E|].
    change (join_slash ("" :: s0 :: l)) with (String slash (join_slash (s0 :: l))). by rewrite IH.
  - destruct (split_char slash s) as [|p ps] eqn:E; [by apply split_char_nonempty in E|].
    destruct ps; cbn in *; by rewrite <- IH.
Qed.

(** [from_str] and [Display] of an aggregate-type identity are inverse: a
    validated identity is parsed back from its canonical name, and whatever
    [from_str] accepts is a validated identity whose canonical name is the input;
    everything else is an [InvalidInput] error. *)
Theorem type_id_from_str_canonical (t : AggregateTypeId) (s : string) :
  type_id_from_str s = Ok t <-> type_id_ok t /\ canonical_name t = s.
Proof.
  unfold type_id_from_str. split.
  - case_match eqn:Hg; [discriminate|]. intros [-> Hok]%type_id_new_Ok. split; [done|].
    bool_facts. pose proof (join_split s) as Hj.
    destruct (split_char slash s) as [|p [|q [|r ps]]]; cbn in *; try done.
    exfalso. match goal with Hn : ~ is_Some _ |- _ => apply Hn; eauto end.
  - intros [Hok <-]. pose proof Hok as [Hs Ha]. unfold canonical_name.
    change ("/" +:+ aggregate_type t) with (String slash (aggregate_type t)).
    rewrite split_char_sep, split_char_no_sep by auto with ident. cbn.
    rewrite !bool_decide_eq_false_2 by auto with ident. cbn.
    apply type_id_new_Ok. by destruct t.
Qed.

(** The partition of an aggregate instance is below the type's partition
    count, and it is an error exactly when the identifier is invalid or the
    count is zero. *)
Theorem partition_in_range `{Xxh3} (h : EventPartitionHash) (seed : Bytes) (id : string)
  (count : N) (Hcount : (count <= u16_max)%N) :
  match partition h seed id count with
  | Ok p => identifier_ok id /\ (p < count)%N
  | Err _ => ~ identifier_ok id \/ count = 0%N
  end.
Proof.
  unfold partition.
  destruct (validate_identifier_result "aggregate_id" id) as [Hv|[m Hv]]; rewrite Hv;
    cbn [mbind result_bind].
  - apply validate_identifier_iff in Hv. destruct (N.eqb_spec count 0); [by right|].
    split; [done|]. match goal with |- context [(?x mod count)%N] =>
      pose proof (N.mod_lt x count) end.
    rewrite N.mod_small; lia.
  - left. intros Hok. apply (validate_identifier_iff "aggregate_id") in Hok. congruence.
Qed.

(** A concrete hash, at which the hypotheses on [Xxh3] hold. *)
Definition demo_xxh3 : Xxh3 := {|
  xxh3_digest := foldl (fun h b => (h * 31 + Byte.to_N b) mod 18446744073709551616)%N 7%N;
  xxh3_digest128 := foldl (fun h b => (h * 31 + Byte.to_N b) mod 18446744073709551616)%N 5%N
|}.

Lemma demo_digest_bound (b : Bytes) (h : N) :
  (h <= u64_max)%N ->
  (foldl (fun h b => (h * 31 + Byte.to_N b) mod 18446744073709551616)%N h b <= u64_max)%N.
Proof.
  revert h. induction b as [|a b IH]; intros h Hh; cbn; [done|]. apply IH.
  pose proof (N.mod_lt (h * 31 + Byte.to_N a) 18446744073709551616). lia.
Qed.

Lemma demo_xxh3_laws : @Xxh3Laws demo_xxh3.
Proof.
  split; intros b; cbn [xxh3_digest xxh3_digest128 demo_xxh3].
  - apply demo_digest_bound. lia.
  - pose proof (demo_digest_bound b 5). lia.
Qed.

Lemma partition_in_range_witness :
  @partition demo_xxh3 Xxh3V1 (replicate 16 x07) "order-1" 256 = Ok 139%N /\ (139 < 256)%N.
Proof.
  pose proof (@partition_in_range demo_xxh3 Xxh3V1 (replicate 16 x07) "order-1" 256) as H.
  assert (Hp : @partition demo_xxh3 Xxh3V1 (replicate 16 x07) "order-1" 256 = Ok 139%N)
    by (vm_compute; reflexivity).
  rewrite Hp in H. split; [done|]. apply H. vm_compute. discriminate.
Defined.

(** ** Lemmas: the fingerprint *)

Lemma update_bytes_len_prefixed h b : update_bytes h b = h ++ len_prefixed b.
Proof. reflexivity. Qed.

Lemma expected_bytes_app_inj e1 e2 x y :
  (forall v, e1 = ExactVersion v -> v <= u64_max)%N ->
  (forall v, e2 = ExactVersion v -> v <= u64_max)%N ->
  expected_bytes e1 ++ x = expected_bytes e2 ++ y -> e1 = e2 /\ x = y.
Proof.
  intros H1 H2. destruct e1 as [| | |v1], e2 as [| | |v2]; unfold expected_bytes; intros H;
    try discriminate; try (by injection H as ->).
  rewrite <- !app_assoc in H. apply app_inj_length in H as [_ H]; [|done].
  apply be_bytes_app_inj in H as [-> ->]; [done | |]; apply u64_lt_pow; auto.
Qed.

(** The bytes hashed into an append fingerprint determine the request: two
    requests with the same hash input have the same aggregate type, instance,
    expected version and event, so a fingerprint mismatch can only be missed by
    a collision of XXH3 itself. *)
Theorem append_fingerprint_input_inj (t1 t2 : AggregateTypeId) (id1 id2 : string)
  (e1 e2 : ExpectedAggregateVersion) (ev1 ev2 : NewAggregateEvent)
  (H1 : append_input_wf t1 id1 e1 ev1) (H2 : append_input_wf t2 id2 e2 ev2)
  (Heq : append_fingerprint_input t1 id1 e1 ev1 = append_fingerprint_input t2 id2 e2 ev2) :
  t1 = t2 /\ id1 = id2 /\ e1 = e2 /\ ev1 = ev2.
Proof.
  destruct H1 as (?&?&?&?&?&?&?&?), H2 as (?&?&?&?&?&?&?&?).
  unfold append_fingerprint_input in Heq. rewrite !update_bytes_len_prefixed in Heq.
  rewrite !app_nil_l, <- !app_assoc in Heq.
  do 3 (apply len_prefixed_app_inj in Heq as [?%as_bytes_inj Heq]; [|done|done]).
  apply expected_bytes_app_inj in Heq as [-> Heq]; [|done|done].
  apply be_bytes_app_inj in Heq as [? Heq]; [|auto with widths|auto with widths].
  apply len_prefixed_app_inj in Heq as [?%as_bytes_inj Heq]; [|done|done].
  apply len_prefixed_app_inj in Heq as [? Heq]; [|done|done].
  rewrite <- (app_nil_r (len_prefixed (ne_metadata ev1))),
    <- (app_nil_r (len_prefixed (ne_metadata ev2))) in Heq.
  apply len_prefixed_app_inj in Heq as [? _]; [|done|done].
  destruct t1, t2, ev1, ev2. cbn in *. by subst.
Qed.

Definition demo_type : AggregateTypeId := mkTypeId "orders" "order".

Definition demo_event : NewAggregateEvent := mkNewEvent 1 "OrderPlaced" [x7b; x7d] [].

Lemma append_fingerprint_input_inj_witness :
  demo_type = mkTypeId "orders" "order" /\ "order-1" = "order-1" /\
  ExactVersion 3 = ExactVersion 3 /\ demo_event = mkNewEvent 1 "OrderPlaced" [x7b; x7d] [].
Proof.
  assert (Hwf : append_input_wf demo_type "order-1" (ExactVersion 3) demo_event).
  { unfold append_input_wf. split_and!; [..|intros v [= <-]| | | | ]; vm_compute; discriminate. }
  apply (append_fingerprint_input_inj demo_type (mkTypeId "orders" "order") "order-1" "order-1"
    (ExactVersion 3) (ExactVersion 3) demo_event (mkNewEvent 1 "OrderPlaced" [x7b; x7d] [])
    Hwf Hwf eq_refl).
Defined.
