(* ===== verification/Catalog.v ===== *)
(** * es-core: the aggregate-type catalog

    [es-core/src/aggregate.rs], from [AggregateTypeStatus] on: the catalog the
    control shard keeps, its command language ([Create], [Activate],
    [PrepareMove], [CompleteMove]) and [AggregateCatalog::apply]. A command is a
    function from the catalog to the next catalog and the reply. *)

From S2P Require Import Prelude.
From S2P Require Import Bytes.
From S2P Require Import Core.
From S2P Require Import Aggregate.

(** ** Data *)

Inductive AggregateTypeStatus : Type := Registering | Active.

#[export] Instance AggregateTypeStatus_eq_dec : EqDecision AggregateTypeStatus.
Proof. solve_decision. Defined.

Record PartitionMove : Type := mkMove {
  mv_operation_id : Uuid;
  mv_source_shard : N;
  mv_target_shard : N;
  mv_next_generation : N
}.

#[export] Instance PartitionMove_eq_dec : EqDecision PartitionMove.
Proof. solve_decision. Defined.

Record PartitionPlacement : Type := mkPlacement {
  pl_shard_id : N;
  pl_generation : N;
  pl_pending_move : option PartitionMove;
  pl_last_completed_operation : option Uuid
}.

#[export] Instance PartitionPlacement_eq_dec : EqDecision PartitionPlacement.
Proof. solve_decision. Defined.

Record AggregateTypeDefinition : Type := mkDefinition {
  td_id : AggregateTypeId;
  td_create_operation_id : Uuid;
  td_create_plan_fingerprint : N;
  td_seed : Bytes;
  td_partition_count : N;
  td_hash_algorithm : EventPartitionHash;
  td_status : AggregateTypeStatus;
  td_placements : gmap N PartitionPlacement
}.

#[export] Instance AggregateTypeDefinition_eq_dec : EqDecision AggregateTypeDefinition.
Proof. solve_decision. Defined.

Record AggregateCatalog : Type := mkCatalog {
  cat_revision : N;
  cat_aggregate_types : gmap AggregateTypeId AggregateTypeDefinition
}.

(** [Default]. *)
Definition catalog_default : AggregateCatalog := mkCatalog 0 ∅.

Inductive AggregateCatalogCommand : Type :=
| CmdCreate (t : AggregateTypeId) (operation_id : Uuid) (seed : Bytes) (placements : gmap N N)
| CmdActivate (t : AggregateTypeId) (operation_id : Uuid)
| CmdPrepareMove (t : AggregateTypeId) (partition_id expected_generation target_shard : N)
    (operation_id : Uuid)
| CmdCompleteMove (t : AggregateTypeId) (partition_id : N) (operation_id : Uuid).

Inductive AggregateCatalogOutcome : Type :=
| OutType (d : AggregateTypeDefinition) (changed : bool)
| OutNotFound
| OutConflict (reason : string)
| OutInvalid (reason : string).

Record AggregateCatalogApply : Type := mkCatalogApply {
  ca_revision : N;
  ca_outcome : AggregateCatalogOutcome
}.

(** ** Operations *)

Section WithHash.
Context `{Xxh3}.

Definition create_plan_fingerprint (seed : Bytes) (placements : gmap N N) : N :=
  xxh3_digest128
    (seed ++ be_bytes 8 (N.of_nat (size placements)) ++
     flat_map (fun '(partition_id, shard_id) => be_bytes 2 partition_id ++ be_bytes 8 shard_id)
       (btree_iter placements)).

(** [AggregateTypeDefinition::partition_for]. *)
Definition partition_for (d : AggregateTypeDefinition) (aggregate_id : string) : Result N :=
  partition (td_hash_algorithm d) (td_seed d) aggregate_id (td_partition_count d).

(** [0..count] for the partition numbers. *)
Definition partition_ids (count : N) : list N := map N.of_nat (seq 0 (N.to_nat count)).

Definition initial_placement (shard_id : N) : PartitionPlacement :=
  mkPlacement shard_id 1 None None.

(** [AggregateTypeDefinition::create]. *)
Definition definition_create (id : AggregateTypeId) (operation_id : Uuid) (seed : Bytes)
    (placements : gmap N N) : result string AggregateTypeDefinition :=
  if negb (N.of_nat (size placements) =? EVENT_PARTITION_COUNT)%N
     || existsb (fun p => bool_decide (placements !! p = None)) (partition_ids EVENT_PARTITION_COUNT)
  then Err ("聚合类型必须完整提供 " +:+ pretty EVENT_PARTITION_COUNT +:+ " 个分区放置")
  else
    Ok {| td_id := id;
          td_create_operation_id := operation_id;
          td_create_plan_fingerprint := create_plan_fingerprint seed placements;
          td_seed := seed;
          td_partition_count := EVENT_PARTITION_COUNT;
          td_hash_algorithm := Xxh3V1;
          td_status := Registering;
          td_placements := initial_placement <$> placements |}.

Definition set_status (s : AggregateTypeStatus) (d : AggregateTypeDefinition) :
    AggregateTypeDefinition :=
  mkDefinition (td_id d) (td_create_operation_id d) (td_create_plan_fingerprint d) (td_seed d)
    (td_partition_count d) (td_hash_algorithm d) s (td_placements d).

Definition set_placement (p : N) (pl : PartitionPlacement) (d : AggregateTypeDefinition) :
    AggregateTypeDefinition :=
  mkDefinition (td_id d) (td_create_operation_id d) (td_create_plan_fingerprint d) (td_seed d)
    (td_partition_count d) (td_hash_algorithm d) (td_status d) (<[p := pl]> (td_placements d)).

(** Store the changed definition and advance the revision ([self.revision += 1]). *)
Definition catalog_commit (c : AggregateCatalog) (t : AggregateTypeId)
    (d : AggregateTypeDefinition) : AggregateCatalog * AggregateCatalogOutcome :=
  (mkCatalog (wrapping_add_u64 (cat_revision c) 1) (<[t := d]> (cat_aggregate_types c)),
   OutType d true).

Definition catalog_create (c : AggregateCatalog) (t : AggregateTypeId) (operation_id : Uuid)
    (seed : Bytes) (placements : gmap N N) : AggregateCatalog * AggregateCatalogOutcome :=
  match type_id_validate t with
  | Err error => (c, OutInvalid (error_to_string error))
  | Ok _ =>
      match cat_aggregate_types c !! t with
      | Some existing =>
          if bool_decide (td_create_operation_id existing = operation_id)
             && bool_decide (td_create_plan_fingerprint existing =
                             create_plan_fingerprint seed placements)
          then (c, OutType existing false)
          else (c, OutConflict "聚合类型已由另一注册操作定义")
      | None =>
          match definition_create t operation_id seed placements with
          | Ok created => catalog_commit c t created
          | Err reason => (c, OutInvalid reason)
          end
      end
  end.

Definition catalog_activate (c : AggregateCatalog) (t : AggregateTypeId) (operation_id : Uuid) :
    AggregateCatalog * AggregateCatalogOutcome :=
  match cat_aggregate_types c !! t with
  | None => (c, OutNotFound)
  | Some existing =>
      if negb (bool_decide (td_create_operation_id existing = operation_id)) then
        (c, OutConflict "激活操作与创建 operation_id 不一致")
      else if bool_decide (td_status existing = Active) then (c, OutType existing false)
      else catalog_commit c t (set_status Active existing)
  end.

Definition prepare_move (c : AggregateCatalog) (t : AggregateTypeId)
    (partition_id expected_generation target_shard : N) (operation_id : Uuid) :
    AggregateCatalog * AggregateCatalogOutcome :=
  match cat_aggregate_types c !! t with
  | None => (c, OutNotFound)
  | Some d =>
      if negb (bool_decide (td_status d = Active)) then
        (c, OutInvalid "只有 Active 聚合类型可以移动分区")
      else
        match td_placements d !! partition_id with
        | None => (c, OutInvalid "partition_id 超出聚合类型范围")
        | Some pl =>
            match pl_pending_move pl with
            | Some pending =>
                if (mv_operation_id pending =? operation_id)%N
                   && (mv_target_shard pending =? target_shard)%N
                   && (mv_source_shard pending =? pl_shard_id pl)%N
                then (c, OutType d false)
                else (c, OutConflict "该分区已有迁移操作")
            | None =>
                if negb (pl_generation pl =? expected_generation)%N then
                  (c, OutConflict ("分区 generation 已变化: expected=" +:+
                         pretty expected_generation +:+ ", actual=" +:+ pretty (pl_generation pl)))
                else if (pl_shard_id pl =? target_shard)%N then
                  (c, OutInvalid "迁移目标不能是当前 Shard")
                else
                  match checked_add_u64 (pl_generation pl) 1 with
                  | None => (c, OutInvalid "分区 generation 已耗尽")
                  | Some next_generation =>
                      catalog_commit c t (set_placement partition_id
                        (mkPlacement (pl_shard_id pl) (pl_generation pl)
                           (Some (mkMove operation_id (pl_shard_id pl) target_shard next_generation))
                           (pl_last_completed_operation pl)) d)
                  end
            end
        end
  end.

Definition complete_move (c : AggregateCatalog) (t : AggregateTypeId) (partition_id : N)
    (operation_id : Uuid) : AggregateCatalog * AggregateCatalogOutcome :=
  match cat_aggregate_types c !! t with
  | None => (c, OutNotFound)
  | Some d =>
      match td_placements d !! partition_id with
      | None => (c, OutInvalid "partition_id 超出聚合类型范围")
      | Some pl =>
          match pl_pending_move pl with
          | None =>
              if bool_decide (pl_last_completed_operation pl = Some operation_id)
              then (c, OutType d false)
              else (c, OutConflict "该分区没有匹配的待完成迁移")
          | Some pending =>
              if negb (mv_operation_id pending =? operation_id)%N then
                (c, OutConflict "完成操作与待迁移 operation_id 不一致")
              else
                catalog_commit c t (set_placement partition_id
                  (mkPlacement (mv_target_shard pending) (mv_next_generation pending) None
                     (Some operation_id)) d)
          end
      end
  end.

(** [AggregateCatalog::apply]. *)
Definition catalog_apply (c : AggregateCatalog) (command : AggregateCatalogCommand) :
    AggregateCatalog * AggregateCatalogApply :=
  let '(c', outcome) :=
    match command with
    | CmdCreate t op seed placements => catalog_create c t op seed placements
    | CmdActivate t op => catalog_activate c t op
    | CmdPrepareMove t p gen target op => prepare_move c t p gen target op
    | CmdCompleteMove t p op => complete_move c t p op
    end in
  (c', mkCatalogApply (cat_revision c') outcome).

(** A log of commands applied in order, with the replies. *)
Fixpoint catalog_run (c : AggregateCatalog) (commands : list AggregateCatalogCommand) :
    AggregateCatalog * list AggregateCatalogApply :=
  match commands with
  | [] => (c, [])
  | cmd :: cmds =>
      let '(c', reply) := catalog_apply c cmd in
      let '(c'', replies) := catalog_run c' cmds in
      (c'', reply :: replies)
  end.

End WithHash.

(** ** The transitions of a definition

    Every command either leaves the catalog as it is or makes one step of this
    relation on one definition ([catalog_apply_cases]). *)

Section Transitions.
Context `{Xxh3}.

Inductive definition_step (t : AggregateTypeId) :
    option AggregateTypeDefinition -> AggregateTypeDefinition -> Prop :=
| step_create op seed placements d :
    type_id_ok t ->
    definition_create t op seed placements = Ok d ->
    definition_step t None d
| step_activate d :
    td_status d = Registering ->
    definition_step t (Some d) (set_status Active d)
| step_prepare d p pl op target :
    td_status d = Active ->
    td_placements d !! p = Some pl ->
    pl_pending_move pl = None ->
    pl_shard_id pl <> target ->
    (pl_generation pl + 1 <= u64_max)%N ->
    definition_step t (Some d)
      (set_placement p (mkPlacement (pl_shard_id pl) (pl_generation pl)
         (Some (mkMove op (pl_shard_id pl) target (pl_generation pl + 1)))
         (pl_last_completed_operation pl)) d)
| step_complete d p pl m :
    td_placements d !! p = Some pl ->
    pl_pending_move pl = Some m ->
    definition_step t (Some d)
      (set_placement p (mkPlacement (mv_target_shard m) (mv_next_generation m) None
         (Some (mv_operation_id m))) d).

(** The type a command is about. *)
Definition command_type (cmd : AggregateCatalogCommand) : AggregateTypeId :=
  match cmd with
  | CmdCreate t _ _ _ | CmdActivate t _ | CmdPrepareMove t _ _ _ _ | CmdCompleteMove t _ _ => t
  end.

Definition is_changed (o : AggregateCatalogOutcome) : bool :=
  match o with OutType _ true => true | _ => false end.

Lemma catalog_apply_cases c cmd c' r :
  catalog_apply c cmd = (c', r) ->
  (c' = c /\ r = mkCatalogApply (cat_revision c) (ca_outcome r) /\ is_changed (ca_outcome r) = false)
  \/ exists d, definition_step (command_type cmd) (cat_aggregate_types c !! command_type cmd) d /\
       (c', ca_outcome r) = catalog_commit c (command_type cmd) d /\ ca_revision r = cat_revision c'.
Proof.
  unfold catalog_apply. destruct cmd as [t op seed pls|t op|t p gen target op|t p op];
    cbn [command_type].
  - unfold catalog_create. destruct (type_id_validate t) as [[]|e] eqn:Hv;
      [|intros [= <- <-]; left; done].
    destruct (cat_aggregate_types c !! t) as [ex|] eqn:Hex.
    + case_if; intros [= <- <-]; left; done.
    + destruct (definition_create t op seed pls) as [d|e] eqn:Hd; intros [= <- <-]; [|left; done].
      right. exists d. split; [|done]. apply type_id_validate_iff in Hv. by econstructor.
  - unfold catalog_activate. destruct (cat_aggregate_types c !! t) as [ex|] eqn:Hex;
      [|intros [= <- <-]; left; done].
    repeat case_if; intros [= <- <-]; try (left; done). right.
    eexists. split; [|done]. constructor. bool_facts. by destruct (td_status ex).
  - unfold prepare_move. destruct (cat_aggregate_types c !! t) as [d|] eqn:Hex;
      [|intros [= <- <-]; left; done].
    case_if; [intros [= <- <-]; left; done|].
    destruct (td_placements d !! p) as [pl|] eqn:Hpl; [|intros [= <- <-]; left; done].
    destruct (pl_pending_move pl) as [m|] eqn:Hm; [case_if; intros [= <- <-]; left; done|].
    do 2 (case_if; [intros [= <- <-]; left; done|]).
    destruct (checked_add_u64 _ _) as [n|] eqn:Hn; intros [= <- <-]; [|left; done]. right.
    apply checked_add_u64_Some in Hn as [-> Hn]. bool_facts.
    eexists. split; [|done]. by eapply step_prepare.
  - unfold complete_move. destruct (cat_aggregate_types c !! t) as [d|] eqn:Hex;
      [|intros [= <- <-]; left; done].
    destruct (td_placements d !! p) as [pl|] eqn:Hpl; [|intros [= <- <-]; left; done].
    destruct (pl_pending_move pl) as [m|] eqn:Hm; [|case_if; intros [= <- <-]; left; done].
    case_if; intros [= <- <-]; [left; done|]. right. bool_facts. subst.
    eexists. split; [|done]. by eapply step_complete.
Qed.

(** ** Well-formedness *)

Definition placement_wf (active : bool) (pl : PartitionPlacement) : Prop :=
  (1 <= pl_generation pl <= u64_max)%N /\
  match pl_pending_move pl with
  | None => True
  | Some m =>
      active = true /\
      mv_source_shard m = pl_shard_id pl /\ mv_target_shard m <> pl_shard_id pl /\
      mv_next_generation m = (pl_generation pl + 1)%N /\ (mv_next_generation m <= u64_max)%N
  end.

Definition definition_wf (t : AggregateTypeId) (d : AggregateTypeDefinition) : Prop :=
  td_id d = t /\ type_id_ok t /\ td_partition_count d = EVENT_PARTITION_COUNT /\
  (forall p, is_Some (td_placements d !! p) <-> (p < EVENT_PARTITION_COUNT)%N) /\
  map_Forall (fun _ => placement_wf (bool_decide (td_status d = Active))) (td_placements d).

Definition catalog_wf (c : AggregateCatalog) : Prop :=
  map_Forall definition_wf (cat_aggregate_types c).

Lemma elem_of_partition_ids count p : p ∈ partition_ids count <-> (p < count)%N.
Proof.
  unfold partition_ids. rewrite list_elem_of_fmap. split.
  - intros (n & -> & Hn%elem_of_seq). lia.
  - intros Hp. exists (N.to_nat p). rewrite N2Nat.id, elem_of_seq. split; [done|lia].
Qed.

Lemma length_partition_ids count : length (partition_ids count) = N.to_nat count.
Proof. unfold partition_ids. by rewrite length_map, length_seq. Qed.

Lemma NoDup_partition_ids count : NoDup (partition_ids count).
Proof. unfold partition_ids. apply NoDup_fmap_2; [apply _ | apply NoDup_seq]. Qed.

(** A map with [count] entries that has every number below [count] has no other key. *)
Lemma full_map_dom {A} (m : gmap N A) count :
  N.of_nat (size m) = count ->
  (forall p, (p < count)%N -> is_Some (m !! p)) ->
  forall p, is_Some (m !! p) <-> (p < count)%N.
Proof.
  intros Hs Hall p. split; [|apply Hall].
  rewrite <- elem_of_dom. set (ids := list_to_set (partition_ids count) : gset N).
  assert (Hsub : ids ⊆ dom m).
  { intros q Hq. unfold ids in Hq. rewrite elem_of_list_to_set, elem_of_partition_ids in Hq.
    by apply elem_of_dom, Hall. }
  assert (Heq : ids = dom m).
  { apply set_subseteq_size_eq; [done|]. unfold ids.
    rewrite size_dom, size_list_to_set, length_partition_ids by apply NoDup_partition_ids. lia. }
  rewrite <- Heq. unfold ids. by rewrite elem_of_list_to_set, elem_of_partition_ids.
Qed.

Lemma definition_create_Ok t op seed pls d :
  definition_create t op seed pls = Ok d ->
  d = mkDefinition t op (create_plan_fingerprint seed pls) seed EVENT_PARTITION_COUNT Xxh3V1
        Registering (initial_placement <$> pls) /\
  (forall p, is_Some (pls !! p) <-> (p < EVENT_PARTITION_COUNT)%N).
Proof.
  unfold definition_create. case_match eqn:Hc; [discriminate|]. intros [= <-].
  split; [done|]. bool_facts. apply full_map_dom; [done|]. intros p Hp.
  match goal with He : existsb _ _ = false |- _ => rewrite existsb_False in He;
    specialize (He p (proj2 (elem_of_partition_ids _ _) Hp)); apply bool_decide_eq_false in He;
    by apply not_eq_None_Some in He end.
Qed.

Lemma insert_dom_iff {A} (m : gmap N A) p x count :
  (forall q, is_Some (m !! q) <-> (q < count)%N) -> is_Some (m !! p) ->
  forall q, is_Some (<[p := x]> m !! q) <-> (q < count)%N.
Proof.
  intros Hdom Hp q. rewrite lookup_insert. case_decide; subst; [|apply Hdom].
  split; [intros _; by apply Hdom | eauto].
Qed.

Lemma definition_step_wf t old d :
  definition_step t old d -> (forall o, old = Some o -> definition_wf t o) -> definition_wf t d.
Proof.
  intros Hstep Hold.
  destruct Hstep as [op seed pls d Ht Hc|d Hs|d p pl op tgt Hs Hp Hm Hne Hg|d p pl m Hp Hm].
  - apply definition_create_Ok in Hc as [-> Hd]. unfold definition_wf. split_and!; try done; cbn.
    + intros p. rewrite <- Hd, lookup_fmap. by rewrite fmap_is_Some.
    + intros p pl Hpl. rewrite lookup_fmap in Hpl. apply fmap_Some in Hpl as (s & _ & ->).
      unfold placement_wf. cbn. lia.
  - destruct (Hold d eq_refl) as (? & ? & ? & ? & Hall). unfold definition_wf.
    split_and!; try done. cbn. eapply map_Forall_impl; [exact Hall|]. cbn. intros _ pl [Hg Hm].
    split; [done|]. destruct (pl_pending_move pl); [|done]. destruct Hm as (Ha & Hm).
    by rewrite Hs in Ha.
  - destruct (Hold d eq_refl) as (? & ? & ? & Hdom & Hall). unfold definition_wf.
    split_and!; try done; cbn; [by apply insert_dom_iff|].
    apply map_Forall_insert_2; [|done]. destruct (Hall p pl Hp) as [Hg' _].
    unfold placement_wf. cbn. rewrite Hs. split_and!; [lia|lia|done..|lia].
  - destruct (Hold d eq_refl) as (? & ? & ? & Hdom & Hall). unfold definition_wf.
    split_and!; try done; cbn; [by apply insert_dom_iff|].
    apply map_Forall_insert_2; [|done]. destruct (Hall p pl Hp) as [Hg' Hm'].
    rewrite Hm in Hm'. destruct Hm' as (_ & _ & _ & Hn & Hb). unfold placement_wf. cbn. lia.
Qed.

Lemma catalog_apply_wf c cmd : catalog_wf c -> catalog_wf (catalog_apply c cmd).1.
Proof.
  intros Hwf. destruct (catalog_apply c cmd) as [c' r] eqn:Ha. cbn.
  apply catalog_apply_cases in Ha as [(-> & _)|(d & Hstep & Hc & _)]; [done|].
  injection Hc as -> _. unfold catalog_wf. cbn. apply map_Forall_insert_2; [|done].
  eapply definition_step_wf; [done|]. intros o Ho. by apply Hwf.
Qed.

Lemma catalog_run_cons c cmd cmds :
  (catalog_run c (cmd :: cmds)).1 = (catalog_run (catalog_apply c cmd).1 cmds).1.
Proof. cbn. destruct (catalog_apply c cmd) as [c' r]. cbn. by destruct (catalog_run c' cmds). Qed.

Lemma catalog_run_wf c cmds : catalog_wf c -> catalog_wf (catalog_run c cmds).1.
Proof.
  revert c. induction cmds as [|cmd cmds IH]; intros c Hwf; [done|].
  rewrite catalog_run_cons. by apply IH, catalog_apply_wf.
Qed.

(** ** What a command can do to a placement *)

(** [later pl pl']: the generation does not go back, and an equal generation is
    on the same shard. *)
Definition placement_later (pl pl' : PartitionPlacement) : Prop :=
  (pl_generation pl <= pl_generation pl')%N /\
  (pl_generation pl = pl_generation pl' -> pl_shard_id pl = pl_shard_id pl').

#[export] Instance placement_later_refl : Reflexive placement_later.
Proof. intros pl. by split. Qed.

Lemma placement_later_trans pl1 pl2 pl3 :
  placement_later pl1 pl2 -> placement_later pl2 pl3 -> placement_later pl1 pl3.
Proof.
  intros [H1 E1] [H2 E2]. split; [lia|]. intros Heq. rewrite E1 by lia. apply E2. lia.
Qed.

(** The immutable part of a definition, and its placements moved forward. *)
Definition definition_later (d d' : AggregateTypeDefinition) : Prop :=
  td_create_operation_id d' = td_create_operation_id d /\
  td_create_plan_fingerprint d' = td_create_plan_fingerprint d /\
  td_seed d' = td_seed d /\ td_partition_count d' = td_partition_count d /\
  td_hash_algorithm d' = td_hash_algorithm d /\
  (td_status d = Active -> td_status d' = Active) /\
  forall p pl, td_placements d !! p = Some pl ->
    exists pl', td_placements d' !! p = Some pl' /\ placement_later pl pl'.

#[export] Instance definition_later_refl : Reflexive definition_later.
Proof. intros d. unfold definition_later. split_and!; try done. intros p pl Hp. by exists pl. Qed.

Lemma definition_later_trans d1 d2 d3 :
  definition_later d1 d2 -> definition_later d2 d3 -> definition_later d1 d3.
Proof.
  intros (?&?&?&?&?&Ha&L1) (?&?&?&?&?&Hb&L2). unfold definition_later.
  split_and!; try congruence; [auto|]. intros p pl Hp.
  destruct (L1 p pl Hp) as (pl1 & Hp1 & P1). destruct (L2 p pl1 Hp1) as (pl2 & Hp2 & P2).
  exists pl2. split; [done|]. by eapply placement_later_trans.
Qed.

Lemma definition_step_later t d d' :
  definition_wf t d -> definition_step t (Some d) d' -> definition_later d d'.
Proof.
  intros (_ & _ & _ & _ & Hall) Hstep. inversion Hstep; subst; unfold definition_later; cbn;
    split_and!; try done.
  - intros p pl Hp. by exists pl.
  - intros q ql Hq. rewrite lookup_insert.
    destruct (decide (p = q)) as [->|Hne]; [|by exists ql]. simplify_eq.
    eexists. split; [reflexivity|]. by split.
  - intros q ql Hq. rewrite lookup_insert.
    destruct (decide (p = q)) as [->|Hne]; [|by exists ql]. simplify_eq.
    eexists. split; [reflexivity|]. destruct (Hall q pl ltac:(done)) as [_ Hm].
    match goal with Hp : pl_pending_move pl = _ |- _ => rewrite Hp in Hm end.
    destruct Hm as (_ & _ & _ & Hn & _). split; cbn; lia.
Qed.

Lemma catalog_apply_later c cmd t d :
  catalog_wf c -> cat_aggregate_types c !! t = Some d ->
  exists d', cat_aggregate_types (catalog_apply c cmd).1 !! t = Some d' /\ definition_later d d'.
Proof.
  intros Hwf Hd. destruct (catalog_apply c cmd) as [c' r] eqn:Ha. cbn.
  apply catalog_apply_cases in Ha as [(-> & _)|(d' & Hstep & Hc & _)]; [by exists d|].
  injection Hc as -> _. cbn. rewrite lookup_insert. case_decide; [|by exists d]. subst.
  exists d'. split; [done|]. rewrite Hd in Hstep. by eapply definition_step_later; [apply Hwf|].
Qed.

Lemma catalog_run_later c cmds t d :
  catalog_wf c -> cat_aggregate_types c !! t = Some d ->
  exists d', cat_aggregate_types (catalog_run c cmds).1 !! t = Some d' /\ definition_later d d'.
Proof.
  revert c d. induction cmds as [|cmd cmds IH]; intros c d Hwf Hd; [by exists d|].
  rewrite catalog_run_cons. destruct (catalog_apply_later c cmd t d Hwf Hd) as (d1 & Hd1 & L1).
  destruct (IH _ d1 (catalog_apply_wf _ cmd Hwf) Hd1) as (d2 & Hd2 & L2).
  exists d2. split; [done|]. by eapply definition_later_trans.
Qed.

End Transitions.

(** ** Lemmas: replies *)

Section Replies.
Context `{Xxh3}.

Lemma catalog_run_app c cmds1 cmds2 :
  (catalog_run c (cmds1 ++ cmds2)).1 = (catalog_run (catalog_run c cmds1).1 cmds2).1.
Proof.
  revert c. induction cmds1 as [|cmd cmds1 IH]; intros c; [done|].
  rewrite <- app_comm_cons, !catalog_run_cons. apply IH.
Qed.

Lemma catalog_default_wf : catalog_wf catalog_default.
Proof. apply map_Forall_empty. Qed.

(** A create that was accepted leaves its operation and plan in the definition. *)
Lemma catalog_create_accepted c t op seed pls c' rev d b :
  catalog_apply c (CmdCreate t op seed pls) = (c', mkCatalogApply rev (OutType d b)) ->
  type_id_ok t /\ cat_aggregate_types c' !! t = Some d /\
  td_create_operation_id d = op /\
  td_create_plan_fingerprint d = create_plan_fingerprint seed pls.
Proof.
  unfold catalog_apply, catalog_create.
  destruct (type_id_validate t) as [[]|e] eqn:Hv; [|discriminate].
  apply type_id_validate_iff in Hv.
  destruct (cat_aggregate_types c !! t) as [ex|] eqn:Hex.
  - case_if; [|discriminate]. intros [= <- _ <- _]. bool_facts. done.
  - destruct (definition_create t op seed pls) as [d'|e] eqn:Hd; [|discriminate].
    intros [= <- _ <- _]. cbn. rewrite lookup_insert_eq.
    apply definition_create_Ok in Hd as [-> _]. done.
Qed.

Lemma catalog_create_repeat c t op seed pls d :
  type_id_ok t -> cat_aggregate_types c !! t = Some d ->
  td_create_operation_id d = op ->
  td_create_plan_fingerprint d = create_plan_fingerprint seed pls ->
  catalog_apply c (CmdCreate t op seed pls) = (c, mkCatalogApply (cat_revision c) (OutType d false)).
Proof.
  intros Ht Hd Hop Hf. unfold catalog_apply, catalog_create.
  rewrite (proj2 (type_id_validate_iff t) Ht), Hd, Hop, Hf.
  by rewrite !bool_decide_eq_true_2.
Qed.

Lemma prepare_move_accepted c t d p pl target op :
  cat_aggregate_types c !! t = Some d -> td_status d = Active ->
  td_placements d !! p = Some pl -> pl_pending_move pl = None ->
  pl_shard_id pl <> target -> (pl_generation pl < u64_max)%N ->
  prepare_move c t p (pl_generation pl) target op =
  catalog_commit c t (set_placement p (mkPlacement (pl_shard_id pl) (pl_generation pl)
    (Some (mkMove op (pl_shard_id pl) target (pl_generation pl + 1)))
    (pl_last_completed_operation pl)) d).
Proof.
  intros Hd Hs Hpl Hm Ht Hg. unfold prepare_move. rewrite Hd, Hs, bool_decide_eq_true_2 by done.
  cbn [negb]. rewrite Hpl, Hm, N.eqb_refl. cbn [negb]. rewrite (proj2 (N.eqb_neq _ _) Ht).
  by rewrite (proj2 (checked_add_u64_Some (pl_generation pl) 1 (pl_generation pl + 1)))
    by (split; [done|lia]).
Qed.

Lemma complete_move_accepted c t d p pl m op :
  cat_aggregate_types c !! t = Some d -> td_placements d !! p = Some pl ->
  pl_pending_move pl = Some m -> mv_operation_id m = op ->
  complete_move c t p op =
  catalog_commit c t (set_placement p (mkPlacement (mv_target_shard m) (mv_next_generation m)
    None (Some op)) d).
Proof.
  intros Hd Hpl Hm Hop. unfold complete_move. by rewrite Hd, Hpl, Hm, Hop, N.eqb_refl.
Qed.

(** ** Properties *)

(** C34: every catalog the control shard can reach is well formed: each
    registered type has a valid identity and exactly the 256 partitions, every
    generation is between 1 and 2^64-1, and a pending move exists only on an
    active type, leads away from the current shard and carries the successor of
    the current generation. *)
Theorem catalog_reachable_wf (cmds : list AggregateCatalogCommand) :
  catalog_wf (catalog_run catalog_default cmds).1.
Proof. apply catalog_run_wf, catalog_default_wf. Qed.

(** Partition ownership is fenced by generations: between two points of any
    command log a registered type stays registered, with its seed and partition
    count, the generation of each of its partitions never decreases, and while
    the generation is the same the owning shard is the same. *)
Theorem catalog_generation_fences (cmds1 cmds2 : list AggregateCatalogCommand)
  (t : AggregateTypeId) (d : AggregateTypeDefinition)
  (Hd : cat_aggregate_types (catalog_run catalog_default cmds1).1 !! t = Some d) :
  exists d', cat_aggregate_types (catalog_run catalog_default (cmds1 ++ cmds2)).1 !! t = Some d' /\
    td_seed d' = td_seed d /\ td_partition_count d' = td_partition_count d /\
    forall p pl, td_placements d !! p = Some pl ->
      exists pl', td_placements d' !! p = Some pl' /\
        (pl_generation pl <= pl_generation pl')%N /\
        (pl_generation pl = pl_generation pl' -> pl_shard_id pl = pl_shard_id pl').
Proof.
  rewrite catalog_run_app.
  destruct (catalog_run_later _ cmds2 t d (catalog_run_wf _ cmds1 catalog_default_wf) Hd)
    as (d' & Hd' & (_ & _ & Hs & Hc & _ & _ & Hp)).
  exists d'. split_and!; try done.
Qed.

(** A registration is idempotent for good: once a [Create] was answered with
    the type, repeating it after any further commands (moves included) answers
    with the current definition, changes nothing and does not advance the
    revision. *)
Theorem catalog_create_idempotent (c c' : AggregateCatalog) (t : AggregateTypeId) (op : Uuid)
  (seed : Bytes) (pls : gmap N N) (rev : N) (d : AggregateTypeDefinition) (changed : bool)
  (cmds : list AggregateCatalogCommand)
  (Hwf : catalog_wf c)
  (Hcreate : catalog_apply c (CmdCreate t op seed pls) =
               (c', mkCatalogApply rev (OutType d changed))) :
  exists d', catalog_apply (catalog_run c' cmds).1 (CmdCreate t op seed pls) =
    ((catalog_run c' cmds).1,
     mkCatalogApply (cat_revision (catalog_run c' cmds).1) (OutType d' false)) /\
    definition_later d d'.
Proof.
  pose proof (catalog_apply_wf c (CmdCreate t op seed pls) Hwf) as Hwf'. rewrite Hcreate in Hwf'.
  destruct (catalog_create_accepted _ _ _ _ _ _ _ _ _ Hcreate) as (Ht & Hd & Hop & Hf).
  destruct (catalog_run_later c' cmds t d Hwf' Hd) as (d' & Hd' & Hl).
  exists d'. split; [|done]. destruct Hl as (Hop' & Hf' & _).
  apply catalog_create_repeat; congruence.
Qed.

(** A prepared and completed move hands the partition to the target shard
    under the next generation and touches nothing else: the other partitions of
    the type, its remaining fields and every other type stay as they were. *)
Theorem catalog_move_hands_over (c : AggregateCatalog) (t : AggregateTypeId)
  (d : AggregateTypeDefinition) (p : N) (pl : PartitionPlacement) (target : N) (op : Uuid)
  (Hd : cat_aggregate_types c !! t = Some d) (Hactive : td_status d = Active)
  (Hpl : td_placements d !! p = Some pl) (Hidle : pl_pending_move pl = None)
  (Htarget : pl_shard_id pl <> target) (Hgen : (pl_generation pl < u64_max)%N) :
  cat_aggregate_types
    (catalog_run c [CmdPrepareMove t p (pl_generation pl) target op; CmdCompleteMove t p op]).1 =
  <[t := set_placement p (mkPlacement target (pl_generation pl + 1) None (Some op)) d]>
    (cat_aggregate_types c).
Proof.
  rewrite !catalog_run_cons. cbn [catalog_run fst]. unfold catalog_apply.
  rewrite (prepare_move_accepted c t d p pl target op) by done. cbn [catalog_commit fst].
  erewrite complete_move_accepted; cycle 1.
  { cbn. apply lookup_insert_eq. }
  { cbn. apply lookup_insert_eq. }
  { done. }
  { done. }
  cbn. rewrite insert_insert_eq. f_equal. unfold set_placement. cbn. by rewrite insert_insert_eq.
Qed.

End Replies.

(** ** Witnesses *)

Definition demo_placements : gmap N N :=
  list_to_map (map (fun p => (p, p mod 4)%N) (partition_ids 256)).

Definition demo_create : AggregateCatalogCommand :=
  CmdCreate demo_type 7 (replicate 16 x07) demo_placements.

Lemma catalog_generation_fences_witness :
  exists d d', cat_aggregate_types (@catalog_run demo_xxh3 catalog_default
                 [demo_create; CmdActivate demo_type 7]).1 !! demo_type = Some d /\
    cat_aggregate_types (@catalog_run demo_xxh3 catalog_default
       ([demo_create; CmdActivate demo_type 7] ++
        [CmdPrepareMove demo_type 3 1 9 8; CmdCompleteMove demo_type 3 8])).1 !! demo_type = Some d' /\
    td_seed d' = td_seed d.
Proof.
  assert (Hs : is_Some (cat_aggregate_types (@catalog_run demo_xxh3 catalog_default
              [demo_create; CmdActivate demo_type 7]).1 !! demo_type))
    by (apply (bool_decide_unpack _); vm_compute; exact I).
  destruct Hs as [d Hd].
  destruct (@catalog_generation_fences demo_xxh3 [demo_create; CmdActivate demo_type 7]
              [CmdPrepareMove demo_type 3 1 9 8; CmdCompleteMove demo_type 3 8] demo_type d Hd)
    as (d' & Hd' & Hs & _).
  exists d, d'. split; [exact Hd|]. split; [exact Hd' | exact Hs].
Defined.

Lemma catalog_create_idempotent_witness :
  exists c' r d', @catalog_apply demo_xxh3 catalog_default demo_create = (c', r) /\
    @catalog_apply demo_xxh3 (@catalog_run demo_xxh3 c' [CmdActivate demo_type 7]).1 demo_create =
    ((@catalog_run demo_xxh3 c' [CmdActivate demo_type 7]).1,
     mkCatalogApply (cat_revision (@catalog_run demo_xxh3 c' [CmdActivate demo_type 7]).1)
       (OutType d' false)).
Proof.
  assert (Hc : is_changed (ca_outcome (@catalog_apply demo_xxh3 catalog_default demo_create).2) = true)
    by (vm_compute; reflexivity).
  destruct (@catalog_apply demo_xxh3 catalog_default demo_create) as [c' [rev o]] eqn:Ha.
  destruct o as [d b| | |]; [|discriminate Hc..].
  destruct (@catalog_create_idempotent demo_xxh3 catalog_default c' demo_type 7 (replicate 16 x07)
              demo_placements rev d b [CmdActivate demo_type 7] catalog_default_wf Ha)
    as (d' & Hd' & _).
  exists c', (mkCatalogApply rev (OutType d b)), d'. split; [reflexivity | exact Hd'].
Defined.

Definition demo_definition : AggregateTypeDefinition :=
  mkDefinition demo_type 7 0 (replicate 16 x07) 256 Xxh3V1 Active
    (initial_placement <$> demo_placements).

Lemma catalog_move_hands_over_witness :
  cat_aggregate_types
    (@catalog_run demo_xxh3 (mkCatalog 2 {[demo_type := demo_definition]})
       [CmdPrepareMove demo_type 3 1 9 8; CmdCompleteMove demo_type 3 8]).1 =
  <[demo_type := set_placement 3 (mkPlacement 9 2 None (Some 8%N)) demo_definition]>
    {[demo_type := demo_definition]}.
Proof.
  refine (@catalog_move_hands_over demo_xxh3 (mkCatalog 2 {[demo_type := demo_definition]}) demo_type
    demo_definition 3 (initial_placement 3) 9 8 _ _ _ _ _ _);
    [vm_compute; reflexivity..|discriminate|vm_compute; reflexivity].
Defined.
