(* ===== verification/GroupCatalog.v ===== *)
(** * es-core: consumer-group settings and the group catalog

    [es-core/src/aggregate_group.rs], up to [AggregateGroupCatalog::apply]:
    settings with their validation and back-off, group definitions and the
    catalog commands ([Create], [Replace], [Delete]). *)

From S2P Require Import Prelude.
From S2P Require Import Bytes.
From S2P Require Import Core.
From S2P Require Import Aggregate.
From S2P Require Import Catalog.

(** ** Settings *)

Definition DEFAULT_AGGREGATE_GROUP_FETCH_EVENTS : N := 100.
Definition MAX_AGGREGATE_GROUP_FETCH_EVENTS : N := 1000.
Definition DEFAULT_AGGREGATE_GROUP_FETCH_BYTES : N := 4 * 1024 * 1024.
Definition MAX_AGGREGATE_GROUP_FETCH_BYTES : N := 7 * 1024 * 1024.
Definition MAX_AGGREGATE_GROUP_FETCH_WAIT_MS : N := 30000.

Inductive AggregateGroupStart : Type := StartBeginning | StartNow.

#[export] Instance AggregateGroupStart_eq_dec : EqDecision AggregateGroupStart.
Proof. solve_decision. Defined.

Record AggregateGroupSettings : Type := mkSettings {
  max_unacked_per_consumer : N;
  max_unacked_per_group : N;
  ack_timeout_ms : N;
  max_retries : N;
  retry_min_ms : N;
  retry_max_ms : N
}.

#[export] Instance AggregateGroupSettings_eq_dec : EqDecision AggregateGroupSettings.
Proof. solve_decision. Defined.

(** [Default]. *)
Definition settings_default : AggregateGroupSettings := mkSettings 128 4096 10000 5 100 5000.

(** [AggregateGroupSettings::validate]. *)
Definition settings_validate (s : AggregateGroupSettings) : result string unit :=
  if (max_unacked_per_consumer s =? 0)%N || (max_unacked_per_group s =? 0)%N then
    Err "未确认额度必须大于 0"
  else if (max_unacked_per_group s <? max_unacked_per_consumer s)%N then
    Err "消费者未确认额度不能大于组额度"
  else if (ack_timeout_ms s =? 0)%N then Err "ack timeout 必须大于 0"
  else if (retry_min_ms s =? 0)%N || (retry_max_ms s <? retry_min_ms s)%N then
    Err "重试退避要求 0 < min <= max"
  else Ok tt.

(** [retry_delay_ms]: the minimum doubled per attempt, saturating at the
    maximum. *)
Definition retry_delay_ms (s : AggregateGroupSettings) (attempt : N) : N :=
  let shift := N.min (attempt - 1) 62 in
  N.min (saturating_mul_u64 (retry_min_ms s) (N.shiftl 1 shift)) (retry_max_ms s).

(** The fields at their widths. *)
Definition settings_wf (s : AggregateGroupSettings) : Prop :=
  (max_unacked_per_consumer s <= u32_max /\ max_unacked_per_group s <= u32_max /\
   ack_timeout_ms s <= u64_max /\ max_retries s <= u32_max /\
   retry_min_ms s <= u64_max /\ retry_max_ms s <= u64_max)%N.

(** ** Definitions and commands *)

Record AggregateGroupDefinition : Type := mkGroup {
  gd_aggregate_type : AggregateTypeId;
  gd_name : string;
  gd_revision : N;
  gd_epoch : N;
  gd_start : AggregateGroupStart;
  gd_partition_starts : gmap N N;
  gd_settings : AggregateGroupSettings;
  gd_create_operation_id : Uuid;
  gd_last_operation_id : Uuid
}.

#[export] Instance AggregateGroupDefinition_eq_dec : EqDecision AggregateGroupDefinition.
Proof. solve_decision. Defined.

(** [AggregateGroupDefinition::validate]. *)
Definition group_validate (g : AggregateGroupDefinition) (partition_count : N) :
    result string unit :=
  _ ← map_err error_to_string (type_id_validate (gd_aggregate_type g));
  _ ← map_err error_to_string (validate_aggregate_identifier "group_name" (gd_name g));
  _ ← settings_validate (gd_settings g);
  if negb (N.of_nat (size (gd_partition_starts g)) =? partition_count)%N
     || existsb (fun p => bool_decide (gd_partition_starts g !! p = None))
          (partition_ids partition_count)
  then Err ("消费者组必须提供 " +:+ pretty partition_count +:+ " 个分区起点")
  else Ok tt.

Abbreviation GroupKey := (AggregateTypeId * string)%type.

Record AggregateGroupCatalog : Type := mkGroupCatalog {
  gc_revision : N;
  gc_groups : gmap GroupKey AggregateGroupDefinition;
  gc_deleted_operations : gmap GroupKey N
}.

(** [Default]. *)
Definition group_catalog_default : AggregateGroupCatalog := mkGroupCatalog 0 ∅ ∅.

Inductive AggregateGroupCatalogCommand : Type :=
| GroupCreate (definition : AggregateGroupDefinition) (partition_count : N)
| GroupReplace (definition : AggregateGroupDefinition) (expected_revision partition_count : N)
    (reset : bool)
| GroupDelete (t : AggregateTypeId) (name : string) (expected_revision : N) (operation_id : Uuid).

Inductive AggregateGroupCatalogOutcome : Type :=
| GOutGroup (g : AggregateGroupDefinition)
| GOutDeleted
| GOutNotFound
| GOutConflict (actual_revision : option N)
| GOutInvalid (reason : string).

Record AggregateGroupCatalogApply : Type := mkGroupApply {
  ga_revision : N;
  ga_outcome : AggregateGroupCatalogOutcome
}.

Definition group_key (g : AggregateGroupDefinition) : GroupKey :=
  (gd_aggregate_type g, gd_name g).

(** The definition a [Create] stores. *)
Definition group_created (g : AggregateGroupDefinition) : AggregateGroupDefinition :=
  mkGroup (gd_aggregate_type g) (gd_name g) 1 1 (gd_start g) (gd_partition_starts g)
    (gd_settings g) (gd_create_operation_id g) (gd_create_operation_id g).

(** The definition a [Replace] of [existing] stores. *)
Definition group_replaced (existing g : AggregateGroupDefinition) (reset : bool) :
    AggregateGroupDefinition :=
  mkGroup (gd_aggregate_type g) (gd_name g)
    (saturating_add_u64 (gd_revision existing) 1)
    (if reset then saturating_add_u64 (gd_epoch existing) 1 else gd_epoch existing)
    (gd_start g) (gd_partition_starts g) (gd_settings g)
    (gd_create_operation_id existing) (gd_last_operation_id g).

Definition group_create (c : AggregateGroupCatalog) (g : AggregateGroupDefinition)
    (partition_count : N) : AggregateGroupCatalog * AggregateGroupCatalogOutcome :=
  let key := group_key g in
  match group_validate g partition_count with
  | Err reason => (c, GOutInvalid reason)
  | Ok _ =>
      match gc_groups c !! key with
      | Some existing =>
          if (gd_create_operation_id existing =? gd_create_operation_id g)%N
          then (c, GOutGroup existing)
          else (c, GOutConflict (Some (gd_revision existing)))
      | None =>
          let g' := group_created g in
          (mkGroupCatalog (saturating_add_u64 (gc_revision c) 1) (<[key := g']> (gc_groups c))
             (delete key (gc_deleted_operations c)),
           GOutGroup g')
      end
  end.

Definition group_replace (c : AggregateGroupCatalog) (g : AggregateGroupDefinition)
    (expected_revision partition_count : N) (reset : bool) :
    AggregateGroupCatalog * AggregateGroupCatalogOutcome :=
  let key := group_key g in
  match group_validate g partition_count with
  | Err reason => (c, GOutInvalid reason)
  | Ok _ =>
      match gc_groups c !! key with
      | None => (c, GOutNotFound)
      | Some existing =>
          if (gd_last_operation_id existing =? gd_last_operation_id g)%N
          then (c, GOutGroup existing)
          else if negb (gd_revision existing =? expected_revision)%N
          then (c, GOutConflict (Some (gd_revision existing)))
          else
            let g' := group_replaced existing g reset in
            (mkGroupCatalog (saturating_add_u64 (gc_revision c) 1) (<[key := g']> (gc_groups c))
               (gc_deleted_operations c),
             GOutGroup g')
      end
  end.

Definition group_delete (c : AggregateGroupCatalog) (t : AggregateTypeId) (name : string)
    (expected_revision : N) (operation_id : Uuid) :
    AggregateGroupCatalog * AggregateGroupCatalogOutcome :=
  let key := (t, name) in
  let invalid :=
    _ ← map_err error_to_string (type_id_validate t);
    map_err error_to_string (validate_aggregate_identifier "group_name" name) in
  match invalid, gc_groups c !! key with
  | Err reason, _ => (c, GOutInvalid reason)
  | Ok _, None =>
      if bool_decide (gc_deleted_operations c !! key = Some operation_id)
      then (c, GOutDeleted) else (c, GOutNotFound)
  | Ok _, Some existing =>
      if (gd_last_operation_id existing =? operation_id)%N then (c, GOutDeleted)
      else if negb (gd_revision existing =? expected_revision)%N
      then (c, GOutConflict (Some (gd_revision existing)))
      else
        (mkGroupCatalog (saturating_add_u64 (gc_revision c) 1) (delete key (gc_groups c))
           (<[key := operation_id]> (gc_deleted_operations c)),
         GOutDeleted)
  end.

(** [AggregateGroupCatalog::apply]. *)
Definition group_catalog_apply (c : AggregateGroupCatalog) (cmd : AggregateGroupCatalogCommand) :
    AggregateGroupCatalog * AggregateGroupCatalogApply :=
  let '(c', outcome) :=
    match cmd with
    | GroupCreate g count => group_create c g count
    | GroupReplace g expected count reset => group_replace c g expected count reset
    | GroupDelete t name expected op => group_delete c t name expected op
    end in
  (c', mkGroupApply (gc_revision c') outcome).

Fixpoint group_catalog_run (c : AggregateGroupCatalog)
    (cmds : list AggregateGroupCatalogCommand) : AggregateGroupCatalog :=
  match cmds with
  | [] => c
  | cmd :: cmds' => group_catalog_run (group_catalog_apply c cmd).1 cmds'
  end.

(** ** Lemmas: back-off *)

Lemma settings_validate_iff s :
  settings_validate s = Ok tt <->
  (0 < max_unacked_per_consumer s <= max_unacked_per_group s)%N /\
  (0 < ack_timeout_ms s)%N /\ (0 < retry_min_ms s <= retry_max_ms s)%N.
Proof.
  unfold settings_validate. split.
  - repeat (case_if; [discriminate|]). intros _. bool_facts. lia.
  - intros ((? & ?) & ? & ? & ?).
    repeat match goal with |- context [(?a =? 0)%N] =>
      rewrite (proj2 (N.eqb_neq a 0)) by lia end.
    rewrite !(proj2 (N.ltb_ge _ _)) by lia. reflexivity.
Qed.

Lemma retry_delay_ms_mono s a b :
  (a <= b)%N -> (retry_delay_ms s a <= retry_delay_ms s b)%N.
Proof.
  intros Hab. unfold retry_delay_ms, saturating_mul_u64. rewrite !N.shiftl_1_l.
  assert (Hp : (2 ^ N.min (a - 1) 62 <= 2 ^ N.min (b - 1) 62)%N)
    by (apply N.pow_le_mono_r; lia).
  pose proof (N.mul_le_mono_l _ _ (retry_min_ms s) Hp). lia.
Qed.

Lemma retry_delay_ms_exact s a :
  (retry_max_ms s <= u64_max)%N -> (a <= 63)%N ->
  retry_delay_ms s a = N.min (retry_min_ms s * 2 ^ (a - 1)) (retry_max_ms s).
Proof.
  intros Hmax Ha. unfold retry_delay_ms, saturating_mul_u64. rewrite N.shiftl_1_l.
  rewrite (N.min_l (a - 1) 62) by lia. lia.
Qed.

(** ** Lemmas: the catalog *)

(** What one command does to the groups: nothing, or one change of the kind of
    the command at its own key. *)
Inductive group_step (c : AggregateGroupCatalog) : AggregateGroupCatalog -> Prop :=
| GroupStepCreate g count :
    group_validate g count = Ok tt -> gc_groups c !! group_key g = None ->
    group_step c (mkGroupCatalog (saturating_add_u64 (gc_revision c) 1)
      (<[group_key g := group_created g]> (gc_groups c))
      (delete (group_key g) (gc_deleted_operations c)))
| GroupStepReplace existing g count reset :
    group_validate g count = Ok tt -> gc_groups c !! group_key g = Some existing ->
    group_step c (mkGroupCatalog (saturating_add_u64 (gc_revision c) 1)
      (<[group_key g := group_replaced existing g reset]> (gc_groups c))
      (gc_deleted_operations c))
| GroupStepDelete key op :
    is_Some (gc_groups c !! key) ->
    group_step c (mkGroupCatalog (saturating_add_u64 (gc_revision c) 1)
      (delete key (gc_groups c)) (<[key := op]> (gc_deleted_operations c))).

Lemma group_catalog_apply_step c cmd :
  (group_catalog_apply c cmd).1 = c \/ group_step c (group_catalog_apply c cmd).1.
Proof.
  unfold group_catalog_apply. destruct cmd as [g count|g expected count reset|t name expected op].
  - unfold group_create. destruct (group_validate g count) as [[]|] eqn:Hv; [|by left].
    destruct (gc_groups c !! group_key g) eqn:Hg; [case_if; by left|]. right. by econstructor.
  - unfold group_replace. destruct (group_validate g count) as [[]|] eqn:Hv; [|by left].
    destruct (gc_groups c !! group_key g) eqn:Hg; [|by left].
    case_if; [by left|]. case_if; [by left|]. right. by econstructor.
  - unfold group_delete. destruct (type_id_validate t); cbn; [|by left].
    destruct (validate_aggregate_identifier _ name); cbn; [|by left].
    destruct (gc_groups c !! (t, name)) eqn:Hg; [|case_if; by left].
    case_if; [by left|]. case_if; [by left|]. right. constructor. eauto.
Qed.

(** A stored definition: valid for some partition count, filed under its own
    key, with an epoch that never ran ahead of the revision. *)
Definition group_wf (key : GroupKey) (g : AggregateGroupDefinition) : Prop :=
  group_key g = key /\ (exists count, group_validate g count = Ok tt) /\
  (1 <= gd_epoch g <= gd_revision g)%N /\ (gd_revision g <= u64_max)%N.

Definition group_catalog_wf (c : AggregateGroupCatalog) : Prop :=
  map_Forall group_wf (gc_groups c) /\
  forall key, is_Some (gc_groups c !! key) -> gc_deleted_operations c !! key = None.

Lemma group_created_wf g count :
  group_validate g count = Ok tt -> group_wf (group_key g) (group_created g).
Proof. intros Hv. split_and!; try done; [by exists count|cbn; lia..]. Qed.

Lemma group_replaced_wf key existing g count reset :
  group_wf key existing -> group_validate g count = Ok tt ->
  group_wf (group_key g) (group_replaced existing g reset).
Proof.
  intros (_ & _ & He & Hr) Hv. unfold saturating_add_u64.
  split_and!; try done; [by exists count|..]; cbn; unfold saturating_add_u64;
    destruct reset; lia.
Qed.

Lemma group_step_wf c c' : group_step c c' -> group_catalog_wf c -> group_catalog_wf c'.
Proof.
  intros [g count Hv Hg|existing g count reset Hv Hg|key op Hk] [Hall Hdis]; split; cbn.
  - apply map_Forall_insert_2; [by eapply group_created_wf | done].
  - intros k Hs. rewrite lookup_delete. destruct (decide (group_key g = k)) as [_|Hne]; [done|].
    rewrite lookup_insert_ne in Hs by done. auto.
  - apply map_Forall_insert_2; [|done]. eapply group_replaced_wf; [by apply Hall|done].
  - intros k Hs. apply Hdis. rewrite lookup_insert in Hs.
    destruct (decide (group_key g = k)) as [<-|Hne]; eauto.
  - by apply map_Forall_delete.
  - intros k Hs. rewrite lookup_delete in Hs. rewrite lookup_insert.
    destruct (decide (key = k)) as [->|Hne]; [by destruct Hs | auto].
Qed.

Lemma group_catalog_run_wf c cmds :
  group_catalog_wf c -> group_catalog_wf (group_catalog_run c cmds).
Proof.
  revert c. induction cmds as [|cmd cmds IH]; intros c Hwf; [done|]. cbn. apply IH.
  destruct (group_catalog_apply_step c cmd) as [->|Hs]; [done|]. by eapply group_step_wf.
Qed.

Lemma group_catalog_default_wf : group_catalog_wf group_catalog_default.
Proof. split; [apply map_Forall_empty | done]. Qed.

(** A replacement that passes its guards. *)
Lemma group_replace_accepted c g existing expected count reset :
  group_validate g count = Ok tt -> gc_groups c !! group_key g = Some existing ->
  gd_last_operation_id existing <> gd_last_operation_id g -> gd_revision existing = expected ->
  group_replace c g expected count reset =
  (mkGroupCatalog (saturating_add_u64 (gc_revision c) 1)
     (<[group_key g := group_replaced existing g reset]> (gc_groups c)) (gc_deleted_operations c),
   GOutGroup (group_replaced existing g reset)).
Proof.
  intros Hv Hg Hop <-. unfold group_replace.
  by rewrite Hv, Hg, (proj2 (N.eqb_neq _ _) Hop), N.eqb_refl.
Qed.

(** ** Properties *)

(** The back-off of valid settings stays between the configured minimum and
    maximum, starts at the minimum, never shrinks with the attempt number, and
    is the minimum doubled per attempt until it reaches the maximum; the
    saturating product and the shift cap at 62 never show. *)
Theorem retry_delay_ms_backoff (s : AggregateGroupSettings) (attempt : N)
  (Hwf : settings_wf s) (Hvalid : settings_validate s = Ok tt) (Hattempt : (1 <= attempt)%N) :
  (retry_min_ms s <= retry_delay_ms s attempt <= retry_max_ms s)%N /\
  retry_delay_ms s 1 = retry_min_ms s /\
  (retry_delay_ms s attempt <= retry_delay_ms s (attempt + 1))%N /\
  ((attempt <= 63)%N ->
   retry_delay_ms s attempt = N.min (retry_min_ms s * 2 ^ (attempt - 1)) (retry_max_ms s)).
Proof.
  apply settings_validate_iff in Hvalid as (_ & _ & _ & Hle).
  destruct Hwf as (_ & _ & _ & _ & _ & Hmax).
  assert (H1 : retry_delay_ms s 1 = retry_min_ms s).
  { rewrite retry_delay_ms_exact by lia. change (2 ^ (1 - 1))%N with 1%N. lia. }
  split_and!; [|unfold retry_delay_ms; lia|done| |].
  - rewrite <- H1. by apply retry_delay_ms_mono.
  - apply retry_delay_ms_mono. lia.
  - by apply retry_delay_ms_exact.
Qed.

(** Every consumer-group catalog the control shard can reach is well formed:
    each group is filed under its own type and name, passed validation, has
    1 <= epoch <= revision, and no group is both present and recorded as
    deleted. *)
Theorem group_catalog_reachable_wf (cmds : list AggregateGroupCatalogCommand) :
  group_catalog_wf (group_catalog_run group_catalog_default cmds).
Proof. apply group_catalog_run_wf, group_catalog_default_wf. Qed.

(** A replacement is a compare-and-swap on the group's revision. When the
    expected revision is current, exactly that group changes, to the next
    revision and, only on a reset, the next epoch, keeping its creation id; the
    same command sent again answers with the stored group and changes nothing;
    and a competing replacement that expected the old revision is refused with
    the new one. *)
Theorem group_replace_cas (c : AggregateGroupCatalog) (g g2 existing : AggregateGroupDefinition)
  (count count2 : N) (reset reset2 : bool)
  (Hwf : group_catalog_wf c)
  (Hv : group_validate g count = Ok tt) (Hv2 : group_validate g2 count2 = Ok tt)
  (Hkey : group_key g2 = group_key g)
  (Hg : gc_groups c !! group_key g = Some existing)
  (Hop : gd_last_operation_id existing <> gd_last_operation_id g)
  (Hop2 : gd_last_operation_id g <> gd_last_operation_id g2)
  (Hrev : (gd_revision existing < u64_max)%N) :
  let cmd := GroupReplace g (gd_revision existing) count reset in
  let c' := (group_catalog_apply c cmd).1 in
  let g' := group_replaced existing g reset in
  gc_groups c' = <[group_key g := g']> (gc_groups c) /\
  gd_revision g' = (gd_revision existing + 1)%N /\
  gd_epoch g' = (gd_epoch existing + if reset then 1 else 0)%N /\
  gd_create_operation_id g' = gd_create_operation_id existing /\
  group_catalog_apply c' cmd = (c', mkGroupApply (gc_revision c') (GOutGroup g')) /\
  group_catalog_apply c' (GroupReplace g2 (gd_revision existing) count2 reset2) =
    (c', mkGroupApply (gc_revision c') (GOutConflict (Some (gd_revision existing + 1)%N))).
Proof.
  intros cmd c' g'. subst cmd.
  assert (He : (gd_epoch existing <= gd_revision existing)%N) by (destruct Hwf as [Hall _]; destruct (Hall _ _ Hg) as (_ & _ & ? & _); lia).
  assert (Hc' : c' = mkGroupCatalog (saturating_add_u64 (gc_revision c) 1)
                 (<[group_key g := g']> (gc_groups c)) (gc_deleted_operations c)).
  { subst c'. unfold group_catalog_apply. by rewrite (group_replace_accepted _ _ existing). }
  assert (Hr : gd_revision g' = (gd_revision existing + 1)%N)
    by (cbn; unfold saturating_add_u64; lia).
  assert (Hl : gc_groups c' !! group_key g = Some g') by (rewrite Hc'; apply lookup_insert_eq).
  split_and!; try done.
  - by rewrite Hc'.
  - cbn. unfold saturating_add_u64. destruct reset; lia.
  - unfold group_catalog_apply, group_replace. rewrite Hv, Hl. cbn [gd_last_operation_id g' group_replaced].
    by rewrite N.eqb_refl.
  - unfold group_catalog_apply, group_replace. rewrite Hv2, Hkey, Hl.
    cbn [gd_last_operation_id g' group_replaced]. rewrite (proj2 (N.eqb_neq _ _) Hop2), Hr.
    by rewrite (proj2 (N.eqb_neq _ _)) by lia.
Qed.

(** A delete that reuses the id of the operation that last wrote the group
    answers [Deleted] although the group is still there, so the caller is told
    of a deletion that did not happen. *)
Theorem group_delete_reused_operation_keeps_group (c : AggregateGroupCatalog)
  (g : AggregateGroupDefinition) (expected : N)
  (Hwf : group_catalog_wf c) (Hg : gc_groups c !! group_key g = Some g) :
  group_catalog_apply c
    (GroupDelete (gd_aggregate_type g) (gd_name g) expected (gd_last_operation_id g)) =
  (c, mkGroupApply (gc_revision c) GOutDeleted).
Proof.
  destruct Hwf as [Hall _]. destruct (Hall _ _ Hg) as (_ & [count Hv] & _).
  unfold group_validate in Hv. inv_result.
  unfold group_catalog_apply, group_delete. fold (group_key g). rewrite Hg.
  repeat match goal with H : map_err _ _ = Ok _ |- _ => rewrite H; cbn end.
  by rewrite N.eqb_refl.
Qed.

(** ** Witnesses *)

Definition demo_group : AggregateGroupDefinition :=
  mkGroup demo_type "workers" 0 0 StartBeginning (list_to_map [(0%N, 1%N); (1%N, 1%N)])
    settings_default 40 40.

Definition demo_group_op (op : Uuid) : AggregateGroupDefinition :=
  mkGroup demo_type "workers" 0 0 StartNow (list_to_map [(0%N, 5%N); (1%N, 9%N)])
    settings_default 0 op.

Definition demo_group_catalog : AggregateGroupCatalog :=
  group_catalog_run group_catalog_default [GroupCreate demo_group 2].

Lemma retry_delay_ms_backoff_witness :
  (retry_min_ms settings_default <= retry_delay_ms settings_default 4)%N /\
  retry_delay_ms settings_default 4 = 800%N.
Proof.
  assert (Hwf : settings_wf settings_default) by (unfold settings_wf; cbn; lia).
  destruct (retry_delay_ms_backoff settings_default 4 Hwf eq_refl ltac:(lia)) as ([H _] & _ & _ & E).
  split; [exact H | exact (E ltac:(lia))].
Defined.

Lemma group_replace_cas_witness :
  group_catalog_apply
    (group_catalog_apply demo_group_catalog (GroupReplace (demo_group_op 41) 1 2 true)).1
    (GroupReplace (demo_group_op 42) 1 2 false) =
  ((group_catalog_apply demo_group_catalog (GroupReplace (demo_group_op 41) 1 2 true)).1,
   mkGroupApply 2 (GOutConflict (Some 2%N))).
Proof.
  assert (Hg : gc_groups demo_group_catalog !! group_key (demo_group_op 41) =
               Some (group_created demo_group))
    by (apply (bool_decide_unpack _); vm_compute; exact I).
  destruct (group_replace_cas demo_group_catalog (demo_group_op 41) (demo_group_op 42)
              (group_created demo_group) 2 2 true false
              (group_catalog_run_wf _ [GroupCreate demo_group 2] group_catalog_default_wf) ltac:(vm_compute; reflexivity)
              ltac:(vm_compute; reflexivity) ltac:(reflexivity) Hg
              ltac:(discriminate) ltac:(discriminate) ltac:(vm_compute; reflexivity))
    as (_ & _ & _ & _ & _ & H).
  exact H.
Defined.

Lemma group_delete_reused_operation_witness :
  group_catalog_apply demo_group_catalog (GroupDelete demo_type "workers" 1 40) =
  (demo_group_catalog, mkGroupApply 1 GOutDeleted).
Proof.
  assert (Hg : gc_groups demo_group_catalog !! group_key (group_created demo_group) =
               Some (group_created demo_group))
    by (apply (bool_decide_unpack _); vm_compute; exact I).
  refine (group_delete_reused_operation_keeps_group demo_group_catalog (group_created demo_group) 1
            (group_catalog_run_wf _ [GroupCreate demo_group 2] group_catalog_default_wf) Hg).
Defined.
