(* ===== verification/GroupPartition.v ===== *)
(** * es-core: the consumption state of one group on one partition

    [es-core/src/aggregate_group.rs], [AggregateGroupPartition]: claiming events
    for a consumer, settling, renewing and expiring deliveries, retries with
    back-off, parking, and the contiguous progress mark [next_position] with the
    positions resolved ahead of it.

    Times, positions and ids are the [u64], [u32] and [Uuid] fields of the
    source. The while loop of [resolve] runs on fuel: it removes one element of
    [resolved_gaps] per turn, so the size of that set is enough
    ([advance_exits]). *)

From S2P Require Import Prelude.
From S2P Require Import Bytes.
From S2P Require Import Core.
From S2P Require Import Aggregate.
From S2P Require Import Catalog.
From S2P Require Import GroupCatalog.

(** ** Data *)

Record AggregateDeliveryCandidate : Type := mkCandidate {
  cd_delivery_id : Uuid;
  cd_partition_position : N;
  cd_aggregate_id : string;
  cd_aggregate_version : N;
  cd_event_id : Uuid;
  cd_payload_bytes : N;
  cd_replayed : bool
}.

Record AggregateGroupDelivery : Type := mkDelivery {
  dl_delivery_id : Uuid;
  dl_consumer_id : string;
  dl_partition_position : N;
  dl_aggregate_id : string;
  dl_aggregate_version : N;
  dl_event_id : Uuid;
  dl_attempt : N;
  dl_deadline_ms : N;
  dl_group_epoch : N;
  dl_replayed : bool
}.

Record AggregateGroupRetry : Type := mkRetry {
  rt_partition_position : N;
  rt_aggregate_id : string;
  rt_aggregate_version : N;
  rt_event_id : Uuid;
  rt_attempt : N;
  rt_not_before_ms : N;
  rt_replayed : bool
}.

Record AggregateGroupParked : Type := mkParked {
  pk_partition_position : N;
  pk_aggregate_id : string;
  pk_aggregate_version : N;
  pk_event_id : Uuid;
  pk_attempts : N;
  pk_reason : string;
  pk_parked_at_ms : N
}.

Record AggregateInstanceLease : Type := mkLease {
  ls_consumer_id : string;
  ls_group_epoch : N;
  ls_deadline_ms : N
}.

Record AggregateGroupPartition : Type := mkPartition {
  gp_epoch : N;
  gp_next_position : N;
  gp_resolved_gaps : gset N;
  gp_leases : gmap string AggregateInstanceLease;
  gp_deliveries : gmap Uuid AggregateGroupDelivery;
  gp_pending_retries : gmap N AggregateGroupRetry;
  gp_parked : gmap Uuid AggregateGroupParked
}.

Inductive AggregateSettlementAction : Type := ActAck | ActRetry | ActPark | ActSkip.

Record AggregateSettlement : Type := mkSettlement {
  se_delivery_id : Uuid;
  se_action : AggregateSettlementAction;
  se_reason : string
}.

Inductive AggregateSettlementResult : Type :=
| Applied | AlreadySettled | StaleLease | WrongConsumer.

#[export] Instance AggregateGroupDelivery_eq_dec : EqDecision AggregateGroupDelivery.
Proof. solve_decision. Defined.
#[export] Instance AggregateGroupRetry_eq_dec : EqDecision AggregateGroupRetry.
Proof. solve_decision. Defined.
#[export] Instance AggregateGroupParked_eq_dec : EqDecision AggregateGroupParked.
Proof. solve_decision. Defined.
#[export] Instance AggregateInstanceLease_eq_dec : EqDecision AggregateInstanceLease.
Proof. solve_decision. Defined.
#[export] Instance AggregateGroupPartition_eq_dec : EqDecision AggregateGroupPartition.
Proof. solve_decision. Defined.
#[export] Instance AggregateSettlementResult_eq_dec : EqDecision AggregateSettlementResult.
Proof. solve_decision. Defined.

(** Field updates of the mutable struct. *)
Definition with_progress (next : N) (gaps : gset N) (p : AggregateGroupPartition) :=
  mkPartition (gp_epoch p) next gaps (gp_leases p) (gp_deliveries p) (gp_pending_retries p)
    (gp_parked p).

Definition with_leases (l : gmap string AggregateInstanceLease) (p : AggregateGroupPartition) :=
  mkPartition (gp_epoch p) (gp_next_position p) (gp_resolved_gaps p) l (gp_deliveries p)
    (gp_pending_retries p) (gp_parked p).

Definition with_deliveries (d : gmap Uuid AggregateGroupDelivery) (p : AggregateGroupPartition) :=
  mkPartition (gp_epoch p) (gp_next_position p) (gp_resolved_gaps p) (gp_leases p) d
    (gp_pending_retries p) (gp_parked p).

Definition with_retries (r : gmap N AggregateGroupRetry) (p : AggregateGroupPartition) :=
  mkPartition (gp_epoch p) (gp_next_position p) (gp_resolved_gaps p) (gp_leases p)
    (gp_deliveries p) r (gp_parked p).

Definition with_parked (k : gmap Uuid AggregateGroupParked) (p : AggregateGroupPartition) :=
  mkPartition (gp_epoch p) (gp_next_position p) (gp_resolved_gaps p) (gp_leases p)
    (gp_deliveries p) (gp_pending_retries p) k.

(** ** Operations *)

(** [AggregateGroupPartition::new]. *)
Definition partition_new (epoch next_position : N) : AggregateGroupPartition :=
  mkPartition epoch next_position ∅ ∅ ∅ ∅ ∅.

(** [AggregateGroupPartition::reset]. *)
Definition partition_reset (p : AggregateGroupPartition) (epoch next_position : N) :
    AggregateGroupPartition := partition_new epoch next_position.

(** The deliveries of one consumer. *)
Definition consumer_deliveries (p : AggregateGroupPartition) (consumer_id : string) :
    list AggregateGroupDelivery :=
  List.filter (fun d => bool_decide (dl_consumer_id d = consumer_id))
    (btree_values (gp_deliveries p)).

(** [available_credit]; the counts are cast with [as u32]. *)
Definition available_credit (p : AggregateGroupPartition) (consumer_id : string)
    (settings : AggregateGroupSettings) : N :=
  let consumer_used := as_u32 (len (consumer_deliveries p consumer_id)) in
  N.min (max_unacked_per_consumer settings - consumer_used)
    (max_unacked_per_group settings - as_u32 (N.of_nat (size (gp_deliveries p)))).

(** The while loop of [resolve]. *)
Fixpoint advance (fuel : nat) (gaps : gset N) (next : N) : gset N * N :=
  match fuel with
  | O => (gaps, next)
  | S fuel' =>
      if bool_decide (next ∈ gaps)
      then advance fuel' (gaps ∖ {[next]}) (saturating_add_u64 next 1)
      else (gaps, next)
  end.

Definition resolve (p : AggregateGroupPartition) (position : N) : AggregateGroupPartition :=
  if (position <? gp_next_position p)%N then p
  else
    let gaps := {[position]} ∪ gp_resolved_gaps p in
    let '(gaps', next') := advance (size gaps) gaps (gp_next_position p) in
    with_progress next' gaps' p.

Definition park (p : AggregateGroupPartition) (d : AggregateGroupDelivery) (reason : string)
    (now_ms : N) : AggregateGroupPartition :=
  let p := resolve p (dl_partition_position d) in
  with_parked (<[dl_delivery_id d :=
    mkParked (dl_partition_position d) (dl_aggregate_id d) (dl_aggregate_version d) (dl_event_id d)
      (dl_attempt d) reason now_ms]> (gp_parked p)) p.

Definition retry_or_park (p : AggregateGroupPartition) (d : AggregateGroupDelivery)
    (reason : string) (now_ms : N) (settings : AggregateGroupSettings) : AggregateGroupPartition :=
  let attempt := saturating_add_u32 (dl_attempt d) 1 in
  if (max_retries settings <? attempt)%N then park p d reason now_ms
  else
    with_retries (<[dl_partition_position d :=
      mkRetry (dl_partition_position d) (dl_aggregate_id d) (dl_aggregate_version d) (dl_event_id d)
        attempt (saturating_add_u64 now_ms (retry_delay_ms settings attempt))
        (dl_replayed d)]> (gp_pending_retries p)) p.

(** The aggregate instances with an unsettled event. *)
Definition active_aggregates (p : AggregateGroupPartition) : gset string :=
  list_to_set (map dl_aggregate_id (btree_values (gp_deliveries p)) ++
               map rt_aggregate_id (btree_values (gp_pending_retries p))).

Definition release_unused_leases (p : AggregateGroupPartition) : AggregateGroupPartition :=
  with_leases (filter (fun kv => kv.1 ∈ active_aggregates p) (gp_leases p)) p.

(** [expire]: the new state and the number of expired deliveries. *)
Definition expired_ids (p : AggregateGroupPartition) (now_ms : N) : list Uuid :=
  map fst (List.filter (fun kv => dl_deadline_ms kv.2 <=? now_ms)%N
    (btree_iter (gp_deliveries p))).

Definition expire_one (now_ms : N) (settings : AggregateGroupSettings)
    (p : AggregateGroupPartition) (id : Uuid) : AggregateGroupPartition :=
  match gp_deliveries p !! id with
  | Some d =>
      retry_or_park (with_deliveries (delete id (gp_deliveries p)) p) d "ack timeout" now_ms settings
  | None => p
  end.

Definition expire (p : AggregateGroupPartition) (now_ms : N) (settings : AggregateGroupSettings) :
    AggregateGroupPartition * nat :=
  let expired := expired_ids p now_ms in
  let p := fold_left (expire_one now_ms settings) expired p in
  (release_unused_leases p, length expired).

(** [claim]: the state the loop carries. *)
Record ClaimState : Type := mkClaim {
  cl_partition : AggregateGroupPartition;
  cl_credit : N;
  cl_claimed_bytes : N;
  cl_claimed : list AggregateGroupDelivery
}.

(** The delivery a candidate becomes: a pending retry hands over its attempt
    count and its replay mark. *)
Definition claimed_delivery (consumer_id : string) (deadline_ms : N) (p : AggregateGroupPartition)
    (c : AggregateDeliveryCandidate) : AggregateGroupDelivery :=
  let retry := gp_pending_retries p !! cd_partition_position c in
  mkDelivery (cd_delivery_id c) consumer_id (cd_partition_position c) (cd_aggregate_id c)
    (cd_aggregate_version c) (cd_event_id c)
    (match retry with Some r => rt_attempt r | None => 0%N end)
    deadline_ms (gp_epoch p)
    (match retry with Some r => rt_replayed r | None => cd_replayed c end).

(** The retry is removed, the instance leased and the delivery recorded. *)
Definition claim_commit (p : AggregateGroupPartition) (d : AggregateGroupDelivery) :
    AggregateGroupPartition :=
  mkPartition (gp_epoch p) (gp_next_position p) (gp_resolved_gaps p)
    (<[dl_aggregate_id d := mkLease (dl_consumer_id d) (gp_epoch p) (dl_deadline_ms d)]>
       (gp_leases p))
    (<[dl_delivery_id d := d]> (gp_deliveries p))
    (delete (dl_partition_position d) (gp_pending_retries p)) (gp_parked p).

(** What the loop body decides for one candidate. *)
Inductive ClaimStep : Type :=
| ClaimBreak
| ClaimContinue
| ClaimTake (s : ClaimState).

Definition claim_one (consumer_id : string) (now_ms deadline_ms max_bytes : N)
    (s : ClaimState) (c : AggregateDeliveryCandidate) : ClaimStep :=
  let p := cl_partition s in
  let position := cd_partition_position c in
  if (cl_credit s =? 0)%N || (position <? gp_next_position p)%N then ClaimBreak
  else if bool_decide (position ∈ gp_resolved_gaps p)
       || bool_decide (is_Some (gp_deliveries p !! cd_delivery_id c))
       || existsb (fun d => dl_partition_position d =? position)%N (btree_values (gp_deliveries p))
  then ClaimContinue
  else
    let retry := gp_pending_retries p !! position in
    if match retry with
       | Some r => (now_ms <? rt_not_before_ms r)%N || negb (rt_event_id r =? cd_event_id c)%N
       | None => cd_replayed c
       end
    then ClaimContinue
    else if existsb (fun d => bool_decide (dl_aggregate_id d = cd_aggregate_id c)
                        && negb (dl_partition_position d =? position)%N)
              (btree_values (gp_deliveries p))
         || existsb (fun r => bool_decide (rt_aggregate_id r = cd_aggregate_id c)
                        && negb (rt_partition_position r =? position)%N)
              (btree_values (gp_pending_retries p))
    then ClaimContinue
    else if match gp_leases p !! cd_aggregate_id c with
            | Some l => negb (bool_decide (ls_consumer_id l = consumer_id))
                        && (now_ms <? ls_deadline_ms l)%N
            | None => false
            end
    then ClaimContinue
    else if negb (bool_decide (cl_claimed s = []))
         && (max_bytes <? saturating_add_u64 (cl_claimed_bytes s) (cd_payload_bytes c))%N
    then ClaimBreak
    else
      let d := claimed_delivery consumer_id deadline_ms p c in
      ClaimTake (mkClaim (claim_commit p d) (cl_credit s - 1)
        (saturating_add_u64 (cl_claimed_bytes s) (cd_payload_bytes c)) (cl_claimed s ++ [d])).

Fixpoint claim_loop (consumer_id : string) (now_ms deadline_ms max_bytes : N)
    (s : ClaimState) (candidates : list AggregateDeliveryCandidate) : ClaimState :=
  match candidates with
  | [] => s
  | c :: candidates' =>
      match claim_one consumer_id now_ms deadline_ms max_bytes s c with
      | ClaimBreak => s
      | ClaimContinue => claim_loop consumer_id now_ms deadline_ms max_bytes s candidates'
      | ClaimTake s' => claim_loop consumer_id now_ms deadline_ms max_bytes s' candidates'
      end
  end.

Definition claim (p : AggregateGroupPartition) (consumer_id : string) (now_ms deadline_ms : N)
    (settings : AggregateGroupSettings) (max_claim max_bytes : N)
    (candidates : list AggregateDeliveryCandidate) :
    AggregateGroupPartition * list AggregateGroupDelivery :=
  if bool_decide (consumer_id = "") || (deadline_ms <=? now_ms)%N || (max_claim =? 0)%N
     || (max_bytes =? 0)%N || negb (is_ok (settings_validate settings))
  then (p, [])
  else
    let p := (expire p now_ms settings).1 in
    let credit := N.min (available_credit p consumer_id settings) max_claim in
    let s := claim_loop consumer_id now_ms deadline_ms max_bytes (mkClaim p credit 0 []) candidates in
    (cl_partition s, cl_claimed s).

(** The body of the loop of [settle]. *)
Definition settle_one (consumer_id : string) (now_ms : N) (settings : AggregateGroupSettings)
    (p : AggregateGroupPartition) (s : AggregateSettlement) :
    AggregateGroupPartition * AggregateSettlementResult :=
  match gp_deliveries p !! se_delivery_id s with
  | None => (p, AlreadySettled)
  | Some d =>
      if negb (bool_decide (dl_consumer_id d = consumer_id)) then (p, WrongConsumer)
      else
        let p := with_deliveries (delete (se_delivery_id s) (gp_deliveries p)) p in
        (match se_action s with
         | ActAck | ActSkip => resolve p (dl_partition_position d)
         | ActRetry => retry_or_park p d (se_reason s) now_ms settings
         | ActPark => park p d (se_reason s) now_ms
         end, Applied)
  end.

Fixpoint settle_loop (consumer_id : string) (now_ms : N) (settings : AggregateGroupSettings)
    (p : AggregateGroupPartition) (l : list AggregateSettlement) :
    AggregateGroupPartition * list AggregateSettlementResult :=
  match l with
  | [] => (p, [])
  | s :: l' =>
      let '(p1, r) := settle_one consumer_id now_ms settings p s in
      let '(p2, rs) := settle_loop consumer_id now_ms settings p1 l' in
      (p2, r :: rs)
  end.

Definition settle (p : AggregateGroupPartition) (consumer_id : string) (epoch now_ms : N)
    (settings : AggregateGroupSettings) (l : list AggregateSettlement) :
    AggregateGroupPartition * list AggregateSettlementResult :=
  if negb (epoch =? gp_epoch p)%N then (p, replicate (length l) StaleLease)
  else
    let '(p', rs) := settle_loop consumer_id now_ms settings p l in
    (release_unused_leases p', rs).

(** The closure of [renew]. *)
Definition renew_one (consumer_id : string) (deadline_ms : N) (p : AggregateGroupPartition)
    (id : Uuid) : AggregateGroupPartition * AggregateSettlementResult :=
  match gp_deliveries p !! id with
  | None => (p, AlreadySettled)
  | Some d =>
      if negb (bool_decide (dl_consumer_id d = consumer_id)) then (p, WrongConsumer)
      else
        let d' := mkDelivery (dl_delivery_id d) (dl_consumer_id d) (dl_partition_position d)
          (dl_aggregate_id d) (dl_aggregate_version d) (dl_event_id d) (dl_attempt d)
          (N.max (dl_deadline_ms d) deadline_ms) (dl_group_epoch d) (dl_replayed d) in
        let leases' :=
          match gp_leases p !! dl_aggregate_id d with
          | Some l => <[dl_aggregate_id d := mkLease (ls_consumer_id l) (ls_group_epoch l)
                         (N.max (ls_deadline_ms l) deadline_ms)]> (gp_leases p)
          | None => gp_leases p
          end in
        (with_leases leases' (with_deliveries (<[id := d']> (gp_deliveries p)) p), Applied)
  end.

Fixpoint renew_loop (consumer_id : string) (deadline_ms : N) (p : AggregateGroupPartition)
    (ids : list Uuid) : AggregateGroupPartition * list AggregateSettlementResult :=
  match ids with
  | [] => (p, [])
  | id :: ids' =>
      let '(p1, r) := renew_one consumer_id deadline_ms p id in
      let '(p2, rs) := renew_loop consumer_id deadline_ms p1 ids' in
      (p2, r :: rs)
  end.

Definition renew (p : AggregateGroupPartition) (consumer_id : string) (epoch deadline_ms : N)
    (ids : list Uuid) : AggregateGroupPartition * list AggregateSettlementResult :=
  if negb (epoch =? gp_epoch p)%N then (p, replicate (length ids) StaleLease)
  else renew_loop consumer_id deadline_ms p ids.

(** The mutating calls of the state machine on one partition, as an alphabet. *)
Inductive GroupPartitionOp : Type :=
| OpReset (epoch next_position : N)
| OpClaim (consumer_id : string) (now_ms deadline_ms : N) (settings : AggregateGroupSettings)
    (max_claim max_bytes : N) (candidates : list AggregateDeliveryCandidate)
| OpSettle (consumer_id : string) (epoch now_ms : N) (settings : AggregateGroupSettings)
    (l : list AggregateSettlement)
| OpRenew (consumer_id : string) (epoch deadline_ms : N) (ids : list Uuid)
| OpExpire (now_ms : N) (settings : AggregateGroupSettings).

Definition partition_step (p : AggregateGroupPartition) (op : GroupPartitionOp) :
    AggregateGroupPartition :=
  match op with
  | OpReset epoch next => partition_reset p epoch next
  | OpClaim c now dl s mc mb cs => (claim p c now dl s mc mb cs).1
  | OpSettle c e now s l => (settle p c e now s l).1
  | OpRenew c e dl ids => (renew p c e dl ids).1
  | OpExpire now s => (expire p now s).1
  end.

(** ** Lemmas: progress *)

(** A position is done when consumption is past it. *)
Definition settled (p : AggregateGroupPartition) (q : N) : Prop :=
  (q < gp_next_position p)%N \/ q ∈ gp_resolved_gaps p.

#[export] Instance settled_dec p q : Decision (settled p q).
Proof. unfold settled. apply _. Defined.

(** With the size of the set as fuel the loop runs to its exit. *)
Lemma advance_exits fuel gaps next gaps' next' :
  size gaps <= fuel -> advance fuel gaps next = (gaps', next') -> next' ∉ gaps'.
Proof.
  revert gaps next. induction fuel as [|fuel IH]; intros gaps next Hf; cbn.
  - intros [= <- <-]. assert (gaps = ∅) as -> by (apply leibniz_equiv, size_empty_inv; lia). set_solver.
  - case_bool_decide as Hin; [|intros [= <- <-]; done].
    apply IH. rewrite size_difference, size_singleton by set_solver. lia.
Qed.

Lemma advance_spec fuel gaps next gaps' next' :
  advance fuel gaps next = (gaps', next') ->
  (forall q, q ∈ gaps -> (next <= q < u64_max)%N) ->
  (next <= next')%N /\ gaps' ⊆ gaps /\ (forall q, q ∈ gaps' -> (next' <= q)%N) /\
  ((next <= u64_max)%N -> (next' <= u64_max)%N) /\
  forall q, (q < next')%N \/ q ∈ gaps' <-> (q < next)%N \/ q ∈ gaps.
Proof.
  revert gaps next. induction fuel as [|fuel IH]; intros gaps next; cbn.
  { intros [= <- <-] Hg. split_and!; try done; [|naive_solver..]. intros q Hq. by apply Hg. }
  case_bool_decide as Hin; [|intros [= <- <-] Hg; split_and!; try done; intros q Hq; by apply Hg].
  intros Ha Hg. assert (Hlt : (next < u64_max)%N) by (by apply Hg).
  rewrite saturating_add_u64_exact in Ha by lia.
  destruct (IH _ _ Ha) as (Hle & Hsub & Hge & Hmax & Hiff).
  { intros q [Hq Hne%not_elem_of_singleton]%elem_of_difference. specialize (Hg q Hq). lia. }
  split_and!; try lia; [set_solver|done|]. intros q. rewrite Hiff, elem_of_difference, elem_of_singleton.
  destruct (decide (q = next)) as [->|Hne]; [|intuition lia].
  split; [by right|]. intros _. left. lia.
Qed.

(** Gaps lie strictly ahead of the progress mark. *)
Definition progress_wf (p : AggregateGroupPartition) : Prop :=
  (gp_next_position p <= u64_max)%N /\
  forall q, q ∈ gp_resolved_gaps p -> (gp_next_position p < q < u64_max)%N.

Lemma resolve_spec p q :
  progress_wf p -> (q < u64_max)%N ->
  progress_wf (resolve p q) /\ (gp_next_position p <= gp_next_position (resolve p q))%N /\
  (forall q', settled (resolve p q) q' <-> settled p q' \/ q' = q) /\
  exists next gaps, resolve p q = with_progress next gaps p.
Proof.
  intros [Hn Hg] Hq. unfold resolve. case_if; bool_facts.
  { split; [done|]. split_and!; [lia| |by exists (gp_next_position p), (gp_resolved_gaps p); destruct p].
    intros q'. unfold settled. split; [tauto|]. intros [?| ->]; [tauto|lia]. }
  destruct (advance _ _ _) as [gaps' next'] eqn:Ha.
  pose proof (advance_exits _ _ _ _ _ (le_n _) Ha) as Hex.
  destruct (advance_spec _ _ _ _ _ Ha) as (Hle & Hsub & Hge & Hmax & Hiff).
  { intros q' [->%elem_of_singleton|Hq']%elem_of_union; [lia|]. specialize (Hg q' Hq'). lia. }
  split; [|split_and!; cbn; [done| |by eexists _, _]].
  - split; [by apply Hmax|]. intros q' Hq'. specialize (Hge q' Hq'). cbn.
    assert (q' <> next') by (intros ->; done).
    assert (q' < u64_max)%N; [|lia]. apply Hsub in Hq'.
    apply elem_of_union in Hq' as [->%elem_of_singleton|Hq']; [done | by apply Hg in Hq' as []].
  - intros q'. unfold settled. cbn. rewrite Hiff, elem_of_union, elem_of_singleton. tauto.
Qed.

(** ** Lemmas: the invariant *)

(** A position the group still has to get through. *)
Definition open_position (p : AggregateGroupPartition) (q : N) : Prop :=
  ~ settled p q /\ (q < u64_max)%N.

(** Position [q] and instance [a] are not held by any unsettled event. *)
Definition unheld (p : AggregateGroupPartition) (q : N) (a : string) : Prop :=
  (forall id d, gp_deliveries p !! id = Some d ->
     dl_partition_position d <> q /\ dl_aggregate_id d <> a) /\
  (forall q' r, gp_pending_retries p !! q' = Some r -> q' <> q /\ rt_aggregate_id r <> a).

(** The invariant of the state between two leases releases: deliveries and
    retries are filed under their keys, at open positions, no two of them share
    a position or an instance, and every one of them has a lease, which for a
    delivery is its own. *)
Record unsettled_wf (p : AggregateGroupPartition) : Prop := {
  wf_progress : progress_wf p;
  wf_delivery : forall id d, gp_deliveries p !! id = Some d ->
    dl_delivery_id d = id /\ open_position p (dl_partition_position d) /\
    gp_leases p !! dl_aggregate_id d =
      Some (mkLease (dl_consumer_id d) (dl_group_epoch d) (dl_deadline_ms d)) /\
    dl_group_epoch d = gp_epoch p;
  wf_retry : forall q r, gp_pending_retries p !! q = Some r ->
    rt_partition_position r = q /\ open_position p q /\
    is_Some (gp_leases p !! rt_aggregate_id r);
  wf_deliveries_apart : forall id1 d1 id2 d2,
    gp_deliveries p !! id1 = Some d1 -> gp_deliveries p !! id2 = Some d2 -> id1 <> id2 ->
    dl_partition_position d1 <> dl_partition_position d2 /\
    dl_aggregate_id d1 <> dl_aggregate_id d2;
  wf_retries_apart : forall q1 r1 q2 r2,
    gp_pending_retries p !! q1 = Some r1 -> gp_pending_retries p !! q2 = Some r2 -> q1 <> q2 ->
    rt_aggregate_id r1 <> rt_aggregate_id r2;
  wf_retry_apart : forall id d q r,
    gp_deliveries p !! id = Some d -> gp_pending_retries p !! q = Some r ->
    dl_partition_position d <> q /\ dl_aggregate_id d <> rt_aggregate_id r
}.

(** The invariant between two operations; the number of deliveries fits the
    [u32] that [available_credit] casts it to. *)
Definition partition_wf (p : AggregateGroupPartition) : Prop :=
  unsettled_wf p /\ (N.of_nat (size (gp_deliveries p)) <= u32_max)%N.

Lemma elem_of_active_aggregates p a :
  a ∈ active_aggregates p <->
  (exists id d, gp_deliveries p !! id = Some d /\ dl_aggregate_id d = a) \/
  (exists q r, gp_pending_retries p !! q = Some r /\ rt_aggregate_id r = a).
Proof.
  unfold active_aggregates. rewrite elem_of_list_to_set, elem_of_app, !list_elem_of_fmap.
  setoid_rewrite elem_of_btree_values. naive_solver.
Qed.

(** Taking a delivery out leaves the rest well formed and frees its position
    and instance. *)
Lemma unsettled_wf_take p id d :
  unsettled_wf p -> gp_deliveries p !! id = Some d ->
  let p' := with_deliveries (delete id (gp_deliveries p)) p in
  unsettled_wf p' /\ open_position p' (dl_partition_position d) /\
  unheld p' (dl_partition_position d) (dl_aggregate_id d) /\
  is_Some (gp_leases p' !! dl_aggregate_id d).
Proof.
  intros [Hp Hd Hr Hda Hra Hx] Hid p'. destruct (Hd _ _ Hid) as (_ & Ho & Hl & _).
  split_ands; [|apply Ho|split|by eexists].
  - split; cbn; try done.
    + intros id' d' [_ H]%lookup_delete_Some. by apply Hd.
    + intros id1 d1 id2 d2 [_ H1]%lookup_delete_Some [_ H2]%lookup_delete_Some. by apply Hda.
    + intros id' d' q r [_ H]%lookup_delete_Some. by eapply Hx.
  - cbn. intros id' d' [Hne H]%lookup_delete_Some. by eapply Hda.
  - intros q r H. destruct (Hx _ _ _ _ Hid H). split; congruence.
Qed.

(** Resolving a position no unsettled event holds. *)
Lemma unsettled_wf_resolve p q a :
  unsettled_wf p -> (q < u64_max)%N -> unheld p q a -> unsettled_wf (resolve p q).
Proof.
  intros [Hp Hd Hr Hda Hra Hx] Hq [Hu1 Hu2].
  destruct (resolve_spec p q Hp Hq) as (Hp' & _ & Hs & next & gaps & He).
  assert (Hopen : forall q', q' <> q -> open_position p q' -> open_position (resolve p q) q').
  { intros q' Hne [Hn Hlt]. split; [|done]. rewrite Hs. naive_solver. }
  rewrite He in *. split; cbn; try done.
  - intros id d H. destruct (Hd _ _ H) as (? & ? & ? & ?). split_ands; try done.
    apply Hopen; [by eapply Hu1|done].
  - intros q' r H. destruct (Hr _ _ H) as (? & ? & ?). destruct (Hu2 _ _ H).
    split_ands; try done. by apply Hopen.
Qed.

Lemma unsettled_wf_parked p k : unsettled_wf p -> unsettled_wf (with_parked k p).
Proof. intros [Hp Hd Hr Hda Hra Hx]. by split. Qed.

Lemma unsettled_wf_park p d reason now :
  unsettled_wf p -> open_position p (dl_partition_position d) ->
  unheld p (dl_partition_position d) (dl_aggregate_id d) -> unsettled_wf (park p d reason now).
Proof.
  intros Hwf [_ Hq] Hu. unfold park. apply unsettled_wf_parked. by eapply unsettled_wf_resolve.
Qed.

Lemma unsettled_wf_retry_or_park p d reason now s :
  unsettled_wf p -> open_position p (dl_partition_position d) ->
  unheld p (dl_partition_position d) (dl_aggregate_id d) ->
  is_Some (gp_leases p !! dl_aggregate_id d) -> unsettled_wf (retry_or_park p d reason now s).
Proof.
  intros Hwf Ho Hu Hl. unfold retry_or_park. case_if; [by apply unsettled_wf_park|].
  destruct Hwf as [Hp Hd Hr Hda Hra Hx], Hu as [Hu1 Hu2]. split; cbn; try done.
  - intros q r [[<- <-]|[_ H]]%lookup_insert_Some; [done|]. by apply Hr.
  - intros q1 r1 q2 r2 [[<- <-]|[_ H1]]%lookup_insert_Some [[<- <-]|[_ H2]]%lookup_insert_Some Hne;
      [done| | |by eapply Hra]; cbn; [apply not_eq_sym|]; by eapply Hu2.
  - intros id d' q r H1 [[<- <-]|[_ H2]]%lookup_insert_Some; [|by eapply Hx].
    cbn. by apply Hu1 in H1.
Qed.

Lemma release_unused_leases_lookup p a l :
  gp_leases (release_unused_leases p) !! a = Some l <->
  gp_leases p !! a = Some l /\ a ∈ active_aggregates p.
Proof. cbn. by rewrite map_lookup_filter_Some. Qed.

Lemma unsettled_wf_release p : unsettled_wf p -> unsettled_wf (release_unused_leases p).
Proof.
  intros [Hp Hd Hr Hda Hra Hx]. split; try done.
  - intros id d H. destruct (Hd id d H) as (? & ? & ? & ?). split_ands; try done.
    apply release_unused_leases_lookup. split; [done|]. apply elem_of_active_aggregates. eauto.
  - intros q r H. destruct (Hr q r H) as (? & ? & l & Hl). split_ands; try done.
    exists l. apply release_unused_leases_lookup. split; [done|].
    apply elem_of_active_aggregates. eauto.
Qed.

Lemma release_no_left_over p a :
  is_Some (gp_leases (release_unused_leases p) !! a) ->
  a ∈ active_aggregates (release_unused_leases p).
Proof. intros [l Hl]. by apply release_unused_leases_lookup in Hl as [_ ?]. Qed.

(** ** Lemmas: draining deliveries

    [settle] and [expire] take deliveries out one by one. [drains ack p p']
    collects what any number of such steps does: progress only moves forward,
    and only past positions whose delivery is gone because of [ack] or because
    it is in the parked queue; a delivery that is gone without its position
    being settled has a retry. *)

Definition held (p : AggregateGroupPartition) (q : N) : Prop :=
  (exists id d, gp_deliveries p !! id = Some d /\ dl_partition_position d = q) \/
  is_Some (gp_pending_retries p !! q).

Definition parked_at (p : AggregateGroupPartition) (id : Uuid) (q : N) : Prop :=
  exists k, gp_parked p !! id = Some k /\ pk_partition_position k = q.

Record drains (ack : Uuid -> AggregateGroupDelivery -> Prop)
    (p p' : AggregateGroupPartition) : Prop := {
  dr_epoch : gp_epoch p' = gp_epoch p;
  dr_next : (gp_next_position p <= gp_next_position p')%N;
  dr_settled : forall q, settled p q -> settled p' q;
  dr_deliveries : gp_deliveries p' ⊆ gp_deliveries p;
  dr_retries : forall q, is_Some (gp_pending_retries p !! q) -> is_Some (gp_pending_retries p' !! q);
  dr_parked : forall id q, parked_at p id q -> gp_deliveries p !! id = None -> parked_at p' id q;
  dr_why : forall q, settled p' q -> settled p q \/
    exists id d, gp_deliveries p !! id = Some d /\ dl_partition_position d = q /\
      gp_deliveries p' !! id = None /\ (ack id d \/ parked_at p' id q);
  dr_kept : forall id d, gp_deliveries p !! id = Some d -> gp_deliveries p' !! id = None ->
    settled p' (dl_partition_position d) \/
    is_Some (gp_pending_retries p' !! dl_partition_position d)
}.

#[export] Instance drains_refl ack : Reflexive (drains ack).
Proof. intros p. split; try done; [eauto|]. intros id d H1 H2. congruence. Qed.

#[export] Instance drains_trans ack : Transitive (drains ack).
Proof.
  intros p1 p2 p3 [E1 N1 S1 D1 R1 P1 W1 K1] [E2 N2 S2 D2 R2 P2 W2 K2].
  assert (Hgone : forall id, gp_deliveries p1 !! id = None -> gp_deliveries p2 !! id = None)
    by (intros id Hn; by eapply lookup_weaken_None).
  assert (Hgone' : forall id, gp_deliveries p2 !! id = None -> gp_deliveries p3 !! id = None)
    by (intros id Hn; by eapply lookup_weaken_None).
  split; [congruence|lia|auto|by etrans|auto| | |].
  - intros id q Hp Hn. apply P2; auto.
  - intros q Hq. apply W2 in Hq as [Hq|(id & d & Hd & Hpos & Hn & Hw)].
    + apply W1 in Hq as [Hq|(id & d & Hd & Hpos & Hn & Hw)]; [by left|].
      right. exists id, d. split_and!; auto. destruct Hw as [Hw|Hw]; [by left|right]. by apply P2.
    + right. exists id, d. split_and!; auto. by eapply lookup_weaken.
  - intros id d H1 H3. destruct (gp_deliveries p2 !! id) as [d'|] eqn:H2.
    + assert (d' = d) as -> by (eapply lookup_weaken in H2; [|done]; congruence). eauto.
    + destruct (K1 id d H1 H2) as [H|H]; [left; auto | right; auto].
Qed.

(** A delivery that was resolved, with [park]'s queue insert or without. *)
Lemma drains_take_resolve (ack : Uuid -> AggregateGroupDelivery -> Prop) p id d :
  unsettled_wf p -> gp_deliveries p !! id = Some d -> ack id d ->
  drains ack p (resolve (with_deliveries (delete id (gp_deliveries p)) p) (dl_partition_position d)).
Proof.
  intros Hwf Hid Hack. destruct (unsettled_wf_take p id d Hwf Hid) as (Hwf' & [_ Hlt] & _).
  set (p1 := with_deliveries _ p) in *.
  destruct (resolve_spec p1 (dl_partition_position d) (wf_progress _ Hwf') Hlt)
    as (_ & Hn & Hs & next & gaps & He).
  assert (Hid' : gp_deliveries (resolve p1 (dl_partition_position d)) !! id = None)
    by (rewrite He; apply lookup_delete_eq).
  split.
  - by rewrite He.
  - exact Hn.
  - intros q Hq. apply Hs. by left.
  - rewrite He. apply delete_subseteq.
  - by rewrite He.
  - rewrite He. intros id' q H _. exact H.
  - intros q [Hq| ->]%Hs; [by left|]. right. exists id, d. eauto.
  - intros id' d' H1 H2. left. apply Hs. right. rewrite He in H2. cbn in H2.
    apply lookup_delete_None in H2 as [->|H2]; congruence.
Qed.

Lemma drains_take_park ack p id d reason now :
  unsettled_wf p -> gp_deliveries p !! id = Some d ->
  drains ack p (park (with_deliveries (delete id (gp_deliveries p)) p) d reason now).
Proof.
  intros Hwf Hid. destruct (drains_take_resolve (fun i _ => i = id) p id d Hwf Hid eq_refl)
    as [E N S D R P W K].
  destruct (wf_delivery _ Hwf id d Hid) as (Hkey & _).
  unfold park. set (p1 := resolve _ _) in *. split; try done.
  - intros id' q (k & Hk & Hq) Hn. cbn in *. exists k. split; [|done]. cbn.
    rewrite Hkey, lookup_insert_ne by congruence.
    destruct (P id' q) as (k' & Hk' & _); [by exists k|done|].
    assert (gp_parked p1 = gp_parked p) as ->; [|done]. subst p1. unfold resolve.
    case_if; [done|]. by destruct (advance _ _ _).
  - intros q Hq. apply W in Hq as [Hq|(i & d' & Hd & Hpos & Hn & [->|Hw])]; [by left| |].
    + right. exists id, d'. split_and!; try done. right. rewrite Hid in Hd. injection Hd as <-.
      eexists. cbn. rewrite Hkey, lookup_insert_eq. done.
    + right. exists i, d'. split_and!; try done. right. destruct Hw as (k & Hk & Hq). cbn.
      destruct (decide (id = i)) as [<-|Hne].
      * rewrite Hid in Hd. injection Hd as <-. eexists. cbn. rewrite Hkey, lookup_insert_eq. done.
      * exists k. cbn. rewrite Hkey, lookup_insert_ne by done. done.
Qed.

Lemma drains_take_retry_or_park ack p id d reason now s :
  unsettled_wf p -> gp_deliveries p !! id = Some d ->
  drains ack p (retry_or_park (with_deliveries (delete id (gp_deliveries p)) p) d reason now s).
Proof.
  intros Hwf Hid. unfold retry_or_park. case_if; [by apply drains_take_park|].
  split; try done; cbn.
  - apply delete_subseteq.
  - intros q Hq. rewrite lookup_insert. case_decide; eauto.
  - intros q Hq. by left.
  - intros id' d' H1 H2. right. apply lookup_delete_None in H2 as [<-|H2]; [|congruence].
    rewrite Hid in H1. injection H1 as <-. rewrite lookup_insert_eq. eauto.
Qed.

Lemma drains_release ack p : drains ack p (release_unused_leases p).
Proof. split; try done; [by left|]. cbn. intros id d H1 H2. congruence. Qed.

Lemma expire_one_ok ack now s p id :
  unsettled_wf p -> unsettled_wf (expire_one now s p id) /\ drains ack p (expire_one now s p id).
Proof.
  intros Hwf. unfold expire_one. destruct (gp_deliveries p !! id) as [d|] eqn:Hid; [|done].
  destruct (unsettled_wf_take p id d Hwf Hid) as (Hwf' & Ho & Hu & Hl).
  split; [by apply unsettled_wf_retry_or_park | by apply drains_take_retry_or_park].
Qed.

Lemma expire_fold_ok ack now s ids p :
  unsettled_wf p ->
  unsettled_wf (fold_left (expire_one now s) ids p) /\
  drains ack p (fold_left (expire_one now s) ids p).
Proof.
  revert p. induction ids as [|id ids IH]; intros p Hwf; [done|]. cbn.
  destruct (expire_one_ok ack now s p id Hwf) as [Hwf1 Hd1].
  destruct (IH _ Hwf1) as [Hwf2 Hd2]. split; [done|]. by etrans.
Qed.

Lemma drains_size ack p p' :
  drains ack p p' -> (size (gp_deliveries p') <= size (gp_deliveries p))%nat.
Proof. intros H. apply map_subseteq_size, (dr_deliveries _ _ _ H). Qed.

Lemma expire_ok ack p now s :
  partition_wf p -> partition_wf (expire p now s).1 /\ drains ack p (expire p now s).1.
Proof.
  intros (Hwf & Hsz). cbn.
  destruct (expire_fold_ok ack now s (expired_ids p now) p Hwf) as [Hwf1 Hd1].
  pose proof (drains_size _ _ _ Hd1). split; [split|].
  - by apply unsettled_wf_release.
  - cbn. lia.
  - etrans; [exact Hd1|]. apply drains_release.
Qed.

(** ** Lemmas: settling *)

(** The delivery was acknowledged or skipped by its own consumer. *)
Definition acked (consumer_id : string) (l : list AggregateSettlement) (id : Uuid)
    (d : AggregateGroupDelivery) : Prop :=
  dl_consumer_id d = consumer_id /\
  exists s, s ∈ l /\ se_delivery_id s = id /\ (se_action s = ActAck \/ se_action s = ActSkip).

Lemma settle_one_ok consumer now st l p s :
  s ∈ l -> unsettled_wf p ->
  unsettled_wf (settle_one consumer now st p s).1 /\
  drains (acked consumer l) p (settle_one consumer now st p s).1.
Proof.
  intros Hs Hwf. unfold settle_one.
  destruct (gp_deliveries p !! se_delivery_id s) as [d|] eqn:Hid; [|done].
  case_if; [done|]. bool_facts.
  destruct (unsettled_wf_take p _ d Hwf Hid) as (Hwf' & Ho & Hu & Hl).
  assert (Hack : se_action s = ActAck \/ se_action s = ActSkip ->
                 acked consumer l (se_delivery_id s) d) by (intros Ha; split; eauto).
  cbn [fst]. destruct (se_action s) eqn:Ha.
  1, 4: split; [eapply unsettled_wf_resolve; [done|apply Ho|done] |
                apply drains_take_resolve; auto].
  - split; [by apply unsettled_wf_retry_or_park | by apply drains_take_retry_or_park].
  - split; [by apply unsettled_wf_park | by apply drains_take_park].
Qed.

Lemma settle_loop_ok consumer now st l0 l p :
  l ⊆ l0 -> unsettled_wf p ->
  unsettled_wf (settle_loop consumer now st p l).1 /\
  drains (acked consumer l0) p (settle_loop consumer now st p l).1.
Proof.
  revert p. induction l as [|s l IH]; intros p Hsub Hwf; [done|]. cbn.
  destruct (settle_one_ok consumer now st l0 p s) as [Hwf1 Hd1]; [set_solver|done|].
  destruct (settle_one consumer now st p s) as [p1 r]. cbn in *.
  destruct (IH p1) as [Hwf2 Hd2]; [set_solver|done|].
  destruct (settle_loop consumer now st p1 l) as [p2 rs]. cbn in *. split; [done|by etrans].
Qed.

Lemma settle_ok p consumer epoch now st l :
  partition_wf p ->
  partition_wf (settle p consumer epoch now st l).1 /\
  drains (acked consumer l) p (settle p consumer epoch now st l).1.
Proof.
  intros (Hwf & Hsz). unfold settle. case_if; [done|].
  destruct (settle_loop_ok consumer now st l l p ltac:(done) Hwf) as [Hwf1 Hd1].
  destruct (settle_loop consumer now st p l) as [p1 rs]. cbn [fst] in *.
  pose proof (drains_size _ _ _ Hd1). split; [split|].
  - by apply unsettled_wf_release.
  - cbn. lia.
  - etrans; [exact Hd1|]. apply drains_release.
Qed.

(** ** Lemmas: renewing *)

(** What a renewal leaves alone. *)
Definition same_work (p p' : AggregateGroupPartition) : Prop :=
  gp_epoch p' = gp_epoch p /\ gp_next_position p' = gp_next_position p /\
  gp_resolved_gaps p' = gp_resolved_gaps p /\ gp_pending_retries p' = gp_pending_retries p /\
  gp_parked p' = gp_parked p /\
  forall id, match gp_deliveries p !! id, gp_deliveries p' !! id with
    | Some d, Some d' =>
        dl_partition_position d' = dl_partition_position d /\
        dl_aggregate_id d' = dl_aggregate_id d /\ dl_consumer_id d' = dl_consumer_id d /\
        (dl_deadline_ms d <= dl_deadline_ms d')%N
    | None, None => True
    | _, _ => False
    end.

#[export] Instance same_work_refl : Reflexive same_work.
Proof. intros p. unfold same_work. split_ands; try done. intros id. by destruct (_ !! id). Qed.

#[export] Instance same_work_trans : Transitive same_work.
Proof.
  intros p1 p2 p3 (?&?&?&?&?&Hs1) (?&?&?&?&?&Hs2). unfold same_work. split_ands; try congruence.
  intros id. specialize (Hs1 id). specialize (Hs2 id).
  destruct (gp_deliveries p1 !! id), (gp_deliveries p2 !! id), (gp_deliveries p3 !! id); try done.
  destruct Hs1 as (?&?&?&?), Hs2 as (?&?&?&?). split_ands; try congruence. lia.
Qed.

Lemma renew_one_same consumer dl p id : same_work p (renew_one consumer dl p id).1.
Proof.
  unfold renew_one. destruct (gp_deliveries p !! id) as [d|] eqn:Hid; [|done].
  case_if; [done|]. unfold same_work. cbn. split_ands; try done.
  intros id'. rewrite lookup_insert. destruct (decide (id = id')) as [<-|].
  - rewrite Hid. cbn. split_ands; try done. lia.
  - by destruct (_ !! id').
Qed.

Lemma renew_one_wf consumer dl p id :
  unsettled_wf p -> unsettled_wf (renew_one consumer dl p id).1.
Proof.
  intros Hwf. pose proof (renew_one_same consumer dl p id) as Hsame. revert Hsame.
  unfold renew_one. destruct (gp_deliveries p !! id) as [d|] eqn:Hid; [|done].
  case_if; [done|]. intros _. destruct Hwf as [Hp Hd Hr Hda Hra Hx].
  destruct (Hd _ _ Hid) as (Hk & Ho & Hl & He). rewrite Hl. cbn [fst]. split; cbn; try done.
  - intros id' d' [[<- <-]|[Hne H]]%lookup_insert_Some.
    + cbn. rewrite lookup_insert_eq. done.
    + destruct (Hd _ _ H) as (? & ? & ? & ?). split_ands; try done.
      rewrite lookup_insert_ne; [done|]. by eapply Hda.
  - intros q r H. destruct (Hr _ _ H) as (? & ? & ?). split_ands; try done.
    apply lookup_insert_is_Some'. by right.
  - intros id1 d1 id2 d2 [[<- <-]|[Hn1 H1]]%lookup_insert_Some [[<- <-]|[Hn2 H2]]%lookup_insert_Some Hne;
      [done|exact (Hda _ _ _ _ Hid H2 Hne)|exact (Hda _ _ _ _ H1 Hid Hne)|by eapply Hda].
  - intros id' d' q r [[<- <-]|[Hne H]]%lookup_insert_Some H2; [exact (Hx _ _ _ _ Hid H2)|by eapply Hx].
Qed.

Lemma renew_loop_ok consumer dl ids p :
  unsettled_wf p ->
  unsettled_wf (renew_loop consumer dl p ids).1 /\ same_work p (renew_loop consumer dl p ids).1.
Proof.
  revert p. induction ids as [|id ids IH]; intros p Hwf; [done|]. cbn.
  pose proof (renew_one_wf consumer dl p id Hwf) as Hwf1.
  pose proof (renew_one_same consumer dl p id) as Hs1.
  destruct (renew_one consumer dl p id) as [p1 r]. cbn in *.
  destruct (IH p1 Hwf1) as (Hwf2 & Hs2).
  destruct (renew_loop consumer dl p1 ids) as [p2 rs]. cbn in *. split; [done|by etrans].
Qed.

Lemma same_work_size p p' :
  same_work p p' -> size (gp_deliveries p') = size (gp_deliveries p).
Proof.
  intros (_&_&_&_&_&Hd). rewrite <- !size_dom. f_equal. apply leibniz_equiv. intros id.
  rewrite !elem_of_dom. specialize (Hd id).
  destruct (gp_deliveries p !! id), (gp_deliveries p' !! id); split; intros H; try done; by eexists.
Qed.

Lemma renew_ok p consumer epoch dl ids :
  partition_wf p ->
  partition_wf (renew p consumer epoch dl ids).1 /\ same_work p (renew p consumer epoch dl ids).1.
Proof.
  intros (Hwf & Hsz). unfold renew. case_if; [done|].
  destruct (renew_loop_ok consumer dl ids p Hwf) as (Hwf' & Hs).
  split; [split; [done|]|done]. by rewrite (same_work_size p).
Qed.

(** ** Lemmas: claiming *)

(** What the body of the claim loop has checked when it takes a candidate. *)
Record taken (consumer_id : string) (now_ms max_bytes : N) (s : ClaimState)
    (c : AggregateDeliveryCandidate) : Prop := {
  tk_credit : (0 < cl_credit s)%N;
  tk_open : ~ settled (cl_partition s) (cd_partition_position c);
  tk_fresh : gp_deliveries (cl_partition s) !! cd_delivery_id c = None;
  tk_unheld : unheld (with_retries
      (delete (cd_partition_position c) (gp_pending_retries (cl_partition s))) (cl_partition s))
      (cd_partition_position c) (cd_aggregate_id c);
  tk_due : forall r, gp_pending_retries (cl_partition s) !! cd_partition_position c = Some r ->
    (rt_not_before_ms r <= now_ms)%N /\ rt_event_id r = cd_event_id c;
  tk_lease : forall l, gp_leases (cl_partition s) !! cd_aggregate_id c = Some l ->
    ls_consumer_id l = consumer_id \/ (ls_deadline_ms l <= now_ms)%N;
  tk_bytes : cl_claimed s <> [] ->
    (saturating_add_u64 (cl_claimed_bytes s) (cd_payload_bytes c) <= max_bytes)%N
}.

Definition claim_take (consumer_id : string) (deadline_ms : N) (s : ClaimState)
    (c : AggregateDeliveryCandidate) : ClaimState :=
  let d := claimed_delivery consumer_id deadline_ms (cl_partition s) c in
  mkClaim (claim_commit (cl_partition s) d) (cl_credit s - 1)
    (saturating_add_u64 (cl_claimed_bytes s) (cd_payload_bytes c)) (cl_claimed s ++ [d]).

Lemma claim_one_take consumer now dl mb s c s' :
  unsettled_wf (cl_partition s) ->
  claim_one consumer now dl mb s c = ClaimTake s' ->
  taken consumer now mb s c /\ s' = claim_take consumer dl s c.
Proof.
  intros Hwf. unfold claim_one. case_if; [discriminate|]. case_if; [discriminate|].
  do 3 (case_if; [discriminate|]). case_if; [discriminate|]. intros [= <-].
  split; [|done]. bool_facts.
  repeat match goal with H : existsb _ _ = false |- _ => rewrite existsb_False in H;
    setoid_rewrite elem_of_btree_values in H end.
  split; [lia| |by apply eq_None_not_Some| | | |].
  - unfold settled. intros [Hs|Hs]; [lia|done].
  - split; cbn.
    + intros id d Hd. specialize (H2 d (ex_intro _ _ Hd)). specialize (H d (ex_intro _ _ Hd)).
      rewrite H2 in H. bool_facts. cbn in H. rewrite andb_true_r in H. by bool_facts.
    + intros q r [Hne Hr]%lookup_delete_Some. specialize (H0 r (ex_intro _ _ Hr)).
      destruct (wf_retry _ Hwf _ _ Hr) as (Hq & _). rewrite Hq in H0.
      rewrite (proj2 (N.eqb_neq q _)) in H0 by congruence. cbn in H0. rewrite andb_true_r in H0.
      by bool_facts.
  - intros r Hr. rewrite Hr in E1. by bool_facts.
  - intros l Hl. rewrite Hl in E3. apply andb_false_iff in E3 as [E3|E3]; bool_facts; auto.
  - intros Hne. rewrite bool_decide_eq_false_2 in E4 by done. cbn in E4. by apply N.ltb_ge in E4.
Qed.

Lemma open_position_same p p' q :
  gp_next_position p' = gp_next_position p -> gp_resolved_gaps p' = gp_resolved_gaps p ->
  open_position p q -> open_position p' q.
Proof. unfold open_position, settled. by intros -> ->. Qed.

Lemma claim_commit_wf consumer now mb dl s c :
  unsettled_wf (cl_partition s) -> (cd_partition_position c < u64_max)%N ->
  taken consumer now mb s c ->
  unsettled_wf (claim_commit (cl_partition s) (claimed_delivery consumer dl (cl_partition s) c)).
Proof.
  intros [Hp Hd Hr Hda Hra Hx] Hlt [_ Hopen Hfresh [Hu1 Hu2] _ _ _]. cbn in Hu1, Hu2.
  split; cbn; [done| | | | |].
  - intros id d [[<- <-]|[Hne H]]%lookup_insert_Some.
    + cbn. rewrite lookup_insert_eq. done.
    + destruct (Hd _ _ H) as (? & ? & ? & ?). split_ands; try done.
      rewrite lookup_insert_ne; [done|]. by apply not_eq_sym, (Hu1 _ _ H).
  - intros q r [Hne H]%lookup_delete_Some. destruct (Hr _ _ H) as (? & ? & ?).
    split_ands; try done. apply lookup_insert_is_Some'. by right.
  - intros id1 d1 id2 d2 [[<- <-]|[Hn1 H1]]%lookup_insert_Some [[<- <-]|[Hn2 H2]]%lookup_insert_Some Hne;
      [done| | |by eapply Hda]; cbn.
    + destruct (Hu1 _ _ H2). split; congruence.
    + by apply (Hu1 _ _ H1).
  - intros q1 r1 q2 r2 [_ H1]%lookup_delete_Some [_ H2]%lookup_delete_Some. by eapply Hra.
  - intros id d q r [[<- <-]|[Hne H]]%lookup_insert_Some Hq; cbn.
    + destruct (Hu2 _ _ Hq). split; congruence.
    + apply lookup_delete_Some in Hq as [_ Hq]. by eapply Hx.
Qed.

(** Claiming only adds deliveries: progress and the parked queue stay, and what
    was held is held. *)
Record claims (p p' : AggregateGroupPartition) : Prop := {
  cm_epoch : gp_epoch p' = gp_epoch p;
  cm_next : gp_next_position p' = gp_next_position p;
  cm_gaps : gp_resolved_gaps p' = gp_resolved_gaps p;
  cm_parked : gp_parked p' = gp_parked p;
  cm_deliveries : gp_deliveries p ⊆ gp_deliveries p';
  cm_held : forall q, held p q -> held p' q
}.

#[export] Instance claims_refl : Reflexive claims.
Proof. intros p. by split. Qed.

#[export] Instance claims_trans : Transitive claims.
Proof.
  intros p1 p2 p3 [E1 N1 G1 P1 D1 H1] [E2 N2 G2 P2 D2 H2].
  split; [congruence..|by etrans|auto].
Qed.

Lemma claims_commit p d :
  gp_deliveries p !! dl_delivery_id d = None -> claims p (claim_commit p d).
Proof.
  intros Hn. split; cbn; try done; [by apply insert_subseteq|].
  intros q [(id & d' & H & Hq)|H].
  - left. exists id, d'. split; [|done]. cbn. rewrite lookup_insert_ne; [done|congruence].
  - destruct (decide (dl_partition_position d = q)) as [Heq|Hne].
    + left. exists (dl_delivery_id d), d. cbn. by rewrite lookup_insert_eq.
    + right. cbn. by rewrite lookup_delete_ne.
Qed.

(** The relation between a claimed delivery and its candidate. *)
Definition delivers (consumer_id : string) (deadline_ms epoch : N) (d : AggregateGroupDelivery)
    (c : AggregateDeliveryCandidate) : Prop :=
  dl_delivery_id d = cd_delivery_id c /\ dl_consumer_id d = consumer_id /\
  dl_partition_position d = cd_partition_position c /\ dl_aggregate_id d = cd_aggregate_id c /\
  dl_event_id d = cd_event_id c /\ dl_deadline_ms d = deadline_ms /\ dl_group_epoch d = epoch.

Definition payload_sum (cs : list AggregateDeliveryCandidate) : N :=
  foldr (fun c n => cd_payload_bytes c + n)%N 0%N cs.

(** The credit left covers both limits for as long as there is any. *)
Definition credit_covers (consumer_id : string) (settings : AggregateGroupSettings)
    (s : ClaimState) : Prop :=
  (cl_credit s + len (consumer_deliveries (cl_partition s) consumer_id)
     <= max_unacked_per_consumer settings)%N /\
  (cl_credit s + N.of_nat (size (gp_deliveries (cl_partition s)))
     <= max_unacked_per_group settings)%N.

Lemma consumer_deliveries_insert p d :
  gp_deliveries p !! dl_delivery_id d = None ->
  len (consumer_deliveries (claim_commit p d) (dl_consumer_id d)) =
  (1 + len (consumer_deliveries p (dl_consumer_id d)))%N.
Proof.
  intros Hn. unfold consumer_deliveries, len, btree_values. cbn [gp_deliveries claim_commit].
  assert (Hperm : (btree_iter (<[dl_delivery_id d := d]> (gp_deliveries p))).*2 ≡ₚ
                  d :: (btree_iter (gp_deliveries p)).*2).
  { rewrite !btree_iter_permutation, map_to_list_insert by done. done. }
  assert (Hf : forall l1 l2 : list AggregateGroupDelivery, l1 ≡ₚ l2 ->
     length (List.filter (fun x => bool_decide (dl_consumer_id x = dl_consumer_id d)) l1) =
     length (List.filter (fun x => bool_decide (dl_consumer_id x = dl_consumer_id d)) l2)).
  { induction 1; cbn; repeat case_bool_decide; cbn; congruence. }
  rewrite (Hf _ _ Hperm). cbn. rewrite bool_decide_eq_true_2 by done. cbn. lia.
Qed.

(** The candidates a loop takes, as a run: the properties of the loop are
    proved by induction on it. *)
Inductive claim_runs (consumer_id : string) (now_ms deadline_ms max_bytes : N) :
    ClaimState -> list AggregateDeliveryCandidate -> ClaimState -> Prop :=
| claim_runs_stop s : claim_runs consumer_id now_ms deadline_ms max_bytes s [] s
| claim_runs_take s c cs s' :
    taken consumer_id now_ms max_bytes s c ->
    claim_runs consumer_id now_ms deadline_ms max_bytes (claim_take consumer_id deadline_ms s c) cs s' ->
    claim_runs consumer_id now_ms deadline_ms max_bytes s (c :: cs) s'.

Definition candidates_wf (cs : list AggregateDeliveryCandidate) : Prop :=
  Forall (fun c => cd_partition_position c < u64_max)%N cs.

Lemma claim_loop_runs consumer now dl mb cs s :
  unsettled_wf (cl_partition s) -> candidates_wf cs ->
  unsettled_wf (cl_partition (claim_loop consumer now dl mb s cs)) /\
  exists took, took `sublist_of` cs /\
    claim_runs consumer now dl mb s took (claim_loop consumer now dl mb s cs).
Proof.
  intros Hwf Hcs. revert s Hwf. induction Hcs as [|c cs Hc Hcs IH]; intros s Hwf; cbn.
  { split; [done|]. exists []. split; [done|constructor]. }
  destruct (claim_one consumer now dl mb s c) as [| |s'] eqn:Hone.
  - split; [done|]. exists []. split; [apply sublist_nil_l|constructor].
  - destruct (IH s Hwf) as (Hwf' & took & Hsub & Hrun). split; [done|].
    exists took. split; [by apply sublist_cons|done].
  - apply claim_one_take in Hone as [Ht ->]; [|done].
    destruct (IH (claim_take consumer dl s c)) as (Hwf' & took & Hsub & Hrun);
      [by eapply claim_commit_wf|]. split; [done|].
    exists (c :: took). split; [by apply sublist_skip|by constructor].
Qed.

Lemma claim_runs_claims consumer now dl mb s cs s' :
  claim_runs consumer now dl mb s cs s' -> claims (cl_partition s) (cl_partition s').
Proof.
  induction 1 as [s|s c cs s' Ht Hr IH]; [done|]. etrans; [|exact IH].
  apply claims_commit. apply (tk_fresh _ _ _ _ _ Ht).
Qed.

(** The claimed deliveries are those of the taken candidates, in order, and
    they are in the final state. *)
Lemma claim_runs_delivers consumer now dl mb s cs s' :
  claim_runs consumer now dl mb s cs s' ->
  exists new, cl_claimed s' = cl_claimed s ++ new /\
    Forall2 (delivers consumer dl (gp_epoch (cl_partition s))) new cs /\
    Forall (fun d => gp_deliveries (cl_partition s') !! dl_delivery_id d = Some d) new.
Proof.
  induction 1 as [s|s c cs s' Ht Hr IH].
  { exists []. by rewrite app_nil_r. }
  destruct IH as (new & Hnew & Hd & Hin). eexists (_ :: new). split_ands.
  - rewrite Hnew. cbn. rewrite <- app_assoc. reflexivity.
  - constructor; [|done]. unfold delivers. split_ands; reflexivity.
  - constructor; [|done]. apply claim_runs_claims, cm_deliveries in Hr.
    eapply lookup_weaken; [|exact Hr]. cbn. apply lookup_insert_eq.
Qed.

Lemma claim_runs_credit consumer now dl mb s cs s' settings :
  claim_runs consumer now dl mb s cs s' ->
  (cl_credit s' + len cs = cl_credit s)%N /\
  (credit_covers consumer settings s -> credit_covers consumer settings s').
Proof.
  induction 1 as [s|s c cs s' Ht Hr [IHn IHc]].
  { split; [unfold len; cbn; lia|done]. }
  pose proof (tk_credit _ _ _ _ _ Ht) as Hpos. cbn [cl_credit claim_take] in IHn. split.
  - rewrite len_cons. lia.
  - intros [H1 H2]. apply IHc. pose proof (tk_fresh _ _ _ _ _ Ht) as Hf. split.
    + pose proof (consumer_deliveries_insert (cl_partition s)
        (claimed_delivery consumer dl (cl_partition s) c) Hf) as Hins.
      cbn [dl_consumer_id claimed_delivery] in Hins.
      cbn [cl_credit cl_partition claim_take]. rewrite Hins. lia.
    + cbn [cl_credit cl_partition claim_take gp_deliveries claim_commit].
      rewrite map_size_insert_None by exact Hf. lia.
Qed.

Lemma claim_runs_bytes consumer now dl mb s cs s' :
  claim_runs consumer now dl mb s cs s' ->
  (cl_claimed_bytes s <= u64_max)%N ->
  cl_claimed_bytes s' = N.min (cl_claimed_bytes s + payload_sum cs) u64_max /\
  (cs <> [] -> (cl_claimed s = [] /\ length cs = 1%nat) \/ (cl_claimed_bytes s' <= mb)%N).
Proof.
  induction 1 as [s|s c cs s' Ht Hr IH]; intros Hle.
  { split; [cbn; lia|done]. }
  destruct IH as [IHb IHm]; [cbn; apply saturating_add_u64_le|].
  cbn [cl_claimed_bytes claim_take] in IHb. unfold saturating_add_u64 in IHb. split.
  { rewrite IHb. cbn [payload_sum foldr]. unfold payload_sum. lia. }
  intros _. destruct cs as [|c' cs].
  - destruct (decide (cl_claimed s = [])) as [He|Hne]; [by left|]. right.
    inversion Hr; subst. cbn. by apply (tk_bytes _ _ _ _ _ Ht).
  - right. destruct IHm as [[Hnil _]|Hm]; [done| |done]. cbn in Hnil.
    by destruct (cl_claimed s).
Qed.

(** ** Lemmas: whole operations *)

Lemma available_credit_covers p consumer settings max_claim :
  (N.of_nat (size (gp_deliveries p)) <= u32_max)%N ->
  (0 < N.min (available_credit p consumer settings) max_claim)%N ->
  credit_covers consumer settings
    (mkClaim p (N.min (available_credit p consumer settings) max_claim) 0 []).
Proof.
  intros Hsz. unfold available_credit, credit_covers, as_u32. cbn [cl_credit cl_partition].
  assert (Hle : (len (consumer_deliveries p consumer) <= N.of_nat (size (gp_deliveries p)))%N).
  { unfold len, consumer_deliveries.
    pose proof (List.filter_length_le (fun d => bool_decide (dl_consumer_id d = consumer))
      (btree_values (gp_deliveries p))) as Hf.
    unfold btree_values in *. rewrite length_fmap, length_btree_iter in Hf. lia. }
  rewrite !N.mod_small by lia. lia.
Qed.

(** A claim is refused outright, or it is an [expire] followed by the run of the
    loop. *)
Lemma claim_cases p consumer now dl settings mc mb cs :
  partition_wf p -> settings_wf settings -> candidates_wf cs ->
  claim p consumer now dl settings mc mb cs = (p, []) \/
  exists took s',
    let pe := (expire p now settings).1 in
    let s := mkClaim pe (N.min (available_credit pe consumer settings) mc) 0 [] in
    took `sublist_of` cs /\ claim_runs consumer now dl mb s took s' /\
    s' = claim_loop consumer now dl mb s cs /\
    claim p consumer now dl settings mc mb cs = (cl_partition s', cl_claimed s') /\
    partition_wf pe /\ partition_wf (cl_partition s').
Proof.
  intros Hwf Hset Hcs. unfold claim. case_if; [by left|]. right.
  destruct (expire_ok (fun _ _ => False) p now settings Hwf) as [Hwfe _].
  set (pe := (expire p now settings).1) in *. set (s := mkClaim pe _ 0 []).
  destruct (claim_loop_runs consumer now dl mb cs s (proj1 Hwfe) Hcs) as (Hwf' & took & Hsub & Hrun).
  exists took, (claim_loop consumer now dl mb s cs). cbn zeta. split_ands; try done.
  split; [done|].
  destruct (decide (took = [])) as [->|Hne]; [inversion Hrun; subst; apply Hwfe|].
  destruct (claim_runs_credit _ _ _ _ _ _ _ settings Hrun) as [Hn Hcov].
  destruct Hset as (_ & Hg & _). destruct Hcov as [_ Hc]; [|lia].
  apply available_credit_covers; [apply Hwfe|]. destruct took; [done|]. rewrite len_cons in Hn.
  cbn [cl_credit s] in Hn. lia.
Qed.

Lemma expire_one_keeps now s p id id' :
  id <> id' -> unsettled_wf p -> gp_deliveries (expire_one now s p id') !! id = gp_deliveries p !! id.
Proof.
  intros Hne Hwf. unfold expire_one. destruct (gp_deliveries p !! id') as [d|] eqn:Hid; [|done].
  destruct (wf_delivery _ Hwf _ _ Hid) as (_ & Ho & _). unfold retry_or_park, park, resolve.
  repeat (case_if; cbn [gp_deliveries with_retries with_parked with_deliveries]);
    try (destruct (advance _ _ _); cbn); by rewrite lookup_delete_ne.
Qed.

Lemma expire_keeps p now s id d :
  partition_wf p -> gp_deliveries p !! id = Some d -> (now < dl_deadline_ms d)%N ->
  gp_deliveries (expire p now s).1 !! id = Some d.
Proof.
  intros [Hwf _] Hid Hlt. cbn. assert (Hnot : id ∉ expired_ids p now).
  { unfold expired_ids. intros ([id' d'] & Heq & Hin)%list_elem_of_fmap. cbn in Heq. subst id'.
    apply list_elem_of_In, filter_In in Hin as [Hin%list_elem_of_In Hdl].
    apply elem_of_btree_iter in Hin. cbn in Hdl. bool_facts. simplify_eq. lia. }
  revert Hnot. generalize (expired_ids p now). intros ids Hnot. revert p Hwf Hid.
  induction ids as [|id' ids IH]; intros p Hwf Hid; [done|]. cbn.
  apply not_elem_of_cons in Hnot as [Hne Hnot]. apply IH; [done| |].
  - by apply (expire_one_ok (fun _ _ => False)).
  - by rewrite expire_one_keeps.
Qed.

Lemma settle_one_keeps consumer now st p s id d :
  gp_deliveries p !! id = Some d -> dl_consumer_id d <> consumer ->
  gp_deliveries (settle_one consumer now st p s).1 !! id = Some d.
Proof.
  intros Hid Hc. unfold settle_one.
  destruct (gp_deliveries p !! se_delivery_id s) as [d'|] eqn:Hid'; [|done].
  case_if; [done|]. bool_facts. assert (Hne : se_delivery_id s <> id) by congruence.
  unfold retry_or_park, park, resolve. cbn [fst].
  destruct (se_action s);
    repeat (case_if; cbn [gp_deliveries with_retries with_parked with_deliveries]);
    try (destruct (advance _ _ _); cbn); by rewrite lookup_delete_ne.
Qed.

Lemma settle_keeps p consumer epoch now st l id d :
  gp_deliveries p !! id = Some d -> dl_consumer_id d <> consumer ->
  gp_deliveries (settle p consumer epoch now st l).1 !! id = Some d.
Proof.
  intros Hid Hc. unfold settle. case_if; [done|].
  assert (Hloop : gp_deliveries (settle_loop consumer now st p l).1 !! id = Some d).
  { clear E. revert p Hid. induction l as [|s l IH]; intros p Hid; [done|]. cbn.
    pose proof (settle_one_keeps consumer now st p s id d Hid Hc) as H1.
    destruct (settle_one consumer now st p s) as [p1 r]. specialize (IH p1 H1).
    by destruct (settle_loop consumer now st p1 l). }
  by destruct (settle_loop consumer now st p l).
Qed.

Lemma renew_one_keeps consumer dl p id id' d :
  gp_deliveries p !! id = Some d -> dl_consumer_id d <> consumer ->
  gp_deliveries (renew_one consumer dl p id').1 !! id = Some d.
Proof.
  intros Hid Hc. unfold renew_one. destruct (gp_deliveries p !! id') as [d'|] eqn:Hid'; [|done].
  case_if; [done|]. bool_facts. cbn. rewrite lookup_insert_ne; [done|congruence].
Qed.

Lemma renew_keeps p consumer epoch dl ids id d :
  gp_deliveries p !! id = Some d -> dl_consumer_id d <> consumer ->
  gp_deliveries (renew p consumer epoch dl ids).1 !! id = Some d.
Proof.
  intros Hid Hc. unfold renew. case_if; [done|]. clear E. revert p Hid.
  induction ids as [|id' ids IH]; intros p Hid; [done|]. cbn.
  pose proof (renew_one_keeps consumer dl p id id' d Hid Hc) as H1.
  destruct (renew_one consumer dl p id') as [p1 r]. specialize (IH p1 H1).
  by destruct (renew_loop consumer dl p1 ids).
Qed.

(** What each result of a settlement says about the state it leaves. *)
Definition result_stands (consumer_id : string) (p : AggregateGroupPartition)
    (s : AggregateSettlement) (r : AggregateSettlementResult) : Prop :=
  match r with
  | Applied | AlreadySettled => gp_deliveries p !! se_delivery_id s = None
  | WrongConsumer =>
      exists d, gp_deliveries p !! se_delivery_id s = Some d /\ dl_consumer_id d <> consumer_id
  | StaleLease => False
  end.

Lemma settle_loop_results consumer now st l p :
  unsettled_wf p ->
  Forall2 (result_stands consumer (settle_loop consumer now st p l).1) l
    (settle_loop consumer now st p l).2.
Proof.
  revert p. induction l as [|s l IH]; intros p Hwf; [constructor|]. cbn.
  destruct (settle_one_ok consumer now st [s] p s) as [Hwf1 Hd1]; [set_solver|done|].
  assert (Hr : result_stands consumer (settle_one consumer now st p s).1 s
                 (settle_one consumer now st p s).2).
  { destruct (settle_one consumer now st p s) as [p1 r] eqn:H1. revert H1. unfold settle_one.
    destruct (gp_deliveries p !! se_delivery_id s) as [d|] eqn:Hid; [|by intros [= <- <-]].
    case_if; [intros [= <- <-]; bool_facts; by exists d|]. intros [= <- <-]. cbn.
    unfold retry_or_park, park, resolve. destruct (se_action s);
      repeat (case_if; cbn [gp_deliveries with_retries with_parked with_deliveries]);
      try (destruct (advance _ _ _); cbn); apply lookup_delete_eq. }
  destruct (settle_one consumer now st p s) as [p1 r]. cbn in *.
  destruct (settle_loop_ok consumer now st l l p1 ltac:(done) Hwf1) as [_ Hd2].
  assert (Hkeep : forall id d, gp_deliveries p1 !! id = Some d -> dl_consumer_id d <> consumer ->
            gp_deliveries (settle_loop consumer now st p1 l).1 !! id = Some d).
  { intros id d Hid Hc. pose proof (settle_keeps p1 consumer (gp_epoch p1) now st l id d Hid Hc) as H.
    unfold settle in H. rewrite N.eqb_refl in H. cbn in H. by destruct (settle_loop _ _ _ _ _). }
  specialize (IH p1 Hwf1). destruct (settle_loop consumer now st p1 l) as [p2 rs]. cbn in *.
  constructor; [|done]. destruct r; cbn in *; [| |done|].
  1, 2: eapply lookup_weaken_None; [exact Hr|apply (dr_deliveries _ _ _ Hd2)].
  destruct Hr as (d & Hd & Hc). exists d. auto.
Qed.

(** The reply to a settlement that is sent again. *)
Definition again (r : AggregateSettlementResult) : AggregateSettlementResult :=
  match r with Applied => AlreadySettled | r => r end.

Lemma settle_loop_again consumer now st l p rs :
  Forall2 (result_stands consumer p) l rs ->
  settle_loop consumer now st p l = (p, map again rs).
Proof.
  induction 1 as [|s r l rs Hr _ IH]; [done|]. cbn.
  assert (settle_one consumer now st p s = (p, again r)) as ->; [|by rewrite IH].
  unfold settle_one. destruct r; cbn in *; [by rewrite Hr|by rewrite Hr|done|].
  destruct Hr as (d & -> & Hc). by rewrite bool_decide_eq_false_2.
Qed.

Lemma release_unused_leases_idemp p :
  release_unused_leases (release_unused_leases p) = release_unused_leases p.
Proof.
  unfold release_unused_leases at 1. change (active_aggregates (release_unused_leases p))
    with (active_aggregates p).
  unfold release_unused_leases, with_leases. cbn. f_equal.
  apply map_eq. intros a. apply option_eq. intros l.
  rewrite !map_lookup_filter_Some. cbn. tauto.
Qed.

(** The checks of the loop body are also enough. *)
Lemma claim_one_takes consumer now dl mb s c :
  unsettled_wf (cl_partition s) -> taken consumer now mb s c ->
  (gp_pending_retries (cl_partition s) !! cd_partition_position c = None -> cd_replayed c = false) ->
  claim_one consumer now dl mb s c = ClaimTake (claim_take consumer dl s c).
Proof.
  intros Hwf [Hcr Ho Hf [Hu1 Hu2] Hdue Hlease Hb] Hnew. unfold claim_one.
  unfold settled in Ho. cbn in Hu1, Hu2. set (q := cd_partition_position c) in *.
  rewrite (proj2 (N.eqb_neq (cl_credit s) 0)) by lia.
  rewrite (proj2 (N.ltb_ge q _)) by lia.
  rewrite (bool_decide_eq_false_2 (q ∈ _)) by tauto.
  rewrite (bool_decide_eq_false_2 (is_Some _)) by (rewrite Hf; by intros [? ?]).
  rewrite (proj2 (existsb_False _ _)); cycle 1.
  { intros d [id Hd]%elem_of_btree_values. apply N.eqb_neq. by apply (Hu1 id d). }
  cbn [orb].
  assert (Hr : match gp_pending_retries (cl_partition s) !! q with
               | Some r => (now <? rt_not_before_ms r)%N || negb (rt_event_id r =? cd_event_id c)%N
               | None => cd_replayed c end = false).
  { destruct (gp_pending_retries (cl_partition s) !! q) as [r|]; [|auto].
    destruct (Hdue r eq_refl) as [H1 ->]. rewrite N.eqb_refl, (proj2 (N.ltb_ge _ _)) by done. done. }
  rewrite Hr. rewrite (proj2 (existsb_False _ _)); cycle 1.
  { intros d [id Hd]%elem_of_btree_values. rewrite bool_decide_eq_false_2; [done|].
    by apply (Hu1 id d). }
  rewrite (proj2 (existsb_False _ _)); cycle 1.
  { intros r [q' Hq]%elem_of_btree_values. destruct (wf_retry _ Hwf _ _ Hq) as (Hk & _).
    destruct (decide (q' = q)) as [->|Hne]; [rewrite Hk, N.eqb_refl; apply andb_false_r|].
    rewrite bool_decide_eq_false_2; [done|]. apply (Hu2 q' r). by rewrite lookup_delete_ne. }
  cbn [orb].
  assert (Hl : match gp_leases (cl_partition s) !! cd_aggregate_id c with
               | Some l => negb (bool_decide (ls_consumer_id l = consumer)) && (now <? ls_deadline_ms l)%N
               | None => false end = false).
  { destruct (gp_leases (cl_partition s) !! cd_aggregate_id c) as [l|]; [|done].
    destruct (Hlease l eq_refl) as [H1|H1]; [by rewrite bool_decide_eq_true_2|].
    rewrite (proj2 (N.ltb_ge _ _)) by done. apply andb_false_r. }
  rewrite Hl. case_if; [|done]. bool_facts. specialize (Hb ltac:(done)). lia.
Qed.

(** ** Properties *)

(** The widths of what a command carries. *)
Definition op_wf (op : GroupPartitionOp) : Prop :=
  match op with
  | OpReset _ next => (next <= u64_max)%N
  | OpClaim _ _ _ s _ _ cs => settings_wf s /\ candidates_wf cs
  | _ => True
  end.

Lemma partition_new_wf epoch next : (next <= u64_max)%N -> partition_wf (partition_new epoch next).
Proof.
  intros Hn. split; [|cbn; rewrite map_size_empty; lia].
  split; cbn; try (intros *; rewrite lookup_empty; discriminate).
  split; [done|]. intros q Hq. by apply elem_of_empty in Hq.
Qed.

Lemma partition_step_wf p op : op_wf op -> partition_wf p -> partition_wf (partition_step p op).
Proof.
  intros Hop Hwf. destruct op as [e n|c now dl s mc mb cs|c e now s l|c e dl ids|now s]; cbn [partition_step].
  - by apply partition_new_wf.
  - destruct Hop as [Hs Hc].
    destruct (claim_cases p c now dl s mc mb cs Hwf Hs Hc)
      as [->|(took & s' & _ & _ & _ & -> & _ & Hwf')]; done.
  - by apply settle_ok.
  - by apply renew_ok.
  - by apply (expire_ok (fun _ _ => False)).
Qed.

(** C27: whatever claims, settlements, renewals, expiries and resets reach one
    partition of a group, in whatever order, its state stays well formed:
    deliveries and retries are filed under their keys at positions that are
    still open, no two unsettled events share a position or an aggregate
    instance, each delivery holds the lease of its instance, gaps lie strictly
    ahead of the progress mark, and the delivery count fits a u32. *)
Theorem partition_reachable_wf (epoch next : N) (ops : list GroupPartitionOp)
  (Hnext : (next <= u64_max)%N) (Hops : Forall op_wf ops) :
  partition_wf (fold_left partition_step ops (partition_new epoch next)).
Proof.
  assert (Hwf := partition_new_wf epoch next Hnext). revert Hwf. generalize (partition_new epoch next).
  induction Hops as [|op ops Hop _ IH]; intros p Hwf; [done|]. by apply IH, partition_step_wf.
Qed.

(** [no_loss why p p']: between [p] and [p'] settled positions stay settled,
    held events stay held or become settled, and a position becomes settled only
    if the event at it was being delivered and is now parked or satisfies
    [why]. *)
Definition no_loss (why : Uuid -> AggregateGroupDelivery -> Prop)
    (p p' : AggregateGroupPartition) : Prop :=
  (gp_next_position p <= gp_next_position p')%N /\
  (forall q, settled p q -> settled p' q) /\
  (forall q, held p q -> held p' q \/ settled p' q) /\
  (forall q, settled p' q -> settled p q \/
     exists id d, gp_deliveries p !! id = Some d /\ dl_partition_position d = q /\
       (parked_at p' id q \/ why id d)).

Lemma drains_no_loss (ack why : Uuid -> AggregateGroupDelivery -> Prop) p p' :
  (forall id d, ack id d -> why id d) -> drains ack p p' -> no_loss why p p'.
Proof.
  intros Hack [E Hn Hs D R P W K]. unfold no_loss. split_ands; try done.
  - intros q [(id & d & Hid & <-)|Hq]; [|left; right; auto].
    destruct (gp_deliveries p' !! id) as [d'|] eqn:Hid1.
    + left; left. exists id, d'. split; [done|]. eapply lookup_weaken in Hid1; [|exact D]. congruence.
    + destruct (K id d Hid Hid1); [by right|left; by right].
  - intros q Hq. destruct (W q Hq) as [?|(id & d & ? & ? & _ & Hw)]; [by left|].
    right. exists id, d. split_ands; try done. destruct Hw; auto.
Qed.

Lemma claims_no_loss why p p1 p' : no_loss why p p1 -> claims p1 p' -> no_loss why p p'.
Proof.
  intros (H1 & H2 & H3 & H4) [E N G P D H]. unfold no_loss, settled, parked_at in *.
  rewrite N, G, P. split_ands; try done. intros q Hq. destruct (H3 q Hq); auto.
Qed.

Lemma same_work_no_loss why p p' : same_work p p' -> no_loss why p p'.
Proof.
  intros (_ & Hn & Hg & Hr & _ & Hd). unfold no_loss, settled, held. rewrite Hn, Hg, Hr.
  split_ands; try done; [|by left].
  intros q [(id & d & Hid & <-)|Hq]; [|left; by right]. left; left. specialize (Hd id).
  rewrite Hid in Hd. destruct (gp_deliveries p' !! id) as [d'|] eqn:Hd'; [|done].
  exists id, d'. naive_solver.
Qed.

(** C6: no event of a partition is lost or skipped silently. Short of a reset,
    an operation keeps every settled position settled and every event that is
    being delivered or waiting for a retry either so or settled; and it settles
    a position only because its delivery was acknowledged or skipped by the
    consumer that holds it, or was moved to the parked queue. *)
Theorem partition_step_no_loss (p : AggregateGroupPartition) (op : GroupPartitionOp)
  (Hwf : partition_wf p) (Hop : op_wf op) (Hreset : forall e n, op <> OpReset e n) :
  no_loss (fun id d => exists e now s l,
             op = OpSettle (dl_consumer_id d) e now s l /\ acked (dl_consumer_id d) l id d)
    p (partition_step p op).
Proof.
  destruct op as [e n|c now dl s mc mb cs|c e now s l|c e dl ids|now s]; cbn [partition_step].
  - by destruct (Hreset e n).
  - destruct Hop as [Hs Hc].
    destruct (claim_cases p c now dl s mc mb cs Hwf Hs Hc)
      as [->|(took & s' & _ & Hrun & _ & -> & _ & _)]; cbn [fst].
    { by eapply drains_no_loss, (drains_refl (fun _ _ => False)). }
    eapply claims_no_loss; [|by eapply claim_runs_claims].
    by eapply drains_no_loss, (expire_ok (fun _ _ => False) p now s Hwf).
  - eapply drains_no_loss, (settle_ok p c e now s l Hwf). intros id d Ha.
    assert (c = dl_consumer_id d) as -> by (symmetry; apply Ha). eauto 8.
  - by apply same_work_no_loss, renew_ok.
  - by eapply drains_no_loss, (expire_ok (fun _ _ => False) p now s Hwf).
Qed.

(** What a run claims was not in delivery before. *)
Lemma claim_runs_fresh consumer now dl mb s cs s' :
  claim_runs consumer now dl mb s cs s' ->
  exists new, cl_claimed s' = cl_claimed s ++ new /\
    Forall (fun d => gp_deliveries (cl_partition s) !! dl_delivery_id d = None) new.
Proof.
  induction 1 as [s|s c cs s' Ht Hr (new & Hnew & Hfresh)]; [exists []; by rewrite app_nil_r|].
  eexists (_ :: new). split; [rewrite Hnew; cbn; rewrite <- app_assoc; reflexivity|]. constructor; [apply (tk_fresh _ _ _ _ _ Ht)|].
  eapply Forall_impl; [exact Hfresh|]. intros d Hd. eapply lookup_weaken_None; [exact Hd|].
  pose proof (claims_commit _ _ (tk_fresh _ _ _ _ _ Ht : gp_deliveries _ !! dl_delivery_id
    (claimed_delivery consumer dl (cl_partition s) c) = None)) as Hc. apply (cm_deliveries _ _ Hc).
Qed.

(** No claim hands out an event of an instance that is in delivery. *)
Lemma claim_spares_instance p id d c now dl s mc mb cs x :
  partition_wf p -> settings_wf s -> candidates_wf cs -> gp_deliveries p !! id = Some d -> (now < dl_deadline_ms d)%N ->
  x ∈ (claim p c now dl s mc mb cs).2 -> dl_aggregate_id x <> dl_aggregate_id d.
Proof.
  intros Hwf Hs Hc Hd Hlt Hx.
  destruct (claim_cases p c now dl s mc mb cs Hwf Hs Hc) as [He|(took & s' & _ & Hrun & _ & He & _ & Hwf')];
    rewrite He in Hx; cbn [snd] in Hx; [by apply elem_of_nil in Hx|].
  assert (Hpe : gp_deliveries (expire p now s).1 !! id = Some d) by (by apply expire_keeps).
  destruct (claim_runs_fresh _ _ _ _ _ _ _ Hrun) as (new & Hnew & Hfresh).
  destruct (claim_runs_delivers _ _ _ _ _ _ _ Hrun) as (new' & Hnew' & _ & Hin). cbn [cl_claimed cl_partition app] in *.
  rewrite Hnew' in Hnew. subst new'. rewrite Hnew' in Hx. rewrite Forall_forall in Hfresh, Hin.
  apply (wf_deliveries_apart _ (proj1 Hwf') (dl_delivery_id x) x id d).
  - by apply Hin.
  - eapply lookup_weaken; [exact Hpe|]. by eapply (cm_deliveries _ _ (claim_runs_claims _ _ _ _ _ _ _ Hrun)).
  - intros Hid. specialize (Hfresh x Hx). by rewrite Hid, Hpe in Hfresh.
Qed.

(** C28: a delivery belongs to its consumer until its deadline. A claim before the
    deadline, by anybody, neither takes it away nor changes it, and hands out no
    event of its aggregate instance to anyone; and another consumer's settlement
    or renewal that names it leaves it as it is. *)
Theorem delivery_protected (p : AggregateGroupPartition) (id : Uuid) (d : AggregateGroupDelivery)
  (Hwf : partition_wf p) (Hd : gp_deliveries p !! id = Some d) :
  (forall c now dl s mc mb cs, settings_wf s -> candidates_wf cs -> (now < dl_deadline_ms d)%N ->
     gp_deliveries (claim p c now dl s mc mb cs).1 !! id = Some d /\
     Forall (fun x => dl_aggregate_id x <> dl_aggregate_id d) (claim p c now dl s mc mb cs).2) /\
  (forall c e now s l, c <> dl_consumer_id d ->
     gp_deliveries (settle p c e now s l).1 !! id = Some d) /\
  (forall c e dl ids, c <> dl_consumer_id d ->
     gp_deliveries (renew p c e dl ids).1 !! id = Some d).
Proof.
  split_ands.
  - intros c now dl s mc mb cs Hs Hc Hlt. split.
    + destruct (claim_cases p c now dl s mc mb cs Hwf Hs Hc)
        as [->|(took & s' & _ & Hrun & _ & -> & _ & _)]; [done|]. cbn [fst].
      apply claim_runs_claims, cm_deliveries in Hrun.
      eapply lookup_weaken; [|exact Hrun]. by apply expire_keeps.
    + apply Forall_forall. intros x Hx. by eapply claim_spares_instance.
  - intros c e now s l Hne. by apply settle_keeps.
  - intros c e dl ids Hne. by apply renew_keeps.
Qed.

(** Flow control. What one claim returns is recorded in the new state and
    comes from the candidates in their order; it is at most [max_claim] events;
    after a claim that returned anything, the consumer's unsettled deliveries
    and the group's are within the configured limits; and the claimed payloads
    fit [max_bytes], except that a single first event may exceed it. *)
Theorem claim_limits (p : AggregateGroupPartition) (consumer : string) (now dl : N)
  (settings : AggregateGroupSettings) (mc mb : N) (cs : list AggregateDeliveryCandidate)
  (Hwf : partition_wf p) (Hset : settings_wf settings) (Hcs : candidates_wf cs)
  (Hmb : (mb < u64_max)%N) :
  let '(p', claimed) := claim p consumer now dl settings mc mb cs in
  exists took, took `sublist_of` cs /\
    Forall2 (delivers consumer dl (gp_epoch p)) claimed took /\
    Forall (fun d => gp_deliveries p' !! dl_delivery_id d = Some d) claimed /\
    (len claimed <= mc)%N /\
    (claimed <> [] ->
       (len (consumer_deliveries p' consumer) <= max_unacked_per_consumer settings)%N /\
       (N.of_nat (size (gp_deliveries p')) <= max_unacked_per_group settings)%N) /\
    (length claimed = 1%nat \/ (payload_sum took <= mb)%N).
Proof.
  destruct (claim_cases p consumer now dl settings mc mb cs Hwf Hset Hcs)
    as [->|(took & s' & Hsub & Hrun & _ & -> & Hwfe & _)].
  { exists []. split_ands; try done; [apply sublist_nil_l|rewrite len_nil; lia|right; cbn; lia]. }
  destruct (claim_runs_delivers _ _ _ _ _ _ _ Hrun) as (new & Hnew & Hdel & Hin).
  destruct (claim_runs_credit _ _ _ _ _ _ _ settings Hrun) as [Hn Hcov].
  destruct (claim_runs_bytes _ _ _ _ _ _ _ Hrun ltac:(cbn; lia)) as [Hb Hm].
  destruct (expire_ok (fun _ _ => False) p now settings Hwf) as [_ [He _ _ _ _ _ _ _]].
  cbn [cl_claimed cl_partition cl_credit cl_claimed_bytes app] in *.
  pose proof (Forall2_length _ _ _ Hdel) as Hlen. rewrite Hnew.
  assert (Hln : len new = len took) by (unfold len; congruence).
  exists took. rewrite He in Hdel. split_ands; try done; [lia| |].
  - intros Hne. destruct Hcov as [Hc Hg]; [|split; lia]. destruct new as [|d new]; [done|].
    rewrite len_cons in Hln. apply available_credit_covers; [apply Hwfe|lia].
  - destruct (decide (took = [])) as [->|Hne]; [right; cbn; lia|].
    destruct (Hm Hne) as [[_ H1]|H1]; [left; lia|right; lia].
Qed.

(** A claim makes progress: with credit left and valid arguments, a first
    candidate that is open, not in delivery, whose instance has no other
    unsettled event, whose retry (if it is one) is due and whose lease (if any)
    is the consumer's own or over, is the first event returned. *)
Theorem claim_head_progress (p : AggregateGroupPartition) (consumer : string) (now dl : N)
  (settings : AggregateGroupSettings) (mc mb : N) (c : AggregateDeliveryCandidate)
  (cs : list AggregateDeliveryCandidate)
  (Hwf : partition_wf p) (Hset : settings_wf settings) (Hcs : candidates_wf (c :: cs))
  (Hargs : consumer <> "" /\ (now < dl)%N /\ (0 < mc)%N /\ (0 < mb)%N /\
           settings_validate settings = Ok tt)
  (Hcredit : (0 < available_credit (expire p now settings).1 consumer settings)%N)
  (Hready : taken consumer now mb (mkClaim (expire p now settings).1 mc 0 []) c)
  (Hnew : gp_pending_retries (expire p now settings).1 !! cd_partition_position c = None ->
          cd_replayed c = false) :
  exists d rest, (claim p consumer now dl settings mc mb (c :: cs)).2 = d :: rest /\
    delivers consumer dl (gp_epoch p) d c.
Proof.
  destruct Hargs as (Hc & Hdl & Hmc & Hmb & Hv).
  destruct (expire_ok (fun _ _ => False) p now settings Hwf) as [Hwfe [He _ _ _ _ _ _ _]].
  unfold claim. rewrite (bool_decide_eq_false_2 (consumer = "")) by done.
  rewrite (proj2 (N.leb_gt dl now) Hdl), Hv.
  rewrite (proj2 (N.eqb_neq mc 0)) by lia. rewrite (proj2 (N.eqb_neq mb 0)) by lia.
  cbn [orb is_ok negb].
  set (pe := (expire p now settings).1) in *. set (s := mkClaim pe (N.min _ _) 0 []).
  assert (Ht : taken consumer now mb s c).
  { destruct Hready as [_ H2 H3 H4 H5 H6 H7]. split; try done. change (0 < N.min (available_credit pe consumer settings) mc)%N. lia. }
  cbn [claim_loop]. rewrite claim_one_takes by (try done; apply Hwfe).
  inversion Hcs as [|c' cs' Hlt Hcs']; subst.
  destruct (claim_loop_runs consumer now dl mb cs (claim_take consumer dl s c))
    as (_ & took & _ & Hrun); [eapply claim_commit_wf; [apply Hwfe|done..]|done|].
  destruct (claim_runs_delivers _ _ _ _ _ _ _ Hrun) as (new & -> & _ & _).
  exists (claimed_delivery consumer dl pe c), new. split; [done|].
  unfold delivers. cbn. by split_ands.
Qed.

(** Settling is idempotent: sending the same settlements again, later and
    under whatever settings, changes nothing; the items the first call applied
    or found settled are reported settled, and an item that belongs to another
    consumer is again refused. *)
Theorem settle_idempotent (p : AggregateGroupPartition) (consumer : string) (now now' : N)
  (st st' : AggregateGroupSettings) (l : list AggregateSettlement) (Hwf : partition_wf p) :
  let '(p', rs) := settle p consumer (gp_epoch p) now st l in
  length rs = length l /\ StaleLease ∉ rs /\
  settle p' consumer (gp_epoch p) now' st' l = (p', map again rs).
Proof.
  unfold settle at 1. rewrite N.eqb_refl. cbn [negb].
  pose proof (settle_loop_results consumer now st l p (proj1 Hwf)) as Hres.
  destruct (settle_loop_ok consumer now st l l p ltac:(done) (proj1 Hwf)) as [_ [He _ _ _ _ _ _ _]].
  destruct (settle_loop consumer now st p l) as [p1 rs]. cbn [fst snd] in *.
  split_ands.
  - by rewrite <- (Forall2_length _ _ _ Hres).
  - intros Hin. apply list_elem_of_lookup in Hin as [i Hi].
    apply (Forall2_lookup_r _ _ _ _ _ Hres) in Hi as (s & _ & []).
  - unfold settle. cbn [gp_epoch release_unused_leases with_leases]. rewrite He, N.eqb_refl. cbn [negb].
    rewrite (settle_loop_again consumer now' st' l _ rs) by exact Hres.
    by rewrite release_unused_leases_idemp.
Qed.

(** ** Witnesses *)

Definition demo_candidate (id position : N) (aggregate : string) : AggregateDeliveryCandidate :=
  mkCandidate id position aggregate 0 (1000 + position) 64 false.

Definition demo_candidates : list AggregateDeliveryCandidate :=
  [demo_candidate 1 5 "a"; demo_candidate 2 6 "a"; demo_candidate 3 7 "b"; demo_candidate 4 8 "c"].

Definition demo_claim : GroupPartitionOp :=
  OpClaim "w1" 100 200 settings_default 10 1000 demo_candidates.

(** Position 5 is in delivery to w1 with positions 7 and 8; 6 waits for 5. *)
Definition demo_partition : AggregateGroupPartition :=
  partition_step (partition_new 1 5) demo_claim.

Lemma demo_settings_wf : settings_wf settings_default.
Proof. unfold settings_wf. cbn. lia. Qed.

Lemma demo_candidates_wf : candidates_wf demo_candidates.
Proof. unfold candidates_wf, demo_candidates. repeat constructor; cbn; lia. Qed.

Lemma demo_partition_wf : partition_wf demo_partition.
Proof.
  apply partition_step_wf; [|apply partition_new_wf; lia].
  split; [apply demo_settings_wf | apply demo_candidates_wf].
Qed.

Example demo_claimed :
  map dl_partition_position (claim (partition_new 1 5) "w1" 100 200 settings_default 10 1000
    demo_candidates).2 = [5; 7; 8]%N.
Proof. vm_compute. reflexivity. Qed.

Lemma partition_reachable_wf_witness :
  partition_wf (fold_left partition_step
    [demo_claim; OpSettle "w1" 1 150 settings_default [mkSettlement 3 ActAck ""];
     OpExpire 500 settings_default] (partition_new 1 5)).
Proof.
  refine (partition_reachable_wf 1 5 _ _ _); [lia|].
  apply Forall_cons_2; [split; [apply demo_settings_wf | apply demo_candidates_wf]|].
  apply Forall_cons_2; [exact I|]. apply Forall_cons_2; [exact I|]. apply Forall_nil_2.
Defined.

Lemma partition_step_no_loss_witness :
  settled (partition_step demo_partition
    (OpSettle "w1" 1 150 settings_default [mkSettlement 1 ActAck ""])) 5 /\
  (held (partition_step demo_partition
    (OpSettle "w1" 1 150 settings_default [mkSettlement 1 ActAck ""])) 7 \/
   settled (partition_step demo_partition
    (OpSettle "w1" 1 150 settings_default [mkSettlement 1 ActAck ""])) 7).
Proof.
  split; [apply (bool_decide_unpack _); vm_compute; exact I|].
  destruct (partition_step_no_loss demo_partition
    (OpSettle "w1" 1 150 settings_default [mkSettlement 1 ActAck ""])
    demo_partition_wf I ltac:(discriminate)) as (_ & _ & H & _).
  apply H. left.
  exists 3%N, (mkDelivery 3 "w1" 7 "b" 0 1007 0 200 1 false).
  split; [vm_compute; reflexivity | reflexivity].
Defined.

Lemma delivery_protected_witness :
  gp_deliveries (claim demo_partition "w2" 150 300 settings_default 5 1000 demo_candidates).1 !! 3%N
    = Some (mkDelivery 3 "w1" 7 "b" 0 1007 0 200 1 false) /\
  Forall (fun x => dl_aggregate_id x <> "b") (claim demo_partition "w2" 150 300 settings_default 5 1000 demo_candidates).2.
Proof.
  assert (Hd : gp_deliveries demo_partition !! 3%N = Some (mkDelivery 3 "w1" 7 "b" 0 1007 0 200 1 false))
    by (vm_compute; reflexivity).
  destruct (delivery_protected demo_partition 3 _ demo_partition_wf Hd) as (H & _).
  apply H; [apply demo_settings_wf | apply demo_candidates_wf | cbn; lia].
Defined.

Lemma claim_limits_witness :
  (len (claim (partition_new 1 5) "w1" 100 200 settings_default 2 1000 demo_candidates).2 <= 2)%N.
Proof.
  pose proof (claim_limits (partition_new 1 5) "w1" 100 200 settings_default 2 1000 demo_candidates
    (partition_new_wf 1 5 ltac:(lia)) demo_settings_wf demo_candidates_wf ltac:(lia)) as H.
  destruct (claim _ _ _ _ _ _ _ _) as [p' claimed].
  destruct H as (took & _ & _ & _ & H & _). exact H.
Defined.

Lemma claim_head_progress_witness :
  exists d rest, (claim (partition_new 1 5) "w1" 100 200 settings_default 2 1000 demo_candidates).2
    = d :: rest /\ delivers "w1" 200 1 d (demo_candidate 1 5 "a").
Proof.
  assert (Hready : taken "w1" 100 1000
            (mkClaim (expire (partition_new 1 5) 100 settings_default).1 2 0 [])
            (demo_candidate 1 5 "a")).
  { split; [cbn; lia| |reflexivity| |cbn; intros r; discriminate|cbn; intros l; discriminate|
            intros Hn; by destruct Hn].
    - apply (bool_decide_unpack _). vm_compute. exact I.
    - split; cbn; intros id d H; discriminate H. }
  refine (claim_head_progress (partition_new 1 5) "w1" 100 200 settings_default 2 1000
    (demo_candidate 1 5 "a") _ (partition_new_wf 1 5 _) demo_settings_wf demo_candidates_wf
    _ _ Hready (fun _ => eq_refl)).
  - lia.
  - split_ands; [discriminate|lia|lia|lia|reflexivity].
  - vm_compute. reflexivity.
Defined.

Lemma settle_idempotent_witness :
  let '(p', rs) := settle demo_partition "w1" 1 150 settings_default
    [mkSettlement 1 ActAck ""; mkSettlement 3 ActRetry "later"] in
  rs = [Applied; Applied] /\
  settle p' "w1" 1 160 settings_default
    [mkSettlement 1 ActAck ""; mkSettlement 3 ActRetry "later"] =
    (p', [AlreadySettled; AlreadySettled]).
Proof.
  pose proof (settle_idempotent demo_partition "w1" 150 160 settings_default settings_default
    [mkSettlement 1 ActAck ""; mkSettlement 3 ActRetry "later"] demo_partition_wf) as H.
  assert (Hr : (settle demo_partition "w1" 1 150 settings_default
    [mkSettlement 1 ActAck ""; mkSettlement 3 ActRetry "later"]).2 = [Applied; Applied])
    by (vm_compute; reflexivity).
  change (gp_epoch demo_partition) with 1%N in H.
  destruct (settle demo_partition "w1" 1 150 settings_default _) as [p' rs]. cbn in Hr. subst rs.
  destruct H as (_ & _ & H). split; [reflexivity | exact H].
Defined.
