(* ===== verification/Redirect.v ===== *)
(** * es-core: leader hints and the retry plan

    [es-core/src/redirect.rs]: parsing the leader hint a follower puts in its
    reply, and the budgeted queue of endpoints the clients work through.
    [leader_hint_message] is the message the server formats
    ([es-server/src/rpc_support.rs]).

    A [&str] is the list of its UTF-8 bytes; [str::trim] strips the encodings of
    Unicode's [White_Space] characters from both ends. *)

From S2P Require Import Prelude.
From S2P Require Import Bytes.
From S2P Require Import Core.

(** ** String operations of the standard library *)

(** [str::strip_prefix]. *)
Fixpoint strip_prefix (p s : Bytes) : option Bytes :=
  match p, s with
  | [], _ => Some s
  | a :: p', b :: s' => if bool_decide (a = b) then strip_prefix p' s' else None
  | _ :: _, [] => None
  end.

(** [str::split_once]. *)
Fixpoint split_once (sep s : Bytes) : option (Bytes * Bytes) :=
  match strip_prefix sep s with
  | Some rest => Some ([], rest)
  | None =>
      match s with
      | [] => None
      | a :: s' =>
          match split_once sep s' with
          | Some (l, r) => Some (a :: l, r)
          | None => None
          end
      end
  end.

(** The UTF-8 encodings of the [White_Space] characters. *)
Definition whitespace : list Bytes :=
  [[x09]; [x0a]; [x0b]; [x0c]; [x0d]; [x20]; [xc2; x85]; [xc2; xa0]; [xe1; x9a; x80];
   [xe2; x80; x80]; [xe2; x80; x81]; [xe2; x80; x82]; [xe2; x80; x83]; [xe2; x80; x84];
   [xe2; x80; x85]; [xe2; x80; x86]; [xe2; x80; x87]; [xe2; x80; x88]; [xe2; x80; x89];
   [xe2; x80; x8a]; [xe2; x80; xa8]; [xe2; x80; xa9]; [xe2; x80; xaf]; [xe2; x81; x9f];
   [xe3; x80; x80]].

Fixpoint strip_any (ws : list Bytes) (s : Bytes) : option Bytes :=
  match ws with
  | [] => None
  | w :: ws' => match strip_prefix w s with Some r => Some r | None => strip_any ws' s end
  end.

Fixpoint strip_all (ws : list Bytes) (fuel : nat) (s : Bytes) : Bytes :=
  match fuel with
  | O => s
  | S fuel' => match strip_any ws s with Some r => strip_all ws fuel' r | None => s end
  end.

Definition trim_start (s : Bytes) : Bytes := strip_all whitespace (length s) s.

Definition trim_end (s : Bytes) : Bytes :=
  reverse (strip_all (map reverse whitespace) (length s) (reverse s)).

(** [str::trim]. *)
Definition trim (s : Bytes) : Bytes := trim_end (trim_start s).

(** ** Leader hints *)

Definition parse_leader_hint (msg : Bytes) : option Bytes :=
  rest ← trim <$> strip_prefix (as_bytes "not leader;") msg;
  rest ← strip_prefix (as_bytes "leader_id=") rest;
  ia ← split_once (as_bytes " leader_addr=") rest;
  let addr := trim ia.2 in
  if bool_decide (addr = []) then None else Some addr.

(** The message of [leader_hint_status] and [client_write_to_status]. *)
Definition leader_hint_message (leader : option (N * Bytes)) : Bytes :=
  match leader with
  | Some (id, addr) =>
      as_bytes "not leader; leader_id=" ++ as_bytes (pretty id) ++ as_bytes " leader_addr=" ++ addr
  | None => as_bytes "not leader; leader unknown, retry later"
  end.

(** ** The retry plan *)

Inductive RetryKind : Type := KindRedirect | KindNormal.

#[export] Instance RetryKind_eq_dec : EqDecision RetryKind.
Proof. solve_decision. Defined.

Record QueueItem : Type := mkItem { qi_addr : string; qi_kind : RetryKind }.

Record LeaderRetryPlan : Type := mkPlan {
  rp_budget : nat;
  rp_redirect_tail : nat;
  rp_queue : list QueueItem;
  rp_tried : gset string;
  rp_backoff_target : option string
}.

(** [LeaderRetryPlan::new]. *)
Definition plan_new (endpoints : list string) : LeaderRetryPlan :=
  let queue := map (fun addr => mkItem addr KindNormal) endpoints in
  let budget := length queue * 2 + 2 in
  mkPlan budget budget queue ∅ None.

Definition redirect_to (p : LeaderRetryPlan) (addr : string) : LeaderRetryPlan :=
  mkPlan (rp_budget p) (rp_redirect_tail p) (mkItem addr KindRedirect :: rp_queue p)
    (rp_tried p ∖ {[addr]}) (rp_backoff_target p).

Definition retry_later (p : LeaderRetryPlan) (target : string) : LeaderRetryPlan :=
  mkPlan (rp_budget p) (rp_redirect_tail p) (rp_queue p ++ [mkItem target KindNormal])
    (rp_tried p ∖ {[target]}) (Some target).

Definition needs_backoff (p : LeaderRetryPlan) (target : string) : bool :=
  bool_decide (rp_backoff_target p = Some target).

(** The loop of [next]: every turn takes one item off the queue. *)
Fixpoint next_loop (budget tail : nat) (queue : list QueueItem) (tried : gset string)
    (backoff : option string) : LeaderRetryPlan * option string :=
  match queue with
  | [] => (mkPlan budget tail [] tried backoff, None)
  | item :: queue' =>
      if bool_decide (qi_addr item ∈ tried) then next_loop budget tail queue' tried backoff
      else
        let tried' := {[qi_addr item]} ∪ tried in
        match budget with
        | O =>
            match qi_kind item, tail with
            | KindRedirect, S tail' =>
                (mkPlan O tail' queue' tried' backoff, Some (qi_addr item))
            | _, _ => next_loop O tail queue' tried' backoff
            end
        | S budget' => (mkPlan budget' tail queue' tried' backoff, Some (qi_addr item))
        end
  end.

(** [Iterator::next]. *)
Definition plan_next (p : LeaderRetryPlan) : LeaderRetryPlan * option string :=
  next_loop (rp_budget p) (rp_redirect_tail p) (rp_queue p) (rp_tried p) (rp_backoff_target p).

(** What a client does with a plan. *)
Inductive PlanOp : Type := PlanNext | PlanRedirect (addr : string) | PlanRetry (addr : string).

(** The targets attempted in a run. *)
Fixpoint plan_run (p : LeaderRetryPlan) (ops : list PlanOp) : list string :=
  match ops with
  | [] => []
  | PlanNext :: ops' =>
      let '(p', o) := plan_next p in
      match o with Some a => a :: plan_run p' ops' | None => plan_run p' ops' end
  | PlanRedirect a :: ops' => plan_run (redirect_to p a) ops'
  | PlanRetry a :: ops' => plan_run (retry_later p a) ops'
  end.

(** ** Lemmas: strings *)

Lemma strip_prefix_app p s : strip_prefix p (p ++ s) = Some s.
Proof. induction p as [|a p IH]; [done|]. cbn. by rewrite bool_decide_eq_true_2. Qed.

Lemma strip_prefix_Some p s r : strip_prefix p s = Some r -> s = p ++ r.
Proof.
  revert s. induction p as [|a p IH]; intros [|b s]; cbn; try congruence.
  case_bool_decide; [|discriminate]. intros H1. subst. by rewrite (IH _ H1).
Qed.

(** A pattern that does not start [x] and does not contain [b] does not start
    [x ++ b :: y] either. *)
Lemma strip_prefix_app_None w x b y :
  b ∉ w -> strip_prefix w x = None -> strip_prefix w (x ++ b :: y) = None.
Proof.
  revert x. induction w as [|a w IH]; intros [|c x]; cbn; try done; intros Hb Hn.
  - by rewrite bool_decide_eq_false_2 by set_solver.
  - case_bool_decide; [|done]. apply IH; [set_solver|done].
Qed.

Lemma strip_any_app_None ws x b y :
  (forall w, w ∈ ws -> b ∉ w) -> strip_any ws x = None -> strip_any ws (x ++ b :: y) = None.
Proof.
  induction ws as [|w ws IH]; cbn; intros Hb Hn; [done|].
  destruct (strip_prefix w x) eqn:Hw; [discriminate|].
  rewrite strip_prefix_app_None; [|set_solver|done]. apply IH; [set_solver|done].
Qed.

Lemma strip_all_None ws n s : strip_any ws s = None -> strip_all ws n s = s.
Proof. intros H. destruct n; cbn; [done|]. by rewrite H. Qed.

(** No white space at either end. *)
Definition trimmed (s : Bytes) : Prop :=
  strip_any whitespace s = None /\ strip_any (map reverse whitespace) (reverse s) = None.

Lemma trim_trimmed s : trimmed s -> trim s = s.
Proof.
  intros [H1 H2]. unfold trim, trim_start, trim_end.
  rewrite (strip_all_None _ _ s H1), (strip_all_None _ _ (reverse s) H2). apply reverse_involutive.
Qed.

(** Text that ends in a byte no white space contains, before a trimmed end. *)
Lemma trimmed_end x b s :
  (forall w, w ∈ whitespace -> b ∉ w) ->
  strip_any (map reverse whitespace) (reverse s) = None ->
  strip_any (map reverse whitespace) (reverse (x ++ b :: s)) = None.
Proof.
  intros Hb Hs. rewrite reverse_app, reverse_cons, <- app_assoc.
  change ([b] ++ reverse x) with (b :: reverse x).
  apply strip_any_app_None; [|done]. intros w (w' & -> & Hw)%list_elem_of_fmap.
  rewrite elem_of_reverse. by apply Hb.
Qed.

Definition not_in_whitespace (b : byte) : bool :=
  forallb (fun w => bool_decide (b ∉ w)) whitespace.

Lemma not_in_whitespace_spec b :
  not_in_whitespace b = true -> forall w, w ∈ whitespace -> b ∉ w.
Proof.
  unfold not_in_whitespace. rewrite forallb_True. intros H w Hw. specialize (H w Hw).
  by apply bool_decide_eq_true in H.
Qed.

(** Splitting at a separator whose first byte does not occur before it. *)
Lemma split_once_app x b sep s :
  b ∉ x -> split_once (b :: sep) (x ++ (b :: sep) ++ s) = Some (x, s).
Proof.
  induction x as [|a x IH]; intros Hb.
  - cbn. rewrite bool_decide_eq_true_2 by done. by rewrite strip_prefix_app.
  - cbn. rewrite bool_decide_eq_false_2 by set_solver. cbn in IH. rewrite IH by set_solver. done.
Qed.

(** Decimal digits contain no space. *)
Lemma pretty_N_go_no_space n s :
  x20 ∉ as_bytes s -> x20 ∉ as_bytes (pretty_N_go n s).
Proof.
  revert s. induction (N.lt_wf_0 n) as [n _ IH]. intros s Hs.
  destruct (decide (n = 0)%N) as [->|Hn]; [by rewrite pretty_N_go_0|].
  rewrite pretty_N_go_step by lia. apply IH; [apply N.div_lt; lia|].
  change (x20 ∉ Ascii.byte_of_ascii (pretty_N_char (n `mod` 10)) :: as_bytes s).
  apply not_elem_of_cons. split; [|done]. unfold pretty_N_char. repeat case_match; done.
Qed.

Lemma pretty_N_no_space (n : N) : x20 ∉ as_bytes (pretty n).
Proof.
  unfold pretty, pretty_N. case_decide; [|apply pretty_N_go_no_space]; apply (bool_decide_unpack _);
    vm_compute; exact I.
Qed.

(** ** Lemmas: the plan *)

Definition attempts_left (p : LeaderRetryPlan) : nat := rp_budget p + rp_redirect_tail p.

Lemma next_loop_attempts budget tail queue tried backoff p' o :
  next_loop budget tail queue tried backoff = (p', o) ->
  budget + tail = attempts_left p' + match o with Some _ => 1 | None => 0 end.
Proof.
  revert budget tail tried. induction queue as [|item queue IH]; intros budget tail tried; cbn.
  { intros [= <- <-]. cbn. lia. }
  case_if; [apply IH|]. destruct budget as [|budget]; [|intros [= <- <-]; cbn; lia].
  destruct (qi_kind item); [|apply IH]. destruct tail as [|tail]; [apply IH|].
  intros [= <- <-]. cbn. lia.
Qed.

Lemma plan_run_attempts p ops : length (plan_run p ops) <= attempts_left p.
Proof.
  revert p. induction ops as [|[|a|a] ops IH]; intros p; cbn; [lia| |exact (IH (redirect_to p a))|exact (IH (retry_later p a))].
  destruct (plan_next p) as [p' o] eqn:Hn. apply next_loop_attempts in Hn.
  fold (attempts_left p) in Hn. specialize (IH p'). destruct o; cbn; lia.
Qed.

(** A leader address that was hinted is contacted next, as long as any attempt is
    left. *)
Lemma plan_redirect_next (p : LeaderRetryPlan) (addr : string) :
  0 < attempts_left p -> (plan_next (redirect_to p addr)).2 = Some addr.
Proof.
  unfold attempts_left, plan_next. intros Hleft. cbn. rewrite bool_decide_eq_false_2 by set_solver.
  destruct (rp_budget p); [|done]. destruct (rp_redirect_tail p); [lia|done].
Qed.

(** ** Properties *)

(** What the server formats for a known leader is parsed back to its address. *)
Lemma leader_hint_parses (id : N) (addr : Bytes)
  (Hne : addr <> []) (Htrim : trimmed addr) :
  parse_leader_hint (leader_hint_message (Some (id, addr))) = Some addr /\
  parse_leader_hint (leader_hint_message None) = None.
Proof.
  split; [|vm_compute; reflexivity]. unfold parse_leader_hint, leader_hint_message.
  change (as_bytes "not leader; leader_id=") with (as_bytes "not leader;" ++ x20 :: as_bytes "leader_id=").
  rewrite <- app_assoc, strip_prefix_app. cbn [fmap option_fmap option_map].
  set (rest := as_bytes "leader_id=" ++ as_bytes (pretty id) ++ as_bytes " leader_addr=" ++ addr).
  assert (Hr : trim (x20 :: rest) = rest).
  { unfold trim, trim_start. cbn [length strip_all].
    change (strip_any whitespace (x20 :: rest)) with (Some rest).
    cbn beta iota. rewrite (strip_all_None whitespace _ rest) by reflexivity.
    unfold trim_end. rewrite strip_all_None; [apply reverse_involutive|]. unfold rest.
    change (as_bytes " leader_addr=") with (as_bytes " leader_addr" ++ [x3d]).
    rewrite !app_assoc, <- (app_assoc _ [x3d] addr). apply trimmed_end; [|apply Htrim].
    apply not_in_whitespace_spec. reflexivity. }
  cbn [app]. fold rest. rewrite Hr. unfold rest. cbn [mbind option_bind].
  rewrite strip_prefix_app. cbn [mbind option_bind].
  rewrite (split_once_app (as_bytes (pretty id)) x20 (as_bytes "leader_addr=") addr)
    by apply pretty_N_no_space.
  cbn [mbind option_bind snd]. rewrite trim_trimmed by done. by rewrite bool_decide_eq_false_2.
Qed.

(** Following leader hints always ends: whatever redirects and retries the
    servers cause, in whatever order, a plan over [n] endpoints attempts at most
    [4 n + 4] targets. *)
Theorem plan_attempts_bounded (endpoints : list string) (ops : list PlanOp) :
  length (plan_run (plan_new endpoints) ops) <= 4 * length endpoints + 4.
Proof.
  etrans; [apply plan_run_attempts|]. unfold attempts_left. cbn. rewrite length_map. lia.
Qed.

(** A leader address that was hinted is contacted next, even if it was tried
    before and even if it arrived on the last budget slot, as long as any
    attempt is left; a target put back with [retry_later] on an otherwise empty
    queue is tried again while there is budget, and asks for a back-off. *)
Theorem plan_redirect_contacted (p : LeaderRetryPlan) (addr : string)
  (Hleft : 0 < attempts_left p) :
  (plan_next (redirect_to p addr)).2 = Some addr /\
  (rp_queue p = [] -> 0 < rp_budget p ->
   (plan_next (retry_later p addr)).2 = Some addr /\
   needs_backoff (plan_next (retry_later p addr)).1 addr = true).
Proof.
  split; [by apply plan_redirect_next|].
  intros Hq Hb. unfold plan_next, needs_backoff. cbn. rewrite Hq. cbn.
  rewrite bool_decide_eq_false_2 by set_solver.
  destruct (rp_budget p); [lia|]. cbn. split; [done|]. by apply bool_decide_eq_true_2.
Qed.

(** ** Witnesses *)

Lemma plan_redirect_contacted_witness :
  (plan_next (redirect_to (mkPlan 0 4 [] {["a"]} None) "a")).2 = Some "a".
Proof. refine (proj1 (plan_redirect_contacted (mkPlan 0 4 [] {["a"]} None) "a" _)). cbn. lia. Defined.
