(* ===== verification/Keys.v ===== *)
(** * es-storage: key encoding

    [es-storage/src/key.rs]: the byte keys of the shared ordered store. Every
    key starts with a region tag, the shard id (8 bytes, big endian) and a
    sub-region tag; variable-length identifiers are length-prefixed except where
    they end the key. [lkey] names the logical keys the builders encode. *)

From S2P Require Import Prelude.
From S2P Require Import Bytes.
From S2P Require Import Core.
From S2P Require Import Aggregate.

(** ** Tags *)

Definition TAG_RAFT : byte := x01.
Definition TAG_SM : byte := x02.
Definition TAG_SNAPSHOT : byte := x03.

Definition RAFT_LOG_ENTRY : byte := x01.
Definition RAFT_VOTE : byte := x02.
Definition RAFT_LAST_PURGED : byte := x03.
Definition RAFT_COMMITTED : byte := x04.

Definition SM_APPLIED_STATE : byte := x04.
Definition SM_AGGREGATE_EVENT : byte := x0a.
Definition SM_AGGREGATE_META : byte := x0b.
Definition SM_AGGREGATE_PARTITION_INDEX : byte := x0c.
Definition SM_AGGREGATE_NEXT_POSITION : byte := x0d.
Definition SM_AGGREGATE_STATE : byte := x0e.
Definition SM_AGGREGATE_IDEMPOTENCY : byte := x0f.
Definition SM_AGGREGATE_PARTITION_FENCE : byte := x10.
Definition SM_AGGREGATE_CATALOG : byte := x11.
Definition SM_AGGREGATE_GROUP_CATALOG : byte := x12.
Definition SM_AGGREGATE_GROUP_PARTITION : byte := x13.
Definition SM_AGGREGATE_STATE_MODIFIED : byte := x14.

Definition SNAPSHOT_CURRENT : byte := x01.

(** ** Integers and ranges *)

Definition encode_u64_be (v : N) : Bytes := be_bytes 8 v.

(** [io::Error]: the kind and the message. *)
Inductive IoErrorKind : Type := KindInvalidData | KindUnexpectedEof | KindOther.

Record IoError : Type := mkIoError { io_kind : IoErrorKind; io_message : string }.

Definition decode_u64_be (b : Bytes) : result IoError N :=
  if negb (len b =? 8)%N
  then Err (mkIoError KindInvalidData ("期望 8 字节，实际 " +:+ pretty (len b) +:+ " 字节"))
  else Ok (be_value b).

(** The loop of [successor], from the last byte to the first. *)
Fixpoint successor_loop (rev_prefix : Bytes) : option Bytes :=
  match rev_prefix with
  | [] => None
  | b :: r =>
      if negb (bool_decide (b = xff)) then Some (reverse (byte_of_N (Byte.to_N b + 1) :: r))
      else successor_loop r
  end.

Definition successor (prefix : Bytes) : option Bytes := successor_loop (reverse prefix).

(** [upper_including]. *)
Definition upper_including (k : Bytes) : Bytes := k ++ [x00].

(** ** Key builders *)

Definition raft_log_entry (shard_id index : N) : Bytes :=
  [TAG_RAFT] ++ encode_u64_be shard_id ++ [RAFT_LOG_ENTRY] ++ encode_u64_be index.

Definition raft_vote (shard_id : N) : Bytes :=
  [TAG_RAFT] ++ encode_u64_be shard_id ++ [RAFT_VOTE].

Definition raft_last_purged (shard_id : N) : Bytes :=
  [TAG_RAFT] ++ encode_u64_be shard_id ++ [RAFT_LAST_PURGED].

Definition raft_committed (shard_id : N) : Bytes :=
  [TAG_RAFT] ++ encode_u64_be shard_id ++ [RAFT_COMMITTED].

Definition sm_applied_state (shard_id : N) : Bytes :=
  [TAG_SM] ++ encode_u64_be shard_id ++ [SM_APPLIED_STATE].

Definition append_len_prefixed (key bytes : Bytes) : Bytes :=
  key ++ encode_u64_be (len bytes) ++ bytes.

Definition sm_sub_prefix (shard_id : N) (sub : byte) : Bytes :=
  [TAG_SM] ++ encode_u64_be shard_id ++ [sub].

Definition aggregate_partition_prefix (shard_id : N) (sub : byte) (t : AggregateTypeId)
    (partition_id : N) : Bytes :=
  append_len_prefixed (sm_sub_prefix shard_id sub) (as_bytes (canonical_name t))
    ++ be_bytes 2 partition_id.

Definition aggregate_instance_prefix (shard_id : N) (sub : byte) (t : AggregateTypeId)
    (partition_id : N) (aggregate_id : string) : Bytes :=
  append_len_prefixed (aggregate_partition_prefix shard_id sub t partition_id)
    (as_bytes aggregate_id).

Definition sm_aggregate_event_prefix (shard_id : N) (t : AggregateTypeId) (partition_id : N)
    (aggregate_id : string) : Bytes :=
  aggregate_instance_prefix shard_id SM_AGGREGATE_EVENT t partition_id aggregate_id.

Definition sm_aggregate_event (shard_id : N) (t : AggregateTypeId) (partition_id : N)
    (aggregate_id : string) (aggregate_version : N) : Bytes :=
  sm_aggregate_event_prefix shard_id t partition_id aggregate_id
    ++ encode_u64_be aggregate_version.

Definition is_aggregate_event_key (shard_id : N) (key : Bytes) : bool :=
  (10 <=? len key)%N
  && bool_decide (key !! 0 = Some TAG_SM)
  && bool_decide (take 8 (drop 1 key) = be_bytes 8 shard_id)
  && bool_decide (key !! 9 = Some SM_AGGREGATE_EVENT).

Definition sm_aggregate_meta (shard_id : N) (t : AggregateTypeId) (partition_id : N)
    (aggregate_id : string) : Bytes :=
  aggregate_instance_prefix shard_id SM_AGGREGATE_META t partition_id aggregate_id.

Definition sm_aggregate_partition_index_prefix (shard_id : N) (t : AggregateTypeId)
    (partition_id : N) : Bytes :=
  aggregate_partition_prefix shard_id SM_AGGREGATE_PARTITION_INDEX t partition_id.

Definition sm_aggregate_partition_index (shard_id : N) (t : AggregateTypeId)
    (partition_id partition_position : N) : Bytes :=
  sm_aggregate_partition_index_prefix shard_id t partition_id
    ++ encode_u64_be partition_position.

Definition sm_aggregate_next_position (shard_id : N) (t : AggregateTypeId) (partition_id : N) :
    Bytes :=
  aggregate_partition_prefix shard_id SM_AGGREGATE_NEXT_POSITION t partition_id.

Definition sm_aggregate_state (shard_id : N) (t : AggregateTypeId) (partition_id : N)
    (aggregate_id : string) : Bytes :=
  aggregate_partition_prefix shard_id SM_AGGREGATE_STATE t partition_id ++ as_bytes aggregate_id.

Definition sm_aggregate_state_modified (shard_id : N) (t : AggregateTypeId) (partition_id : N)
    (aggregate_id : string) : Bytes :=
  aggregate_partition_prefix shard_id SM_AGGREGATE_STATE_MODIFIED t partition_id
    ++ as_bytes aggregate_id.

Definition sm_aggregate_state_prefix (shard_id : N) (t : AggregateTypeId) (partition_id : N) :
    Bytes :=
  aggregate_partition_prefix shard_id SM_AGGREGATE_STATE t partition_id.

(** [String::from_utf8]: the well-formed UTF-8 byte sequences. *)
Definition in_range (lo hi : N) (b : byte) : bool :=
  ((lo <=? Byte.to_N b) && (Byte.to_N b <=? hi))%N.

Fixpoint utf8_valid (l : Bytes) : bool :=
  match l with
  | [] => true
  | a :: l1 =>
      if in_range 0 127 a then utf8_valid l1
      else
        match l1 with
        | [] => false
        | b :: l2 =>
            if in_range 194 223 a then in_range 128 191 b && utf8_valid l2
            else
              match l2 with
              | [] => false
              | c :: l3 =>
                  if in_range 224 239 a then
                    in_range (if in_range 224 224 a then 160 else 128)
                      (if in_range 237 237 a then 159 else 191) b
                    && in_range 128 191 c && utf8_valid l3
                  else
                    match l3 with
                    | [] => false
                    | d :: l4 =>
                        in_range 240 244 a
                        && in_range (if in_range 240 240 a then 144 else 128)
                             (if in_range 244 244 a then 143 else 191) b
                        && in_range 128 191 c && in_range 128 191 d && utf8_valid l4
                    end
              end
        end
  end.

Definition from_utf8 (l : Bytes) : option string :=
  if utf8_valid l then Some (String.string_of_list_byte l) else None.

Definition decode_aggregate_state_key (key : Bytes) : option string :=
  if (len key <? 10 + 8 + 2 + 1)%N || negb (bool_decide (key !! 9 = Some SM_AGGREGATE_STATE))
  then None
  else
    match decode_u64_be (take 8 (drop 10 key)) with
    | Err _ => None
    | Ok aggregate_type_len =>
        aggregate_start ← checked_add_u64 10 8;
        aggregate_start ← checked_add_u64 aggregate_start aggregate_type_len;
        aggregate_start ← checked_add_u64 aggregate_start 2;
        if (len key <=? aggregate_start)%N then None
        else from_utf8 (drop (N.to_nat aggregate_start) key)
    end.

Definition sm_aggregate_idempotency (shard_id : N) (t : AggregateTypeId) (partition_id : N)
    (event_id : Uuid) : Bytes :=
  aggregate_partition_prefix shard_id SM_AGGREGATE_IDEMPOTENCY t partition_id
    ++ uuid_bytes event_id.

Definition sm_aggregate_partition_fence (shard_id : N) (t : AggregateTypeId) (partition_id : N) :
    Bytes :=
  aggregate_partition_prefix shard_id SM_AGGREGATE_PARTITION_FENCE t partition_id.

Definition sm_aggregate_catalog (shard_id : N) : Bytes :=
  sm_sub_prefix shard_id SM_AGGREGATE_CATALOG.

Definition sm_aggregate_group_catalog (shard_id : N) : Bytes :=
  sm_sub_prefix shard_id SM_AGGREGATE_GROUP_CATALOG.

Definition sm_aggregate_group_partition (shard_id : N) (t : AggregateTypeId) (partition_id : N)
    (group_name : string) : Bytes :=
  append_len_prefixed
    (aggregate_partition_prefix shard_id SM_AGGREGATE_GROUP_PARTITION t partition_id)
    (as_bytes group_name).

Definition snapshot_current (shard_id : N) : Bytes :=
  [TAG_SNAPSHOT] ++ encode_u64_be shard_id ++ [SNAPSHOT_CURRENT].

Definition raft_log_prefix (shard_id : N) : Bytes :=
  [TAG_RAFT] ++ encode_u64_be shard_id ++ [RAFT_LOG_ENTRY].

(** [raft_log_upper]: the [expect] on a prefix that always has a successor. *)
Definition raft_log_upper (shard_id : N) : Bytes :=
  default [] (successor (raft_log_prefix shard_id)).

Definition decode_log_index (key : Bytes) : option N :=
  if negb (len key =? 10 + 8)%N then None
  else match decode_u64_be (drop 10 key) with Ok n => Some n | Err _ => None end.

(** ** Logical keys *)

Inductive lkey : Type :=
| KLog (shard index : N)
| KVote (shard : N)
| KPurged (shard : N)
| KCommitted (shard : N)
| KApplied (shard : N)
| KEvent (shard : N) (t : AggregateTypeId) (p : N) (id : string) (version : N)
| KMeta (shard : N) (t : AggregateTypeId) (p : N) (id : string)
| KIndex (shard : N) (t : AggregateTypeId) (p position : N)
| KNext (shard : N) (t : AggregateTypeId) (p : N)
| KState (shard : N) (t : AggregateTypeId) (p : N) (id : string)
| KModified (shard : N) (t : AggregateTypeId) (p : N) (id : string)
| KIdem (shard : N) (t : AggregateTypeId) (p : N) (event_id : Uuid)
| KFence (shard : N) (t : AggregateTypeId) (p : N)
| KCatalog (shard : N)
| KGroupCatalog (shard : N)
| KGroup (shard : N) (t : AggregateTypeId) (p : N) (name : string)
| KSnapshot (shard : N).

#[export] Instance lkey_eq_dec : EqDecision lkey.
Proof. solve_decision. Defined.

Definition key_bytes (k : lkey) : Bytes :=
  match k with
  | KLog s i => raft_log_entry s i
  | KVote s => raft_vote s
  | KPurged s => raft_last_purged s
  | KCommitted s => raft_committed s
  | KApplied s => sm_applied_state s
  | KEvent s t p id v => sm_aggregate_event s t p id v
  | KMeta s t p id => sm_aggregate_meta s t p id
  | KIndex s t p q => sm_aggregate_partition_index s t p q
  | KNext s t p => sm_aggregate_next_position s t p
  | KState s t p id => sm_aggregate_state s t p id
  | KModified s t p id => sm_aggregate_state_modified s t p id
  | KIdem s t p e => sm_aggregate_idempotency s t p e
  | KFence s t p => sm_aggregate_partition_fence s t p
  | KCatalog s => sm_aggregate_catalog s
  | KGroupCatalog s => sm_aggregate_group_catalog s
  | KGroup s t p name => sm_aggregate_group_partition s t p name
  | KSnapshot s => snapshot_current s
  end.

(** The widths of a key's fields; type ids are valid, names fit a [usize]. *)
Definition partition_key_wf (t : AggregateTypeId) (p : N) : Prop :=
  type_id_ok t /\ (p <= u16_max)%N.

Definition name_wf (s : string) : Prop := (len (as_bytes s) <= u64_max)%N.

Definition key_shard (k : lkey) : N :=
  match k with
  | KLog s _ | KVote s | KPurged s | KCommitted s | KApplied s | KEvent s _ _ _ _ | KMeta s _ _ _
  | KIndex s _ _ _ | KNext s _ _ | KState s _ _ _ | KModified s _ _ _ | KIdem s _ _ _
  | KFence s _ _ | KCatalog s | KGroupCatalog s | KGroup s _ _ _ | KSnapshot s => s
  end.

Definition key_fields_wf (k : lkey) : Prop :=
  match k with
  | KLog _ i => (i <= u64_max)%N
  | KEvent _ t p id v => partition_key_wf t p /\ name_wf id /\ (v <= u64_max)%N
  | KMeta _ t p id | KState _ t p id | KModified _ t p id | KGroup _ t p id =>
      partition_key_wf t p /\ name_wf id
  | KIndex _ t p q => partition_key_wf t p /\ (q <= u64_max)%N
  | KNext _ t p | KFence _ t p => partition_key_wf t p
  | KIdem _ t p e => partition_key_wf t p /\ (e <= u128_max)%N
  | _ => True
  end.

Definition key_wf (k : lkey) : Prop := (key_shard k <= u64_max)%N /\ key_fields_wf k.

(** ** Lemmas: the layout of keys *)

Definition key_tag (k : lkey) : byte :=
  match k with
  | KLog _ _ | KVote _ | KPurged _ | KCommitted _ => TAG_RAFT
  | KSnapshot _ => TAG_SNAPSHOT
  | _ => TAG_SM
  end.

Definition key_sub (k : lkey) : byte :=
  match k with
  | KLog _ _ => RAFT_LOG_ENTRY
  | KVote _ => RAFT_VOTE
  | KPurged _ => RAFT_LAST_PURGED
  | KCommitted _ => RAFT_COMMITTED
  | KApplied _ => SM_APPLIED_STATE
  | KEvent _ _ _ _ _ => SM_AGGREGATE_EVENT
  | KMeta _ _ _ _ => SM_AGGREGATE_META
  | KIndex _ _ _ _ => SM_AGGREGATE_PARTITION_INDEX
  | KNext _ _ _ => SM_AGGREGATE_NEXT_POSITION
  | KState _ _ _ _ => SM_AGGREGATE_STATE
  | KModified _ _ _ _ => SM_AGGREGATE_STATE_MODIFIED
  | KIdem _ _ _ _ => SM_AGGREGATE_IDEMPOTENCY
  | KFence _ _ _ => SM_AGGREGATE_PARTITION_FENCE
  | KCatalog _ => SM_AGGREGATE_CATALOG
  | KGroupCatalog _ => SM_AGGREGATE_GROUP_CATALOG
  | KGroup _ _ _ _ => SM_AGGREGATE_GROUP_PARTITION
  | KSnapshot _ => SNAPSHOT_CURRENT
  end.

(** What follows the sub-region tag. *)
Definition partition_tail (t : AggregateTypeId) (p : N) (rest : Bytes) : Bytes :=
  len_prefixed (as_bytes (canonical_name t)) ++ be_bytes 2 p ++ rest.

Definition key_tail (k : lkey) : Bytes :=
  match k with
  | KLog _ i => be_bytes 8 i
  | KEvent _ t p id v => partition_tail t p (len_prefixed (as_bytes id) ++ be_bytes 8 v)
  | KMeta _ t p id => partition_tail t p (len_prefixed (as_bytes id))
  | KIndex _ t p q => partition_tail t p (be_bytes 8 q)
  | KNext _ t p | KFence _ t p => partition_tail t p []
  | KState _ t p id | KModified _ t p id => partition_tail t p (as_bytes id)
  | KIdem _ t p e => partition_tail t p (be_bytes 16 e)
  | KGroup _ t p name => partition_tail t p (len_prefixed (as_bytes name))
  | _ => []
  end.

Lemma partition_prefix_shape s sub t p rest :
  aggregate_partition_prefix s sub t p ++ rest =
  [TAG_SM] ++ be_bytes 8 s ++ [sub] ++ partition_tail t p rest.
Proof.
  unfold aggregate_partition_prefix, append_len_prefixed, sm_sub_prefix, partition_tail, len_prefixed,
    encode_u64_be. by rewrite <- !app_assoc.
Qed.

Lemma key_bytes_shape k :
  key_bytes k = [key_tag k] ++ be_bytes 8 (key_shard k) ++ [key_sub k] ++ key_tail k.
Proof.
  destruct k; cbn [key_bytes key_tag key_shard key_sub key_tail]; try reflexivity.
  all: try first [apply partition_prefix_shape
    | exact (eq_trans (eq_sym (app_nil_r _)) (partition_prefix_shape _ _ _ _ []))].
  unfold sm_aggregate_event, sm_aggregate_event_prefix, aggregate_instance_prefix,
    append_len_prefixed, encode_u64_be. rewrite <- !app_assoc, partition_prefix_shape.
  unfold len_prefixed. by rewrite <- !app_assoc.
Qed.

Lemma partition_tail_inj t1 p1 r1 t2 p2 r2 :
  partition_key_wf t1 p1 -> partition_key_wf t2 p2 ->
  partition_tail t1 p1 r1 = partition_tail t2 p2 r2 -> t1 = t2 /\ p1 = p2 /\ r1 = r2.
Proof.
  intros [Ht1 Hp1] [Ht2 Hp2] H.
  pose proof (canonical_name_len t1 Ht1). pose proof (canonical_name_len t2 Ht2).
  apply len_prefixed_app_inj in H as [Hn H]; [|lia|lia].
  apply as_bytes_inj, canonical_name_inj in Hn; [|done|done].
  apply be_bytes_app_inj in H as [Hp Hr]; [|auto with widths|auto with widths]. done.
Qed.

Lemma be_tail_inj w m n :
  (m < 256 ^ N.of_nat w)%N -> (n < 256 ^ N.of_nat w)%N -> be_bytes w m = be_bytes w n -> m = n.
Proof. intros Hm Hn H. by eapply be_bytes_inj. Qed.

Lemma name_tail_inj x y :
  name_wf x -> name_wf y -> len_prefixed (as_bytes x) = len_prefixed (as_bytes y) -> x = y.
Proof.
  intros Hx Hy H. apply as_bytes_inj.
  apply (len_prefixed_app_inj (as_bytes x) (as_bytes y) [] []); [done..|]. by rewrite !app_nil_r.
Qed.

Lemma key_bytes_inj k1 k2 : key_wf k1 -> key_wf k2 -> key_bytes k1 = key_bytes k2 -> k1 = k2.
Proof.
  intros [Hs1 Hf1] [Hs2 Hf2]. rewrite !key_bytes_shape. intros H.
  apply app_inj_length in H as [Htag H]; [|done].
  apply be_bytes_app_inj in H as [Hs H]; [|auto with widths|auto with widths].
  apply app_inj_length in H as [Hsub Htail]; [|done].
  destruct k1, k2; cbn in Htag, Hsub; try discriminate Htag; try discriminate Hsub;
    cbn in Hs, Hf1, Hf2; subst; cbn [key_tail] in Htail; try reflexivity.
  1: { apply be_tail_inj in Htail as ->; auto with widths. }
  all: apply partition_tail_inj in Htail as (-> & -> & Htail); [|tauto|tauto]; try reflexivity.
  - apply len_prefixed_app_inj in Htail as [->%as_bytes_inj Hv]; [|apply Hf1|apply Hf2].
    apply be_tail_inj in Hv as ->; [done|apply u64_lt_pow, Hf1|apply u64_lt_pow, Hf2].
  - apply name_tail_inj in Htail as ->; [done|apply Hf1|apply Hf2].
  - apply be_tail_inj in Htail as ->; [done|apply u64_lt_pow, Hf1|apply u64_lt_pow, Hf2].
  - by apply as_bytes_inj in Htail as ->.
  - by apply as_bytes_inj in Htail as ->.
  - apply be_tail_inj in Htail as ->; [done|apply u128_lt_pow, Hf1|apply u128_lt_pow, Hf2].
  - apply name_tail_inj in Htail as ->; [done|apply Hf1|apply Hf2].
Qed.

(** ** Lemmas: ranges *)

Lemma byte_succ b : b <> xff -> Byte.to_N (byte_of_N (Byte.to_N b + 1)) = (Byte.to_N b + 1)%N.
Proof.
  intros Hb. rewrite to_N_byte_of_N. apply N.mod_small. pose proof (to_N_lt b).
  assert (Byte.to_N b <> 255)%N; [|lia]. intros Heq. by apply Hb, to_N_inj.
Qed.

Lemma successor_loop_app r b :
  successor_loop (r ++ [b]) =
  match successor_loop r with
  | Some s => Some (b :: s)
  | None => if negb (bool_decide (b = xff)) then Some [byte_of_N (Byte.to_N b + 1)] else None
  end.
Proof.
  induction r as [|a r IH]; cbn [app successor_loop]; [case_if; done|].
  case_if; [|exact IH]. f_equal. rewrite app_comm_cons, reverse_snoc. done.
Qed.

(** The successor by recursion from the front. *)
Lemma successor_cons b p :
  successor (b :: p) =
  match successor p with
  | Some s => Some (b :: s)
  | None => if negb (bool_decide (b = xff)) then Some [byte_of_N (Byte.to_N b + 1)] else None
  end.
Proof. unfold successor. rewrite reverse_cons. apply successor_loop_app. Qed.

Lemma prefix_cons_iff (b c : byte) p k : b :: p `prefix_of` c :: k <-> b = c /\ p `prefix_of` k.
Proof.
  split; [intros [r Hr]; injection Hr as -> ->; split; [done|by exists r]|].
  intros [-> [r ->]]. by exists r.
Qed.

(** The half-open range from a prefix to its successor holds exactly the keys
    with that prefix. *)
Lemma successor_range p : forall k,
  match successor p with
  | Some u => bytes_le p k /\ bytes_lt k u <-> p `prefix_of` k
  | None => bytes_le p k <-> p `prefix_of` k
  end.
Proof.
  induction p as [|b p IH]; intros k.
  { cbn. split; [intros _; apply prefix_nil|]. intros _. by destruct k. }
  rewrite successor_cons. destruct k as [|c k].
  { assert (Hn : ~ bytes_le (b :: p) []) by done.
    assert (Hp : ~ b :: p `prefix_of` []) by (intros [? ?]; discriminate).
    destruct (successor p); [tauto|]. case_if; tauto. }
  specialize (IH k). destruct (N.compare_spec (Byte.to_N b) (Byte.to_N c)) as [Hc|Hc|Hc].
  - apply to_N_inj in Hc as ->.
    assert (Hle : bytes_le (c :: p) (c :: k) <-> bytes_le p k)
      by (rewrite !bytes_le_cmp; cbn; by rewrite N.compare_refl).
    pose proof (prefix_cons_iff c c p k) as Hpre. destruct (successor p) as [u|].
    + assert (Hlt : bytes_lt (c :: k) (c :: u) <-> bytes_lt k u)
        by (rewrite !bytes_lt_cmp; cbn; by rewrite N.compare_refl). tauto.
    + case_if; [|tauto]. bool_facts.
      assert (bytes_lt (c :: k) [byte_of_N (Byte.to_N c + 1)]); [|tauto].
      apply bytes_lt_cmp. cbn. rewrite byte_succ by done.
      by rewrite (proj2 (N.compare_lt_iff _ _)) by lia.
  - assert (Hp : ~ b :: p `prefix_of` c :: k) by (rewrite prefix_cons_iff; intros [-> _]; lia).
    destruct (successor p) as [u|].
    + assert (~ bytes_lt (c :: k) (b :: u)); [|tauto]. rewrite bytes_lt_cmp. cbn.
      by rewrite (proj2 (N.compare_gt_iff _ _)).
    + case_if; bool_facts.
      * assert (~ bytes_lt (c :: k) [byte_of_N (Byte.to_N b + 1)]); [|tauto].
        rewrite bytes_lt_cmp. cbn. rewrite byte_succ by done.
        destruct (N.compare_spec (Byte.to_N c) (Byte.to_N b + 1)); [by destruct k|lia|done].
      * subst b. pose proof (to_N_lt c). cbn in Hc. lia.
  - assert (Hle : ~ bytes_le (b :: p) (c :: k))
      by (rewrite bytes_le_cmp; cbn; rewrite (proj2 (N.compare_gt_iff _ _) Hc); intros Hg; by apply Hg).
    assert (Hp : ~ b :: p `prefix_of` c :: k) by (rewrite prefix_cons_iff; intros [-> _]; lia).
    destruct (successor p); [tauto|]. case_if; tauto.
Qed.

(** [k ++ [0]] is the least key above [k]. *)
Lemma upper_including_least k x : bytes_lt x (upper_including k) <-> bytes_le x k.
Proof.
  unfold upper_including. rewrite bytes_lt_cmp, bytes_le_cmp. revert k.
  induction x as [|a x IH]; intros [|b k]; cbn; try done.
  - destruct (N.compare_spec (Byte.to_N a) 0) as [H|H|H]; [by destruct x|lia|done].
  - destruct (N.compare (Byte.to_N a) (Byte.to_N b)); [apply IH|done|done].
Qed.

(** A sub-region prefix ends in a byte below 0xff, which its successor bumps. *)
Lemma successor_snoc p b :
  b <> xff -> successor (p ++ [b]) = Some (p ++ [byte_of_N (Byte.to_N b + 1)]).
Proof.
  intros Hb. unfold successor. rewrite reverse_snoc. cbn [successor_loop].
  rewrite bool_decide_eq_false_2 by done. cbn [negb]. by rewrite reverse_cons, reverse_involutive.
Qed.

Lemma raft_log_upper_vote s : raft_log_upper s = raft_vote s.
Proof.
  unfold raft_log_upper, raft_log_prefix. rewrite app_assoc, successor_snoc by done.
  unfold raft_vote. by rewrite <- app_assoc.
Qed.

(** Keys under one prefix that end in an 8-byte integer sort by it. *)
Lemma prefix_be_order p m n :
  (m <= u64_max)%N -> (n <= u64_max)%N ->
  bytes_cmp (p ++ be_bytes 8 m) (p ++ be_bytes 8 n) = (m ?= n)%N.
Proof. intros Hm Hn. rewrite bytes_cmp_app. apply bytes_cmp_be_bytes; auto with widths. Qed.

(** ** Lemmas: regions *)

Lemma region_prefix_inv s sub pre rest k :
  key_wf k -> (s <= u64_max)%N ->
  [pre] ++ be_bytes 8 s ++ [sub] ++ rest `prefix_of` key_bytes k ->
  key_tag k = pre /\ key_shard k = s /\ key_sub k = sub /\ rest `prefix_of` key_tail k.
Proof.
  intros [Hs Hf] Hs' [r Hr]. rewrite key_bytes_shape, <- !app_assoc in Hr.
  apply app_inj_length in Hr as [[= Htag] Hr]; [|done].
  apply be_bytes_app_inj in Hr as [Hsh Hr]; [|auto with widths|auto with widths].
  apply app_inj_length in Hr as [[= Hsub] Htail]; [|done].
  split_ands; try done. by exists r.
Qed.

Lemma log_prefix_key s k :
  (s <= u64_max)%N -> key_wf k ->
  raft_log_prefix s `prefix_of` key_bytes k <-> exists i, k = KLog s i.
Proof.
  intros Hs Hk. split.
  - intros Hp. assert (Hp' : [TAG_RAFT] ++ be_bytes 8 s ++ [RAFT_LOG_ENTRY] ++ [] `prefix_of` key_bytes k)
      by exact Hp.
    apply region_prefix_inv in Hp' as (H1 & H2 & H3 & _); [|done|done].
    destruct k; try discriminate H1; try discriminate H3. cbn in H2. subst. eauto.
  - intros [i ->]. exists (be_bytes 8 i). cbn [key_bytes]. unfold raft_log_entry, raft_log_prefix.
    by rewrite <- !app_assoc.
Qed.

Lemma partition_prefix_key s sub t p k :
  (s <= u64_max)%N -> key_wf k -> aggregate_partition_prefix s sub t p `prefix_of` key_bytes k ->
  key_tag k = TAG_SM /\ key_shard k = s /\ key_sub k = sub /\
  exists rest, key_tail k = partition_tail t p rest.
Proof.
  intros Hs Hk Hp. rewrite <- (app_nil_r (aggregate_partition_prefix s sub t p)) in Hp.
  rewrite partition_prefix_shape in Hp.
  apply region_prefix_inv in Hp as (H1 & H2 & H3 & [r Hr]); [|done|done].
  split_ands; try done. exists r. rewrite Hr. unfold partition_tail. by rewrite <- !app_assoc.
Qed.

Lemma index_prefix_key s t p k :
  (s <= u64_max)%N -> partition_key_wf t p -> key_wf k ->
  sm_aggregate_partition_index_prefix s t p `prefix_of` key_bytes k <-> exists q, k = KIndex s t p q.
Proof.
  intros Hs Htp Hk. split.
  - intros (H1 & H2 & H3 & [rest Hr])%partition_prefix_key; [|done|done].
    destruct k; try discriminate H1; try discriminate H3. cbn in H2, Hr. subst.
    apply partition_tail_inj in Hr as (-> & -> & _); [eauto|apply Hk|done].
  - intros [q ->]. by exists (be_bytes 8 q).
Qed.

Lemma state_prefix_key s t p k :
  (s <= u64_max)%N -> partition_key_wf t p -> key_wf k ->
  sm_aggregate_state_prefix s t p `prefix_of` key_bytes k <-> exists id, k = KState s t p id.
Proof.
  intros Hs Htp Hk. split.
  - intros (H1 & H2 & H3 & [rest Hr])%partition_prefix_key; [|done|done].
    destruct k; try discriminate H1; try discriminate H3. cbn in H2, Hr. subst.
    apply partition_tail_inj in Hr as (-> & -> & _); [eauto|apply Hk|done].
  - intros [id ->]. by exists (as_bytes id).
Qed.

(** The state-machine region of a shard. *)
Definition sm_prefix (s : N) : Bytes := [TAG_SM] ++ be_bytes 8 s.

(** All keys of a region of a shard, by their common prefix. *)
Lemma tag_prefix_key tag s k :
  (s <= u64_max)%N -> key_wf k ->
  [tag] ++ be_bytes 8 s `prefix_of` key_bytes k <-> key_tag k = tag /\ key_shard k = s.
Proof.
  intros Hs [Hsh _]. rewrite key_bytes_shape. split.
  - intros [r Hr]. rewrite <- !app_assoc in Hr.
    apply app_inj_length in Hr as [[= Htag] Hr]; [|done].
    apply be_bytes_app_inj in Hr as [Hs' _]; [|auto with widths|auto with widths]. done.
  - intros [-> ->]. exists ([key_sub k] ++ key_tail k). by rewrite <- !app_assoc.
Qed.

Lemma sm_prefix_key s k :
  (s <= u64_max)%N -> key_wf k ->
  sm_prefix s `prefix_of` key_bytes k <-> key_tag k = TAG_SM /\ key_shard k = s.
Proof. apply tag_prefix_key. Qed.

(** ** Lemmas: decoding *)

Lemma utf8_valid_ascii l : Forall (fun b => Byte.to_N b <= 127)%N l -> utf8_valid l = true.
Proof.
  induction 1 as [|b l Hb _ IH]; [done|]. cbn [utf8_valid]. unfold in_range at 1.
  rewrite (proj2 (N.leb_le 0 _)) by lia. rewrite (proj2 (N.leb_le _ 127)) by done. done.
Qed.

Lemma identifier_byte_ascii b : identifier_byte b = true -> (Byte.to_N b <= 127)%N.
Proof. destruct b; cbv; intros H; try discriminate H; intros H'; discriminate H'. Qed.

Lemma identifier_ok_utf8 id : identifier_ok id -> utf8_valid (as_bytes id) = true.
Proof.
  intros (_ & _ & _ & _ & H). apply utf8_valid_ascii. eapply Forall_impl; [exact H|].
  apply identifier_byte_ascii.
Qed.

Lemma from_utf8_as_bytes id : identifier_ok id -> from_utf8 (as_bytes id) = Some id.
Proof.
  intros H. unfold from_utf8. rewrite identifier_ok_utf8 by done. f_equal.
  apply String.string_of_list_byte_of_string.
Qed.

(** ** Properties *)

(** Keys do not collide: two logical keys (of any shards, regions and
    namespaces) whose fields have their Rust widths and valid type ids encode to
    the same bytes only if they are the same key. *)
Theorem key_bytes_injective (k1 k2 : lkey) (H1 : key_wf k1) (H2 : key_wf k2)
  (Heq : key_bytes k1 = key_bytes k2) : k1 = k2.
Proof. by apply key_bytes_inj. Qed.

(** Range scans see exactly what they should: the half-open range from a
    prefix to its [successor] contains a key if and only if the key starts with
    the prefix; [upper_including] is the least exclusive bound that still
    contains its key; and the upper bound of the Raft log is the vote key, which
    it therefore excludes. *)
Theorem scan_ranges_exact (p u k x : Bytes) (shard : N) (Hu : successor p = Some u) :
  (bytes_le p k /\ bytes_lt k u <-> p `prefix_of` k) /\
  (bytes_lt x (upper_including k) <-> bytes_le x k) /\
  raft_log_upper shard = raft_vote shard.
Proof.
  split_ands; [|apply upper_including_least|apply raft_log_upper_vote].
  pose proof (successor_range p k) as H. by rewrite Hu in H.
Qed.

(** The byte order of keys is the order the scans rely on: log entries by
    index, the partition index by position, the events of one instance by
    version, and state documents by the bytes of the instance id. *)
Theorem key_order (s : N) (t : AggregateTypeId) (p : N) (id id' : string) (m n : N)
  (Hm : (m <= u64_max)%N) (Hn : (n <= u64_max)%N) :
  bytes_cmp (raft_log_entry s m) (raft_log_entry s n) = (m ?= n)%N /\
  bytes_cmp (sm_aggregate_partition_index s t p m) (sm_aggregate_partition_index s t p n) = (m ?= n)%N /\
  bytes_cmp (sm_aggregate_event s t p id m) (sm_aggregate_event s t p id n) = (m ?= n)%N /\
  bytes_cmp (sm_aggregate_state s t p id) (sm_aggregate_state s t p id') =
    bytes_cmp (as_bytes id) (as_bytes id').
Proof.
  split_ands; [|by apply prefix_be_order|by apply prefix_be_order|apply bytes_cmp_app].
  unfold raft_log_entry, encode_u64_be. rewrite !app_assoc. by apply prefix_be_order.
Qed.

Lemma partition_prefix_len s sub t p :
  len (aggregate_partition_prefix s sub t p) = (20 + len (as_bytes (canonical_name t)))%N.
Proof.
  rewrite <- (app_nil_r (aggregate_partition_prefix s sub t p)), partition_prefix_shape.
  unfold partition_tail, len_prefixed. rewrite !len_app, !len_be_bytes, !len_cons, !len_nil. lia.
Qed.

Lemma identifier_nonempty_len id : identifier_ok id -> (0 < len (as_bytes id))%N.
Proof. intros [H _]. destruct (as_bytes id); [done|]. rewrite len_cons. lia. Qed.

Lemma decode_u64_be_encode n : (n <= u64_max)%N -> decode_u64_be (be_bytes 8 n) = Ok n.
Proof.
  intros Hn. unfold decode_u64_be. rewrite len_be_bytes. cbn [negb N.eqb Pos.eqb N.of_nat].
  by rewrite be_value_be_bytes, N.mod_small by (by apply u64_lt_pow).
Qed.

(** The bytes of a state key, field by field. *)
Lemma state_key_bytes s t p id :
  sm_aggregate_state s t p id =
  ([TAG_SM] ++ be_bytes 8 s ++ [SM_AGGREGATE_STATE]) ++
  be_bytes 8 (len (as_bytes (canonical_name t))) ++
  as_bytes (canonical_name t) ++ be_bytes 2 p ++ as_bytes id.
Proof.
  unfold sm_aggregate_state. rewrite partition_prefix_shape. unfold partition_tail, len_prefixed.
  by rewrite <- !app_assoc.
Qed.

Lemma decode_state_key s t p id :
  type_id_ok t -> identifier_ok id ->
  decode_aggregate_state_key (sm_aggregate_state s t p id) = Some id.
Proof.
  intros Ht Hid. pose proof (canonical_name_len t Ht) as Hc.
  pose proof (identifier_nonempty_len id Hid) as Hl. unfold decode_aggregate_state_key.
  assert (Hlen : len (sm_aggregate_state s t p id) =
            (20 + len (as_bytes (canonical_name t)) + len (as_bytes id))%N)
    by (unfold sm_aggregate_state; by rewrite len_app, partition_prefix_len).
  assert (H9 : sm_aggregate_state s t p id !! 9 = Some SM_AGGREGATE_STATE)
    by (rewrite state_key_bytes; done).
  assert (Hd : take 8 (drop 10 (sm_aggregate_state s t p id)) =
               be_bytes 8 (len (as_bytes (canonical_name t)))) by (rewrite state_key_bytes; done).
  rewrite Hlen, (proj2 (N.ltb_ge _ _)) by lia.
  rewrite H9, bool_decide_eq_true_2 by done. cbn [negb orb].
  rewrite Hd, decode_u64_be_encode by lia.
  set (n := len (as_bytes (canonical_name t))) in *.
  rewrite (proj2 (checked_add_u64_Some 10 8 18)) by (split; lia). cbn [mbind option_bind].
  rewrite (proj2 (checked_add_u64_Some 18 n (18 + n))) by (split; lia). cbn [mbind option_bind].
  rewrite (proj2 (checked_add_u64_Some (18 + n) 2 (20 + n))) by (split; lia). cbn [mbind option_bind].
  rewrite (proj2 (N.leb_gt _ _)) by lia.
  assert (Hn : N.to_nat (20 + n) = length (aggregate_partition_prefix s SM_AGGREGATE_STATE t p)).
  { pose proof (partition_prefix_len s SM_AGGREGATE_STATE t p) as Hp. fold n in Hp. unfold len in Hp. lia. }
  rewrite Hn. unfold sm_aggregate_state. rewrite drop_app_length. by apply from_utf8_as_bytes.
Qed.

(** The instance id is recovered from the key of a state document, and the
    index from the key of a log entry. *)
Theorem state_key_round_trip (s : N) (t : AggregateTypeId) (p : N) (id : string) (index : N)
  (Ht : type_id_ok t) (Hid : identifier_ok id) (Hindex : (index <= u64_max)%N) :
  decode_aggregate_state_key (sm_aggregate_state s t p id) = Some id /\
  decode_log_index (raft_log_entry s index) = Some index.
Proof.
  split; [by apply decode_state_key|]. unfold decode_log_index.
  assert (Hlen : len (raft_log_entry s index) = 18%N)
    by (unfold raft_log_entry, encode_u64_be; rewrite !len_app, !len_be_bytes; done).
  rewrite Hlen. cbn [negb N.eqb Pos.eqb N.add Pos.add Pos.succ].
  assert (Hd : drop 10 (raft_log_entry s index) = be_bytes 8 index) by done.
  by rewrite Hd, decode_u64_be_encode.
Qed.

(** ** Witnesses *)

Lemma demo_type_ok : type_id_ok demo_type.
Proof. apply type_id_validate_iff. vm_compute. reflexivity. Qed.

Lemma demo_key_wf v : (v <= u64_max)%N -> key_wf (KEvent 1 demo_type 3 "order-1" v).
Proof.
  intros Hv. split; [cbn; lia|].
  change (partition_key_wf demo_type 3 /\ name_wf "order-1" /\ (v <= u64_max)%N).
  split_ands; [split; [apply demo_type_ok|lia]| |done].
  unfold name_wf. vm_compute. discriminate.
Qed.

Lemma key_bytes_injective_witness :
  KEvent 1 demo_type 3 "order-1" (2 + 3) = KEvent 1 demo_type 3 "order-1" 5.
Proof.
  refine (key_bytes_injective (KEvent 1 demo_type 3 "order-1" (2 + 3))
    (KEvent 1 demo_type 3 "order-1" 5) (demo_key_wf _ _) (demo_key_wf _ _) eq_refl); cbn; lia.
Defined.

Lemma scan_ranges_exact_witness :
  bytes_le [x01; xff] [x01; xff; x07] /\ bytes_lt [x01; xff; x07] [x02] <->
  [x01; xff] `prefix_of` [x01; xff; x07].
Proof. exact (proj1 (scan_ranges_exact [x01; xff] [x02] [x01; xff; x07] [] 0 eq_refl)). Defined.

Lemma key_order_witness :
  bytes_cmp (raft_log_entry 7 255) (raft_log_entry 7 256) = Lt.
Proof.
  exact (proj1 (key_order 7 demo_type 3 "a" "b" 255 256 ltac:(lia) ltac:(lia))).
Defined.

Lemma state_key_round_trip_witness :
  decode_aggregate_state_key (sm_aggregate_state 1 demo_type 3 "order-1") = Some "order-1".
Proof.
  refine (proj1 (state_key_round_trip 1 demo_type 3 "order-1" 0 _ _ _)).
  - apply type_id_validate_iff. vm_compute. reflexivity.
  - apply (validate_identifier_iff "aggregate_id"). vm_compute. reflexivity.
  - lia.
Defined.
