(* ===== verification/Store.v ===== *)
(** * es-storage: the ordered store and the value codec

    The interfaces of the two packages the storage crate is built on, the value
    encoding of [es-storage/src/encode.rs] on top of the codec, and the
    key-value helpers of [es-storage/src/storage.rs].

    [Tree] is surrealkv's transactional tree, [Codec] bincode for one type; both
    are parameters. [TreeLaws] and [CodecLaws] state the documented behaviour
    the code relies on: a call that succeeds did what it says. [TreeHealthy] and
    [CodecTotal] say that calls succeed; only theorems that need it assume it.
    [mem_tree] and [countable_codec] are concrete instances. *)

From S2P Require Import Prelude.
From S2P Require Import Bytes.
From S2P Require Import Core.

(** ** The ordered store *)

Inductive TxnOp : Type :=
| TxnSet (k v : Bytes)
| TxnDelete (k : Bytes).

Definition apply_txn_op (m : gmap Bytes Bytes) (op : TxnOp) : gmap Bytes Bytes :=
  match op with
  | TxnSet k v => <[k := v]> m
  | TxnDelete k => delete k m
  end.

Definition apply_txn (m : gmap Bytes Bytes) (ops : list TxnOp) : gmap Bytes Bytes :=
  foldl apply_txn_op m ops.

(** The entries of a half-open key range in ascending key order. *)
Definition entry_le (x y : Bytes * Bytes) : Prop := bytes_le x.1 y.1.

#[export] Instance entry_le_dec x y : Decision (entry_le x y).
Proof. unfold entry_le. apply _. Defined.

Definition in_key_range (s e k : Bytes) : bool := bytes_leb s k && bytes_ltb k e.

Definition range_entries (m : gmap Bytes Bytes) (s e : Bytes) : list (Bytes * Bytes) :=
  merge_sort entry_le (filter (fun kv => in_key_range s e kv.1 = true) (map_to_list m)).

(** [surrealkv::Tree] and its transactions. [txn_scan] stands for [range] and
    the walk of its cursor ([seek_first], [valid], [key], [value], [next]); its
    error is the message of the call that failed. *)
Class Tree : Type := {
  tree : Type;
  txn : Type;
  tree_begin : tree -> result string txn;
  txn_get : txn -> Bytes -> result string (option Bytes);
  txn_scan : txn -> Bytes -> Bytes -> result string (list (Bytes * Bytes));
  txn_set : txn -> Bytes -> Bytes -> result string txn;
  txn_delete : txn -> Bytes -> result string txn;
  txn_commit : tree -> txn -> result string tree
}.

(** Reads of a fresh transaction see the committed state, a scan of a non-empty
    range its entries in key order; a commit applies the transaction's writes in
    order. *)
Class TreeLaws `{Tree} : Type := {
  tree_view : tree -> gmap Bytes Bytes;
  txn_pending : txn -> list TxnOp;
  tree_begin_law : forall t x, tree_begin t = Ok x -> txn_pending x = [];
  txn_get_law : forall t x k o, tree_begin t = Ok x -> txn_get x k = Ok o -> o = tree_view t !! k;
  txn_scan_law : forall t x s e l, tree_begin t = Ok x -> bytes_lt s e ->
    txn_scan x s e = Ok l -> l = range_entries (tree_view t) s e;
  txn_set_law : forall x x' k v, txn_set x k v = Ok x' ->
    txn_pending x' = txn_pending x ++ [TxnSet k v];
  txn_delete_law : forall x x' k, txn_delete x k = Ok x' ->
    txn_pending x' = txn_pending x ++ [TxnDelete k];
  txn_commit_law : forall t x t', txn_commit t x = Ok t' ->
    tree_view t' = apply_txn (tree_view t) (txn_pending x)
}.

Class TreeHealthy `{Tree} : Prop := {
  tree_begin_ok : forall t, exists x, tree_begin t = Ok x;
  txn_get_ok : forall x k, exists o, txn_get x k = Ok o;
  txn_scan_ok : forall x s e, exists l, txn_scan x s e = Ok l;
  txn_set_ok : forall x k v, exists x', txn_set x k v = Ok x';
  txn_delete_ok : forall x k, exists x', txn_delete x k = Ok x';
  txn_commit_ok : forall t x, exists t', txn_commit t x = Ok t'
}.

(** ** The codec *)

(** [bincode::serde::encode_to_vec] and [decode_from_slice] with the standard
    configuration; decoding returns the number of bytes it consumed. *)
Class Codec (A : Type) : Type := {
  bincode_encode : A -> result string Bytes;
  bincode_decode : Bytes -> result string (A * N)
}.

Class CodecLaws (A : Type) `{Codec A} : Prop :=
  bincode_round_trip : forall (a : A) b rest, bincode_encode a = Ok b ->
    bincode_decode (b ++ rest) = Ok (a, len b).

Class CodecTotal (A : Type) `{Codec A} : Prop :=
  bincode_encode_ok : forall a : A, exists b, bincode_encode a = Ok b.

(** encode.rs, [encode]. *)
Definition encode {A} `{Codec A} (v : A) : result string Bytes := bincode_encode v.

(** encode.rs, [decode]: strict, the whole input is one value. *)
Definition decode {A} `{Codec A} (bytes : Bytes) : result string A :=
  vc ← bincode_decode bytes;
  if negb (vc.2 =? len bytes)%N
  then Err ("值编码后仍有 " +:+ pretty (len bytes - vc.2)%N +:+ " 字节尾随数据（严格模式拒绝）")
  else Ok vc.1.

(** ** storage.rs: key-value helpers *)

Section Helpers.
Context `{Tree}.

(** [map_err(|e| Error::Storage(format!("... 失败: {e}")))]. *)
Definition storage_err {A} (what : string) (r : result string A) : Result A :=
  map_err (fun e => Storage (what +:+ " 失败: " +:+ e)) r.

(** [EsStorage::get]. *)
Definition storage_get (t : tree) (k : Bytes) : Result (option Bytes) :=
  x ← storage_err "begin" (tree_begin t);
  storage_err "get" (txn_get x k).

(** [EsStorage::set]. *)
Definition storage_set (t : tree) (k v : Bytes) : Result tree :=
  x ← storage_err "begin" (tree_begin t);
  x ← storage_err "set" (txn_set x k v);
  storage_err "commit" (txn_commit t x).

(** [EsStorage::collect_keys]. *)
Definition collect_keys (t : tree) (s e : Bytes) : Result (list Bytes) :=
  if bytes_leb e s then Ok []
  else
    x ← storage_err "begin" (tree_begin t);
    l ← map_err Storage (txn_scan x s e);
    Ok (map fst l).

(** A loop of [txn.set] or [txn.delete] over a list, stopping at the first
    error. *)
Fixpoint txn_each {A E} (f : txn -> A -> result E txn) (x : txn) (l : list A) : result E txn :=
  match l with
  | [] => Ok x
  | a :: l' => x' ← f x a; txn_each f x' l'
  end.

(** [EsStorage::delete_batch]. *)
Definition delete_batch (t : tree) (keys : list Bytes) : Result tree :=
  if bool_decide (keys = []) then Ok t
  else
    x ← storage_err "begin" (tree_begin t);
    x ← txn_each (fun x k => storage_err "delete" (txn_delete x k)) x keys;
    storage_err "commit" (txn_commit t x).

End Helpers.

(** ** Concrete instances *)

(** An in-memory tree: a transaction is the snapshot and the writes so far. *)
Definition mem_tree : Tree := {|
  tree := gmap Bytes Bytes;
  txn := gmap Bytes Bytes * list TxnOp;
  tree_begin := fun t => Ok (t, []);
  txn_get := fun x k => Ok (x.1 !! k);
  txn_scan := fun x s e => Ok (range_entries x.1 s e);
  txn_set := fun x k v => Ok (x.1, x.2 ++ [TxnSet k v]);
  txn_delete := fun x k => Ok (x.1, x.2 ++ [TxnDelete k]);
  txn_commit := fun t x => Ok (apply_txn t x.2)
|}.

(** A self-delimiting encoding of any countable type: the bits of its number,
    ended by a zero byte. *)
Fixpoint positive_bytes (p : positive) : Bytes :=
  match p with
  | xH => [x00]
  | xO p => x01 :: positive_bytes p
  | xI p => x02 :: positive_bytes p
  end.

Fixpoint positive_read (l : Bytes) : option (positive * N) :=
  match l with
  | [] => None
  | x00 :: _ => Some (xH, 1%N)
  | x01 :: l' => pn ← positive_read l'; Some (xO pn.1, (1 + pn.2)%N)
  | x02 :: l' => pn ← positive_read l'; Some (xI pn.1, (1 + pn.2)%N)
  | _ => None
  end.

Definition countable_codec A `{Countable A} : Codec A := {|
  bincode_encode := fun a => Ok (positive_bytes (countable.encode a));
  bincode_decode := fun b =>
    match positive_read b with
    | None => Err "UnexpectedEnd"
    | Some (p, n) =>
        match countable.decode p with Some a => Ok (a, n) | None => Err "InvalidValue" end
    end
|}.

(** ** Lemmas: codecs *)

Lemma positive_read_bytes p rest :
  positive_read (positive_bytes p ++ rest) = Some (p, len (positive_bytes p)).
Proof.
  induction p as [p IH|p IH|]; cbn [positive_bytes app positive_read]; [| |done];
    rewrite IH; cbn [mbind option_bind fst snd]; by rewrite len_cons.
Qed.

Lemma countable_codec_laws A `{Countable A} : @CodecLaws A (countable_codec A).
Proof.
  intros a b rest [= <-]. cbn. by rewrite positive_read_bytes, decode_encode.
Qed.

Lemma countable_codec_total A `{Countable A} : @CodecTotal A (countable_codec A).
Proof. intros a. cbn. eauto. Qed.

Lemma decode_encode_strict {A} `{CodecLaws A} (a : A) b : encode a = Ok b -> decode b = Ok a.
Proof.
  unfold encode, decode. intros He. rewrite <- (app_nil_r b).
  rewrite (bincode_round_trip a b [] He). cbn [mbind result_bind fst snd].
  by rewrite app_nil_r, N.eqb_refl.
Qed.

Lemma encode_inj {A} `{CodecLaws A} (a1 a2 : A) b : encode a1 = Ok b -> encode a2 = Ok b -> a1 = a2.
Proof.
  intros H1 H2. apply decode_encode_strict in H1, H2. congruence.
Qed.

(** ** Lemmas: ranges *)

#[export] Instance entry_le_trans : Transitive entry_le.
Proof. intros x y z. unfold entry_le. apply bytes_le_trans. Qed.

#[export] Instance entry_le_total : Total entry_le.
Proof. intros x y. unfold entry_le. apply bytes_le_total. Qed.

Lemma elem_of_range_entries m s e k v :
  (k, v) ∈ range_entries m s e <-> m !! k = Some v /\ bytes_le s k /\ bytes_lt k e.
Proof.
  unfold range_entries. rewrite merge_sort_Permutation, list_elem_of_filter, elem_of_map_to_list.
  cbn. unfold in_key_range, bytes_le, bytes_lt. rewrite andb_true_iff. tauto.
Qed.

Lemma range_entries_sorted m s e : StronglySorted entry_le (range_entries m s e).
Proof. apply (StronglySorted_merge_sort entry_le). Qed.

Lemma range_entries_NoDup m s e : NoDup (range_entries m s e).
Proof.
  unfold range_entries. rewrite merge_sort_Permutation. apply NoDup_filter, NoDup_map_to_list.
Qed.

Lemma StronglySorted_weaken {A} (R1 R2 : A -> A -> Prop) l :
  (forall x y, R1 x y -> R2 x y) -> StronglySorted R1 l -> StronglySorted R2 l.
Proof.
  intros HR. induction 1 as [|x l _ IH Hx]; constructor; [done|]. eapply Forall_impl; [exact Hx|].
  intros y. apply HR.
Qed.

Lemma StronglySorted_map {A B} (R : A -> A -> Prop) (R' : B -> B -> Prop) (f : A -> B) l :
  (forall x y, x ∈ l -> y ∈ l -> R x y -> R' (f x) (f y)) ->
  StronglySorted R l -> StronglySorted R' (map f l).
Proof.
  intros Hf. induction 1 as [|x l Hl IH Hx]; [constructor|]. cbn. constructor.
  - apply IH. intros y z Hy Hz. apply Hf; set_solver.
  - apply List.Forall_forall. intros y' (y & <- & Hy)%List.in_map_iff.
    apply Hf; [set_solver|by apply elem_of_cons; right; apply list_elem_of_In|].
    by apply (proj1 (List.Forall_forall _ _) Hx).
Qed.

(** Two positions of a strictly sorted list. *)
Lemma StronglySorted_lookup {A} (R : A -> A -> Prop) l i j x y :
  StronglySorted R l -> l !! i = Some x -> l !! j = Some y -> i < j -> R x y.
Proof.
  intros Hs. revert i j. induction Hs as [|a l Hl IH Ha]; intros i j Hi Hj Hlt; [done|].
  destruct i as [|i], j as [|j]; [lia| |lia|]; cbn in *.
  - injection Hi as <-. apply (proj1 (List.Forall_forall _ _) Ha). by eapply list_elem_of_In, list_elem_of_lookup_2.
  - apply (IH i j); [done|done|lia].
Qed.

Lemma StronglySorted_of_lookup {A} (R : A -> A -> Prop) l :
  (forall i j x y, l !! i = Some x -> l !! j = Some y -> i < j -> R x y) -> StronglySorted R l.
Proof.
  induction l as [|a l IH]; intros Hl; [constructor|]. constructor.
  - apply IH. intros i j x y Hi Hj Hlt. apply (Hl (S i) (S j)); [done|done|lia].
  - apply List.Forall_forall. intros y Hy%list_elem_of_In. apply list_elem_of_lookup in Hy as [j Hj].
    apply (Hl 0 (S j)); [done|done|lia].
Qed.

(** A strictly sorted list with the right members is the range. *)
Lemma range_entries_unique m s e l :
  StronglySorted (fun x y => bytes_lt x.1 y.1) l ->
  (forall k v, (k, v) ∈ l <-> m !! k = Some v /\ bytes_le s k /\ bytes_lt k e) ->
  range_entries m s e = l.
Proof.
  intros Hs Hl. apply (StronglySorted_unique_strong entry_le).
  - intros [k1 v1] [k2 v2] H1 H2 Hle1 Hle2. unfold entry_le in *. cbn in *.
    assert (k1 = k2) as -> by (by apply bytes_le_antisym).
    apply elem_of_range_entries in H1 as [H1 _]. apply Hl in H2 as [H2 _]. congruence.
  - apply range_entries_sorted.
  - eapply StronglySorted_weaken; [|exact Hs]. intros x y. apply bytes_lt_le.
  - apply NoDup_Permutation; [apply range_entries_NoDup| |].
    + clear Hl. induction Hs as [|x l Hl IH Hx]; constructor; [|done]. intros Hin.
      rewrite Forall_forall in Hx. specialize (Hx x Hin). by apply bytes_lt_irrefl in Hx.
    + intros [k v]. by rewrite elem_of_range_entries, Hl.
Qed.

(** ** Lemmas: transactions *)

Lemma apply_txn_app m l1 l2 : apply_txn m (l1 ++ l2) = apply_txn (apply_txn m l1) l2.
Proof. apply foldl_app. Qed.

(** A key the operations do not name keeps its value. *)
Definition txn_op_key (op : TxnOp) : Bytes := match op with TxnSet k _ | TxnDelete k => k end.

Lemma apply_txn_other m ops k : k ∉ map txn_op_key ops -> apply_txn m ops !! k = m !! k.
Proof.
  revert m. induction ops as [|op ops IH]; intros m Hk; [done|]. cbn in *.
  apply not_elem_of_cons in Hk as [Hne Hk]. rewrite IH by done.
  destruct op; cbn in *; [by rewrite lookup_insert_ne | by rewrite lookup_delete_ne].
Qed.

Lemma apply_txn_deletes m ks k :
  apply_txn m (map TxnDelete ks) !! k = if bool_decide (k ∈ ks) then None else m !! k.
Proof.
  revert m. induction ks as [|k' ks IH]; intros m; [done|]. cbn. rewrite IH.
  destruct (decide (k = k')) as [->|Hne].
  - rewrite (bool_decide_eq_true_2 (k' ∈ k' :: ks)) by set_solver.
    case_if; [done|]. apply lookup_delete_eq.
  - rewrite (bool_decide_ext (k ∈ k' :: ks) (k ∈ ks)) by set_solver.
    case_if; [done|]. by rewrite lookup_delete_ne.
Qed.

Lemma range_entries_empty m s e : bytes_le e s -> range_entries m s e = [].
Proof.
  intros Hle. apply range_entries_unique; [constructor|]. intros k v. split; [intros Hin; set_solver|].
  intros (_ & Hs & He). exfalso. apply (bytes_lt_irrefl e).
  eapply bytes_le_lt_trans; [exact Hle|]. by eapply bytes_le_lt_trans.
Qed.

Lemma storage_err_Ok {A} what (r : result string A) a : storage_err what r = Ok a <-> r = Ok a.
Proof. unfold storage_err. destruct r; cbn; split; congruence. Qed.

Ltac storage_facts :=
  repeat match goal with Hs : storage_err _ _ = Ok _ |- _ => apply storage_err_Ok in Hs end.

Section HelperLemmas.
Context `{TreeLaws}.

Lemma storage_get_view t k o : storage_get t k = Ok o -> o = tree_view t !! k.
Proof.
  unfold storage_get. intros Hg. inv_result. storage_facts. by eapply txn_get_law.
Qed.

Lemma storage_set_view t k v t' :
  storage_set t k v = Ok t' -> tree_view t' = <[k := v]> (tree_view t).
Proof.
  unfold storage_set. intros Hg. inv_result. storage_facts.
  match goal with Hb : tree_begin t = Ok ?x, Hs : txn_set ?x k v = Ok ?y |- _ =>
    apply tree_begin_law in Hb; apply txn_set_law in Hs; rewrite Hb in Hs end.
  erewrite txn_commit_law by eassumption.
  match goal with Hs : txn_pending _ = _ |- _ => by rewrite Hs end.
Qed.

Lemma collect_keys_view t s e ks :
  collect_keys t s e = Ok ks -> ks = (range_entries (tree_view t) s e).*1.
Proof.
  unfold collect_keys. case_if.
  - intros [= <-]. rewrite range_entries_empty by done. done.
  - intros Hg. inv_result. storage_facts.
    match goal with Hm : map_err _ _ = Ok _ |- _ =>
      destruct (txn_scan x s e) eqn:Hscan; cbn in Hm; [|discriminate]; injection Hm as -> end.
    f_equal. eapply txn_scan_law; [eassumption| |eassumption].
    apply bytes_lt_nle. intros Hle. unfold bytes_le in Hle. congruence.
Qed.

Lemma txn_each_pending {A E} (f : txn -> A -> result E txn) (op : A -> TxnOp) x l x' :
  (forall x a x', f x a = Ok x' -> txn_pending x' = txn_pending x ++ [op a]) ->
  txn_each f x l = Ok x' -> txn_pending x' = txn_pending x ++ map op l.
Proof.
  intros Hf. revert x. induction l as [|a l IH]; intros x; cbn.
  - intros [= <-]. by rewrite app_nil_r.
  - intros Hg. inv_result. apply IH in Hg.
    match goal with Ha : f x a = Ok _ |- _ => apply Hf in Ha; rewrite Ha in Hg end.
    by rewrite Hg, <- app_assoc.
Qed.

Lemma delete_batch_view t ks t' :
  delete_batch t ks = Ok t' -> tree_view t' = apply_txn (tree_view t) (map TxnDelete ks).
Proof.
  unfold delete_batch. case_if; bool_facts; [subst; by intros [= <-]|]. intros Hg. inv_result.
  storage_facts.
  match goal with He : txn_each _ _ _ = Ok _ |- _ =>
    apply (txn_each_pending _ TxnDelete) in He;
      [|intros ??? Hd; apply storage_err_Ok in Hd; by apply txn_delete_law] end.
  erewrite txn_commit_law by eassumption.
  match goal with Hb : tree_begin t = Ok _, Hp : txn_pending _ = _ |- _ =>
    apply tree_begin_law in Hb; rewrite Hb in Hp; by rewrite Hp end.
Qed.

Lemma delete_batch_lookup t ks t' k :
  delete_batch t ks = Ok t' ->
  tree_view t' !! k = if bool_decide (k ∈ ks) then None else tree_view t !! k.
Proof. intros Hd. rewrite (delete_batch_view _ _ _ Hd). apply apply_txn_deletes. Qed.

(** On a healthy tree the helpers succeed. *)
Section Healthy.
Context `{!TreeHealthy}.

Lemma storage_get_healthy t k : storage_get t k = Ok (tree_view t !! k).
Proof.
  destruct (tree_begin_ok t) as [x Hx], (txn_get_ok x k) as [o Ho].
  assert (Hg : storage_get t k = Ok o)
    by (unfold storage_get, storage_err; by rewrite Hx; cbn; rewrite Ho).
  rewrite Hg. by rewrite (storage_get_view _ _ _ Hg).
Qed.

Lemma storage_set_healthy t k v : exists t', storage_set t k v = Ok t'.
Proof.
  destruct (tree_begin_ok t) as [x Hx], (txn_set_ok x k v) as [x' Hx'],
    (txn_commit_ok t x') as [t' Ht]. exists t'.
  unfold storage_set, storage_err. rewrite Hx. cbn. rewrite Hx'. cbn. by rewrite Ht.
Qed.

Lemma collect_keys_healthy t s e :
  collect_keys t s e = Ok (range_entries (tree_view t) s e).*1.
Proof.
  assert (Hc : exists ks, collect_keys t s e = Ok ks).
  { unfold collect_keys, storage_err. case_if; [eauto|].
    destruct (tree_begin_ok t) as [x Hx], (txn_scan_ok x s e) as [l Hl].
    rewrite Hx. cbn. rewrite Hl. cbn. eauto. }
  destruct Hc as [ks Hc]. rewrite Hc. by rewrite (collect_keys_view _ _ _ _ Hc).
Qed.

Lemma txn_each_healthy {A E} (f : txn -> A -> result E txn) x l :
  (forall x a, exists x', f x a = Ok x') -> exists x', txn_each f x l = Ok x'.
Proof.
  intros Hf. revert x. induction l as [|a l IH]; intros x; cbn; [eauto|].
  destruct (Hf x a) as [x' ->]. apply IH.
Qed.

Lemma delete_batch_healthy t ks : exists t', delete_batch t ks = Ok t'.
Proof.
  unfold delete_batch. case_if; [eauto|].
  destruct (tree_begin_ok t) as [x Hx].
  destruct (txn_each_healthy (fun x k => storage_err "delete" (txn_delete x k)) x ks) as [x' Hx'].
  { intros y k. destruct (txn_delete_ok y k) as [y' Hy]. exists y'. unfold storage_err. by rewrite Hy. }
  destruct (txn_commit_ok t x') as [t' Ht]. exists t'.
  unfold storage_err in *. rewrite Hx. cbn. rewrite Hx'. cbn. by rewrite Ht.
Qed.

End Healthy.
End HelperLemmas.

(** ** Properties *)

(** Stored values are read strictly: what [encode] wrote is what [decode]
    returns, and the same bytes followed by anything at all are rejected, never
    silently accepted. *)
Theorem decode_strict {A} `{CodecLaws A} (a : A) (b rest : Bytes)
  (Henc : encode a = Ok b) :
  decode b = Ok a /\ (rest <> [] -> exists m, @decode A _ (b ++ rest) = Err m).
Proof.
  split; [by apply decode_encode_strict|]. intros Hne. unfold decode.
  rewrite (bincode_round_trip a b rest Henc). cbn [mbind result_bind fst snd].
  rewrite len_app. case_if; [by eexists|]. bool_facts.
  destruct rest; [done|]. rewrite len_cons in E. lia.
Qed.

(** ** Witnesses *)

Definition mem_tree_laws : @TreeLaws mem_tree.
Proof.
  refine {| tree_view := (fun t : @tree mem_tree => t);
            txn_pending := (fun x : @txn mem_tree => x.2) |}; cbn.
  - by intros t x [= <-].
  - by intros t x k o [= <-] [= <-].
  - by intros t x s e l [= <-] _ [= <-].
  - by intros x x' k v [= <-].
  - by intros x x' k [= <-].
  - by intros t x t' [= <-].
Defined.

Lemma mem_tree_healthy : @TreeHealthy mem_tree.
Proof. split; cbn; eauto. Qed.

Lemma decode_strict_witness :
  @decode N (countable_codec N) (positive_bytes (countable.encode 42%N)) = Ok 42%N.
Proof.
  exact (proj1 (@decode_strict N (countable_codec N) (countable_codec_laws N) 42%N _ [] eq_refl)).
Defined.
