(* ===== verification/RaftType.v ===== *)
(** * es-storage: Raft requests, responses and log entries

    [es-storage/src/raft_type.rs]: the requests and responses of the state
    machine. [LogId], [Entry] and [StoredMembership] are openraft's data types;
    its [Membership] and [Vote] are only stored and handed back, and are
    parameters ([M] and [V]). [StorageError] keeps the subject and the message
    of openraft's [StorageIOError]. *)

From S2P Require Import Prelude.
From S2P Require Import Bytes.
From S2P Require Import Core.
From S2P Require Import Aggregate.
From S2P Require Import Catalog.
From S2P Require Import GroupCatalog.
From S2P Require Import GroupPartition.

(** ** openraft's data *)

Record LogId : Type := mkLogId { li_term : N; li_node : N; li_index : N }.

#[export] Instance LogId_eq_dec : EqDecision LogId.
Proof. solve_decision. Defined.

Record StoredMembership (M : Type) : Type := mkStored {
  sm_log_id : option LogId;
  sm_membership : M
}.
Arguments mkStored {M}.
Arguments sm_log_id {M}.
Arguments sm_membership {M}.

Inductive StorageError : Type :=
| ErrRead (msg : string)
| ErrWrite (msg : string)
| ErrReadVote (msg : string)
| ErrWriteVote (msg : string)
| ErrReadLogs (msg : string)
| ErrWriteLogs (msg : string)
| ErrWriteLogEntry (log_id : LogId) (msg : string)
| ErrReadStateMachine (msg : string)
| ErrWriteStateMachine (msg : string).

(** ** raft_type.rs *)

Inductive AggregateGroupPartitionCommand : Type :=
| GClaim (consumer_id : string) (now_ms deadline_ms max_claim max_bytes : N)
    (candidates : list AggregateDeliveryCandidate)
| GSettle (consumer_id : string) (now_ms : N) (settlements : list AggregateSettlement)
| GRenew (consumer_id : string) (deadline_ms : N) (delivery_ids : list Uuid)
| GExpire (now_ms : N).

Inductive EsRequest : Type :=
| AggregateAppend (t : AggregateTypeId) (partition_id partition_generation : N)
    (aggregate_id : string) (expected_version : ExpectedAggregateVersion)
    (event : NewAggregateEvent) (hlc : Hlc)
| PutAggregateState (t : AggregateTypeId) (partition_id partition_generation : N)
    (aggregate_id : string) (expected_revision : ExpectedStateRevision) (data : Bytes) (hlc : Hlc)
| InstallAggregatePartitionFence (t : AggregateTypeId) (partition_id generation : N)
| CommitAggregateCatalog (command : AggregateCatalogCommand)
| CommitAggregateGroupCatalog (command : AggregateGroupCatalogCommand)
| GroupPartitionRequest (t : AggregateTypeId) (partition_id partition_generation : N)
    (group_name : string) (group_epoch start_position : N) (settings : AggregateGroupSettings)
    (command : AggregateGroupPartitionCommand).

Inductive EsResponse : Type :=
| Noop
| AggregateAppendOk (aggregate_version partition_position : N)
| AggregateOptimisticConflict (actual_version : option N)
| AggregateIdempotencyConflict
| AggregateNotFound
| AggregateStateStored (state : AggregateStateDocument)
| AggregateStateConflict (actual_revision : option N)
| AggregatePartitionFenceInstalled (generation : N)
| AggregatePartitionFenced (current_generation : N)
| AggregateCatalogApplied (a : AggregateCatalogApply)
| AggregateInvalid (reason : string)
| AggregateGroupCatalogApplied (a : AggregateGroupCatalogApply)
| AggregateGroupClaimed (l : list AggregateGroupDelivery)
| AggregateGroupSettled (l : list AggregateSettlementResult)
| AggregateGroupRenewed (l : list AggregateSettlementResult)
| AggregateGroupExpired (n : N)
| AggregateGroupStaleEpoch (current_epoch : N).

Inductive EntryPayload (M : Type) : Type :=
| Blank
| Normal (req : EsRequest)
| MembershipChange (m : M).
Arguments Blank {M}.
Arguments Normal {M}.
Arguments MembershipChange {M}.

Record Entry (M : Type) : Type := mkEntry {
  en_log_id : LogId;
  en_payload : EntryPayload M
}.
Arguments mkEntry {M}.
Arguments en_log_id {M}.
Arguments en_payload {M}.

(** ** state_machine.rs: persisted records *)

Record AggregateIdempotencyRecord : Type := mkIdem {
  id_fingerprint : N;
  id_result : AggregateAppendResult
}.

Record AppliedState (M : Type) : Type := mkApplied {
  as_last_applied : option LogId;
  as_membership : StoredMembership M
}.
Arguments mkApplied {M}.
Arguments as_last_applied {M}.
Arguments as_membership {M}.
