(* ===== verification/LogStore.v ===== *)
(** * es-storage: the Raft log

    [es-storage/src/log_storage.rs] and the log helpers of [storage.rs]: the
    log entries, vote, committed and purged marks of one shard, kept under the
    shard's Raft keys of the shared tree.

    [alog] is the specification: a finite map from index to entry and three
    marks. [LogRep] relates it to the tree; the theorems show that every
    operation refines the map operation openraft expects and leaves all keys
    outside the shard's Raft region alone. *)

From S2P Require Import Prelude.
From S2P Require Import Bytes.
From S2P Require Import Core.
From S2P Require Import Aggregate.
From S2P Require Import Keys.
From S2P Require Import Store.
From S2P Require Import RaftType.

(** [std::ops::Bound]. *)
Inductive Bound : Type := Included (i : N) | Excluded (i : N) | Unbounded.

(** ** storage.rs: reading the log *)

(** [EsStorage::log_range_keys]: [None] for an empty range. *)
Definition log_range_keys (shard_id : N) (lo hi : Bound) : option (Bytes * Bytes) :=
  start_idx ← match lo with
              | Included i => Some i
              | Excluded i => checked_add_u64 i 1
              | Unbounded => Some 0%N
              end;
  let start := raft_log_entry shard_id start_idx in
  end_ ← match hi with
         | Excluded i => if (i <=? start_idx)%N then None else Some (raft_log_entry shard_id i)
         | Included i =>
             if (i <? start_idx)%N then None
             else Some (match checked_add_u64 i 1 with
                        | Some next => raft_log_entry shard_id next
                        | None => raft_log_upper shard_id
                        end)
         | Unbounded => Some (raft_log_upper shard_id)
         end;
  Some (start, end_).

Record LogState : Type := mkLogState {
  ls_last_purged : option LogId;
  ls_last_log_id : option LogId
}.

Section LogStore.
Context {M V : Type}.
Context `{Tree} `{!Codec (Entry M)} `{!Codec (option LogId)} `{!Codec V}.

(** [EsStorage::read_log_entries]. *)
Definition read_log_entries (shard_id : N) (t : tree) (lo hi : Bound) : Result (list (Entry M)) :=
  match log_range_keys shard_id lo hi with
  | None => Ok []
  | Some (start, end_) =>
      if bytes_leb end_ start then Ok []
      else
        x ← storage_err "begin" (tree_begin t);
        l ← map_err Storage (txn_scan x start end_);
        result_mapM (fun kv =>
          map_err (fun e => Serde ("日志条目反序列化失败: " +:+ e)) (decode kv.2)) l
  end.

(** [EsStorage::read_last_log_id]: the last entry of the log region. *)
Definition read_last_log_id (shard_id : N) (t : tree) : Result (option LogId) :=
  x ← storage_err "begin" (tree_begin t);
  l ← map_err Storage (txn_scan x (raft_log_prefix shard_id) (raft_log_upper shard_id));
  match last l with
  | None => Ok None
  | Some (_, v) =>
      entry ← map_err (fun e => Serde ("日志条目反序列化失败: " +:+ e)) (@decode (Entry M) _ v);
      Ok (Some (en_log_id entry))
  end.

(** [read_logs_err]. *)
Definition read_logs_err {A} (r : Result A) : result StorageError A :=
  map_err (fun e => ErrReadLogs (error_to_string e)) r.

(** [try_get_log_entries]. *)
Definition try_get_log_entries (shard_id : N) (t : tree) (lo hi : Bound) :
    result StorageError (list (Entry M)) :=
  read_logs_err (read_log_entries shard_id t lo hi).

(** ** log_storage.rs *)

(** [EsStorage::read_last_purged]. *)
Definition read_last_purged (shard_id : N) (t : tree) : Result (option LogId) :=
  o ← storage_get t (raft_last_purged shard_id);
  match o with
  | None => Ok None
  | Some bytes =>
      log_id ← map_err (fun e => Serde ("last_purged 反序列化失败: " +:+ e))
                 (@decode (option LogId) _ bytes);
      match log_id with
      | Some id => Ok (Some id)
      | None => Err (Serde "last_purged 损坏：key 存在但值编码为 None（写入方只写 Some）")
      end
  end.

Definition get_log_state (shard_id : N) (t : tree) : result StorageError LogState :=
  last_purged ← read_logs_err (read_last_purged shard_id t);
  last_in_log ← read_logs_err (read_last_log_id shard_id t);
  let last_log_id := match last_in_log with Some x => Some x | None => last_purged end in
  Ok (mkLogState last_purged last_log_id).

(** The state after a call and its result: a failed call may have committed
    part of its work. *)
Abbreviation Outcome := (tree * result StorageError unit)%type.

(** One [set] of an encoded value, with the errors of the caller. *)
Definition save_value {A} `{Codec A} (t : tree) (k : Bytes) (v : A) (err : string -> StorageError) :
    Outcome :=
  match encode v with
  | Err e => (t, Err (err e))
  | Ok b =>
      match storage_set t k b with
      | Err e => (t, Err (err (error_to_string e)))
      | Ok t' => (t', Ok tt)
      end
  end.

Definition save_committed (shard_id : N) (t : tree) (committed : option LogId) : Outcome :=
  save_value t (raft_committed shard_id) committed ErrWrite.

Definition read_committed (shard_id : N) (t : tree) : result StorageError (option LogId) :=
  o ← read_logs_err (storage_get t (raft_committed shard_id));
  match o with
  | None => Ok None
  | Some bytes => map_err ErrRead (@decode (option LogId) _ bytes)
  end.

Definition save_vote (shard_id : N) (t : tree) (vote : V) : Outcome :=
  save_value t (raft_vote shard_id) vote ErrWriteVote.

Definition read_vote (shard_id : N) (t : tree) : result StorageError (option V) :=
  o ← map_err (fun e => ErrReadVote (error_to_string e)) (storage_get t (raft_vote shard_id));
  match o with
  | None => Ok None
  | Some bytes => vote ← map_err ErrReadVote (@decode V _ bytes); Ok (Some vote)
  end.

(** One turn of the loop of [append]. *)
Definition append_one (shard_id : N) (x : txn) (entry : Entry M) : result StorageError txn :=
  let log_id := en_log_id entry in
  v ← map_err (ErrWriteLogEntry log_id) (encode entry);
  map_err (ErrWriteLogEntry log_id) (txn_set x (raft_log_entry shard_id (li_index log_id)) v).

Definition log_append (shard_id : N) (t : tree) (entries : list (Entry M)) : Outcome :=
  let r :=
    x ← map_err ErrWriteLogs (tree_begin t);
    x ← txn_each (append_one shard_id) x entries;
    map_err ErrWriteLogs (txn_commit t x) in
  match r with Ok t' => (t', Ok tt) | Err e => (t, Err e) end.

(** [collect_keys] and [delete_batch] of a range. *)
Definition delete_range (t : tree) (s e : Bytes) : Outcome :=
  match collect_keys t s e with
  | Err er => (t, Err (ErrReadLogs (error_to_string er)))
  | Ok keys =>
      match delete_batch t keys with
      | Err er => (t, Err (ErrWriteLogs (error_to_string er)))
      | Ok t' => (t', Ok tt)
      end
  end.

Definition log_truncate (shard_id : N) (t : tree) (log_id : LogId) : Outcome :=
  delete_range t (raft_log_entry shard_id (li_index log_id)) (raft_log_upper shard_id).

Definition log_purge (shard_id : N) (t : tree) (log_id : LogId) : Outcome :=
  match save_value t (raft_last_purged shard_id) (Some log_id) ErrWrite with
  | (t, Err e) => (t, Err e)
  | (t, Ok _) =>
      delete_range t (raft_log_prefix shard_id)
        (match checked_add_u64 (li_index log_id) 1 with
         | Some next => raft_log_entry shard_id next
         | None => raft_log_upper shard_id
         end)
  end.

End LogStore.

(** ** Specification *)

Section Spec.
Context {M V : Type}.

Record alog : Type := mkAlog {
  al_entries : gmap N (Entry M);
  al_purged : option LogId;
  al_vote : option V;
  al_committed : option (option LogId)
}.

Inductive LogOp : Type :=
| LAppend (entries : list (Entry M))
| LTruncate (log_id : LogId)
| LPurge (log_id : LogId)
| LSaveVote (vote : V)
| LSaveCommitted (committed : option LogId).

Definition insert_entry (m : gmap N (Entry M)) (e : Entry M) : gmap N (Entry M) :=
  <[li_index (en_log_id e) := e]> m.

Definition alog_step (a : alog) (op : LogOp) : alog :=
  match op with
  | LAppend es =>
      mkAlog (foldl insert_entry (al_entries a) es) (al_purged a) (al_vote a) (al_committed a)
  | LTruncate id =>
      mkAlog (filter (fun ie => ie.1 < li_index id)%N (al_entries a)) (al_purged a) (al_vote a)
        (al_committed a)
  | LPurge id =>
      mkAlog (filter (fun ie => li_index id < ie.1)%N (al_entries a)) (Some id) (al_vote a)
        (al_committed a)
  | LSaveVote v => mkAlog (al_entries a) (al_purged a) (Some v) (al_committed a)
  | LSaveCommitted c => mkAlog (al_entries a) (al_purged a) (al_vote a) (Some c)
  end.

Definition in_bounds (lo hi : Bound) (i : N) : Prop :=
  (match lo with Included l => l <= i | Excluded l => l < i | Unbounded => True end)%N /\
  (match hi with Included h => i <= h | Excluded h => i < h | Unbounded => True end)%N.

#[export] Instance in_bounds_dec lo hi i : Decision (in_bounds lo hi i).
Proof. unfold in_bounds. destruct lo, hi; apply _. Defined.

(** The entries of an index range, by ascending index. *)
Definition alog_range (a : alog) (lo hi : Bound) : list (Entry M) :=
  btree_values (filter (fun ie => in_bounds lo hi ie.1) (al_entries a)).

(** openraft's log state: the last entry, or else the purged mark. *)
Definition alog_state (a : alog) : LogState :=
  mkLogState (al_purged a)
    (match last (btree_values (al_entries a)) with
     | Some e => Some (en_log_id e)
     | None => al_purged a
     end).

End Spec.
Arguments alog : clear implicits.
Arguments LogOp : clear implicits.

(** ** The tree represents the log *)

(** Every key of the tree is one of [key.rs]. *)
Definition keys_wf (v : gmap Bytes Bytes) : Prop :=
  forall raw, is_Some (v !! raw) -> exists k, key_wf k /\ raw = key_bytes k.

Definition stored {A} `{Codec A} (v : gmap Bytes Bytes) (k : lkey) (o : option A) : Prop :=
  match o with
  | Some a => exists b, encode a = Ok b /\ v !! key_bytes k = Some b
  | None => v !! key_bytes k = None
  end.

Section Refinement.
Context {M V : Type}.
Context `{TreeLaws} `{CodecLaws (Entry M)} `{CodecLaws (option LogId)} `{CodecLaws V}.

Record LogRep (shard_id : N) (v : gmap Bytes Bytes) (a : alog M V) : Prop := {
  lr_keys : keys_wf v;
  lr_entries : forall i, (i <= u64_max)%N -> stored v (KLog shard_id i) (al_entries a !! i);
  lr_index : forall i e, al_entries a !! i = Some e ->
    (i <= u64_max)%N /\ li_index (en_log_id e) = i;
  lr_purged : stored v (KPurged shard_id) (Some <$> al_purged a);
  lr_vote : stored v (KVote shard_id) (al_vote a);
  lr_committed : stored v (KCommitted shard_id) (al_committed a)
}.

(** The code of one operation. *)
Definition log_step (shard_id : N) (t : tree) (op : LogOp M V) : tree * result StorageError unit :=
  match op with
  | LAppend es => log_append shard_id t es
  | LTruncate id => log_truncate shard_id t id
  | LPurge id => log_purge shard_id t id
  | LSaveVote vote => save_vote shard_id t vote
  | LSaveCommitted c => save_committed shard_id t c
  end.

(** Indices are [u64]. *)
Definition log_op_wf (op : LogOp M V) : Prop :=
  match op with
  | LAppend es => Forall (fun e => li_index (en_log_id e) <= u64_max)%N es
  | LTruncate id | LPurge id => (li_index id <= u64_max)%N
  | _ => True
  end.

(** Everything outside the Raft region of the shard is as before. *)
Definition frame (shard_id : N) (v v' : gmap Bytes Bytes) : Prop :=
  forall k, key_wf k -> key_tag k <> TAG_RAFT \/ key_shard k <> shard_id ->
    v' !! key_bytes k = v !! key_bytes k.

End Refinement.

(** ** Lemmas: keys of the log *)

Lemma key_bytes_ne k1 k2 : key_wf k1 -> key_wf k2 -> k1 <> k2 -> key_bytes k1 <> key_bytes k2.
Proof. intros H1 H2 Hne Heq. by apply Hne, key_bytes_inj. Qed.

Lemma log_region_key s k :
  (s <= u64_max)%N -> key_wf k ->
  bytes_le (raft_log_prefix s) (key_bytes k) /\ bytes_lt (key_bytes k) (raft_log_upper s) <->
  exists j, k = KLog s j.
Proof.
  intros Hs Hk. rewrite <- log_prefix_key by done.
  pose proof (successor_range (raft_log_prefix s) (key_bytes k)) as Hr.
  assert (Hsucc : successor (raft_log_prefix s) = Some (raft_log_upper s)).
  { unfold raft_log_upper, raft_log_prefix. by rewrite app_assoc, successor_snoc. }
  by rewrite Hsucc in Hr.
Qed.

Lemma log_entry_cmp s i j :
  (i <= u64_max)%N -> (j <= u64_max)%N ->
  bytes_cmp (raft_log_entry s i) (raft_log_entry s j) = (i ?= j)%N.
Proof.
  intros Hi Hj. unfold raft_log_entry, encode_u64_be. rewrite !app_assoc. by apply prefix_be_order.
Qed.

Lemma log_prefix_le s i : bytes_le (raft_log_prefix s) (raft_log_entry s i).
Proof.
  unfold raft_log_prefix, raft_log_entry. rewrite !app_assoc. apply bytes_le_app.
Qed.

Lemma log_entry_upper s i : (s <= u64_max)%N -> (i <= u64_max)%N ->
  bytes_lt (raft_log_entry s i) (raft_log_upper s).
Proof.
  intros Hs Hi. apply (log_region_key s (KLog s i)); [done|by split|]. eauto.
Qed.

Lemma log_from_key s a k :
  (s <= u64_max)%N -> (a <= u64_max)%N -> key_wf k ->
  bytes_le (raft_log_entry s a) (key_bytes k) /\ bytes_lt (key_bytes k) (raft_log_upper s) <->
  exists j, k = KLog s j /\ (a <= j)%N.
Proof.
  intros Hs Ha Hk. split.
  - intros [Hle Hlt]. assert (Hreg : exists j, k = KLog s j).
    { apply log_region_key; [done..|]. split; [|done]. etrans; [apply log_prefix_le|done]. }
    destruct Hreg as [j ->]. exists j. split; [done|]. apply bytes_le_cmp in Hle.
    cbn [key_bytes] in Hle. rewrite log_entry_cmp in Hle by (done || apply Hk).
    by apply N.compare_le_iff.
  - intros (j & -> & Hj). split; [|apply log_entry_upper; [done|apply Hk]].
    apply bytes_le_cmp. cbn [key_bytes]. rewrite log_entry_cmp by (done || apply Hk).
    by apply N.compare_le_iff.
Qed.

Lemma log_below_key s b k :
  (s <= u64_max)%N -> (b <= u64_max)%N -> key_wf k ->
  bytes_le (raft_log_prefix s) (key_bytes k) /\ bytes_lt (key_bytes k) (raft_log_entry s b) <->
  exists j, k = KLog s j /\ (j < b)%N.
Proof.
  intros Hs Hb Hk. split.
  - intros [Hle Hlt]. assert (Hreg : exists j, k = KLog s j).
    { apply log_region_key; [done..|]. split; [done|]. etrans; [done|by apply log_entry_upper]. }
    destruct Hreg as [j ->]. exists j. split; [done|]. apply bytes_lt_cmp in Hlt.
    cbn [key_bytes] in Hlt. rewrite log_entry_cmp in Hlt by (done || apply Hk).
    by apply N.compare_lt_iff.
  - intros (j & -> & Hj). split; [apply log_prefix_le|].
    apply bytes_lt_cmp. cbn [key_bytes]. rewrite log_entry_cmp by (done || apply Hk).
    by apply N.compare_lt_iff.
Qed.

(** ** Lemmas: stored values *)

Section Stored.
Context {A} `{CodecLaws A}.

Lemma stored_ext v v' k (o : option A) :
  v' !! key_bytes k = v !! key_bytes k -> stored v k o -> stored v' k o.
Proof. unfold stored. by intros ->. Qed.

Lemma stored_insert v k (a : A) b : encode a = Ok b -> stored (<[key_bytes k := b]> v) k (Some a).
Proof. intros He. exists b. by rewrite lookup_insert_eq. Qed.

Lemma stored_insert_ne v k k' (o : option A) b :
  key_wf k -> key_wf k' -> k' <> k -> stored v k o -> stored (<[key_bytes k' := b]> v) k o.
Proof.
  intros Hk Hk' Hne. apply stored_ext. rewrite lookup_insert_ne; [done|]. by apply key_bytes_ne.
Qed.

(** Reading a stored value back. *)
Lemma stored_decode v k (o : option A) bs :
  stored v k o -> v !! key_bytes k = Some bs -> exists a, o = Some a /\ decode bs = Ok a.
Proof.
  destruct o as [a|]; cbn; [|congruence]. intros (b & He & Hb) Hbs. exists a. split; [done|].
  assert (bs = b) as -> by congruence. by apply decode_encode_strict.
Qed.

Lemma stored_None v k (o : option A) : stored v k o -> v !! key_bytes k = None -> o = None.
Proof. destruct o; [|done]. cbn. intros (b & _ & Hb) Hn. congruence. Qed.

End Stored.

Lemma keys_wf_insert v k b : key_wf k -> keys_wf v -> keys_wf (<[key_bytes k := b]> v).
Proof.
  intros Hk Hv raw [x Hx]. apply lookup_insert_Some in Hx as [[<- _]|[_ Hx]]; eauto.
Qed.

Lemma keys_wf_subset v v' : (forall raw, is_Some (v' !! raw) -> is_Some (v !! raw)) -> keys_wf v -> keys_wf v'.
Proof. intros Hs Hv raw Hraw. auto. Qed.

(** ** Lemmas: the operations *)

Section Ops.
Context {M V : Type}.
Context `{TreeLaws} `{CodecLaws (Entry M)} `{CodecLaws (option LogId)} `{CodecLaws V}.
Context (shard_id : N) (Hshard : (shard_id <= u64_max)%N).

Lemma klog_wf i : (i <= u64_max)%N -> key_wf (KLog shard_id i).
Proof. by split. Qed.

Lemma save_value_view {A} `{Codec A} t k (a : A) err t' :
  save_value t (key_bytes k) a err = (t', Ok tt) ->
  exists b, encode a = Ok b /\ tree_view t' = <[key_bytes k := b]> (tree_view t).
Proof.
  unfold save_value. destruct (encode a) as [b|] eqn:He; [|discriminate].
  destruct (storage_set t (key_bytes k) b) as [t1|] eqn:Hs; [|discriminate]. intros [= <-].
  exists b. split; [done|]. by apply storage_set_view.
Qed.

Lemma save_value_err {A} `{Codec A} t k (a : A) err t' e :
  save_value t k a err = (t', Err e) -> t' = t.
Proof.
  unfold save_value. destruct (encode a); [|by intros [= <-]].
  destruct (storage_set _ _ _); [discriminate|by intros [= <-]].
Qed.

Lemma delete_range_view t s e t' raw :
  delete_range t s e = (t', Ok tt) ->
  tree_view t' !! raw =
  if in_key_range s e raw then None else tree_view t !! raw.
Proof.
  unfold delete_range. destruct (collect_keys t s e) as [ks|] eqn:Hc; [|discriminate].
  destruct (delete_batch t ks) as [t1|] eqn:Hd; [|discriminate]. intros [= <-].
  rewrite (delete_batch_lookup _ _ _ raw Hd). apply collect_keys_view in Hc. subst ks.
  unfold in_key_range. case_bool_decide as Hin.
  - apply list_elem_of_fmap in Hin as ([k v] & -> & Hin). apply elem_of_range_entries in Hin as (_ & Hs & He).
    cbn. unfold bytes_le, bytes_lt in *. by rewrite Hs, He.
  - case_if; [|done]. apply andb_true_iff in E as [Hs He].
    destruct (tree_view t !! raw) as [v|] eqn:Hv; [|done]. exfalso. apply Hin.
    apply list_elem_of_fmap. exists (raw, v). split; [done|]. by apply elem_of_range_entries.
Qed.

Lemma delete_range_err t s e t' er : delete_range t s e = (t', Err er) -> t' = t.
Proof.
  unfold delete_range. destruct (collect_keys t s e); [|by intros [= <-]].
  destruct (delete_batch t a); [discriminate|by intros [= <-]].
Qed.

(** Writing one entry. *)
Lemma LogRep_insert v (a : alog M V) e b :
  (li_index (en_log_id e) <= u64_max)%N -> encode e = Ok b -> LogRep shard_id v a ->
  LogRep shard_id (<[raft_log_entry shard_id (li_index (en_log_id e)) := b]> v)
    (alog_step a (LAppend [e])).
Proof.
  intros Hi He [Hk Hent Hidx Hp Hv Hc]. set (i := li_index (en_log_id e)) in *.
  change (raft_log_entry shard_id i) with (key_bytes (KLog shard_id i)).
  pose proof (klog_wf i Hi) as Hwf.
  split; cbn [alog_step al_entries al_purged al_vote al_committed foldl].
  - by apply keys_wf_insert.
  - intros j Hj. unfold insert_entry. fold i. destruct (decide (i = j)) as [<-|Hne].
    + rewrite lookup_insert_eq. by apply stored_insert.
    + rewrite lookup_insert_ne by done. apply stored_insert_ne; [by apply klog_wf|done|congruence|auto].
  - intros j e'. unfold insert_entry. intros [[<- <-]|[_ Hj]]%lookup_insert_Some; [done|auto].
  - apply stored_insert_ne; [by split|done|discriminate|done].
  - apply stored_insert_ne; [by split|done|discriminate|done].
  - apply stored_insert_ne; [by split|done|discriminate|done].
Qed.

Lemma frame_insert_log v i b :
  (i <= u64_max)%N -> frame shard_id v (<[raft_log_entry shard_id i := b]> v).
Proof.
  intros Hi k Hk Hout. rewrite lookup_insert_ne; [done|].
  change (raft_log_entry shard_id i) with (key_bytes (KLog shard_id i)).
  apply key_bytes_ne; [by apply klog_wf|done|]. intros <-. cbn in Hout. by destruct Hout.
Qed.

Lemma frame_trans v1 v2 v3 : frame shard_id v1 v2 -> frame shard_id v2 v3 -> frame shard_id v1 v3.
Proof. intros H12 H23 k Hk Hout. by rewrite H23, H12. Qed.

(** Deleting the entries whose index satisfies [P]. *)
Lemma LogRep_delete v v' (a : alog M V) (P : N -> Prop) `{forall i, Decision (P i)} :
  LogRep shard_id v a ->
  (forall k, key_wf k -> (exists j, k = KLog shard_id j /\ P j) -> v' !! key_bytes k = None) ->
  (forall k, key_wf k -> ~ (exists j, k = KLog shard_id j /\ P j) ->
     v' !! key_bytes k = v !! key_bytes k) ->
  (forall raw, is_Some (v' !! raw) -> is_Some (v !! raw)) ->
  LogRep shard_id v'
    (mkAlog (filter (fun ie => ~ P ie.1) (al_entries a)) (al_purged a) (al_vote a) (al_committed a)) /\
  frame shard_id v v'.
Proof.
  intros [Hk Hent Hidx Hp Hv Hc] Hin Hout Hsub.
  assert (Hother : forall k, key_wf k -> (forall j, k <> KLog shard_id j) ->
            v' !! key_bytes k = v !! key_bytes k).
  { intros k Hwf Hne. apply Hout; [done|]. intros (j & -> & _). by apply (Hne j). }
  split; [split|]; cbn [al_entries al_purged al_vote al_committed].
  - by eapply keys_wf_subset.
  - intros i Hi. destruct (decide (P i)) as [HP|HP].
    + rewrite (proj2 (map_lookup_filter_None _ _ _)); [|right; cbn; intros ? _ HnP; done].
      apply (Hin (KLog shard_id i)); [by apply klog_wf|eauto].
    + eapply stored_ext; [apply (Hout (KLog shard_id i)); [by apply klog_wf|]|].
      { intros (j & [= <-] & HP'). done. }
      specialize (Hent i Hi). destruct (al_entries a !! i) as [e|] eqn:Hai.
      * rewrite (proj2 (map_lookup_filter_Some _ _ _ _)) by done. done.
      * rewrite (proj2 (map_lookup_filter_None _ _ _)) by (by left). done.
  - intros i e [Hi _]%map_lookup_filter_Some. auto.
  - eapply stored_ext; [|exact Hp]. apply Hother; [by split|discriminate].
  - eapply stored_ext; [|exact Hv]. apply Hother; [by split|discriminate].
  - eapply stored_ext; [|exact Hc]. apply Hother; [by split|discriminate].
  - intros k Hwf Hn. apply Hother; [done|]. intros j ->. cbn in Hn. by destruct Hn.
Qed.

(** Writing one of the three marks. *)
Lemma LogRep_mark v (a a' : alog M V) k b :
  key_wf k -> (forall j, k <> KLog shard_id j) -> LogRep shard_id v a ->
  al_entries a' = al_entries a ->
  stored (<[key_bytes k := b]> v) (KPurged shard_id) (Some <$> al_purged a') ->
  stored (<[key_bytes k := b]> v) (KVote shard_id) (al_vote a') ->
  stored (<[key_bytes k := b]> v) (KCommitted shard_id) (al_committed a') ->
  LogRep shard_id (<[key_bytes k := b]> v) a'.
Proof.
  intros Hwf Hne [Hk Hent Hidx Hp Hv Hc] Ha Hp' Hv' Hc'. split; try done.
  - by apply keys_wf_insert.
  - intros i Hi. rewrite Ha. apply stored_insert_ne; [by apply klog_wf|done|apply Hne|auto].
  - rewrite Ha. done.
Qed.

Lemma frame_insert_mark v k b :
  key_wf k -> key_tag k = TAG_RAFT -> key_shard k = shard_id ->
  frame shard_id v (<[key_bytes k := b]> v).
Proof.
  intros Hwf Ht Hs k' Hk' Hout. rewrite lookup_insert_ne; [done|].
  apply key_bytes_ne; [done|done|]. intros <-. by destruct Hout.
Qed.

Lemma append_refines (a : alog M V) t es t' :
  Forall (fun e => li_index (en_log_id e) <= u64_max)%N es -> LogRep shard_id (tree_view t) a ->
  log_append shard_id t es = (t', Ok tt) ->
  LogRep shard_id (tree_view t') (alog_step a (LAppend es)) /\
  frame shard_id (tree_view t) (tree_view t').
Proof.
  intros Hes Hrep. unfold log_append.
  destruct (tree_begin t) as [x|] eqn:Hb; [|discriminate]. cbn [map_err mbind result_bind].
  destruct (txn_each (append_one shard_id) x es) as [x'|] eqn:He; [|discriminate].
  cbn [map_err mbind result_bind]. destruct (txn_commit t x') as [t1|] eqn:Hc; [|discriminate].
  cbn [map_err]. intros [= <-]. rewrite (txn_commit_law _ _ _ Hc).
  apply tree_begin_law in Hb.
  assert (Hgen : forall v, LogRep shard_id (apply_txn v (txn_pending x)) a ->
    LogRep shard_id (apply_txn v (txn_pending x')) (alog_step a (LAppend es)) /\
    frame shard_id (apply_txn v (txn_pending x)) (apply_txn v (txn_pending x'))).
  { clear Hb Hc Hrep. revert x a He. induction Hes as [|e es Hi Hes IH]; intros x a He v Hrep; cbn [txn_each] in He.
    - injection He as <-. split; [by destruct a|done].
    - apply bind_Ok_inv in He as (x1 & Hone & He). apply bind_Ok_inv in Hone as (b & Henc & Hset).
      apply map_err_Ok in Henc, Hset.
      apply txn_set_law in Hset.
      destruct (IH x1 (alog_step a (LAppend [e])) He v) as [Hr Hf].
      + rewrite Hset, apply_txn_app. by apply LogRep_insert.
      + split; [exact Hr|]. eapply frame_trans; [|exact Hf].
        rewrite Hset, apply_txn_app. by apply frame_insert_log. }
  specialize (Hgen (tree_view t)). rewrite Hb in Hgen. by apply Hgen.
Qed.

Lemma in_key_range_true s e k : in_key_range s e k = true <-> bytes_le s k /\ bytes_lt k e.
Proof. unfold in_key_range. by rewrite andb_true_iff. Qed.

(** A deleted key range that covers exactly the log indices [P]. *)
Lemma delete_range_refines (a : alog M V) t s e t' (P : N -> Prop) `{forall i, Decision (P i)} :
  (forall k, key_wf k -> bytes_le s (key_bytes k) /\ bytes_lt (key_bytes k) e <->
     exists j, k = KLog shard_id j /\ P j) ->
  LogRep shard_id (tree_view t) a -> delete_range t s e = (t', Ok tt) ->
  LogRep shard_id (tree_view t')
    (mkAlog (filter (fun ie => ~ P ie.1) (al_entries a)) (al_purged a) (al_vote a) (al_committed a)) /\
  frame shard_id (tree_view t) (tree_view t').
Proof.
  intros Hreg Hrep Hd. pose proof (delete_range_view t s e t') as Hv.
  eapply LogRep_delete; [exact Hrep| | |].
  - intros k Hk Hj. apply Hreg in Hj; [|done]. rewrite (Hv _ Hd). by rewrite (proj2 (in_key_range_true _ _ _)).
  - intros k Hk Hj. rewrite (Hv _ Hd). case_if; [|done]. exfalso. apply Hj, Hreg; [done|].
    by apply in_key_range_true.
  - intros raw. rewrite (Hv _ Hd). case_if; [by intros [? ?]|done].
Qed.

Lemma truncate_refines (a : alog M V) t id t' :
  (li_index id <= u64_max)%N -> LogRep shard_id (tree_view t) a ->
  log_truncate shard_id t id = (t', Ok tt) ->
  LogRep shard_id (tree_view t') (alog_step a (LTruncate id)) /\
  frame shard_id (tree_view t) (tree_view t').
Proof.
  intros Hi Hrep Hd.
  destruct (delete_range_refines a t _ _ t' (fun j => li_index id <= j)%N
    ltac:(intros k Hk; by apply log_from_key) Hrep Hd) as [Hr Hf].
  split; [|done]. unfold alog_step.
  assert (filter (fun ie => ie.1 < li_index id)%N (al_entries a) =
          filter (fun ie => ~ (li_index id <= ie.1)%N) (al_entries a)) as ->; [|exact Hr].
  apply map_filter_ext. intros i e _. cbn. lia.
Qed.

Lemma log_all_key k : key_wf k ->
  bytes_le (raft_log_prefix shard_id) (key_bytes k) /\ bytes_lt (key_bytes k) (raft_log_upper shard_id) <->
  exists j, k = KLog shard_id j /\ (j <= u64_max)%N.
Proof.
  intros Hk. rewrite log_region_key by done. split.
  - intros [j ->]. exists j. split; [done|apply Hk].
  - intros (j & -> & _). eauto.
Qed.

Lemma purge_refines (a : alog M V) t id t' r :
  (li_index id <= u64_max)%N -> LogRep shard_id (tree_view t) a ->
  log_purge shard_id t id = (t', r) ->
  (r = Ok tt -> LogRep shard_id (tree_view t') (alog_step a (LPurge id))) /\
  (forall e, r = Err e -> t' = t \/
     LogRep shard_id (tree_view t') (mkAlog (al_entries a) (Some id) (al_vote a) (al_committed a))) /\
  frame shard_id (tree_view t) (tree_view t').
Proof.
  intros Hi Hrep. unfold log_purge.
  change (raft_last_purged shard_id) with (key_bytes (KPurged shard_id)).
  destruct (save_value t (key_bytes (KPurged shard_id)) (Some id) ErrWrite) as [t1 [[]|e]] eqn:Hs.
  2: { intros [= <- <-]. apply save_value_err in Hs as ->. split_ands; [discriminate|by left|done]. }
  apply save_value_view in Hs as (b & Hb & Hv1).
  set (a1 := mkAlog (al_entries a) (Some id) (al_vote a) (al_committed a) : alog M V).
  assert (Hrep1 : LogRep shard_id (tree_view t1) a1).
  { rewrite Hv1. eapply LogRep_mark; [by split|discriminate|exact Hrep|done|by apply stored_insert|..];
      apply stored_insert_ne; try (by split); try discriminate; apply Hrep. }
  assert (Hf1 : frame shard_id (tree_view t) (tree_view t1))
    by (rewrite Hv1; by apply frame_insert_mark).
  intros Hd. destruct r as [[]|e].
  2: { apply delete_range_err in Hd as ->. split_ands; [discriminate|intros ? _; by right|done]. }
  assert (Hgoal : LogRep shard_id (tree_view t')
      (mkAlog (filter (fun ie => ~ (ie.1 <= li_index id)%N) (al_entries a1)) (al_purged a1) (al_vote a1)
         (al_committed a1)) /\ frame shard_id (tree_view t1) (tree_view t')).
  { destruct (checked_add_u64 (li_index id) 1) as [next|] eqn:Hn.
    - apply checked_add_u64_Some in Hn as [-> Hle].
      refine (delete_range_refines a1 t1 _ _ t' (fun j => j <= li_index id)%N _ Hrep1 Hd).
      intros k Hk. rewrite log_below_key by (done || lia).
      split; intros (j & -> & Hj); exists j; (split; [done|lia]).
    - apply checked_add_u64_None in Hn.
      refine (delete_range_refines a1 t1 _ _ t' (fun j => j <= li_index id)%N _ Hrep1 Hd).
      intros k Hk. rewrite log_all_key by done.
      split; intros (j & -> & Hj); exists j; (split; [done|]); [lia|]. etrans; [exact Hj|lia]. }
  destruct Hgoal as [Hr Hf2]. split_ands; [|discriminate|by eapply frame_trans].
  intros _. unfold alog_step.
  assert (filter (fun ie => li_index id < ie.1)%N (al_entries a) =
          filter (fun ie => ~ (ie.1 <= li_index id)%N) (al_entries a)) as ->; [|exact Hr].
  apply map_filter_ext. intros i e _. cbn. lia.
Qed.

(** ** Lemmas: reading *)

Definition entry_bytes (e : Entry M) : Bytes := match encode e with Ok b => b | Err _ => [] end.

(** A key range that covers exactly the log indices [P] lists their entries by
    index. *)
Lemma scan_log (v : gmap Bytes Bytes) (a : alog M V) s e (P : N -> Prop) `{forall i, Decision (P i)} :
  LogRep shard_id v a ->
  (forall k, key_wf k -> bytes_le s (key_bytes k) /\ bytes_lt (key_bytes k) e <->
     exists j, k = KLog shard_id j /\ P j) ->
  range_entries v s e =
  map (fun ie => (raft_log_entry shard_id ie.1, entry_bytes ie.2))
    (btree_iter (filter (fun ie => P ie.1) (al_entries a))).
Proof.
  intros Hrep Hreg. apply range_entries_unique.
  - eapply StronglySorted_map; [|apply btree_iter_sorted]. intros [i1 e1] [i2 e2] H1' H2' Hlt. cbn [fst snd] in *.
    apply elem_of_btree_iter, map_lookup_filter_Some in H1' as [H1' _], H2' as [H2' _].
    apply (lr_index _ _ _ Hrep) in H1' as [H1' _], H2' as [H2' _].
    apply bytes_lt_cmp. rewrite log_entry_cmp by done. by apply N.compare_lt_iff.
  - intros raw b. rewrite list_elem_of_fmap. split.
    + intros ([i en] & [= -> ->] & Hin).
      apply elem_of_btree_iter, map_lookup_filter_Some in Hin as [Hin HP]. cbn [fst snd] in HP |- *.
      destruct (lr_index _ _ _ Hrep _ _ Hin) as [Hi _].
      pose proof (lr_entries _ _ _ Hrep i Hi) as Hst. rewrite Hin in Hst.
      destruct Hst as (b & Hb & Hv). unfold entry_bytes. rewrite Hb. split; [exact Hv|].
      apply (Hreg (KLog shard_id i)); [by apply klog_wf|eauto].
    + intros (Hv & Hr). destruct (lr_keys _ _ _ Hrep raw) as (k & Hk & ->); [eauto|].
      apply Hreg in Hr as (j & -> & HP); [|done].
      pose proof (lr_entries _ _ _ Hrep j (proj2 Hk)) as Hst.
      destruct (al_entries a !! j) as [en|] eqn:Hj; [|unfold stored in Hst; congruence].
      destruct Hst as (b' & Hb' & Hv'). exists (j, en). split.
      * cbn [fst snd]. unfold entry_bytes. rewrite Hb'. cbn [key_bytes] in *. congruence.
      * apply elem_of_btree_iter, map_lookup_filter_Some. done.
Qed.

Lemma decode_entry_bytes (v : gmap Bytes Bytes) (a : alog M V) i e :
  LogRep shard_id v a -> al_entries a !! i = Some e -> decode (entry_bytes e) = Ok e.
Proof.
  intros Hrep Hi. destruct (lr_index _ _ _ Hrep _ _ Hi) as [Hle _].
  pose proof (lr_entries _ _ _ Hrep i Hle) as Hst. rewrite Hi in Hst. destruct Hst as (b & Hb & _).
  unfold entry_bytes. rewrite Hb. by apply decode_encode_strict.
Qed.

Lemma log_between_key a b k :
  (a <= u64_max)%N -> (b <= u64_max)%N -> key_wf k ->
  bytes_le (raft_log_entry shard_id a) (key_bytes k) /\
  bytes_lt (key_bytes k) (raft_log_entry shard_id b) <->
  exists j, k = KLog shard_id j /\ (a <= j < b)%N.
Proof.
  intros Ha Hb Hk. split.
  - intros [Hle Hlt].
    destruct (proj1 (log_below_key shard_id b k Hshard Hb Hk)) as (j & -> & Hj).
    { split; [|done]. etrans; [apply log_prefix_le|exact Hle]. }
    exists j. split; [done|]. split; [|done].
    destruct (proj1 (log_from_key shard_id a _ Hshard Ha Hk)) as (j' & [= <-] & Hj'); [|done].
    split; [done|]. apply log_entry_upper; [done|apply Hk].
  - intros (j & -> & Hj). split; [eapply log_from_key|eapply log_below_key]; try done;
      exists j; (split; [done|lia]).
Qed.

Definition bound_wf (b : Bound) : Prop :=
  match b with Included i | Excluded i => (i <= u64_max)%N | Unbounded => True end.

(** The byte range of an index range is exact, also at [u64::MAX]. *)
Lemma log_range_keys_exact lo hi :
  bound_wf lo -> bound_wf hi ->
  match log_range_keys shard_id lo hi with
  | Some (s, e) => forall k, key_wf k -> bytes_le s (key_bytes k) /\ bytes_lt (key_bytes k) e <->
      exists j, k = KLog shard_id j /\ in_bounds lo hi j
  | None => forall j, (j <= u64_max)%N -> ~ in_bounds lo hi j
  end.
Proof.
  intros Hlo Hhi. unfold log_range_keys, in_bounds.
  assert (Hstart : match (match lo with Included i => Some i | Excluded i => checked_add_u64 i 1
                          | Unbounded => Some 0%N end) with
    | Some s => (s <= u64_max)%N /\ forall j, (match lo with Included l => l <= j | Excluded l => l < j
                          | Unbounded => True end)%N <-> (s <= j)%N
    | None => forall j, (j <= u64_max)%N -> ~ (match lo with Included l => l <= j | Excluded l => l < j
                          | Unbounded => True end)%N
    end).
  { destruct lo as [i|i|]; cbn in Hlo; [done| |split; [done|split; [lia|done]]].
    destruct (checked_add_u64 i 1) as [s|] eqn:Hs.
    - apply checked_add_u64_Some in Hs as [-> Hs]. split; [done|lia].
    - apply checked_add_u64_None in Hs. intros j Hj. lia. }
  destruct (match lo with Included i => _ | Excluded i => _ | Unbounded => _ end) as [s|];
    cbn [mbind option_bind]; [|intros j Hj [H' _]; by apply (Hstart j)].
  destruct Hstart as [Hs Hst]. destruct hi as [i|i|]; cbn in Hhi.
  - case_if; bool_facts; cbn [mbind option_bind]; [intros j Hj [H1' H2']; apply Hst in H1'; lia|].
    destruct (checked_add_u64 i 1) as [n|] eqn:Hn; intros k Hk.
    + apply checked_add_u64_Some in Hn as [-> Hn]. rewrite log_between_key by done.
      split; intros (j & -> & Hj); exists j; (split; [done|]); rewrite Hst in *; lia.
    + apply checked_add_u64_None in Hn. rewrite log_from_key by done.
      split; intros (j & -> & Hj); exists j; (split; [done|]); rewrite Hst in *; [|tauto].
      split; [done|]. etrans; [apply Hk|lia].
  - case_if; bool_facts; cbn [mbind option_bind]; [intros j Hj [H1' H2']; apply Hst in H1'; lia|].
    intros k Hk. rewrite log_between_key by done.
    split; intros (j & -> & Hj); exists j; (split; [done|]); rewrite Hst in *; lia.
  - cbn [mbind option_bind]. intros k Hk. rewrite log_from_key by done.
    split; intros (j & -> & Hj); exists j; (split; [done|]); rewrite Hst in *; tauto.
Qed.

Lemma decode_scan (v : gmap Bytes Bytes) (a : alog M V) (l : list (N * Entry M)) err :
  LogRep shard_id v a -> (forall ie, ie ∈ l -> al_entries a !! ie.1 = Some ie.2) ->
  result_mapM (fun kv : Bytes * Bytes => map_err err (@decode (Entry M) _ kv.2))
    (map (fun ie => (raft_log_entry shard_id ie.1, entry_bytes ie.2)) l) = (Ok l.*2 : Result _).
Proof.
  intros Hrep. induction l as [|[i e] l IH]; intros Hl; [done|]. cbn [map result_mapM fst snd].
  rewrite (decode_entry_bytes v a i e Hrep) by (apply (Hl (i, e)); set_solver).
  cbn [map_err mbind result_bind]. rewrite IH by (intros ie Hie; apply Hl; set_solver). done.
Qed.

Lemma scan_is_range t x s e (l : list (Bytes * Bytes)) :
  storage_err "begin" (tree_begin t) = Ok x -> bytes_lt s e ->
  map_err Storage (txn_scan x s e) = Ok l -> l = range_entries (tree_view t) s e.
Proof.
  intros Hb Hlt Hs. apply storage_err_Ok in Hb. apply map_err_Ok in Hs. by eapply txn_scan_law.
Qed.

Lemma read_log_entries_range (a : alog M V) t lo hi l :
  bound_wf lo -> bound_wf hi -> LogRep shard_id (tree_view t) a ->
  read_log_entries shard_id t lo hi = Ok l -> l = alog_range a lo hi.
Proof.
  intros Hlo Hhi Hrep. unfold read_log_entries, alog_range.
  pose proof (log_range_keys_exact lo hi Hlo Hhi) as Hex.
  destruct (log_range_keys shard_id lo hi) as [[s e]|].
  - pose proof (scan_log _ a s e (in_bounds lo hi) Hrep Hex) as Hscan. case_if.
    + intros [= <-]. rewrite range_entries_empty in Hscan by done.
      destruct (btree_iter (filter (fun ie => in_bounds lo hi ie.1) (al_entries a))) eqn:Hi; [|done].
      unfold btree_values. by rewrite Hi.
    + intros Hr. apply bind_Ok_inv in Hr as (x & Hb & Hr). apply bind_Ok_inv in Hr as (kvs & Hs & Hr).
      apply (scan_is_range _ _ _ _ _ Hb) in Hs;
        [|apply bytes_lt_nle; intros Hle; unfold bytes_le in Hle; congruence].
      rewrite Hs, Hscan, (decode_scan (tree_view t) a) in Hr; [by injection Hr as <-|done|].
      intros [i en] Hin. by apply elem_of_btree_iter, map_lookup_filter_Some in Hin as [? _].
  - intros [= <-]. rewrite (proj2 (map_empty_filter _ _)); [done|]. intros i e Hi Hb.
    destruct (lr_index _ _ _ Hrep i e Hi) as [Hle _]. by apply (Hex i Hle).
Qed.

Lemma read_last_purged_spec (a : alog M V) t o :
  LogRep shard_id (tree_view t) a -> read_last_purged shard_id t = Ok o -> o = al_purged a.
Proof.
  intros Hrep Hp. unfold read_last_purged in Hp.
  apply bind_Ok_inv in Hp as (ob & Hob%storage_get_view & Hp).
  change (raft_last_purged shard_id) with (key_bytes (KPurged shard_id)) in Hob.
  pose proof (lr_purged _ _ _ Hrep) as Hst. destruct ob as [bs|]; symmetry in Hob.
  - destruct (stored_decode _ _ _ _ Hst Hob) as (ol & Hol & Hdec). rewrite Hdec in Hp.
    cbn [map_err mbind result_bind] in Hp. destruct (al_purged a) as [id|]; [|discriminate].
    injection Hol as <-. by injection Hp as <-.
  - apply stored_None in Hst; [|done]. destruct (al_purged a); [discriminate|by injection Hp as <-].
Qed.

Lemma log_prefix_lt_upper : bytes_lt (raft_log_prefix shard_id) (raft_log_upper shard_id).
Proof. eapply bytes_le_lt_trans; [apply (log_prefix_le _ 0)|by apply log_entry_upper]. Qed.

Lemma read_last_log_id_spec (a : alog M V) t o :
  LogRep shard_id (tree_view t) a -> @read_last_log_id M _ _ shard_id t = Ok o ->
  o = en_log_id <$> last (btree_values (al_entries a)).
Proof.
  intros Hrep Ho. unfold read_last_log_id in Ho. apply bind_Ok_inv in Ho as (x & Hb & Ho).
  apply bind_Ok_inv in Ho as (kvs & Hs & Ho).
  apply (scan_is_range _ _ _ _ _ Hb log_prefix_lt_upper) in Hs.
  rewrite (scan_log _ a _ _ (fun j => j <= u64_max)%N Hrep log_all_key) in Hs.
  assert (Hall : filter (fun ie => ie.1 <= u64_max)%N (al_entries a) = al_entries a).
  { apply map_filter_id. intros i e Hi. by apply (lr_index _ _ _ Hrep) in Hi as [? _]. }
  rewrite Hall in Hs. subst kvs. unfold btree_values. rewrite fmap_last.
  assert (Hl : last (map (fun ie => (raft_log_entry shard_id ie.1, entry_bytes ie.2))
                 (btree_iter (al_entries a))) =
               (fun ie => (raft_log_entry shard_id ie.1, entry_bytes ie.2)) <$> last (btree_iter (al_entries a)))
    by apply fmap_last.
  rewrite Hl in Ho. destruct (last (btree_iter (al_entries a))) as [[i e]|] eqn:Hlast.
  - cbn [fmap option_fmap option_map fst snd] in Ho |- *.
    rewrite (decode_entry_bytes _ a i e Hrep) in Ho; [by injection Ho as <-|].
    apply last_Some_elem_of in Hlast. by apply elem_of_btree_iter.
  - by injection Ho as <-.
Qed.

Lemma get_log_state_spec (a : alog M V) t st :
  LogRep shard_id (tree_view t) a -> @get_log_state M _ _ _ shard_id t = Ok st -> st = alog_state a.
Proof.
  intros Hrep Hg. unfold get_log_state, read_logs_err in Hg.
  apply bind_Ok_inv in Hg as (p & Hp%map_err_Ok & Hg). apply bind_Ok_inv in Hg as (o & Ho%map_err_Ok & Hg).
  injection Hg as <-. apply (read_last_purged_spec a) in Hp as ->; [|done].
  apply (read_last_log_id_spec a) in Ho as ->; [|done]. unfold alog_state. by destruct (last _).
Qed.

Lemma read_vote_spec (a : alog M V) t o :
  LogRep shard_id (tree_view t) a -> read_vote shard_id t = Ok o -> o = al_vote a.
Proof.
  intros Hrep Hp. unfold read_vote in Hp.
  apply bind_Ok_inv in Hp as (ob & Hob%map_err_Ok%storage_get_view & Hp).
  change (raft_vote shard_id) with (key_bytes (KVote shard_id)) in Hob.
  pose proof (lr_vote _ _ _ Hrep) as Hst. destruct ob as [bs|]; symmetry in Hob.
  - destruct (stored_decode _ _ _ _ Hst Hob) as (vt & -> & Hdec). rewrite Hdec in Hp. by injection Hp as <-.
  - apply stored_None in Hst; [|done]. rewrite Hst. by injection Hp as <-.
Qed.

Lemma log_step_refines (a : alog M V) t op t' :
  log_op_wf op -> LogRep shard_id (tree_view t) a -> log_step shard_id t op = (t', Ok tt) ->
  LogRep shard_id (tree_view t') (alog_step a op) /\ frame shard_id (tree_view t) (tree_view t').
Proof.
  intros Hop Hrep. destruct op as [es|id|id|vote|c]; cbn [log_step log_op_wf] in *.
  - by apply append_refines.
  - by apply truncate_refines.
  - intros Hp. destruct (purge_refines a t id t' _ Hop Hrep Hp) as (Hr & _ & Hf). auto.
  - intros Hs. unfold save_vote in Hs.
    change (raft_vote shard_id) with (key_bytes (KVote shard_id)) in Hs.
    apply save_value_view in Hs as (b & Hb & ->). split; [|by apply frame_insert_mark].
    eapply LogRep_mark; [by split|discriminate|exact Hrep|done|..|apply stored_insert_ne];
      try (by apply stored_insert); try (apply stored_insert_ne); try (by split); try discriminate; apply Hrep.
  - intros Hs. unfold save_committed in Hs.
    change (raft_committed shard_id) with (key_bytes (KCommitted shard_id)) in Hs.
    apply save_value_view in Hs as (b & Hb & ->). split; [|by apply frame_insert_mark].
    eapply LogRep_mark; [by split|discriminate|exact Hrep|done|..];
      try (by apply stored_insert); try (apply stored_insert_ne); try (by split); try discriminate; apply Hrep.
Qed.

Lemma log_step_fails (a : alog M V) t op t' e :
  log_op_wf op -> LogRep shard_id (tree_view t) a -> log_step shard_id t op = (t', Err e) ->
  t' = t \/ exists id, op = LPurge id /\
    LogRep shard_id (tree_view t') (mkAlog (al_entries a) (Some id) (al_vote a) (al_committed a)).
Proof.
  intros Hop Hrep. destruct op as [es|id|id|vote|c]; cbn [log_step log_op_wf] in *.
  - unfold log_append. case_match; [discriminate|]. intros [= <-]. by left.
  - intros Hd%delete_range_err. by left.
  - intros Hp. destruct (purge_refines a t id t' _ Hop Hrep Hp) as (_ & Hr & _).
    destruct (Hr e eq_refl); [by left|right; eauto].
  - intros Hs%save_value_err. by left.
  - intros Hs%save_value_err. by left.
Qed.

(** ** Lemmas: on a healthy tree nothing fails *)

Section Healthy.
Context `{!TreeHealthy} `{!CodecTotal (Entry M)} `{!CodecTotal (option LogId)} `{!CodecTotal V}.

Lemma begin_scan_healthy t s e :
  exists x l, storage_err "begin" (tree_begin t) = Ok x /\ map_err Storage (txn_scan x s e) = Ok l.
Proof.
  destruct (tree_begin_ok t) as [x Hx], (txn_scan_ok x s e) as [l Hl]. exists x, l.
  unfold storage_err. rewrite Hx. cbn. by rewrite Hl.
Qed.

Lemma read_log_entries_healthy (a : alog M V) t lo hi :
  bound_wf lo -> bound_wf hi -> LogRep shard_id (tree_view t) a ->
  read_log_entries shard_id t lo hi = Ok (alog_range a lo hi).
Proof.
  intros Hlo Hhi Hrep.
  assert (Hok : exists l, read_log_entries shard_id t lo hi = (Ok l : Result (list (Entry M)))).
  { unfold read_log_entries. pose proof (log_range_keys_exact lo hi Hlo Hhi) as Hex.
    destruct (log_range_keys shard_id lo hi) as [[s e]|]; [|eauto]. case_if; [eauto|].
    destruct (begin_scan_healthy t s e) as (x & l & Hx & Hl). rewrite Hx. cbn [mbind result_bind].
    rewrite Hl. cbn [mbind result_bind].
    apply (scan_is_range _ _ _ _ _ Hx) in Hl;
      [|apply bytes_lt_nle; intros Hle; unfold bytes_le in Hle; congruence].
    rewrite Hl, (scan_log _ a s e (in_bounds lo hi) Hrep Hex), (decode_scan (tree_view t) a); [eauto|done|].
    intros [i en] Hin. by apply elem_of_btree_iter, map_lookup_filter_Some in Hin as [? _]. }
  destruct Hok as [l Hl]. rewrite Hl. f_equal. by eapply read_log_entries_range.
Qed.

Lemma get_log_state_healthy (a : alog M V) t :
  LogRep shard_id (tree_view t) a -> @get_log_state M _ _ _ shard_id t = Ok (alog_state a).
Proof.
  intros Hrep. assert (Hok : exists st, @get_log_state M _ _ _ shard_id t = Ok st).
  { unfold get_log_state.
    assert (Hp : exists o, read_last_purged shard_id t = Ok o).
    { unfold read_last_purged. rewrite storage_get_healthy. cbn [mbind result_bind].
      change (raft_last_purged shard_id) with (key_bytes (KPurged shard_id)).
      pose proof (lr_purged _ _ _ Hrep) as Hst.
      destruct (tree_view t !! key_bytes (KPurged shard_id)) as [bs|] eqn:Hbs; [|eauto].
      destruct (stored_decode _ _ _ _ Hst Hbs) as (ol & Hol & ->). cbn [map_err mbind result_bind].
      destruct (al_purged a); [injection Hol as <-; eauto|discriminate]. }
    destruct Hp as [o ->]. cbn [read_logs_err map_err mbind result_bind].
    assert (Hl : exists o', @read_last_log_id M _ _ shard_id t = Ok o').
    { unfold read_last_log_id.
      destruct (begin_scan_healthy t (raft_log_prefix shard_id) (raft_log_upper shard_id)) as (x & l & Hx & Hl).
      rewrite Hx. cbn [mbind result_bind]. rewrite Hl. cbn [mbind result_bind].
      apply (scan_is_range _ _ _ _ _ Hx log_prefix_lt_upper) in Hl.
      rewrite (scan_log _ a _ _ (fun j => j <= u64_max)%N Hrep log_all_key) in Hl.
      destruct (last l) as [[k v]|] eqn:Hlast; [|eauto]. subst l. apply last_Some_elem_of in Hlast.
      apply list_elem_of_fmap in Hlast as ([i en] & [= -> ->] & Hin).
      apply elem_of_btree_iter, map_lookup_filter_Some in Hin as [Hin _]. cbn [fst snd].
      rewrite (decode_entry_bytes _ a i en Hrep Hin). cbn. eauto. }
    destruct Hl as [o' ->]. cbn. eauto. }
  destruct Hok as [st Hst]. rewrite Hst. f_equal. by eapply get_log_state_spec.
Qed.

Lemma save_value_healthy {A} `{CodecTotal A} t k (v : A) err :
  exists t', save_value t k v err = (t', Ok tt).
Proof.
  destruct (bincode_encode_ok v) as [b Hb], (storage_set_healthy t k b) as [t' Ht]. exists t'.
  unfold save_value, encode. by rewrite Hb, Ht.
Qed.

Lemma delete_range_healthy t s e : exists t', delete_range t s e = (t', Ok tt).
Proof.
  unfold delete_range. rewrite collect_keys_healthy.
  destruct (delete_batch_healthy t (range_entries (tree_view t) s e).*1) as [t' ->]. eauto.
Qed.

Lemma append_one_healthy x (e : Entry M) : exists x', append_one shard_id x e = Ok x'.
Proof.
  unfold append_one, encode. destruct (bincode_encode_ok e) as [b ->]. cbn [map_err mbind result_bind].
  destruct (txn_set_ok x (raft_log_entry shard_id (li_index (en_log_id e))) b) as [x' ->]. cbn. eauto.
Qed.

Lemma log_step_healthy t op : exists t', log_step (M := M) (V := V) shard_id t op = (t', Ok tt).
Proof.
  destruct op as [es|id|id|vote|c]; cbn [log_step].
  - unfold log_append. destruct (tree_begin_ok t) as [x ->]. cbn [map_err mbind result_bind].
    assert (He : exists x', txn_each (append_one shard_id) x es = Ok x').
    { clear t. revert x. induction es as [|e es IH]; intros x; [eauto|]. cbn [txn_each].
      destruct (append_one_healthy x e) as [x' ->]. cbn [mbind result_bind]. apply IH. }
    destruct He as [x' ->]. cbn [map_err mbind result_bind].
    destruct (txn_commit_ok t x') as [t' ->]. eauto.
  - apply delete_range_healthy.
  - unfold log_purge.
    destruct (save_value_healthy t (raft_last_purged shard_id) (Some id) ErrWrite) as [t1 ->].
    apply delete_range_healthy.
  - apply save_value_healthy.
  - apply save_value_healthy.
Qed.

End Healthy.

(** ** Properties *)

(** C7: the log storage refines openraft's log. On a tree that represents an
    abstract log, an operation that succeeds (append, truncate, purge, saving
    the vote or the committed mark) leaves a tree that represents the log after
    the same operation on the abstract map, and changes no key outside the Raft
    region of its shard: no business data, no other shard. On a healthy tree
    with a total codec every operation succeeds. *)
Theorem log_ops_refine (a : alog M V) (t t' : tree) (op : LogOp M V)
  (Hop : log_op_wf op) (Hrep : LogRep shard_id (tree_view t) a)
  (Hstep : log_step shard_id t op = (t', Ok tt)) :
  LogRep shard_id (tree_view t') (alog_step a op) /\
  (forall k, key_wf k -> key_tag k <> TAG_RAFT \/ key_shard k <> shard_id ->
     tree_view t' !! key_bytes k = tree_view t !! key_bytes k) /\
  (TreeHealthy -> CodecTotal (Entry M) -> CodecTotal (option LogId) -> CodecTotal V ->
   forall t0 op0, exists t1, log_step (M := M) (V := V) shard_id t0 op0 = (t1, Ok tt)).
Proof.
  destruct (log_step_refines a t op t' Hop Hrep Hstep) as [Hr Hf].
  split_ands; [done|exact Hf|]. intros. by apply log_step_healthy.
Qed.

(** A failed log operation is safe to retry: it has changed nothing, except
    that a purge may already have recorded its mark; entries are never gone
    without the purge mark that accounts for them. *)
Theorem log_ops_fail_safe (a : alog M V) (t t' : tree) (op : LogOp M V) (e : StorageError)
  (Hop : log_op_wf op) (Hrep : LogRep shard_id (tree_view t) a)
  (Hstep : log_step shard_id t op = (t', Err e)) :
  t' = t \/ exists id, op = LPurge id /\
    LogRep shard_id (tree_view t') (mkAlog (al_entries a) (Some id) (al_vote a) (al_committed a)).
Proof. by eapply log_step_fails. Qed.

(** Log reads are exact. Any answer of [try_get_log_entries] is precisely
    the entries of the index range (inclusive, exclusive or open at either end,
    up to index 2^64-1) in ascending order; any log state is the purged mark and
    the last entry, or the purged mark again when the log is empty; any vote is
    the last saved one. On a healthy tree the first two are always answered. *)
Theorem log_reads_exact (a : alog M V) (t : tree) (lo hi : Bound)
  (Hlo : bound_wf lo) (Hhi : bound_wf hi) (Hrep : LogRep shard_id (tree_view t) a) :
  (forall l, try_get_log_entries shard_id t lo hi = Ok l -> l = alog_range a lo hi) /\
  (forall st, @get_log_state M _ _ _ shard_id t = Ok st -> st = alog_state a) /\
  (forall o, read_vote shard_id t = Ok o -> o = al_vote a) /\
  (TreeHealthy ->
   try_get_log_entries shard_id t lo hi = Ok (alog_range a lo hi) /\
   @get_log_state M _ _ _ shard_id t = Ok (alog_state a)).
Proof.
  split_ands.
  - intros l Hl%map_err_Ok. by eapply read_log_entries_range.
  - intros st. by apply get_log_state_spec.
  - intros o. by apply read_vote_spec.
  - intros Hh. split; [|by apply get_log_state_healthy].
    unfold try_get_log_entries. by rewrite (read_log_entries_healthy a).
Qed.

End Ops.

(** ** Witnesses *)

#[export] Instance LogId_countable : Countable LogId.
Proof.
  by refine (inj_countable' (fun l => (li_term l, li_node l, li_index l))
               (fun '(t, n, i) => mkLogId t n i) _); intros [].
Defined.

(** Entries without requests are enough for a log: blank and membership. *)
Definition demo_payload_code (p : EntryPayload N) : option (option N) :=
  match p with Blank => Some None | MembershipChange m => Some (Some m) | Normal _ => None end.

Definition demo_entry_codec : Codec (Entry N) := {|
  bincode_encode := fun e =>
    match demo_payload_code (en_payload e) with
    | Some c => Ok (positive_bytes (countable.encode (en_log_id e, c)))
    | None => Err "unsupported"
    end;
  bincode_decode := fun b =>
    match positive_read b with
    | None => Err "UnexpectedEnd"
    | Some (p, n) =>
        match @countable.decode (LogId * option N) _ _ p with
        | Some (l, None) => Ok (mkEntry l Blank, n)
        | Some (l, Some m) => Ok (mkEntry l (MembershipChange m), n)
        | None => Err "InvalidValue"
        end
    end
|}.

Lemma demo_entry_codec_laws : @CodecLaws (Entry N) demo_entry_codec.
Proof.
  intros [l p] b rest. cbn. destruct p as [|r|m]; cbn; intros [= <-];
    rewrite positive_read_bytes, decode_encode; done.
Qed.

Definition demo_alog : alog N N := mkAlog ∅ None None None.

Lemma demo_log_rep :
  @LogRep N N demo_entry_codec (countable_codec (option LogId)) (countable_codec N) 1 ∅ demo_alog.
Proof.
  split; try done.
  - intros raw [x Hx]. by rewrite lookup_empty in Hx.
Qed.

Definition demo_log_step :=
  @log_step N N mem_tree demo_entry_codec (countable_codec (option LogId)) (countable_codec N) 1 ∅.

Definition demo_append : LogOp N N := LAppend [mkEntry (mkLogId 1 1 5) Blank; mkEntry (mkLogId 1 1 6) Blank].

Lemma log_ops_refine_witness :
  @LogRep N N demo_entry_codec (countable_codec (option LogId)) (countable_codec N) 1
    (demo_log_step demo_append).1 (alog_step demo_alog demo_append).
Proof.
  refine (proj1 (@log_ops_refine N N mem_tree mem_tree_laws demo_entry_codec
    (countable_codec (option LogId)) (countable_codec N)
    1 _ demo_alog ∅ _ demo_append _ demo_log_rep _)).
  - lia.
  - repeat constructor; cbn; lia.
  - reflexivity.
Defined.

(** A request the codec refuses: the append fails and leaves the tree. *)
Definition demo_bad_append : LogOp N N :=
  LAppend [mkEntry (mkLogId 1 1 5) (Normal (InstallAggregatePartitionFence demo_type 3 1))].

Lemma log_ops_fail_safe_witness :
  (demo_log_step demo_bad_append).1 = ∅ \/
  exists id, demo_bad_append = LPurge id /\
    @LogRep N N demo_entry_codec (countable_codec (option LogId)) (countable_codec N) 1
      (demo_log_step demo_bad_append).1 (mkAlog ∅ (Some id) None None).
Proof.
  refine (@log_ops_fail_safe N N mem_tree mem_tree_laws demo_entry_codec
    (countable_codec (option LogId)) (countable_codec N)
    1 _ demo_alog ∅ _ demo_bad_append (ErrWriteLogEntry (mkLogId 1 1 5) "unsupported") _ demo_log_rep _).
  - lia.
  - repeat constructor; cbn; lia.
  - reflexivity.
Defined.

Lemma log_reads_exact_witness :
  @try_get_log_entries N mem_tree demo_entry_codec 1 (demo_log_step demo_append).1 (Included 6) Unbounded
    = Ok (alog_range (alog_step demo_alog demo_append) (Included 6) Unbounded).
Proof.
  refine (proj1 (proj2 (proj2 (proj2 (@log_reads_exact N N mem_tree mem_tree_laws demo_entry_codec
    demo_entry_codec_laws (countable_codec (option LogId)) (countable_codec_laws _) (countable_codec N)
    (countable_codec_laws _) 1 _ (alog_step demo_alog demo_append) (demo_log_step demo_append).1
    (Included 6) Unbounded _ _ _))) mem_tree_healthy)).
  - lia.
  - cbn; lia.
  - exact I.
  - refine (proj1 (@log_step_refines N N mem_tree mem_tree_laws demo_entry_codec
      (countable_codec (option LogId)) (countable_codec N)
      1 _ demo_alog ∅ demo_append _ _ demo_log_rep _)).
    + lia.
    + repeat constructor; cbn; lia.
    + reflexivity.
Defined.
