(* ===== verification/StateMachine.v ===== *)
(** * es-storage: the state machine

    [es-storage/src/state_machine.rs] up to [apply]: the reads of the persisted
    state, the batch a call of [apply] builds up ([ApplyBatch]: pending writes
    and the caches that stand in for them while the batch is open), the handler
    of every request, and [apply] itself with its single commit.

    A [HashMap] of the batch is a [gmap]; the one place that iterates such a map
    ([apply] writing the partition positions back) does so over distinct keys,
    so the order does not matter. The broadcast of committed events is the list
    of events [apply] returns. *)

From S2P Require Import Prelude.
From S2P Require Import Bytes.
From S2P Require Import Core.
From S2P Require Import Aggregate.
From S2P Require Import Catalog.
From S2P Require Import GroupCatalog.
From S2P Require Import GroupPartition.
From S2P Require Import Keys.
From S2P Require Import Store.
From S2P Require Import RaftType.

(** bincode for every persisted type. *)
Class SmCodecs (M : Type) : Type := {
  c_meta :: Codec AggregateMeta;
  c_event :: Codec AggregateEvent;
  c_pointer :: Codec (string * N);
  c_state :: Codec AggregateState;
  c_hlc :: Codec Hlc;
  c_u64 :: Codec N;
  c_idem :: Codec AggregateIdempotencyRecord;
  c_catalog :: Codec AggregateCatalog;
  c_group_catalog :: Codec AggregateGroupCatalog;
  c_group_partition :: Codec AggregateGroupPartition;
  c_applied :: Codec (AppliedState M)
}.

Class SmCodecLaws (M : Type) `{SmCodecs M} : Prop := {
  cl_meta :: CodecLaws AggregateMeta;
  cl_event :: CodecLaws AggregateEvent;
  cl_pointer :: CodecLaws (string * N);
  cl_state :: CodecLaws AggregateState;
  cl_hlc :: CodecLaws Hlc;
  cl_u64 :: CodecLaws N;
  cl_idem :: CodecLaws AggregateIdempotencyRecord;
  cl_catalog :: CodecLaws AggregateCatalog;
  cl_group_catalog :: CodecLaws AggregateGroupCatalog;
  cl_group_partition :: CodecLaws AggregateGroupPartition;
  cl_applied :: CodecLaws (AppliedState M)
}.

(** Identities the batch caches are keyed by. *)
Abbreviation PartitionKey := (AggregateTypeId * N)%type.
Abbreviation InstanceKey := (AggregateTypeId * N * string)%type.
Abbreviation EventIdKey := (AggregateTypeId * N * Uuid)%type.

(** [ApplyOp::Put]. *)
Abbreviation ApplyOp := (Bytes * Bytes)%type.

Record ApplyBatch : Type := mkBatch {
  b_ops : list ApplyOp;
  b_versions : gmap InstanceKey (option N);
  b_positions : gmap PartitionKey N;
  b_states : gmap InstanceKey (option AggregateState);
  b_idempotency : gmap EventIdKey AggregateIdempotencyRecord;
  b_fences : gmap PartitionKey N;
  b_catalog : option AggregateCatalog;
  b_group_catalog : option AggregateGroupCatalog;
  b_groups : gmap InstanceKey AggregateGroupPartition;
  b_new_events : list AggregateEvent
}.

Definition batch_empty : ApplyBatch := mkBatch [] ∅ ∅ ∅ ∅ ∅ None None ∅ [].

(** Field updates of the batch. *)
Definition push_op (k v : Bytes) (b : ApplyBatch) : ApplyBatch :=
  mkBatch (b_ops b ++ [(k, v)]) (b_versions b) (b_positions b) (b_states b) (b_idempotency b)
    (b_fences b) (b_catalog b) (b_group_catalog b) (b_groups b) (b_new_events b).

Definition retain_ops (f : ApplyOp -> bool) (b : ApplyBatch) : ApplyBatch :=
  mkBatch (List.filter f (b_ops b)) (b_versions b) (b_positions b) (b_states b) (b_idempotency b)
    (b_fences b) (b_catalog b) (b_group_catalog b) (b_groups b) (b_new_events b).

Definition set_version (i : InstanceKey) (v : option N) (b : ApplyBatch) : ApplyBatch :=
  mkBatch (b_ops b) (<[i := v]> (b_versions b)) (b_positions b) (b_states b) (b_idempotency b)
    (b_fences b) (b_catalog b) (b_group_catalog b) (b_groups b) (b_new_events b).

Definition set_position (i : PartitionKey) (n : N) (b : ApplyBatch) : ApplyBatch :=
  mkBatch (b_ops b) (b_versions b) (<[i := n]> (b_positions b)) (b_states b) (b_idempotency b)
    (b_fences b) (b_catalog b) (b_group_catalog b) (b_groups b) (b_new_events b).

Definition set_state (i : InstanceKey) (s : option AggregateState) (b : ApplyBatch) : ApplyBatch :=
  mkBatch (b_ops b) (b_versions b) (b_positions b) (<[i := s]> (b_states b)) (b_idempotency b)
    (b_fences b) (b_catalog b) (b_group_catalog b) (b_groups b) (b_new_events b).

Definition set_idem (i : EventIdKey) (r : AggregateIdempotencyRecord) (b : ApplyBatch) : ApplyBatch :=
  mkBatch (b_ops b) (b_versions b) (b_positions b) (b_states b) (<[i := r]> (b_idempotency b))
    (b_fences b) (b_catalog b) (b_group_catalog b) (b_groups b) (b_new_events b).

Definition set_fence (i : PartitionKey) (g : N) (b : ApplyBatch) : ApplyBatch :=
  mkBatch (b_ops b) (b_versions b) (b_positions b) (b_states b) (b_idempotency b)
    (<[i := g]> (b_fences b)) (b_catalog b) (b_group_catalog b) (b_groups b) (b_new_events b).

Definition set_catalog (c : AggregateCatalog) (b : ApplyBatch) : ApplyBatch :=
  mkBatch (b_ops b) (b_versions b) (b_positions b) (b_states b) (b_idempotency b)
    (b_fences b) (Some c) (b_group_catalog b) (b_groups b) (b_new_events b).

Definition set_group_catalog (c : AggregateGroupCatalog) (b : ApplyBatch) : ApplyBatch :=
  mkBatch (b_ops b) (b_versions b) (b_positions b) (b_states b) (b_idempotency b)
    (b_fences b) (b_catalog b) (Some c) (b_groups b) (b_new_events b).

Definition set_group (i : InstanceKey) (g : AggregateGroupPartition) (b : ApplyBatch) : ApplyBatch :=
  mkBatch (b_ops b) (b_versions b) (b_positions b) (b_states b) (b_idempotency b)
    (b_fences b) (b_catalog b) (b_group_catalog b) (<[i := g]> (b_groups b)) (b_new_events b).

Definition push_event (e : AggregateEvent) (b : ApplyBatch) : ApplyBatch :=
  mkBatch (b_ops b) (b_versions b) (b_positions b) (b_states b) (b_idempotency b)
    (b_fences b) (b_catalog b) (b_group_catalog b) (b_groups b) (b_new_events b ++ [e]).

(** [check_expected_aggregate_version]. *)
Definition check_expected_aggregate_version (expected : ExpectedAggregateVersion)
    (current : option N) : bool :=
  match expected with
  | AnyVersion => true
  | NoAggregate => bool_decide (current = None)
  | AggregateExists => bool_decide (is_Some current)
  | ExactVersion e => bool_decide (current = Some e)
  end.

(** The test of [apply_put_aggregate_state]. *)
Definition state_matches (expected : ExpectedStateRevision) (current : option AggregateState) : bool :=
  match expected with
  | Absent => bool_decide (current = None)
  | ExactRevision e => match current with Some s => (st_revision s =? e)%N | None => false end
  end.

(** [Debug] of a byte vector. *)
Fixpoint debug_items (l : Bytes) : string :=
  match l with
  | [] => ""
  | [b] => pretty (Byte.to_N b)
  | b :: l' => pretty (Byte.to_N b) +:+ ", " +:+ debug_items l'
  end.

Definition debug_bytes (l : Bytes) : string := "[" +:+ debug_items l +:+ "]".

Section StateMachine.
Context {M : Type} `{Tree} `{Xxh3} `{SmCodecs M}.
Context (shard_id : N).

(** ** Reads *)

(** [get], and decoding what is there. *)
Definition read_value {A} `{Codec A} (t : tree) (k : Bytes) (what : string) : Result (option A) :=
  o ← storage_get t k;
  match o with
  | None => Ok None
  | Some bytes =>
      a ← map_err (fun e => Serde (what +:+ "反序列化失败: " +:+ e)) (decode bytes);
      Ok (Some a)
  end.

Definition read_aggregate_meta (t : tree) (ty : AggregateTypeId) (p : N) (id : string) :
    Result (option AggregateMeta) :=
  read_value t (sm_aggregate_meta shard_id ty p id) "AggregateMeta ".

Definition read_aggregate_event (t : tree) (ty : AggregateTypeId) (p : N) (id : string) (v : N) :
    Result (option AggregateEvent) :=
  read_value t (sm_aggregate_event shard_id ty p id v) "AggregateEvent ".

Definition read_aggregate_state (t : tree) (ty : AggregateTypeId) (p : N) (id : string) :
    Result (option AggregateState) :=
  read_value t (sm_aggregate_state shard_id ty p id) "AggregateState ".

Definition read_aggregate_partition_head (t : tree) (ty : AggregateTypeId) (p : N) : Result N :=
  o ← read_value t (sm_aggregate_next_position shard_id ty p) "聚合分区 next_position ";
  Ok (default 0%N o).

Definition read_aggregate_catalog (t : tree) : Result AggregateCatalog :=
  o ← read_value t (sm_aggregate_catalog shard_id) "AggregateCatalog ";
  Ok (default catalog_default o).

Definition read_aggregate_group_catalog (t : tree) : Result AggregateGroupCatalog :=
  o ← read_value t (sm_aggregate_group_catalog shard_id) "AggregateGroupCatalog ";
  Ok (default group_catalog_default o).

Definition read_aggregate_group_partition (t : tree) (ty : AggregateTypeId) (p : N) (name : string) :
    Result (option AggregateGroupPartition) :=
  read_value t (sm_aggregate_group_partition shard_id ty p name) "AggregateGroupPartition ".

(** [scan_values]; a limit of 0 is none. *)
Definition scan_values (t : tree) (s e : Bytes) (desc : bool) (limit : N) : Result (list Bytes) :=
  if bytes_leb e s then Ok []
  else
    x ← storage_err "begin" (tree_begin t);
    l ← map_err Storage (txn_scan x s e);
    let vs := map snd (if desc then reverse l else l) in
    Ok (if (limit =? 0)%N then vs else take (N.to_nat limit) vs).

(** [read_aggregate_partition_events]. *)
Definition read_aggregate_partition_events (t : tree) (ty : AggregateTypeId) (p from limit : N) :
    Result (list AggregateEvent) :=
  let prefix := sm_aggregate_partition_index_prefix shard_id ty p in
  let start := sm_aggregate_partition_index shard_id ty p from in
  end_ ← ok_or (Internal "聚合分区索引前缀无后继") (successor prefix);
  pointers ← scan_values t start end_ false limit;
  result_mapM (fun pointer =>
    iv ← map_err (fun e => Serde ("聚合分区索引反序列化失败: " +:+ e)) (@decode (string * N) _ pointer);
    o ← read_aggregate_event t ty p iv.1 iv.2;
    ok_or (Storage ("聚合分区索引指向缺失事件: " +:+ canonical_name ty +:+ "/" +:+ pretty p +:+ "/" +:+
                    iv.1 +:+ "/" +:+ pretty iv.2)) o) pointers.

(** [read_aggregate_state_document]: both reads in one transaction. *)
Definition read_aggregate_state_document (t : tree) (ty : AggregateTypeId) (p : N) (id : string) :
    Result (option AggregateStateDocument) :=
  x ← storage_err "begin" (tree_begin t);
  o ← map_err (fun e => Storage ("读取聚合状态失败: " +:+ e)) (txn_get x (sm_aggregate_state shard_id ty p id));
  match o with
  | None => Ok None
  | Some state_bytes =>
      st ← map_err (fun e => Serde ("AggregateState 反序列化失败: " +:+ e)) (@decode AggregateState _ state_bytes);
      m ← map_err (fun e => Storage ("读取状态修改时间失败: " +:+ e)) (txn_get x (sm_aggregate_state_modified shard_id ty p id));
      hlc ← match m with
            | None => Ok (mkHlc 0 0)
            | Some bytes => map_err (fun e => Serde ("状态修改时间反序列化失败: " +:+ e)) (decode bytes)
            end;
      Ok (Some (mkDocument (st_revision st) (st_data st) hlc))
  end.

(** [list_aggregate_partition_states]. *)
Definition list_aggregate_partition_states (t : tree) (ty : AggregateTypeId) (p : N)
    (after : option string) (limit : N) : Result (list (string * AggregateStateDocument)) :=
  let prefix := sm_aggregate_state_prefix shard_id ty p in
  let start := match after with
               | Some id => upper_including (sm_aggregate_state shard_id ty p id)
               | None => prefix
               end in
  end_ ← ok_or (Internal "聚合状态前缀无后继") (successor prefix);
  x ← storage_err "begin" (tree_begin t);
  l ← map_err Storage (txn_scan x start end_);
  result_mapM (fun kv : Bytes * Bytes =>
    id ← ok_or (Serde ("聚合状态 key 损坏: " +:+ debug_bytes kv.1)) (decode_aggregate_state_key kv.1);
    st ← map_err (fun e => Serde ("AggregateState 反序列化失败: " +:+ e)) (@decode AggregateState _ kv.2);
    m ← map_err (fun e => Storage ("读取状态修改时间失败: " +:+ e)) (txn_get x (sm_aggregate_state_modified shard_id ty p id));
    hlc ← match m with
          | None => Ok (mkHlc 0 0)
          | Some bytes => map_err (fun e => Serde ("状态修改时间反序列化失败: " +:+ e)) (decode bytes)
          end;
    Ok (id, mkDocument (st_revision st) (st_data st) hlc))
    (if (limit =? 0)%N then l else take (N.to_nat limit) l).

(** ** Cached reads of the batch *)

Definition batch_aggregate_version (t : tree) (b : ApplyBatch) (ty : AggregateTypeId) (p : N)
    (id : string) : Result (ApplyBatch * option N) :=
  match b_versions b !! (ty, p, id) with
  | Some version => Ok (b, version)
  | None =>
      m ← read_aggregate_meta t ty p id;
      let version := current_version <$> m in
      Ok (set_version (ty, p, id) version b, version)
  end.

Definition batch_aggregate_state (t : tree) (b : ApplyBatch) (ty : AggregateTypeId) (p : N)
    (id : string) : Result (ApplyBatch * option AggregateState) :=
  match b_states b !! (ty, p, id) with
  | Some st => Ok (b, st)
  | None =>
      st ← read_aggregate_state t ty p id;
      Ok (set_state (ty, p, id) st b, st)
  end.

Definition batch_aggregate_partition_position (t : tree) (b : ApplyBatch) (ty : AggregateTypeId)
    (p : N) : Result (ApplyBatch * N) :=
  match b_positions b !! (ty, p) with
  | Some position => Ok (b, position)
  | None =>
      o ← read_value t (sm_aggregate_next_position shard_id ty p) "聚合分区 next_position ";
      let position := default 0%N o in
      Ok (set_position (ty, p) position b, position)
  end.

Definition batch_aggregate_partition_fence (t : tree) (b : ApplyBatch) (ty : AggregateTypeId)
    (p : N) : Result (ApplyBatch * N) :=
  match b_fences b !! (ty, p) with
  | Some generation => Ok (b, generation)
  | None =>
      o ← read_value t (sm_aggregate_partition_fence shard_id ty p) "聚合分区 fence ";
      let generation := default 0%N o in
      Ok (set_fence (ty, p) generation b, generation)
  end.

(** The idempotency lookup of [apply_aggregate_append]. *)
Definition batch_idempotency (t : tree) (b : ApplyBatch) (ty : AggregateTypeId) (p : N)
    (event_id : Uuid) : Result (ApplyBatch * option AggregateIdempotencyRecord) :=
  match b_idempotency b !! (ty, p, event_id) with
  | Some record => Ok (b, Some record)
  | None =>
      o ← read_value t (sm_aggregate_idempotency shard_id ty p event_id) "聚合事件幂等记录";
      Ok (match o with Some record => set_idem (ty, p, event_id) record b | None => b end, o)
  end.

(** Encoding a value and pushing the write. *)
Definition put {A} `{Codec A} (k : Bytes) (v : A) (what : string) (b : ApplyBatch) :
    Result ApplyBatch :=
  bytes ← map_err (fun e => Serde (what +:+ "序列化失败: " +:+ e)) (encode v);
  Ok (push_op k bytes b).

(** ** Request handlers *)

Definition invalid (b : ApplyBatch) (e : Error) : ApplyBatch * EsResponse :=
  (b, AggregateInvalid (error_to_string e)).

Definition apply_aggregate_append (t : tree) (b : ApplyBatch) (ty : AggregateTypeId)
    (p generation : N) (id : string) (expected : ExpectedAggregateVersion)
    (event : NewAggregateEvent) (hlc : Hlc) : Result (ApplyBatch * EsResponse) :=
  match type_id_validate ty with
  | Err e => Ok (invalid b e)
  | Ok _ =>
  match validate_aggregate_identifier "aggregate_id" id with
  | Err e => Ok (invalid b e)
  | Ok _ =>
  if bool_decide (ne_event_type event = "") then Ok (b, AggregateInvalid "event_type 不能为空")
  else
    let fingerprint := aggregate_append_fingerprint ty id expected event in
    '(b, existing) ← batch_idempotency t b ty p (ne_event_id event);
    match existing with
    | Some existing =>
        if (id_fingerprint existing =? fingerprint)%N
        then Ok (b, AggregateAppendOk (ar_aggregate_version (id_result existing))
                      (ar_partition_position (id_result existing)))
        else Ok (b, AggregateIdempotencyConflict)
    | None =>
        '(b, current_fence) ← batch_aggregate_partition_fence t b ty p;
        if negb (current_fence =? generation)%N then Ok (b, AggregatePartitionFenced current_fence)
        else
          '(b, current) ← batch_aggregate_version t b ty p id;
          if negb (check_expected_aggregate_version expected current)
          then Ok (b, AggregateOptimisticConflict current)
          else
            match match current with None => Some 0%N | Some v => checked_add_u64 v 1 end with
            | None => Ok (b, AggregateInvalid "聚合版本已耗尽")
            | Some version =>
                '(b, position) ← batch_aggregate_partition_position t b ty p;
                match checked_add_u64 position 1 with
                | None => Ok (b, AggregateInvalid "分区位置已耗尽")
                | Some next_position =>
                    let stored := mkEvent ty p id version (ne_event_id event) (ne_event_type event)
                      (ne_data event) (ne_metadata event) hlc position in
                    b ← put (sm_aggregate_event shard_id ty p id version) stored "AggregateEvent " b;
                    b ← put (sm_aggregate_partition_index shard_id ty p position) (id, version)
                          "聚合分区索引" b;
                    b ← put (sm_aggregate_meta shard_id ty p id) (mkMeta version) "AggregateMeta " b;
                    let idempotency := mkIdem fingerprint (mkAppendResult version position) in
                    b ← put (sm_aggregate_idempotency shard_id ty p (ne_event_id event)) idempotency
                          "聚合事件幂等记录" b;
                    let b := set_version (ty, p, id) (Some version) b in
                    let b := set_position (ty, p) next_position b in
                    let b := set_idem (ty, p, ne_event_id event) idempotency b in
                    let b := push_event stored b in
                    Ok (b, AggregateAppendOk version position)
                end
            end
    end
  end end.

Definition apply_put_aggregate_state (t : tree) (b : ApplyBatch) (ty : AggregateTypeId)
    (p generation : N) (id : string) (expected : ExpectedStateRevision) (data : Bytes) (hlc : Hlc) :
    Result (ApplyBatch * EsResponse) :=
  match type_id_validate ty with
  | Err e => Ok (invalid b e)
  | Ok _ =>
  match validate_aggregate_identifier "aggregate_id" id with
  | Err e => Ok (invalid b e)
  | Ok _ =>
    '(b, current_fence) ← batch_aggregate_partition_fence t b ty p;
    if negb (current_fence =? generation)%N then Ok (b, AggregatePartitionFenced current_fence)
    else
      '(b, version) ← batch_aggregate_version t b ty p id;
      match version with
      | None => Ok (b, AggregateNotFound)
      | Some _ =>
          '(b, current) ← batch_aggregate_state t b ty p id;
          if negb (state_matches expected current)
          then Ok (b, AggregateStateConflict (st_revision <$> current))
          else
            match match current with None => Some 0%N | Some s => checked_add_u64 (st_revision s) 1 end with
            | None => Ok (b, AggregateInvalid "状态 revision 已耗尽")
            | Some revision =>
                let st := mkState revision data in
                b ← put (sm_aggregate_state shard_id ty p id) st "AggregateState " b;
                b ← put (sm_aggregate_state_modified shard_id ty p id) hlc "状态修改时间" b;
                let b := set_state (ty, p, id) (Some st) b in
                Ok (b, AggregateStateStored (mkDocument revision data hlc))
            end
      end
  end end.

Definition apply_aggregate_partition_fence (t : tree) (b : ApplyBatch) (ty : AggregateTypeId)
    (p generation : N) : Result (ApplyBatch * EsResponse) :=
  match type_id_validate ty with
  | Err e => Ok (invalid b e)
  | Ok _ =>
    if (generation =? 0)%N then Ok (b, AggregateInvalid "聚合分区 generation 必须大于 0")
    else
      '(b, current) ← batch_aggregate_partition_fence t b ty p;
      let installed := N.max current generation in
      b ← (if negb (installed =? current)%N then
             b ← put (sm_aggregate_partition_fence shard_id ty p) installed "聚合分区 fence " b;
             Ok (set_fence (ty, p) installed b)
           else Ok b);
      Ok (b, AggregatePartitionFenceInstalled installed)
  end.

Definition apply_aggregate_catalog_command (t : tree) (b : ApplyBatch)
    (command : AggregateCatalogCommand) : Result (ApplyBatch * EsResponse) :=
  catalog ← match b_catalog b with Some c => Ok c | None => read_aggregate_catalog t end;
  let '(catalog, applied) := catalog_apply catalog command in
  let b := set_catalog catalog b in
  b ← (if is_changed (ca_outcome applied)
       then put (sm_aggregate_catalog shard_id) catalog "AggregateCatalog " b
       else Ok b);
  Ok (b, AggregateCatalogApplied applied).

Definition apply_aggregate_group_catalog_command (t : tree) (b : ApplyBatch)
    (command : AggregateGroupCatalogCommand) : Result (ApplyBatch * EsResponse) :=
  catalog ← match b_group_catalog b with Some c => Ok c | None => read_aggregate_group_catalog t end;
  let previous_revision := gc_revision catalog in
  let '(catalog, applied) := group_catalog_apply catalog command in
  let b := set_group_catalog catalog b in
  b ← (if negb (gc_revision catalog =? previous_revision)%N
       then put (sm_aggregate_group_catalog shard_id) catalog "AggregateGroupCatalog " b
       else Ok b);
  Ok (b, AggregateGroupCatalogApplied applied).

(** The command of a group partition request on the partition state. *)
Definition group_command (st : AggregateGroupPartition) (epoch : N) (settings : AggregateGroupSettings)
    (command : AggregateGroupPartitionCommand) : AggregateGroupPartition * EsResponse :=
  match command with
  | GClaim consumer now deadline max_claim max_bytes candidates =>
      let '(st, l) := claim st consumer now deadline settings max_claim max_bytes candidates in
      (st, AggregateGroupClaimed l)
  | GSettle consumer now settlements =>
      let '(st, l) := settle st consumer epoch now settings settlements in
      (st, AggregateGroupSettled l)
  | GRenew consumer deadline ids =>
      let '(st, l) := renew st consumer epoch deadline ids in
      (st, AggregateGroupRenewed l)
  | GExpire now =>
      let '(st, n) := expire st now settings in
      (st, AggregateGroupExpired (N.of_nat n))
  end.

Definition apply_aggregate_group_partition (t : tree) (b : ApplyBatch) (ty : AggregateTypeId)
    (p generation : N) (name : string) (epoch start_position : N)
    (settings : AggregateGroupSettings) (command : AggregateGroupPartitionCommand) :
    Result (ApplyBatch * EsResponse) :=
  match type_id_validate ty with
  | Err e => Ok (invalid b e)
  | Ok _ =>
  match validate_aggregate_identifier "group_name" name with
  | Err e => Ok (invalid b e)
  | Ok _ =>
  match settings_validate settings with
  | Err reason => Ok (b, AggregateInvalid reason)
  | Ok _ =>
    '(b, current_fence) ← batch_aggregate_partition_fence t b ty p;
    if negb (current_fence =? generation)%N then Ok (b, AggregatePartitionFenced current_fence)
    else
      st ← match b_groups b !! (ty, p, name) with
           | Some st => Ok st
           | None =>
               o ← read_aggregate_group_partition t ty p name;
               Ok (default (partition_new epoch start_position) o)
           end;
      if (epoch <? gp_epoch st)%N then Ok (b, AggregateGroupStaleEpoch (gp_epoch st))
      else
        let st := if (gp_epoch st <? epoch)%N then partition_reset st epoch start_position else st in
        let '(st, response) := group_command st epoch settings command in
        let key := sm_aggregate_group_partition shard_id ty p name in
        bytes ← map_err (fun e => Serde ("AggregateGroupPartition 序列化失败: " +:+ e)) (encode st);
        let b := retain_ops (fun op => negb (bool_decide (op.1 = key))) b in
        let b := push_op key bytes b in
        Ok (set_group (ty, p, name) st b, response)
  end end end.

(** ** apply *)

(** The dispatch on one request. *)
Definition apply_request (t : tree) (b : ApplyBatch) (req : EsRequest) :
    Result (ApplyBatch * EsResponse) :=
  match req with
  | AggregateAppend ty p g id expected event hlc =>
      apply_aggregate_append t b ty p g id expected event hlc
  | PutAggregateState ty p g id expected data hlc =>
      apply_put_aggregate_state t b ty p g id expected data hlc
  | InstallAggregatePartitionFence ty p g => apply_aggregate_partition_fence t b ty p g
  | CommitAggregateCatalog command => apply_aggregate_catalog_command t b command
  | CommitAggregateGroupCatalog command => apply_aggregate_group_catalog_command t b command
  | GroupPartitionRequest ty p g name epoch start settings command =>
      apply_aggregate_group_partition t b ty p g name epoch start settings command
  end.

(** What the loop of [apply] carries. *)
Record ApplyLoop : Type := mkLoop {
  lp_batch : ApplyBatch;
  lp_responses : list EsResponse;
  lp_last_applied : option LogId;
  lp_membership : option (StoredMembership M)
}.

(** [sm_write_err]. *)
Definition sm_write_err {A} (r : Result A) : result StorageError A :=
  map_err (fun e => ErrWriteStateMachine (error_to_string e)) r.

Definition apply_entry (t : tree) (l : ApplyLoop) (entry : Entry M) : result StorageError ApplyLoop :=
  let last_applied := Some (en_log_id entry) in
  match en_payload entry with
  | Blank => Ok (mkLoop (lp_batch l) (lp_responses l ++ [Noop]) last_applied (lp_membership l))
  | Normal req =>
      '(b, response) ← sm_write_err (apply_request t (lp_batch l) req);
      Ok (mkLoop b (lp_responses l ++ [response]) last_applied (lp_membership l))
  | MembershipChange m =>
      Ok (mkLoop (lp_batch l) (lp_responses l ++ [Noop]) last_applied
            (Some (mkStored (Some (en_log_id entry)) m)))
  end.

Fixpoint apply_entries (t : tree) (l : ApplyLoop) (entries : list (Entry M)) :
    result StorageError ApplyLoop :=
  match entries with
  | [] => Ok l
  | e :: entries' => l' ← apply_entry t l e; apply_entries t l' entries'
  end.

(** Pushing the next position of every partition the batch touched. *)
Fixpoint push_positions (positions : list (PartitionKey * N)) (b : ApplyBatch) :
    result StorageError ApplyBatch :=
  match positions with
  | [] => Ok b
  | (ty, p, next) :: positions' =>
      bytes ← map_err ErrWriteStateMachine (encode next);
      push_positions positions' (push_op (sm_aggregate_next_position shard_id ty p) bytes b)
  end.

(** [SmCache]. *)
Record SmCache : Type := mkCache {
  cache_last_applied : option LogId;
  cache_membership : StoredMembership M
}.

(** What a successful [apply] leaves: the tree, the cache, the responses and the
    events it broadcasts. *)
Record Applied : Type := mkAppliedOut {
  ap_tree : tree;
  ap_cache : SmCache;
  ap_responses : list EsResponse;
  ap_events : list AggregateEvent
}.

(** [RaftStateMachine::apply]; on an error neither the tree nor the cache has
    changed. *)
Definition sm_apply (t : tree) (cache : SmCache) (entries : list (Entry M)) :
    result StorageError Applied :=
  l ← apply_entries t (mkLoop batch_empty [] None None) entries;
  let batch := lp_batch l in
  batch ← push_positions (map_to_list (b_positions batch)) batch;
  let last_applied := match lp_last_applied l with Some x => Some x | None => cache_last_applied cache end in
  let membership := default (cache_membership cache) (lp_membership l) in
  applied_bytes ← map_err ErrWriteStateMachine (encode (mkApplied last_applied membership));
  let ops := b_ops batch ++ [(sm_applied_state shard_id, applied_bytes)] in
  x ← map_err ErrWriteStateMachine (tree_begin t);
  x ← txn_each (fun x op => map_err ErrWriteStateMachine (txn_set x op.1 op.2)) x ops;
  t' ← map_err ErrWriteStateMachine (txn_commit t x);
  Ok (mkAppliedOut t' (mkCache last_applied membership) (lp_responses l) (b_new_events batch)).

(** [restore_applied_state], the store's part: the cache from the persisted
    applied state, and the removal of the obsolete snapshot key. *)
Definition cleanup_legacy_snapshot (t : tree) : Result tree :=
  o ← storage_get t (snapshot_current shard_id);
  match o with
  | Some _ => delete_batch t [snapshot_current shard_id]
  | None => Ok t
  end.

Definition restore_applied_state (t : tree) (cache : SmCache) : Result (tree * SmCache) :=
  o ← storage_get t (sm_applied_state shard_id);
  cache ← match o with
          | None => Ok cache
          | Some bytes =>
              st ← map_err (fun e => Serde ("已应用状态反序列化失败: " +:+ e)) (@decode (AppliedState M) _ bytes);
              Ok (mkCache (as_last_applied st) (as_membership st))
          end;
  t ← cleanup_legacy_snapshot t;
  Ok (t, cache).

(** [sm_range] and [collect_sm_entries]. *)
Definition sm_range : Result (Bytes * Bytes) :=
  let start := [x02] ++ be_bytes 8 shard_id in
  end_ ← ok_or (Internal "状态机区前缀无后继") (successor start);
  Ok (start, end_).

Definition collect_sm_entries (t : tree) : Result (list (Bytes * Bytes)) :=
  '(start, end_) ← sm_range;
  x ← storage_err "begin" (tree_begin t);
  map_err Storage (txn_scan x start end_).

End StateMachine.
