(* ===== verification/ShardSpec.v ===== *)
(** * The specification of one shard

    What the state machine of [state_machine.rs] promises, without bytes,
    batches or caches: a typed state ([shard]), one sequential step per request
    ([shard_step]), and the invariants of the states it reaches. [Apply.v]
    proves that [apply] implements it. *)

From S2P Require Import Prelude.
From S2P Require Import Bytes.
From S2P Require Import Core.
From S2P Require Import Aggregate.
From S2P Require Import Catalog.
From S2P Require Import GroupCatalog.
From S2P Require Import GroupPartition.
From S2P Require Import RaftType.
From S2P Require Import StateMachine.

(** ** State *)

Abbreviation EventKey := (AggregateTypeId * N * string * N)%type.
Abbreviation PositionKey := (AggregateTypeId * N * N)%type.

Record shard : Type := mkShard {
  s_events : gmap EventKey AggregateEvent;
  s_versions : gmap InstanceKey N;
  s_index : gmap PositionKey (string * N);
  s_next : gmap PartitionKey N;
  s_states : gmap InstanceKey AggregateState;
  s_modified : gmap InstanceKey Hlc;
  s_idem : gmap EventIdKey AggregateIdempotencyRecord;
  s_fences : gmap PartitionKey N;
  s_catalog : option AggregateCatalog;
  s_group_catalog : option AggregateGroupCatalog;
  s_groups : gmap InstanceKey AggregateGroupPartition
}.

Definition shard_empty : shard := mkShard ∅ ∅ ∅ ∅ ∅ ∅ ∅ ∅ None None ∅.

Definition fence_of (s : shard) (ty : AggregateTypeId) (p : N) : N := default 0%N (s_fences s !! (ty, p)).

Definition next_of (s : shard) (ty : AggregateTypeId) (p : N) : N := default 0%N (s_next s !! (ty, p)).

(** ** Steps *)

(** Recording one event: the event, its index entry, the instance's version, the
    partition's next position and the idempotency record. *)
Definition record_event (s : shard) (e : AggregateEvent) (fingerprint next : N) : shard :=
  let ty := ev_aggregate_type e in
  let p := ev_partition_id e in
  let id := ev_aggregate_id e in
  mkShard (<[(ty, p, id, ev_aggregate_version e) := e]> (s_events s))
    (<[(ty, p, id) := ev_aggregate_version e]> (s_versions s))
    (<[(ty, p, ev_partition_position e) := (id, ev_aggregate_version e)]> (s_index s))
    (<[(ty, p) := next]> (s_next s)) (s_states s) (s_modified s)
    (<[(ty, p, ev_event_id e) :=
         mkIdem fingerprint (mkAppendResult (ev_aggregate_version e) (ev_partition_position e))]> (s_idem s))
    (s_fences s) (s_catalog s) (s_group_catalog s) (s_groups s).

Definition with_state (i : InstanceKey) (st : AggregateState) (hlc : Hlc) (s : shard) : shard :=
  mkShard (s_events s) (s_versions s) (s_index s) (s_next s) (<[i := st]> (s_states s))
    (<[i := hlc]> (s_modified s)) (s_idem s) (s_fences s) (s_catalog s) (s_group_catalog s) (s_groups s).

Definition with_fence (i : PartitionKey) (g : N) (s : shard) : shard :=
  mkShard (s_events s) (s_versions s) (s_index s) (s_next s) (s_states s) (s_modified s) (s_idem s)
    (<[i := g]> (s_fences s)) (s_catalog s) (s_group_catalog s) (s_groups s).

Definition with_catalog (c : option AggregateCatalog) (s : shard) : shard :=
  mkShard (s_events s) (s_versions s) (s_index s) (s_next s) (s_states s) (s_modified s) (s_idem s)
    (s_fences s) c (s_group_catalog s) (s_groups s).

Definition with_group_catalog (c : option AggregateGroupCatalog) (s : shard) : shard :=
  mkShard (s_events s) (s_versions s) (s_index s) (s_next s) (s_states s) (s_modified s) (s_idem s)
    (s_fences s) (s_catalog s) c (s_groups s).

Definition with_group (i : InstanceKey) (g : AggregateGroupPartition) (s : shard) : shard :=
  mkShard (s_events s) (s_versions s) (s_index s) (s_next s) (s_states s) (s_modified s) (s_idem s)
    (s_fences s) (s_catalog s) (s_group_catalog s) (<[i := g]> (s_groups s)).

Section Steps.
Context `{Xxh3}.

Definition refuse (s : shard) (e : Error) : shard * EsResponse :=
  (s, AggregateInvalid (error_to_string e)).

Definition step_append (s : shard) (ty : AggregateTypeId) (p generation : N) (id : string)
    (expected : ExpectedAggregateVersion) (event : NewAggregateEvent) (hlc : Hlc) :
    shard * EsResponse :=
  match type_id_validate ty, validate_aggregate_identifier "aggregate_id" id with
  | Err e, _ => refuse s e
  | Ok _, Err e => refuse s e
  | Ok _, Ok _ =>
  if bool_decide (ne_event_type event = "") then (s, AggregateInvalid "event_type 不能为空")
  else
    let fingerprint := aggregate_append_fingerprint ty id expected event in
    match s_idem s !! (ty, p, ne_event_id event) with
    | Some r =>
        if (id_fingerprint r =? fingerprint)%N
        then (s, AggregateAppendOk (ar_aggregate_version (id_result r)) (ar_partition_position (id_result r)))
        else (s, AggregateIdempotencyConflict)
    | None =>
        if negb (fence_of s ty p =? generation)%N then (s, AggregatePartitionFenced (fence_of s ty p))
        else
          let current := s_versions s !! (ty, p, id) in
          if negb (check_expected_aggregate_version expected current)
          then (s, AggregateOptimisticConflict current)
          else
            match match current with None => Some 0%N | Some v => checked_add_u64 v 1 end with
            | None => (s, AggregateInvalid "聚合版本已耗尽")
            | Some version =>
                match checked_add_u64 (next_of s ty p) 1 with
                | None => (s, AggregateInvalid "分区位置已耗尽")
                | Some next =>
                    (record_event s
                       (mkEvent ty p id version (ne_event_id event) (ne_event_type event)
                          (ne_data event) (ne_metadata event) hlc (next_of s ty p)) fingerprint next,
                     AggregateAppendOk version (next_of s ty p))
                end
            end
    end
  end.

Definition step_put_state (s : shard) (ty : AggregateTypeId) (p generation : N) (id : string)
    (expected : ExpectedStateRevision) (data : Bytes) (hlc : Hlc) : shard * EsResponse :=
  match type_id_validate ty, validate_aggregate_identifier "aggregate_id" id with
  | Err e, _ => refuse s e
  | Ok _, Err e => refuse s e
  | Ok _, Ok _ =>
    if negb (fence_of s ty p =? generation)%N then (s, AggregatePartitionFenced (fence_of s ty p))
    else
      match s_versions s !! (ty, p, id) with
      | None => (s, AggregateNotFound)
      | Some _ =>
          let current := s_states s !! (ty, p, id) in
          if negb (state_matches expected current)
          then (s, AggregateStateConflict (st_revision <$> current))
          else
            match match current with None => Some 0%N | Some st => checked_add_u64 (st_revision st) 1 end with
            | None => (s, AggregateInvalid "状态 revision 已耗尽")
            | Some revision =>
                (with_state (ty, p, id) (mkState revision data) hlc s,
                 AggregateStateStored (mkDocument revision data hlc))
            end
      end
  end.

Definition step_fence (s : shard) (ty : AggregateTypeId) (p generation : N) : shard * EsResponse :=
  match type_id_validate ty with
  | Err e => refuse s e
  | Ok _ =>
    if (generation =? 0)%N then (s, AggregateInvalid "聚合分区 generation 必须大于 0")
    else
      let installed := N.max (fence_of s ty p) generation in
      (if (installed =? fence_of s ty p)%N then s else with_fence (ty, p) installed s,
       AggregatePartitionFenceInstalled installed)
  end.

Definition step_catalog (s : shard) (command : AggregateCatalogCommand) : shard * EsResponse :=
  let '(c, applied) := catalog_apply (default catalog_default (s_catalog s)) command in
  (if is_changed (ca_outcome applied) then with_catalog (Some c) s else s,
   AggregateCatalogApplied applied).

Definition step_group_catalog (s : shard) (command : AggregateGroupCatalogCommand) :
    shard * EsResponse :=
  let c0 := default group_catalog_default (s_group_catalog s) in
  let '(c, applied) := group_catalog_apply c0 command in
  (if negb (gc_revision c =? gc_revision c0)%N then with_group_catalog (Some c) s else s,
   AggregateGroupCatalogApplied applied).

Definition step_group_partition (s : shard) (ty : AggregateTypeId) (p generation : N)
    (name : string) (epoch start : N) (settings : AggregateGroupSettings)
    (command : AggregateGroupPartitionCommand) : shard * EsResponse :=
  match type_id_validate ty, validate_aggregate_identifier "group_name" name, settings_validate settings with
  | Err e, _, _ => refuse s e
  | Ok _, Err e, _ => refuse s e
  | Ok _, Ok _, Err reason => (s, AggregateInvalid reason)
  | Ok _, Ok _, Ok _ =>
    if negb (fence_of s ty p =? generation)%N then (s, AggregatePartitionFenced (fence_of s ty p))
    else
      let st := default (partition_new epoch start) (s_groups s !! (ty, p, name)) in
      if (epoch <? gp_epoch st)%N then (s, AggregateGroupStaleEpoch (gp_epoch st))
      else
        let st := if (gp_epoch st <? epoch)%N then partition_reset st epoch start else st in
        let '(st, response) := group_command st epoch settings command in
        (with_group (ty, p, name) st s, response)
  end.

Definition shard_step (s : shard) (req : EsRequest) : shard * EsResponse :=
  match req with
  | AggregateAppend ty p g id expected event hlc => step_append s ty p g id expected event hlc
  | PutAggregateState ty p g id expected data hlc => step_put_state s ty p g id expected data hlc
  | InstallAggregatePartitionFence ty p g => step_fence s ty p g
  | CommitAggregateCatalog command => step_catalog s command
  | CommitAggregateGroupCatalog command => step_group_catalog s command
  | GroupPartitionRequest ty p g name epoch start settings command =>
      step_group_partition s ty p g name epoch start settings command
  end.

(** One log entry: a request, or an entry without effect on the state. *)
Definition shard_entry {M} (s : shard) (e : Entry M) : shard * EsResponse :=
  match en_payload e with
  | Normal req => shard_step s req
  | _ => (s, Noop)
  end.

Fixpoint shard_run {M} (s : shard) (entries : list (Entry M)) : shard * list EsResponse :=
  match entries with
  | [] => (s, [])
  | e :: entries' =>
      let '(s1, r) := shard_entry s e in
      let '(s2, rs) := shard_run s1 entries' in
      (s2, r :: rs)
  end.

End Steps.

(** ** Invariants *)

(** The widths of a request's fields. *)
Definition command_wf (command : AggregateGroupPartitionCommand) : Prop :=
  match command with GClaim _ _ _ _ _ cs => candidates_wf cs | _ => True end.

Definition request_wf (req : EsRequest) : Prop :=
  match req with
  | AggregateAppend _ p _ _ _ event _ => (p <= u16_max /\ ne_event_id event <= u128_max)%N
  | PutAggregateState _ p _ _ _ _ _ | InstallAggregatePartitionFence _ p _ => (p <= u16_max)%N
  | GroupPartitionRequest _ p _ _ _ start settings command =>
      (p <= u16_max /\ start <= u64_max)%N /\ settings_wf settings /\ command_wf command
  | _ => True
  end.

Definition entry_wf {M} (e : Entry M) : Prop :=
  match en_payload e with Normal req => request_wf req | _ => True end.

(** The event stored under a key is the event of that key. *)
Definition event_at (e : AggregateEvent) (ty : AggregateTypeId) (p : N) (id : string) (v : N) : Prop :=
  ev_aggregate_type e = ty /\ ev_partition_id e = p /\ ev_aggregate_id e = id /\ ev_aggregate_version e = v.

Record shard_wf (s : shard) : Prop := {
  sw_versions : forall ty p id v,
    is_Some (s_events s !! (ty, p, id, v)) <-> exists cur, s_versions s !! (ty, p, id) = Some cur /\ (v <= cur)%N;
  sw_ids : forall ty p id cur, s_versions s !! (ty, p, id) = Some cur ->
    type_id_ok ty /\ identifier_ok id /\ (cur <= u64_max)%N;
  sw_next : forall ty p, (next_of s ty p <= u64_max)%N;
  sw_positions : forall ty p q, is_Some (s_index s !! (ty, p, q)) <-> (q < next_of s ty p)%N;
  sw_index : forall ty p q id v, s_index s !! (ty, p, q) = Some (id, v) ->
    exists e, s_events s !! (ty, p, id, v) = Some e /\ ev_partition_position e = q;
  sw_events : forall ty p id v e, s_events s !! (ty, p, id, v) = Some e ->
    event_at e ty p id v /\ s_index s !! (ty, p, ev_partition_position e) = Some (id, v) /\
    exists r, s_idem s !! (ty, p, ev_event_id e) = Some r /\
      id_result r = mkAppendResult v (ev_partition_position e);
  sw_idem : forall ty p u r, s_idem s !! (ty, p, u) = Some r ->
    exists id e, s_events s !! (ty, p, id, ar_aggregate_version (id_result r)) = Some e /\
      ev_event_id e = u /\ ev_partition_position e = ar_partition_position (id_result r);
  sw_states : forall i, is_Some (s_states s !! i) -> is_Some (s_versions s !! i) /\ is_Some (s_modified s !! i);
  sw_catalog : catalog_wf (default catalog_default (s_catalog s));
  sw_group_catalog : group_catalog_wf (default group_catalog_default (s_group_catalog s));
  sw_groups : map_Forall (fun _ g => partition_wf g) (s_groups s)
}.

(** ** Lemmas: steps *)

(** The next version of an instance. *)
Definition next_version (s : shard) (ty : AggregateTypeId) (p : N) (id : string) (v : N) : Prop :=
  match s_versions s !! (ty, p, id) with None => v = 0%N | Some cur => v = (cur + 1)%N end /\ (v <= u64_max)%N.

(** What one request does to the state. *)
Inductive shard_change (s : shard) : shard -> Prop :=
| ChangeNone : shard_change s s
| ChangeEvent e fingerprint :
    type_id_ok (ev_aggregate_type e) -> identifier_ok (ev_aggregate_id e) ->
    s_idem s !! (ev_aggregate_type e, ev_partition_id e, ev_event_id e) = None ->
    next_version s (ev_aggregate_type e) (ev_partition_id e) (ev_aggregate_id e) (ev_aggregate_version e) ->
    ev_partition_position e = next_of s (ev_aggregate_type e) (ev_partition_id e) ->
    (ev_partition_position e + 1 <= u64_max)%N ->
    shard_change s (record_event s e fingerprint (ev_partition_position e + 1))
| ChangeState i st hlc : is_Some (s_versions s !! i) -> shard_change s (with_state i st hlc s)
| ChangeFence ty p g : (fence_of s ty p < g)%N -> shard_change s (with_fence (ty, p) g s)
| ChangeCatalog c :
    (catalog_wf (default catalog_default (s_catalog s)) -> catalog_wf c) ->
    shard_change s (with_catalog (Some c) s)
| ChangeGroupCatalog c :
    (group_catalog_wf (default group_catalog_default (s_group_catalog s)) -> group_catalog_wf c) ->
    shard_change s (with_group_catalog (Some c) s)
| ChangeGroup i g :
    (map_Forall (fun _ g => partition_wf g) (s_groups s) -> partition_wf g) ->
    shard_change s (with_group i g s).

Section StepLemmas.
Context `{Xxh3}.

Lemma step_append_new s ty p g id expected event hlc s' r :
  step_append s ty p g id expected event hlc = (s', r) ->
  s' = s \/
  exists version,
    let e := mkEvent ty p id version (ne_event_id event) (ne_event_type event) (ne_data event)
               (ne_metadata event) hlc (next_of s ty p) in
    let fp := aggregate_append_fingerprint ty id expected event in
    type_id_ok ty /\ identifier_ok id /\ s_idem s !! (ty, p, ne_event_id event) = None /\
    fence_of s ty p = g /\ check_expected_aggregate_version expected (s_versions s !! (ty, p, id)) = true /\
    next_version s ty p id version /\ (next_of s ty p + 1 <= u64_max)%N /\
    s' = record_event s e fp (next_of s ty p + 1) /\ r = AggregateAppendOk version (next_of s ty p).
Proof.
  unfold step_append. destruct (type_id_validate ty) as [[]|] eqn:Ht; [|intros [= <- _]; by left].
  destruct (validate_aggregate_identifier "aggregate_id" id) as [[]|] eqn:Hi; [|intros [= <- _]; by left].
  case_if; [intros [= <- _]; by left|].
  destruct (s_idem s !! (ty, p, ne_event_id event)) eqn:Hn; [case_if; intros [= <- _]; by left|].
  case_if; [intros [= <- _]; by left|]. case_if; [intros [= <- _]; by left|]. bool_facts.
  destruct (match s_versions s !! (ty, p, id) with None => Some 0%N | Some v => checked_add_u64 v 1 end)
    as [version|] eqn:Hv; [|intros [= <- _]; by left].
  destruct (checked_add_u64 (next_of s ty p) 1) as [next|] eqn:Hnext; [|intros [= <- _]; by left].
  intros [= <- <-]. right. exists version. apply checked_add_u64_Some in Hnext as [-> Hnext].
  apply type_id_validate_iff in Ht. apply validate_identifier_iff in Hi.
  split_ands; try done. unfold next_version. destruct (s_versions s !! (ty, p, id)).
  - apply checked_add_u64_Some in Hv as [-> ?]. by split.
  - injection Hv as <-. by split.
Qed.

Lemma group_command_wf st epoch settings command :
  settings_wf settings -> command_wf command -> partition_wf st ->
  partition_wf (group_command st epoch settings command).1.
Proof.
  intros Hs Hc Hst. destruct command as [c now dl mc mb cs|c now l|c dl ids|now]; cbn [group_command].
  - pose proof (partition_step_wf st (OpClaim c now dl settings mc mb cs) (conj Hs Hc) Hst) as Hw.
    cbn [partition_step] in Hw. by destruct (claim st c now dl settings mc mb cs).
  - pose proof (partition_step_wf st (OpSettle c epoch now settings l) I Hst) as Hw.
    cbn [partition_step] in Hw. by destruct (settle st c epoch now settings l).
  - pose proof (partition_step_wf st (OpRenew c epoch dl ids) I Hst) as Hw.
    cbn [partition_step] in Hw. by destruct (renew st c epoch dl ids).
  - pose proof (partition_step_wf st (OpExpire now settings) I Hst) as Hw.
    cbn [partition_step] in Hw. by destruct (expire st now settings).
Qed.

Lemma shard_step_change s req s' r : request_wf req -> shard_step s req = (s', r) -> shard_change s s'.
Proof.
  intros Hreq. destruct req as [ty p g id ex ev hlc|ty p g id ex data hlc|ty p g|cmd|cmd|ty p g name ep st set cmd];
    cbn [shard_step].
  - intros [->|(v & Ht & Hi & Hn & _ & _ & Hv & Hp & -> & _)]%step_append_new; [constructor|].
    exact (ChangeEvent s (mkEvent ty p id v (ne_event_id ev) (ne_event_type ev) (ne_data ev)
             (ne_metadata ev) hlc (next_of s ty p)) _ Ht Hi Hn Hv eq_refl Hp).
  - unfold step_put_state. destruct (type_id_validate ty); [|intros [= <- _]; constructor].
    destruct (validate_aggregate_identifier _ id); [|intros [= <- _]; constructor].
    case_if; [intros [= <- _]; constructor|].
    destruct (s_versions s !! (ty, p, id)) eqn:Hv; [|intros [= <- _]; constructor].
    case_if; [intros [= <- _]; constructor|].
    destruct (match s_states s !! (ty, p, id) with None => _ | Some st => _ end);
      intros [= <- _]; constructor. rewrite Hv. eauto.
  - unfold step_fence. destruct (type_id_validate ty); [|intros [= <- _]; constructor].
    case_if; [intros [= <- _]; constructor|]. case_if; intros [= <- _]; constructor. bool_facts. lia.
  - unfold step_catalog. pose proof (catalog_apply_wf (default catalog_default (s_catalog s)) cmd) as Hw.
    destruct (catalog_apply _ cmd) as [c a]. case_if; intros [= <- _]; by constructor.
  - unfold step_group_catalog.
    pose proof (group_catalog_run_wf (default group_catalog_default (s_group_catalog s)) [cmd]) as Hw.
    cbn [group_catalog_run] in Hw. destruct (group_catalog_apply _ cmd) as [c a].
    case_if; intros [= <- _]; by constructor.
  - unfold step_group_partition. destruct (type_id_validate ty); [|intros [= <- _]; constructor].
    destruct (validate_aggregate_identifier _ name); [|intros [= <- _]; constructor].
    destruct (settings_validate set); [|intros [= <- _]; constructor].
    case_if; [intros [= <- _]; constructor|]. case_if; [intros [= <- _]; constructor|].
    destruct Hreq as ((_ & Hstart) & Hset & Hcmd).
    set (st0 := if _ : bool then partition_reset _ _ _ else _).
    pose proof (group_command_wf st0 ep set cmd Hset Hcmd) as Hw.
    destruct (group_command st0 ep set cmd) as [st1 resp]. intros [= <- _]. constructor.
    intros Hall. apply Hw. subst st0. case_if; [by apply partition_new_wf|].
    destruct (s_groups s !! (ty, p, name)) eqn:Hg; [by eapply Hall|]. by apply partition_new_wf.
Qed.

End StepLemmas.

(** ** Lemmas: the invariant *)

Lemma shard_empty_wf : shard_wf shard_empty.
Proof.
  split; cbn; try (intros *; rewrite ?lookup_empty; first [discriminate | done]).
  - intros. rewrite !lookup_empty. split; [by intros [? ?]|by intros (? & ? & _)].
  - intros. rewrite lookup_empty. unfold next_of. cbn. rewrite lookup_empty. cbn.
    split; [by intros [? ?]|lia].
Qed.

Section RecordEvent.
Context (s : shard) (e : AggregateEvent) (fp : N) (Hwf : shard_wf s).

Local Abbreviation ty := (ev_aggregate_type e).
Local Abbreviation p := (ev_partition_id e).
Local Abbreviation id := (ev_aggregate_id e).
Local Abbreviation v := (ev_aggregate_version e).
Local Abbreviation q := (ev_partition_position e).

Context (Hidem : s_idem s !! (ty, p, ev_event_id e) = None)
  (Hver : next_version s ty p id v) (Hpos : q = next_of s ty p).

Lemma record_fresh_event : s_events s !! (ty, p, id, v) = None.
Proof.
  apply eq_None_not_Some. intros Hs. apply (sw_versions _ Hwf) in Hs as (cur & Hcur & Hle).
  destruct Hver as [Hv _]. rewrite Hcur in Hv. lia.
Qed.

Lemma record_fresh_position : s_index s !! (ty, p, q) = None.
Proof. apply eq_None_not_Some. intros Hs. apply (sw_positions _ Hwf) in Hs. lia. Qed.

Lemma record_versions ty' p' id' v' :
  is_Some (s_events (record_event s e fp (q + 1)) !! (ty', p', id', v')) <->
  exists cur, s_versions (record_event s e fp (q + 1)) !! (ty', p', id') = Some cur /\ (v' <= cur)%N.
Proof.
  cbn. rewrite lookup_insert_is_Some', (sw_versions _ Hwf).
  destruct (decide ((ty, p, id) = (ty', p', id'))) as [Heq|Hne].
  - injection Heq as <- <- <-. rewrite lookup_insert_eq. destruct Hver as [Hv _].
    destruct (s_versions s !! (ty, p, id)) as [cur|].
    + split.
      * intros [[= <-]|(c & [= <-] & Hc)]; eexists; (split; [done|lia]).
      * intros (c & [= <-] & Hc). destruct (decide (v' = v)) as [->|]; [by left|].
        right. exists cur. split; [done|lia].
    + split.
      * intros [[= <-]|(c & [=] & _)]. eexists. split; [done|lia].
      * intros (c & [= <-] & Hc). left. f_equal. lia.
  - rewrite lookup_insert_ne by done. split; [|by right].
    intros [Heq|Hc]; [|done]. exfalso. apply Hne. congruence.
Qed.

Lemma record_next ty' p' :
  next_of (record_event s e fp (q + 1)) ty' p' =
  if decide ((ty, p) = (ty', p')) then (q + 1)%N else next_of s ty' p'.
Proof. unfold next_of. cbn. rewrite lookup_insert. by destruct (decide _). Qed.

Context (Hty : type_id_ok ty) (Hid : identifier_ok id) (Hroom : (q + 1 <= u64_max)%N).

Lemma record_event_wf : shard_wf (record_event s e fp (q + 1)).
Proof.
  pose proof record_fresh_event as Hfe. pose proof record_fresh_position as Hfp.
  assert (Hev : forall k x, s_events s !! k = Some x ->
            s_events (record_event s e fp (q + 1)) !! k = Some x)
    by (intros k x Hk; cbn; rewrite lookup_insert_ne; congruence).
  split.
  - apply record_versions.
  - intros ty' p' id' cur. cbn. intros [[[= <- <- <-] <-]|[_ Hs]]%lookup_insert_Some.
    + split_ands; [done|done|apply Hver].
    + by apply (sw_ids _ Hwf) in Hs.
  - intros ty' p'. rewrite record_next. pose proof (sw_next _ Hwf ty' p'). by destruct (decide _).
  - intros ty' p' q'. rewrite record_next. cbn. rewrite lookup_insert_is_Some', (sw_positions _ Hwf).
    destruct (decide ((ty, p) = (ty', p'))) as [Heq|Hne].
    + injection Heq as <- <-. rewrite Hpos. split.
      * intros [[= <-]|Hlt]; lia.
      * intros Hlt. destruct (decide (q' = next_of s ty p)) as [->|]; [by left|right; lia].
    + split; [|by right]. intros [[= <- <- _]|Hlt]; [done|exact Hlt].
  - intros ty' p' q' id' v'. cbn [s_index record_event].
    intros [[[= <- <- <-] [= <- <-]]|[_ Hi]]%lookup_insert_Some.
    + exists e. cbn. by rewrite lookup_insert_eq.
    + apply (sw_index _ Hwf) in Hi as (x & Hx & Hq). eauto.
  - intros ty' p' id' v' x. cbn [s_events record_event].
    intros [[[= <- <- <- <-] <-]|[_ Hx]]%lookup_insert_Some.
    + split_ands; [by split_ands|cbn; by rewrite lookup_insert_eq|].
      eexists. cbn. by rewrite lookup_insert_eq.
    + apply (sw_events _ Hwf) in Hx as (Hat & Hi & r & Hr & Hres). split_ands; [done| |exists r].
      * cbn. rewrite lookup_insert_ne; congruence.
      * cbn. rewrite lookup_insert_ne; [done|congruence].
  - intros ty' p' u r. cbn [s_idem record_event].
    intros [[[= <- <- <-] <-]|[_ Hr]]%lookup_insert_Some.
    + exists id, e. cbn. by rewrite lookup_insert_eq.
    + apply (sw_idem _ Hwf) in Hr as (id' & x & Hx & Hu & Hq). exists id', x. split_ands; auto.
  - intros i Hi. cbn. destruct (sw_states _ Hwf i Hi) as [Hs1 Hs2]. split; [|done].
    apply lookup_insert_is_Some'. by right.
  - apply (sw_catalog _ Hwf).
  - apply (sw_group_catalog _ Hwf).
  - apply (sw_groups _ Hwf).
Qed.

End RecordEvent.

Lemma shard_change_wf s s' : shard_change s s' -> shard_wf s -> shard_wf s'.
Proof.
  intros Hch Hwf.
  destruct Hch as [|e fp Ht Hi Hidem Hver Hpos Hlt|i st hlc Hi|ty p g Hg|c Hc|c Hc|i g Hg]; [done|..].
  - by apply record_event_wf.
  - destruct Hwf. split; try done. intros j. cbn. rewrite !lookup_insert_is_Some'.
    intros [<-|Hj]; [auto|]. destruct (sw_states0 j Hj). auto.
  - destruct Hwf. by split.
  - destruct Hwf. split; try done. cbn. auto.
  - destruct Hwf. split; try done. cbn. auto.
  - destruct Hwf. split; try done. cbn. apply map_Forall_insert_2; auto.
Qed.

(** ** Lemmas: what grows *)

(** History is append-only, idempotency records are kept, fences go up. *)
Record shard_grows (s s' : shard) : Prop := {
  sg_events : s_events s ⊆ s_events s';
  sg_index : s_index s ⊆ s_index s';
  sg_idem : s_idem s ⊆ s_idem s';
  sg_versions : forall i v, s_versions s !! i = Some v -> exists v', s_versions s' !! i = Some v' /\ (v <= v')%N;
  sg_next : forall ty p, (next_of s ty p <= next_of s' ty p)%N;
  sg_fences : forall ty p, (fence_of s ty p <= fence_of s' ty p)%N
}.

#[export] Instance shard_grows_refl : Reflexive shard_grows.
Proof. intros s. split; try done. intros i v Hv. by exists v. Qed.

#[export] Instance shard_grows_trans : Transitive shard_grows.
Proof.
  intros s1 s2 s3 [E1 I1 D1 V1 N1 F1] [E2 I2 D2 V2 N2 F2]. split; [by etrans|by etrans|by etrans| | |].
  - intros i v Hv. destruct (V1 i v Hv) as (v' & Hv' & Hle). destruct (V2 i v' Hv') as (v2 & Hv2 & Hle2).
    exists v2. split; [done|lia].
  - intros ty p. specialize (N1 ty p). specialize (N2 ty p). specialize (F1 ty p). specialize (F2 ty p). lia.
  - intros ty p. specialize (N1 ty p). specialize (N2 ty p). specialize (F1 ty p). specialize (F2 ty p). lia.
Qed.

Lemma shard_change_grows s s' : shard_wf s -> shard_change s s' -> shard_grows s s'.
Proof.
  intros Hwf [|e fp Ht Hi Hidem Hver Hpos Hlt|i st hlc Hi|ty p g Hg|c Hc|c Hc|i g Hg]; [done|..].
  { split; cbn.
    + apply insert_subseteq. by apply record_fresh_event.
    + apply insert_subseteq. by apply record_fresh_position.
    + by apply insert_subseteq.
    + intros i v Hv. rewrite lookup_insert. case_decide as Heq; [|by exists v]. subst i.
      eexists. split; [done|]. destruct Hver as [Hn _]. rewrite Hv in Hn. lia.
    + intros ty p. rewrite record_next. case_decide as Heq; [|done]. injection Heq as <- <-. lia.
    + done. }
  all: split; try done; cbn; try (intros j v Hv; by exists v).
  intros ty' p'. unfold fence_of at 2. cbn. rewrite lookup_insert. case_decide as Heq; [|done].
  injection Heq as <- <-. cbn. lia.
Qed.

(** ** Lemmas: logs *)

Section Logs.
Context {M : Type} `{Xxh3}.

Lemma shard_run_cons s (e : Entry M) es :
  (shard_run s (e :: es)).1 = (shard_run (shard_entry s e).1 es).1.
Proof. cbn. destruct (shard_entry s e) as [s1 r]. cbn. by destruct (shard_run s1 es). Qed.

Lemma shard_entry_change s (e : Entry M) : entry_wf e -> shard_change s (shard_entry s e).1.
Proof.
  unfold entry_wf, shard_entry. destruct (en_payload e) as [|req|m]; [constructor| |constructor].
  intros Hreq. destruct (shard_step s req) as [s' r] eqn:Hs. by eapply shard_step_change.
Qed.

Lemma shard_run_ok s (es : list (Entry M)) :
  Forall entry_wf es -> shard_wf s ->
  shard_wf (shard_run s es).1 /\ shard_grows s (shard_run s es).1.
Proof.
  intros Hes. revert s. induction Hes as [|e es He Hes IH]; intros s Hwf; [done|].
  rewrite shard_run_cons. pose proof (shard_entry_change s e He) as Hch.
  destruct (IH _ (shard_change_wf _ _ Hch Hwf)) as [Hwf' Hg]. split; [done|].
  etrans; [by apply shard_change_grows|exact Hg].
Qed.

(** The idempotency record behind an accepted append. *)
Lemma step_append_accepted s ty p g id expected event hlc s' v q :
  step_append s ty p g id expected event hlc = (s', AggregateAppendOk v q) ->
  type_id_ok ty /\ identifier_ok id /\ ne_event_type event <> "" /\
  s_idem s' !! (ty, p, ne_event_id event) =
    Some (mkIdem (aggregate_append_fingerprint ty id expected event) (mkAppendResult v q)).
Proof.
  unfold step_append. destruct (type_id_validate ty) as [[]|] eqn:Ht; [|discriminate].
  destruct (validate_aggregate_identifier "aggregate_id" id) as [[]|] eqn:Hi; [|discriminate].
  apply type_id_validate_iff in Ht. apply validate_identifier_iff in Hi.
  case_if; [discriminate|]. bool_facts.
  destruct (s_idem s !! (ty, p, ne_event_id event)) as [[fp [v' q']]|] eqn:Hr.
  - case_if; [|discriminate]. bool_facts. cbn in *. intros [= <- <- <-]. subst. by rewrite Hr.
  - case_if; [discriminate|]. case_if; [discriminate|].
    destruct (match s_versions s !! (ty, p, id) with None => _ | Some _ => _ end); [|discriminate].
    destruct (checked_add_u64 (next_of s ty p) 1); [|discriminate]. intros [= <- <- <-].
    split_ands; try done. cbn. apply lookup_insert_eq.
Qed.

Lemma step_append_repeat s ty p g id expected event hlc v q :
  type_id_ok ty -> identifier_ok id -> ne_event_type event <> "" ->
  s_idem s !! (ty, p, ne_event_id event) =
    Some (mkIdem (aggregate_append_fingerprint ty id expected event) (mkAppendResult v q)) ->
  step_append s ty p g id expected event hlc = (s, AggregateAppendOk v q).
Proof.
  intros Ht Hi Hne Hr. unfold step_append.
  rewrite (proj2 (type_id_validate_iff ty) Ht), (proj2 (validate_identifier_iff _ id) Hi).
  rewrite bool_decide_eq_false_2 by done. rewrite Hr. cbn. by rewrite N.eqb_refl.
Qed.

(** A stored document, and the same write attempted again. *)
Lemma put_state_step (s s' : shard) (ty : AggregateTypeId) (p g : N) (id : string)
  (expected : ExpectedStateRevision) (data data2 : Bytes) (hlc hlc2 : Hlc) (d : AggregateStateDocument)
  (Hput : shard_step s (PutAggregateState ty p g id expected data hlc) = (s', AggregateStateStored d)) :
  fence_of s ty p = g /\ state_matches expected (s_states s !! (ty, p, id)) = true /\
  d = mkDocument (doc_revision d) data hlc /\
  doc_revision d = match s_states s !! (ty, p, id) with None => 0 | Some st => st_revision st + 1 end%N /\
  s_states s' = <[(ty, p, id) := mkState (doc_revision d) data]> (s_states s) /\
  s_events s' = s_events s /\ s_group_catalog s' = s_group_catalog s /\
  shard_step s' (PutAggregateState ty p g id expected data2 hlc2) =
    (s', AggregateStateConflict (Some (doc_revision d))).
Proof.
  cbn [shard_step] in *. unfold step_put_state in Hput |- *.
  destruct (type_id_validate ty) as [[]|]; [|discriminate].
  destruct (validate_aggregate_identifier "aggregate_id" id) as [[]|]; [|discriminate].
  destruct (negb (fence_of s ty p =? g)%N) eqn:Hf; [discriminate|].
  destruct (s_versions s !! (ty, p, id)) as [v|] eqn:Hv; [|discriminate].
  destruct (state_matches expected (s_states s !! (ty, p, id))) eqn:Hm; [|discriminate].
  cbn [negb] in Hput.
  destruct (match s_states s !! (ty, p, id) with None => Some 0%N | Some st => checked_add_u64 (st_revision st) 1 end)
    as [rev|] eqn:Hrev; [|discriminate].
  injection Hput as <- <-. cbn [doc_revision]. bool_facts.
  assert (Hr : rev = match s_states s !! (ty, p, id) with None => 0 | Some st => st_revision st + 1 end%N).
  { destruct (s_states s !! (ty, p, id)); [by apply checked_add_u64_Some in Hrev as [-> _]|by injection Hrev as <-]. }
  split_ands; try done.
  change (fence_of (with_state (ty, p, id) (mkState rev data) hlc s) ty p) with (fence_of s ty p).
  rewrite (proj2 (N.eqb_eq _ _) Hf). cbn [negb s_versions with_state]. rewrite Hv.
  cbn [s_states with_state]. rewrite lookup_insert_eq.
  assert (Hm2 : state_matches expected (Some (mkState rev data)) = false).
  { destruct expected as [|e]; cbn in *; [done|]. destruct (s_states s !! (ty, p, id)) as [st|]; [|discriminate].
    bool_facts. apply N.eqb_neq. lia. }
  by rewrite Hm2.
Qed.

End Logs.

(** ** Deleting and recreating a group *)

Section Recreate.
Context `{Xxh3}.

Lemma step_group_catalog_changed s cmd c r :
  group_catalog_apply (default group_catalog_default (s_group_catalog s)) cmd = (c, r) ->
  gc_revision c <> gc_revision (default group_catalog_default (s_group_catalog s)) ->
  shard_step s (CommitAggregateGroupCatalog cmd) =
    (with_group_catalog (Some c) s, AggregateGroupCatalogApplied r).
Proof.
  intros Ha Hne. cbn [shard_step]. unfold step_group_catalog. rewrite Ha.
  by rewrite (proj2 (N.eqb_neq _ _) Hne).
Qed.

Lemma step_group_partition_current s ty p g name epoch start settings command st :
  type_id_ok ty -> identifier_ok name -> settings_validate settings = Ok tt ->
  fence_of s ty p = g -> s_groups s !! (ty, p, name) = Some st -> gp_epoch st = epoch ->
  shard_step s (GroupPartitionRequest ty p g name epoch start settings command) =
    (with_group (ty, p, name) (group_command st epoch settings command).1 s,
     (group_command st epoch settings command).2).
Proof.
  intros Ht Hn Hs Hf Hst He. cbn [shard_step]. unfold step_group_partition.
  rewrite (proj2 (type_id_validate_iff ty) Ht), (proj2 (validate_identifier_iff _ name) Hn), Hs, Hf.
  rewrite N.eqb_refl, Hst. cbn [negb from_option id]. rewrite He, !N.ltb_irrefl.
  by destruct (group_command st epoch settings command).
Qed.

(** A consumer group that is deleted and created again starts from epoch 1
    again, while the partition state of the deleted group is still stored: if
    that state is of epoch 1, the first request of the new group runs on the old
    progress, deliveries and retries, whatever start position the new group was
    given. *)
Theorem recreated_group_inherits_progress (s : shard) (old def : AggregateGroupDefinition)
  (op p g start : N) (st : AggregateGroupPartition) (count : N)
  (settings : AggregateGroupSettings) (command : AggregateGroupPartitionCommand) :
  let ty := gd_aggregate_type def in
  let name := gd_name def in
  let c := default group_catalog_default (s_group_catalog s) in
  forall (Hold : gc_groups c !! (ty, name) = Some old)
    (Hop : gd_last_operation_id old <> op)
    (Hdef : group_validate def count = Ok tt) (Hset : settings_validate settings = Ok tt)
    (Hrev : (gc_revision c + 2 <= u64_max)%N)
    (Hfence : fence_of s ty p = g) (Hst : s_groups s !! (ty, p, name) = Some st) (He : gp_epoch st = 1%N),
  let s1 := (shard_step s (CommitAggregateGroupCatalog
                            (GroupDelete ty name (gd_revision old) op))).1 in
  let s2 := (shard_step s1 (CommitAggregateGroupCatalog (GroupCreate def count))).1 in
  exists c2, s_group_catalog s2 = Some c2 /\
    gc_groups c2 !! (ty, name) = Some (group_created def) /\ gd_epoch (group_created def) = 1%N /\
    (shard_step s2 (GroupPartitionRequest ty p g name 1 start settings command)).2 =
      (group_command st 1 settings command).2.
Proof.
  intros ty name c Hold Hop Hdef Hset Hrev Hfence Hst He s1 s2.
  assert (Hids : type_id_validate ty = Ok tt /\ validate_aggregate_identifier "group_name" name = Ok tt).
  { unfold group_validate in Hdef. inv_result.
    repeat match goal with Hm : map_err _ _ = Ok ?u |- _ => apply map_err_Ok in Hm; destruct u end. done. }
  destruct Hids as [Hty Hname].
  set (c1 := mkGroupCatalog (saturating_add_u64 (gc_revision c) 1) (delete (ty, name) (gc_groups c))
               (<[(ty, name) := op]> (gc_deleted_operations c))).
  assert (Hs1 : s1 = with_group_catalog (Some c1) s).
  { subst s1. erewrite step_group_catalog_changed; [done| |].
    - unfold group_catalog_apply, group_delete. fold c. rewrite Hty, Hname. cbn [map_err mbind result_bind].
      by rewrite Hold, (proj2 (N.eqb_neq _ _) Hop), N.eqb_refl.
    - fold c. cbn. unfold saturating_add_u64. lia. }
  set (c2 := mkGroupCatalog (saturating_add_u64 (gc_revision c1) 1)
               (<[(ty, name) := group_created def]> (gc_groups c1)) (delete (ty, name) (gc_deleted_operations c1))).
  assert (Hs2 : s2 = with_group_catalog (Some c2) s1).
  { subst s2. erewrite step_group_catalog_changed; [done| |]; rewrite Hs1; cbn [s_group_catalog with_group_catalog default].
    - unfold group_catalog_apply, group_create. rewrite Hdef.
      change (group_key def) with (ty, name). cbn [from_option id].
      assert (Hn : gc_groups c1 !! (ty, name) = None) by apply lookup_delete_eq. by rewrite Hn.
    - cbn. unfold saturating_add_u64. lia. }
  exists c2. rewrite Hs2. split_ands; [done|apply lookup_insert_eq|done|].
  rewrite (step_group_partition_current _ _ _ _ _ _ _ _ _ st); try done.
  - by apply type_id_validate_iff.
  - by apply (validate_identifier_iff "group_name").
  - by rewrite Hs1.
  - by rewrite Hs1.
Qed.

End Recreate.

(** ** Witnesses *)

Definition demo_append_request (id : string) (event_id : Uuid) (expected : ExpectedAggregateVersion) : EsRequest :=
  AggregateAppend demo_type 3 1 id expected (mkNewEvent event_id "created" [x01] []) (mkHlc 10 0).

Definition demo_log : list (Entry N) :=
  [mkEntry (mkLogId 1 1 0) Blank;
   mkEntry (mkLogId 1 1 1) (Normal (InstallAggregatePartitionFence demo_type 3 1));
   mkEntry (mkLogId 1 1 2) (Normal (demo_append_request "order-1" 7 NoAggregate));
   mkEntry (mkLogId 1 1 3) (Normal (demo_append_request "order-1" 8 (ExactVersion 0)))].

Lemma demo_log_wf : Forall entry_wf demo_log.
Proof. unfold demo_log. repeat constructor; cbn; lia. Qed.

Example demo_log_responses :
  (@shard_run demo_xxh3 N shard_empty demo_log).2 =
  [Noop; AggregatePartitionFenceInstalled 1; AggregateAppendOk 0 0; AggregateAppendOk 1 1].
Proof. vm_compute. reflexivity. Qed.

Definition demo_group_shard : shard :=
  mkShard ∅ ∅ ∅ ∅ ∅ ∅ ∅ {[(demo_type, 0%N) := 1%N]} None (Some demo_group_catalog)
    {[(demo_type, 0%N, "workers") := partition_new 1 99]}.

Lemma recreated_group_inherits_progress_witness :
  exists c2, s_group_catalog
    (@shard_step demo_xxh3
       (@shard_step demo_xxh3 demo_group_shard
          (CommitAggregateGroupCatalog (GroupDelete demo_type "workers" 1 41))).1
       (CommitAggregateGroupCatalog (GroupCreate demo_group 2))).1 = Some c2.
Proof.
  destruct (@recreated_group_inherits_progress demo_xxh3 demo_group_shard (group_created demo_group)
    demo_group 41 0 1 1 (partition_new 1 99) 2 settings_default (GExpire 0)
    ltac:(apply (bool_decide_unpack _); vm_compute; exact I) ltac:(discriminate)
    ltac:(vm_compute; reflexivity) ltac:(reflexivity) ltac:(vm_compute; discriminate)
    ltac:(vm_compute; reflexivity) ltac:(vm_compute; reflexivity) ltac:(reflexivity)) as (c2 & Hc & _).
  exists c2. exact Hc.
Defined.
