(* ===== verification/Codecs.v ===== *)
(** * Concrete codecs

    An encoding for every persisted type, built on [countable_codec]: each type
    is countable, so the laws the development assumes of the codec can hold,
    all at once. The theorems do not depend on this file; their witnesses do. *)

From S2P Require Import Prelude.
From S2P Require Import Bytes.
From S2P Require Import Core.
From S2P Require Import Aggregate.
From S2P Require Import Catalog.
From S2P Require Import GroupCatalog.
From S2P Require Import GroupPartition.
From S2P Require Import Keys.
From S2P Require Import Store.
From S2P Require Import RaftType.
From S2P Require Import LogStore.
From S2P Require Import StateMachine.

#[export] Instance Hlc_countable : Countable Hlc.
Proof.
  by refine (inj_countable' (fun r => (wall r, logical r))
    (fun '(x0, x1) => mkHlc x0 x1) _); intros [].
Defined.

#[export] Instance AggregateMeta_eq_dec : EqDecision AggregateMeta.
Proof. solve_decision. Defined.

#[export] Instance AggregateMeta_countable : Countable AggregateMeta.
Proof.
  by refine (inj_countable' (fun r => current_version r)
    (fun x0 => mkMeta x0) _); intros [].
Defined.

#[export] Instance AggregateEvent_countable : Countable AggregateEvent.
Proof.
  by refine (inj_countable' (fun r => (ev_aggregate_type r, ev_partition_id r, ev_aggregate_id r, ev_aggregate_version r, ev_event_id r, ev_event_type r, ev_data r, ev_metadata r, ev_hlc r, ev_partition_position r))
    (fun '(x0, x1, x2, x3, x4, x5, x6, x7, x8, x9) => mkEvent x0 x1 x2 x3 x4 x5 x6 x7 x8 x9) _); intros [].
Defined.

#[export] Instance AggregateState_countable : Countable AggregateState.
Proof.
  by refine (inj_countable' (fun r => (st_revision r, st_data r))
    (fun '(x0, x1) => mkState x0 x1) _); intros [].
Defined.

#[export] Instance AggregateAppendResult_countable : Countable AggregateAppendResult.
Proof.
  by refine (inj_countable' (fun r => (ar_aggregate_version r, ar_partition_position r))
    (fun '(x0, x1) => mkAppendResult x0 x1) _); intros [].
Defined.

#[export] Instance AggregateIdempotencyRecord_eq_dec : EqDecision AggregateIdempotencyRecord.
Proof. solve_decision. Defined.

#[export] Instance AggregateIdempotencyRecord_countable : Countable AggregateIdempotencyRecord.
Proof.
  by refine (inj_countable' (fun r => (id_fingerprint r, id_result r))
    (fun '(x0, x1) => mkIdem x0 x1) _); intros [].
Defined.

#[export] Instance EventPartitionHash_countable : Countable EventPartitionHash.
Proof. by refine (inj_countable' (fun _ => tt) (fun _ => Xxh3V1) _); intros []. Defined.

#[export] Instance AggregateTypeStatus_countable : Countable AggregateTypeStatus.
Proof.
  by refine (inj_countable' (fun s => bool_decide (s = Active))
    (fun b : bool => if b then Active else Registering) _); intros [].
Defined.

#[export] Instance AggregateGroupStart_countable : Countable AggregateGroupStart.
Proof.
  by refine (inj_countable' (fun s => bool_decide (s = StartNow))
    (fun b : bool => if b then StartNow else StartBeginning) _); intros [].
Defined.

#[export] Instance PartitionMove_countable : Countable PartitionMove.
Proof.
  by refine (inj_countable' (fun r => (mv_operation_id r, mv_source_shard r, mv_target_shard r, mv_next_generation r))
    (fun '(x0, x1, x2, x3) => mkMove x0 x1 x2 x3) _); intros [].
Defined.

#[export] Instance PartitionPlacement_countable : Countable PartitionPlacement.
Proof.
  by refine (inj_countable' (fun r => (pl_shard_id r, pl_generation r, pl_pending_move r, pl_last_completed_operation r))
    (fun '(x0, x1, x2, x3) => mkPlacement x0 x1 x2 x3) _); intros [].
Defined.

#[export] Instance AggregateTypeDefinition_countable : Countable AggregateTypeDefinition.
Proof.
  by refine (inj_countable' (fun r => (td_id r, td_create_operation_id r, td_create_plan_fingerprint r, td_seed r, td_partition_count r, td_hash_algorithm r, td_status r, td_placements r))
    (fun '(x0, x1, x2, x3, x4, x5, x6, x7) => mkDefinition x0 x1 x2 x3 x4 x5 x6 x7) _); intros [].
Defined.

#[export] Instance AggregateCatalog_eq_dec : EqDecision AggregateCatalog.
Proof. solve_decision. Defined.

#[export] Instance AggregateCatalog_countable : Countable AggregateCatalog.
Proof.
  by refine (inj_countable' (fun r => (cat_revision r, cat_aggregate_types r))
    (fun '(x0, x1) => mkCatalog x0 x1) _); intros [].
Defined.

#[export] Instance AggregateGroupSettings_countable : Countable AggregateGroupSettings.
Proof.
  by refine (inj_countable' (fun r => (max_unacked_per_consumer r, max_unacked_per_group r, ack_timeout_ms r, max_retries r, retry_min_ms r, retry_max_ms r))
    (fun '(x0, x1, x2, x3, x4, x5) => mkSettings x0 x1 x2 x3 x4 x5) _); intros [].
Defined.

#[export] Instance AggregateGroupDefinition_countable : Countable AggregateGroupDefinition.
Proof.
  by refine (inj_countable' (fun r => (gd_aggregate_type r, gd_name r, gd_revision r, gd_epoch r, gd_start r, gd_partition_starts r, gd_settings r, gd_create_operation_id r, gd_last_operation_id r))
    (fun '(x0, x1, x2, x3, x4, x5, x6, x7, x8) => mkGroup x0 x1 x2 x3 x4 x5 x6 x7 x8) _); intros [].
Defined.

#[export] Instance AggregateGroupCatalog_eq_dec : EqDecision AggregateGroupCatalog.
Proof. solve_decision. Defined.

#[export] Instance AggregateGroupCatalog_countable : Countable AggregateGroupCatalog.
Proof.
  by refine (inj_countable' (fun r => (gc_revision r, gc_groups r, gc_deleted_operations r))
    (fun '(x0, x1, x2) => mkGroupCatalog x0 x1 x2) _); intros [].
Defined.

#[export] Instance AggregateInstanceLease_countable : Countable AggregateInstanceLease.
Proof.
  by refine (inj_countable' (fun r => (ls_consumer_id r, ls_group_epoch r, ls_deadline_ms r))
    (fun '(x0, x1, x2) => mkLease x0 x1 x2) _); intros [].
Defined.

#[export] Instance AggregateGroupDelivery_countable : Countable AggregateGroupDelivery.
Proof.
  by refine (inj_countable' (fun r => (dl_delivery_id r, dl_consumer_id r, dl_partition_position r, dl_aggregate_id r, dl_aggregate_version r, dl_event_id r, dl_attempt r, dl_deadline_ms r, dl_group_epoch r, dl_replayed r))
    (fun '(x0, x1, x2, x3, x4, x5, x6, x7, x8, x9) => mkDelivery x0 x1 x2 x3 x4 x5 x6 x7 x8 x9) _); intros [].
Defined.

#[export] Instance AggregateGroupRetry_countable : Countable AggregateGroupRetry.
Proof.
  by refine (inj_countable' (fun r => (rt_partition_position r, rt_aggregate_id r, rt_aggregate_version r, rt_event_id r, rt_attempt r, rt_not_before_ms r, rt_replayed r))
    (fun '(x0, x1, x2, x3, x4, x5, x6) => mkRetry x0 x1 x2 x3 x4 x5 x6) _); intros [].
Defined.

#[export] Instance AggregateGroupParked_countable : Countable AggregateGroupParked.
Proof.
  by refine (inj_countable' (fun r => (pk_partition_position r, pk_aggregate_id r, pk_aggregate_version r, pk_event_id r, pk_attempts r, pk_reason r, pk_parked_at_ms r))
    (fun '(x0, x1, x2, x3, x4, x5, x6) => mkParked x0 x1 x2 x3 x4 x5 x6) _); intros [].
Defined.

#[export] Instance AggregateGroupPartition_countable : Countable AggregateGroupPartition.
Proof.
  by refine (inj_countable' (fun r => (gp_epoch r, gp_next_position r, gp_resolved_gaps r, gp_leases r, gp_deliveries r, gp_pending_retries r, gp_parked r))
    (fun '(x0, x1, x2, x3, x4, x5, x6) => mkPartition x0 x1 x2 x3 x4 x5 x6) _); intros [].
Defined.

#[export] Instance StoredMembership_eq_dec {M} `{EqDecision M} : EqDecision (StoredMembership M).
Proof. solve_decision. Defined.

#[export] Instance StoredMembership_countable {M} `{Countable M} : Countable (StoredMembership M).
Proof.
  by refine (inj_countable' (fun r => (sm_log_id r, sm_membership r)) (fun '(x0, x1) => mkStored x0 x1) _); intros [].
Defined.

#[export] Instance AppliedState_eq_dec {M} `{EqDecision M} : EqDecision (AppliedState M).
Proof. solve_decision. Defined.

#[export] Instance AppliedState_countable {M} `{Countable M} : Countable (AppliedState M).
Proof.
  by refine (inj_countable' (fun r => (as_last_applied r, as_membership r)) (fun '(x0, x1) => mkApplied x0 x1) _); intros [].
Defined.

(** Membership is a number here. *)
Definition demo_codecs : SmCodecs N := {|
  c_meta := countable_codec AggregateMeta;
  c_event := countable_codec AggregateEvent;
  c_pointer := countable_codec (string * N);
  c_state := countable_codec AggregateState;
  c_hlc := countable_codec Hlc;
  c_u64 := countable_codec N;
  c_idem := countable_codec AggregateIdempotencyRecord;
  c_catalog := countable_codec AggregateCatalog;
  c_group_catalog := countable_codec AggregateGroupCatalog;
  c_group_partition := countable_codec AggregateGroupPartition;
  c_applied := countable_codec (AppliedState N)
|}.

Lemma demo_codec_laws : @SmCodecLaws N demo_codecs.
Proof. split; cbn; apply countable_codec_laws. Qed.
