(* ===== verification/RequestCodecs.v ===== *)
(** * Concrete codecs of the requests and responses

    The messages of the Raft log and of the internal service are countable too;
    the witnesses of the service's theorems use the codecs built on that. *)

From S2P Require Import Prelude.
From S2P Require Import Bytes.
From S2P Require Import Core.
From S2P Require Import Aggregate.
From S2P Require Import Catalog.
From S2P Require Import GroupCatalog.
From S2P Require Import GroupPartition.
From S2P Require Import Keys.
From S2P Require Import Store.
From S2P Require Import RaftType.
From S2P Require Import LogStore.
From S2P Require Import StateMachine.
From S2P Require Import Codecs.

#[export] Instance AggregateCatalogCommand_eq_dec : EqDecision AggregateCatalogCommand.
Proof. solve_decision. Defined.

#[export] Instance AggregateCatalogCommand_countable : Countable AggregateCatalogCommand.
Proof.
  by refine (inj_countable' (fun r => match r with
    | CmdCreate x0 x1 x2 x3 => inl (x0, x1, x2, x3)
    | CmdActivate x0 x1 => inr (inl (x0, x1))
    | CmdPrepareMove x0 x1 x2 x3 x4 => inr (inr (inl (x0, x1, x2, x3, x4)))
    | CmdCompleteMove x0 x1 x2 => inr (inr (inr ((x0, x1, x2))))
    end) (fun s => match s with
    | inl (x0, x1, x2, x3) => CmdCreate x0 x1 x2 x3
    | inr (inl (x0, x1)) => CmdActivate x0 x1
    | inr (inr (inl (x0, x1, x2, x3, x4))) => CmdPrepareMove x0 x1 x2 x3 x4
    | inr (inr (inr ((x0, x1, x2)))) => CmdCompleteMove x0 x1 x2
    end) _); intros [].
Defined.

#[export] Instance AggregateCatalogOutcome_eq_dec : EqDecision AggregateCatalogOutcome.
Proof. solve_decision. Defined.

#[export] Instance AggregateCatalogOutcome_countable : Countable AggregateCatalogOutcome.
Proof.
  by refine (inj_countable' (fun r => match r with
    | OutType x0 x1 => inl (x0, x1)
    | OutNotFound => inr (inl tt)
    | OutConflict x0 => inr (inr (inl x0))
    | OutInvalid x0 => inr (inr (inr x0))
    end) (fun s => match s with
    | inl (x0, x1) => OutType x0 x1
    | inr (inl tt) => OutNotFound
    | inr (inr (inl x0)) => OutConflict x0
    | inr (inr (inr x0)) => OutInvalid x0
    end) _); intros [].
Defined.

#[export] Instance AggregateCatalogApply_eq_dec : EqDecision AggregateCatalogApply.
Proof. solve_decision. Defined.

#[export] Instance AggregateCatalogApply_countable : Countable AggregateCatalogApply.
Proof.
  by refine (inj_countable' (fun r => match r with
    | mkCatalogApply x0 x1 => (x0, x1)
    end) (fun s => match s with
    | (x0, x1) => mkCatalogApply x0 x1
    end) _); intros [].
Defined.

#[export] Instance AggregateGroupCatalogCommand_eq_dec : EqDecision AggregateGroupCatalogCommand.
Proof. solve_decision. Defined.

#[export] Instance AggregateGroupCatalogCommand_countable : Countable AggregateGroupCatalogCommand.
Proof.
  by refine (inj_countable' (fun r => match r with
    | GroupCreate x0 x1 => inl (x0, x1)
    | GroupReplace x0 x1 x2 x3 => inr (inl (x0, x1, x2, x3))
    | GroupDelete x0 x1 x2 x3 => inr (inr ((x0, x1, x2, x3)))
    end) (fun s => match s with
    | inl (x0, x1) => GroupCreate x0 x1
    | inr (inl (x0, x1, x2, x3)) => GroupReplace x0 x1 x2 x3
    | inr (inr ((x0, x1, x2, x3))) => GroupDelete x0 x1 x2 x3
    end) _); intros [].
Defined.

#[export] Instance AggregateGroupCatalogOutcome_eq_dec : EqDecision AggregateGroupCatalogOutcome.
Proof. solve_decision. Defined.

#[export] Instance AggregateGroupCatalogOutcome_countable : Countable AggregateGroupCatalogOutcome.
Proof.
  by refine (inj_countable' (fun r => match r with
    | GOutGroup x0 => inl x0
    | GOutDeleted => inr (inl tt)
    | GOutNotFound => inr (inr (inl tt))
    | GOutConflict x0 => inr (inr (inr (inl x0)))
    | GOutInvalid x0 => inr (inr (inr (inr x0)))
    end) (fun s => match s with
    | inl x0 => GOutGroup x0
    | inr (inl tt) => GOutDeleted
    | inr (inr (inl tt)) => GOutNotFound
    | inr (inr (inr (inl x0))) => GOutConflict x0
    | inr (inr (inr (inr x0))) => GOutInvalid x0
    end) _); intros [].
Defined.

#[export] Instance AggregateGroupCatalogApply_eq_dec : EqDecision AggregateGroupCatalogApply.
Proof. solve_decision. Defined.

#[export] Instance AggregateGroupCatalogApply_countable : Countable AggregateGroupCatalogApply.
Proof.
  by refine (inj_countable' (fun r => match r with
    | mkGroupApply x0 x1 => (x0, x1)
    end) (fun s => match s with
    | (x0, x1) => mkGroupApply x0 x1
    end) _); intros [].
Defined.

#[export] Instance NewAggregateEvent_countable : Countable NewAggregateEvent.
Proof.
  by refine (inj_countable' (fun r => match r with
    | mkNewEvent x0 x1 x2 x3 => (x0, x1, x2, x3)
    end) (fun s => match s with
    | (x0, x1, x2, x3) => mkNewEvent x0 x1 x2 x3
    end) _); intros [].
Defined.

#[export] Instance ExpectedAggregateVersion_countable : Countable ExpectedAggregateVersion.
Proof.
  by refine (inj_countable' (fun r => match r with
    | AnyVersion => inl tt
    | NoAggregate => inr (inl tt)
    | AggregateExists => inr (inr (inl tt))
    | ExactVersion x0 => inr (inr (inr x0))
    end) (fun s => match s with
    | inl tt => AnyVersion
    | inr (inl tt) => NoAggregate
    | inr (inr (inl tt)) => AggregateExists
    | inr (inr (inr x0)) => ExactVersion x0
    end) _); intros [].
Defined.

#[export] Instance ExpectedStateRevision_eq_dec : EqDecision ExpectedStateRevision.
Proof. solve_decision. Defined.

#[export] Instance ExpectedStateRevision_countable : Countable ExpectedStateRevision.
Proof.
  by refine (inj_countable' (fun r => match r with
    | Absent => inl tt
    | ExactRevision x0 => inr x0
    end) (fun s => match s with
    | inl tt => Absent
    | inr x0 => ExactRevision x0
    end) _); intros [].
Defined.

#[export] Instance AggregateStateDocument_countable : Countable AggregateStateDocument.
Proof.
  by refine (inj_countable' (fun r => match r with
    | mkDocument x0 x1 x2 => (x0, x1, x2)
    end) (fun s => match s with
    | (x0, x1, x2) => mkDocument x0 x1 x2
    end) _); intros [].
Defined.

#[export] Instance AggregateDeliveryCandidate_eq_dec : EqDecision AggregateDeliveryCandidate.
Proof. solve_decision. Defined.

#[export] Instance AggregateDeliveryCandidate_countable : Countable AggregateDeliveryCandidate.
Proof.
  by refine (inj_countable' (fun r => match r with
    | mkCandidate x0 x1 x2 x3 x4 x5 x6 => (x0, x1, x2, x3, x4, x5, x6)
    end) (fun s => match s with
    | (x0, x1, x2, x3, x4, x5, x6) => mkCandidate x0 x1 x2 x3 x4 x5 x6
    end) _); intros [].
Defined.

#[export] Instance AggregateSettlementAction_eq_dec : EqDecision AggregateSettlementAction.
Proof. solve_decision. Defined.

#[export] Instance AggregateSettlementAction_countable : Countable AggregateSettlementAction.
Proof.
  by refine (inj_countable' (fun r => match r with
    | ActAck => inl tt
    | ActRetry => inr (inl tt)
    | ActPark => inr (inr (inl tt))
    | ActSkip => inr (inr (inr tt))
    end) (fun s => match s with
    | inl tt => ActAck
    | inr (inl tt) => ActRetry
    | inr (inr (inl tt)) => ActPark
    | inr (inr (inr tt)) => ActSkip
    end) _); intros [].
Defined.

#[export] Instance AggregateSettlement_eq_dec : EqDecision AggregateSettlement.
Proof. solve_decision. Defined.

#[export] Instance AggregateSettlement_countable : Countable AggregateSettlement.
Proof.
  by refine (inj_countable' (fun r => match r with
    | mkSettlement x0 x1 x2 => (x0, x1, x2)
    end) (fun s => match s with
    | (x0, x1, x2) => mkSettlement x0 x1 x2
    end) _); intros [].
Defined.

#[export] Instance AggregateSettlementResult_countable : Countable AggregateSettlementResult.
Proof.
  by refine (inj_countable' (fun r => match r with
    | GroupPartition.Applied => inl tt
    | AlreadySettled => inr (inl tt)
    | StaleLease => inr (inr (inl tt))
    | WrongConsumer => inr (inr (inr tt))
    end) (fun s => match s with
    | inl tt => GroupPartition.Applied
    | inr (inl tt) => AlreadySettled
    | inr (inr (inl tt)) => StaleLease
    | inr (inr (inr tt)) => WrongConsumer
    end) _); intros [].
Defined.

#[export] Instance AggregateGroupPartitionCommand_eq_dec : EqDecision AggregateGroupPartitionCommand.
Proof. solve_decision. Defined.

#[export] Instance AggregateGroupPartitionCommand_countable : Countable AggregateGroupPartitionCommand.
Proof.
  by refine (inj_countable' (fun r => match r with
    | GClaim x0 x1 x2 x3 x4 x5 => inl (x0, x1, x2, x3, x4, x5)
    | GSettle x0 x1 x2 => inr (inl (x0, x1, x2))
    | GRenew x0 x1 x2 => inr (inr (inl (x0, x1, x2)))
    | GExpire x0 => inr (inr (inr x0))
    end) (fun s => match s with
    | inl (x0, x1, x2, x3, x4, x5) => GClaim x0 x1 x2 x3 x4 x5
    | inr (inl (x0, x1, x2)) => GSettle x0 x1 x2
    | inr (inr (inl (x0, x1, x2))) => GRenew x0 x1 x2
    | inr (inr (inr x0)) => GExpire x0
    end) _); intros [].
Defined.

#[export] Instance EsRequest_eq_dec : EqDecision EsRequest.
Proof. solve_decision. Defined.

#[export] Instance EsRequest_countable : Countable EsRequest.
Proof.
  by refine (inj_countable' (fun r => match r with
    | AggregateAppend x0 x1 x2 x3 x4 x5 x6 => inl (x0, x1, x2, x3, x4, x5, x6)
    | PutAggregateState x0 x1 x2 x3 x4 x5 x6 => inr (inl (x0, x1, x2, x3, x4, x5, x6))
    | InstallAggregatePartitionFence x0 x1 x2 => inr (inr (inl (x0, x1, x2)))
    | CommitAggregateCatalog x0 => inr (inr (inr (inl x0)))
    | CommitAggregateGroupCatalog x0 => inr (inr (inr (inr (inl x0))))
    | GroupPartitionRequest x0 x1 x2 x3 x4 x5 x6 x7 => inr (inr (inr (inr (inr ((x0, x1, x2, x3, x4, x5, x6, x7))))))
    end) (fun s => match s with
    | inl (x0, x1, x2, x3, x4, x5, x6) => AggregateAppend x0 x1 x2 x3 x4 x5 x6
    | inr (inl (x0, x1, x2, x3, x4, x5, x6)) => PutAggregateState x0 x1 x2 x3 x4 x5 x6
    | inr (inr (inl (x0, x1, x2))) => InstallAggregatePartitionFence x0 x1 x2
    | inr (inr (inr (inl x0))) => CommitAggregateCatalog x0
    | inr (inr (inr (inr (inl x0)))) => CommitAggregateGroupCatalog x0
    | inr (inr (inr (inr (inr ((x0, x1, x2, x3, x4, x5, x6, x7)))))) => GroupPartitionRequest x0 x1 x2 x3 x4 x5 x6 x7
    end) _); intros [].
Defined.

#[export] Instance EsResponse_eq_dec : EqDecision EsResponse.
Proof. solve_decision. Defined.

#[export] Instance EsResponse_countable : Countable EsResponse.
Proof.
  by refine (inj_countable' (fun r => match r with
    | Noop => inl tt
    | AggregateAppendOk x0 x1 => inr (inl (x0, x1))
    | AggregateOptimisticConflict x0 => inr (inr (inl x0))
    | AggregateIdempotencyConflict => inr (inr (inr (inl tt)))
    | AggregateNotFound => inr (inr (inr (inr (inl tt))))
    | AggregateStateStored x0 => inr (inr (inr (inr (inr (inl x0)))))
    | AggregateStateConflict x0 => inr (inr (inr (inr (inr (inr (inl x0))))))
    | AggregatePartitionFenceInstalled x0 => inr (inr (inr (inr (inr (inr (inr (inl x0)))))))
    | AggregatePartitionFenced x0 => inr (inr (inr (inr (inr (inr (inr (inr (inl x0))))))))
    | AggregateCatalogApplied x0 => inr (inr (inr (inr (inr (inr (inr (inr (inr (inl x0)))))))))
    | AggregateInvalid x0 => inr (inr (inr (inr (inr (inr (inr (inr (inr (inr (inl x0))))))))))
    | AggregateGroupCatalogApplied x0 => inr (inr (inr (inr (inr (inr (inr (inr (inr (inr (inr (inl x0)))))))))))
    | AggregateGroupClaimed x0 => inr (inr (inr (inr (inr (inr (inr (inr (inr (inr (inr (inr (inl x0))))))))))))
    | AggregateGroupSettled x0 => inr (inr (inr (inr (inr (inr (inr (inr (inr (inr (inr (inr (inr (inl x0)))))))))))))
    | AggregateGroupRenewed x0 => inr (inr (inr (inr (inr (inr (inr (inr (inr (inr (inr (inr (inr (inr (inl x0))))))))))))))
    | AggregateGroupExpired x0 => inr (inr (inr (inr (inr (inr (inr (inr (inr (inr (inr (inr (inr (inr (inr (inl x0)))))))))))))))
    | AggregateGroupStaleEpoch x0 => inr (inr (inr (inr (inr (inr (inr (inr (inr (inr (inr (inr (inr (inr (inr (inr x0)))))))))))))))
    end) (fun s => match s with
    | inl tt => Noop
    | inr (inl (x0, x1)) => AggregateAppendOk x0 x1
    | inr (inr (inl x0)) => AggregateOptimisticConflict x0
    | inr (inr (inr (inl tt))) => AggregateIdempotencyConflict
    | inr (inr (inr (inr (inl tt)))) => AggregateNotFound
    | inr (inr (inr (inr (inr (inl x0))))) => AggregateStateStored x0
    | inr (inr (inr (inr (inr (inr (inl x0)))))) => AggregateStateConflict x0
    | inr (inr (inr (inr (inr (inr (inr (inl x0))))))) => AggregatePartitionFenceInstalled x0
    | inr (inr (inr (inr (inr (inr (inr (inr (inl x0)))))))) => AggregatePartitionFenced x0
    | inr (inr (inr (inr (inr (inr (inr (inr (inr (inl x0))))))))) => AggregateCatalogApplied x0
    | inr (inr (inr (inr (inr (inr (inr (inr (inr (inr (inl x0)))))))))) => AggregateInvalid x0
    | inr (inr (inr (inr (inr (inr (inr (inr (inr (inr (inr (inl x0))))))))))) => AggregateGroupCatalogApplied x0
    | inr (inr (inr (inr (inr (inr (inr (inr (inr (inr (inr (inr (inl x0)))))))))))) => AggregateGroupClaimed x0
    | inr (inr (inr (inr (inr (inr (inr (inr (inr (inr (inr (inr (inr (inl x0))))))))))))) => AggregateGroupSettled x0
    | inr (inr (inr (inr (inr (inr (inr (inr (inr (inr (inr (inr (inr (inr (inl x0)))))))))))))) => AggregateGroupRenewed x0
    | inr (inr (inr (inr (inr (inr (inr (inr (inr (inr (inr (inr (inr (inr (inr (inl x0))))))))))))))) => AggregateGroupExpired x0
    | inr (inr (inr (inr (inr (inr (inr (inr (inr (inr (inr (inr (inr (inr (inr (inr x0))))))))))))))) => AggregateGroupStaleEpoch x0
    end) _); intros [].
Defined.

