(* ===== verification/Apply.v ===== *)
(** * The state machine implements its specification

    [apply] works on bytes: it reads the committed tree through the codec, keeps
    what it changed in the caches of the batch and commits once at the end.
    [ShardRep] says that a tree holds a shard state under the shard's
    state-machine keys; [BatchInv] is the invariant of an open batch. The
    theorems show that a batch of entries has exactly the effect and the
    responses of applying them one by one to the specification of
    [ShardSpec.v], on this shard's keys only. *)

From S2P Require Import Prelude.
From S2P Require Import Bytes.
From S2P Require Import Core.
From S2P Require Import Aggregate.
From S2P Require Import Catalog.
From S2P Require Import GroupCatalog.
From S2P Require Import GroupPartition.
From S2P Require Import Keys.
From S2P Require Import Store.
From S2P Require Import RaftType.
From S2P Require Import LogStore.
From S2P Require Import StateMachine.
From S2P Require Import ShardSpec.
From S2P Require Import Codecs.

(** ** Pending writes *)

Definition puts (v : gmap Bytes Bytes) (ops : list ApplyOp) : gmap Bytes Bytes :=
  foldl (fun m op => <[op.1 := op.2]> m) v ops.

Lemma puts_app v l1 l2 : puts v (l1 ++ l2) = puts (puts v l1) l2.
Proof. apply foldl_app. Qed.

Lemma puts_snoc v ops k b : puts v (ops ++ [(k, b)]) = <[k := b]> (puts v ops).
Proof. by rewrite puts_app. Qed.

Lemma puts_txn v ops : apply_txn v (map (fun op => TxnSet op.1 op.2) ops) = puts v ops.
Proof. revert v. induction ops as [|[k b] ops IH]; intros v; [done|]. cbn. apply IH. Qed.

(** Dropping the writes of a key that is written again does not show. *)
Lemma puts_retain v ops k b :
  <[k := b]> (puts v (List.filter (fun op => negb (bool_decide (op.1 = k))) ops)) =
  <[k := b]> (puts v ops).
Proof.
  apply map_eq. intros j. destruct (decide (k = j)) as [<-|Hne]; [by rewrite !lookup_insert_eq|].
  rewrite !lookup_insert_ne by done. revert v.
  induction ops as [|[k' b'] ops IH]; intros v; [done|]. cbn [List.filter fst].
  destruct (decide (k' = k)) as [->|Hk].
  - rewrite bool_decide_eq_true_2 by done. cbn [negb puts foldl fst snd]. fold (puts (<[k := b']> v) ops).
    rewrite <- IH. clear IH. generalize (List.filter (fun op => negb (bool_decide (op.1 = k))) ops).
    intros l. enough (Hg : forall v1 v2, v1 !! j = v2 !! j -> puts v1 l !! j = puts v2 l !! j)
      by (apply Hg; by rewrite lookup_insert_ne).
    clear. induction l as [|[k2 b2] l IH]; intros v1 v2 Hv; [done|]. cbn. apply IH.
    destruct (decide (k2 = j)) as [->|]; [by rewrite !lookup_insert_eq|by rewrite !lookup_insert_ne].
  - rewrite bool_decide_eq_false_2 by done. cbn [negb puts foldl fst snd].
    fold (puts (<[k' := b']> v) ops). apply IH.
Qed.

(** ** Representation *)

(** Field updates of a shard state. *)
Definition with_next (n : gmap PartitionKey N) (s : shard) : shard :=
  mkShard (s_events s) (s_versions s) (s_index s) n (s_states s) (s_modified s) (s_idem s)
    (s_fences s) (s_catalog s) (s_group_catalog s) (s_groups s).

Definition with_event (k : EventKey) (e : AggregateEvent) (s : shard) : shard :=
  mkShard (<[k := e]> (s_events s)) (s_versions s) (s_index s) (s_next s) (s_states s) (s_modified s)
    (s_idem s) (s_fences s) (s_catalog s) (s_group_catalog s) (s_groups s).

Definition with_index (k : PositionKey) (x : string * N) (s : shard) : shard :=
  mkShard (s_events s) (s_versions s) (<[k := x]> (s_index s)) (s_next s) (s_states s) (s_modified s)
    (s_idem s) (s_fences s) (s_catalog s) (s_group_catalog s) (s_groups s).

Definition with_version (k : InstanceKey) (n : N) (s : shard) : shard :=
  mkShard (s_events s) (<[k := n]> (s_versions s)) (s_index s) (s_next s) (s_states s) (s_modified s)
    (s_idem s) (s_fences s) (s_catalog s) (s_group_catalog s) (s_groups s).

Definition with_idem (k : EventIdKey) (r : AggregateIdempotencyRecord) (s : shard) : shard :=
  mkShard (s_events s) (s_versions s) (s_index s) (s_next s) (s_states s) (s_modified s)
    (<[k := r]> (s_idem s)) (s_fences s) (s_catalog s) (s_group_catalog s) (s_groups s).

Definition with_document (k : InstanceKey) (st : AggregateState) (s : shard) : shard :=
  mkShard (s_events s) (s_versions s) (s_index s) (s_next s) (<[k := st]> (s_states s)) (s_modified s)
    (s_idem s) (s_fences s) (s_catalog s) (s_group_catalog s) (s_groups s).

Definition with_modified (k : InstanceKey) (h : Hlc) (s : shard) : shard :=
  mkShard (s_events s) (s_versions s) (s_index s) (s_next s) (s_states s) (<[k := h]> (s_modified s))
    (s_idem s) (s_fences s) (s_catalog s) (s_group_catalog s) (s_groups s).

Section Rep.
Context {M : Type} `{SmCodecs M}.
Context (shard_id : N).

(** The value a shard state has at a key of the state-machine region. *)
Definition rep_at (v : gmap Bytes Bytes) (s : shard) (ap : option (AppliedState M)) (k : lkey) : Prop :=
  match k with
  | KApplied _ => stored v k ap
  | KEvent _ ty p id ver => stored v k (s_events s !! (ty, p, id, ver))
  | KMeta _ ty p id => stored v k (mkMeta <$> s_versions s !! (ty, p, id))
  | KIndex _ ty p q => stored v k (s_index s !! (ty, p, q))
  | KNext _ ty p => stored v k (s_next s !! (ty, p))
  | KState _ ty p id => stored v k (s_states s !! (ty, p, id))
  | KModified _ ty p id => stored v k (s_modified s !! (ty, p, id))
  | KIdem _ ty p u => stored v k (s_idem s !! (ty, p, u))
  | KFence _ ty p => stored v k (s_fences s !! (ty, p))
  | KCatalog _ => stored v k (s_catalog s)
  | KGroupCatalog _ => stored v k (s_group_catalog s)
  | KGroup _ ty p name => stored v k (s_groups s !! (ty, p, name))
  | KLog _ _ | KVote _ | KPurged _ | KCommitted _ | KSnapshot _ => True
  end.

Record ShardRep (v : gmap Bytes Bytes) (s : shard) (ap : option (AppliedState M)) : Prop := {
  rep_keys : keys_wf v;
  rep_values : forall k, key_wf k -> key_shard k = shard_id -> rep_at v s ap k
}.

(** The events a batch broadcasts: those it recorded, in position order within
    each partition. *)
Definition event_key (e : AggregateEvent) : EventKey :=
  (ev_aggregate_type e, ev_partition_id e, ev_aggregate_id e, ev_aggregate_version e).

Definition position_order (e1 e2 : AggregateEvent) : Prop :=
  ev_aggregate_type e1 = ev_aggregate_type e2 -> ev_partition_id e1 = ev_partition_id e2 ->
  (ev_partition_position e1 < ev_partition_position e2)%N.

Record NewEvents (s0 s : shard) (l : list AggregateEvent) : Prop := {
  new_exact : forall e, e ∈ l <->
    s_events s !! event_key e = Some e /\ s_events s0 !! event_key e = None;
  new_ordered : StronglySorted position_order l
}.

(** The invariant of an open batch over the committed state [s0]: the pending
    writes represent the current state [s], next positions excepted, and each
    cache holds the current value of what it has, everything else being as
    committed. *)
Record BatchInv (v : gmap Bytes Bytes) (b : ApplyBatch) (s0 s : shard) (ap : option (AppliedState M)) :
    Prop := {
  bi_base : ShardRep v s0 ap;
  bi_ops : ShardRep (puts v (b_ops b)) (with_next (s_next s0) s) ap;
  bi_versions : forall i, match b_versions b !! i with
    | Some o => s_versions s !! i = o | None => s_versions s !! i = s_versions s0 !! i end;
  bi_positions : forall i, match b_positions b !! i with
    | Some n => s_next s !! i = Some n | None => s_next s !! i = s_next s0 !! i end;
  bi_states : forall i, match b_states b !! i with
    | Some o => s_states s !! i = o | None => s_states s !! i = s_states s0 !! i end;
  bi_idem : forall i, match b_idempotency b !! i with
    | Some r => s_idem s !! i = Some r | None => s_idem s !! i = s_idem s0 !! i end;
  bi_fences : forall i, match b_fences b !! i with
    | Some g => default 0%N (s_fences s !! i) = g | None => s_fences s !! i = s_fences s0 !! i end;
  bi_catalog : match b_catalog b with
    | Some c => default catalog_default (s_catalog s) = c | None => s_catalog s = s_catalog s0 end;
  bi_group_catalog : match b_group_catalog b with
    | Some c => default group_catalog_default (s_group_catalog s) = c
    | None => s_group_catalog s = s_group_catalog s0 end;
  bi_groups : forall i, match b_groups b !! i with
    | Some g => s_groups s !! i = Some g | None => s_groups s !! i = s_groups s0 !! i end;
  bi_touched : forall ty p, is_Some (b_positions b !! (ty, p)) -> partition_key_wf ty p;
  bi_frame : forall k, key_wf k -> key_tag k <> TAG_SM \/ key_shard k <> shard_id ->
    puts v (b_ops b) !! key_bytes k = v !! key_bytes k;
  bi_new : NewEvents s0 s (b_new_events b)
}.

End Rep.

(** ** Lemmas: one write *)

Section Puts.
Context {M : Type} `{SmCodecLaws M}.
Context (shard_id : N).

(** A write of one key refines any change of the state that agrees with it at
    that key and leaves the other keys alone. *)
Lemma ShardRep_put v s s' ap ap' k (b : Bytes) :
  ShardRep (M := M) shard_id v s ap -> key_wf k ->
  rep_at (<[key_bytes k := b]> v) s' ap' k ->
  (forall k', key_wf k' -> key_shard k' = shard_id -> k' <> k ->
     rep_at (M := M) v s ap k' -> rep_at (<[key_bytes k := b]> v) s' ap' k') ->
  ShardRep shard_id (<[key_bytes k := b]> v) s' ap'.
Proof.
  intros [Hk Hv] Hwf Hat Hother. split; [by apply keys_wf_insert|].
  intros k' Hk' Hs. destruct (decide (k' = k)) as [->|Hne]; [done|]. apply Hother; auto.
Qed.

(** The shared argument: the key written holds the new value, a different key of
    the shard what it held. *)
Ltac rep_put k0 :=
  let Hrep := fresh "Hrep" in let Hk := fresh "Hk" in let He := fresh "He" in
  intros Hrep Hk He;
  refine (ShardRep_put _ _ _ _ _ k0 _ Hrep Hk _ _);
  [ cbn [rep_at with_next with_event with_index with_version with_idem with_document with_modified
         with_fence with_catalog with_group_catalog with_group
         s_events s_versions s_index s_next s_states s_modified s_idem s_fences s_catalog s_group_catalog s_groups];
    rewrite ?lookup_insert_eq; exact (stored_insert _ k0 _ _ He)
  | let k' := fresh "k'" in let Hk' := fresh "Hk'" in let Hs' := fresh "Hs'" in
    let Hne := fresh "Hne" in let Hat := fresh "Hat" in
    intros k' Hk' Hs' Hne Hat; destruct k'; cbn [key_shard] in Hs'; try subst;
    cbn [rep_at with_next with_event with_index with_version with_idem with_document with_modified
         with_fence with_catalog with_group_catalog with_group
         s_events s_versions s_index s_next s_states s_modified s_idem s_fences s_catalog s_group_catalog s_groups]
      in Hat |- *; try exact I; try (exfalso; by apply Hne);
    try rewrite lookup_insert_ne by congruence;
    (refine (stored_insert_ne _ _ k0 _ _ Hk' Hk _ Hat); congruence) ].

Lemma rep_put_event v s ap ty p id ver e b :
  ShardRep (M := M) shard_id v s ap -> key_wf (KEvent shard_id ty p id ver) -> encode e = Ok b ->
  ShardRep shard_id (<[sm_aggregate_event shard_id ty p id ver := b]> v)
    (with_event (ty, p, id, ver) e s) ap.
Proof. rep_put (KEvent shard_id ty p id ver). Qed.

Lemma rep_put_index v s ap ty p q x b :
  ShardRep (M := M) shard_id v s ap -> key_wf (KIndex shard_id ty p q) -> encode x = Ok b ->
  ShardRep shard_id (<[sm_aggregate_partition_index shard_id ty p q := b]> v) (with_index (ty, p, q) x s) ap.
Proof. rep_put (KIndex shard_id ty p q). Qed.

Lemma rep_put_meta v s ap ty p id n b :
  ShardRep (M := M) shard_id v s ap -> key_wf (KMeta shard_id ty p id) -> encode (mkMeta n) = Ok b ->
  ShardRep shard_id (<[sm_aggregate_meta shard_id ty p id := b]> v) (with_version (ty, p, id) n s) ap.
Proof. rep_put (KMeta shard_id ty p id). Qed.

Lemma rep_put_idem v s ap ty p u r b :
  ShardRep (M := M) shard_id v s ap -> key_wf (KIdem shard_id ty p u) -> encode r = Ok b ->
  ShardRep shard_id (<[sm_aggregate_idempotency shard_id ty p u := b]> v) (with_idem (ty, p, u) r s) ap.
Proof. rep_put (KIdem shard_id ty p u). Qed.

Lemma rep_put_state v s ap ty p id st b :
  ShardRep (M := M) shard_id v s ap -> key_wf (KState shard_id ty p id) -> encode st = Ok b ->
  ShardRep shard_id (<[sm_aggregate_state shard_id ty p id := b]> v) (with_document (ty, p, id) st s) ap.
Proof. rep_put (KState shard_id ty p id). Qed.

Lemma rep_put_modified v s ap ty p id (h : Hlc) b :
  ShardRep (M := M) shard_id v s ap -> key_wf (KModified shard_id ty p id) -> encode h = Ok b ->
  ShardRep shard_id (<[sm_aggregate_state_modified shard_id ty p id := b]> v) (with_modified (ty, p, id) h s) ap.
Proof. rep_put (KModified shard_id ty p id). Qed.

Lemma rep_put_fence v s ap ty p (g : N) b :
  ShardRep (M := M) shard_id v s ap -> key_wf (KFence shard_id ty p) -> encode g = Ok b ->
  ShardRep shard_id (<[sm_aggregate_partition_fence shard_id ty p := b]> v) (with_fence (ty, p) g s) ap.
Proof. rep_put (KFence shard_id ty p). Qed.

Lemma rep_put_next v s ap ty p (n : N) b :
  ShardRep (M := M) shard_id v s ap -> key_wf (KNext shard_id ty p) -> encode n = Ok b ->
  ShardRep shard_id (<[sm_aggregate_next_position shard_id ty p := b]> v)
    (with_next (<[(ty, p) := n]> (s_next s)) s) ap.
Proof. rep_put (KNext shard_id ty p). Qed.

Lemma rep_put_catalog v s ap c b :
  ShardRep (M := M) shard_id v s ap -> key_wf (KCatalog shard_id) -> encode c = Ok b ->
  ShardRep shard_id (<[sm_aggregate_catalog shard_id := b]> v) (with_catalog (Some c) s) ap.
Proof. rep_put (KCatalog shard_id). Qed.

Lemma rep_put_group_catalog v s ap c b :
  ShardRep (M := M) shard_id v s ap -> key_wf (KGroupCatalog shard_id) -> encode c = Ok b ->
  ShardRep shard_id (<[sm_aggregate_group_catalog shard_id := b]> v) (with_group_catalog (Some c) s) ap.
Proof. rep_put (KGroupCatalog shard_id). Qed.

Lemma rep_put_group v s ap ty p name g b :
  ShardRep (M := M) shard_id v s ap -> key_wf (KGroup shard_id ty p name) -> encode g = Ok b ->
  ShardRep shard_id (<[sm_aggregate_group_partition shard_id ty p name := b]> v)
    (with_group (ty, p, name) g s) ap.
Proof. rep_put (KGroup shard_id ty p name). Qed.

Lemma rep_put_applied v s ap (a : AppliedState M) b :
  ShardRep (M := M) shard_id v s ap -> key_wf (KApplied shard_id) -> encode a = Ok b ->
  ShardRep shard_id (<[sm_applied_state shard_id := b]> v) s (Some a).
Proof. rep_put (KApplied shard_id). Qed.

End Puts.

(** ** Lemmas: reads *)

Lemma identifier_name_wf id : identifier_ok id -> name_wf id.
Proof. intros (_ & Hl & _). unfold name_wf, MAX_IDENTIFIER_BYTES in *. lia. Qed.

Lemma next_version_of s ty p id version :
  match s_versions s !! (ty, p, id) with None => Some 0%N | Some v => checked_add_u64 v 1 end = Some version ->
  next_version s ty p id version.
Proof.
  unfold next_version. destruct (s_versions s !! (ty, p, id)); intros Hv.
  - by apply checked_add_u64_Some in Hv as [-> ?].
  - by injection Hv as <-.
Qed.

Section Batch.
Context {M : Type} `{SmCodecLaws M} `{TreeLaws} `{Xxh3}.
Context (shard_id : N) (Hshard : (shard_id <= u64_max)%N).
Context (t : tree) (s0 : shard) (ap : option (AppliedState M)).

Local Abbreviation v := (tree_view t).
Local Abbreviation Inv b s := (BatchInv (M := M) shard_id (tree_view t) b s0 s ap).

Lemma read_value_stored {A} `{CodecLaws A} k what (o o' : option A) :
  stored v k o -> read_value t (key_bytes k) what = Ok o' -> o' = o.
Proof.
  intros Hs. unfold read_value. intros Hr. inv_result.
  match goal with Hg : storage_get _ _ = Ok ?x |- _ => apply storage_get_view in Hg; subst x end.
  destruct (v !! key_bytes k) as [bs|] eqn:Hv.
  - destruct (stored_decode _ _ _ _ Hs Hv) as (a & -> & Hd). rewrite Hd in Hr. cbn in Hr. congruence.
  - rewrite (stored_None _ _ _ Hs Hv). congruence.
Qed.

Lemma base_at b s k : Inv b s -> key_fields_wf k -> key_shard k = shard_id -> rep_at v s0 ap k.
Proof.
  intros HB Hk Hs. destruct (bi_base _ _ _ _ _ _ HB) as [_ Hrep]. apply Hrep; [|done].
  split; [by rewrite Hs|done].
Qed.

(** A change of the caches only: everything but the named cache is kept. *)
Ltac cache_only HB i :=
  destruct HB; split; try assumption;
  let j := fresh "j" in intros j; cbn;
  destruct (decide (i = j)) as [<-|];
  [ by rewrite lookup_insert_eq
  | rewrite lookup_insert_ne by done; match goal with Hf : _ |- _ => exact (Hf j) end ].

Lemma batch_version_spec b s ty p id b' o :
  Inv b s -> partition_key_wf ty p -> name_wf id ->
  batch_aggregate_version shard_id t b ty p id = Ok (b', o) ->
  o = s_versions s !! (ty, p, id) /\ Inv b' s.
Proof.
  intros HB Hp Hn. unfold batch_aggregate_version.
  pose proof (bi_versions _ _ _ _ _ _ HB (ty, p, id)) as Hc.
  destruct (b_versions b !! (ty, p, id)) as [c|] eqn:Hb; [by intros [= <- <-]|].
  intros Hr. inv_result.
  match goal with Hm : read_aggregate_meta _ _ _ _ _ = Ok ?m |- _ =>
    apply (read_value_stored (KMeta shard_id ty p id) _ (mkMeta <$> s_versions s0 !! (ty, p, id))) in Hm;
      [subst m|exact (base_at _ _ (KMeta shard_id ty p id) HB (conj Hp Hn) eq_refl)] end.
  assert (Ho : current_version <$> (mkMeta <$> s_versions s0 !! (ty, p, id)) = s_versions s !! (ty, p, id)).
  { rewrite Hc. by destruct (s_versions s0 !! (ty, p, id)). }
  split; [exact Ho|]. rewrite Ho. cache_only HB (ty, p, id).
Qed.

Lemma batch_state_spec b s ty p id b' o :
  Inv b s -> partition_key_wf ty p -> name_wf id ->
  batch_aggregate_state shard_id t b ty p id = Ok (b', o) ->
  o = s_states s !! (ty, p, id) /\ Inv b' s.
Proof.
  intros HB Hp Hn. unfold batch_aggregate_state.
  pose proof (bi_states _ _ _ _ _ _ HB (ty, p, id)) as Hc.
  destruct (b_states b !! (ty, p, id)) as [c|] eqn:Hb; [by intros [= <- <-]|].
  intros Hr. inv_result.
  match goal with Hm : read_aggregate_state _ _ _ _ _ = Ok ?m |- _ =>
    apply (read_value_stored (KState shard_id ty p id) _ (s_states s0 !! (ty, p, id))) in Hm;
      [subst m|exact (base_at _ _ (KState shard_id ty p id) HB (conj Hp Hn) eq_refl)] end.
  rewrite <- Hc. split; [done|]. cache_only HB (ty, p, id).
Qed.

Lemma batch_fence_spec b s ty p b' g :
  Inv b s -> partition_key_wf ty p ->
  batch_aggregate_partition_fence shard_id t b ty p = Ok (b', g) ->
  g = fence_of s ty p /\ Inv b' s.
Proof.
  intros HB Hp. unfold batch_aggregate_partition_fence.
  pose proof (bi_fences _ _ _ _ _ _ HB (ty, p)) as Hc.
  destruct (b_fences b !! (ty, p)) as [c|] eqn:Hb; [by intros [= <- <-]|].
  intros Hr. inv_result.
  match goal with Hm : read_value _ _ _ = Ok ?m |- _ =>
    apply (read_value_stored (KFence shard_id ty p) _ (s_fences s0 !! (ty, p))) in Hm;
      [subst m|exact (base_at _ _ (KFence shard_id ty p) HB Hp eq_refl)] end.
  unfold fence_of. rewrite <- Hc. split; [done|]. cache_only HB (ty, p).
Qed.

Lemma batch_idempotency_spec b s ty p u b' o :
  Inv b s -> partition_key_wf ty p -> (u <= u128_max)%N ->
  batch_idempotency shard_id t b ty p u = Ok (b', o) ->
  o = s_idem s !! (ty, p, u) /\ Inv b' s.
Proof.
  intros HB Hp Hu. unfold batch_idempotency.
  pose proof (bi_idem _ _ _ _ _ _ HB (ty, p, u)) as Hc.
  destruct (b_idempotency b !! (ty, p, u)) as [c|] eqn:Hb; [by intros [= <- <-]|].
  intros Hr. inv_result.
  match goal with Hm : read_value _ _ _ = Ok ?m |- _ =>
    apply (read_value_stored (KIdem shard_id ty p u) _ (s_idem s0 !! (ty, p, u))) in Hm;
      [subst m|exact (base_at _ _ (KIdem shard_id ty p u) HB (conj Hp Hu) eq_refl)] end.
  rewrite <- Hc. split; [done|]. destruct (s_idem s !! (ty, p, u)) as [r|] eqn:Hs; [|done].
  cache_only HB (ty, p, u).
Qed.

(** The position read is the next one; it is cached, which the invariant only
    allows once the partition has a stored position. *)
Lemma batch_position_spec b s ty p b' n :
  Inv b s -> partition_key_wf ty p ->
  batch_aggregate_partition_position shard_id t b ty p = Ok (b', n) ->
  n = next_of s ty p /\ (b' = b \/ b' = set_position (ty, p) n b) /\
  (n <> 0%N -> s_next s !! (ty, p) = Some n).
Proof.
  intros HB Hp. unfold batch_aggregate_partition_position, next_of.
  pose proof (bi_positions _ _ _ _ _ _ HB (ty, p)) as Hc.
  destruct (b_positions b !! (ty, p)) as [c|] eqn:Hb.
  { intros [= <- <-]. rewrite Hc. auto. }
  intros Hr. inv_result.
  match goal with Hm : read_value _ _ _ = Ok ?m |- _ =>
    apply (read_value_stored (KNext shard_id ty p) _ (s_next s0 !! (ty, p))) in Hm;
      [subst m|exact (base_at _ _ (KNext shard_id ty p) HB Hp eq_refl)] end.
  rewrite <- Hc. split; [done|]. split; [by right|]. by destruct (s_next s !! (ty, p)).
Qed.

Lemma set_position_inv b s ty p n :
  Inv b s -> partition_key_wf ty p -> s_next s !! (ty, p) = Some n -> Inv (set_position (ty, p) n b) s.
Proof.
  intros HB Hp Hn. destruct HB. split; try assumption.
  - intros j. cbn. destruct (decide ((ty, p) = j)) as [<-|];
      [by rewrite lookup_insert_eq | rewrite lookup_insert_ne by done; apply bi_positions0].
  - intros ty' p'. cbn. intros [[= <- <-]|Hs]%lookup_insert_is_Some'; auto.
Qed.

(** A write under the shard's state-machine keys is not seen elsewhere. *)
Lemma frame_insert m k x k' :
  key_wf k -> key_tag k = TAG_SM -> key_shard k = shard_id ->
  key_wf k' -> key_tag k' <> TAG_SM \/ key_shard k' <> shard_id ->
  <[key_bytes k := x]> m !! key_bytes k' = (m : gmap Bytes Bytes) !! key_bytes k'.
Proof.
  intros Hk Ht Hs Hk' Hout. apply lookup_insert_ne, key_bytes_ne; [done|done|].
  intros ->. destruct Hout; congruence.
Qed.

Lemma frame_put b s k x :
  Inv b s -> key_wf k -> key_tag k = TAG_SM -> key_shard k = shard_id ->
  forall k', key_wf k' -> key_tag k' <> TAG_SM \/ key_shard k' <> shard_id ->
  puts v (b_ops (push_op (key_bytes k) x b)) !! key_bytes k' = v !! key_bytes k'.
Proof.
  intros HB Hk Ht Hs k' Hk' Hout. cbn [b_ops push_op]. rewrite puts_snoc.
  rewrite frame_insert by done. by apply (bi_frame _ _ _ _ _ _ HB).
Qed.

(** ** Lemmas: the handlers

    Each handler, when it succeeds, answers what the specification answers and
    keeps the invariant for the state the specification reaches. *)

Lemma put_Ok {A} `{Codec A} k (a : A) what b b' :
  put k a what b = Ok b' -> exists bs, encode a = Ok bs /\ b' = push_op k bs b.
Proof.
  unfold put. intros Hp. apply bind_Ok_inv in Hp as (bs & He%map_err_Ok & [= <-]). eauto.
Qed.

Lemma apply_fence_refines b s ty p g b' r :
  Inv b s -> (p <= u16_max)%N ->
  apply_aggregate_partition_fence shard_id t b ty p g = Ok (b', r) ->
  r = (step_fence s ty p g).2 /\ Inv b' (step_fence s ty p g).1.
Proof.
  intros HB Hp. unfold apply_aggregate_partition_fence, step_fence.
  destruct (type_id_validate ty) as [[]|e] eqn:Ht; [|by intros [= <- <-]].
  assert (Hw : partition_key_wf ty p) by (split; [by apply type_id_validate_iff|done]).
  case_if; [by intros [= <- <-]|]. intros Hr. apply bind_Ok_inv in Hr as ([b1 cur] & Hf & Hr).
  apply batch_fence_spec with (s := s) in Hf as [-> HB1]; [|done|done]. cbn [fst snd].
  destruct (N.max (fence_of s ty p) g =? fence_of s ty p)%N eqn:Hmax; cbn [negb] in Hr.
  { inv_result. done. }
  apply bind_Ok_inv in Hr as (b2 & Hr & [= <- <-]).
  apply bind_Ok_inv in Hr as (b3 & (bs & He & ->)%put_Ok & [= <-]). split; [done|].
  assert (Hk : key_wf (KFence shard_id ty p)) by (by split).
  pose proof (frame_put b1 s _ bs HB1 Hk eq_refl eq_refl) as Hfr.
  destruct HB1. split; try assumption.
  - cbn [b_ops push_op set_fence]. rewrite puts_snoc.
    exact (rep_put_fence shard_id _ _ _ _ _ _ _ bi_ops0 Hk He).
  - intros j. cbn. destruct (decide ((ty, p) = j)) as [<-|].
    + by rewrite !lookup_insert_eq.
    + rewrite !lookup_insert_ne by done. apply bi_fences0.
  - destruct bi_new0. by split.
Qed.

Lemma apply_catalog_refines b s cmd b' r :
  Inv b s -> apply_aggregate_catalog_command shard_id t b cmd = Ok (b', r) ->
  r = (step_catalog s cmd).2 /\ Inv b' (step_catalog s cmd).1.
Proof.
  intros HB. unfold apply_aggregate_catalog_command, step_catalog. intros Hr.
  apply bind_Ok_inv in Hr as (c0 & Hc & Hr).
  assert (c0 = default catalog_default (s_catalog s)) as ->.
  { pose proof (bi_catalog _ _ _ _ _ _ HB) as Hcat.
    destruct (b_catalog b); [by injection Hc as <-|]. unfold read_aggregate_catalog in Hc. inv_result.
    rewrite Hcat. f_equal.
    eapply (read_value_stored (KCatalog shard_id)); [|eassumption].
    exact (base_at _ _ (KCatalog shard_id) HB I eq_refl). }
  destruct (catalog_apply (default catalog_default (s_catalog s)) cmd) as [c a] eqn:Happ.
  apply bind_Ok_inv in Hr as (b2 & Hr & [= <- <-]). split; [by case_if|]. cbn [fst].
  assert (Hk : key_wf (KCatalog shard_id)) by (by split).
  destruct (is_changed (ca_outcome a)) eqn:Hch.
  - apply put_Ok in Hr as (bs & He & ->).
    pose proof (frame_put b s _ bs HB Hk eq_refl eq_refl) as Hfr.
    destruct HB. split; try assumption.
    + cbn [b_ops push_op set_catalog]. rewrite puts_snoc.
      exact (rep_put_catalog shard_id _ _ _ _ _ bi_ops0 Hk He).
    + done.
    + destruct bi_new0. by split.
  - injection Hr as <-.
    assert (c = default catalog_default (s_catalog s)) as ->.
    { apply catalog_apply_cases in Happ as [[-> _]|(d & _ & Hcm & _)]; [done|].
      unfold catalog_commit in Hcm. injection Hcm as _ Ho. rewrite Ho in Hch. discriminate. }
    destruct HB. by split.
Qed.

Lemma group_catalog_apply_same c cmd :
  (gc_revision c < u64_max)%N -> gc_revision (group_catalog_apply c cmd).1 = gc_revision c ->
  (group_catalog_apply c cmd).1 = c.
Proof.
  intros Hlt. destruct (group_catalog_apply_step c cmd) as [->|Hs]; [done|].
  destruct Hs; cbn; unfold saturating_add_u64; lia.
Qed.

Lemma apply_group_catalog_refines b s cmd b' r :
  Inv b s -> (gc_revision (default group_catalog_default (s_group_catalog s)) < u64_max)%N ->
  apply_aggregate_group_catalog_command shard_id t b cmd = Ok (b', r) ->
  r = (step_group_catalog s cmd).2 /\ Inv b' (step_group_catalog s cmd).1.
Proof.
  intros HB Hrev. unfold apply_aggregate_group_catalog_command, step_group_catalog. intros Hr.
  apply bind_Ok_inv in Hr as (c0 & Hc & Hr).
  assert (c0 = default group_catalog_default (s_group_catalog s)) as ->.
  { pose proof (bi_group_catalog _ _ _ _ _ _ HB) as Hcat.
    destruct (b_group_catalog b); [by injection Hc as <-|].
    unfold read_aggregate_group_catalog in Hc. inv_result. rewrite Hcat. f_equal.
    eapply (read_value_stored (KGroupCatalog shard_id)); [|eassumption].
    exact (base_at _ _ (KGroupCatalog shard_id) HB I eq_refl). }
  pose proof (group_catalog_apply_same _ cmd Hrev) as Hsame.
  destruct (group_catalog_apply (default group_catalog_default (s_group_catalog s)) cmd) as [c a].
  cbn [fst] in Hsame. apply bind_Ok_inv in Hr as (b2 & Hr & [= <- <-]). split; [by case_if|]. cbn [fst].
  assert (Hk : key_wf (KGroupCatalog shard_id)) by (by split).
  case_if.
  - apply put_Ok in Hr as (bs & He & ->).
    pose proof (frame_put b s _ bs HB Hk eq_refl eq_refl) as Hfr.
    destruct HB. split; try assumption.
    + cbn [b_ops push_op set_group_catalog]. rewrite puts_snoc.
      exact (rep_put_group_catalog shard_id _ _ _ _ _ bi_ops0 Hk He).
    + done.
    + destruct bi_new0. by split.
  - injection Hr as <-. bool_facts. rewrite Hsame by done. destruct HB. by split.
Qed.

Lemma apply_put_state_refines b s ty p g id expected data hlc b' r :
  Inv b s -> (p <= u16_max)%N ->
  apply_put_aggregate_state shard_id t b ty p g id expected data hlc = Ok (b', r) ->
  r = (step_put_state s ty p g id expected data hlc).2 /\
  Inv b' (step_put_state s ty p g id expected data hlc).1.
Proof.
  intros HB Hp. unfold apply_put_aggregate_state, step_put_state.
  destruct (type_id_validate ty) as [[]|e] eqn:Ht; [|by intros [= <- <-]].
  destruct (validate_aggregate_identifier "aggregate_id" id) as [[]|e] eqn:Hi; [|by intros [= <- <-]].
  assert (Hw : partition_key_wf ty p) by (split; [by apply type_id_validate_iff|done]).
  assert (Hn : name_wf id) by (by apply identifier_name_wf, (validate_identifier_iff "aggregate_id")).
  intros Hr. apply bind_Ok_inv in Hr as ([b1 cur] & Hf & Hr).
  apply batch_fence_spec with (s := s) in Hf as [-> HB1]; [|done|done]. clear HB.
  destruct (negb _); [by injection Hr as <- <-|].
  apply bind_Ok_inv in Hr as ([b2 ver] & Hver & Hr).
  apply batch_version_spec with (s := s) in Hver as [-> HB2]; [|done..]. clear HB1.
  destruct (s_versions s !! (ty, p, id)); [|by injection Hr as <- <-].
  apply bind_Ok_inv in Hr as ([b3 st] & Hst & Hr).
  apply batch_state_spec with (s := s) in Hst as [-> HB3]; [|done..]. clear HB2.
  destruct (negb _); [by injection Hr as <- <-|].
  destruct (match s_states s !! (ty, p, id) with None => Some 0%N | Some _ => _ end) as [rev|];
    [|by injection Hr as <- <-].
  apply bind_Ok_inv in Hr as (b4 & (bs1 & He1 & ->)%put_Ok & Hr).
  apply bind_Ok_inv in Hr as (b5 & (bs2 & He2 & ->)%put_Ok & [= <- <-]). split; [done|]. cbn [fst].
  assert (Hk1 : key_wf (KState shard_id ty p id)) by (by split).
  assert (Hk2 : key_wf (KModified shard_id ty p id)) by (by split).
  destruct HB3. split; try assumption.
  - cbn [b_ops push_op set_state]. rewrite !puts_snoc.
    exact (rep_put_modified shard_id _ _ _ _ _ _ _ _
             (rep_put_state shard_id _ _ _ _ _ _ _ _ bi_ops0 Hk1 He1) Hk2 He2).
  - intros j. cbn. destruct (decide ((ty, p, id) = j)) as [<-|].
    + by rewrite !lookup_insert_eq.
    + rewrite !lookup_insert_ne by done. apply bi_states0.
  - intros k Hk Hout. cbn [b_ops push_op set_state]. rewrite !puts_snoc.
    etrans; [exact (frame_insert _ _ _ _ Hk2 eq_refl eq_refl Hk Hout)|].
    etrans; [exact (frame_insert _ _ _ _ Hk1 eq_refl eq_refl Hk Hout)|]. by apply bi_frame0.
  - destruct bi_new0. by split.
Qed.

Lemma apply_group_partition_refines b s ty p g name epoch start settings command b' r :
  Inv b s -> (p <= u16_max)%N ->
  apply_aggregate_group_partition shard_id t b ty p g name epoch start settings command = Ok (b', r) ->
  r = (step_group_partition s ty p g name epoch start settings command).2 /\
  Inv b' (step_group_partition s ty p g name epoch start settings command).1.
Proof.
  intros HB Hp. unfold apply_aggregate_group_partition, step_group_partition.
  destruct (type_id_validate ty) as [[]|e] eqn:Ht; [|by intros [= <- <-]].
  destruct (validate_aggregate_identifier "group_name" name) as [[]|e] eqn:Hi; [|by intros [= <- <-]].
  destruct (settings_validate settings) as [[]|e]; [|by intros [= <- <-]].
  assert (Hw : partition_key_wf ty p) by (split; [by apply type_id_validate_iff|done]).
  assert (Hn : name_wf name) by (by apply identifier_name_wf, (validate_identifier_iff "group_name")).
  intros Hr. apply bind_Ok_inv in Hr as ([b1 cur] & Hf & Hr).
  apply batch_fence_spec with (s := s) in Hf as [-> HB1]; [|done|done]. clear HB.
  destruct (negb _); [by injection Hr as <- <-|].
  apply bind_Ok_inv in Hr as (st & Hst & Hr).
  assert (st = default (partition_new epoch start) (s_groups s !! (ty, p, name))) as ->.
  { pose proof (bi_groups _ _ _ _ _ _ HB1 (ty, p, name)) as Hg.
    destruct (b_groups b1 !! (ty, p, name)); [injection Hst as <-; by rewrite Hg|].
    apply bind_Ok_inv in Hst as (o & Ho & [= <-]). rewrite Hg. f_equal.
    eapply (read_value_stored (KGroup shard_id ty p name)); [|exact Ho].
    exact (base_at _ _ (KGroup shard_id ty p name) HB1 (conj Hw Hn) eq_refl). }
  destruct (_ <? _)%N; [by injection Hr as <- <-|].
  destruct (group_command _ epoch settings command) as [st2 resp].
  apply bind_Ok_inv in Hr as (bs & He%map_err_Ok & [= <- <-]). split; [done|]. cbn [fst].
  assert (Hk : key_wf (KGroup shard_id ty p name)) by (by split).
  assert (Hops : puts v (b_ops (push_op (sm_aggregate_group_partition shard_id ty p name) bs
            (retain_ops (fun op => negb (bool_decide (op.1 = sm_aggregate_group_partition shard_id ty p name))) b1)))
          = <[sm_aggregate_group_partition shard_id ty p name := bs]> (puts v (b_ops b1))).
  { cbn [b_ops push_op retain_ops]. rewrite puts_snoc. apply puts_retain. }
  destruct HB1. split; try assumption; cbn [b_ops set_group].
  - rewrite Hops. exact (rep_put_group shard_id _ _ _ _ _ _ _ _ bi_ops0 Hk He).
  - intros j. cbn. destruct (decide ((ty, p, name) = j)) as [<-|].
    + by rewrite !lookup_insert_eq.
    + rewrite !lookup_insert_ne by done. apply bi_groups0.
  - intros k Hk' Hout. rewrite Hops.
    etrans; [exact (frame_insert _ _ _ _ Hk eq_refl eq_refl Hk' Hout)|]. by apply bi_frame0.
  - destruct bi_new0. by split.
Qed.

(** A recorded event joins the broadcast: it is new, and last of its partition. *)
Lemma new_events_record s l e fp n :
  shard_wf s -> s_events s0 ⊆ s_events s -> NewEvents s0 s l ->
  next_version s (ev_aggregate_type e) (ev_partition_id e) (ev_aggregate_id e) (ev_aggregate_version e) ->
  ev_partition_position e = next_of s (ev_aggregate_type e) (ev_partition_id e) ->
  NewEvents s0 (record_event s e fp n) (l ++ [e]).
Proof.
  intros Hwf Hsub [Hex Hord] Hver Hpos.
  assert (Hfresh : s_events s !! event_key e = None) by (by apply record_fresh_event).
  split.
  - intros x. rewrite elem_of_app, list_elem_of_singleton, Hex. cbn [s_events record_event].
    fold (event_key e). split.
    + intros [[Hx Hx0]| ->].
      * split; [|done]. rewrite lookup_insert_ne; [done|]. congruence.
      * rewrite lookup_insert_eq. split; [done|]. apply eq_None_not_Some. intros [y Hy].
        eapply lookup_weaken in Hy; [|exact Hsub]. congruence.
    + intros [[[_ ->]|[_ Hx]]%lookup_insert_Some Hx0]; [by right|by left].
  - assert (Hlast : Forall (fun x => position_order x e) l).
    { apply List.Forall_forall. intros x Hx%list_elem_of_In%Hex Hty Hp. destruct Hx as [Hx _].
      apply (sw_events _ Hwf) in Hx as (_ & Hi & _). rewrite Hpos, <- Hty, <- Hp.
      apply (sw_positions _ Hwf). eauto. }
    clear - Hord Hlast. induction Hord as [|x l Hl IH Hx]; cbn; [repeat constructor|].
    inversion_clear Hlast. constructor; [by apply IH|]. apply Forall_app. by split; [|constructor].
Qed.

(** The four writes of an append. *)
Lemma rep_record m s (e : AggregateEvent) fp n b1 b2 b3 b4 :
  let ty := ev_aggregate_type e in
  let p := ev_partition_id e in
  let id := ev_aggregate_id e in
  let idem := mkIdem fp (mkAppendResult (ev_aggregate_version e) (ev_partition_position e)) in
  ShardRep (M := M) shard_id m (with_next (s_next s0) s) ap ->
  partition_key_wf ty p -> name_wf id -> (ev_aggregate_version e <= u64_max)%N ->
  (ev_partition_position e <= u64_max)%N -> (ev_event_id e <= u128_max)%N ->
  encode e = Ok b1 -> encode (id, ev_aggregate_version e) = Ok b2 ->
  encode (mkMeta (ev_aggregate_version e)) = Ok b3 -> encode idem = Ok b4 ->
  let m' := puts m [(sm_aggregate_event shard_id ty p id (ev_aggregate_version e), b1);
                    (sm_aggregate_partition_index shard_id ty p (ev_partition_position e), b2);
                    (sm_aggregate_meta shard_id ty p id, b3);
                    (sm_aggregate_idempotency shard_id ty p (ev_event_id e), b4)] in
  ShardRep shard_id m' (with_next (s_next s0) (record_event s e fp n)) ap /\
  (forall k', key_wf k' -> key_tag k' <> TAG_SM \/ key_shard k' <> shard_id ->
     m' !! key_bytes k' = m !! key_bytes k').
Proof.
  intros ty p id idem Hrep Hp Hn Hv Hq Hu E1 E2 E3 E4 m'.
  assert (Hk1 : key_wf (KEvent shard_id ty p id (ev_aggregate_version e))) by (by split).
  assert (Hk2 : key_wf (KIndex shard_id ty p (ev_partition_position e))) by (by split).
  assert (Hk3 : key_wf (KMeta shard_id ty p id)) by (by split).
  assert (Hk4 : key_wf (KIdem shard_id ty p (ev_event_id e))) by (by split).
  pose proof (rep_put_event shard_id _ _ _ _ _ _ _ _ _ Hrep Hk1 E1) as R1.
  pose proof (rep_put_index shard_id _ _ _ _ _ _ _ _ R1 Hk2 E2) as R2.
  pose proof (rep_put_meta shard_id _ _ _ _ _ _ _ _ R2 Hk3 E3) as R3.
  pose proof (rep_put_idem shard_id _ _ _ _ _ _ _ _ R3 Hk4 E4) as R4.
  split; [exact R4|]. intros k' Hk' Hout.
  etrans; [exact (frame_insert _ _ _ _ Hk4 eq_refl eq_refl Hk' Hout)|].
  etrans; [exact (frame_insert _ _ _ _ Hk3 eq_refl eq_refl Hk' Hout)|].
  etrans; [exact (frame_insert _ _ _ _ Hk2 eq_refl eq_refl Hk' Hout)|].
  exact (frame_insert _ _ _ _ Hk1 eq_refl eq_refl Hk' Hout).
Qed.

(** The batch after an append that was admitted. *)
Definition batch_record (b : ApplyBatch) (e : AggregateEvent) (fp next : N) (b1 b2 b3 b4 : Bytes) :
    ApplyBatch :=
  let ty := ev_aggregate_type e in
  let p := ev_partition_id e in
  let id := ev_aggregate_id e in
  push_event e
    (set_idem (ty, p, ev_event_id e)
       (mkIdem fp (mkAppendResult (ev_aggregate_version e) (ev_partition_position e)))
       (set_position (ty, p) next
          (set_version (ty, p, id) (Some (ev_aggregate_version e))
             (push_op (sm_aggregate_idempotency shard_id ty p (ev_event_id e)) b4
                (push_op (sm_aggregate_meta shard_id ty p id) b3
                   (push_op (sm_aggregate_partition_index shard_id ty p (ev_partition_position e)) b2
                      (push_op (sm_aggregate_event shard_id ty p id (ev_aggregate_version e)) b1 b))))))).

Lemma batch_record_position b e n fp next b1 b2 b3 b4 :
  batch_record (set_position (ev_aggregate_type e, ev_partition_id e) n b) e fp next b1 b2 b3 b4 =
  batch_record b e fp next b1 b2 b3 b4.
Proof.
  assert (Hset : forall i m c, set_position i m (set_position i n c) = set_position i m c)
    by (intros i m c; unfold set_position; cbn [b_positions]; by rewrite insert_insert_eq).
  unfold batch_record. f_equal. f_equal. etrans; [|apply Hset]. f_equal.
Qed.

Lemma record_inv b s (e : AggregateEvent) fp next b1 b2 b3 b4 :
  let ty := ev_aggregate_type e in
  let p := ev_partition_id e in
  let id := ev_aggregate_id e in
  Inv b s -> shard_wf s -> s_events s0 ⊆ s_events s ->
  partition_key_wf ty p -> name_wf id -> next_version s ty p id (ev_aggregate_version e) ->
  ev_partition_position e = next_of s ty p -> (ev_partition_position e <= u64_max)%N ->
  (ev_event_id e <= u128_max)%N ->
  encode e = Ok b1 -> encode (id, ev_aggregate_version e) = Ok b2 ->
  encode (mkMeta (ev_aggregate_version e)) = Ok b3 ->
  encode (mkIdem fp (mkAppendResult (ev_aggregate_version e) (ev_partition_position e))) = Ok b4 ->
  Inv (batch_record b e fp next b1 b2 b3 b4) (record_event s e fp next).
Proof.
  intros ty p id HB Hwf Hsub Hp Hn Hver Hpos Hq Hu E1 E2 E3 E4.
  destruct (rep_record _ s e fp next b1 b2 b3 b4 (bi_ops _ _ _ _ _ _ HB) Hp Hn (proj2 Hver) Hq Hu
              E1 E2 E3 E4) as [Hrep Hfr].
  assert (Hops : puts v (b_ops (batch_record b e fp next b1 b2 b3 b4)) =
    puts (puts v (b_ops b)) [(sm_aggregate_event shard_id ty p id (ev_aggregate_version e), b1);
      (sm_aggregate_partition_index shard_id ty p (ev_partition_position e), b2);
      (sm_aggregate_meta shard_id ty p id, b3);
      (sm_aggregate_idempotency shard_id ty p (ev_event_id e), b4)]).
  { cbn [b_ops batch_record push_event set_idem set_position set_version push_op].
    rewrite <- puts_app, <- !app_assoc. done. }
  destruct HB. split; try assumption; try (rewrite Hops).
  - exact Hrep.
  - intros j. cbn. fold ty p id. destruct (decide ((ty, p, id) = j)) as [<-|];
      [by rewrite !lookup_insert_eq | rewrite !lookup_insert_ne by done; apply bi_versions0].
  - intros j. cbn. fold ty p. destruct (decide ((ty, p) = j)) as [<-|];
      [by rewrite !lookup_insert_eq | rewrite !lookup_insert_ne by done; apply bi_positions0].
  - intros j. cbn. fold ty p. destruct (decide ((ty, p, ev_event_id e) = j)) as [<-|];
      [by rewrite !lookup_insert_eq | rewrite !lookup_insert_ne by done; apply bi_idem0].
  - intros ty' p'. cbn. intros [[= <- <-]|Hs]%lookup_insert_is_Some'; auto.
  - intros k Hk Hout. etrans; [by apply Hfr|by apply bi_frame0].
  - by apply new_events_record.
Qed.

Lemma apply_append_refines b s ty p g id expected event hlc b' r :
  Inv b s -> shard_wf s -> s_events s0 ⊆ s_events s ->
  (p <= u16_max)%N -> (ne_event_id event <= u128_max)%N ->
  apply_aggregate_append shard_id t b ty p g id expected event hlc = Ok (b', r) ->
  r = (step_append s ty p g id expected event hlc).2 /\
  Inv b' (step_append s ty p g id expected event hlc).1.
Proof.
  intros HB Hwf Hsub Hp Hu. unfold apply_aggregate_append, step_append.
  destruct (type_id_validate ty) as [[]|e] eqn:Ht; [|by intros [= <- <-]].
  destruct (validate_aggregate_identifier "aggregate_id" id) as [[]|e] eqn:Hi; [|by intros [= <- <-]].
  assert (Hw : partition_key_wf ty p) by (split; [by apply type_id_validate_iff|done]).
  assert (Hn : name_wf id) by (by apply identifier_name_wf, (validate_identifier_iff "aggregate_id")).
  case_if; [by intros [= <- <-]|]. intros Hr.
  apply bind_Ok_inv in Hr as ([b1 ex] & Hidem & Hr).
  apply batch_idempotency_spec with (s := s) in Hidem as [-> HB1]; [|done..]. clear HB.
  destruct (s_idem s !! (ty, p, ne_event_id event)); [case_if; by injection Hr as <- <-|].
  apply bind_Ok_inv in Hr as ([b2 cur] & Hf & Hr).
  apply batch_fence_spec with (s := s) in Hf as [-> HB2]; [|done|done]. clear HB1.
  destruct (negb _); [by injection Hr as <- <-|].
  apply bind_Ok_inv in Hr as ([b3 ver] & Hver & Hr).
  apply batch_version_spec with (s := s) in Hver as [-> HB3]; [|done..]. clear HB2.
  destruct (negb _); [by injection Hr as <- <-|].
  destruct (match s_versions s !! (ty, p, id) with None => Some 0%N | Some _ => _ end) as [version|] eqn:Hv;
    [|by injection Hr as <- <-].
  apply bind_Ok_inv in Hr as ([b4 pos] & Hpos & Hr).
  apply batch_position_spec with (s := s) in Hpos as (-> & Hb4 & Hsome); [|done|done].
  destruct (checked_add_u64 (next_of s ty p) 1) as [next|] eqn:Hnext.
  - apply checked_add_u64_Some in Hnext as [-> Hnext].
    apply bind_Ok_inv in Hr as (c1 & (bs1 & E1 & ->)%put_Ok & Hr).
    apply bind_Ok_inv in Hr as (c2 & (bs2 & E2 & ->)%put_Ok & Hr).
    apply bind_Ok_inv in Hr as (c3 & (bs3 & E3 & ->)%put_Ok & Hr).
    apply bind_Ok_inv in Hr as (c4 & (bs4 & E4 & ->)%put_Ok & [= <- <-]).
    split; [done|]. cbn [fst].
    pose proof (record_inv b3 s (mkEvent ty p id version (ne_event_id event) (ne_event_type event)
      (ne_data event) (ne_metadata event) hlc (next_of s ty p))
      (aggregate_append_fingerprint ty id expected event) (next_of s ty p + 1) bs1 bs2 bs3 bs4
      HB3 Hwf Hsub Hw Hn) as Hinv.
    cbn [ev_aggregate_type ev_partition_id ev_aggregate_id ev_aggregate_version ev_event_id
         ev_partition_position] in Hinv.
    assert (Hq : (next_of s ty p <= u64_max)%N) by lia.
    specialize (Hinv (next_version_of s ty p id version Hv) eq_refl Hq Hu E1 E2 E3 E4).
    destruct Hb4 as [-> | ->]; [exact Hinv|].
    rewrite <- (batch_record_position b3 _ (next_of s ty p)) in Hinv. exact Hinv.
  - injection Hr as <- <-. split; [done|]. cbn [fst]. apply checked_add_u64_None in Hnext.
    destruct Hb4 as [-> | ->]; [done|]. apply set_position_inv; [done|done|]. apply Hsome. lia.
Qed.

Definition group_revision (s : shard) : N :=
  gc_revision (default group_catalog_default (s_group_catalog s)).

Lemma apply_request_refines b s req b' r :
  Inv b s -> shard_wf s -> s_events s0 ⊆ s_events s -> request_wf req -> (group_revision s < u64_max)%N ->
  apply_request shard_id t b req = Ok (b', r) ->
  r = (shard_step s req).2 /\ Inv b' (shard_step s req).1.
Proof.
  intros HB Hwf Hsub Hreq Hrev.
  destruct req as [ty p g id ex ev hlc|ty p g id ex data hlc|ty p g|cmd|cmd|ty p g name ep st set cmd];
    cbn [apply_request shard_step request_wf] in *.
  - destruct Hreq. by apply apply_append_refines.
  - by apply apply_put_state_refines.
  - by apply apply_fence_refines.
  - by apply apply_catalog_refines.
  - by apply apply_group_catalog_refines.
  - destruct Hreq as [[Hp _] _]. by apply apply_group_partition_refines.
Qed.

(** One entry raises the revision of the group catalog by at most one. *)
Lemma group_revision_entry s (e : Entry M) :
  (group_revision (shard_entry s e).1 <= group_revision s + 1)%N.
Proof.
  clear Hshard shard_id t s0 ap.
  unfold shard_entry. destruct (en_payload e) as [|req|]; [cbn; lia| |cbn; lia].
  destruct req as [ty p g id ex ev hlc|ty p g id ex data hlc|ty p g|cmd|cmd|ty p g name ep st set cmd];
    cbn [shard_step].
  - destruct (step_append s ty p g id ex ev hlc) as [s' r] eqn:Hs.
    apply step_append_new in Hs as [->|(ver & _ & _ & _ & _ & _ & _ & _ & -> & _)];
      unfold group_revision; cbn; lia.
  - unfold step_put_state. repeat (case_match; cbn; try (unfold group_revision; cbn; lia)).
  - unfold step_fence. repeat (case_match; cbn; try (unfold group_revision; cbn; lia)).
  - unfold step_catalog. destruct (catalog_apply _ cmd). case_if; unfold group_revision; cbn; lia.
  - unfold step_group_catalog, group_revision.
    pose proof (group_catalog_apply_step (default group_catalog_default (s_group_catalog s)) cmd) as Hstep.
    destruct (group_catalog_apply _ cmd) as [c a]. cbn [fst] in Hstep |- *.
    case_if; [|cbn; lia]. cbn. destruct Hstep as [->|Hs]; [lia|].
    destruct Hs; cbn; unfold saturating_add_u64; lia.
  - unfold step_group_partition. repeat (case_match; cbn; try (unfold group_revision; cbn; lia)).
Qed.

(** What the loop has accumulated after some entries. *)
Definition last_log_id (o : option LogId) (entries : list (Entry M)) : option LogId :=
  match last entries with Some e => Some (en_log_id e) | None => o end.

Definition entry_membership (o : option (StoredMembership M)) (e : Entry M) : option (StoredMembership M) :=
  match en_payload e with MembershipChange m => Some (mkStored (Some (en_log_id e)) m) | _ => o end.

Lemma shard_run_cons_snd s (e : Entry M) es :
  (shard_run s (e :: es)).2 = (shard_entry s e).2 :: (shard_run (shard_entry s e).1 es).2.
Proof. cbn. destruct (shard_entry s e) as [s1 r]. cbn. by destruct (shard_run s1 es). Qed.

Lemma last_log_id_cons o (e : Entry M) es : last_log_id o (e :: es) = last_log_id (Some (en_log_id e)) es.
Proof. unfold last_log_id. rewrite last_cons. by destruct (last es). Qed.

Lemma apply_entries_refines (es : list (Entry M)) l s l' :
  Inv (lp_batch l) s -> shard_wf s -> s_events s0 ⊆ s_events s -> Forall entry_wf es ->
  (group_revision s + len es <= u64_max)%N ->
  apply_entries shard_id t l es = Ok l' ->
  Inv (lp_batch l') (shard_run s es).1 /\
  lp_responses l' = lp_responses l ++ (shard_run s es).2 /\
  lp_last_applied l' = last_log_id (lp_last_applied l) es /\
  lp_membership l' = foldl entry_membership (lp_membership l) es.
Proof.
  intros HB Hwf Hsub Hes. revert l s HB Hwf Hsub.
  induction Hes as [|e es He Hes IH]; intros l s HB Hwf Hsub Hrev.
  { intros [= <-]. cbn. by rewrite app_nil_r. }
  rewrite len_cons in Hrev. intros Hr. cbn [apply_entries] in Hr.
  apply bind_Ok_inv in Hr as (l1 & He1 & Hr).
  pose proof (shard_entry_change s e He) as Hch.
  pose proof (shard_change_wf _ _ Hch Hwf) as Hwf1.
  pose proof (sg_events _ _ (shard_change_grows _ _ Hwf Hch)) as Hsub1.
  pose proof (group_revision_entry s e) as Hrev1.
  assert (Hl1 : Inv (lp_batch l1) (shard_entry s e).1 /\
    lp_responses l1 = lp_responses l ++ [(shard_entry s e).2] /\
    lp_last_applied l1 = Some (en_log_id e) /\ lp_membership l1 = entry_membership (lp_membership l) e).
  { unfold apply_entry, shard_entry, entry_membership, entry_wf in *. destruct (en_payload e) as [|req|m].
    - by injection He1 as <-.
    - apply bind_Ok_inv in He1 as ([b1 r1] & Ha%map_err_Ok & [= <-]).
      apply apply_request_refines with (s := s) in Ha as [-> HB1]; try done. lia.
    - by injection He1 as <-. }
  destruct Hl1 as (HB1 & Hresp & Hlast & Hmem).
  destruct (IH l1 _ HB1 Hwf1 (transitivity Hsub Hsub1) ltac:(lia) Hr) as (HB2 & Hresp2 & Hlast2 & Hmem2).
  rewrite shard_run_cons, shard_run_cons_snd. split_ands; [done| | |].
  - by rewrite Hresp2, Hresp, <- app_assoc.
  - by rewrite Hlast2, Hlast, last_log_id_cons.
  - by rewrite Hmem2, Hmem.
Qed.

(** Writing the partition positions back. *)
Definition insert_all (m : gmap PartitionKey N) (l : list (PartitionKey * N)) : gmap PartitionKey N :=
  foldl (fun m x => <[x.1 := x.2]> m) m l.

Lemma insert_all_lookup m l k :
  NoDup l.*1 ->
  insert_all m l !! k =
    match (list_to_map l : gmap PartitionKey N) !! k with Some n => Some n | None => m !! k end.
Proof.
  revert m. induction l as [|[i n] l IH]; intros m; [done|]. cbn.
  intros [Hi Hnd]%NoDup_cons. rewrite IH by done. destruct (decide (i = k)) as [->|Hne].
  - by rewrite (not_elem_of_list_to_map_1 l k Hi), !lookup_insert_eq.
  - by rewrite !lookup_insert_ne.
Qed.

Lemma push_positions_refines l b s n b' :
  ShardRep (M := M) shard_id (puts v (b_ops b)) (with_next n s) ap ->
  Forall (fun x : PartitionKey * N => partition_key_wf x.1.1 x.1.2) l ->
  push_positions shard_id l b = Ok b' ->
  ShardRep (M := M) shard_id (puts v (b_ops b')) (with_next (insert_all n l) s) ap /\
  b_new_events b' = b_new_events b /\
  (forall k, key_wf k -> key_tag k <> TAG_SM \/ key_shard k <> shard_id ->
     puts v (b_ops b') !! key_bytes k = puts v (b_ops b) !! key_bytes k).
Proof.
  intros Hrep Hl. revert b n Hrep. induction Hl as [|[[ty p] m] l Hw Hl IH]; intros b n Hrep Hr.
  { by injection Hr as <-. }
  cbn [push_positions fst snd] in *. apply bind_Ok_inv in Hr as (bs & He%map_err_Ok & Hr).
  assert (Hk : key_wf (KNext shard_id ty p)) by (by split).
  apply (IH _ (<[(ty, p) := m]> n)) in Hr as (Hrep' & Hnew & Hfr).
  - split_ands; [exact Hrep'|done|]. intros k Hk' Hout. rewrite Hfr by done.
    cbn [b_ops push_op]. rewrite puts_snoc. exact (frame_insert _ _ _ _ Hk eq_refl eq_refl Hk' Hout).
  - cbn [b_ops push_op]. rewrite puts_snoc.
    exact (rep_put_next shard_id _ _ _ _ _ _ _ Hrep Hk He).
Qed.

Lemma flush_refines b s b' :
  Inv b s -> push_positions shard_id (map_to_list (b_positions b)) b = Ok b' ->
  ShardRep (M := M) shard_id (puts v (b_ops b')) s ap /\ NewEvents s0 s (b_new_events b') /\
  (forall k, key_wf k -> key_tag k <> TAG_SM \/ key_shard k <> shard_id ->
     puts v (b_ops b') !! key_bytes k = v !! key_bytes k).
Proof.
  intros HB Hr. apply push_positions_refines with (s := s) (n := s_next s0) in Hr as (Hrep & Hnew & Hfr).
  - split_ands.
    + assert (Hs : insert_all (s_next s0) (map_to_list (b_positions b)) = s_next s).
      { apply map_eq. intros i. rewrite insert_all_lookup by apply NoDup_fst_map_to_list.
        rewrite list_to_map_to_list. pose proof (bi_positions _ _ _ _ _ _ HB i) as Hi.
        by destruct (b_positions b !! i). }
      rewrite Hs in Hrep. by destruct s.
    + rewrite Hnew. apply (bi_new _ _ _ _ _ _ HB).
    + intros k Hk Hout. rewrite Hfr by done. by apply (bi_frame _ _ _ _ _ _ HB).
  - apply (bi_ops _ _ _ _ _ _ HB).
  - apply List.Forall_forall. intros [[ty p] m] Hx%list_elem_of_In%elem_of_map_to_list.
    apply (bi_touched _ _ _ _ _ _ HB). eauto.
Qed.

Lemma batch_empty_inv : ShardRep (M := M) shard_id v s0 ap -> Inv batch_empty s0.
Proof.
  intros Hrep. split; cbn; try (intros i; by rewrite lookup_empty); try done.
  - by destruct s0.
  - intros ty p. rewrite lookup_empty. by intros [? ?].
  - split; [|constructor]. intros e. rewrite elem_of_nil. split; [done|]. intros [? ?]. congruence.
Qed.

(** The transaction that commits a batch. *)
Lemma commit_ops_view (x x' : txn) (t' : tree) ops :
  tree_begin t = Ok x ->
  txn_each (fun x op => map_err ErrWriteStateMachine (txn_set x op.1 op.2)) x ops = Ok x' ->
  txn_commit t x' = Ok t' -> tree_view t' = puts v ops.
Proof.
  intros Hb He Hc.
  apply (txn_each_pending _ (fun op : ApplyOp => TxnSet op.1 op.2)) in He;
    [|intros y op y' Hs%map_err_Ok; by apply txn_set_law].
  rewrite (txn_commit_law _ _ _ Hc), He, (tree_begin_law _ _ Hb). apply puts_txn.
Qed.

End Batch.

(** ** Lemmas: success

    On a healthy tree that holds a shard state, and with encodings that do not
    fail, every read and write of a batch succeeds. *)

Class SmCodecTotal (M : Type) `{SmCodecs M} : Prop := {
  ct_meta :: CodecTotal AggregateMeta;
  ct_event :: CodecTotal AggregateEvent;
  ct_pointer :: CodecTotal (string * N);
  ct_state :: CodecTotal AggregateState;
  ct_hlc :: CodecTotal Hlc;
  ct_u64 :: CodecTotal N;
  ct_idem :: CodecTotal AggregateIdempotencyRecord;
  ct_catalog :: CodecTotal AggregateCatalog;
  ct_group_catalog :: CodecTotal AggregateGroupCatalog;
  ct_group_partition :: CodecTotal AggregateGroupPartition;
  ct_applied :: CodecTotal (AppliedState M)
}.

Section Total.
Context {M : Type} `{SmCodecLaws M} `{!SmCodecTotal M} `{TreeLaws} `{!TreeHealthy} `{Xxh3}.
Context (shard_id : N) (Hshard : (shard_id <= u64_max)%N).
Context (t : tree) (s0 : shard) (ap : option (AppliedState M)).
Context (Hrep : ShardRep (M := M) shard_id (tree_view t) s0 ap).

Lemma read_value_healthy {A} `{CodecLaws A} k what (o : option A) :
  stored (tree_view t) k o -> read_value t (key_bytes k) what = Ok o.
Proof.
  intros Hs. unfold read_value. rewrite storage_get_healthy. cbn [mbind result_bind].
  destruct (tree_view t !! key_bytes k) as [bs|] eqn:Hv.
  - destruct (stored_decode _ _ _ _ Hs Hv) as (a & -> & Hd). by rewrite Hd.
  - by rewrite (stored_None _ _ _ Hs Hv).
Qed.

Lemma rep_read k : key_fields_wf k -> key_shard k = shard_id -> rep_at (M := M) (tree_view t) s0 ap k.
Proof. intros Hk Hs. apply Hrep; [|done]. split; [by rewrite Hs|done]. Qed.

Lemma put_total {A} `{CodecTotal A} k (a : A) what b : exists b', put k a what b = Ok b'.
Proof. unfold put, encode. destruct (bincode_encode_ok a) as [bs ->]. cbn. eauto. Qed.

Lemma batch_version_total b ty p id : partition_key_wf ty p -> name_wf id ->
  exists b' o, batch_aggregate_version shard_id t b ty p id = Ok (b', o).
Proof.
  intros Hp Hn. unfold batch_aggregate_version, read_aggregate_meta. case_match; [eauto|].
  rewrite (read_value_healthy (KMeta shard_id ty p id) _ _ (rep_read (KMeta shard_id ty p id) (conj Hp Hn) eq_refl)).
  cbn [mbind result_bind]. eauto.
Qed.

Lemma batch_state_total b ty p id : partition_key_wf ty p -> name_wf id ->
  exists b' o, batch_aggregate_state shard_id t b ty p id = Ok (b', o).
Proof.
  intros Hp Hn. unfold batch_aggregate_state, read_aggregate_state. case_match; [eauto|].
  rewrite (read_value_healthy (KState shard_id ty p id) _ _ (rep_read (KState shard_id ty p id) (conj Hp Hn) eq_refl)).
  cbn [mbind result_bind]. eauto.
Qed.

Lemma batch_position_total b ty p : partition_key_wf ty p ->
  exists b' o, batch_aggregate_partition_position shard_id t b ty p = Ok (b', o).
Proof.
  intros Hp. unfold batch_aggregate_partition_position. case_match; [eauto|].
  rewrite (read_value_healthy (KNext shard_id ty p) _ _ (rep_read (KNext shard_id ty p) Hp eq_refl)).
  cbn [mbind result_bind]. eauto.
Qed.

Lemma batch_fence_total b ty p : partition_key_wf ty p ->
  exists b' o, batch_aggregate_partition_fence shard_id t b ty p = Ok (b', o).
Proof.
  intros Hp. unfold batch_aggregate_partition_fence. case_match; [eauto|].
  rewrite (read_value_healthy (KFence shard_id ty p) _ _ (rep_read (KFence shard_id ty p) Hp eq_refl)).
  cbn [mbind result_bind]. eauto.
Qed.

Lemma batch_idempotency_total b ty p u : partition_key_wf ty p -> (u <= u128_max)%N ->
  exists b' o, batch_idempotency shard_id t b ty p u = Ok (b', o).
Proof.
  intros Hp Hu. unfold batch_idempotency. case_match; [eauto|].
  rewrite (read_value_healthy (KIdem shard_id ty p u) _ _ (rep_read (KIdem shard_id ty p u) (conj Hp Hu) eq_refl)).
  cbn [mbind result_bind]. eauto.
Qed.

(** Step through a handler: reads and writes succeed, branches are followed. *)
Ltac total_step :=
  match goal with
  | |- exists _ _, Ok _ = Ok _ => by eauto
  | |- context [batch_aggregate_version shard_id t ?b ?ty ?p ?id] =>
      destruct (batch_version_total b ty p id) as (? & ? & ->); [done|done|]
  | |- context [batch_aggregate_state shard_id t ?b ?ty ?p ?id] =>
      destruct (batch_state_total b ty p id) as (? & ? & ->); [done|done|]
  | |- context [batch_aggregate_partition_position shard_id t ?b ?ty ?p] =>
      destruct (batch_position_total b ty p) as (? & ? & ->); [done|]
  | |- context [batch_aggregate_partition_fence shard_id t ?b ?ty ?p] =>
      destruct (batch_fence_total b ty p) as (? & ? & ->); [done|]
  | |- context [batch_idempotency shard_id t ?b ?ty ?p ?u] =>
      destruct (batch_idempotency_total b ty p u) as (? & ? & ->); [done|done|]
  | |- exists _ _, (put ?k ?a ?w ?b ≫= _) = _ => destruct (put_total k a w b) as (? & ->)
  | |- exists _ _, ((put ?k ?a ?w ?b ≫= _) ≫= _) = _ => destruct (put_total k a w b) as (? & ->)
  | |- exists _ _, (Ok _ ≫= _) = _ => rewrite bind_Ok
  | |- exists _ _, ((Ok _ ≫= _) ≫= _) = _ => rewrite bind_Ok
  | |- exists _ _, (if ?c then _ else _) = _ => destruct c
  | |- exists _ _, ((if ?c then _ else _) ≫= _) = _ => destruct c
  | |- exists _ _, match ?o with Some _ => _ | None => _ end = _ => destruct o
  end.

Lemma apply_request_total b req : request_wf req -> exists b' r, apply_request shard_id t b req = Ok (b', r).
Proof.
  intros Hreq.
  destruct req as [ty p g id ex ev hlc|ty p g id ex data hlc|ty p g|cmd|cmd|ty p g name ep st set cmd];
    cbn [apply_request request_wf] in *.
  - unfold apply_aggregate_append. destruct Hreq as [Hp Hu].
    destruct (type_id_validate ty) as [[]|] eqn:Ht; [|unfold invalid; eauto].
    destruct (validate_aggregate_identifier "aggregate_id" id) as [[]|] eqn:Hi; [|unfold invalid; eauto].
    assert (Hw : partition_key_wf ty p) by (split; [by apply type_id_validate_iff|done]).
    assert (Hn : name_wf id) by (by apply identifier_name_wf, (validate_identifier_iff "aggregate_id")).
    cbv zeta. repeat total_step.
  - unfold apply_put_aggregate_state.
    destruct (type_id_validate ty) as [[]|] eqn:Ht; [|unfold invalid; eauto].
    destruct (validate_aggregate_identifier "aggregate_id" id) as [[]|] eqn:Hi; [|unfold invalid; eauto].
    assert (Hw : partition_key_wf ty p) by (split; [by apply type_id_validate_iff|done]).
    assert (Hn : name_wf id) by (by apply identifier_name_wf, (validate_identifier_iff "aggregate_id")).
    cbv zeta. repeat total_step.
  - unfold apply_aggregate_partition_fence.
    destruct (type_id_validate ty) as [[]|] eqn:Ht; [|unfold invalid; eauto].
    assert (Hw : partition_key_wf ty p) by (split; [by apply type_id_validate_iff|done]).
    cbv zeta. repeat total_step.
  - unfold apply_aggregate_catalog_command, read_aggregate_catalog.
    rewrite (read_value_healthy (KCatalog shard_id) _ _ (rep_read (KCatalog shard_id) I eq_refl)).
    destruct (b_catalog b); cbn [mbind result_bind]; destruct (catalog_apply _ cmd); repeat total_step.
  - unfold apply_aggregate_group_catalog_command, read_aggregate_group_catalog.
    rewrite (read_value_healthy (KGroupCatalog shard_id) _ _ (rep_read (KGroupCatalog shard_id) I eq_refl)).
    destruct (b_group_catalog b); cbn [mbind result_bind]; destruct (group_catalog_apply _ cmd); repeat total_step.
  - unfold apply_aggregate_group_partition. destruct Hreq as [[Hp _] _].
    destruct (type_id_validate ty) as [[]|] eqn:Ht; [|unfold invalid; eauto].
    destruct (validate_aggregate_identifier "group_name" name) as [[]|] eqn:Hi; [|unfold invalid; eauto].
    destruct (settings_validate set); [|eauto].
    assert (Hw : partition_key_wf ty p) by (split; [by apply type_id_validate_iff|done]).
    assert (Hn : name_wf name) by (by apply identifier_name_wf, (validate_identifier_iff "group_name")).
    total_step. rewrite bind_Ok. total_step; [eauto|]. unfold read_aggregate_group_partition.
    rewrite (read_value_healthy (KGroup shard_id ty p name) _ _
               (rep_read (KGroup shard_id ty p name) (conj Hw Hn) eq_refl)).
    set (st0 := match b_groups _ !! _ with Some _ => _ | None => _ end).
    assert (Hst : exists st1, st0 = Ok st1) by (subst st0; case_match; cbn; eauto).
    destruct Hst as [st1 ->]. rewrite bind_Ok. total_step; [eauto|]. cbv zeta.
    destruct (group_command _ ep set cmd) as [st2 r]. unfold encode.
    destruct (bincode_encode_ok st2) as [bs ->]. cbn. eauto.
Qed.

Lemma apply_entries_total l (es : list (Entry M)) :
  Forall entry_wf es -> exists l', apply_entries shard_id t l es = Ok l'.
Proof.
  intros Hes. revert l. induction Hes as [|e es He Hes IH]; intros l; cbn [apply_entries]; [eauto|].
  assert (Hone : exists l1, apply_entry shard_id t l e = Ok l1).
  { unfold apply_entry, entry_wf in *. destruct (en_payload e) as [|req|m]; [eauto| |eauto].
    destruct (apply_request_total (lp_batch l) req He) as (b & r & ->). cbn. eauto. }
  destruct Hone as [l1 ->]. apply IH.
Qed.

Lemma push_positions_total l b : exists b', push_positions shard_id l b = Ok b'.
Proof.
  revert b. induction l as [|[[ty p] n] l IH]; intros b; cbn [push_positions]; [eauto|].
  unfold encode. destruct (bincode_encode_ok n) as [bs ->]. apply IH.
Qed.

End Total.

(** ** Lemmas: a whole batch *)

Section Properties.
Context {M : Type} `{SmCodecLaws M} `{TreeLaws} `{Xxh3}.
Context (shard_id : N) (Hshard : (shard_id <= u64_max)%N).

Lemma sm_apply_refines (t : tree) (cache : SmCache) (s0 : shard) (ap : option (AppliedState M))
  (entries : list (Entry M)) (out : Applied)
  (Hrep : ShardRep shard_id (tree_view t) s0 ap) (Hwf : shard_wf s0) (Hes : Forall entry_wf entries)
  (Hrev : (group_revision s0 + len entries <= u64_max)%N)
  (Happ : sm_apply shard_id t cache entries = Ok out) :
  let s := (shard_run s0 entries).1 in
  let last := last_log_id (cache_last_applied cache) entries in
  let mem := default (cache_membership cache) (foldl entry_membership None entries) in
  ShardRep shard_id (tree_view (ap_tree out)) s (Some (mkApplied last mem)) /\
  ap_cache out = mkCache last mem /\
  ap_responses out = (shard_run s0 entries).2 /\
  (forall k, key_wf k -> key_tag k <> TAG_SM \/ key_shard k <> shard_id ->
     tree_view (ap_tree out) !! key_bytes k = tree_view t !! key_bytes k) /\
  NewEvents s0 s (ap_events out).
Proof.
  unfold sm_apply in Happ. apply bind_Ok_inv in Happ as (l & Hl & Happ).
  apply (apply_entries_refines shard_id Hshard t s0 ap) with (s := s0) in Hl
    as (HB & Hresp & Hlast & Hmem); try done; [|by apply batch_empty_inv].
  apply bind_Ok_inv in Happ as (b & Hflush & Happ).
  apply (flush_refines shard_id Hshard t s0 ap _ _ _ HB) in Hflush as (Hs & Hnew & Hfr).
  apply bind_Ok_inv in Happ as (bs & Hbs%map_err_Ok & Happ).
  apply bind_Ok_inv in Happ as (x & Hx%map_err_Ok & Happ).
  apply bind_Ok_inv in Happ as (x' & Hx' & Happ).
  apply bind_Ok_inv in Happ as (t' & Ht'%map_err_Ok & [= <-]).
  pose proof (commit_ops_view t x x' t' _ Hx Hx' Ht') as Hv. rewrite puts_snoc in Hv.
  cbn [lp_last_applied lp_responses lp_membership app] in Hlast, Hresp, Hmem.
  assert (Hla : match lp_last_applied l with Some x => Some x | None => cache_last_applied cache end
                = last_log_id (cache_last_applied cache) entries).
  { rewrite Hlast. unfold last_log_id. by destruct (last entries). }
  rewrite Hla, Hmem in *. cbn [ap_tree ap_cache ap_responses ap_events]. rewrite Hv.
  assert (Hk : key_wf (KApplied shard_id)) by (by split).
  split_ands; try done.
  - exact (rep_put_applied shard_id _ _ _ _ _ Hs Hk Hbs).
  - intros k Hk' Hout. etrans; [exact (frame_insert _ _ _ _ _ Hk eq_refl eq_refl Hk' Hout)|]. by apply Hfr.
Qed.

Lemma apply_entries_responses (t : tree) l (es : list (Entry M)) l' :
  apply_entries shard_id t l es = Ok l' ->
  length (lp_responses l') = length (lp_responses l) + length es.
Proof.
  revert l. induction es as [|e es IH]; intros l; cbn [apply_entries length].
  { intros [= <-]. lia. }
  intros (l1 & Hone & Hr)%bind_Ok_inv. rewrite (IH _ Hr). unfold apply_entry in Hone.
  destruct (en_payload e) as [|req|m].
  - injection Hone as <-. cbn. rewrite length_app. cbn. lia.
  - apply bind_Ok_inv in Hone as ([b r] & _ & [= <-]). cbn. rewrite length_app. cbn. lia.
  - injection Hone as <-. cbn. rewrite length_app. cbn. lia.
Qed.

(** Deleting the obsolete snapshot key leaves the shard state alone. *)
Lemma ShardRep_delete_snapshot v s (ap : option (AppliedState M)) :
  ShardRep shard_id v s ap -> ShardRep shard_id (delete (key_bytes (KSnapshot shard_id)) v) s ap.
Proof.
  intros [Hk Hr]. assert (Hsnap : key_wf (KSnapshot shard_id)) by (by split). split.
  - eapply keys_wf_subset; [|exact Hk]. intros raw. rewrite lookup_delete_is_Some. tauto.
  - intros k Hwf Hs. specialize (Hr k Hwf Hs).
    assert (Hl : k <> KSnapshot shard_id ->
              delete (key_bytes (KSnapshot shard_id)) v !! key_bytes k = v !! key_bytes k)
      by (intros Hne; apply lookup_delete_ne; by apply key_bytes_ne).
    destruct k; cbn [rep_at] in *; try done; (eapply stored_ext; [|exact Hr]); by apply Hl.
Qed.

Lemma cleanup_legacy_snapshot_view (t t' : tree) :
  cleanup_legacy_snapshot shard_id t = Ok t' ->
  tree_view t' = delete (key_bytes (KSnapshot shard_id)) (tree_view t).
Proof.
  unfold cleanup_legacy_snapshot. intros (o & Hg%storage_get_view & Hr)%bind_Ok_inv.
  destruct o as [bs|].
  - by rewrite (delete_batch_view _ _ _ Hr).
  - injection Hr as <-. symmetry. by apply delete_id.
Qed.

Lemma restore_spec (t t' : tree) (cache cache' : SmCache) s (a : AppliedState M) :
  ShardRep shard_id (tree_view t) s (Some a) ->
  restore_applied_state shard_id t cache = Ok (t', cache') ->
  cache' = mkCache (as_last_applied a) (as_membership a) /\
  ShardRep shard_id (tree_view t') s (Some a) /\ tree_view t' !! snapshot_current shard_id = None.
Proof.
  intros Hrep (o & Hg%storage_get_view & Hr)%bind_Ok_inv.
  apply bind_Ok_inv in Hr as (c & Hc & Hr).
  apply bind_Ok_inv in Hr as (t1 & Ht1%cleanup_legacy_snapshot_view & [= <- <-]).
  assert (Hk : key_wf (KApplied shard_id)) by (by split).
  destruct (rep_values _ _ _ _ Hrep (KApplied shard_id) Hk eq_refl) as (bs & He & Hv).
  change (key_bytes (KApplied shard_id)) with (sm_applied_state shard_id) in Hv.
  rewrite Hv in Hg. subst o. rewrite (decode_encode_strict _ _ He) in Hc. injection Hc as <-.
  rewrite Ht1. split_ands; [done|by apply ShardRep_delete_snapshot|]. apply lookup_delete_eq.
Qed.

Lemma sm_apply_total `{!SmCodecTotal M} `{!TreeHealthy} (t : tree) (cache : SmCache) (s0 : shard)
  (ap : option (AppliedState M)) (entries : list (Entry M))
  (Hrep : ShardRep shard_id (tree_view t) s0 ap) (Hes : Forall entry_wf entries) :
  exists out, sm_apply shard_id t cache entries = Ok out /\ length (ap_responses out) = length entries.
Proof.
  unfold sm_apply.
  destruct (apply_entries_total shard_id Hshard t s0 ap Hrep (mkLoop batch_empty [] None None) entries Hes)
    as [l Hl]. rewrite Hl, bind_Ok.
  destruct (push_positions_total shard_id (map_to_list (b_positions (lp_batch l))) (lp_batch l)) as [b ->].
  rewrite bind_Ok. cbv zeta. unfold encode.
  match goal with |- context [bincode_encode ?a] => destruct (bincode_encode_ok a) as [bs ->] end.
  destruct (tree_begin_ok t) as [x ->]. cbn [map_err]. rewrite !bind_Ok.
  match goal with |- context [txn_each ?f x ?ops] => destruct (txn_each_healthy f x ops) as [x' ->] end.
  { intros y op. destruct (txn_set_ok y op.1 op.2) as [y' ->]. cbn. eauto. }
  rewrite bind_Ok. destruct (txn_commit_ok t x') as [t' ->]. cbn. eexists. split; [done|]. cbn.
  apply apply_entries_responses in Hl. by rewrite Hl.
Qed.

(** ** Properties *)

(** C2: [apply] implements the specification. If the tree holds a well-formed
    shard state and a batch of entries is applied with success, then the new
    tree holds exactly the state the specification reaches by taking the
    entries one after the other, together with the last log id and membership
    of the batch (the same the cache holds); the responses are those of the
    specification in order; no key of another shard or of the Raft region has
    changed; and the events broadcast are exactly those the batch recorded, in
    position order within each partition. *)
Theorem apply_refines (t : tree) (cache : SmCache) (s0 : shard) (ap : option (AppliedState M))
  (entries : list (Entry M)) (out : Applied)
  (Hrep : ShardRep shard_id (tree_view t) s0 ap) (Hwf : shard_wf s0) (Hes : Forall entry_wf entries)
  (Hrev : (group_revision s0 + len entries <= u64_max)%N)
  (Happ : sm_apply shard_id t cache entries = Ok out) :
  let s := (shard_run s0 entries).1 in
  let last := last_log_id (cache_last_applied cache) entries in
  let mem := default (cache_membership cache) (foldl entry_membership None entries) in
  ShardRep shard_id (tree_view (ap_tree out)) s (Some (mkApplied last mem)) /\
  ap_cache out = mkCache last mem /\
  ap_responses out = (shard_run s0 entries).2 /\
  (forall k, key_wf k -> key_tag k <> TAG_SM \/ key_shard k <> shard_id ->
     tree_view (ap_tree out) !! key_bytes k = tree_view t !! key_bytes k) /\
  NewEvents s0 s (ap_events out).
Proof. exact (sm_apply_refines t cache s0 ap entries out Hrep Hwf Hes Hrev Happ). Qed.

(** C26: [apply] does not fail on its own account: on a tree that holds a shard
    state, with a store whose calls succeed and values that can be encoded, any
    batch of entries is applied. Every refusal is a response, never an error
    that would stop the node. *)
Theorem apply_succeeds `{!SmCodecTotal M} `{!TreeHealthy} (t : tree) (cache : SmCache) (s0 : shard)
  (ap : option (AppliedState M)) (entries : list (Entry M))
  (Hrep : ShardRep shard_id (tree_view t) s0 ap) (Hes : Forall entry_wf entries) :
  exists out, sm_apply shard_id t cache entries = Ok out /\ length (ap_responses out) = length entries.
Proof. exact (sm_apply_total t cache s0 ap entries Hrep Hes). Qed.

(** A restart recovers what was applied. After a successful [apply], the
    state restored from the tree is the cache [apply] left, whatever the cache
    was initialised with, and the shard state is untouched by the removal of
    the obsolete snapshot key. *)
Theorem restart_recovers (t t'' : tree) (cache cache' cache'' : SmCache) (s0 : shard)
  (ap : option (AppliedState M)) (entries : list (Entry M)) (out : Applied)
  (Hrep : ShardRep shard_id (tree_view t) s0 ap) (Hwf : shard_wf s0) (Hes : Forall entry_wf entries)
  (Hrev : (group_revision s0 + len entries <= u64_max)%N)
  (Happ : sm_apply shard_id t cache entries = Ok out)
  (Hres : restore_applied_state shard_id (ap_tree out) cache' = Ok (t'', cache'')) :
  cache'' = ap_cache out /\
  ShardRep shard_id (tree_view t'') (shard_run s0 entries).1
    (Some (mkApplied (cache_last_applied cache'') (cache_membership cache''))) /\
  tree_view t'' !! snapshot_current shard_id = None.
Proof.
  destruct (sm_apply_refines t cache s0 ap entries out Hrep Hwf Hes Hrev Happ) as (Hr & Hc & _).
  apply (restore_spec _ _ _ _ _ _ Hr) in Hres as (-> & ? & ?). by rewrite Hc.
Qed.

End Properties.

(** ** Witnesses *)

Lemma demo_codec_total : @SmCodecTotal N demo_codecs.
Proof. split; cbn; apply countable_codec_total. Qed.

Lemma ShardRep_empty {M} `{SmCodecs M} shard_id : ShardRep (M := M) shard_id ∅ shard_empty None.
Proof.
  split.
  - intros raw. rewrite lookup_empty. by intros [? ?].
  - intros k _ _. destruct k; cbn [rep_at shard_empty s_events s_versions s_index s_next s_states s_modified
      s_idem s_fences s_catalog s_group_catalog s_groups]; rewrite ?lookup_empty; done.
Qed.

Definition demo_cache : @SmCache N := mkCache None (mkStored None 0%N).

Definition demo_apply : result StorageError (@Applied N mem_tree) :=
  @sm_apply N mem_tree demo_xxh3 demo_codecs 1 (∅ : gmap Bytes Bytes) demo_cache demo_log.

Example demo_apply_responses :
  match demo_apply with
  | Ok out => ap_responses out = [Noop; AggregatePartitionFenceInstalled 1; AggregateAppendOk 0 0; AggregateAppendOk 1 1]
  | Err _ => False
  end.
Proof. vm_compute. reflexivity. Qed.

Lemma demo_apply_ok : exists out, demo_apply = Ok out.
Proof.
  pose proof demo_apply_responses as Hd. destruct demo_apply as [out|e]; [by exists out|destruct Hd].
Qed.

Lemma demo_log_small : (group_revision shard_empty + len demo_log <= u64_max)%N.
Proof. apply (bool_decide_unpack _). vm_compute. exact I. Qed.

Lemma apply_refines_witness :
  exists out, demo_apply = Ok out /\
    ShardRep (M := N) (H := demo_codecs) 1 (ap_tree out : gmap Bytes Bytes)
      (@shard_run demo_xxh3 N shard_empty demo_log).1
      (Some (mkApplied (Some (mkLogId 1 1 3)) (mkStored None 0%N))).
Proof.
  destruct demo_apply_ok as [out Hout]. exists out. split; [exact Hout|].
  exact (proj1 (@apply_refines N demo_codecs demo_codec_laws mem_tree mem_tree_laws demo_xxh3 1
    ltac:(lia) (∅ : gmap Bytes Bytes) demo_cache shard_empty None demo_log out
    (ShardRep_empty 1) shard_empty_wf demo_log_wf demo_log_small Hout)).
Defined.

Lemma apply_succeeds_witness : exists out, demo_apply = Ok out /\ length (ap_responses out) = 4.
Proof.
  exact (@apply_succeeds N demo_codecs demo_codec_laws mem_tree mem_tree_laws demo_xxh3 1
    ltac:(lia) demo_codec_total mem_tree_healthy (∅ : gmap Bytes Bytes) demo_cache shard_empty None demo_log
    (ShardRep_empty 1) demo_log_wf).
Defined.

(** Restoring from an empty cache after the batch above. *)
Lemma restart_recovers_witness :
  exists out t' cache', demo_apply = Ok out /\
    @restore_applied_state N mem_tree demo_codecs 1 (ap_tree out) demo_cache = Ok (t', cache') /\
    cache' = ap_cache out.
Proof.
  destruct demo_apply_ok as [out Hout].
  assert (Hres : exists x, @restore_applied_state N mem_tree demo_codecs 1 (ap_tree out) demo_cache = Ok x).
  { pose proof (f_equal (fun r => match r with Ok o => is_ok (@restore_applied_state N mem_tree demo_codecs 1 (ap_tree o) demo_cache) | Err _ => false end) Hout) as Hb.
    cbv beta iota in Hb. destruct (restore_applied_state 1 (ap_tree out) demo_cache) as [x|e]; [by exists x|].
    exfalso. revert Hb. vm_compute. discriminate. }
  destruct Hres as [[t' cache'] Hres]. exists out, t', cache'. split; [exact Hout|]. split; [exact Hres|].
  exact (proj1 (@restart_recovers N demo_codecs demo_codec_laws mem_tree mem_tree_laws demo_xxh3 1
    ltac:(lia) (∅ : gmap Bytes Bytes) t' demo_cache demo_cache cache' shard_empty None demo_log out
    (ShardRep_empty 1) shard_empty_wf demo_log_wf demo_log_small Hout Hres)).
Defined.
