(* ===== verification/Reads.v ===== *)
(** * The reads of the state machine

    What [read_aggregate_partition_events], [list_aggregate_partition_states]
    and [read_aggregate_state_document] return, in terms of the shard state the
    tree holds ([ShardRep] of [Apply.v]). *)

From S2P Require Import Prelude.
From S2P Require Import Bytes.
From S2P Require Import Core.
From S2P Require Import Aggregate.
From S2P Require Import Catalog.
From S2P Require Import GroupCatalog.
From S2P Require Import GroupPartition.
From S2P Require Import Keys.
From S2P Require Import Store.
From S2P Require Import RaftType.
From S2P Require Import LogStore.
From S2P Require Import StateMachine.
From S2P Require Import ShardSpec.
From S2P Require Import Codecs.
From S2P Require Import Apply.

(** ** Specification *)

Definition seqN (from : N) (n : nat) : list N := map (fun i => from + N.of_nat i)%N (seq 0 n).

(** How many positions a read from [from] covers; a limit of 0 is none. *)
Definition read_window (next from limit : N) : nat :=
  N.to_nat (if (limit =? 0)%N then (next - from)%N else N.min limit (next - from)).

Definition event_at_position (s : shard) (ty : AggregateTypeId) (p q : N) : option AggregateEvent :=
  x ← s_index s !! (ty, p, q); s_events s !! (ty, p, x.1, x.2).

(** The document of an instance. *)
Definition document_of (s : shard) (ty : AggregateTypeId) (p : N) (id : string) :
    option AggregateStateDocument :=
  st ← s_states s !! (ty, p, id);
  Some (mkDocument (st_revision st) (st_data st) (default (mkHlc 0 0) (s_modified s !! (ty, p, id)))).

(** The ids a page starts after. *)
Definition after_cursor (after : option string) (id : string) : Prop :=
  match after with Some a => bytes_lt (as_bytes a) (as_bytes id) | None => True end.

(** ** Lemmas: sequences *)

Lemma seqN_lookup from n i q : seqN from n !! i = Some q <-> q = (from + N.of_nat i)%N /\ i < n.
Proof.
  unfold seqN. rewrite list_lookup_fmap_Some. split.
  - intros (j & -> & [-> Hj]%lookup_seq). split; [f_equal|done].
  - intros [-> Hi]. exists i. split; [done|]. by rewrite lookup_seq.
Qed.

Lemma elem_of_seqN from n q : q ∈ seqN from n <-> (from <= q < from + N.of_nat n)%N.
Proof.
  rewrite list_elem_of_lookup. setoid_rewrite seqN_lookup. split.
  - intros (i & -> & Hi). lia.
  - intros Hq. exists (N.to_nat (q - from)). lia.
Qed.

Lemma seqN_take from n m : take m (seqN from n) = seqN from (Nat.min m n).
Proof. unfold seqN. by rewrite firstn_map, take_seq. Qed.

Lemma seqN_sorted from n : StronglySorted N.lt (seqN from n).
Proof.
  unfold seqN. generalize 0. induction n as [|n IH]; intros k; cbn; [constructor|].
  constructor; [apply IH|]. apply List.Forall_forall. intros q (i & <- & Hi%in_seq)%in_map_iff. lia.
Qed.

(** ** Lemmas: scans *)

Lemma range_entries_strict m s e : StronglySorted (fun x y => bytes_lt x.1 y.1) (range_entries m s e).
Proof.
  pose proof (range_entries_sorted m s e) as Hs. pose proof (range_entries_NoDup m s e) as Hnd.
  assert (Hin : forall x y, x ∈ range_entries m s e -> y ∈ range_entries m s e -> x.1 = y.1 -> x = y).
  { intros [k1 v1] [k2 v2] [H1 _]%elem_of_range_entries [H2 _]%elem_of_range_entries Heq.
    cbn in Heq. congruence. }
  revert Hs Hnd Hin. generalize (range_entries m s e). intros l.
  induction 1 as [|x l Hl IH Hx]; intros Hnd Hin; [constructor|].
  apply NoDup_cons in Hnd as [Hx' Hnd]. constructor; [apply IH; [done|]; intros; apply Hin; set_solver|].
  apply List.Forall_forall. intros y Hy. apply (proj1 (List.Forall_forall _ _)) with (x := y) in Hx; [|done].
  apply list_elem_of_In in Hy. apply bytes_lt_nle. intros Hle.
  assert (Heq : x.1 = y.1) by (by apply bytes_le_antisym). apply Hx'. rewrite (Hin x y); [done|set_solver..|done].
Qed.

Lemma prefix_in_range p k u : successor p = Some u -> p `prefix_of` k -> bytes_le p k /\ bytes_lt k u.
Proof. intros Hu. pose proof (successor_range p k) as Hr. rewrite Hu in Hr. apply Hr. Qed.

Lemma scan_values_view `{TreeLaws} t s e limit vs :
  scan_values t s e false limit = Ok vs ->
  vs = (let l := map snd (range_entries (tree_view t) s e) in
        if (limit =? 0)%N then l else take (N.to_nat limit) l).
Proof.
  unfold scan_values. case_if.
  - intros [= <-]. rewrite range_entries_empty by done. cbn. by rewrite take_nil; destruct (_ =? _)%N.
  - intros (x & Hx & (l & Hl%map_err_Ok & [= <-])%bind_Ok_inv)%bind_Ok_inv. storage_facts.
    assert (l = range_entries (tree_view t) s e) as ->; [|done].
    eapply txn_scan_law; [eassumption| |eassumption].
    apply bytes_lt_nle. intros Hle. unfold bytes_le in Hle. congruence.
Qed.

Lemma scan_values_healthy `{TreeLaws} `{!TreeHealthy} t s e limit :
  exists vs, scan_values t s e false limit = Ok vs.
Proof.
  unfold scan_values. case_if; [eauto|].
  destruct (tree_begin_ok t) as [x Hx], (txn_scan_ok x s e) as [l Hl]. unfold storage_err.
  rewrite Hx. cbn. rewrite Hl. cbn. eauto.
Qed.

Section Reads.
Context {M : Type} `{SmCodecLaws M} `{TreeLaws}.
Context (shard_id : N) (Hshard : (shard_id <= u64_max)%N).
Context (t : tree) (s : shard) (ap : option (AppliedState M)).
Context (Hrep : ShardRep (M := M) shard_id (tree_view t) s ap) (Hwf : shard_wf s).
Context (ty : AggregateTypeId) (p : N) (Hp : partition_key_wf ty p).

Local Abbreviation v := (tree_view t).

Lemma stored_at k : key_fields_wf k -> key_shard k = shard_id -> rep_at (M := M) v s ap k.
Proof. intros Hk Hs. apply Hrep; [|done]. split; [by rewrite Hs|done]. Qed.

(** ** Lemmas: the partition index *)

(** The prefix of a partition region ends in the two bytes of the partition and
    starts with the region tag, so it has a successor. *)
Lemma partition_prefix_successor sub : successor (aggregate_partition_prefix shard_id sub ty p) <> None.
Proof.
  intros Hn. pose proof (successor_range (aggregate_partition_prefix shard_id sub ty p) [xff]) as Hr.
  rewrite Hn in Hr. rewrite <- (app_nil_r (aggregate_partition_prefix shard_id sub ty p)) in Hr.
  rewrite partition_prefix_shape in Hr. cbn [app] in Hr.
  destruct (proj1 Hr) as [r Hx]; [apply bytes_le_cmp; cbn; discriminate|]. discriminate Hx.
Qed.

Lemma index_range_key from u k :
  (from <= u64_max)%N -> successor (sm_aggregate_partition_index_prefix shard_id ty p) = Some u -> key_wf k ->
  bytes_le (sm_aggregate_partition_index shard_id ty p from) (key_bytes k) /\ bytes_lt (key_bytes k) u <->
  exists q, k = KIndex shard_id ty p q /\ (from <= q)%N.
Proof.
  intros Hfrom Hu Hk.
  assert (Hpre : sm_aggregate_partition_index_prefix shard_id ty p `prefix_of`
                 sm_aggregate_partition_index shard_id ty p from) by (by exists (be_bytes 8 from)).
  assert (Hcmp : forall q, (q <= u64_max)%N ->
    bytes_le (sm_aggregate_partition_index shard_id ty p from) (sm_aggregate_partition_index shard_id ty p q)
    <-> (from <= q)%N).
  { intros q Hq. rewrite bytes_le_cmp. unfold sm_aggregate_partition_index, encode_u64_be.
    rewrite prefix_be_order by done. rewrite N.compare_le_iff. done. }
  split.
  - intros [Hle Hlt]. pose proof (successor_range (sm_aggregate_partition_index_prefix shard_id ty p) (key_bytes k)) as Hr.
    rewrite Hu in Hr. destruct (proj1 (index_prefix_key shard_id ty p k Hshard Hp Hk)) as [q ->].
    { apply Hr. split; [|done]. etrans; [|exact Hle]. by eapply prefix_in_range. }
    exists q. split; [done|]. apply Hcmp; [apply Hk|exact Hle].
  - intros (q & -> & Hq). split; [apply Hcmp; [apply Hk|done]|].
    eapply prefix_in_range; [exact Hu|]. by exists (be_bytes 8 q).
Qed.

Definition pointer_bytes (q : N) : Bytes :=
  match s_index s !! (ty, p, q) with
  | Some x => match encode x with Ok b => b | Err _ => [] end
  | None => []
  end.

Lemma index_stored q : (q < next_of s ty p)%N ->
  exists x, s_index s !! (ty, p, q) = Some x /\ encode x = Ok (pointer_bytes q) /\
    v !! sm_aggregate_partition_index shard_id ty p q = Some (pointer_bytes q).
Proof.
  intros Hq. pose proof (sw_next _ Hwf ty p) as Hn.
  destruct (proj2 (sw_positions _ Hwf ty p q) Hq) as [x Hx].
  assert (Hst : rep_at (M := M) v s ap (KIndex shard_id ty p q)) by (apply stored_at; [split; [done|lia]|done]).
  cbn [rep_at] in Hst. rewrite Hx in Hst. destruct Hst as (b & Hb & Hv). exists x. unfold pointer_bytes.
  by rewrite Hx, Hb.
Qed.

Lemma scan_index from u :
  (from <= u64_max)%N -> successor (sm_aggregate_partition_index_prefix shard_id ty p) = Some u ->
  range_entries v (sm_aggregate_partition_index shard_id ty p from) u =
  map (fun q => (sm_aggregate_partition_index shard_id ty p q, pointer_bytes q))
    (seqN from (N.to_nat (next_of s ty p - from))).
Proof.
  intros Hfrom Hu. pose proof (sw_next _ Hwf ty p) as Hn. apply range_entries_unique.
  - apply (StronglySorted_map N.lt); [|apply seqN_sorted]. intros q1 q2 H1' H2' Hlt. cbn [fst].
    apply elem_of_seqN in H1', H2'. apply bytes_lt_cmp.
    unfold sm_aggregate_partition_index, encode_u64_be. rewrite prefix_be_order by lia.
    by apply N.compare_lt_iff.
  - intros raw b. rewrite list_elem_of_fmap. split.
    + intros (q & [= -> ->] & Hq%elem_of_seqN). destruct (index_stored q) as (x & Hx & He & Hv); [lia|].
      split; [exact Hv|]. apply (index_range_key from u (KIndex shard_id ty p q)); [done|done| |].
      * split; [done|]. split; [done|lia].
      * exists q. split; [done|lia].
    + intros (Hv & Hr). destruct (rep_keys _ _ _ _ Hrep raw) as (k & Hk & ->); [eauto|].
      apply (index_range_key from u) in Hr as (q & -> & Hq); [|done..].
      assert (Hlt : (q < next_of s ty p)%N).
      { apply (sw_positions _ Hwf). pose proof (stored_at (KIndex shard_id ty p q) (proj2 Hk) eq_refl) as Hst.
        cbn [rep_at] in Hst. destruct (s_index s !! (ty, p, q)); [by eexists|]. unfold stored in Hst. congruence. }
      destruct (index_stored q Hlt) as (x & Hx & He & Hv'). exists q. split.
      * cbn [key_bytes] in *. congruence.
      * apply elem_of_seqN. lia.
Qed.

(** The events a pointer scan resolves to. *)
Lemma event_at_index q x :
  s_index s !! (ty, p, q) = Some x ->
  exists e, event_at_position s ty p q = Some e /\ ev_partition_position e = q /\
    ev_aggregate_type e = ty /\ ev_partition_id e = p /\
    stored v (KEvent shard_id ty p x.1 x.2) (Some e).
Proof.
  intros Hx. destruct x as [id ver]. destruct (sw_index _ Hwf _ _ _ _ _ Hx) as (e & He & Hq).
  exists e. unfold event_at_position. rewrite Hx. cbn [mbind option_bind fst snd].
  destruct (sw_events _ Hwf _ _ _ _ _ He) as ((Hty & Hpid & _) & _).
  destruct (proj1 (sw_versions _ Hwf ty p id ver) (mk_is_Some _ _ He)) as (cur & Hcur & Hle).
  destruct (sw_ids _ Hwf _ _ _ _ Hcur) as (_ & Hid%identifier_name_wf & Hb).
  split_ands; try done.
  assert (Hst : rep_at (M := M) v s ap (KEvent shard_id ty p id ver))
    by (apply stored_at; [|done]; cbn [key_fields_wf]; split_ands; [done|done|lia]).
  cbn [rep_at] in Hst. by rewrite He in Hst.
Qed.

Lemma resolve_pointer q e' :
  (q < next_of s ty p)%N ->
  (iv ← map_err (fun e => Serde ("聚合分区索引反序列化失败: " +:+ e)) (@decode (string * N) _ (pointer_bytes q));
   o ← read_aggregate_event shard_id t ty p iv.1 iv.2;
   ok_or (Storage ("聚合分区索引指向缺失事件: " +:+ canonical_name ty +:+ "/" +:+ pretty p +:+ "/" +:+
                   iv.1 +:+ "/" +:+ pretty iv.2)) o) = Ok e' ->
  event_at_position s ty p q = Some e' /\ ev_partition_position e' = q.
Proof.
  intros Hq. destruct (index_stored q Hq) as (x & Hx & He & _).
  rewrite (decode_encode_strict _ _ He). cbn [map_err mbind result_bind]. intros Hr.
  destruct (event_at_index q x Hx) as (e & Hat & Hpos & _ & _ & Hst).
  apply bind_Ok_inv in Hr as (o & Ho & Hr). apply (read_value_stored t _ _ _ _ Hst) in Ho. subst o.
  injection Hr as <-. done.
Qed.

Lemma read_events_window from limit l :
  (from <= u64_max)%N ->
  read_aggregate_partition_events shard_id t ty p from limit = Ok l ->
  Forall2 (fun q e => event_at_position s ty p q = Some e /\ ev_partition_position e = q)
    (seqN from (read_window (next_of s ty p) from limit)) l.
Proof.
  intros Hfrom (u & Hu & Hr)%bind_Ok_inv.
  assert (Hsucc : successor (sm_aggregate_partition_index_prefix shard_id ty p) = Some u)
    by (destruct (successor _); cbn in Hu; congruence).
  apply bind_Ok_inv in Hr as (vs & Hvs%scan_values_view & Hr%result_mapM_inv).
  rewrite (scan_index from u) in Hvs by done. rewrite map_map in Hvs. cbn [snd] in Hvs.
  assert (Hvs' : vs = map pointer_bytes (seqN from (read_window (next_of s ty p) from limit))).
  { rewrite Hvs. unfold read_window. case_if; [done|]. rewrite firstn_map, seqN_take. f_equal. f_equal. lia. }
  rewrite Hvs' in Hr. apply Forall2_fmap_l in Hr.
  apply Forall2_same_length_lookup in Hr as [Hlen Hr]. apply Forall2_same_length_lookup. split; [done|].
  intros i q e Hq He. specialize (Hr i q e Hq He). apply resolve_pointer; [|exact Hr].
  apply list_elem_of_lookup_2, elem_of_seqN in Hq. unfold read_window in Hq. case_match; lia.
Qed.

Lemma read_events_healthy `{!TreeHealthy} from limit :
  (from <= u64_max)%N -> exists l, read_aggregate_partition_events shard_id t ty p from limit = Ok l.
Proof.
  intros Hfrom. unfold read_aggregate_partition_events.
  destruct (successor (sm_aggregate_partition_index_prefix shard_id ty p)) as [u|] eqn:Hu.
  2: { exfalso. exact (partition_prefix_successor SM_AGGREGATE_PARTITION_INDEX Hu). }
  cbn [ok_or]. rewrite bind_Ok.
  destruct (scan_values_healthy t (sm_aggregate_partition_index shard_id ty p from) u limit) as [vs Hvs].
  rewrite Hvs, bind_Ok. apply scan_values_view in Hvs.
  rewrite (scan_index from u) in Hvs by done. rewrite map_map in Hvs. cbn [snd] in Hvs.
  eexists. apply result_mapM_Ok_map with
    (g := fun b => default (mkEvent ty p "" 0 0 "" [] [] (mkHlc 0 0) 0)
       (iv ← match decode b with Ok iv => Some iv | Err _ => None end;
        s_events s !! (ty, p, (iv : string * N).1, iv.2))).
  intros b Hb.
  assert (Hq : exists q, (q < next_of s ty p)%N /\ b = pointer_bytes q).
  { assert (Hb' : b ∈ map pointer_bytes (seqN from (N.to_nat (next_of s ty p - from)))).
    { rewrite Hvs in Hb. case_match; [done|]. by apply elem_of_take in Hb as (i & Hb & _); eapply list_elem_of_lookup_2. }
    apply list_elem_of_fmap in Hb' as (q & -> & Hq%elem_of_seqN). exists q. split; [lia|done]. }
  destruct Hq as (q & Hq & ->). destruct (index_stored q Hq) as (x & Hx & He & _).
  rewrite (decode_encode_strict _ _ He). cbn [map_err mbind result_bind option_bind].
  destruct (event_at_index q x Hx) as (e & Hat & _ & _ & _ & Hst).
  unfold event_at_position in Hat. rewrite Hx in Hat. cbn [mbind option_bind] in Hat. rewrite Hat.
  unfold read_aggregate_event. by rewrite (read_value_healthy t _ _ _ Hst).
Qed.

(** ** Lemmas: state documents *)

Definition page_start (after : option string) : Bytes :=
  match after with
  | Some id => upper_including (sm_aggregate_state shard_id ty p id)
  | None => sm_aggregate_state_prefix shard_id ty p
  end.

Lemma upper_including_lt k x : bytes_le (upper_including k) x <-> bytes_lt k x.
Proof.
  pose proof (upper_including_least k x) as Hl. rewrite bytes_lt_nle in Hl. rewrite (bytes_lt_nle k x).
  destruct (decide (bytes_le (upper_including k) x)); tauto.
Qed.

Lemma state_key_lt id id' :
  bytes_lt (sm_aggregate_state shard_id ty p id) (sm_aggregate_state shard_id ty p id') <->
  bytes_lt (as_bytes id) (as_bytes id').
Proof. rewrite !bytes_lt_cmp. unfold sm_aggregate_state. by rewrite bytes_cmp_app. Qed.

Lemma page_start_prefix after : sm_aggregate_state_prefix shard_id ty p `prefix_of` page_start after.
Proof.
  destruct after as [id|]; [|done]. exists (as_bytes id ++ [x00]). cbn [page_start].
  unfold upper_including, sm_aggregate_state. by rewrite <- app_assoc.
Qed.

Lemma page_range_key after u k :
  successor (sm_aggregate_state_prefix shard_id ty p) = Some u -> key_wf k ->
  bytes_le (page_start after) (key_bytes k) /\ bytes_lt (key_bytes k) u <->
  exists id, k = KState shard_id ty p id /\ after_cursor after id.
Proof.
  intros Hu Hk. pose proof (successor_range (sm_aggregate_state_prefix shard_id ty p) (key_bytes k)) as Hr.
  rewrite Hu in Hr. rewrite state_prefix_key in Hr by done. split.
  - intros [Hle Hlt]. destruct (proj1 Hr) as [id ->].
    { split; [|done]. etrans; [|exact Hle]. eapply prefix_in_range; [exact Hu|]. apply page_start_prefix. }
    exists id. split; [done|]. destruct after as [a|]; [|done]. cbn [page_start key_bytes] in Hle.
    apply upper_including_lt in Hle. by apply state_key_lt in Hle.
  - intros (id & -> & Hid). destruct (proj2 Hr) as [Hle Hlt]; [by exists id|]. split; [|done].
    destruct after as [a|]; [|done]. apply upper_including_lt. by apply state_key_lt.
Qed.

Lemma state_id_ok id st : s_states s !! (ty, p, id) = Some st ->
  identifier_ok id /\ exists h, s_modified s !! (ty, p, id) = Some h.
Proof.
  intros Hst. destruct (sw_states _ Hwf _ (mk_is_Some _ _ Hst)) as [[cur Hcur] [h Hh]].
  split; [|by exists h]. by apply (sw_ids _ Hwf) in Hcur as (_ & ? & _).
Qed.

(** Every entry of a page is the stored document of one instance. *)
Lemma page_entry after u k b :
  successor (sm_aggregate_state_prefix shard_id ty p) = Some u ->
  (k, b) ∈ range_entries v (page_start after) u ->
  exists id st h, k = sm_aggregate_state shard_id ty p id /\ after_cursor after id /\ identifier_ok id /\
    s_states s !! (ty, p, id) = Some st /\ s_modified s !! (ty, p, id) = Some h /\ decode b = Ok st /\
    stored v (KModified shard_id ty p id) (Some h).
Proof.
  intros Hu (Hv & Hr)%elem_of_range_entries.
  destruct (rep_keys _ _ _ _ Hrep k) as (lk & Hk & ->); [eauto|].
  apply (page_range_key after u) in Hr as (id & -> & Hid); [|done|done].
  pose proof (stored_at (KState shard_id ty p id) (proj2 Hk) eq_refl) as Hst. cbn [rep_at] in Hst.
  destruct (stored_decode _ _ _ _ Hst Hv) as (st & Hs & Hd).
  destruct (state_id_ok id st Hs) as [Hok [h Hh]]. exists id, st, h. split_ands; try done.
  pose proof (stored_at (KModified shard_id ty p id) (proj2 Hk) eq_refl) as Hm. cbn [rep_at] in Hm.
  by rewrite Hh in Hm.
Qed.

Lemma document_in_page after u id d :
  successor (sm_aggregate_state_prefix shard_id ty p) = Some u ->
  document_of s ty p id = Some d -> after_cursor after id ->
  exists b, (sm_aggregate_state shard_id ty p id, b) ∈ range_entries v (page_start after) u.
Proof.
  intros Hu Hd Hid. unfold document_of in Hd. apply bind_Some in Hd as (st & Hst & _).
  destruct (state_id_ok id st Hst) as [Hok%identifier_name_wf _].
  pose proof (stored_at (KState shard_id ty p id) (conj Hp Hok) eq_refl) as Hs. cbn [rep_at] in Hs.
  rewrite Hst in Hs. destruct Hs as (b & _ & Hv). exists b. apply elem_of_range_entries. split; [exact Hv|].
  apply (page_range_key after u (KState shard_id ty p id)); [done|by split|eauto].
Qed.

(** The document built from an entry of a page, as the loop of the code does. *)
Definition page_document (x : txn) (kv : Bytes * Bytes) : Result (string * AggregateStateDocument) :=
  id ← ok_or (Serde ("聚合状态 key 损坏: " +:+ debug_bytes kv.1)) (decode_aggregate_state_key kv.1);
  st ← map_err (fun e => Serde ("AggregateState 反序列化失败: " +:+ e)) (@decode AggregateState _ kv.2);
  m ← map_err (fun e => Storage ("读取状态修改时间失败: " +:+ e)) (txn_get x (sm_aggregate_state_modified shard_id ty p id));
  hlc ← match m with
        | None => Ok (mkHlc 0 0)
        | Some bytes => map_err (fun e => Serde ("状态修改时间反序列化失败: " +:+ e)) (decode bytes)
        end;
  Ok (id, mkDocument (st_revision st) (st_data st) hlc).

Lemma page_document_spec x after u kv r :
  tree_begin t = Ok x -> successor (sm_aggregate_state_prefix shard_id ty p) = Some u ->
  kv ∈ range_entries v (page_start after) u -> page_document x kv = Ok r ->
  kv.1 = sm_aggregate_state shard_id ty p r.1 /\ after_cursor after r.1 /\ identifier_ok r.1 /\
  document_of s ty p r.1 = Some r.2.
Proof.
  intros Hx Hu Hin. destruct kv as [k b].
  destruct (page_entry after u k b Hu Hin) as (id & st & h & -> & Hid & Hok & Hst & Hh & Hd & Hm).
  unfold page_document. cbn [fst snd]. rewrite decode_state_key by (done || apply Hp).
  cbn [ok_or]. rewrite bind_Ok, Hd. cbn [map_err]. rewrite bind_Ok.
  intros (m & Hg%map_err_Ok & Hr)%bind_Ok_inv. apply (txn_get_law _ _ _ _ Hx) in Hg.
  destruct Hm as (bh & Hbh & Hvh). cbn [key_bytes] in Hvh. rewrite Hvh in Hg. subst m.
  rewrite (decode_encode_strict _ _ Hbh) in Hr. injection Hr as <-. cbn [fst snd].
  split_ands; try done. unfold document_of. rewrite Hst. cbn. by rewrite Hh.
Qed.

Lemma page_document_healthy `{!TreeHealthy} x after u kv :
  tree_begin t = Ok x -> successor (sm_aggregate_state_prefix shard_id ty p) = Some u ->
  kv ∈ range_entries v (page_start after) u -> exists r, page_document x kv = Ok r.
Proof.
  intros Hx Hu Hin. destruct kv as [k b].
  destruct (page_entry after u k b Hu Hin) as (id & st & h & -> & Hid & Hok & Hst & Hh & Hd & Hm).
  unfold page_document. cbn [fst snd]. rewrite decode_state_key by (done || apply Hp).
  cbn [ok_or]. rewrite bind_Ok, Hd. cbn [map_err]. rewrite bind_Ok.
  destruct (txn_get_ok x (sm_aggregate_state_modified shard_id ty p id)) as [m Hg]. rewrite Hg.
  apply (txn_get_law _ _ _ _ Hx) in Hg. destruct Hm as (bh & Hbh & Hvh). cbn [key_bytes] in Hvh.
  rewrite Hvh in Hg. subst m. cbn [map_err]. rewrite bind_Ok, (decode_encode_strict _ _ Hbh). cbn. eauto.
Qed.

Definition id_lt (x y : string * AggregateStateDocument) : Prop := bytes_lt (as_bytes x.1) (as_bytes y.1).

Definition page_take {A} (limit : N) (l : list A) : list A :=
  if (limit =? 0)%N then l else take (N.to_nat limit) l.

Lemma list_states_entries after limit l :
  list_aggregate_partition_states shard_id t ty p after limit = Ok l ->
  exists x u, tree_begin t = Ok x /\ successor (sm_aggregate_state_prefix shard_id ty p) = Some u /\
    Forall2 (fun kv r => kv ∈ range_entries v (page_start after) u /\
               kv.1 = sm_aggregate_state shard_id ty p r.1 /\ after_cursor after r.1 /\
               document_of s ty p r.1 = Some r.2)
      (page_take limit (range_entries v (page_start after) u)) l.
Proof.
  intros (u & Hu & Hr)%bind_Ok_inv.
  assert (Hsucc : successor (sm_aggregate_state_prefix shard_id ty p) = Some u)
    by (destruct (successor _); cbn in Hu; congruence).
  apply bind_Ok_inv in Hr as (x & Hx & Hr). apply bind_Ok_inv in Hr as (es & Hes%map_err_Ok & Hr).
  storage_facts. exists x, u. split_ands; [done|done|].
  apply (txn_scan_law _ _ (page_start after) u _ Hx) in Hes as ->;
    [|eapply prefix_in_range; [exact Hsucc|apply page_start_prefix]].
  apply result_mapM_inv in Hr. unfold page_take.
  apply Forall2_same_length_lookup in Hr as [Hlen Hr]. apply Forall2_same_length_lookup. split; [exact Hlen|].
  intros i kv r Hkv Hri. specialize (Hr i kv r Hkv Hri).
  assert (Hin : kv ∈ range_entries v (page_start after) u).
  { apply list_elem_of_lookup_2 in Hkv. case_match; [done|]. apply elem_of_take in Hkv as (j & Hj & _).
    by eapply list_elem_of_lookup_2. }
  destruct (page_document_spec x after u kv r Hx Hsucc Hin Hr) as (? & ? & _ & ?). by split_ands.
Qed.

Lemma page_take_lookup {A} limit (l : list A) i x : page_take limit l !! i = Some x -> l !! i = Some x.
Proof. unfold page_take. case_match; [done|]. by intros [? _]%lookup_take_Some. Qed.

Lemma page_sorted after limit u l :
  Forall2 (fun kv r => kv ∈ range_entries v (page_start after) u /\
             kv.1 = sm_aggregate_state shard_id ty p r.1 /\ after_cursor after r.1 /\
             document_of s ty p r.1 = Some r.2)
    (page_take limit (range_entries v (page_start after) u)) l ->
  StronglySorted id_lt l.
Proof.
  intros [Hlen Hl]%Forall2_same_length_lookup. apply StronglySorted_of_lookup. intros i j x y Hi Hj Hlt.
  destruct (lookup_lt_is_Some_2 (page_take limit (range_entries v (page_start after) u)) i) as [kx Hkx].
  { rewrite Hlen. by eapply lookup_lt_Some. }
  destruct (lookup_lt_is_Some_2 (page_take limit (range_entries v (page_start after) u)) j) as [ky Hky].
  { rewrite Hlen. by eapply lookup_lt_Some. }
  destruct (Hl i kx x Hkx Hi) as (_ & Ex & _). destruct (Hl j ky y Hky Hj) as (_ & Ey & _).
  apply page_take_lookup in Hkx, Hky.
  pose proof (StronglySorted_lookup _ _ i j _ _ (range_entries_strict v (page_start after) u) Hkx Hky Hlt) as Hk.
  cbn in Hk. rewrite Ex, Ey in Hk. by apply state_key_lt in Hk.
Qed.

(** ** Properties *)

(** Reading a partition returns its history without gaps: an answer holds
    exactly the events of the positions from [from] up to the head of the
    partition or the limit, whichever comes first, in order, each the stored
    event of its position; on a healthy store there is always an answer. *)
Theorem partition_reads_contiguous (from limit : N) (Hfrom : (from <= u64_max)%N) :
  (forall l, read_aggregate_partition_events shard_id t ty p from limit = Ok l ->
     length l = read_window (next_of s ty p) from limit /\
     forall i e, l !! i = Some e ->
       ev_partition_position e = (from + N.of_nat i)%N /\
       event_at_position s ty p (from + N.of_nat i) = Some e) /\
  (TreeHealthy -> exists l, read_aggregate_partition_events shard_id t ty p from limit = Ok l).
Proof.
  split; [|intros; by apply read_events_healthy].
  intros l Hl. apply read_events_window in Hl; [|done].
  pose proof (Forall2_length _ _ _ Hl) as Hlen. unfold seqN in Hlen at 1. rewrite length_map, length_seq in Hlen.
  split; [done|]. intros i e He.
  apply Forall2_same_length_lookup in Hl as [_ Hl].
  assert (Hq : seqN from (read_window (next_of s ty p) from limit) !! i = Some (from + N.of_nat i)%N).
  { apply seqN_lookup. split; [done|]. rewrite Hlen. by eapply lookup_lt_Some. }
  destruct (Hl i _ e Hq He). done.
Qed.

(** State documents are listed page by page without loss: a page holds
    documents of instances after the cursor, each with its current content, in
    strictly ascending id order; and an instance after the cursor that is not
    on the page comes after every instance of it, the page then being full. So
    continuing from the last id of a page misses nothing and repeats nothing. *)
Lemma state_page_spec (after : option string) (limit : N)
  (l : list (string * AggregateStateDocument))
  (Hl : list_aggregate_partition_states shard_id t ty p after limit = Ok l) :
  StronglySorted id_lt l /\
  (forall id d, (id, d) ∈ l -> after_cursor after id /\ document_of s ty p id = Some d) /\
  (forall id d, document_of s ty p id = Some d -> after_cursor after id ->
     (id, d) ∈ l \/
     limit <> 0%N /\ length l = N.to_nat limit /\ Forall (fun x => id_lt x (id, d)) l).
Proof.
  apply list_states_entries in Hl as (x & u & Hx & Hu & Hl). pose proof (page_sorted _ _ _ _ Hl) as Hs.
  pose proof Hl as [Hlen Hlk]%Forall2_same_length_lookup. split_ands; [done| |].
  - intros id d [i Hi]%list_elem_of_lookup.
    destruct (lookup_lt_is_Some_2 (page_take limit (range_entries v (page_start after) u)) i) as [kv Hkv].
    { rewrite Hlen. by eapply lookup_lt_Some. }
    destruct (Hlk i kv _ Hkv Hi) as (_ & _ & ? & ?). done.
  - intros id d Hd Hid. destruct (document_in_page after u id d Hu Hd Hid) as [b Hb].
    apply list_elem_of_lookup in Hb as [i Hi].
    destruct (page_take limit (range_entries v (page_start after) u) !! i) as [kv|] eqn:Hkv.
    + left. destruct (lookup_lt_is_Some_2 l i) as [[id' d'] Hr]; [rewrite <- Hlen; by eapply lookup_lt_Some|].
      destruct (Hlk i kv _ Hkv Hr) as (_ & Hk & _ & Hd'). apply page_take_lookup in Hkv.
      rewrite Hi in Hkv. injection Hkv as <-. cbn [fst snd] in Hk, Hd'.
      assert (id' = id) as ->. { unfold sm_aggregate_state in Hk. apply app_inv_head in Hk. by apply as_bytes_inj. }
      rewrite Hd in Hd'. injection Hd' as <-. by eapply list_elem_of_lookup_2.
    + right. unfold page_take in Hkv, Hlen, Hlk. destruct (limit =? 0)%N eqn:E; [congruence|]. bool_facts.
      apply lookup_take_None in Hkv as [Hkv|Hkv]; [congruence|].
      apply lookup_lt_Some in Hi as Hi'. rewrite length_take_le in Hlen by lia.
      split_ands; [done|done|]. apply List.Forall_forall. intros [id' d'] Hr%list_elem_of_In.
      apply list_elem_of_lookup in Hr as [j Hj]. apply lookup_lt_Some in Hj as Hj'.
      destruct (lookup_lt_is_Some_2 (range_entries v (page_start after) u) j) as [kv Hj2]; [lia|].
      assert (Htk : take (N.to_nat limit) (range_entries v (page_start after) u) !! j = Some kv)
        by (rewrite lookup_take_lt by lia; done).
      destruct (Hlk j kv _ Htk Hj) as (_ & Hk & _).
      pose proof (StronglySorted_lookup _ _ j i _ _ (range_entries_strict v (page_start after) u) Hj2 Hi ltac:(lia)) as Hlt.
      cbn in Hlt. rewrite Hk in Hlt. by apply state_key_lt in Hlt.
Qed.

End Reads.

(** ** Witnesses *)

(** Two events of one instance and its document. *)
Definition demo_document_log : list (Entry N) :=
  demo_log ++ [mkEntry (mkLogId 1 1 4)
    (Normal (PutAggregateState demo_type 3 1 "order-1" Absent [x05] (mkHlc 11 0)))].

Lemma demo_document_log_wf : Forall entry_wf demo_document_log.
Proof. unfold demo_document_log, demo_log. repeat constructor; cbn; lia. Qed.

Definition demo_document_apply : result StorageError (@Applied N mem_tree) :=
  @sm_apply N mem_tree demo_xxh3 demo_codecs 1 (∅ : gmap Bytes Bytes) demo_cache demo_document_log.

Definition demo_tree : gmap Bytes Bytes :=
  match demo_document_apply with Ok out => ap_tree out | Err _ => ∅ end.

Definition demo_document_shard : shard := (@shard_run demo_xxh3 N shard_empty demo_document_log).1.

Lemma demo_document_apply_ok : exists out, demo_document_apply = Ok out.
Proof.
  assert (Hok : is_ok demo_document_apply = true) by (vm_compute; reflexivity).
  destruct demo_document_apply as [out|]; [by exists out|discriminate].
Qed.

Lemma demo_tree_rep : exists ap, ShardRep (M := N) (H := demo_codecs) 1 demo_tree demo_document_shard ap.
Proof.
  destruct demo_document_apply_ok as [out Hout].
  assert (demo_tree = ap_tree out) as -> by (unfold demo_tree; by rewrite Hout).
  eexists. refine (proj1 (@sm_apply_refines N demo_codecs demo_codec_laws mem_tree mem_tree_laws demo_xxh3 1
    ltac:(lia) (∅ : gmap Bytes Bytes) demo_cache shard_empty None demo_document_log out
    (ShardRep_empty 1) shard_empty_wf demo_document_log_wf _ Hout)).
  apply (bool_decide_unpack _). vm_compute. exact I.
Qed.

Lemma demo_document_shard_wf : shard_wf demo_document_shard.
Proof. apply shard_run_ok; [apply demo_document_log_wf | apply shard_empty_wf]. Qed.

Lemma demo_read_partition_wf : partition_key_wf demo_type 3.
Proof. split; [apply demo_type_ok|lia]. Qed.

Lemma partition_reads_contiguous_witness :
  exists l, @read_aggregate_partition_events N mem_tree demo_codecs 1 demo_tree demo_type 3 1 0 = Ok l.
Proof.
  destruct demo_tree_rep as [ap Hrep].
  exact (proj2 (@partition_reads_contiguous N demo_codecs demo_codec_laws mem_tree mem_tree_laws 1
    ltac:(lia) demo_tree demo_document_shard ap Hrep demo_document_shard_wf demo_type 3 demo_read_partition_wf
    1 0 ltac:(lia)) mem_tree_healthy).
Defined.
