(* ===== verification/History.v ===== *)
(** * Histories of a shard: what clients are promised

    A history is a sequence of successful [apply] batches of one shard with
    restarts anywhere in between, a restart losing the cache and restoring it
    from the store. [history_refines] carries the refinement of [Apply.v] to
    whole histories; the properties then speak of the responses a client saw
    and of what the read operations of [state_machine.rs] return. *)

From S2P Require Import Prelude.
From S2P Require Import Bytes.
From S2P Require Import Core.
From S2P Require Import Aggregate.
From S2P Require Import Catalog.
From S2P Require Import GroupCatalog.
From S2P Require Import GroupPartition.
From S2P Require Import Keys.
From S2P Require Import Store.
From S2P Require Import RaftType.
From S2P Require Import LogStore.
From S2P Require Import StateMachine.
From S2P Require Import ShardSpec.
From S2P Require Import Codecs.
From S2P Require Import Apply.
From S2P Require Import Reads.

Section History.
Context {M : Type} `{SmCodecs M} `{Tree} `{Xxh3}.
Context (shard_id : N).

(** [sm_history t c log rs t' c']: from the tree [t] and the cache [c], applying
    [log] in batches, with restarts, gave the responses [rs] and led to [t'] and
    [c']. *)
Inductive sm_history : tree -> SmCache (M := M) -> list (Entry M) -> list EsResponse ->
    tree -> SmCache (M := M) -> Prop :=
| HistEnd t c : sm_history t c [] [] t c
| HistApply t c entries out log rs t' c' :
    sm_apply shard_id t c entries = Ok out ->
    sm_history (ap_tree out) (ap_cache out) log rs t' c' ->
    sm_history t c (entries ++ log) (ap_responses out ++ rs) t' c'
| HistRestart t c c0 t1 c1 log rs t' c' :
    restore_applied_state shard_id t c0 = Ok (t1, c1) ->
    sm_history t1 c1 log rs t' c' ->
    sm_history t c log rs t' c'.

End History.

(** ** Lemmas: runs of the specification *)

Section Runs.
Context {M : Type} `{Xxh3}.

Lemma shard_run_app s (l1 l2 : list (Entry M)) :
  shard_run s (l1 ++ l2) =
  ((shard_run (shard_run s l1).1 l2).1, (shard_run s l1).2 ++ (shard_run (shard_run s l1).1 l2).2).
Proof.
  revert s. induction l1 as [|e l1 IH]; intros s; [cbn; by destruct (shard_run s l2)|].
  cbn [app shard_run]. destruct (shard_entry s e) as [s1 r]. rewrite IH.
  by destruct (shard_run s1 l1) as [s2 rs].
Qed.

Lemma shard_run_length s (l : list (Entry M)) : length (shard_run s l).2 = length l.
Proof.
  revert s. induction l as [|e l IH]; intros s; [done|].
  cbn [shard_run length]. destruct (shard_entry s e) as [s1 r]. specialize (IH s1).
  destruct (shard_run s1 l) as [s2 rs]. cbn in *. by rewrite IH.
Qed.

(** The response to the entry after [pre]. *)
Lemma shard_run_response s (pre post : list (Entry M)) e :
  (shard_run s (pre ++ e :: post)).2 !! length pre = Some (shard_entry (shard_run s pre).1 e).2.
Proof.
  rewrite shard_run_app. cbn [snd]. rewrite lookup_app_r by (by rewrite shard_run_length).
  rewrite shard_run_length, Nat.sub_diag. cbn [shard_run].
  destruct (shard_entry (shard_run s pre).1 e) as [s1 r]. by destruct (shard_run s1 post).
Qed.

Lemma shard_run_one s (e : Entry M) : shard_run s [e] = ((shard_entry s e).1, [(shard_entry s e).2]).
Proof. cbn. by destruct (shard_entry s e). Qed.

Lemma group_revision_run s (l : list (Entry M)) :
  (group_revision (shard_run s l).1 <= group_revision s + len l)%N.
Proof.
  revert s. induction l as [|e l IH]; intros s; [cbn; lia|].
  rewrite shard_run_cons, len_cons. specialize (IH (shard_entry s e).1).
  pose proof (group_revision_entry s e). lia.
Qed.

(** Two readings of one partition from the same position: the later one extends
    the earlier one. *)
Lemma event_at_position_grows s s' ty p q e :
  shard_grows s s' -> event_at_position s ty p q = Some e -> event_at_position s' ty p q = Some e.
Proof.
  intros Hg. unfold event_at_position. destruct (s_index s !! (ty, p, q)) as [x|] eqn:Hx; [|done].
  rewrite (lookup_weaken _ _ _ _ Hx (sg_index _ _ Hg)). cbn. intros He.
  exact (lookup_weaken _ _ _ _ He (sg_events _ _ Hg)).
Qed.

Lemma windows_prefix s s' ty p from l l' :
  shard_grows s s' ->
  Forall2 (fun q e => event_at_position s ty p q = Some e /\ ev_partition_position e = q)
    (seqN from (read_window (next_of s ty p) from 0)) l ->
  Forall2 (fun q e => event_at_position s' ty p q = Some e /\ ev_partition_position e = q)
    (seqN from (read_window (next_of s' ty p) from 0)) l' ->
  l `prefix_of` l'.
Proof.
  intros Hg [Hlen Hl]%Forall2_same_length_lookup [Hlen' Hl']%Forall2_same_length_lookup.
  pose proof (sg_next _ _ Hg ty p) as Hn. unfold read_window in *. cbn [N.eqb] in *.
  unfold seqN in Hlen at 1, Hlen' at 1. rewrite length_map, length_seq in Hlen, Hlen'.
  assert (Heq : l = take (length l) l'); [|rewrite Heq; apply prefix_take].
  apply list_eq_same_length with (n := length l); [rewrite length_take; lia|done|].
  intros i e e' Hi He He'. rewrite lookup_take_lt in He' by done.
  assert (Hq : forall n, (i < n)%nat -> seqN from n !! i = Some (from + N.of_nat i)%N)
    by (intros; by apply seqN_lookup).
  destruct (Hl i (from + N.of_nat i)%N e) as [Ha _]; [apply Hq; lia|done|].
  destruct (Hl' i (from + N.of_nat i)%N e') as [Ha' _]; [apply Hq; lia|done|].
  apply (event_at_position_grows s s') in Ha; [|done]. congruence.
Qed.

End Runs.

(** ** Lemmas: reads of a represented tree *)

Section ReadRep.
Context {M : Type} `{SmCodecLaws M} `{TreeLaws}.
Context (shard_id : N) (Hshard : (shard_id <= u64_max)%N).
Context (t : tree) (s : shard) (ap : option (AppliedState M)).
Context (Hrep : ShardRep (M := M) shard_id (tree_view t) s ap).

Lemma read_event_rep ty p id v o :
  partition_key_wf ty p -> name_wf id -> (v <= u64_max)%N ->
  read_aggregate_event shard_id t ty p id v = Ok o -> o = s_events s !! (ty, p, id, v).
Proof.
  intros Hp Hn Hv. apply (read_value_stored t (KEvent shard_id ty p id v)).
  by apply (stored_at shard_id Hshard t s ap Hrep (KEvent shard_id ty p id v)).
Qed.

Lemma read_meta_rep ty p id o :
  partition_key_wf ty p -> name_wf id ->
  read_aggregate_meta shard_id t ty p id = Ok o -> o = mkMeta <$> s_versions s !! (ty, p, id).
Proof.
  intros Hp Hn. apply (read_value_stored t (KMeta shard_id ty p id)).
  by apply (stored_at shard_id Hshard t s ap Hrep (KMeta shard_id ty p id)).
Qed.

Lemma read_head_rep ty p n :
  partition_key_wf ty p ->
  read_aggregate_partition_head shard_id t ty p = Ok n -> n = next_of s ty p.
Proof.
  intros Hp (o & Ho & [= <-])%bind_Ok_inv. unfold next_of. f_equal. revert Ho.
  apply (read_value_stored t (KNext shard_id ty p)).
  by apply (stored_at shard_id Hshard t s ap Hrep (KNext shard_id ty p)).
Qed.

Lemma read_state_rep ty p id o :
  partition_key_wf ty p -> name_wf id ->
  read_aggregate_state shard_id t ty p id = Ok o -> o = s_states s !! (ty, p, id).
Proof.
  intros Hp Hn. apply (read_value_stored t (KState shard_id ty p id)).
  by apply (stored_at shard_id Hshard t s ap Hrep (KState shard_id ty p id)).
Qed.

Lemma read_document_rep ty p id o :
  partition_key_wf ty p -> name_wf id ->
  read_aggregate_state_document shard_id t ty p id = Ok o -> o = document_of s ty p id.
Proof.
  intros Hp Hn. unfold read_aggregate_state_document, document_of.
  intros (x & Hx & Hr)%bind_Ok_inv. apply map_err_Ok in Hx.
  apply bind_Ok_inv in Hr as (b & Hb%map_err_Ok & Hr). apply (txn_get_law _ _ _ _ Hx) in Hb.
  pose proof (stored_at shard_id Hshard t s ap Hrep (KState shard_id ty p id) (conj Hp Hn) eq_refl) as Hst.
  pose proof (stored_at shard_id Hshard t s ap Hrep (KModified shard_id ty p id) (conj Hp Hn) eq_refl) as Hmod.
  cbn [rep_at] in Hst, Hmod. destruct b as [bytes|].
  - destruct (stored_decode _ _ _ _ Hst (eq_sym Hb)) as (st & -> & Hd). rewrite Hd in Hr.
    apply bind_Ok_inv in Hr as (st' & [= <-] & Hr). apply bind_Ok_inv in Hr as (m & Hm%map_err_Ok & Hr).
    apply (txn_get_law _ _ _ _ Hx) in Hm. apply bind_Ok_inv in Hr as (h & Hh & [= <-]). cbn. do 3 f_equal.
    destruct m as [bm|].
    + destruct (stored_decode _ _ _ _ Hmod (eq_sym Hm)) as (h' & -> & Hdh). rewrite Hdh in Hh. by injection Hh as <-.
    + injection Hh as <-. by rewrite (stored_None _ _ _ Hmod (eq_sym Hm)).
  - injection Hr as <-. by rewrite (stored_None _ _ _ Hst (eq_sym Hb)).
Qed.

Lemma read_catalog_rep c :
  read_aggregate_catalog shard_id t = Ok c -> c = default catalog_default (s_catalog s).
Proof.
  intros (o & Ho & [= <-])%bind_Ok_inv. f_equal. revert Ho.
  apply (read_value_stored t (KCatalog shard_id)).
  by apply (stored_at shard_id Hshard t s ap Hrep (KCatalog shard_id)).
Qed.

Lemma read_group_catalog_rep c :
  read_aggregate_group_catalog shard_id t = Ok c -> c = default group_catalog_default (s_group_catalog s).
Proof.
  intros (o & Ho & [= <-])%bind_Ok_inv. f_equal. revert Ho.
  apply (read_value_stored t (KGroupCatalog shard_id)).
  by apply (stored_at shard_id Hshard t s ap Hrep (KGroupCatalog shard_id)).
Qed.

Lemma read_group_partition_rep ty p name o :
  partition_key_wf ty p -> name_wf name ->
  read_aggregate_group_partition shard_id t ty p name = Ok o -> o = s_groups s !! (ty, p, name).
Proof.
  intros Hp Hn. apply (read_value_stored t (KGroup shard_id ty p name)).
  by apply (stored_at shard_id Hshard t s ap Hrep (KGroup shard_id ty p name)).
Qed.

End ReadRep.

(** ** Properties *)

Section Properties.
Context {M : Type} `{SmCodecLaws M} `{TreeLaws} `{Xxh3}.
Context (shard_id : N) (Hshard : (shard_id <= u64_max)%N).

(** A restart keeps the shard state, also when nothing was applied yet. *)
Lemma restore_keeps (t t' : tree) (cache cache' : SmCache) s (ap : option (AppliedState M)) :
  ShardRep shard_id (tree_view t) s ap ->
  restore_applied_state shard_id t cache = Ok (t', cache') ->
  ShardRep shard_id (tree_view t') s ap.
Proof.
  intros Hrep. unfold restore_applied_state. intros (o & _ & Hr)%bind_Ok_inv.
  apply bind_Ok_inv in Hr as (c & _ & Hr).
  apply bind_Ok_inv in Hr as (t1 & Ht1%cleanup_legacy_snapshot_view & [= <- _]).
  rewrite Ht1. by apply ShardRep_delete_snapshot.
Qed.

(** The state after a history is the specification's, and well-formed; the
    responses are the specification's, in order. *)
Lemma history_refines (t t' : tree) (c c' : SmCache) (log : list (Entry M)) rs (s0 : shard) ap :
  sm_history shard_id t c log rs t' c' ->
  ShardRep shard_id (tree_view t) s0 ap -> shard_wf s0 -> Forall entry_wf log ->
  (group_revision s0 + len log <= u64_max)%N ->
  (exists ap', ShardRep (M := M) shard_id (tree_view t') (shard_run s0 log).1 ap') /\
  shard_wf (shard_run s0 log).1 /\ shard_grows s0 (shard_run s0 log).1 /\ rs = (shard_run s0 log).2.
Proof.
  intros Hh. revert s0 ap.
  induction Hh as [t c|t c es out log rs t' c' Happ _ IH|t c c0 t1 c1 log rs t' c' Hres _ IH];
    intros s0 ap Hrep Hwf Hlog Hrev.
  - split_ands; [by eauto|done|done|done].
  - apply Forall_app in Hlog as [Hes Hlog]. rewrite len_app in Hrev.
    pose proof (group_revision_run s0 es) as Hr.
    destruct (sm_apply_refines shard_id Hshard t c s0 ap es out) as (Hrep1 & _ & Hresp & _); try done; [lia|].
    destruct (shard_run_ok s0 es Hes Hwf) as [Hwf1 Hg1].
    destruct (IH _ _ Hrep1 Hwf1 Hlog ltac:(lia)) as (Hrep' & Hwf' & Hg & ->).
    rewrite shard_run_app. cbn [fst snd]. split_ands; [done|done|by etrans|by rewrite Hresp].
  - eapply IH; eauto using restore_keeps.
Qed.

(** C4: from an empty store, whatever was applied and however often the node
    restarted, the store holds exactly the state that the specification reaches
    by taking the entries one by one, and this state is consistent: the versions
    of an instance run without gaps from 0, the positions of a partition without
    gaps from 0, index and events point at each other, an event id is recorded
    exactly for the one event that carries it, documents exist only for existing
    instances, and the two catalogs and all consumer-group partitions satisfy
    their own invariants. The clients saw the specification's responses. *)
Theorem history_consistent (t t' : tree) (c c' : SmCache) (log : list (Entry M)) (rs : list EsResponse)
  (Hempty : tree_view t = ∅) (Hlog : Forall entry_wf log) (Hlen : (len log <= u64_max)%N)
  (Hh : sm_history shard_id t c log rs t' c') :
  let s := (shard_run shard_empty log).1 in
  (exists ap, ShardRep (M := M) shard_id (tree_view t') s ap) /\ shard_wf s /\
  rs = (shard_run shard_empty log).2.
Proof.
  destruct (history_refines _ _ _ _ _ _ shard_empty None Hh) as (? & ? & _ & ?); try done.
  - rewrite Hempty. apply ShardRep_empty.
  - apply shard_empty_wf.
Qed.

(** C3: an append happens exactly once. If an append was answered with a version
    and a position, then the same event submitted again later in the history
    (under any generation and clock, in the same batch or another, with restarts
    in between) is answered with the same version and position, and the store
    never holds a second event of that event id in the partition. *)
Theorem append_exactly_once (t t' : tree) (c c' : SmCache) (s0 : shard) (ap : option (AppliedState M))
  (pre mid post : list (Entry M)) (lg lg' : LogId) (rs : list EsResponse) (ty : AggregateTypeId)
  (p g g' : N) (id : string) (expected : ExpectedAggregateVersion) (event : NewAggregateEvent)
  (hlc hlc' : Hlc) (v q : N) :
  let first := mkEntry lg (Normal (AggregateAppend ty p g id expected event hlc)) in
  let again := mkEntry lg' (Normal (AggregateAppend ty p g' id expected event hlc')) in
  let log := pre ++ first :: mid ++ again :: post in
  forall (Hrep : ShardRep shard_id (tree_view t) s0 ap) (Hwf : shard_wf s0) (Hlog : Forall entry_wf log)
    (Hrev : (group_revision s0 + len log <= u64_max)%N)
    (Hh : sm_history shard_id t c log rs t' c')
    (Hfirst : rs !! length pre = Some (AggregateAppendOk v q)),
  rs !! (length pre + S (length mid)) = Some (AggregateAppendOk v q) /\
  forall id' v' e, name_wf id' -> (v' <= u64_max)%N ->
    read_aggregate_event shard_id t' ty p id' v' = Ok (Some e) ->
    ev_event_id e = ne_event_id event -> v' = v /\ ev_partition_position e = q.
Proof.
  intros first again log Hrep Hwf Hlog Hrev Hh Hfirst.
  destruct (history_refines _ _ _ _ _ _ _ _ Hh Hrep Hwf Hlog Hrev) as ([ap' Hrep'] & Hwf' & _ & Hrs).
  subst log. rewrite Hrs in Hfirst |- *. rewrite shard_run_response in Hfirst.
  apply Forall_app in Hlog as [Hpre Hlog]. apply Forall_cons in Hlog as [Hf Hlog].
  apply Forall_app in Hlog as [Hmid Hlog]. apply Forall_cons in Hlog as [Ha Hpost].
  destruct (shard_run_ok s0 pre Hpre Hwf) as [Hwf1 _]. set (s1 := (shard_run s0 pre).1) in *.
  destruct (shard_entry s1 first) as [s2 r] eqn:Hstep. cbn [snd] in Hfirst. injection Hfirst as ->.
  pose proof (step_append_accepted _ _ _ _ _ _ _ _ _ _ _ Hstep) as (Hty & Hid & Hne & Hidem).
  assert (Hwf2 : shard_wf s2).
  { eapply shard_change_wf; [|exact Hwf1]. pose proof (shard_entry_change s1 first Hf) as Hc. by rewrite Hstep in Hc. }
  assert (Hrun : forall l, (shard_run s0 (pre ++ first :: l)).1 = (shard_run s2 l).1).
  { intros l. rewrite shard_run_app. cbn [fst]. rewrite shard_run_cons. fold s1. by rewrite Hstep. }
  split.
  - replace (pre ++ first :: mid ++ again :: post) with ((pre ++ first :: mid) ++ again :: post) by
      (by rewrite <- app_assoc).
    replace (length pre + S (length mid)) with (length (pre ++ first :: mid)) by (rewrite length_app; done).
    rewrite shard_run_response, Hrun. cbn [shard_entry en_payload again shard_step].
    erewrite step_append_repeat; [done|done|done|done|]. eapply lookup_weaken; [exact Hidem|].
    by apply sg_idem, shard_run_ok.
  - intros id' v' e Hn Hv Hread Hev.
    assert (Hkey : partition_key_wf ty p) by (split; [done|]; apply Hf).
    apply (read_event_rep shard_id Hshard _ _ _ Hrep') in Hread; try done. symmetry in Hread.
    destruct (sw_events _ Hwf' _ _ _ _ _ Hread) as (_ & _ & r & Hr & Hres). rewrite Hev in Hr.
    assert (Hr' : s_idem (shard_run s0 (pre ++ first :: mid ++ again :: post)).1 !! (ty, p, ne_event_id event) =
              Some (mkIdem (aggregate_append_fingerprint ty id expected event) (mkAppendResult v q))).
    { rewrite Hrun. eapply lookup_weaken; [exact Hidem|]. apply sg_idem, shard_run_ok; [|done].
      apply Forall_app. split; [done|]. by constructor. }
    rewrite Hr in Hr'. injection Hr' as ->. cbn in Hres. by injection Hres as -> ->.
Qed.

(** One entry applied on its own. *)
Lemma apply_one (t : tree) (c : SmCache) (s : shard) ap lg req out :
  ShardRep (M := M) shard_id (tree_view t) s ap -> shard_wf s -> request_wf req ->
  (group_revision s < u64_max)%N -> sm_apply shard_id t c [mkEntry lg (Normal req)] = Ok out ->
  (exists ap', ShardRep (M := M) shard_id (tree_view (ap_tree out)) (shard_step s req).1 ap') /\
  shard_wf (shard_step s req).1 /\ ap_responses out = [(shard_step s req).2].
Proof.
  intros Hrep Hwf Hreq Hrev Happ. pose proof (shard_run_one s (mkEntry (M := M) lg (Normal req))) as Hone.
  change (shard_entry s (mkEntry (M := M) lg (Normal req))) with (shard_step s req) in Hone.
  assert (Hes : Forall entry_wf [mkEntry (M := M) lg (Normal req)]) by (constructor; [exact Hreq|constructor]).
  destruct (sm_apply_refines shard_id Hshard t c s ap [mkEntry (M := M) lg (Normal req)] out) as (Hr & _ & Hresp & _);
    try done; [change (len [mkEntry (M := M) lg (Normal req)]) with 1%N; lia|].
  destruct (shard_run_ok s [mkEntry (M := M) lg (Normal req)] Hes Hwf) as [Hwf' _].
  rewrite Hone in Hr, Hwf', Hresp. eauto.
Qed.

(** C25: history is append-only for every reader. Between two points of a history
    a stored event stays readable unchanged, the list of a partition's events
    only grows at its end, and current versions and partition heads never go
    back. *)
Theorem history_append_only (t t' : tree) (c c' : SmCache) (s0 : shard) (ap : option (AppliedState M))
  (log : list (Entry M)) (rs : list EsResponse) (ty : AggregateTypeId) (p : N)
  (Hp : partition_key_wf ty p) (Hrep : ShardRep shard_id (tree_view t) s0 ap) (Hwf : shard_wf s0)
  (Hlog : Forall entry_wf log) (Hrev : (group_revision s0 + len log <= u64_max)%N)
  (Hh : sm_history shard_id t c log rs t' c') :
  (forall id v e o, name_wf id -> (v <= u64_max)%N -> read_aggregate_event shard_id t ty p id v = Ok (Some e) ->
     read_aggregate_event shard_id t' ty p id v = Ok o -> o = Some e) /\
  (forall from l l', (from <= u64_max)%N -> read_aggregate_partition_events shard_id t ty p from 0 = Ok l ->
     read_aggregate_partition_events shard_id t' ty p from 0 = Ok l' -> l `prefix_of` l') /\
  (forall id m m', name_wf id -> read_aggregate_meta shard_id t ty p id = Ok (Some m) ->
     read_aggregate_meta shard_id t' ty p id = Ok m' ->
     exists m1, m' = Some m1 /\ (current_version m <= current_version m1)%N) /\
  (forall n n', read_aggregate_partition_head shard_id t ty p = Ok n ->
     read_aggregate_partition_head shard_id t' ty p = Ok n' -> (n <= n')%N).
Proof.
  destruct (history_refines _ _ _ _ _ _ _ _ Hh Hrep Hwf Hlog Hrev) as ([ap' Hrep'] & Hwf' & Hg & _).
  split_ands.
  - intros id v e o Hn Hv He Ho.
    apply (read_event_rep shard_id Hshard _ _ _ Hrep) in He; try done.
    apply (read_event_rep shard_id Hshard _ _ _ Hrep') in Ho; try done.
    subst o. eapply lookup_weaken; [symmetry; exact He|apply Hg].
  - intros from l l' Hfrom Hl Hl'.
    apply (read_events_window shard_id Hshard _ _ _ Hrep Hwf ty p Hp) in Hl; [|done].
    apply (read_events_window shard_id Hshard _ _ _ Hrep' Hwf' ty p Hp) in Hl'; [|done].
    eapply windows_prefix; [exact Hg|exact Hl|exact Hl'].
  - intros id m m' Hn Hm Hm'.
    apply (read_meta_rep shard_id Hshard _ _ _ Hrep) in Hm; try done.
    apply (read_meta_rep shard_id Hshard _ _ _ Hrep') in Hm'; try done.
    destruct (s_versions s0 !! (ty, p, id)) as [v|] eqn:Hv; [|done]. injection Hm as ->.
    destruct (sg_versions _ _ Hg _ _ Hv) as (v' & Hv' & Hle). subst m'. rewrite Hv'. by exists (mkMeta v').
  - intros n n' Hn Hn'.
    apply (read_head_rep shard_id Hshard _ _ _ Hrep) in Hn; try done.
    apply (read_head_rep shard_id Hshard _ _ _ Hrep') in Hn'; try done.
    subst. apply Hg.
Qed.

(** What one append does, as a reader sees it. Either it was answered with a
    position below the head, being a repeat, and nothing changed; or it took the
    head as its position and the next version of its instance, the expected
    version having held, the event is then readable as submitted, and the head
    and the version have moved by one; any answer that is not an acceptance
    leaves head and version as they were. *)
Theorem append_effect (t : tree) (c : SmCache) (s : shard) (ap : option (AppliedState M)) (lg : LogId)
  (ty : AggregateTypeId) (p g : N) (id : string) (expected : ExpectedAggregateVersion)
  (event : NewAggregateEvent) (hlc : Hlc) (out : Applied) (n n' : N) (m m' : option AggregateMeta)
  (Hp : partition_key_wf ty p) (Hn : name_wf id)
  (Hrep : ShardRep shard_id (tree_view t) s ap) (Hwf : shard_wf s) (Hrev : (group_revision s < u64_max)%N)
  (Hreq : request_wf (AggregateAppend ty p g id expected event hlc))
  (Happ : sm_apply shard_id t c [mkEntry lg (Normal (AggregateAppend ty p g id expected event hlc))] = Ok out)
  (Hhead : read_aggregate_partition_head shard_id t ty p = Ok n)
  (Hhead' : read_aggregate_partition_head shard_id (ap_tree out) ty p = Ok n')
  (Hmeta : read_aggregate_meta shard_id t ty p id = Ok m)
  (Hmeta' : read_aggregate_meta shard_id (ap_tree out) ty p id = Ok m') :
  exists r, ap_responses out = [r] /\
  ((n' = n /\ m' = m /\ forall v q, r = AggregateAppendOk v q -> (q < n)%N) \/
   exists v, r = AggregateAppendOk v n /\ n' = (n + 1)%N /\ m' = Some (mkMeta v) /\
     v = match m with None => 0%N | Some x => (current_version x + 1)%N end /\
     check_expected_aggregate_version expected (current_version <$> m) = true /\
     forall o, read_aggregate_event shard_id (ap_tree out) ty p id v = Ok o ->
       o = Some (mkEvent ty p id v (ne_event_id event) (ne_event_type event) (ne_data event)
                   (ne_metadata event) hlc n)).
Proof.
  destruct (apply_one _ _ _ _ _ _ _ Hrep Hwf Hreq Hrev Happ) as ([ap' Hrep'] & Hwf' & Hresp).
  apply (read_head_rep shard_id Hshard _ _ _ Hrep) in Hhead; [|done].
  apply (read_head_rep shard_id Hshard _ _ _ Hrep') in Hhead'; [|done].
  apply (read_meta_rep shard_id Hshard _ _ _ Hrep) in Hmeta; [|done|done].
  apply (read_meta_rep shard_id Hshard _ _ _ Hrep') in Hmeta'; [|done|done].
  exists (shard_step s (AggregateAppend ty p g id expected event hlc)).2. split; [done|].
  destruct (shard_step s (AggregateAppend ty p g id expected event hlc)) as [s' r] eqn:Hstep.
  cbn [fst snd shard_step] in *.
  pose proof Hstep as [->|(v & Hty & Hid & Hnone & Hf & Hc & Hv & Hq & Hs' & Hr)]%step_append_new.
  - left. subst. split_ands; try done. intros v q ->.
    apply step_append_accepted in Hstep as (_ & _ & _ & Hi).
    destruct (sw_idem _ Hwf _ _ _ _ Hi) as (id' & e & He & _ & Hpos). cbn in Hpos.
    destruct (sw_events _ Hwf _ _ _ _ _ He) as (_ & Hix & _). rewrite Hpos in Hix.
    apply (sw_positions _ Hwf). by eexists.
  - right. exists v. subst n r. destruct Hv as [Hv Hle].
    assert (Hm : current_version <$> m = s_versions s !! (ty, p, id)).
    { subst m. by destruct (s_versions s !! (ty, p, id)). }
    split_ands; try done.
    + rewrite Hhead', Hs'. unfold next_of at 1. cbn. by rewrite lookup_insert_eq.
    + rewrite Hmeta', Hs'. cbn. by rewrite lookup_insert_eq.
    + rewrite <- Hm in Hv. by destruct m.
    + by rewrite Hm.
    + intros o Ho. apply (read_event_rep shard_id Hshard _ _ _ Hrep') in Ho; [|done|done|done].
      rewrite Ho, Hs'. cbn. apply lookup_insert_eq.
Qed.

(** Writing a state document is a compare-and-swap on its revision. A write
    that was stored found the revision it expected, the document then reads back
    with the next revision (0 for the first) and the written bytes, and a second
    write that expected the same revision is refused with the revision that won
    and changes nothing a reader sees. *)
Theorem put_state_compare_and_swap (t : tree) (c c2 : SmCache) (s : shard) (ap : option (AppliedState M))
  (lg lg2 : LogId) (ty : AggregateTypeId) (p g : N) (id : string) (expected : ExpectedStateRevision)
  (data data2 : Bytes) (hlc hlc2 : Hlc) (out out2 : Applied) (d : AggregateStateDocument)
  (o : option AggregateState)
  (Hp : partition_key_wf ty p) (Hn : name_wf id)
  (Hrep : ShardRep shard_id (tree_view t) s ap) (Hwf : shard_wf s) (Hrev : (group_revision s < u64_max)%N)
  (Happ : sm_apply shard_id t c [mkEntry lg (Normal (PutAggregateState ty p g id expected data hlc))] = Ok out)
  (Hstored : ap_responses out = [AggregateStateStored d])
  (Hread : read_aggregate_state shard_id t ty p id = Ok o)
  (Happ2 : sm_apply shard_id (ap_tree out) c2
             [mkEntry lg2 (Normal (PutAggregateState ty p g id expected data2 hlc2))] = Ok out2) :
  state_matches expected o = true /\
  d = mkDocument (match o with None => 0 | Some st => st_revision st + 1 end)%N data hlc /\
  (forall o', read_aggregate_state shard_id (ap_tree out) ty p id = Ok o' ->
     o' = Some (mkState (doc_revision d) data)) /\
  ap_responses out2 = [AggregateStateConflict (Some (doc_revision d))] /\
  (forall o', read_aggregate_state shard_id (ap_tree out2) ty p id = Ok o' ->
     o' = Some (mkState (doc_revision d) data)).
Proof.
  assert (Hreq : forall b h, request_wf (PutAggregateState ty p g id expected b h)) by (intros; apply Hp).
  destruct (apply_one _ _ _ _ _ _ _ Hrep Hwf (Hreq data hlc) Hrev Happ) as ([ap1 Hrep1] & Hwf1 & Hresp).
  rewrite Hresp in Hstored.
  destruct (shard_step s (PutAggregateState ty p g id expected data hlc)) as [s1 r] eqn:Hstep.
  cbn [fst snd] in *. injection Hstored as ->.
  pose proof (put_state_step s s1 ty p g id expected data data2 hlc hlc2 d Hstep)
    as (_ & Hm & Hd & Hdr & Hst & Hev & Hgr & Hagain).
  destruct (apply_one _ _ _ _ _ _ _ Hrep1 Hwf1 (Hreq data2 hlc2) ltac:(unfold group_revision; by rewrite Hgr) Happ2)
    as ([ap2 Hrep2] & _ & Hresp2). rewrite Hagain in Hrep2, Hresp2. cbn [fst snd] in *.
  apply (read_state_rep shard_id Hshard _ _ _ Hrep) in Hread; [|done|done]. subst o.
  split_ands; [done|by rewrite <- Hdr| |done|].
  - intros o' Ho. apply (read_state_rep shard_id Hshard _ _ _ Hrep1) in Ho; [|done|done].
    rewrite Ho, Hst. apply lookup_insert_eq.
  - intros o' Ho. apply (read_state_rep shard_id Hshard _ _ _ Hrep2) in Ho; [|done|done].
    rewrite Ho, Hst. apply lookup_insert_eq.
Qed.

End Properties.

(** ** Witnesses *)

(** The log of [demo_log] applied in two batches around a restart, then an append
    of the first event again. *)
Definition demo_again : Entry N :=
  mkEntry (mkLogId 2 1 4) (Normal (AggregateAppend demo_type 3 9 "order-1" NoAggregate
    (mkNewEvent 7 "created" [x01] []) (mkHlc 99 0))).

Definition demo_history : result string (list EsResponse * gmap Bytes Bytes * @SmCache N) :=
  match @sm_apply N mem_tree demo_xxh3 demo_codecs 1 (∅ : gmap Bytes Bytes) demo_cache demo_log with
  | Err _ => Err "apply"
  | Ok out =>
      match @restore_applied_state N mem_tree demo_codecs 1 (ap_tree out) demo_cache with
      | Err _ => Err "restore"
      | Ok (t1, c1) =>
          match @sm_apply N mem_tree demo_xxh3 demo_codecs 1 t1 c1 [demo_again] with
          | Err _ => Err "apply again"
          | Ok out2 => Ok (ap_responses out ++ ap_responses out2 ++ [], ap_tree out2, ap_cache out2)
          end
      end
  end.

Example demo_history_responses :
  match demo_history with
  | Ok (rs, _, _) => rs = [Noop; AggregatePartitionFenceInstalled 1; AggregateAppendOk 0 0;
                          AggregateAppendOk 1 1; AggregateAppendOk 0 0]
  | Err _ => False
  end.
Proof. vm_compute. reflexivity. Qed.

Lemma demo_history_runs : exists rs t c, demo_history = Ok (rs, t, c) /\
  rs !! 2%nat = Some (AggregateAppendOk 0 0) /\
  @sm_history N demo_codecs mem_tree demo_xxh3 1 (∅ : gmap Bytes Bytes) demo_cache
    (demo_log ++ [demo_again]) rs t c.
Proof.
  pose proof demo_history_responses as Hd. unfold demo_history in Hd |- *.
  destruct (@sm_apply N mem_tree demo_xxh3 demo_codecs 1 (∅ : gmap Bytes Bytes) demo_cache demo_log)
    as [out|e] eqn:Ho; [|destruct Hd].
  destruct (@restore_applied_state N mem_tree demo_codecs 1 (ap_tree out) demo_cache) as [[t1 c1]|e] eqn:Hr;
    [|destruct Hd].
  destruct (@sm_apply N mem_tree demo_xxh3 demo_codecs 1 t1 c1 [demo_again]) as [out2|e] eqn:Ho2; [|destruct Hd].
  do 3 eexists. split; [reflexivity|]. split; [by rewrite Hd|].
  eapply HistApply; [exact Ho|]. eapply HistRestart; [exact Hr|].
  apply (HistApply 1 t1 c1 [demo_again] out2 []); [exact Ho2|]. apply HistEnd.
Qed.

Lemma demo_history_log_wf : Forall entry_wf (demo_log ++ [demo_again]).
Proof. apply Forall_app. split; [apply demo_log_wf|]. constructor; [|constructor]. cbn. lia. Qed.

Lemma demo_history_small : (group_revision shard_empty + len (demo_log ++ [demo_again]) <= u64_max)%N.
Proof. apply (bool_decide_unpack _). vm_compute. exact I. Qed.

Lemma history_consistent_witness :
  exists rs t c, demo_history = Ok (rs, t, c) /\
    shard_wf (@shard_run demo_xxh3 N shard_empty (demo_log ++ [demo_again])).1 /\
    rs = (@shard_run demo_xxh3 N shard_empty (demo_log ++ [demo_again])).2.
Proof.
  destruct demo_history_runs as (rs & t & c & Hd & _ & Hh). exists rs, t, c. split; [exact Hd|].
  exact (proj2 (@history_consistent N demo_codecs demo_codec_laws mem_tree mem_tree_laws demo_xxh3 1
    ltac:(lia) (∅ : gmap Bytes Bytes) t demo_cache c (demo_log ++ [demo_again]) rs eq_refl
    demo_history_log_wf demo_history_small Hh)).
Defined.

Lemma append_exactly_once_witness :
  exists rs t c, demo_history = Ok (rs, t, c) /\ rs !! 4%nat = Some (AggregateAppendOk 0 0).
Proof.
  destruct demo_history_runs as (rs & t & c & Hd & Hf & Hh). exists rs, t, c. split; [exact Hd|].
  exact (proj1 (@append_exactly_once N demo_codecs demo_codec_laws mem_tree mem_tree_laws demo_xxh3 1
    ltac:(lia) (∅ : gmap Bytes Bytes) t demo_cache c shard_empty None (take 2 demo_log) (drop 3 demo_log) []
    (mkLogId 1 1 2) (mkLogId 2 1 4) rs demo_type 3 1 9 "order-1" NoAggregate
    (mkNewEvent 7 "created" [x01] []) (mkHlc 10 0) (mkHlc 99 0) 0 0
    (ShardRep_empty 1) shard_empty_wf demo_history_log_wf demo_history_small Hh Hf)).
Defined.

Lemma history_append_only_witness :
  exists rs t c, demo_history = Ok (rs, t, c) /\
    forall n n', @read_aggregate_partition_head N mem_tree demo_codecs 1 (∅ : gmap Bytes Bytes) demo_type 3 = Ok n ->
      @read_aggregate_partition_head N mem_tree demo_codecs 1 t demo_type 3 = Ok n' -> (n <= n')%N.
Proof.
  destruct demo_history_runs as (rs & t & c & Hd & _ & Hh). exists rs, t, c. split; [exact Hd|].
  exact (proj2 (proj2 (proj2 (@history_append_only N demo_codecs demo_codec_laws mem_tree mem_tree_laws
    demo_xxh3 1 ltac:(lia) (∅ : gmap Bytes Bytes) t demo_cache c shard_empty None (demo_log ++ [demo_again]) rs
    demo_type 3 demo_read_partition_wf (ShardRep_empty 1) shard_empty_wf demo_history_log_wf
    demo_history_small Hh)))).
Defined.

(** An append to an empty partition. *)
Definition demo_one (req : EsRequest) (t : gmap Bytes Bytes) : result StorageError (@Applied N mem_tree) :=
  @sm_apply N mem_tree demo_xxh3 demo_codecs 1 t demo_cache [mkEntry (mkLogId 1 1 9) (Normal req)].

Definition demo_first_append : EsRequest :=
  AggregateAppend demo_type 3 0 "order-2" NoAggregate (mkNewEvent 8 "created" [x02] []) (mkHlc 12 0).

Lemma demo_first_append_runs : exists out n' m', demo_one demo_first_append ∅ = Ok out /\
  @read_aggregate_partition_head N mem_tree demo_codecs 1 (ap_tree out) demo_type 3 = Ok n' /\
  @read_aggregate_meta N mem_tree demo_codecs 1 (ap_tree out) demo_type 3 "order-2" = Ok m'.
Proof.
  assert (Hb : match demo_one demo_first_append ∅ with
    | Ok out => is_ok (@read_aggregate_partition_head N mem_tree demo_codecs 1 (ap_tree out) demo_type 3) &&
                is_ok (@read_aggregate_meta N mem_tree demo_codecs 1 (ap_tree out) demo_type 3 "order-2")
    | Err _ => false end = true) by (vm_compute; reflexivity).
  destruct (demo_one demo_first_append ∅) as [out|]; [|discriminate]. apply andb_true_iff in Hb as [Hb1 Hb2].
  destruct (read_aggregate_partition_head 1 (ap_tree out) demo_type 3) as [n'|] eqn:En; [|discriminate].
  destruct (read_aggregate_meta 1 (ap_tree out) demo_type 3 "order-2") as [m'|] eqn:Em; [|discriminate].
  exists out, n', m'. split_ands; first [done|exact En|exact Em].
Qed.

Lemma demo_name_wf : name_wf "order-2".
Proof. unfold name_wf. apply (bool_decide_unpack _). vm_compute. exact I. Qed.

Lemma append_effect_witness : exists out r, demo_one demo_first_append ∅ = Ok out /\ ap_responses out = [r].
Proof.
  destruct demo_first_append_runs as (out & n' & m' & Ho & Hn & Hm). exists out.
  destruct (@append_effect N demo_codecs demo_codec_laws mem_tree mem_tree_laws demo_xxh3 1 ltac:(lia)
    (∅ : gmap Bytes Bytes) demo_cache shard_empty None (mkLogId 1 1 9) demo_type 3 0 "order-2" NoAggregate
    (mkNewEvent 8 "created" [x02] []) (mkHlc 12 0) out 0 n' None m' demo_read_partition_wf demo_name_wf
    (ShardRep_empty 1) shard_empty_wf ltac:(apply (bool_decide_unpack _); vm_compute; exact I)
    ltac:(cbn; lia) Ho ltac:(vm_compute; reflexivity) Hn ltac:(vm_compute; reflexivity) Hm) as (r & Hr & _).
  exists r. split; [exact Ho|exact Hr].
Defined.

(** Two writes of the same document that expected the same revision. *)
Definition demo_put (data : Bytes) : EsRequest :=
  PutAggregateState demo_type 3 1 "order-1" (ExactRevision 0) data (mkHlc 20 0).

Lemma demo_puts_run : exists out out2 o, demo_one (demo_put [x05]) demo_tree = Ok out /\
  ap_responses out = [AggregateStateStored (mkDocument 1 [x05] (mkHlc 20 0))] /\
  @read_aggregate_state N mem_tree demo_codecs 1 demo_tree demo_type 3 "order-1" = Ok o /\
  demo_one (demo_put [x06]) (ap_tree out) = Ok out2.
Proof.
  assert (Hb : match demo_one (demo_put [x05]) demo_tree with
    | Ok out => match ap_responses out with [AggregateStateStored d] => bool_decide (d = mkDocument 1 [x05] (mkHlc 20 0)) | _ => false end &&
                (is_ok (@read_aggregate_state N mem_tree demo_codecs 1 demo_tree demo_type 3 "order-1") &&
                 is_ok (demo_one (demo_put [x06]) (ap_tree out)))
    | Err _ => false end = true) by (vm_compute; reflexivity).
  destruct (demo_one (demo_put [x05]) demo_tree) as [out|]; [|discriminate].
  apply andb_true_iff in Hb as [Hb1 Hb]. apply andb_true_iff in Hb as [Hb2 Hb3].
  destruct (@read_aggregate_state N mem_tree demo_codecs 1 demo_tree demo_type 3 "order-1") as [o|]; [|discriminate].
  destruct (demo_one (demo_put [x06]) (ap_tree out)) as [out2|] eqn:E2; [|discriminate].
  exists out, out2, o. split; [reflexivity|]. split; [|split; [reflexivity|exact E2]].
  destruct (ap_responses out) as [|[] []]; try discriminate. apply bool_decide_eq_true in Hb1. by subst.
Qed.

Lemma put_state_compare_and_swap_witness :
  exists out out2, demo_one (demo_put [x05]) demo_tree = Ok out /\
    demo_one (demo_put [x06]) (ap_tree out) = Ok out2 /\
    ap_responses out2 = [AggregateStateConflict (Some 1%N)].
Proof.
  destruct demo_puts_run as (out & out2 & o & Ho & Hr & Hrd & Ho2). exists out, out2.
  split; [exact Ho|]. split; [exact Ho2|]. destruct demo_tree_rep as [ap Hrep].
  exact (proj1 (proj2 (proj2 (proj2 (@put_state_compare_and_swap N demo_codecs demo_codec_laws mem_tree
    mem_tree_laws demo_xxh3 1 ltac:(lia) demo_tree demo_cache demo_cache demo_document_shard ap (mkLogId 1 1 9)
    (mkLogId 1 1 9) demo_type 3 1 "order-1" (ExactRevision 0) [x05] [x06] (mkHlc 20 0) (mkHlc 20 0) out out2
    (mkDocument 1 [x05] (mkHlc 20 0)) o demo_read_partition_wf
    ltac:(unfold name_wf; apply (bool_decide_unpack _); vm_compute; exact I) Hrep demo_document_shard_wf
    ltac:(apply (bool_decide_unpack _); vm_compute; exact I) Ho Hr Hrd Ho2))))).
Defined.
