(* ===== verification/Snapshot.v ===== *)
(** * es-storage: the snapshot file

    [es-storage/src/snapshot.rs] lines 17–370: the compression tag, the file
    header and its meta, the record stream of the payload, and reading them
    back.

    A reader is the bytes it will yield and the fault it then ends with, if any;
    a writer is the bytes written. JSON for the meta ([serde_json]) and the zstd
    and lz4 frames are parameters; [JsonLaws] and [FrameLaws] say that decoding
    gives back what was encoded. Allocation does not fail here. *)

From S2P Require Import Prelude.
From S2P Require Import Bytes.
From S2P Require Import Core.
From S2P Require Import Aggregate.
From S2P Require Import Catalog.
From S2P Require Import GroupCatalog.
From S2P Require Import GroupPartition.
From S2P Require Import Keys.
From S2P Require Import Store.
From S2P Require Import RaftType.
From S2P Require Import LogStore.
From S2P Require Import StateMachine.
From S2P Require Import Codecs.

(** ** Constants *)

Definition SNAP_MAGIC : Bytes := as_bytes "ESNP".
Definition SNAP_VERSION : byte := x01.
Definition END_MARKER : N := u64_max.
Definition HEADER_LEN : N := 32.
Definition MAX_META_LEN : N := 67108864.
Definition MAX_RECORD_LEN : N := 1073741824.

(** ** Compression *)

Inductive Compression : Type := Zstd | Lz4 | CompressionNone.

#[export] Instance Compression_eq_dec : EqDecision Compression.
Proof. solve_decision. Defined.

Definition compression_tag (c : Compression) : byte :=
  match c with CompressionNone => x00 | Zstd => x01 | Lz4 => x02 end.

Definition compression_from_tag (tag : byte) : result string Compression :=
  match tag with
  | x00 => Ok CompressionNone
  | x01 => Ok Zstd
  | x02 => Ok Lz4
  | _ => Err ("未知快照压缩 tag: " +:+ pretty (Byte.to_N tag))
  end.

(** The frames of zstd and lz4: compressing a whole payload, and the bytes a
    decoder yields before it ends or fails. *)
Class Frames : Type := {
  frame_encode : Compression -> Bytes -> result string Bytes;
  frame_decode : Compression -> Bytes -> Bytes * option string
}.

Class FrameLaws `{Frames} : Prop :=
  frame_round_trip : forall c p b, frame_encode c p = Ok b -> frame_decode c b = (p, None).

(** ** Meta and header *)

Record SnapshotMeta (M : Type) : Type := mkSnapshotMeta {
  sn_last_log_id : option LogId;
  sn_last_membership : StoredMembership M;
  sn_snapshot_id : string
}.
Arguments mkSnapshotMeta {M}.
Arguments sn_last_log_id {M}.
Arguments sn_last_membership {M}.
Arguments sn_snapshot_id {M}.

Class Json (A : Type) : Type := {
  json_encode : A -> result string Bytes;
  json_decode : Bytes -> result string A
}.

Class JsonLaws (A : Type) `{Json A} : Prop :=
  json_round_trip : forall (a : A) b, json_encode a = Ok b -> json_decode b = Ok a.

Record SnapshotHeader : Type := mkHeader {
  h_version : byte;
  h_compression : Compression;
  h_shard_id : N;
  h_meta_len : N;
  h_payload_len : N
}.

(** ** Readers *)

Record Reader : Type := mkReader {
  rd_bytes : Bytes;
  rd_fault : option string
}.

Definition file_reader (file : Bytes) : Reader := mkReader file None.

(** [Read::read_exact]. *)
Definition read_exact (n : N) (r : Reader) : result string (Bytes * Reader) :=
  if (n <=? len (rd_bytes r))%N
  then Ok (take (N.to_nat n) (rd_bytes r), mkReader (drop (N.to_nat n) (rd_bytes r)) (rd_fault r))
  else Err (default "failed to fill whole buffer" (rd_fault r)).

Section File.
Context {M : Type} `{Json (SnapshotMeta M)} `{Frames}.

(** [Compression::writer], [write_all] and [finish], for a whole payload. *)
Definition compress (c : Compression) (payload : Bytes) : result string Bytes :=
  match c with
  | CompressionNone => Ok payload
  | _ => frame_encode c payload
  end.

(** [Compression::reader]. *)
Definition compression_reader (c : Compression) (file : Bytes) : Reader :=
  match c with
  | CompressionNone => mkReader file None
  | _ => let '(b, e) := frame_decode c file in mkReader b e
  end.

(** The 32 fixed bytes. *)
Definition header_bytes (h : SnapshotHeader) : Bytes :=
  SNAP_MAGIC ++ [h_version h; compression_tag (h_compression h); x00; x00] ++
  le_bytes 8 (h_shard_id h) ++ le_bytes 8 (h_meta_len h) ++ le_bytes 8 (h_payload_len h).

(** [write_header]: the bytes written. *)
Definition write_header (h : SnapshotHeader) (meta : SnapshotMeta M) : result string Bytes :=
  meta_bytes ← map_err (fun e => "meta 序列化失败: " +:+ e) (json_encode meta);
  if negb (len meta_bytes =? h_meta_len h)%N
  then Err ("meta_len 与序列化结果不符: 声明 " +:+ pretty (h_meta_len h) +:+ " 实际 " +:+
            pretty (len meta_bytes))
  else Ok (header_bytes h ++ meta_bytes).

Definition read_header (r : Reader) : result string (SnapshotHeader * SnapshotMeta M * Reader) :=
  '(head, r) ← read_exact HEADER_LEN r;
  if negb (bool_decide (take 4 head = SNAP_MAGIC))
  then Err "快照文件 magic 不符（不是快照文件或已损坏）"
  else
    let version := default x00 (head !! 4) in
    if negb (bool_decide (version = SNAP_VERSION))
    then Err ("快照文件版本 " +:+ pretty (Byte.to_N version) +:+ " 不支持（当前支持 v" +:+
              pretty (Byte.to_N SNAP_VERSION) +:+ "）")
    else
      compression ← compression_from_tag (default x00 (head !! 5));
      let shard_id := le_value (take 8 (drop 8 head)) in
      let meta_len := le_value (take 8 (drop 16 head)) in
      let payload_len := le_value (take 8 (drop 24 head)) in
      if (MAX_META_LEN <? meta_len)%N
      then Err ("快照文件头 meta_len 越界: " +:+ pretty meta_len +:+ "（上限 " +:+ pretty MAX_META_LEN +:+
                "，文件可能损坏）")
      else
        '(meta_bytes, r) ← read_exact meta_len r;
        meta ← map_err (fun e => "快照 meta 反序列化失败: " +:+ e) (json_decode meta_bytes);
        Ok (mkHeader version compression shard_id meta_len payload_len, meta, r).

Definition parse_header_bytes (bytes : Bytes) : result string (SnapshotHeader * SnapshotMeta M) :=
  '(h, m, _) ← read_header (file_reader bytes);
  Ok (h, m).

(** [open_payload_reader], on the content of the file. *)
Definition open_payload_reader (file : Bytes) :
    result string (SnapshotHeader * SnapshotMeta M * Reader) :=
  '(h, m, _) ← read_header (file_reader file);
  Ok (h, m, compression_reader (h_compression h) (drop (N.to_nat (HEADER_LEN + h_meta_len h)) file)).

End File.

(** ** Records *)

Abbreviation Record_ := (Bytes * Bytes)%type.

Definition record_len (key val : Bytes) : N := (16 + len key + len val)%N.

Definition payload_len_for (entries : list Record_) : N :=
  (8 + foldr (fun kv n => record_len kv.1 kv.2 + n) 0 entries + 8)%N.

Definition write_record (key val : Bytes) : Bytes :=
  le_bytes 8 (len key) ++ key ++ le_bytes 8 (len val) ++ val.

Definition write_end_marker : Bytes := le_bytes 8 END_MARKER.

(** The payload as [build_snapshot] writes it: count, records, end marker. *)
Definition records_bytes (entries : list Record_) : Bytes :=
  concat (map (fun kv => write_record kv.1 kv.2) entries).

Definition write_payload (entries : list Record_) : Bytes :=
  le_bytes 8 (len entries) ++ records_bytes entries ++ write_end_marker.

(** The [read_u64] of [for_each_record]. *)
Definition read_u64 (r : Reader) : result string (N * Reader) :=
  '(b, r) ← read_exact 8 r;
  Ok (le_value b, r).

Section Records.
Context {T : Type} (f : T -> Bytes -> Bytes -> result string T).

(** One turn of the loop of [for_each_record]: the callback's state, the bytes
    read so far, the rest of the stream. *)
Definition read_record (x : T * N * Reader) : result string (T * N * Reader) :=
  let '(s, read_bytes, r) := x in
  '(key_len, r) ← read_u64 r;
  if (key_len =? END_MARKER)%N then Err "快照记录数不匹配（提前遇到流尾哨兵）"
  else if (MAX_RECORD_LEN <? key_len)%N
  then Err ("快照记录 key 长度越界: " +:+ pretty key_len +:+ "（文件可能损坏）")
  else
    '(key, r) ← read_exact key_len r;
    '(val_len, r) ← read_u64 r;
    if (MAX_RECORD_LEN <? val_len)%N
    then Err ("快照记录 value 长度越界: " +:+ pretty val_len +:+ "（文件可能损坏）")
    else
      '(val, r) ← read_exact val_len r;
      s ← f s key val;
      Ok (s, (read_bytes + 8 + key_len + 8 + val_len)%N, r).

(** [for _ in 0..count]: every turn consumes bytes, so more turns than bytes
    never run; [None] if the fuel ends. *)
Fixpoint records_loop (fuel : nat) (left : N) (x : T * N * Reader) :
    option (result string (T * N * Reader)) :=
  if (left =? 0)%N then Some (Ok x)
  else
    match fuel with
    | O => None
    | S fuel' =>
        match read_record x with
        | Err e => Some (Err e)
        | Ok x' => records_loop fuel' (left - 1) x'
        end
    end.

Definition for_each_record (s : T) (r : Reader) : result string (T * N) :=
  '(count, r) ← read_u64 r;
  '(s, read_bytes, r) ← default (Err "") (records_loop (S (length (rd_bytes r))) count (s, 8%N, r));
  '(marker, r) ← read_u64 r;
  if negb (marker =? END_MARKER)%N
  then Err ("快照流尾哨兵缺失（记录数 " +:+ pretty count +:+ " 与文件内容不符）")
  else Ok (s, (read_bytes + 8)%N).

(** The callback over a list. *)
Fixpoint fold_entries (s : T) (entries : list Record_) : result string T :=
  match entries with
  | [] => Ok s
  | kv :: entries' => s ← f s kv.1 kv.2; fold_entries s entries'
  end.

End Records.

(** ** Lemmas: reading what was written *)

Lemma read_exact_app n a b e :
  n = len a -> read_exact n (mkReader (a ++ b) e) = Ok (a, mkReader b e).
Proof.
  intros ->. unfold read_exact. cbn [rd_bytes rd_fault]. rewrite len_app, (proj2 (N.leb_le _ _)) by lia.
  unfold len. rewrite Nat2N.id, take_app_length, drop_app_length. done.
Qed.

Lemma le_value_u64 n : (n <= u64_max)%N -> le_value (le_bytes 8 n) = n.
Proof. intros Hn. rewrite le_value_le_bytes. apply N.mod_small. by apply u64_lt_pow. Qed.

Lemma read_u64_app n b e : (n <= u64_max)%N -> read_u64 (mkReader (le_bytes 8 n ++ b) e) = Ok (n, mkReader b e).
Proof.
  intros Hn. unfold read_u64. rewrite read_exact_app by (by rewrite len_le_bytes).
  rewrite bind_Ok. by rewrite le_value_u64.
Qed.

(** Records a reader accepts. *)
Definition record_fits (kv : Record_) : Prop :=
  (len kv.1 <= MAX_RECORD_LEN /\ len kv.2 <= MAX_RECORD_LEN)%N.

Section RecordLemmas.
Context {T : Type} (f : T -> Bytes -> Bytes -> result string T).

Lemma read_record_app s n k v rest e :
  record_fits (k, v) ->
  read_record f (s, n, mkReader (write_record k v ++ rest) e) =
  (s' ← f s k v; Ok (s', (n + record_len k v)%N, mkReader rest e)).
Proof.
  unfold record_fits, MAX_RECORD_LEN. cbn [fst snd]. intros [Hk Hv].
  unfold read_record, write_record. rewrite <- !app_assoc.
  rewrite read_u64_app by lia. rewrite bind_Ok.
  rewrite (proj2 (N.eqb_neq _ _)) by (unfold END_MARKER; lia).
  unfold MAX_RECORD_LEN. rewrite (proj2 (N.ltb_ge _ _)) by lia.
  rewrite read_exact_app, bind_Ok by done. rewrite read_u64_app, bind_Ok by lia.
  rewrite (proj2 (N.ltb_ge _ _)) by lia. rewrite read_exact_app, bind_Ok by done.
  destruct (f s k v); cbn [mbind result_bind]; [|done]. unfold record_len.
  assert (n + 8 + len k + 8 + len v = n + (16 + len k + len v))%N as -> by lia. done.
Qed.

Lemma records_loop_entries entries fuel s n rest e :
  Forall record_fits entries -> length entries <= fuel ->
  records_loop f fuel (len entries) (s, n, mkReader (records_bytes entries ++ rest) e) =
  Some (s' ← fold_entries f s entries;
        Ok (s', (n + foldr (fun kv m => record_len kv.1 kv.2 + m) 0 entries)%N, mkReader rest e)).
Proof.
  intros Hfit. revert fuel s n. induction Hfit as [|[k v] entries Hkv Hfit IH]; intros fuel s n Hfuel.
  { unfold records_loop, len. cbn. destruct fuel; by rewrite N.add_0_r. }
  cbn [length] in Hfuel. destruct fuel as [|fuel]; [lia|]. cbn [records_loop].
  rewrite len_cons, (proj2 (N.eqb_neq _ _)) by lia.
  unfold records_bytes. cbn [map concat fst snd]. fold (records_bytes entries). rewrite <- app_assoc.
  rewrite read_record_app by done. cbn [fold_entries fst snd foldr].
  destruct (f s k v) as [s'|]; cbn [mbind result_bind]; [|done].
  replace (1 + len entries - 1)%N with (len entries) by lia.
  rewrite IH by lia. by rewrite N.add_assoc.
Qed.

Lemma records_bytes_length entries : length entries <= length (records_bytes entries).
Proof.
  induction entries as [|[k v] entries IH]; [done|]. unfold records_bytes in *. cbn [map concat length].
  rewrite length_app. cbn [fst snd]. assert (8 <= length (write_record k v)); [|lia].
  unfold write_record. rewrite !length_app, !length_le_bytes. lia.
Qed.

Lemma for_each_payload entries s e rest :
  Forall record_fits entries -> (len entries <= u64_max)%N ->
  for_each_record f s (mkReader (write_payload entries ++ rest) e) =
  (s' ← fold_entries f s entries; Ok (s', payload_len_for entries)).
Proof.
  intros Hfit Hlen. unfold for_each_record, write_payload. rewrite <- !app_assoc.
  rewrite read_u64_app, bind_Ok by done. cbn [rd_bytes].
  rewrite records_loop_entries; [|done|].
  2:{ rewrite !length_app. pose proof (records_bytes_length entries). lia. }
  cbn [default]. destruct (fold_entries f s entries) as [s'|]; cbn [mbind result_bind from_option id]; [|done].
  unfold write_end_marker. rewrite read_u64_app by (unfold END_MARKER; lia). rewrite bind_Ok, N.eqb_refl.
  cbn [negb]. done.
Qed.

(** ** Lemmas: what a successful read consumed *)

Definition extend (r : Reader) (x : Bytes) (e : option string) : Reader := mkReader (rd_bytes r ++ x) e.

Lemma read_exact_inv n r b r' :
  read_exact n r = Ok (b, r') ->
  len (rd_bytes r) = (n + len (rd_bytes r'))%N /\
  forall x e, read_exact n (extend r x e) = Ok (b, extend r' x e).
Proof.
  unfold read_exact. case_if; [|discriminate]. intros [= <- <-]. bool_facts. cbn [rd_bytes rd_fault]. split.
  - unfold len in *. rewrite length_drop. lia.
  - intros x e. unfold extend. cbn [rd_bytes rd_fault]. rewrite len_app, (proj2 (N.leb_le _ _)) by lia.
    unfold len in E. rewrite take_app_le, drop_app_le by lia. done.
Qed.

Lemma read_u64_inv r n r' :
  read_u64 r = Ok (n, r') ->
  len (rd_bytes r) = (8 + len (rd_bytes r'))%N /\ forall x e, read_u64 (extend r x e) = Ok (n, extend r' x e).
Proof.
  intros ([b r1] & Hr & [= <- <-])%bind_Ok_inv. apply read_exact_inv in Hr as [Hlen Hext].
  split; [done|]. intros x e. unfold read_u64. by rewrite Hext.
Qed.

Lemma read_record_inv s n r s' n' r' :
  read_record f (s, n, r) = Ok (s', n', r') ->
  (n' + len (rd_bytes r') = n + len (rd_bytes r))%N /\ (len (rd_bytes r') < len (rd_bytes r))%N /\
  forall x e, read_record f (s, n, extend r x e) = Ok (s', n', extend r' x e).
Proof.
  unfold read_record. intros Hr.
  apply bind_Ok_inv in Hr as ([kl r1] & (L1 & X1)%read_u64_inv & Hr).
  destruct (kl =? END_MARKER)%N eqn:E1; [discriminate|].
  destruct (MAX_RECORD_LEN <? kl)%N eqn:E2; [discriminate|].
  apply bind_Ok_inv in Hr as ([key r2] & (L2 & X2)%read_exact_inv & Hr).
  apply bind_Ok_inv in Hr as ([vl r3] & (L3 & X3)%read_u64_inv & Hr).
  destruct (MAX_RECORD_LEN <? vl)%N eqn:E3; [discriminate|].
  apply bind_Ok_inv in Hr as ([val r4] & (L4 & X4)%read_exact_inv & Hr).
  apply bind_Ok_inv in Hr as (s1 & Hf & [= <- <- <-]).
  split_ands; [lia|lia|]. intros x e. rewrite X1, bind_Ok, E1, E2, X2, bind_Ok, X3, bind_Ok, E3, X4, bind_Ok, Hf.
  done.
Qed.

(** The loop consumes what it counts, does not run out of fuel, and does not
    look past what it consumed. *)
Lemma records_loop_inv fuel left s n r s' n' r' :
  records_loop f fuel left (s, n, r) = Some (Ok (s', n', r')) ->
  (n' + len (rd_bytes r') = n + len (rd_bytes r))%N /\
  forall x e fuel', fuel <= fuel' ->
    records_loop f fuel' left (s, n, extend r x e) = Some (Ok (s', n', extend r' x e)).
Proof.
  revert left s n r. induction fuel as [|fuel IH]; intros left s n r; cbn [records_loop].
  - destruct (left =? 0)%N eqn:E; [|discriminate]. intros [= <- <- <-]. split; [done|].
    intros x e fuel' _. destruct fuel'; cbn [records_loop]; by rewrite E.
  - destruct (left =? 0)%N eqn:E.
    { intros [= <- <- <-]. split; [done|]. intros x e fuel' _. destruct fuel'; cbn [records_loop]; by rewrite E. }
    destruct (read_record f (s, n, r)) as [[[s1 n1] r1]|] eqn:Hr; [|discriminate].
    intros Hl. apply read_record_inv in Hr as (L1 & _ & X1). apply IH in Hl as (L2 & X2).
    split; [lia|]. intros x e [|fuel'] Hfuel; [lia|]. cbn [records_loop]. rewrite E, X1. apply X2. lia.
Qed.

Lemma records_loop_total fuel left s n r :
  (len (rd_bytes r) < N.of_nat fuel)%N -> is_Some (records_loop f fuel left (s, n, r)).
Proof.
  revert left s n r. induction fuel as [|fuel IH]; intros left s n r Hlt; [lia|]. cbn [records_loop].
  destruct (left =? 0)%N; [by eexists|].
  destruct (read_record f (s, n, r)) as [[[s1 n1] r1]|] eqn:Hr; [|by eexists].
  apply read_record_inv in Hr as (_ & L & _). apply IH. lia.
Qed.

Lemma for_each_record_inv s r s' n :
  for_each_record f s r = Ok (s', n) ->
  (n <= len (rd_bytes r))%N /\ forall x e, for_each_record f s (extend r x e) = Ok (s', n).
Proof.
  unfold for_each_record. intros ([count r1] & (L1 & X1)%read_u64_inv & Hr)%bind_Ok_inv.
  apply bind_Ok_inv in Hr as ([[s1 n1] r2] & Hl & Hr).
  destruct (records_loop f _ count (s, 8%N, r1)) as [res|] eqn:Hloop; [|discriminate].
  cbn in Hl. subst res. apply records_loop_inv in Hloop as (L2 & X2).
  apply bind_Ok_inv in Hr as ([marker r3] & (L3 & X3)%read_u64_inv & Hr).
  destruct (negb (marker =? END_MARKER)%N) eqn:E; [discriminate|]. injection Hr as <- <-.
  split; [lia|]. intros x e. rewrite X1, bind_Ok.
  rewrite X2 by (unfold extend; cbn [rd_bytes]; rewrite length_app; lia). cbn [default from_option].
  cbn [id]. rewrite bind_Ok, X3, bind_Ok, E. done.
Qed.

End RecordLemmas.

(** The length declared in the header is the length written. *)
Lemma payload_len_exact entries : payload_len_for entries = len (write_payload entries).
Proof.
  unfold payload_len_for, write_payload, write_end_marker. rewrite !len_app, !len_le_bytes.
  assert (Hr : foldr (fun kv n => record_len kv.1 kv.2 + n)%N 0%N entries = len (records_bytes entries)).
  { induction entries as [|[k v] entries IH]; [done|]. unfold records_bytes in *. cbn [map concat foldr fst snd].
    rewrite len_app, <- IH. unfold write_record, record_len. rewrite !len_app, !len_le_bytes. lia. }
  rewrite Hr. lia.
Qed.

(** ** Lemmas: the header *)

Definition header_wf (h : SnapshotHeader) : Prop :=
  h_version h = SNAP_VERSION /\ (h_shard_id h <= u64_max)%N /\ (h_meta_len h <= MAX_META_LEN)%N /\
  (h_payload_len h <= u64_max)%N.

Section HeaderLemmas.
Context {M : Type} `{JsonLaws (SnapshotMeta M)} `{FrameLaws}.

Lemma len_header_bytes h : len (header_bytes h) = HEADER_LEN.
Proof. unfold header_bytes. rewrite !len_app, !len_le_bytes. done. Qed.

Lemma compression_tag_round_trip c : compression_from_tag (compression_tag c) = Ok c.
Proof. by destruct c. Qed.

Lemma header_fields h :
  let head := header_bytes h in
  take 4 head = SNAP_MAGIC /\ head !! 4 = Some (h_version h) /\
  head !! 5 = Some (compression_tag (h_compression h)) /\
  take 8 (drop 8 head) = le_bytes 8 (h_shard_id h) /\
  take 8 (drop 16 head) = le_bytes 8 (h_meta_len h) /\
  take 8 (drop 24 head) = le_bytes 8 (h_payload_len h).
Proof. done. Qed.

Lemma write_header_inv h (meta : SnapshotMeta M) hb :
  write_header h meta = Ok hb ->
  exists mb, json_encode meta = Ok mb /\ len mb = h_meta_len h /\ hb = header_bytes h ++ mb /\
    len hb = (HEADER_LEN + h_meta_len h)%N.
Proof.
  intros (mb & Hj%map_err_Ok & Hw)%bind_Ok_inv. exists mb.
  destruct (negb (len mb =? h_meta_len h)%N) eqn:E; [discriminate|]. bool_facts.
  assert (hb = header_bytes h ++ mb) as -> by congruence. rewrite len_app, len_header_bytes.
  split_ands; try done. lia.
Qed.

Lemma read_header_written h (meta : SnapshotMeta M) hb rest e :
  header_wf h -> write_header h meta = Ok hb ->
  read_header (mkReader (hb ++ rest) e) = Ok (h, meta, mkReader rest e).
Proof.
  intros (Hv & Hs & Hm & Hp) (mb & Hj & E & -> & _)%write_header_inv.
  unfold read_header. rewrite <- app_assoc, read_exact_app, bind_Ok by (by rewrite len_header_bytes).
  destruct (header_fields h) as (F1 & F2 & F3 & F4 & F5 & F6). rewrite F1, F2, F3, F4, F5, F6.
  cbn [default from_option]. unfold id. rewrite Hv, !bool_decide_eq_true_2 by done. cbn [negb].
  rewrite compression_tag_round_trip, bind_Ok. unfold MAX_META_LEN in *.
  rewrite !le_value_u64 by lia. rewrite (proj2 (N.ltb_ge _ _)) by lia.
  rewrite read_exact_app, bind_Ok by done. rewrite (json_round_trip _ _ Hj). cbn [map_err].
  rewrite bind_Ok, <- Hv. by destruct h.
Qed.

Lemma read_header_inv (r : Reader) h (m : SnapshotMeta M) r' :
  read_header r = Ok (h, m, r') ->
  len (rd_bytes r) = (HEADER_LEN + h_meta_len h + len (rd_bytes r'))%N /\
  forall x e, read_header (extend r x e) = Ok (h, m, extend r' x e).
Proof.
  unfold read_header. intros ([head r1] & (L1 & X1)%read_exact_inv & Hr)%bind_Ok_inv.
  destruct (negb (bool_decide (take 4 head = SNAP_MAGIC))) eqn:E1; [discriminate|].
  destruct (negb (bool_decide (default x00 (head !! 4) = SNAP_VERSION))) eqn:E2; [discriminate|].
  apply bind_Ok_inv in Hr as (c & Hc & Hr).
  destruct (MAX_META_LEN <? le_value (take 8 (drop 16 head)))%N eqn:E3; [discriminate|].
  apply bind_Ok_inv in Hr as ([mb r2] & (L2 & X2)%read_exact_inv & Hr).
  apply bind_Ok_inv in Hr as (m' & Hm & [= <- <- <-]). cbn [h_meta_len]. split; [lia|].
  intros x e. rewrite X1, bind_Ok, E1, E2, Hc, bind_Ok, E3, X2, bind_Ok, Hm. done.
Qed.

Lemma open_payload_written h (meta : SnapshotMeta M) hb body :
  header_wf h -> write_header h meta = Ok hb ->
  open_payload_reader (hb ++ body) = Ok (h, meta, compression_reader (h_compression h) body).
Proof.
  intros Hh Hw. unfold open_payload_reader, file_reader. rewrite (read_header_written h meta) by done.
  rewrite bind_Ok.
  apply write_header_inv in Hw as (_ & _ & _ & _ & Hlen).
  rewrite <- Hlen. unfold len. by rewrite Nat2N.id, drop_app_length.
Qed.

Lemma compression_reader_compressed c p b : compress c p = Ok b -> compression_reader c b = mkReader p None.
Proof.
  destruct c; cbn; [| |by intros [= <-]]; intros Hc%frame_round_trip; by rewrite Hc.
Qed.

End HeaderLemmas.

(** ** Properties *)

(** A snapshot file reads back as it was written, whatever the compression:
    the header and meta are recovered, and the record stream yields exactly the
    records in order and counts exactly the payload length the header declares. *)
Theorem snapshot_round_trip {M : Type} `{JsonLaws (SnapshotMeta M)} `{FrameLaws}
  (h : SnapshotHeader) (meta : SnapshotMeta M) (entries : list Record_) (hb body : Bytes)
  (Hh : header_wf h) (Hlen : h_payload_len h = payload_len_for entries)
  (Hfit : Forall record_fits entries) (Hcount : (len entries <= u64_max)%N)
  (Hw : write_header h meta = Ok hb)
  (Hc : compress (h_compression h) (write_payload entries) = Ok body) :
  exists r, open_payload_reader (hb ++ body) = Ok (h, meta, r) /\
    for_each_record (fun l k v => Ok (l ++ [(k, v)])) [] r = Ok (entries, h_payload_len h).
Proof.
  exists (compression_reader (h_compression h) body). split; [by apply open_payload_written|].
  rewrite (compression_reader_compressed _ _ _ Hc), <- (app_nil_r (write_payload entries)).
  rewrite for_each_payload by done. rewrite Hlen.
  assert (Hfold : forall l0, fold_entries (fun l k v => Ok (l ++ [(k, v)])) l0 entries = Ok (l0 ++ entries)).
  { clear. induction entries as [|[k v] entries IH]; intros l0; cbn [fold_entries fst snd]; [by rewrite app_nil_r|].
    rewrite bind_Ok, IH, <- app_assoc. done. }
  by rewrite Hfold.
Qed.

(** A truncated snapshot is never accepted: of an uncompressed snapshot
    file, no proper prefix can be opened and read to the end with success, at
    whatever byte it was cut. *)
Theorem truncated_snapshot_rejected {M T : Type} `{JsonLaws (SnapshotMeta M)} `{Frames}
  (f : T -> Bytes -> Bytes -> result string T) (s : T)
  (h : SnapshotHeader) (meta : SnapshotMeta M) (entries : list Record_) (hb : Bytes) (cut : nat)
  (Hh : header_wf h) (Hc : h_compression h = CompressionNone)
  (Hfit : Forall record_fits entries) (Hcount : (len entries <= u64_max)%N)
  (Hw : write_header h meta = Ok hb) (Hcut : cut < length (hb ++ write_payload entries)) :
  forall h' m' r, open_payload_reader (M := M) (take cut (hb ++ write_payload entries)) = Ok (h', m', r) ->
  exists e, for_each_record f s r = Err e.
Proof.
  intros h' m' r Ho. set (file := hb ++ write_payload entries) in *.
  apply bind_Ok_inv in Ho as ([[h1 m1] r1] & Hr & [= <- <- <-]).
  apply read_header_inv in Hr as (L1 & X1). cbn [rd_bytes file_reader] in L1.
  specialize (X1 (drop cut file) None). unfold extend in X1. cbn [rd_bytes file_reader] in X1.
  rewrite take_drop in X1. unfold file in X1. rewrite (read_header_written h meta) in X1 by done.
  injection X1 as <- <- Hrest. rewrite Hc. cbn [compression_reader].
  assert (Hmid : drop (N.to_nat (HEADER_LEN + h_meta_len h)) (take cut file) = rd_bytes r1).
  { assert (Hl : length (take cut file) = N.to_nat (HEADER_LEN + h_meta_len h) + length (rd_bytes r1))
      by (unfold len in L1; lia).
    assert (Hhb : length hb = N.to_nat (HEADER_LEN + h_meta_len h))
      by (apply write_header_inv in Hw as (_ & _ & _ & _ & Hhb); unfold len in Hhb; lia).
    rewrite length_take in Hl. unfold file in Hl |- *. rewrite take_app_ge by lia.
    rewrite <- Hhb, drop_app_length. rewrite <- (take_app_length (rd_bytes r1) (drop cut file)), Hrest.
    f_equal. unfold file in *. rewrite length_app in Hl, Hcut. lia. }
  rewrite Hmid. destruct (for_each_record f s (mkReader (rd_bytes r1) None)) as [[s' n]|e] eqn:Hf; [|by exists e].
  exfalso. apply for_each_record_inv in Hf as (Hn & X). cbn [rd_bytes] in Hn.
  specialize (X (drop cut file) None). unfold extend in X. cbn [rd_bytes] in X.
  fold file in Hrest. rewrite <- Hrest in X.
  rewrite <- (app_nil_r (write_payload entries)) in X. rewrite for_each_payload in X by done.
  apply bind_Ok_inv in X as (s1 & _ & [= _ <-]).
  assert (Hpl : payload_len_for entries = len (write_payload entries)) by apply payload_len_exact.
  assert (Hd : (0 < len (drop cut file))%N) by (unfold len; rewrite length_drop; lia).
  apply (f_equal len) in Hrest. rewrite len_app in Hrest. lia.
Qed.

(** ** Witnesses *)

#[export] Instance SnapshotMeta_eq_dec {M} `{EqDecision M} : EqDecision (SnapshotMeta M).
Proof. solve_decision. Defined.

#[export] Instance SnapshotMeta_countable {M} `{Countable M} : Countable (SnapshotMeta M).
Proof.
  by refine (inj_countable' (fun r => (sn_last_log_id r, sn_last_membership r, sn_snapshot_id r))
    (fun '(x0, x1, x2) => mkSnapshotMeta x0 x1 x2) _); intros [].
Defined.

Definition demo_json : Json (SnapshotMeta N) := {|
  json_encode := fun m => Ok (positive_bytes (countable.encode m));
  json_decode := fun b =>
    match positive_read b with
    | None => Err "EOF"
    | Some (p, _) => match countable.decode p with Some a => Ok a | None => Err "invalid" end
    end
|}.

Lemma demo_json_laws : @JsonLaws (SnapshotMeta N) demo_json.
Proof.
  intros a b [= <-]. cbn. rewrite <- (app_nil_r (positive_bytes _)), positive_read_bytes.
  by rewrite decode_encode.
Qed.

(** Frames that only add a byte. *)
Definition demo_frames : Frames := {|
  frame_encode := fun _ p => Ok (x28 :: p);
  frame_decode := fun _ b => match b with x28 :: p => (p, None) | _ => ([], Some "bad frame") end
|}.

Lemma demo_frame_laws : @FrameLaws demo_frames.
Proof. by intros c p b [= <-]. Qed.

Definition demo_meta : SnapshotMeta N := mkSnapshotMeta (Some (mkLogId 3 1 100)) (mkStored None 0%N) "1-3-100".

Definition demo_records : list Record_ := [([x02; x01], [x05]); ([x02; x02], [])].

Definition demo_header (c : Compression) : SnapshotHeader :=
  mkHeader SNAP_VERSION c 1
    (match @json_encode _ demo_json demo_meta with Ok b => len b | Err _ => 0 end)
    (payload_len_for demo_records).

Lemma demo_header_wf c : header_wf (demo_header c).
Proof. unfold header_wf. split_ands; [done|..]; apply (bool_decide_unpack _); vm_compute; exact I. Qed.

Lemma demo_records_fit : Forall record_fits demo_records.
Proof. repeat constructor; apply (bool_decide_unpack _); vm_compute; exact I. Qed.

Lemma demo_header_written c : exists hb, @write_header N demo_json (demo_header c) demo_meta = Ok hb.
Proof. destruct c; eexists; vm_compute; reflexivity. Qed.

Lemma snapshot_round_trip_witness :
  exists hb body r, @write_header N demo_json (demo_header Zstd) demo_meta = Ok hb /\
    @compress demo_frames Zstd (write_payload demo_records) = Ok body /\
    for_each_record (fun l k v => Ok (l ++ [(k, v)])) [] r =
      Ok (demo_records, payload_len_for demo_records).
Proof.
  destruct (demo_header_written Zstd) as [hb Hw]. exists hb.
  destruct (@snapshot_round_trip N demo_json demo_json_laws demo_frames demo_frame_laws (demo_header Zstd)
    demo_meta demo_records hb (x28 :: write_payload demo_records) (demo_header_wf Zstd) eq_refl
    demo_records_fit ltac:(vm_compute; discriminate) Hw eq_refl) as (r & _ & Hr).
  exists (x28 :: write_payload demo_records), r. split; [exact Hw|]. split; [reflexivity|exact Hr].
Defined.

(** Cut inside the second record. *)
Lemma truncated_snapshot_rejected_witness :
  exists hb h' m' r e, @write_header N demo_json (demo_header CompressionNone) demo_meta = Ok hb /\
  @open_payload_reader N demo_json demo_frames
    (take (length hb + 35) (hb ++ write_payload demo_records)) = Ok (h', m', r) /\
  for_each_record (fun (s : nat) _ _ => Ok (S s)) 0 r = Err e.
Proof.
  destruct (demo_header_written CompressionNone) as [hb Hw]. exists hb.
  assert (Ho : exists x, @open_payload_reader N demo_json demo_frames
            (take (length hb + 35) (hb ++ write_payload demo_records)) = Ok x).
  { rewrite take_app_add. eexists.
    apply (@open_payload_written N demo_json demo_json_laws demo_frames (demo_header CompressionNone)
             demo_meta hb _ (demo_header_wf CompressionNone) Hw). }
  destruct Ho as [[[h' m'] r] Ho].
  destruct (@truncated_snapshot_rejected N nat demo_json demo_json_laws demo_frames
    (fun (s : nat) _ _ => Ok (S s)) 0 (demo_header CompressionNone) demo_meta demo_records hb (length hb + 35)
    (demo_header_wf CompressionNone) eq_refl demo_records_fit ltac:(vm_compute; discriminate) Hw
    ltac:(rewrite length_app; assert (length (write_payload demo_records) = 53) as -> by reflexivity; lia)
    h' m' r Ho) as [e He].
  exists h', m', r, e. split; [exact Hw|]. split; [exact Ho|exact He].
Defined.
