(* ===== verification/Install.v ===== *)
(** * es-storage: building, keeping and installing snapshots

    [SnapshotStore] of [snapshot.rs] (naming, listing, choosing the latest,
    retention) and [build_snapshot], [install_snapshot] and
    [get_current_snapshot] of [state_machine.rs].

    The snapshot directory is a map from file names to contents; [readdir] is
    the order [std::fs::read_dir] happens to list it in. Renaming a finished
    temporary file to its final name is an insertion. File-system calls on
    files that exist succeed; opening a file that does not exist fails. *)

From S2P Require Import Prelude.
From S2P Require Import Bytes.
From S2P Require Import Core.
From S2P Require Import Aggregate.
From S2P Require Import Catalog.
From S2P Require Import GroupCatalog.
From S2P Require Import GroupPartition.
From S2P Require Import Keys.
From S2P Require Import Store.
From S2P Require Import RaftType.
From S2P Require Import LogStore.
From S2P Require Import StateMachine.
From S2P Require Import ShardSpec.
From S2P Require Import Codecs.
From S2P Require Import Apply.
From S2P Require Import Reads.
From S2P Require Import Snapshot.

Abbreviation Dir := (gmap string Bytes).

(** [{n:0w}]. *)
Definition pad (w : nat) (n : N) : string :=
  let s := pretty n in String.string_of_list_byte (replicate (w - String.length s) x30) +:+ s.

(** [(term, index)] of a log id, (0, 0) for none. *)
Definition log_key (o : option LogId) : N * N :=
  match o with Some l => (li_term l, li_index l) | None => (0, 0)%N end.

(** The order of pairs. *)
Definition key_leb (x y : N * N) : bool := (x.1 <? y.1)%N || ((x.1 =? y.1)%N && (x.2 <=? y.2)%N).

(** [SnapshotStore::final_path], the file name. *)
Definition final_path (shard_id : N) (last_log_id : option LogId) : string :=
  "snap-" +:+ pad 8 shard_id +:+ "-" +:+ pad 20 (log_key last_log_id).1 +:+ "-" +:+
  pad 20 (log_key last_log_id).2 +:+ ".esnap".

(** [path.extension() == Some("esnap")]. *)
Definition is_esnap (name : string) : bool :=
  let b := as_bytes name in
  (6 <? length b) && bool_decide (drop (length b - 6) b = as_bytes ".esnap").

(** The id of a snapshot. *)
Definition snapshot_id_for (shard_id : N) (last_applied : option LogId) : string :=
  match last_applied with
  | Some l => pretty shard_id +:+ "-" +:+ pretty (li_term l) +:+ "-" +:+ pretty (li_index l)
  | None => pretty shard_id +:+ "-empty"
  end.

Definition sm_read_err {E A} (show : E -> string) (r : result E A) : result StorageError A :=
  map_err (fun e => ErrReadStateMachine (show e)) r.

Section Snapshots.
Context {M : Type} `{Json (SnapshotMeta M)} `{Frames} `{Tree} `{SmCodecs M}.
Context (readdir : Dir -> list (string * Bytes)).
Context (shard_id : N).

(** A file of the directory and its header, if it parses. *)
Record SnapshotEntry : Type := mkSnapshotEntry {
  sy_path : string;
  sy_parsed : option (SnapshotHeader * SnapshotMeta M)
}.

Definition list_entries (d : Dir) : list SnapshotEntry :=
  map (fun nf => mkSnapshotEntry nf.1
         (match parse_header_bytes nf.2 with Ok hm => Some hm | Err _ => None end))
    (List.filter (fun nf => is_esnap nf.1) (readdir d)).

(** The files of this shard with their position. *)
Definition shard_entry_key (e : SnapshotEntry) : option (N * N * string) :=
  match sy_parsed e with
  | None => None
  | Some (header, meta) =>
      if negb (h_shard_id header =? shard_id)%N then None
      else Some (log_key (sn_last_log_id meta), sy_path e)
  end.

(** The test of [latest] against the applied position. *)
Definition ahead_of_applied (applied : option LogId) (e : SnapshotEntry) : bool :=
  match applied, sy_parsed e with
  | Some a, Some (_, meta) =>
      match sn_last_log_id meta with
      | Some m => negb (key_leb (log_key (Some m)) (log_key (Some a)))
      | None => false
      end
  | _, _ => false
  end.

(** One turn of the loop of [latest]. *)
Definition latest_step (applied : option LogId) (best : option (N * N * string)) (e : SnapshotEntry) :
    option (N * N * string) :=
  match shard_entry_key e with
  | None => best
  | Some (key, path) =>
      if ahead_of_applied applied e then best
      else
        match best with
        | Some (bk, _) => if key_leb key bk then best else Some (key, path)
        | None => Some (key, path)
        end
  end.

Definition latest (applied : option LogId) (d : Dir) : option string :=
  snd <$> foldl (latest_step applied) None (list_entries d).

(** [valid.sort_by_key(|(t, i, _)| (t, i))]. *)
Definition entry_key_le (x y : N * N * string) : Prop := key_leb x.1 y.1 = true.

#[export] Instance entry_key_le_dec x y : Decision (entry_key_le x y).
Proof. unfold entry_key_le. apply _. Defined.

Definition sorted_entries (d : Dir) : list (N * N * string) :=
  merge_sort entry_key_le (omap shard_entry_key (list_entries d)).

(** [SnapshotStore::retain]: the directory after it and the files removed. *)
Definition retain (keep : N) (d : Dir) : result string (Dir * list string) :=
  if (keep =? 0)%N then Err "keep 必须 ≥ 1（keep=0 会删光全部快照）"
  else
    let valid := sorted_entries d in
    let removed := map snd (take (length valid - N.to_nat keep) valid) in
    Ok (foldl (fun d p => delete p d) d removed, removed).

(** The file [build_snapshot] writes. *)
Definition snapshot_file (c : Compression) (meta : SnapshotMeta M) (entries : list Record_) :
    result StorageError Bytes :=
  meta_bytes ← map_err ErrWriteStateMachine (json_encode meta);
  let header := mkHeader SNAP_VERSION c shard_id (len meta_bytes) (payload_len_for entries) in
  hb ← map_err ErrWriteStateMachine (write_header header meta);
  body ← map_err ErrWriteStateMachine (compress c (write_payload entries));
  Ok (hb ++ body).

(** [RaftSnapshotBuilder::build_snapshot]: the directory after it, the meta and
    the content of the file it hands out. *)
Definition build_snapshot (c : Compression) (keep : N) (t : tree) (cache : SmCache (M := M)) (d : Dir) :
    result StorageError (Dir * SnapshotMeta M * Bytes) :=
  entries ← sm_read_err error_to_string (collect_sm_entries shard_id t);
  let last_applied := cache_last_applied cache in
  let meta := mkSnapshotMeta last_applied (cache_membership cache) (snapshot_id_for shard_id last_applied) in
  file ← snapshot_file c meta entries;
  let path := final_path shard_id last_applied in
  let d := <[path := file]> d in
  '(d, removed) ← map_err ErrWriteStateMachine (retain keep d);
  match d !! path with
  | None => Err (ErrWriteStateMachine "No such file or directory (os error 2)")
  | Some content => Ok (d, meta, content)
  end.

(** The transaction of [install_snapshot] and the new cache. *)
Definition install_snapshot (t : tree) (meta : SnapshotMeta M) (file : Bytes) :
    result StorageError (tree * SmCache (M := M)) :=
  '(header, file_meta, _) ← sm_read_err id (read_header (file_reader file));
  if negb (bool_decide (sn_snapshot_id file_meta = sn_snapshot_id meta))
  then Err (ErrReadStateMachine ("快照文件 snapshot_id 不一致：文件 " +:+ sn_snapshot_id file_meta +:+
              " vs 请求 " +:+ sn_snapshot_id meta))
  else
    let reader := compression_reader (h_compression header)
                    (drop (N.to_nat (32 + h_meta_len header)) file) in
    '(sm_start, sm_end) ← map_err (fun e => ErrWriteStateMachine (error_to_string e)) (sm_range shard_id);
    old_keys ← map_err (fun e => ErrWriteStateMachine (error_to_string e)) (collect_keys t sm_start sm_end);
    x ← map_err ErrWriteStateMachine (tree_begin t);
    x ← txn_each (fun x k => map_err ErrWriteStateMachine (txn_delete x k)) x old_keys;
    '(x, read_bytes) ← sm_read_err id
      (for_each_record (fun x k v => map_err (fun e => "set 失败: " +:+ e) (txn_set x k v)) x reader);
    if negb (read_bytes =? h_payload_len header)%N
    then Err (ErrReadStateMachine ("快照 payload 长度不符：实读 " +:+ pretty read_bytes +:+ " vs 声明 " +:+
                pretty (h_payload_len header)))
    else
      bytes ← map_err ErrWriteStateMachine
                (encode (mkApplied (sn_last_log_id meta) (sn_last_membership meta)));
      x ← map_err ErrWriteStateMachine (txn_set x (sm_applied_state shard_id) bytes);
      t' ← map_err ErrWriteStateMachine (txn_commit t x);
      Ok (t', mkCache (sn_last_log_id meta) (sn_last_membership meta)).

(** The directory after a successful install: a received temporary file is
    renamed to its final name, then retention runs; a failed retention is only
    logged. *)
Definition install_promote (keep : N) (is_temp : bool) (meta : SnapshotMeta M) (file : Bytes) (d : Dir) : Dir :=
  let d := if is_temp then <[final_path shard_id (sn_last_log_id meta) := file]> d else d in
  match retain keep d with Ok (d', _) => d' | Err _ => d end.

(** [get_current_snapshot]: the meta of the latest file and its content. *)
Definition get_current_snapshot (cache : SmCache (M := M)) (d : Dir) :
    result StorageError (option (SnapshotMeta M * Bytes)) :=
  match latest (cache_last_applied cache) d with
  | None => Ok None
  | Some path =>
      match d !! path with
      | None => Err (ErrReadStateMachine "No such file or directory (os error 2)")
      | Some file =>
          '(_, meta, _) ← sm_read_err id (read_header (file_reader file));
          Ok (Some (meta, file))
      end
  end.

End Snapshots.

(** ** Lemmas: lists of writes *)

Lemma puts_other v ops k : k ∉ ops.*1 -> puts v ops !! k = v !! k.
Proof.
  revert v. induction ops as [|[k' b] ops IH]; intros v Hk; [done|]. cbn in *.
  apply not_elem_of_cons in Hk as [Hne Hk]. fold (puts (<[k' := b]> v) ops).
  rewrite IH by done. by rewrite lookup_insert_ne.
Qed.

Lemma puts_member v ops k b : NoDup ops.*1 -> (k, b) ∈ ops -> puts v ops !! k = Some b.
Proof.
  revert v. induction ops as [|[k' b'] ops IH]; intros v; [intros _ Hin; set_solver|].
  change (puts v ((k', b') :: ops)) with (puts (<[k' := b']> v) ops). cbn.
  intros [Hk Hnd]%NoDup_cons [[= <- <-]|Hin]%elem_of_cons.
  - rewrite puts_other by done. apply lookup_insert_eq.
  - by apply IH.
Qed.

Lemma range_entries_keys_NoDup m s e : NoDup (range_entries m s e).*1.
Proof.
  apply NoDup_fmap_fst; [|apply range_entries_NoDup]. intros k v1 v2 H1 H2.
  apply elem_of_range_entries in H1 as [H1 _], H2 as [H2 _]. congruence.
Qed.

(** Clearing a region and writing the region of another tree. *)
Lemma replace_region v1 v2 s e k :
  let v' := puts (apply_txn v2 (map TxnDelete (range_entries v2 s e).*1)) (range_entries v1 s e) in
  v' !! k = if in_key_range s e k then v1 !! k else v2 !! k.
Proof.
  cbn zeta. unfold in_key_range. destruct (bytes_leb s k && bytes_ltb k e) eqn:Hin.
  - apply andb_true_iff in Hin as [Hs He]. destruct (v1 !! k) as [b|] eqn:Hv.
    + apply puts_member; [apply range_entries_keys_NoDup|]. by apply elem_of_range_entries.
    + rewrite puts_other.
      * rewrite apply_txn_deletes. case_bool_decide as Hd; [done|].
        apply eq_None_not_Some. intros [b Hb]. apply Hd, list_elem_of_fmap. exists (k, b).
        split; [done|]. by apply elem_of_range_entries.
      * intros ([k' b] & -> & Hb)%list_elem_of_fmap. apply elem_of_range_entries in Hb as [Hb _]. cbn in Hv. congruence.
  - assert (Hno : forall m, k ∉ (range_entries m s e).*1).
    { intros m ([k' b] & -> & Hb)%list_elem_of_fmap. apply elem_of_range_entries in Hb as (_ & Hs & He).
      cbn in Hin. unfold bytes_le, bytes_lt in Hs, He. rewrite Hs, He in Hin. discriminate. }
    rewrite puts_other by apply Hno. rewrite apply_txn_deletes. by rewrite bool_decide_eq_false_2 by apply Hno.
Qed.

(** The records of a region fit if those of the tree do. *)
Lemma payload_len_perm l l' : l ≡ₚ l' -> payload_len_for l = payload_len_for l'.
Proof.
  intros Hp. unfold payload_len_for. induction Hp; cbn [foldr]; lia.
Qed.

Lemma payload_len_count l : (len l <= payload_len_for l)%N.
Proof.
  unfold payload_len_for. induction l as [|[k v] l IH]; [unfold len; cbn; lia|].
  rewrite len_cons. cbn [foldr fst snd] in *. assert (1 <= record_len k v)%N by (unfold record_len; lia). lia.
Qed.

Lemma payload_len_filter (P : Record_ -> Prop) `{forall x, Decision (P x)} l :
  (payload_len_for (filter P l) <= payload_len_for l)%N.
Proof.
  unfold payload_len_for. induction l as [|[k v] l IH]; [done|].
  rewrite filter_cons. cbn [foldr fst snd] in *. case_decide; cbn [foldr fst snd]; lia.
Qed.

Lemma entries_fit v s e :
  (forall k b, v !! k = Some b -> record_fits (k, b)) ->
  (payload_len_for (map_to_list v) <= u64_max)%N ->
  let entries := range_entries v s e in
  (payload_len_for entries <= u64_max)%N /\ (len entries <= u64_max)%N /\ Forall record_fits entries.
Proof.
  intros Hfit Hlen entries.
  assert (Hpl : (payload_len_for entries <= u64_max)%N).
  { unfold entries, range_entries. rewrite (payload_len_perm _ _ (merge_sort_Permutation _ _)).
    etrans; [apply payload_len_filter|exact Hlen]. }
  split_ands; [done|etrans; [apply payload_len_count|exact Hpl]|].
  apply List.Forall_forall. intros [k b] Hin%list_elem_of_In%elem_of_range_entries. apply Hfit, Hin.
Qed.

Section Transfer.
Context {M : Type} `{JsonLaws (SnapshotMeta M)} `{FrameLaws} `{TreeLaws} `{SmCodecLaws M}.
Context (shard_id : N) (Hshard : (shard_id <= u64_max)%N).

Lemma sm_range_spec s e : sm_range shard_id = Ok (s, e) -> s = sm_prefix shard_id /\ successor (sm_prefix shard_id) = Some e.
Proof.
  unfold sm_range. intros (u & Hu & [= <- <-])%bind_Ok_inv. split; [done|].
  change ([x02] ++ be_bytes 8 shard_id) with (sm_prefix shard_id) in Hu.
  destruct (successor (sm_prefix shard_id)); cbn in Hu; congruence.
Qed.

Lemma sm_region_key e k : successor (sm_prefix shard_id) = Some e -> key_wf k ->
  in_key_range (sm_prefix shard_id) e (key_bytes k) = true <-> key_tag k = TAG_SM /\ key_shard k = shard_id.
Proof.
  intros He Hk. rewrite <- (sm_prefix_key shard_id k Hshard Hk).
  pose proof (successor_range (sm_prefix shard_id) (key_bytes k)) as Hr. rewrite He in Hr.
  unfold in_key_range. by rewrite andb_true_iff.
Qed.

Lemma sm_prefix_lt e : successor (sm_prefix shard_id) = Some e -> bytes_lt (sm_prefix shard_id) e.
Proof. intros He. eapply prefix_in_range; [exact He|done]. Qed.

Lemma collect_sm_entries_view t entries :
  collect_sm_entries shard_id t = Ok entries ->
  exists e, successor (sm_prefix shard_id) = Some e /\
    entries = range_entries (tree_view t) (sm_prefix shard_id) e.
Proof.
  intros ([s e] & (-> & He)%sm_range_spec & Hr)%bind_Ok_inv. exists e. split; [done|].
  apply bind_Ok_inv in Hr as (x & Hx & Hl%map_err_Ok). storage_facts.
  by eapply txn_scan_law; [eassumption|apply sm_prefix_lt|eassumption].
Qed.

(** Values of one shard carried into another tree. *)
Lemma rep_at_ext v v' s (ap ap' : option (AppliedState M)) k :
  v' !! key_bytes k = v !! key_bytes k -> k <> KApplied shard_id -> key_shard k = shard_id ->
  rep_at v s ap k -> rep_at v' s ap' k.
Proof.
  intros Hv Hne Hs Hr. destruct k; cbn [rep_at key_shard] in *; try exact I;
    try (by eapply stored_ext; [exact Hv|exact Hr]). subst. done.
Qed.

(** A tree that carries the state-machine keys of another one, with another
    applied state. *)
Lemma carried_rep v1 v' s (ap : option (AppliedState M)) (a : AppliedState M) b :
  ShardRep shard_id v1 s ap -> encode a = Ok b -> keys_wf v' ->
  v' !! sm_applied_state shard_id = Some b ->
  (forall k, key_wf k -> key_tag k = TAG_SM -> key_shard k = shard_id -> k <> KApplied shard_id ->
     v' !! key_bytes k = v1 !! key_bytes k) ->
  ShardRep shard_id v' s (Some a).
Proof.
  intros Hrep Hb Hk' Ha Hsame. split; [done|]. intros k Hk Hs.
  destruct (decide (k = KApplied shard_id)) as [->|Hne]; [cbn [rep_at]; by exists b|].
  destruct (decide (key_tag k = TAG_SM)) as [Ht|Ht].
  - exact (rep_at_ext v1 _ s ap _ k (Hsame k Hk Ht Hs Hne) Hne Hs (rep_values _ _ _ _ Hrep k Hk Hs)).
  - destruct k; cbn in Ht; try done.
Qed.

Lemma transfer_rep v1 v2 e s (ap ap' : option (AppliedState M)) (a : AppliedState M) b :
  successor (sm_prefix shard_id) = Some e ->
  ShardRep shard_id v1 s ap -> keys_wf v2 -> encode a = Ok b ->
  let region := puts (apply_txn v2 (map TxnDelete (range_entries v2 (sm_prefix shard_id) e).*1))
                  (range_entries v1 (sm_prefix shard_id) e) in
  ShardRep shard_id (<[sm_applied_state shard_id := b]> region) s (Some a) /\
  (forall k, key_wf k -> key_tag k <> TAG_SM \/ key_shard k <> shard_id ->
     <[sm_applied_state shard_id := b]> region !! key_bytes k = v2 !! key_bytes k).
Proof.
  intros He Hrep Hk2 Hb region.
  assert (Hreg : forall k, region !! k = if in_key_range (sm_prefix shard_id) e k then v1 !! k else v2 !! k)
    by (intros k; apply replace_region).
  assert (Hka : key_wf (KApplied shard_id)) by (by split). split.
  - apply (carried_rep v1 _ s ap a b Hrep Hb); [|apply lookup_insert_eq|].
    + change (sm_applied_state shard_id) with (key_bytes (KApplied shard_id)). apply keys_wf_insert; [done|].
      intros raw Hraw. rewrite Hreg in Hraw. destruct (in_key_range _ _ raw); [by apply (rep_keys _ _ _ _ Hrep)|by apply Hk2].
    + intros k Hk Ht Hs Hne. change (sm_applied_state shard_id) with (key_bytes (KApplied shard_id)).
      rewrite lookup_insert_ne by (apply key_bytes_ne; congruence).
      by rewrite Hreg, (proj2 (sm_region_key e k He Hk)).
  - intros k Hk Hout. etrans; [exact (frame_insert shard_id _ _ _ _ Hka eq_refl eq_refl Hk Hout)|].
    rewrite Hreg. destruct (in_key_range _ _ _) eqn:Hin; [|done].
    apply (sm_region_key e k He Hk) in Hin. tauto.
Qed.

Lemma fold_set_pending x entries x' :
  fold_entries (fun x k v => map_err (fun e => "set 失败: " +:+ e) (txn_set x k v)) x entries = Ok x' ->
  txn_pending x' = txn_pending x ++ map (fun kv => TxnSet kv.1 kv.2) entries.
Proof.
  revert x. induction entries as [|[k v] entries IH]; intros x; cbn [fold_entries fst snd map].
  - intros [= <-]. by rewrite app_nil_r.
  - intros (x1 & Hx1%map_err_Ok & Hr)%bind_Ok_inv. apply IH in Hr. apply txn_set_law in Hx1.
    by rewrite Hr, Hx1, <- app_assoc.
Qed.

(** What [build_snapshot] hands out. *)
Lemma build_snapshot_file readdir c keep (t : tree) (cache : SmCache (M := M)) d d' meta file :
  build_snapshot readdir shard_id c keep t cache d = Ok (d', meta, file) ->
  exists entries, collect_sm_entries shard_id t = Ok entries /\
    meta = mkSnapshotMeta (cache_last_applied cache) (cache_membership cache)
             (snapshot_id_for shard_id (cache_last_applied cache)) /\
    snapshot_file shard_id c meta entries = Ok file /\ d' !! final_path shard_id (cache_last_applied cache) = Some file.
Proof.
  intros (entries & He%map_err_Ok & Hr)%bind_Ok_inv. exists entries. split; [done|].
  apply bind_Ok_inv in Hr as (f & Hf & Hr).
  apply bind_Ok_inv in Hr as ([d1 removed] & Hret%map_err_Ok & Hr).
  destruct (d1 !! final_path shard_id (cache_last_applied cache)) as [content|] eqn:Hd; [|discriminate].
  injection Hr as <- <- <-. split; [done|].
  assert (content = f) as ->; [|done].
  unfold retain in Hret. destruct (keep =? 0)%N; [discriminate|]. injection Hret as <- _.
  revert Hd. generalize (map snd (take (length (sorted_entries readdir shard_id
    (<[final_path shard_id (cache_last_applied cache) := f]> d)) - N.to_nat keep)
    (sorted_entries readdir shard_id (<[final_path shard_id (cache_last_applied cache) := f]> d)))).
  intros l. assert (Hin : forall m : Dir, (forall c', m !! final_path shard_id (cache_last_applied cache) = Some c' -> c' = f) ->
    foldl (fun d p => delete p d) m l !! final_path shard_id (cache_last_applied cache) = Some content -> content = f).
  { induction l as [|p l IH]; intros m Hm; cbn; [apply Hm|]. apply IH. intros c' Hc'. apply Hm.
    by apply lookup_delete_Some in Hc' as [_ ?]. }
  apply Hin. intros c'. rewrite lookup_insert_eq. congruence.
Qed.

(** Installing a file that holds [entries]. *)
Lemma install_snapshot_spec (t t' : tree) (meta fmeta : SnapshotMeta M) h hb body entries cache' :
  header_wf h -> h_payload_len h = payload_len_for entries -> Forall record_fits entries ->
  (len entries <= u64_max)%N -> write_header h fmeta = Ok hb ->
  compress (h_compression h) (write_payload entries) = Ok body ->
  install_snapshot shard_id t meta (hb ++ body) = Ok (t', cache') ->
  exists e b, successor (sm_prefix shard_id) = Some e /\
    encode (mkApplied (sn_last_log_id meta) (sn_last_membership meta)) = Ok b /\
    cache' = mkCache (sn_last_log_id meta) (sn_last_membership meta) /\
    tree_view t' = <[sm_applied_state shard_id := b]>
      (puts (apply_txn (tree_view t) (map TxnDelete (range_entries (tree_view t) (sm_prefix shard_id) e).*1)) entries).
Proof.
  intros Hh Hlen Hfit Hcount Hw Hc. unfold install_snapshot, file_reader.
  rewrite (read_header_written h fmeta hb body None Hh Hw). cbn [sm_read_err map_err]. rewrite bind_Ok.
  destruct (negb _); [discriminate|].
  apply write_header_inv in Hw as (_ & _ & _ & _ & Hhb).
  change (32 + h_meta_len h)%N with (HEADER_LEN + h_meta_len h)%N. rewrite <- Hhb. unfold len at 1.
  rewrite Nat2N.id, drop_app_length, (compression_reader_compressed _ _ _ Hc).
  intros ([s e] & (-> & He)%map_err_Ok%sm_range_spec & Hr)%bind_Ok_inv.
  apply bind_Ok_inv in Hr as (old & Hold%map_err_Ok%collect_keys_view & Hr). subst old.
  apply bind_Ok_inv in Hr as (x & Hx%map_err_Ok & Hr).
  apply bind_Ok_inv in Hr as (x1 & Hx1 & Hr).
  apply (txn_each_pending _ TxnDelete) in Hx1; [|intros ??? Hd%map_err_Ok; by apply txn_delete_law].
  apply bind_Ok_inv in Hr as ([x2 n] & Hx2%map_err_Ok & Hr).
  rewrite <- (app_nil_r (write_payload entries)), for_each_payload in Hx2 by done.
  apply bind_Ok_inv in Hx2 as (x2' & Hfold%fold_set_pending & [= <- <-]).
  destruct (negb _); [discriminate|].
  apply bind_Ok_inv in Hr as (b & Hb%map_err_Ok & Hr).
  apply bind_Ok_inv in Hr as (x3 & Hx3%map_err_Ok%txn_set_law & Hr).
  apply bind_Ok_inv in Hr as (t1 & Ht1%map_err_Ok & [= <- <-]).
  exists e, b. split_ands; try done.
  rewrite (txn_commit_law _ _ _ Ht1), Hx3, Hfold, Hx1, (tree_begin_law _ _ Hx). cbn [app].
  rewrite !apply_txn_app. cbn [apply_txn foldl apply_txn_op]. by rewrite <- puts_txn.
Qed.

End Transfer.

(** The header of a built file. *)
Lemma snapshot_file_parses {M : Type} `{JsonLaws (SnapshotMeta M)} `{Frames} shard_id
  (Hshard : (shard_id <= u64_max)%N) c (meta : SnapshotMeta M) entries file :
  snapshot_file shard_id c meta entries = Ok file -> (payload_len_for entries <= u64_max)%N ->
  (forall b, json_encode meta = Ok b -> (len b <= MAX_META_LEN)%N) ->
  exists h, parse_header_bytes file = Ok (h, meta) /\ h_shard_id h = shard_id.
Proof.
  intros (mb & Hmb%map_err_Ok & Hf)%bind_Ok_inv Hpl Hmeta. specialize (Hmeta _ Hmb).
  apply bind_Ok_inv in Hf as (hb & Hhb%map_err_Ok & Hf). apply bind_Ok_inv in Hf as (body & _ & [= <-]).
  set (h := mkHeader SNAP_VERSION c shard_id (len mb) (payload_len_for entries)) in *.
  exists h. split; [|done]. unfold parse_header_bytes, file_reader.
  rewrite (read_header_written h meta); [done|by split_ands|done].
Qed.

(** ** Lemmas: the directory *)

#[export] Instance entry_key_le_trans : Transitive entry_key_le.
Proof.
  intros [[a1 a2] a3] [[b1 b2] b3] [[c1 c2] c3]. unfold entry_key_le, key_leb. cbn.
  rewrite !orb_true_iff, !andb_true_iff, !N.ltb_lt, !N.leb_le, !N.eqb_eq. lia.
Qed.

#[export] Instance entry_key_le_total : Total entry_key_le.
Proof.
  intros [[a1 a2] a3] [[b1 b2] b3]. unfold entry_key_le, key_leb. cbn.
  rewrite !orb_true_iff, !andb_true_iff, !N.ltb_lt, !N.leb_le, !N.eqb_eq. lia.
Qed.

Lemma key_leb_total x y : key_leb x y = false -> key_leb y x = true.
Proof.
  unfold key_leb. rewrite orb_false_iff, andb_false_iff, orb_true_iff, andb_true_iff.
  rewrite !N.ltb_lt, N.ltb_ge, !N.leb_le, N.leb_gt, !N.eqb_eq, N.eqb_neq. lia.
Qed.

Lemma delete_all_lookup (d : Dir) l name :
  foldl (fun d p => delete p d) d l !! name = if bool_decide (name ∈ l) then None else d !! name.
Proof.
  revert d. induction l as [|p l IH]; intros d; [done|]. cbn. rewrite IH. destruct (decide (name = p)) as [->|Hne].
  - rewrite (bool_decide_eq_true_2 (p ∈ p :: l)) by set_solver. case_if; [done|]. apply lookup_delete_eq.
  - rewrite (bool_decide_ext (name ∈ p :: l) (name ∈ l)) by set_solver. case_if; [done|]. by rewrite lookup_delete_ne.
Qed.

Section Directory.
Context {M : Type} `{Json (SnapshotMeta M)}.
Context (shard_id : N).

(** The loop of [latest]: the greatest of what it has seen. *)
Definition ahead (applied : option LogId) (key : N * N) : bool :=
  match applied with Some a => negb (key_leb key (log_key (Some a))) | None => false end.

Lemma ahead_of_applied_key applied e h m :
  sy_parsed (M := M) e = Some (h, m) -> ahead_of_applied applied e = ahead applied (log_key (sn_last_log_id m)).
Proof.
  unfold ahead_of_applied, ahead. intros ->. destruct applied as [a|]; [|done].
  destruct (sn_last_log_id m); [done|]. unfold key_leb. cbn. by destruct (li_term a) as [|?], (li_index a) as [|?].
Qed.

Lemma elem_of_snoc {A} (x y : A) l : x ∈ l ++ [y] -> x ∈ l \/ x = y.
Proof. rewrite elem_of_app, list_elem_of_singleton. done. Qed.

Definition latest_ok (applied : option LogId) (best : option (N * N * string)) (l : list SnapshotEntry) : Prop :=
  match best with
  | Some (k, n) => (exists e, e ∈ l /\ shard_entry_key shard_id e = Some (k, n)) /\ ahead applied k = false /\
      forall e k' n', e ∈ l -> shard_entry_key (M := M) shard_id e = Some (k', n') -> ahead applied k' = false ->
        key_leb k' k = true
  | None => forall e k' n', e ∈ l -> shard_entry_key (M := M) shard_id e = Some (k', n') -> ahead applied k' = true
  end.

Lemma latest_step_ok applied best l e :
  latest_ok applied best l -> latest_ok applied (latest_step shard_id applied best e) (l ++ [e]).
Proof.
  intros Hok. unfold latest_step. destruct (shard_entry_key shard_id e) as [[k n]|] eqn:Hk.
  2:{ destruct best as [[bk bn]|]; cbn in Hok |- *.
      - destruct Hok as ((e0 & Hin & He0) & Ha & Hmax). split_ands; [exists e0; split; [set_solver|done]|done|].
        intros e1 k' n' [Hin1| ->]%elem_of_snoc He1; [by eapply Hmax|congruence].
      - intros e1 k' n' [Hin1| ->]%elem_of_snoc He1; [by eapply Hok|congruence]. }
  assert (Hahead : ahead_of_applied applied e = ahead applied k).
  { unfold shard_entry_key in Hk. destruct (sy_parsed e) as [[h m]|] eqn:Hp; [|discriminate].
    destruct (negb _); [discriminate|]. injection Hk as <- _. by eapply ahead_of_applied_key. }
  rewrite Hahead. destruct (ahead applied k) eqn:Ha.
  - destruct best as [[bk bn]|]; cbn in Hok |- *.
    + destruct Hok as ((e0 & Hin & He0) & Hb & Hmax). split_ands; [exists e0; split; [set_solver|done]|done|].
      intros e1 k' n' [Hin1| ->]%elem_of_snoc He1; [by eapply Hmax|congruence].
    + intros e1 k' n' [Hin1| ->]%elem_of_snoc He1; [by eapply Hok|congruence].
  - destruct best as [[bk bn]|]; cbn in Hok; [destruct (key_leb k bk) eqn:Hle|]; cbn.
    + destruct Hok as ((e0 & Hin & He0) & Hb & Hmax). split_ands; [exists e0; split; [set_solver|done]|done|].
      intros e1 k' n' [Hin1| ->]%elem_of_snoc He1; [by eapply Hmax|].
      rewrite Hk in He1. injection He1 as <- <-. done.
    + destruct Hok as ((e0 & Hin & He0) & Hb & Hmax). split_ands; [exists e; split; [set_solver|done]|done|].
      intros e1 k' n' [Hin1| ->]%elem_of_snoc He1 Ha'.
      * apply (transitivity (R := entry_key_le) (x := (k', n')) (y := (bk, bn)) (z := (k, n)));
          [by eapply Hmax|by apply key_leb_total].
      * rewrite Hk in He1. injection He1 as <- <-. destruct (entry_key_le_total (k, n) (k, n)); done.
    + split_ands; [exists e; split; [set_solver|done]|done|].
      intros e1 k' n' [Hin1| ->]%elem_of_snoc He1 Ha'.
      * rewrite (Hok e1 k' n' Hin1 He1) in Ha'. discriminate.
      * rewrite Hk in He1. injection He1 as <- <-. destruct (entry_key_le_total (k, n) (k, n)); done.
Qed.

Lemma latest_loop_ok applied l : latest_ok applied (foldl (latest_step (M := M) shard_id applied) None l) l.
Proof.
  induction l as [|e l IH] using rev_ind; [intros e k' n' Hin; set_solver|].
  rewrite foldl_snoc. by apply latest_step_ok.
Qed.

Context (readdir : Dir -> list (string * Bytes)) (Hreaddir : forall d, readdir d ≡ₚ map_to_list d).

(** A valid snapshot of this shard, at a position. *)
Definition snapshot_at (d : Dir) (name : string) (key : N * N) : Prop :=
  exists file h m, d !! name = Some file /\ is_esnap name = true /\
    parse_header_bytes (M := M) file = Ok (h, m) /\ h_shard_id h = shard_id /\ key = log_key (sn_last_log_id m).

Lemma elem_of_entries d name key :
  (key, name) ∈ sorted_entries (M := M) readdir shard_id d <-> snapshot_at d name key.
Proof.
  unfold sorted_entries. rewrite merge_sort_Permutation, list_elem_of_omap. unfold list_entries. split.
  - intros (e & (nf & -> & Hin)%list_elem_of_fmap & Hk). destruct nf as [n f].
    apply list_elem_of_In, filter_In in Hin as [Hin%list_elem_of_In Hx].
    rewrite Hreaddir in Hin. apply elem_of_map_to_list in Hin. unfold shard_entry_key in Hk. cbn in Hk, Hx.
    destruct (parse_header_bytes f) as [[h m]|] eqn:Hp; [|discriminate].
    destruct (negb (h_shard_id h =? shard_id)%N) eqn:E; [discriminate|]. injection Hk as <- <-. bool_facts.
    by exists f, h, m.
  - intros (f & h & m & Hd & Hx & Hp & Hs & ->). eexists. split.
    + apply list_elem_of_fmap. exists (name, f). split; [done|]. apply list_elem_of_In, filter_In.
      split; [|done]. apply list_elem_of_In. rewrite Hreaddir. by apply elem_of_map_to_list.
    + unfold shard_entry_key. cbn. rewrite Hp, Hs, N.eqb_refl. done.
Qed.

Lemma snapshot_at_det d name k1 k2 : snapshot_at d name k1 -> snapshot_at d name k2 -> k1 = k2.
Proof.
  intros (f1 & h1 & m1 & D1 & _ & P1 & _ & ->) (f2 & h2 & m2 & D2 & _ & P2 & _ & ->).
  assert (f1 = f2) as -> by congruence. congruence.
Qed.

Lemma sorted_entries_sorted d : StronglySorted entry_key_le (sorted_entries (M := M) readdir shard_id d).
Proof. apply (StronglySorted_merge_sort entry_key_le). Qed.

Lemma final_path_esnap last : is_esnap (final_path shard_id last) = true.
Proof.
  unfold is_esnap, final_path. rewrite !as_bytes_app.
  set (a := as_bytes (pad 8 shard_id)). set (b := as_bytes (pad 20 _)). set (c := as_bytes (pad 20 _)).
  rewrite !app_assoc. set (pre := _ ++ c). rewrite length_app.
  change (length (as_bytes ".esnap")) with 6. rewrite Nat.add_sub, drop_app_length, bool_decide_eq_true_2 by done.
  rewrite andb_true_r. apply Nat.ltb_lt. unfold pre. rewrite !length_app. cbn. lia.
Qed.

Lemma entry_snapshot_at d e key name :
  e ∈ list_entries (M := M) readdir d -> shard_entry_key shard_id e = Some (key, name) -> snapshot_at d name key.
Proof.
  intros Hin Hk. apply elem_of_entries. unfold sorted_entries. rewrite merge_sort_Permutation, list_elem_of_omap. eauto.
Qed.

Lemma snapshot_at_entry d key name :
  snapshot_at d name key ->
  exists e, e ∈ list_entries (M := M) readdir d /\ shard_entry_key shard_id e = Some (key, name).
Proof.
  intros Hs%elem_of_entries. unfold sorted_entries in Hs. rewrite merge_sort_Permutation, list_elem_of_omap in Hs. done.
Qed.

End Directory.

(** ** Properties *)

Section Properties.
Context {M : Type} `{JsonLaws (SnapshotMeta M)} `{FrameLaws} `{TreeLaws} `{SmCodecLaws M}.
Context (readdir : Dir -> list (string * Bytes)).
Context (shard_id : N) (Hshard : (shard_id <= u64_max)%N).

(** C5: a snapshot carries the whole state of a shard. If a node whose tree
    holds a shard state and whose cache is its applied state builds a snapshot,
    and another node installs the file it handed out under the meta it handed
    out, then the other node's tree holds the same shard state and applied
    state and its cache equals the first node's, whatever it held before; no
    other shard and no Raft data of it has changed. *)
Theorem snapshot_transfers_state (c : Compression) (keep : N) (t1 t2 t2' : tree)
  (cache1 cache2 : SmCache (M := M)) (d d' : Dir) (meta : SnapshotMeta M) (file : Bytes)
  (s : shard)
  (Hrep : ShardRep shard_id (tree_view t1) s
            (Some (mkApplied (cache_last_applied cache1) (cache_membership cache1))))
  (Hkeys : keys_wf (tree_view t2))
  (Hfit : forall k v, tree_view t1 !! k = Some v -> record_fits (k, v))
  (Hcount : (payload_len_for (map_to_list (tree_view t1)) <= u64_max)%N)
  (Hmeta : forall b, json_encode meta = Ok b -> (len b <= MAX_META_LEN)%N)
  (Hbuild : build_snapshot readdir shard_id c keep t1 cache1 d = Ok (d', meta, file))
  (Hinst : install_snapshot shard_id t2 meta file = Ok (t2', cache2)) :
  ShardRep shard_id (tree_view t2') s
    (Some (mkApplied (cache_last_applied cache1) (cache_membership cache1))) /\
  cache2 = cache1 /\
  (forall k, key_wf k -> key_tag k <> TAG_SM \/ key_shard k <> shard_id ->
     tree_view t2' !! key_bytes k = tree_view t2 !! key_bytes k).
Proof.
  apply build_snapshot_file in Hbuild as (entries & (e & He & Hent)%collect_sm_entries_view & Hm & Hf & _).
  apply bind_Ok_inv in Hf as (mb & Hmb%map_err_Ok & Hf). specialize (Hmeta _ Hmb).
  apply bind_Ok_inv in Hf as (hb & Hhb%map_err_Ok & Hf). apply bind_Ok_inv in Hf as (body & Hbody%map_err_Ok & [= <-]).
  destruct (entries_fit (tree_view t1) (sm_prefix shard_id) e) as (Hpl & Hcnt & Hall); [done|done|]. rewrite <- Hent in *.
  assert (Hh : header_wf (mkHeader SNAP_VERSION c shard_id (len mb) (payload_len_for entries))) by (by split_ands).
  destruct (install_snapshot_spec shard_id t2 t2' meta meta _ hb body entries cache2 Hh eq_refl Hall Hcnt Hhb Hbody Hinst)
    as (e' & b & He' & Hb & -> & Hv).
  assert (e' = e) as -> by congruence. rewrite Hv, Hent. rewrite Hm in Hb |- *.
  cbn [sn_last_log_id sn_last_membership] in *.
  destruct (transfer_rep shard_id Hshard (tree_view t1) (tree_view t2) e s _ None _ b He Hrep Hkeys Hb) as [Hr Hfr].
  split_ands; [exact Hr|by destruct cache1|exact Hfr].
Qed.

(** What follows the last record is not looked at: any bytes appended to an
    uncompressed snapshot file are ignored, the install has the same result.
    (docs/snapshot.md says that trailing bytes are verified; they are not, nor
    is the shard id of the header.) *)
Theorem install_ignores_trailing_bytes (t t' : tree) (meta : SnapshotMeta M) (file junk : Bytes)
  (cache : SmCache (M := M)) (h : SnapshotHeader) (m : SnapshotMeta M) (r : Reader)
  (Hhead : read_header (file_reader file) = Ok (h, m, r)) (Hc : h_compression h = CompressionNone)
  (Hinst : install_snapshot shard_id t meta file = Ok (t', cache)) :
  install_snapshot shard_id t meta (file ++ junk) = Ok (t', cache).
Proof.
  clear Hshard. apply read_header_inv in Hhead as Hinv. destruct Hinv as [Hlen Hext].
  specialize (Hext junk None). unfold extend in Hext. cbn [rd_bytes file_reader] in Hext, Hlen.
  unfold install_snapshot, file_reader in *. cbn [rd_bytes] in Hext, Hlen. rewrite Hext. rewrite Hhead in Hinst.
  cbn [sm_read_err map_err] in *. rewrite bind_Ok in Hinst |- *. destruct (negb _); [discriminate|].
  rewrite Hc in *. cbn [compression_reader] in *.
  rewrite drop_app_le by (unfold len, HEADER_LEN in Hlen; lia).
  destruct (map_err _ (sm_range shard_id)) as [[a b]|]; [|discriminate]. rewrite bind_Ok in Hinst |- *.
  destruct (map_err _ (collect_keys t a b)) as [old|]; [|discriminate]. rewrite bind_Ok in Hinst |- *.
  destruct (map_err _ (tree_begin t)) as [x|]; [|discriminate]. rewrite bind_Ok in Hinst |- *.
  destruct (txn_each _ x old) as [x1|]; [|discriminate]. rewrite bind_Ok in Hinst |- *.
  apply bind_Ok_inv in Hinst as ([x2 n] & Hx2%map_err_Ok & Hinst).
  apply for_each_record_inv in Hx2 as [_ Hx2]. specialize (Hx2 junk None). unfold extend in Hx2. cbn [rd_bytes] in Hx2.
  rewrite Hx2. cbn [sm_read_err map_err]. rewrite bind_Ok. exact Hinst.
Qed.

End Properties.

Section DirectoryProperties.
Context {M : Type} `{JsonLaws (SnapshotMeta M)} `{FrameLaws} `{TreeLaws} `{SmCodecLaws M}.
Context (readdir : Dir -> list (string * Bytes)) (Hreaddir : forall d, readdir d ≡ₚ map_to_list d).
Context (shard_id : N).

(** The current snapshot is the right one: [latest] returns a valid file of
    its own shard that is not ahead of the applied position, and no such file is
    newer; it returns nothing only if there is no such file. Files of other
    shards and corrupt files are never chosen. *)
Theorem latest_is_newest (applied : option LogId) (d : Dir) :
  match latest (M := M) readdir shard_id applied d with
  | Some name => exists key, snapshot_at (M := M) shard_id d name key /\ ahead applied key = false /\
      forall name' key', snapshot_at (M := M) shard_id d name' key' -> ahead applied key' = false ->
        key_leb key' key = true
  | None => forall name key, snapshot_at (M := M) shard_id d name key -> ahead applied key = true
  end.
Proof.
  unfold latest. pose proof (latest_loop_ok (M := M) shard_id applied (list_entries readdir d)) as Hok.
  destruct (foldl _ None _) as [[key name]|]; cbn in Hok |- *.
  - destruct Hok as ((e & Hin & He) & Ha & Hmax). exists key. split_ands; [by eapply entry_snapshot_at|done|].
    intros name' key' (e' & Hin' & He')%(snapshot_at_entry shard_id readdir Hreaddir). by eapply Hmax.
  - intros name key (e & Hin & He)%(snapshot_at_entry shard_id readdir Hreaddir). by eapply Hok.
Qed.

(** Retention removes only what it may: the files it deletes are valid
    snapshots of its own shard, as many as there are beyond [keep]; none of
    them is newer than one it keeps; every other file is untouched. *)
Theorem retain_keeps_newest (keep : N) (d d' : Dir) (removed : list string)
  (Hret : retain (M := M) readdir shard_id keep d = Ok (d', removed)) :
  length removed = length (sorted_entries (M := M) readdir shard_id d) - N.to_nat keep /\
  (forall name, name ∉ removed -> d' !! name = d !! name) /\
  (forall name, name ∈ removed -> d' !! name = None /\ exists key, snapshot_at (M := M) shard_id d name key) /\
  (forall n1 k1 n2 k2, n1 ∈ removed -> snapshot_at (M := M) shard_id d n1 k1 ->
     snapshot_at (M := M) shard_id d' n2 k2 -> key_leb k1 k2 = true).
Proof.
  unfold retain in Hret. destruct (keep =? 0)%N; [discriminate|]. injection Hret as <- <-.
  set (l := sorted_entries readdir shard_id d). set (n := length l - N.to_nat keep).
  assert (Hin : forall name, name ∈ map snd (take n l) <-> exists i key, l !! i = Some (key, name) /\ i < n).
  { intros name. rewrite list_elem_of_fmap. split.
    - intros ([key x] & -> & (i & Hi & Hlt)%elem_of_take). by exists i, key.
    - intros (i & key & Hi & Hlt). exists (key, name). split; [done|]. apply elem_of_take. eauto. }
  split_ands.
  - rewrite length_map, length_take. lia.
  - intros name Hn. rewrite delete_all_lookup. by rewrite bool_decide_eq_false_2.
  - intros name Hn. rewrite delete_all_lookup, bool_decide_eq_true_2 by done. split; [done|].
    apply Hin in Hn as (i & key & Hi & _). exists key. apply (elem_of_entries shard_id readdir Hreaddir).
    by eapply list_elem_of_lookup_2.
  - intros n1 k1 n2 k2 (i & k1' & Hi & Hlt)%Hin H1' H2'.
    assert (k1' = k1) as ->.
    { eapply (snapshot_at_det (M := M)); [|exact H1']. apply (elem_of_entries shard_id readdir Hreaddir).
      by eapply list_elem_of_lookup_2. }
    destruct H2' as (f & h & m & Hd & Hx & Hp & Hs & ->). rewrite delete_all_lookup in Hd.
    case_bool_decide as Hn2; [discriminate|].
    assert (H2d : snapshot_at (M := M) shard_id d n2 (log_key (sn_last_log_id m))) by (by exists f, h, m).
    apply (elem_of_entries shard_id readdir Hreaddir), list_elem_of_lookup in H2d as [j Hj]. fold l in Hj.
    assert (Hij : i < j). { destruct (decide (j < n)) as [Hjn|]; [|lia]. exfalso. apply Hn2, Hin. eauto. }
    exact (StronglySorted_lookup _ _ i j _ _ (sorted_entries_sorted shard_id readdir d) Hi Hj Hij).
Qed.

(** A snapshot built behind residual newer files is lost. If the directory
    already holds [keep] valid snapshots of the shard that are ahead of the
    applied position (left by a restore or a crash, which [latest] foresees),
    then [build_snapshot] writes the new file, deletes it again through
    retention, which does not foresee them, and fails to open it. *)
Theorem build_fails_behind_residue (c : Compression) (keep : N) (t : tree) (cache : SmCache (M := M))
  (d : Dir) (entries : list Record_) (file : Bytes) (residue : list string) :
  let last := cache_last_applied cache in
  let meta := mkSnapshotMeta last (cache_membership cache) (snapshot_id_for shard_id last) in
  forall (Hent : collect_sm_entries shard_id t = Ok entries)
    (Hfile : snapshot_file shard_id c meta entries = Ok file)
    (Hshard : (shard_id <= u64_max)%N) (Hpl : (payload_len_for entries <= u64_max)%N)
    (Hmeta : forall b, json_encode meta = Ok b -> (len b <= MAX_META_LEN)%N)
    (Hkeep : keep <> 0%N) (Hnd : NoDup residue) (Hlen : length residue = N.to_nat keep)
    (Hnew : final_path shard_id last ∉ residue)
    (Hres : forall n, n ∈ residue -> exists key, snapshot_at (M := M) shard_id d n key /\
              key_leb key (log_key last) = false),
  build_snapshot readdir shard_id c keep t cache d =
    Err (ErrWriteStateMachine "No such file or directory (os error 2)").
Proof.
  intros last meta Hent Hfile Hshard Hpl Hmeta Hkeep Hnd Hlen Hnew Hres.
  unfold build_snapshot. rewrite Hent. cbn [sm_read_err map_err]. rewrite bind_Ok. fold last meta.
  rewrite Hfile, bind_Ok. set (path := final_path shard_id last). set (d1 := <[path := file]> d).
  unfold retain. rewrite (proj2 (N.eqb_neq _ _) Hkeep). cbn [map_err]. rewrite bind_Ok.
  set (l := sorted_entries readdir shard_id d1).
  assert (Hpath : snapshot_at (M := M) shard_id d1 path (log_key last)).
  { destruct (snapshot_file_parses shard_id Hshard c meta entries file Hfile Hpl Hmeta) as (h & Hp & Hs).
    exists file, h, meta. split_ands; try done; [apply lookup_insert_eq|apply final_path_esnap]. }
  apply (elem_of_entries shard_id readdir Hreaddir), list_elem_of_lookup in Hpath as [i Hi]. fold l in Hi.
  assert (Hcount : length residue <= length l - S i).
  { transitivity (length (map snd (drop (S i) l))); [|by rewrite length_map, length_drop].
    apply submseteq_length, NoDup_submseteq; [done|]. intros n Hn.
    destruct (Hres n Hn) as (key & (f & h & m & Hd & Hrest) & Hgt).
    assert (Hat : snapshot_at (M := M) shard_id d1 n key).
    { exists f, h, m. split; [|done]. unfold d1. rewrite lookup_insert_ne; [done|]. intros <-. done. }
    apply (elem_of_entries shard_id readdir Hreaddir), list_elem_of_lookup in Hat as [j Hj]. fold l in Hj.
    apply list_elem_of_fmap. exists (key, n). split; [done|]. apply list_elem_of_lookup. exists (j - S i).
    rewrite lookup_drop. replace (S i + (j - S i)) with j; [done|].
    destruct (decide (j < i)) as [Hlt|].
    - pose proof (StronglySorted_lookup _ _ j i _ _ (sorted_entries_sorted shard_id readdir d1) Hj Hi Hlt) as Hle.
      unfold entry_key_le in Hle. cbn in Hle. congruence.
    - destruct (decide (j = i)) as [->|]; [|lia]. rewrite Hi in Hj. injection Hj as _ <-. done. }
  rewrite delete_all_lookup, bool_decide_eq_true_2; [done|].
  apply list_elem_of_fmap. exists (log_key last, path). split; [done|]. apply elem_of_take. exists i. split; [done|].
  apply lookup_lt_Some in Hi. lia.
Qed.

End DirectoryProperties.

(** ** Witnesses *)

#[export] Instance record_fits_dec kv : Decision (record_fits kv).
Proof. unfold record_fits. apply _. Defined.

(** The node of [Reads.v] after its log, and an empty one. *)
Definition demo_leader_cache : SmCache (M := N) := mkCache (Some (mkLogId 1 1 4)) (mkStored None 0%N).

Definition demo_leader_meta : SnapshotMeta N :=
  mkSnapshotMeta (Some (mkLogId 1 1 4)) (mkStored None 0%N) "1-1-4".

Definition demo_build (c : Compression) (keep : N) (d : Dir) : result StorageError (Dir * SnapshotMeta N * Bytes) :=
  @build_snapshot N demo_json demo_frames mem_tree map_to_list 1 c keep demo_tree demo_leader_cache d.

Definition demo_install (file : Bytes) : result StorageError (gmap Bytes Bytes * SmCache (M := N)) :=
  @install_snapshot N demo_json demo_frames mem_tree demo_codecs 1 (∅ : gmap Bytes Bytes) demo_leader_meta file.

Lemma demo_leader_rep :
  ShardRep (M := N) (H := demo_codecs) 1 demo_tree demo_document_shard
    (Some (mkApplied (cache_last_applied demo_leader_cache) (cache_membership demo_leader_cache))).
Proof.
  destruct demo_document_apply_ok as [out Hout].
  assert (demo_tree = ap_tree out) as -> by (unfold demo_tree; by rewrite Hout).
  refine (proj1 (@sm_apply_refines N demo_codecs demo_codec_laws mem_tree mem_tree_laws demo_xxh3 1
    ltac:(lia) (∅ : gmap Bytes Bytes) demo_cache shard_empty None demo_document_log out
    (ShardRep_empty 1) shard_empty_wf demo_document_log_wf _ Hout)).
  apply (bool_decide_unpack _). vm_compute. exact I.
Qed.

Lemma demo_build_install c :
  exists d' file t' cache', demo_build c 3 ∅ = Ok (d', demo_leader_meta, file) /\
    demo_install file = Ok (t', cache').
Proof.
  assert (Hb : match demo_build c 3 ∅ with
               | Ok (d', m, f) => bool_decide (m = demo_leader_meta) && is_ok (demo_install f)
               | Err _ => false
               end = true) by (destruct c; vm_compute; reflexivity).
  destruct (demo_build c 3 ∅) as [[[d' m] f]|]; [|discriminate].
  apply andb_true_iff in Hb as [->%bool_decide_eq_true Hb].
  destruct (demo_install f) as [[t' cache']|] eqn:Hi; [|discriminate]. by exists d', f, t', cache'.
Qed.

Lemma demo_meta_small b : @json_encode _ demo_json demo_leader_meta = Ok b -> (len b <= MAX_META_LEN)%N.
Proof. intros [= <-]. apply (bool_decide_unpack _). vm_compute. exact I. Qed.

Lemma demo_empty_keys : keys_wf (∅ : gmap Bytes Bytes).
Proof. intros raw. rewrite lookup_empty. by intros [? ?]. Qed.

Lemma demo_tree_fits k v : demo_tree !! k = Some v -> record_fits (k, v).
Proof.
  assert (Hb : forallb (fun kv => bool_decide (record_fits kv)) (map_to_list demo_tree) = true)
    by (vm_compute; reflexivity).
  intros Hk. apply (bool_decide_eq_true _). apply (proj1 (forallb_True _ _) Hb). by apply elem_of_map_to_list.
Qed.

Lemma demo_tree_small : (payload_len_for (map_to_list demo_tree) <= u64_max)%N.
Proof. apply N.leb_le. vm_compute. reflexivity. Qed.

Lemma snapshot_transfers_state_witness :
  exists d' file t' cache', demo_build Zstd 3 ∅ = Ok (d', demo_leader_meta, file) /\
    demo_install file = Ok (t', cache') /\ cache' = demo_leader_cache /\
    ShardRep (M := N) (H := demo_codecs) 1 t' demo_document_shard
      (Some (mkApplied (cache_last_applied demo_leader_cache) (cache_membership demo_leader_cache))).
Proof.
  destruct (demo_build_install Zstd) as (d' & file & t' & cache' & Hb & Hi). exists d', file, t', cache'.
  destruct (@snapshot_transfers_state N demo_json demo_json_laws demo_frames demo_frame_laws mem_tree mem_tree_laws
    demo_codecs map_to_list 1 ltac:(lia) Zstd 3 demo_tree (∅ : gmap Bytes Bytes) t'
    demo_leader_cache cache' ∅ d' demo_leader_meta file demo_document_shard demo_leader_rep
    demo_empty_keys
    demo_tree_fits demo_tree_small
    demo_meta_small Hb Hi) as (Hr & Hc & _).
  split; [exact Hb|]. split; [exact Hi|]. split; [exact Hc|exact Hr].
Defined.

Lemma install_ignores_trailing_bytes_witness :
  exists file t' cache', demo_install file = Ok (t', cache') /\ demo_install (file ++ [x2a]) = Ok (t', cache').
Proof.
  destruct (demo_build_install CompressionNone) as (d' & file & t' & cache' & Hb & Hi).
  assert (Hh : match demo_build CompressionNone 3 ∅ with
               | Ok (_, _, f) => match @read_header N demo_json (file_reader f) with
                                 | Ok (h, _, _) => bool_decide (h_compression h = CompressionNone)
                                 | Err _ => false end
               | Err _ => false end = true) by (vm_compute; reflexivity).
  rewrite Hb in Hh. destruct (@read_header N demo_json (file_reader file)) as [[[h m] r]|] eqn:Hr; [|discriminate].
  apply bool_decide_eq_true in Hh. exists file, t', cache'. split; [exact Hi|].
  exact (@install_ignores_trailing_bytes N demo_json demo_frames mem_tree demo_codecs 1
    (∅ : gmap Bytes Bytes) t' demo_leader_meta file [x2a] cache' h m r Hr Hh Hi).
Defined.

(** Three snapshots of the shard at growing positions. *)
Definition demo_snapshot (term index : N) : string * Bytes :=
  let last := Some (mkLogId term 1 index) in
  (final_path 1 last,
   match @snapshot_file N demo_json demo_frames 1 CompressionNone
           (mkSnapshotMeta last (mkStored None 0%N) (snapshot_id_for 1 last)) [] with
   | Ok f => f | Err _ => [] end).

Definition demo_dir : Dir := list_to_map [demo_snapshot 1 9; demo_snapshot 2 5; demo_snapshot 2 7].

Lemma retain_keeps_newest_witness :
  exists d' removed, @retain N demo_json map_to_list 1 2 demo_dir = Ok (d', removed) /\ length removed = 1.
Proof.
  destruct (@retain N demo_json map_to_list 1 2 demo_dir) as [[d' removed]|] eqn:Hr; [|discriminate].
  exists d', removed. split; [reflexivity|].
  refine (eq_trans (proj1 (@retain_keeps_newest N demo_json map_to_list (fun d => reflexivity _) 1 2 demo_dir d' removed Hr)) _).
  vm_compute. reflexivity.
Defined.

(** Two residual files ahead of the position the leader has applied. *)
Definition demo_residue_dir : Dir := list_to_map [demo_snapshot 1 9; demo_snapshot 2 5].

Definition demo_residue : list string := [(demo_snapshot 1 9).1; (demo_snapshot 2 5).1].

Lemma demo_residue_ahead n : n ∈ demo_residue ->
  exists key, snapshot_at (M := N) (H := demo_json) 1 demo_residue_dir n key /\
    key_leb key (log_key (cache_last_applied demo_leader_cache)) = false.
Proof.
  intros [-> | [->|[]%not_elem_of_nil]%elem_of_cons]%elem_of_cons; eexists; (split; [|shelve]).
  - eexists _, _, _. split_ands; [vm_compute; reflexivity|vm_compute; reflexivity|vm_compute; reflexivity|reflexivity|reflexivity].
  - eexists _, _, _. split_ands; [vm_compute; reflexivity|vm_compute; reflexivity|vm_compute; reflexivity|reflexivity|reflexivity].
  Unshelve. all: reflexivity.
Qed.

Lemma build_fails_behind_residue_witness :
  demo_build CompressionNone 2 demo_residue_dir =
    Err (ErrWriteStateMachine "No such file or directory (os error 2)").
Proof.
  assert (He : exists entries file, @collect_sm_entries mem_tree 1 demo_tree = Ok entries /\
    (payload_len_for entries <= u64_max)%N /\
    @snapshot_file N demo_json demo_frames 1 CompressionNone demo_leader_meta entries = Ok file).
  { assert (Hb : match @collect_sm_entries mem_tree 1 demo_tree with
                 | Ok entries => (payload_len_for entries <=? u64_max)%N &&
                     is_ok (@snapshot_file N demo_json demo_frames 1 CompressionNone demo_leader_meta entries)
                 | Err _ => false end = true) by (vm_compute; reflexivity).
    destruct (@collect_sm_entries mem_tree 1 demo_tree) as [entries|]; [|discriminate].
    apply andb_true_iff in Hb as [Hpl%N.leb_le Hb].
    destruct (@snapshot_file N demo_json demo_frames 1 CompressionNone demo_leader_meta entries) as [file|] eqn:Hf;
      [|discriminate]. by exists entries, file. }
  destruct He as (entries & file & Hent & Hpl & Hfile).
  refine (@build_fails_behind_residue N demo_json demo_json_laws demo_frames mem_tree map_to_list
    (fun d => reflexivity _) 1 CompressionNone 2 demo_tree demo_leader_cache demo_residue_dir entries file
    demo_residue Hent Hfile ltac:(lia) Hpl demo_meta_small ltac:(discriminate) _ eq_refl _ demo_residue_ahead).
  - apply (bool_decide_unpack _). vm_compute. exact I.
  - apply (bool_decide_unpack _). vm_compute. exact I.
Defined.

(** With position (2, 6) applied, the file of (2, 7) is ahead and (2, 5) is current. *)
Lemma latest_is_newest_witness :
  exists key, snapshot_at (M := N) (H := demo_json) 1 demo_dir (demo_snapshot 2 5).1 key /\
    ahead (Some (mkLogId 2 1 6)) key = false.
Proof.
  assert (Hl : @latest N demo_json map_to_list 1 (Some (mkLogId 2 1 6)) demo_dir = Some (demo_snapshot 2 5).1)
    by (vm_compute; reflexivity).
  pose proof (@latest_is_newest N demo_json map_to_list (fun d => reflexivity _) 1 (Some (mkLogId 2 1 6)) demo_dir) as Hn.
  rewrite Hl in Hn. destruct Hn as (key & Hat & Ha & _). exists key. split; [exact Hat|exact Ha].
Defined.
