(* ===== verification/Restore.v ===== *)
(** * es-storage: restoring a shard from a snapshot file

    [restore] of [es-storage/src/snapshot.rs], the offline operation behind
    [esctl snapshot restore]: it removes the other snapshot files of the shard,
    replaces the shard's state by that of the file in one transaction, moves the
    log's marks to the snapshot point, and makes the file the current snapshot.

    A source file lies in the snapshot directory, under a name, or elsewhere.
    The directory has no links, so two paths name the same file only if they are
    equal. As in [Install.v], file-system calls on files that exist succeed. *)

From S2P Require Import Prelude.
From S2P Require Import Bytes.
From S2P Require Import Core.
From S2P Require Import Aggregate.
From S2P Require Import Catalog.
From S2P Require Import GroupCatalog.
From S2P Require Import GroupPartition.
From S2P Require Import Keys.
From S2P Require Import Store.
From S2P Require Import RaftType.
From S2P Require Import LogStore.
From S2P Require Import StateMachine.
From S2P Require Import ShardSpec.
From S2P Require Import Codecs.
From S2P Require Import Apply.
From S2P Require Import Reads.
From S2P Require Import Snapshot.
From S2P Require Import Install.

(** The file given to [restore]; [None] when there is no such file. *)
Inductive SnapshotSource : Type :=
| InDirectory (name : string)
| Elsewhere (content : option Bytes).

#[export] Instance SnapshotSource_eq_dec : EqDecision SnapshotSource.
Proof. solve_decision. Defined.

Definition source_file (d : Dir) (src : SnapshotSource) : option Bytes :=
  match src with InDirectory name => d !! name | Elsewhere content => content end.

Record RestoreReport : Type := mkReport {
  rp_shard_id : N;
  rp_term : N;
  rp_index : N;
  rp_events : N;
  rp_snapshot_file : string
}.

Definition raft_prefix (s : N) : Bytes := [TAG_RAFT] ++ be_bytes 8 s.

Section Restore.
Context {M : Type} `{Json (SnapshotMeta M)} `{Frames} `{Tree} `{SmCodecs M} `{!Codec (option LogId)}.
Context (readdir : Dir -> list (string * Bytes)).
Context (shard_id : N).

(** Opening and checking the file. *)
Definition restore_open (d : Dir) (src : SnapshotSource) :
    Result (SnapshotHeader * SnapshotMeta M * Reader * Bytes) :=
  file ← ok_or (Storage "打开快照文件失败: No such file or directory (os error 2)") (source_file d src);
  '(header, meta, _) ← map_err (fun e => Storage ("快照文件头部校验失败: " +:+ e)) (read_header (file_reader file));
  if negb (h_shard_id header =? shard_id)%N
  then Err (InvalidInput ("快照属于分片 " +:+ pretty (h_shard_id header) +:+ "，不能恢复到分片 " +:+ pretty shard_id))
  else Ok (header, meta,
           compression_reader (h_compression header) (drop (N.to_nat (32 + h_meta_len header)) file), file).

(** The snapshot files to remove: those of this shard, except the source. *)
Definition obsolete (src : SnapshotSource) (e : SnapshotEntry (M := M)) : bool :=
  match sy_parsed e with
  | Some (header, _) => (h_shard_id header =? shard_id)%N && negb (bool_decide (src = InDirectory (sy_path e)))
  | None => false
  end.

Definition remove_obsolete (src : SnapshotSource) (d : Dir) : Dir :=
  foldl (fun d p => delete p d) d (map sy_path (List.filter (obsolete src) (list_entries readdir d))).

(** The closure [collect_keys]. *)
Definition keys_in (x : txn) (start end_ : Bytes) : Result (list Bytes) :=
  if bytes_leb end_ start then Ok []
  else l ← map_err Storage (txn_scan x start end_); Ok (map fst l).

(** The callback of the record loop: it counts the events. *)
Definition restore_record (s : txn * N) (k v : Bytes) : result string (txn * N) :=
  let events := if is_aggregate_event_key shard_id k then (s.2 + 1)%N else s.2 in
  x ← map_err (fun e => "set 失败: " +:+ e) (txn_set s.1 k v);
  Ok (x, events).

(** The log's marks, for a snapshot that is not empty. *)
Definition set_log_marks (x : txn) (last_log_id : option LogId) : Result txn :=
  match last_log_id with
  | None => Ok x
  | Some id =>
      val ← map_err (fun e => Serde ("last_purged 序列化失败: " +:+ e)) (encode (Some id));
      x ← storage_err "写 last_purged" (txn_set x (raft_last_purged shard_id) val);
      storage_err "写 committed" (txn_set x (raft_committed shard_id) val)
  end.

(** The transaction; the tree after it and the number of events. *)
Definition restore_txn (t : tree) (header : SnapshotHeader) (meta : SnapshotMeta M) (reader : Reader) :
    Result (tree * N) :=
  let raft_start := [x01] ++ be_bytes 8 shard_id in
  raft_end ← ok_or (Internal "raft 区前缀无后继") (successor raft_start);
  let sm_start := [x02] ++ be_bytes 8 shard_id in
  sm_end ← ok_or (Internal "状态机区前缀无后继") (successor sm_start);
  x ← storage_err "begin" (tree_begin t);
  raft_keys ← keys_in x raft_start raft_end;
  sm_keys ← keys_in x sm_start sm_end;
  let old_keys := List.filter (fun k => negb (bool_decide (k = raft_vote shard_id))) (raft_keys ++ sm_keys) in
  x ← txn_each (fun x k => storage_err "delete" (txn_delete x k)) x old_keys;
  '((x, events), read_bytes) ← map_err (fun e => Storage ("读取快照记录失败: " +:+ e))
                                 (for_each_record restore_record (x, 0%N) reader);
  if negb (read_bytes =? h_payload_len header)%N
  then Err (Storage ("快照 payload 长度不符：实读 " +:+ pretty read_bytes +:+ " vs 声明 " +:+
              pretty (h_payload_len header)))
  else
    bytes ← map_err (fun e => Serde ("applied 状态序列化失败: " +:+ e))
              (encode (mkApplied (sn_last_log_id meta) (sn_last_membership meta)));
    x ← storage_err "写 applied" (txn_set x (sm_applied_state shard_id) bytes);
    x ← set_log_marks x (sn_last_log_id meta);
    t' ← storage_err "commit" (txn_commit t x);
    Ok (t', events).

(** [restore]: the tree and the snapshot directory after it, and its result. *)
Definition restore (t : tree) (d : Dir) (src : SnapshotSource) : tree * Dir * Result RestoreReport :=
  match restore_open d src with
  | Err e => (t, d, Err e)
  | Ok (header, meta, reader, file) =>
      let path := final_path shard_id (sn_last_log_id meta) in
      let same_file := bool_decide (src = InDirectory path) in
      let d := remove_obsolete src d in
      match restore_txn t header meta reader with
      | Err e => (t, d, Err e)
      | Ok (t', events) =>
          (t', if same_file then d else <[path := file]> d,
           Ok (mkReport shard_id (log_key (sn_last_log_id meta)).1 (log_key (sn_last_log_id meta)).2 events path))
      end
  end.

End Restore.

(** ** Lemmas: the transaction *)

Section Transaction.
Context {M V : Type} `{JsonLaws (SnapshotMeta M)} `{FrameLaws} `{TreeLaws} `{SmCodecLaws M}.
Context `{!Codec (Entry M)} `{CodecLaws (option LogId)} `{!Codec V}.
Context (shard_id : N) (Hshard : (shard_id <= u64_max)%N).

Lemma region_key tag e k :
  successor ([tag] ++ be_bytes 8 shard_id) = Some e -> key_wf k ->
  in_key_range ([tag] ++ be_bytes 8 shard_id) e (key_bytes k) = true <-> key_tag k = tag /\ key_shard k = shard_id.
Proof.
  intros He Hk. rewrite <- (tag_prefix_key tag shard_id k Hshard Hk).
  pose proof (successor_range ([tag] ++ be_bytes 8 shard_id) (key_bytes k)) as Hr. rewrite He in Hr.
  unfold in_key_range. by rewrite andb_true_iff.
Qed.

Lemma keys_in_view t x s e l :
  tree_begin t = Ok x -> keys_in x s e = Ok l -> l = (range_entries (tree_view t) s e).*1.
Proof.
  intros Hx. unfold keys_in. destruct (bytes_leb e s) eqn:Hle.
  - intros [= <-]. by rewrite range_entries_empty.
  - intros (l' & Hl'%map_err_Ok & [= <-])%bind_Ok_inv. f_equal. eapply txn_scan_law; [exact Hx| |exact Hl'].
    apply bytes_lt_nle. unfold bytes_le. congruence.
Qed.

Lemma elem_of_range_keys v s e k :
  k ∈ (range_entries v s e).*1 <-> is_Some (v !! k) /\ in_key_range s e k = true.
Proof.
  unfold in_key_range. rewrite list_elem_of_fmap, andb_true_iff. split.
  - intros ([k' b] & -> & (Hv & Hs & He)%elem_of_range_entries). cbn. eauto.
  - intros ([b Hb] & Hs & He). exists (k, b). split; [done|]. by apply elem_of_range_entries.
Qed.

(** The keys the transaction deletes. *)
Definition old_keys (v : gmap Bytes Bytes) (raft_end sm_end : Bytes) : list Bytes :=
  List.filter (fun k => negb (bool_decide (k = raft_vote shard_id)))
    ((range_entries v (raft_prefix shard_id) raft_end).*1 ++ (range_entries v (sm_prefix shard_id) sm_end).*1).

Definition restored (v1 v2 : gmap Bytes Bytes) (raft_end sm_end : Bytes) : gmap Bytes Bytes :=
  puts (apply_txn v2 (map TxnDelete (old_keys v2 raft_end sm_end))) (range_entries v1 (sm_prefix shard_id) sm_end).

Context (raft_end sm_end : Bytes).
Context (Hraft : successor (raft_prefix shard_id) = Some raft_end).
Context (Hsm : successor (sm_prefix shard_id) = Some sm_end).

Lemma elem_of_old_keys v k : key_wf k ->
  key_bytes k ∈ old_keys v raft_end sm_end <->
  is_Some (v !! key_bytes k) /\ key_shard k = shard_id /\ k <> KVote shard_id /\
  (key_tag k = TAG_RAFT \/ key_tag k = TAG_SM).
Proof.
  intros Hk. unfold old_keys. rewrite list_elem_of_In, filter_In, <- list_elem_of_In, elem_of_app, !elem_of_range_keys.
  unfold raft_prefix, sm_prefix in *. rewrite (region_key _ _ k Hraft Hk), (region_key _ _ k Hsm Hk).
  rewrite negb_true_iff, bool_decide_eq_false. change (raft_vote shard_id) with (key_bytes (KVote shard_id)).
  assert (Hv : key_bytes k <> key_bytes (KVote shard_id) <-> k <> KVote shard_id).
  { split; [congruence|]. by apply key_bytes_ne. }
  rewrite Hv. tauto.
Qed.

Lemma restored_lookup v1 v2 k : key_wf k ->
  restored v1 v2 raft_end sm_end !! key_bytes k =
  if bool_decide (key_shard k = shard_id /\ key_tag k = TAG_SM) then v1 !! key_bytes k
  else if bool_decide (key_shard k = shard_id /\ key_tag k = TAG_RAFT /\ k <> KVote shard_id) then None
  else v2 !! key_bytes k.
Proof.
  intros Hk. unfold restored. case_bool_decide as Hin.
  - destruct Hin as [Hs Ht].
    assert (Hr : in_key_range (sm_prefix shard_id) sm_end (key_bytes k) = true) by (by apply region_key).
    destruct (v1 !! key_bytes k) as [b|] eqn:Hv.
    + apply puts_member; [apply range_entries_keys_NoDup|]. apply elem_of_range_entries.
      unfold in_key_range in Hr. by apply andb_true_iff in Hr as [??].
    + rewrite puts_other by (rewrite elem_of_range_keys, Hv; intros [[? ?] _]; done).
      rewrite apply_txn_deletes. case_bool_decide as Hd; [done|]. apply eq_None_not_Some. intros Hb.
      apply Hd, elem_of_old_keys; [done|]. split_ands; [done|done|by intros ->|by right].
  - assert (Hr : in_key_range (sm_prefix shard_id) sm_end (key_bytes k) <> true).
    { intros Hr. apply region_key in Hr; [tauto|done..]. }
    rewrite puts_other by (rewrite elem_of_range_keys; tauto). rewrite apply_txn_deletes.
    destruct (v2 !! key_bytes k) as [b|] eqn:Hv; [|by repeat case_bool_decide].
    rewrite (bool_decide_ext _ (key_shard k = shard_id /\ key_tag k = TAG_RAFT /\ k <> KVote shard_id)); [done|].
    rewrite elem_of_old_keys, Hv by done. split; [|intros (? & ? & ?); eauto]. intros (_ & ? & ? & [?|?]); tauto.
Qed.

Lemma restored_keys_wf v1 v2 : keys_wf v1 -> keys_wf v2 -> keys_wf (restored v1 v2 raft_end sm_end).
Proof.
  intros H1' H2' raw [b Hb]. unfold restored in Hb.
  destruct (decide (raw ∈ (range_entries v1 (sm_prefix shard_id) sm_end).*1)) as [Hin|Hin].
  - apply elem_of_range_keys in Hin as [Hin _]. by apply H1'.
  - rewrite puts_other, apply_txn_deletes in Hb by done. case_bool_decide; [discriminate|]. apply H2'. eauto.
Qed.

(** The log after the restore: empty, with both marks at the snapshot point and
    the vote kept. *)
Definition restored_log (a : alog M V) (last : option LogId) : alog M V :=
  mkAlog ∅ last (al_vote a) (Some <$> last).

Definition put_marks (v : gmap Bytes Bytes) (last : option LogId) (val : Bytes) : gmap Bytes Bytes :=
  match last with
  | None => v
  | Some _ => <[raft_committed shard_id := val]> (<[raft_last_purged shard_id := val]> v)
  end.

(** The whole effect of the transaction. *)
Definition restore_view (v1 v2 : gmap Bytes Bytes) (b : Bytes) (last : option LogId) (val : Bytes) : gmap Bytes Bytes :=
  put_marks (<[sm_applied_state shard_id := b]> (restored v1 v2 raft_end sm_end)) last val.

Lemma restore_view_lookup v1 v2 b last val k :
  key_wf k -> k <> KPurged shard_id -> k <> KCommitted shard_id -> k <> KApplied shard_id ->
  restore_view v1 v2 b last val !! key_bytes k = restored v1 v2 raft_end sm_end !! key_bytes k.
Proof.
  intros Hk Hp Hc Ha. assert (Hins : forall k' b' (m : gmap Bytes Bytes), key_wf k' -> k <> k' ->
    <[key_bytes k' := b']> m !! key_bytes k = m !! key_bytes k).
  { intros k' b' m Hk' Hne. apply lookup_insert_ne, key_bytes_ne; congruence. }
  unfold restore_view, put_marks.
  change (raft_committed shard_id) with (key_bytes (KCommitted shard_id)).
  change (raft_last_purged shard_id) with (key_bytes (KPurged shard_id)).
  change (sm_applied_state shard_id) with (key_bytes (KApplied shard_id)).
  destruct last; rewrite !Hins; try done; by split.
Qed.

Lemma restore_view_wf v1 v2 b last val : keys_wf v1 -> keys_wf v2 -> keys_wf (restore_view v1 v2 b last val).
Proof.
  intros H1' H2'. pose proof (restored_keys_wf v1 v2 H1' H2') as Hr. unfold restore_view, put_marks.
  change (raft_committed shard_id) with (key_bytes (KCommitted shard_id)).
  change (raft_last_purged shard_id) with (key_bytes (KPurged shard_id)).
  change (sm_applied_state shard_id) with (key_bytes (KApplied shard_id)).
  destruct last; repeat apply keys_wf_insert; try done; by split.
Qed.

Lemma restore_view_shard v1 v2 b last val s (ap : option (AppliedState M)) (ap' : AppliedState M) :
  ShardRep shard_id v1 s ap -> keys_wf v2 -> encode ap' = Ok b ->
  ShardRep shard_id (restore_view v1 v2 b last val) s (Some ap').
Proof.
  intros Hrep Hk2 Hb. eapply carried_rep; [exact Hrep|exact Hb|..].
  - apply restore_view_wf; [by apply (rep_keys _ _ _ _ Hrep)|done].
  - unfold restore_view, put_marks.
    change (raft_committed shard_id) with (key_bytes (KCommitted shard_id)).
    change (raft_last_purged shard_id) with (key_bytes (KPurged shard_id)).
    change (sm_applied_state shard_id) with (key_bytes (KApplied shard_id)).
    destruct last; [rewrite !lookup_insert_ne by (by apply key_bytes_ne)|]; apply lookup_insert_eq.
  - intros k Hk Ht Hs Hne.
    rewrite restore_view_lookup by (done || (intros ->; discriminate)).
    rewrite restored_lookup by done. by rewrite bool_decide_eq_true_2.
Qed.

Lemma restore_view_log v1 v2 b last val (a : alog M V) :
  keys_wf v1 -> LogRep shard_id v2 a -> (forall id, last = Some id -> encode (Some id) = Ok val) ->
  LogRep shard_id (restore_view v1 v2 b last val) (restored_log a last).
Proof.
  intros Hk1 Hrep Hval.
  assert (Hgone : forall k, key_wf k -> key_shard k = shard_id -> key_tag k = TAG_RAFT -> k <> KVote shard_id ->
    restored v1 v2 raft_end sm_end !! key_bytes k = None).
  { intros k Hk Hs Ht Hv. rewrite restored_lookup by done.
    rewrite bool_decide_eq_false_2 by (rewrite Ht; intros [_ [=]]). by rewrite bool_decide_eq_true_2. }
  assert (Hmark : forall k, key_wf k -> k = KPurged shard_id \/ k = KCommitted shard_id ->
    restore_view v1 v2 b last val !! key_bytes k = ((fun _ => val) <$> last)).
  { intros k Hk Hor. unfold restore_view, put_marks.
    change (raft_committed shard_id) with (key_bytes (KCommitted shard_id)).
    change (raft_last_purged shard_id) with (key_bytes (KPurged shard_id)).
    change (sm_applied_state shard_id) with (key_bytes (KApplied shard_id)).
    destruct last as [id|]; destruct Hor as [-> | ->]; cbn [fmap option_fmap option_map];
      repeat (rewrite lookup_insert_eq || rewrite lookup_insert_ne by (by apply key_bytes_ne)); try done; by apply Hgone. }
  split; cbn [restored_log al_entries al_purged al_vote al_committed].
  - apply restore_view_wf; [done|by apply (lr_keys _ _ _ Hrep)].
  - intros i Hi. rewrite lookup_empty. cbn [stored].
    rewrite restore_view_lookup by (done || by split). by apply Hgone.
  - intros i e. by rewrite lookup_empty.
  - specialize (Hmark (KPurged shard_id) ltac:(by split) (or_introl eq_refl)).
    destruct last as [id|]; cbn [fmap option_fmap option_map stored] in *; [exists val; split; [by apply Hval|done]|done].
  - eapply stored_ext; [|exact (lr_vote _ _ _ Hrep)].
    rewrite restore_view_lookup by (done || by split). rewrite restored_lookup by (by split).
    rewrite bool_decide_eq_false_2 by (intros [_ [=]]). rewrite bool_decide_eq_false_2 by tauto. done.
  - specialize (Hmark (KCommitted shard_id) ltac:(by split) (or_intror eq_refl)).
    destruct last as [id|]; cbn [fmap option_fmap option_map stored] in *; [exists val; split; [by apply Hval|done]|done].
Qed.

Lemma restore_view_others v1 v2 b last val k :
  key_wf k -> key_shard k <> shard_id -> restore_view v1 v2 b last val !! key_bytes k = v2 !! key_bytes k.
Proof.
  intros Hk Hs. rewrite restore_view_lookup by (done || (intros ->; by apply Hs)).
  rewrite restored_lookup by done. rewrite !bool_decide_eq_false_2 by tauto. done.
Qed.

(** ** Lemmas: the code performs this transaction *)

Lemma fold_restore_record entries : forall x n x' n',
  fold_entries (restore_record shard_id) (x, n) entries = Ok (x', n') ->
  txn_pending x' = txn_pending x ++ map (fun kv => TxnSet kv.1 kv.2) entries.
Proof.
  induction entries as [|[k v] entries IH]; intros x n x' n'; cbn [fold_entries fst snd map].
  - intros [= <- _]. by rewrite app_nil_r.
  - intros ([x1 n1] & Hx1 & Hr)%bind_Ok_inv. apply IH in Hr.
    apply bind_Ok_inv in Hx1 as (x2 & Hx2%map_err_Ok%txn_set_law & [= <- _]). cbn [fst] in Hx2.
    by rewrite Hr, Hx2, <- app_assoc.
Qed.

Lemma set_log_marks_view x last x' v :
  set_log_marks shard_id x last = Ok x' ->
  exists val, (forall id, last = Some id -> encode (Some id) = Ok val) /\
    apply_txn v (txn_pending x') = put_marks (apply_txn v (txn_pending x)) last val.
Proof.
  unfold set_log_marks. destruct last as [id|]; [|intros [= <-]; by exists []].
  intros (val & Hval%map_err_Ok & Hr)%bind_Ok_inv.
  apply bind_Ok_inv in Hr as (x1 & Hx1%storage_err_Ok%txn_set_law & Hx2%storage_err_Ok%txn_set_law).
  exists val. split; [by intros ? [= <-]|]. by rewrite Hx2, Hx1, !apply_txn_app.
Qed.

Lemma restore_txn_spec (t t' : tree) (meta : SnapshotMeta M) h entries body events :
  h_payload_len h = payload_len_for entries -> Forall record_fits entries -> (len entries <= u64_max)%N ->
  compress (h_compression h) (write_payload entries) = Ok body ->
  restore_txn shard_id t h meta (compression_reader (h_compression h) body) = Ok (t', events) ->
  exists b val, encode (mkApplied (sn_last_log_id meta) (sn_last_membership meta)) = Ok b /\
    (forall id, sn_last_log_id meta = Some id -> encode (Some id) = Ok val) /\
    tree_view t' = put_marks (<[sm_applied_state shard_id := b]>
      (puts (apply_txn (tree_view t) (map TxnDelete (old_keys (tree_view t) raft_end sm_end))) entries))
      (sn_last_log_id meta) val.
Proof.
  intros Hlen Hfit Hcount Hc. unfold restore_txn.
  change ([x01] ++ be_bytes 8 shard_id) with (raft_prefix shard_id).
  change ([x02] ++ be_bytes 8 shard_id) with (sm_prefix shard_id).
  rewrite Hraft, Hsm. cbn [ok_or]. rewrite !bind_Ok.
  intros (x & Hx%storage_err_Ok & Hr)%bind_Ok_inv.
  apply bind_Ok_inv in Hr as (rk & ->%(keys_in_view t) & Hr); [|done].
  apply bind_Ok_inv in Hr as (sk & ->%(keys_in_view t) & Hr); [|done].
  apply bind_Ok_inv in Hr as (x1 & Hx1 & Hr).
  apply (txn_each_pending _ TxnDelete) in Hx1; [|intros ??? Hd%storage_err_Ok; by apply txn_delete_law].
  apply bind_Ok_inv in Hr as ([[x2 ev] n] & Hx2%map_err_Ok & Hr).
  rewrite (compression_reader_compressed _ _ _ Hc), <- (app_nil_r (write_payload entries)), for_each_payload in Hx2 by done.
  apply bind_Ok_inv in Hx2 as ([x2' ev'] & Hfold%fold_restore_record & [= <- <- <-]).
  destruct (negb _); [discriminate|].
  apply bind_Ok_inv in Hr as (b & Hb%map_err_Ok & Hr).
  apply bind_Ok_inv in Hr as (x3 & Hx3%storage_err_Ok%txn_set_law & Hr).
  apply bind_Ok_inv in Hr as (x4 & Hx4 & Hr). apply (set_log_marks_view _ _ _ (tree_view t)) in Hx4 as (val & Hval & Hx4).
  apply bind_Ok_inv in Hr as (t1 & Ht1%storage_err_Ok & [= <- _]).
  exists b, val. split_ands; [done|done|].
  rewrite (txn_commit_law _ _ _ Ht1), Hx4, Hx3, Hfold, Hx1, (tree_begin_law _ _ Hx). cbn [app].
  rewrite !apply_txn_app. cbn [apply_txn foldl apply_txn_op]. by rewrite <- puts_txn.
Qed.

End Transaction.

(** ** Lemmas: the directory *)

Section Directory.
Context {M : Type} `{Json (SnapshotMeta M)} `{Frames} `{Tree} `{SmCodecs M} `{!Codec (option LogId)}.
Context (readdir : Dir -> list (string * Bytes)) (Hreaddir : forall d, readdir d ≡ₚ map_to_list d).
Context (shard_id : N).

Lemma elem_of_removed src d name :
  name ∈ map sy_path (List.filter (obsolete (M := M) shard_id src) (list_entries readdir d)) <->
  src <> InDirectory name /\ exists key, snapshot_at (M := M) shard_id d name key.
Proof.
  rewrite list_elem_of_fmap. split.
  - intros (e & -> & [Hin%list_elem_of_In Ho]%list_elem_of_In%filter_In). unfold obsolete in Ho.
    destruct (sy_parsed e) as [[h m]|] eqn:Hp; [|discriminate].
    apply andb_true_iff in Ho as [Hs%N.eqb_eq Hne%negb_true_iff%bool_decide_eq_false]. split; [done|].
    exists (log_key (sn_last_log_id m)). apply (entry_snapshot_at shard_id readdir Hreaddir d e); [done|].
    unfold shard_entry_key. by rewrite Hp, Hs, N.eqb_refl.
  - intros (Hne & key & (e & Hin & Hk)%(snapshot_at_entry shard_id readdir Hreaddir)). unfold shard_entry_key in Hk.
    destruct (sy_parsed e) as [[h m]|] eqn:Hp; [|discriminate].
    destruct (negb (h_shard_id h =? shard_id)%N) eqn:E; [discriminate|]. injection Hk as _ <-. exists e.
    split; [done|]. apply list_elem_of_In, filter_In. split; [by apply list_elem_of_In|].
    unfold obsolete. rewrite Hp. apply negb_false_iff in E. rewrite E. by rewrite bool_decide_eq_false_2.
Qed.

Lemma remove_obsolete_lookup src d name :
  remove_obsolete (M := M) readdir shard_id src d !! name = None \/
  remove_obsolete (M := M) readdir shard_id src d !! name = d !! name.
Proof. unfold remove_obsolete. rewrite delete_all_lookup. case_bool_decide; auto. Qed.

(** Of the valid files of the shard only the source is left. *)
Lemma removed_snapshot src d name key :
  snapshot_at (M := M) shard_id d name key -> src <> InDirectory name ->
  remove_obsolete (M := M) readdir shard_id src d !! name = None.
Proof.
  intros Hs Hne. unfold remove_obsolete. rewrite delete_all_lookup, bool_decide_eq_true_2; [done|].
  apply elem_of_removed. eauto.
Qed.

Lemma kept_file src d name :
  src = InDirectory name \/ (forall key, ~ snapshot_at (M := M) shard_id d name key) ->
  remove_obsolete (M := M) readdir shard_id src d !! name = d !! name.
Proof.
  intros Hk. unfold remove_obsolete. rewrite delete_all_lookup, bool_decide_eq_false_2; [done|].
  rewrite elem_of_removed. intros (Hne & key & Hs). destruct Hk as [|Hk]; [done|]. by eapply Hk.
Qed.

(** After a restore every valid file of the shard has the content of the source. *)
Lemma restored_directory t d src t' d' report h (meta : SnapshotMeta M) r file :
  restore_open shard_id d src = Ok (h, meta, r, file) ->
  restore readdir shard_id t d src = (t', d', Ok report) ->
  d' !! final_path shard_id (sn_last_log_id meta) = Some file /\
  (forall name key, snapshot_at (M := M) shard_id d' name key -> d' !! name = Some file) /\
  (forall name f, d' !! name = Some f -> name = final_path shard_id (sn_last_log_id meta) \/ d !! name = Some f) /\
  (forall name, (forall key, ~ snapshot_at (M := M) shard_id d name key) ->
     name <> final_path shard_id (sn_last_log_id meta) -> d' !! name = d !! name).
Proof.
  intros Ho. unfold restore. rewrite Ho. set (path := final_path shard_id (sn_last_log_id meta)).
  destruct (restore_txn shard_id t h meta r) as [[t1 ev]|e]; [|discriminate]. intros [= _ <- _].
  assert (Hf : source_file d src = Some file).
  { unfold restore_open in Ho. destruct (source_file d src) as [f|]; [|discriminate]. cbn [ok_or] in Ho.
    rewrite bind_Ok in Ho. apply bind_Ok_inv in Ho as ([[h' m'] r'] & _ & Ho).
    destruct (negb _); [discriminate|]. congruence. }
  set (d1 := remove_obsolete readdir shard_id src d).
  assert (Hleft : forall name f, d1 !! name = Some f -> d !! name = Some f).
  { intros name f Hn. destruct (remove_obsolete_lookup src d name) as [Hr|Hr]; fold d1 in Hr; congruence. }
  assert (Hvalid : forall name key, snapshot_at (M := M) shard_id d1 name key -> d1 !! name = Some file).
  { intros name key (f & h0 & m0 & Hd & Hx & Hp & Hs & ->).
    assert (Hat : snapshot_at (M := M) shard_id d name (log_key (sn_last_log_id m0))) by (exists f, h0, m0; auto).
    destruct (decide (src = InDirectory name)) as [Heq|Hne].
    - rewrite Heq in Hf. cbn in Hf. specialize (Hleft _ _ Hd). congruence.
    - pose proof (removed_snapshot src d name _ Hat Hne) as Hgone. fold d1 in Hgone. congruence. }
  case_bool_decide as Hsame.
  - rewrite Hsame in Hf. cbn in Hf. split_ands; [|exact Hvalid|by right; apply Hleft|].
    + unfold d1. rewrite kept_file by (by left). done.
    + intros name Hno _. apply kept_file. by right.
  - split_ands; [apply lookup_insert_eq| | |].
    + intros name key (f & h0 & m0 & Hd & Hrest). destruct (decide (name = path)) as [->|Hne]; [apply lookup_insert_eq|].
      rewrite lookup_insert_ne in Hd |- * by done. eapply Hvalid. exists f, h0, m0. split; [exact Hd|exact Hrest].
    + intros name f [[<- _]|[_ Hn]]%lookup_insert_Some; [by left|right; by apply Hleft].
    + intros name Hno Hne. rewrite lookup_insert_ne by done. apply kept_file. by right.
Qed.

End Directory.

(** ** Properties *)

Section Properties.
Context {M V : Type} `{JsonLaws (SnapshotMeta M)} `{FrameLaws} `{TreeLaws} `{SmCodecLaws M}.
Context `{!Codec (Entry M)} `{CodecLaws (option LogId)} `{!Codec V}.
Context (readdir : Dir -> list (string * Bytes)) (Hreaddir : forall d, readdir d ≡ₚ map_to_list d).
Context (shard_id : N) (Hshard : (shard_id <= u64_max)%N).

(** The file [build_snapshot] hands out, opened by [restore]. *)
Lemma built_file_opens rd c keep (t : tree) (cache : SmCache (M := M)) dir dir' meta file d src
  (Hfit : forall k v, tree_view t !! k = Some v -> record_fits (k, v))
  (Hcount : (payload_len_for (map_to_list (tree_view t)) <= u64_max)%N)
  (Hmeta : forall b, json_encode meta = Ok b -> (len b <= MAX_META_LEN)%N)
  (Hbuild : build_snapshot rd shard_id c keep t cache dir = Ok (dir', meta, file))
  (Hsrc : source_file d src = Some file) :
  exists e h body, successor (sm_prefix shard_id) = Some e /\
    let entries := range_entries (tree_view t) (sm_prefix shard_id) e in
    meta = mkSnapshotMeta (cache_last_applied cache) (cache_membership cache)
             (snapshot_id_for shard_id (cache_last_applied cache)) /\
    restore_open shard_id d src = Ok (h, meta, compression_reader (h_compression h) body, file) /\
    parse_header_bytes file = Ok (h, meta) /\ h_shard_id h = shard_id /\
    h_payload_len h = payload_len_for entries /\ Forall record_fits entries /\ (len entries <= u64_max)%N /\
    compress (h_compression h) (write_payload entries) = Ok body.
Proof.
  apply build_snapshot_file in Hbuild as (entries & (e & He & Hent)%collect_sm_entries_view & Hm & Hf & _).
  apply bind_Ok_inv in Hf as (mb & Hmb%map_err_Ok & Hf). specialize (Hmeta _ Hmb).
  apply bind_Ok_inv in Hf as (hb & Hhb%map_err_Ok & Hf). apply bind_Ok_inv in Hf as (body & Hbody%map_err_Ok & [= Hfile]).
  destruct (entries_fit (tree_view t) (sm_prefix shard_id) e) as (Hpl & Hcnt & Hall); [done|done|]. rewrite <- Hent in *.
  set (h := mkHeader SNAP_VERSION c shard_id (len mb) (payload_len_for entries)) in *.
  assert (Hh : header_wf h) by (by split_ands).
  assert (Hread : read_header (file_reader file) = Ok (h, meta, mkReader body None)).
  { subst file. by apply read_header_written. }
  exists e, h, body. cbn zeta. rewrite <- Hent. split_ands; try done.
  - unfold restore_open. rewrite Hsrc. cbn [ok_or]. rewrite bind_Ok, Hread. cbn [map_err]. rewrite bind_Ok.
    cbn [h h_shard_id]. rewrite N.eqb_refl. cbn [negb].
    apply write_header_inv in Hhb as (_ & _ & _ & _ & Hlen). rewrite <- Hfile.
    change (32 + h_meta_len h)%N with (HEADER_LEN + h_meta_len h)%N. rewrite <- Hlen. unfold len at 1.
    by rewrite Nat2N.id, drop_app_length.
  - unfold parse_header_bytes. by rewrite Hread.
Qed.

(** C35: an offline restore puts a shard back to the snapshot, consistently. Given
    the file a node built, whatever the data directory held: the shard has the
    state and the applied position of that node, and a start reads them back;
    the log is empty, begins behind the snapshot point, which is also the
    committed mark, and the vote is kept; the file is the current snapshot, with
    the meta of the applied state; and no key of another shard has changed. *)
Theorem restore_returns_to_snapshot (rd : Dir -> list (string * Bytes)) (c : Compression) (keep : N)
  (t1 t2 t2' : tree) (cache1 : SmCache (M := M)) (dir dir' d d' : Dir) (meta : SnapshotMeta M) (file : Bytes)
  (s : shard) (a : alog M V) (src : SnapshotSource) (report : RestoreReport)
  (Hrep : ShardRep shard_id (tree_view t1) s
            (Some (mkApplied (cache_last_applied cache1) (cache_membership cache1))))
  (Hfit : forall k v, tree_view t1 !! k = Some v -> record_fits (k, v))
  (Hcount : (payload_len_for (map_to_list (tree_view t1)) <= u64_max)%N)
  (Hmeta : forall b, json_encode meta = Ok b -> (len b <= MAX_META_LEN)%N)
  (Hbuild : build_snapshot rd shard_id c keep t1 cache1 dir = Ok (dir', meta, file))
  (Hlog : LogRep shard_id (tree_view t2) a)
  (Hsrc : source_file d src = Some file)
  (Hrestore : restore readdir shard_id t2 d src = (t2', d', Ok report)) :
  let last := cache_last_applied cache1 in
  ShardRep shard_id (tree_view t2') s (Some (mkApplied last (cache_membership cache1))) /\
  (forall cache t3 cache3, restore_applied_state shard_id t2' cache = Ok (t3, cache3) -> cache3 = cache1) /\
  LogRep shard_id (tree_view t2') (restored_log a last) /\
  alog_state (restored_log a last) = mkLogState last last /\
  get_current_snapshot readdir shard_id cache1 d' = Ok (Some (meta, file)) /\
  (forall k, key_wf k -> key_shard k <> shard_id -> tree_view t2' !! key_bytes k = tree_view t2 !! key_bytes k).
Proof.
  intros last. destruct (built_file_opens _ _ _ _ _ _ _ _ _ _ _ Hfit Hcount Hmeta Hbuild Hsrc)
    as (e & h & body & He & Hm & Ho & Hparse & Hhs & Hpl & Hall & Hcnt & Hbody).
  pose proof (restored_directory readdir Hreaddir shard_id t2 d src t2' d' report _ _ _ _ Ho Hrestore)
    as (Hfinal & Hvalid & _).
  unfold restore in Hrestore. rewrite Ho in Hrestore.
  destruct (restore_txn shard_id t2 h meta _) as [[t1' ev]|] eqn:Htxn; [|discriminate]. injection Hrestore as -> _ _.
  destruct (successor (raft_prefix shard_id)) as [re|] eqn:Hre.
  2:{ unfold restore_txn in Htxn. change ([x01] ++ be_bytes 8 shard_id) with (raft_prefix shard_id) in Htxn.
      by rewrite Hre in Htxn. }
  destruct (restore_txn_spec shard_id re e Hre He t2 t2' meta h _ body ev Hpl Hall Hcnt Hbody Htxn)
    as (b & val & Hb & Hval & Hview).
  change (tree_view t2' = restore_view shard_id re e (tree_view t1) (tree_view t2) b (sn_last_log_id meta) val) in Hview.
  assert (Hlast : sn_last_log_id meta = last) by (by rewrite Hm).
  assert (Hmem : sn_last_membership meta = cache_membership cache1) by (by rewrite Hm).
  rewrite Hlast in Hview, Hval, Hb, Hfinal. rewrite Hmem in Hb. rewrite Hview.
  assert (Hshard2 : ShardRep shard_id (tree_view t2') s (Some (mkApplied last (cache_membership cache1)))).
  { rewrite Hview. eapply restore_view_shard; [done|exact Hre|exact He|exact Hrep|apply (lr_keys _ _ _ Hlog)|exact Hb]. }
  split_ands.
  - by rewrite <- Hview.
  - intros cache t3 cache3 Hs. destruct (restore_spec shard_id Hshard _ _ _ _ _ _ Hshard2 Hs) as (-> & _). by destruct cache1.
  - eapply restore_view_log; [done|exact Hre|exact He|apply (rep_keys _ _ _ _ Hrep)|exact Hlog|exact Hval].
  - done.
  - assert (Hat : snapshot_at (M := M) shard_id d' (final_path shard_id last) (log_key last)).
    { exists file, h, meta. rewrite Hlast. split_ands; try done. apply final_path_esnap. }
    pose proof (latest_is_newest readdir Hreaddir shard_id (cache_last_applied cache1) d') as Hn.
    unfold get_current_snapshot. destruct (latest readdir shard_id (cache_last_applied cache1) d') as [name|].
    + destruct Hn as (key & Hname & _). rewrite (Hvalid _ _ Hname).
      unfold parse_header_bytes in Hparse. destruct (read_header (file_reader file)) as [[[h' m'] r']|]; [|discriminate].
      cbn [sm_read_err map_err]. rewrite bind_Ok. cbn in Hparse. by injection Hparse as -> ->.
    + specialize (Hn _ _ Hat). fold last in Hn. unfold ahead, key_leb in Hn. destruct last as [l|]; [|discriminate].
      rewrite N.ltb_irrefl, N.eqb_refl, N.leb_refl in Hn. discriminate.
  - intros k Hk Hs. by apply restore_view_others.
Qed.

(** A restore that fails after the header was accepted leaves the data as it
    was, but the snapshots are gone: every valid snapshot file of the shard
    other than the source has been removed before the payload is read. *)
Theorem failed_restore_drops_snapshots (t t' : tree) (d d' : Dir) (src : SnapshotSource) (e : Error)
  (h : SnapshotHeader) (meta : SnapshotMeta M) (r : Reader) (file : Bytes)
  (Hopen : restore_open shard_id d src = Ok (h, meta, r, file))
  (Hfail : restore readdir shard_id t d src = (t', d', Err e)) :
  t' = t /\
  forall name key, snapshot_at (M := M) shard_id d name key -> src <> InDirectory name -> d' !! name = None.
Proof.
  unfold restore in Hfail. rewrite Hopen in Hfail.
  destruct (restore_txn shard_id t h meta r) as [[t1 ev]|]; [discriminate|]. injection Hfail as <- <- _.
  split; [done|]. intros name key Hs Hne. by eapply removed_snapshot.
Qed.

End Properties.

(** ** Witnesses *)

(** The data directory of a node with two other snapshots, one of them ahead. *)
Definition demo_restore (src : SnapshotSource) : gmap Bytes Bytes * Dir * Result RestoreReport :=
  @restore N demo_json demo_frames mem_tree demo_codecs (countable_codec (option LogId)) map_to_list 1
    (∅ : gmap Bytes Bytes) demo_dir src.

Lemma demo_build_restore c :
  exists dir' file t2' d' report, demo_build c 3 ∅ = Ok (dir', demo_leader_meta, file) /\
    demo_restore (Elsewhere (Some file)) = (t2', d', Ok report) /\ rp_events report = 2%N.
Proof.
  assert (Hb : match demo_build c 3 ∅ with
               | Ok (d', m, f) => bool_decide (m = demo_leader_meta) &&
                   match demo_restore (Elsewhere (Some f)) with
                   | (_, _, Ok report) => (rp_events report =? 2)%N
                   | (_, _, Err _) => false
                   end
               | Err _ => false
               end = true) by (destruct c; vm_compute; reflexivity).
  destruct (demo_build c 3 ∅) as [[[dir' m] f]|]; [|discriminate].
  apply andb_true_iff in Hb as [->%bool_decide_eq_true Hb].
  destruct (demo_restore (Elsewhere (Some f))) as [[t2' d'] [report|]] eqn:Hr; [|discriminate].
  apply N.eqb_eq in Hb. by exists dir', f, t2', d', report.
Qed.

Lemma restore_returns_to_snapshot_witness :
  exists dir' file t2' d' report, demo_build Zstd 3 ∅ = Ok (dir', demo_leader_meta, file) /\
    demo_restore (Elsewhere (Some file)) = (t2', d', Ok report) /\
    @get_current_snapshot N demo_json map_to_list 1 demo_leader_cache d' = Ok (Some (demo_leader_meta, file)).
Proof.
  destruct (demo_build_restore Zstd) as (dir' & file & t2' & d' & report & Hb & Hr & _).
  exists dir', file, t2', d', report. split; [exact Hb|]. split; [exact Hr|].
  exact (proj1 (proj2 (proj2 (proj2 (proj2 (@restore_returns_to_snapshot N N demo_json demo_json_laws demo_frames
    demo_frame_laws mem_tree mem_tree_laws demo_codecs demo_codec_laws demo_entry_codec
    (countable_codec (option LogId)) (countable_codec N) map_to_list (fun d => reflexivity _) 1 ltac:(lia)
    map_to_list Zstd 3 demo_tree (∅ : gmap Bytes Bytes) t2' demo_leader_cache ∅ dir' demo_dir d' demo_leader_meta
    file demo_document_shard demo_alog (Elsewhere (Some file)) report demo_leader_rep demo_tree_fits demo_tree_small
    demo_meta_small Hb demo_log_rep eq_refl Hr)))))).
Defined.

(** A file without its last byte. *)
Definition demo_truncated : Bytes :=
  match demo_build CompressionNone 3 ∅ with
  | Ok (_, _, file) => take (length file - 1) file
  | Err _ => []
  end.

Lemma demo_truncated_fails :
  exists h m r file d' e, @restore_open N demo_json demo_frames 1 demo_dir (Elsewhere (Some demo_truncated)) = Ok (h, m, r, file) /\
    demo_restore (Elsewhere (Some demo_truncated)) = (∅, d', Err e).
Proof.
  assert (Hb : match @restore_open N demo_json demo_frames 1 demo_dir (Elsewhere (Some demo_truncated)),
                     demo_restore (Elsewhere (Some demo_truncated)) with
               | Ok _, (t, _, Err _) => bool_decide (t = ∅)
               | _, _ => false
               end = true) by (vm_compute; reflexivity).
  destruct (restore_open 1 demo_dir (Elsewhere (Some demo_truncated))) as [[[[h m] r] file]|]; [|discriminate].
  destruct (demo_restore (Elsewhere (Some demo_truncated))) as [[t d'] [rep|e]]; [discriminate|].
  apply bool_decide_eq_true in Hb as ->. by exists h, m, r, file, d', e.
Qed.

Lemma demo_residue_snapshot : exists key, snapshot_at (M := N) (H := demo_json) 1 demo_dir (demo_snapshot 2 5).1 key.
Proof.
  eexists. eexists _, _, _. split_ands; [vm_compute; reflexivity|vm_compute; reflexivity|vm_compute; reflexivity|..];
    reflexivity.
Qed.

Lemma failed_restore_drops_snapshots_witness :
  exists d' e, demo_restore (Elsewhere (Some demo_truncated)) = (∅, d', Err e) /\
    is_Some (demo_dir !! (demo_snapshot 2 5).1) /\ d' !! (demo_snapshot 2 5).1 = None.
Proof.
  destruct demo_truncated_fails as (h & m & r & file & d' & e & Ho & Hr), demo_residue_snapshot as [key Hs].
  exists d', e. split; [exact Hr|]. split; [destruct Hs as (f & ? & ? & Hf & _); exact (ex_intro _ f Hf)|].
  unfold demo_restore in Hr. revert Ho Hr. generalize demo_truncated as bad. intros bad Ho Hr.
  exact (proj2 (@failed_restore_drops_snapshots N demo_json demo_frames mem_tree demo_codecs
    (countable_codec (option LogId)) map_to_list (fun d => reflexivity _) 1 (∅ : gmap Bytes Bytes)
    (∅ : gmap Bytes Bytes) demo_dir d' (Elsewhere (Some bad)) e h m r file Ho Hr) (demo_snapshot 2 5).1 key Hs
    ltac:(discriminate)).
Defined.
