(* ===== verification/Config.v ===== *)
(** * es-server: configuration

    [es-server/src/config.rs]: the configuration of a node, its validation at
    start-up and on a hot reload, and what is derived from the placement table
    (the shards of a node, the members of a shard, the number of shards).

    Reading a file, parsing a socket address, tonic's check of an endpoint and
    its TLS set-up are the operations of [Platform]. A path is a [string]; [debug_path] is what
    [{:?}] prints for it. *)

From S2P Require Import Prelude.
From S2P Require Import Bytes.
From S2P Require Import Core.
From S2P Require Import Snapshot.

(** ** The platform *)

(** es-proto/src/tls.rs, [TlsClientConfig]. *)
Inductive TlsClientConfig : Type := SkipVerify | Ca (pem : Bytes).

Class Platform : Type := {
  fs_read : string -> result string Bytes;
  parse_socket_addr : string -> result string unit;
  endpoint_from_shared : string -> result string unit;
  tls_apply : TlsClientConfig -> string -> result string unit;
  debug_path : string -> string
}.

(** es-proto/src/endpoint.rs, [normalize_endpoint]. *)
Definition normalize_endpoint (addr : string) : string :=
  if starts_with "http://" addr || starts_with "https://" addr then addr else "http://" +:+ addr.

(** ** Data *)

Record LimitsSection : Type := mkLimits { max_event_bytes : N }.

Record SnapshotSection : Type := mkSnapshotSection {
  ss_compression : Compression;
  ss_keep : N;
  ss_dir : option string;
  ss_max_chunk_size : N
}.

Record TlsConfig : Type := mkTls {
  cert_file : option string;
  key_file : option string;
  ca_file : option string
}.

Record PeerConfig : Type := mkPeer {
  peer_id : N;
  peer_addr : string;
  peer_internal_addr : option string
}.

Record NodeConfig : Type := mkNode {
  node_id : N;
  listen_addr : string;
  internal_listen_addr : option string;
  peers : list PeerConfig
}.

Record StorageConfig : Type := mkStorage {
  data_dir : string;
  memtable_arena_bytes : N
}.

Record PlacementNode : Type := mkPlacementNode {
  pn_id : N;
  pn_primary : list N;
  pn_replica : list N
}.

Record PlacementConfig : Type := mkPlacementConfig {
  replication_factor : N;
  placement_nodes : list PlacementNode
}.

Record Config : Type := mkConfig {
  cf_node : NodeConfig;
  cf_storage : StorageConfig;
  cf_placement : PlacementConfig;
  cf_snapshot : SnapshotSection;
  cf_tls : option TlsConfig;
  cf_limits : LimitsSection
}.

(** The [Default]s. *)
Definition limits_default : LimitsSection := mkLimits MAX_EVENT_PAYLOAD_BYTES.

Definition snapshot_section_default : SnapshotSection :=
  mkSnapshotSection Zstd 3 None (3 * 1024 * 1024).

Definition config_default : Config :=
  mkConfig (mkNode 1 "127.0.0.1:50051" (Some "127.0.0.1:51051") [])
    (mkStorage "./data" (4 * 1024 * 1024))
    (mkPlacementConfig 1 [mkPlacementNode 1 [0%N] []])
    snapshot_section_default None limits_default.

(** ** Validation *)

Section Validate.
Context `{Platform}.

(** [{:?}] of a list of plain names. *)
Fixpoint debug_names (l : list string) : string :=
  match l with
  | [] => ""
  | [x] => quote x
  | x :: l' => quote x +:+ ", " +:+ debug_names l'
  end.

(** [TlsConfig::validate]: the file named by [path] is readable and not empty. *)
Definition tls_file (name path : string) : result string unit :=
  bytes ← map_err (fun e => "[tls] " +:+ name +:+ " 读取失败（" +:+ debug_path path +:+ "）: " +:+ e)
            (fs_read path);
  match bytes with
  | [] => Err ("[tls] " +:+ name +:+ " 为空文件（" +:+ debug_path path +:+ "）")
  | _ => Ok tt
  end.

Definition missing_names (t : TlsConfig) : list string :=
  (if bool_decide (cert_file t = None) then ["cert_file"] else []) ++
  (if bool_decide (key_file t = None) then ["key_file"] else []).

Definition tls_validate (t : TlsConfig) : result string unit :=
  match cert_file t, key_file t with
  | Some cert, Some key =>
      _ ← tls_file "cert_file" cert;
      _ ← tls_file "key_file" key;
      match ca_file t with Some ca => tls_file "ca_file" ca | None => Ok tt end
  | _, _ => Err ("[tls] cert_file/key_file 必须成对配置，缺少: [" +:+ debug_names (missing_names t) +:+ "]")
  end.

(** [TlsConfig::client_trust]. *)
Definition client_trust (t : TlsConfig) : result string TlsClientConfig :=
  match ca_file t with
  | Some ca =>
      pem ← map_err (fun e => "[tls] ca_file 读取失败（" +:+ debug_path ca +:+ "）: " +:+ e) (fs_read ca);
      Ok (Ca pem)
  | None => Ok SkipVerify
  end.

(** The loop over a node's primary shards: [primary_owner.insert(s, id)]. *)
Fixpoint insert_primaries (id : N) (owner : gmap N N) (l : list N) : result string (gmap N N) :=
  match l with
  | [] => Ok owner
  | s :: l' =>
      match owner !! s with
      | Some _ => Err ("[placement] shard " +:+ pretty s +:+ " 出现在多个节点的 primary 中")
      | None => insert_primaries id (<[s := id]> owner) l'
      end
  end.

Fixpoint check_replicas (n : PlacementNode) (l : list N) : result string unit :=
  match l with
  | [] => Ok tt
  | s :: l' =>
      if existsb (N.eqb s) (pn_primary n)
      then Err ("[placement] 节点 " +:+ pretty (pn_id n) +:+ " 的 shard " +:+ pretty s +:+
                " 同时出现在 primary 与 replica")
      else check_replicas n l'
  end.

(** [*holders.entry(s).or_insert(0) += 1]. *)
Definition count_holder (holders : gmap N N) (s : N) : gmap N N :=
  <[s := (default 0 (holders !! s) + 1)%N]> holders.

Definition node_shards (n : PlacementNode) : list N := pn_primary n ++ pn_replica n.

(** The state of the loop over the placement nodes. *)
Record ValidateLoop : Type := mkValidate {
  vl_node_ids : gset N;
  vl_primary_owner : gmap N N;
  vl_holders : gmap N N
}.

Definition validate_node (node : NodeConfig) (l : ValidateLoop) (n : PlacementNode) :
    result string ValidateLoop :=
  if bool_decide (pn_id n ∈ vl_node_ids l)
  then Err ("[placement] 节点 id " +:+ pretty (pn_id n) +:+ " 重复")
  else if negb (pn_id n =? node_id node)%N && negb (existsb (fun p => (peer_id p =? pn_id n)%N) (peers node))
  then Err ("[placement] 节点 " +:+ pretty (pn_id n) +:+ " 不在 node.peers 中（放置表节点须 ∈ peers ∪ 本节点）")
  else
    owner ← insert_primaries (pn_id n) (vl_primary_owner l) (pn_primary n);
    _ ← check_replicas n (pn_replica n);
    Ok (mkValidate ({[pn_id n]} ∪ vl_node_ids l) owner
          (foldl count_holder (vl_holders l) (node_shards n))).

Fixpoint validate_nodes (node : NodeConfig) (l : ValidateLoop) (ns : list PlacementNode) :
    result string ValidateLoop :=
  match ns with
  | [] => Ok l
  | n :: ns' => l ← validate_node node l n; validate_nodes node l ns'
  end.

(** The order in which a [HashMap] is walked is unspecified; it decides only
    which of several offending shards the message names. *)
Fixpoint check_holders (rf : N) (l : list (N * N)) : result string unit :=
  match l with
  | [] => Ok tt
  | (shard, count) :: l' =>
      if negb (count =? rf)%N
      then Err ("[placement] shard " +:+ pretty shard +:+ " 承载节点数 " +:+ pretty count +:+
                " != replication_factor " +:+ pretty rf)
      else check_holders rf l'
  end.

Definition in_bounds (lo hi n : N) : bool := (lo <=? n)%N && (n <=? hi)%N.

Definition validate_placement (c : Config) : result string unit :=
  let pl := cf_placement c in
  if bool_decide (placement_nodes pl = []) then Err "[placement] nodes 不能为空：必须显式列出每个节点承载的 shards"
  else if (replication_factor pl =? 0)%N then Err "[placement] replication_factor 必须 ≥ 1"
  else
    l ← validate_nodes (cf_node c) (mkValidate ∅ ∅ ∅) (placement_nodes pl);
    check_holders (replication_factor pl) (map_to_list (vl_holders l)).

Fixpoint validate_peers (l : list PeerConfig) : result string unit :=
  match l with
  | [] => Ok tt
  | p :: l' =>
      _ ← match peer_internal_addr p with
          | None => Ok tt
          | Some addr =>
              let uri := normalize_endpoint addr in
              map_err (fun e => "node.peers 中节点 " +:+ pretty (peer_id p) +:+ " 内部地址 " +:+ uri +:+
                         " 非法：" +:+ e) (endpoint_from_shared uri)
          end;
      validate_peers l'
  end.

(** The listener and peer addresses. *)
Definition validate_addresses (n : NodeConfig) : result string unit :=
  _ ← match internal_listen_addr n with
      | None => Ok tt
      | Some addr =>
          _ ← map_err (fun e => "[node] internal_listen_addr 非法（" +:+ addr +:+ "）：" +:+ e)
                (parse_socket_addr addr);
          if bool_decide (addr = listen_addr n)
          then Err "[node] internal_listen_addr 不能与 listen_addr 相同" else Ok tt
      end;
  _ ← validate_peers (peers n);
  if existsb (fun p => negb (peer_id p =? node_id n)%N) (peers n) then
    if bool_decide (internal_listen_addr n = None)
    then Err "多节点部署必须配置 node.internal_listen_addr 以承载归属内部协议"
    else
      match List.find (fun p => negb (peer_id p =? node_id n)%N && bool_decide (peer_internal_addr p = None))
              (peers n) with
      | Some p => Err ("多节点部署必须为 peer " +:+ pretty (peer_id p) +:+ " 配置 internal_addr")
      | None => Ok tt
      end
  else Ok tt.

(** [Config::validate]. *)
Definition config_validate (c : Config) : result string unit :=
  _ ← validate_placement c;
  if negb (in_bounds (1024 * 1024) (16 * 1024 * 1024) (memtable_arena_bytes (cf_storage c)))
  then Err ("[storage] memtable_arena_bytes 必须 ∈ [1048576, 16777216]，当前 " +:+
            pretty (memtable_arena_bytes (cf_storage c)))
  else if (ss_keep (cf_snapshot c) =? 0)%N then Err "[snapshot] keep 必须 ≥ 1（keep=0 会删光全部快照）"
  else if negb (in_bounds 1 MAX_AGGREGATE_EVENT_BYTES (max_event_bytes (cf_limits c)))
  then Err ("[limits] max_event_bytes 必须 ∈ [1, " +:+ pretty MAX_AGGREGATE_EVENT_BYTES +:+
            "]（8MB 传输上限减去余量）")
  else if negb (in_bounds 1 MAX_SNAPSHOT_CHUNK_BYTES (ss_max_chunk_size (cf_snapshot c)))
  then Err ("[snapshot] max_chunk_size 必须 ∈ [1, " +:+ pretty MAX_SNAPSHOT_CHUNK_BYTES +:+
            "]（超限快照块 openraft 直接放弃传输）")
  else
    _ ← validate_addresses (cf_node c);
    match cf_tls c with Some t => tls_validate t | None => Ok tt end.

End Validate.

(** ** What is derived from the placement table *)

(** [sort_unstable] and [dedup] on integers. *)
Definition sort_n (l : list N) : list N := merge_sort N.le l.

Fixpoint dedup (l : list N) : list N :=
  match l with
  | x :: (y :: _) as l' => if (x =? y)%N then dedup l' else x :: dedup l'
  | _ => l
  end.

(** [Config::local_shards]. *)
Definition local_shards (c : Config) : list N :=
  dedup (sort_n
    match List.find (fun n => (pn_id n =? node_id (cf_node c))%N) (placement_nodes (cf_placement c)) with
    | Some n => node_shards n
    | None => []
    end).

(** [Config::shard_members]. *)
Definition hosts (n : PlacementNode) (shard_id : N) : bool :=
  existsb (N.eqb shard_id) (pn_primary n) || existsb (N.eqb shard_id) (pn_replica n).

Definition shard_members (c : Config) (shard_id : N) : list N :=
  sort_n (map pn_id (List.filter (fun n => hosts n shard_id) (placement_nodes (cf_placement c)))).

(** [Config::shard_count]. *)
Definition all_placed (c : Config) : list N :=
  concat (map node_shards (placement_nodes (cf_placement c))).

Definition shard_count (c : Config) : N :=
  match all_placed c with
  | [] => 0
  | s :: l => wrapping_add_u64 (foldl N.max s l) 1
  end.

(** ** The rules the validation enforces *)

(** The rules of the placement table, as the validation enforces them. *)
Record placement_ok (c : Config) : Prop := {
  po_nodes : placement_nodes (cf_placement c) <> [];
  po_factor : replication_factor (cf_placement c) <> 0%N;
  po_ids : NoDup (map pn_id (placement_nodes (cf_placement c)));
  po_known : forall n, n ∈ placement_nodes (cf_placement c) ->
    pn_id n = node_id (cf_node c) \/ exists p, p ∈ peers (cf_node c) /\ peer_id p = pn_id n;
  po_primaries : NoDup (concat (map pn_primary (placement_nodes (cf_placement c))));
  po_disjoint : forall n s, n ∈ placement_nodes (cf_placement c) -> s ∈ pn_replica n -> s ∉ pn_primary n;
  po_copies : forall s, s ∈ all_placed c ->
    N.of_nat (count_occ N.eq_dec (all_placed c) s) = replication_factor (cf_placement c)
}.

(** The other rules: sizes, addresses and certificate files. *)
Definition sizes_ok (c : Config) : Prop :=
  (1024 * 1024 <= memtable_arena_bytes (cf_storage c) <= 16 * 1024 * 1024)%N /\
  ss_keep (cf_snapshot c) <> 0%N /\
  (1 <= max_event_bytes (cf_limits c) <= MAX_AGGREGATE_EVENT_BYTES)%N /\
  (1 <= ss_max_chunk_size (cf_snapshot c) <= MAX_SNAPSHOT_CHUNK_BYTES)%N.

Section Rules.
Context `{Platform}.

Definition addresses_ok (n : NodeConfig) : Prop :=
  (forall a, internal_listen_addr n = Some a -> parse_socket_addr a = Ok tt /\ a <> listen_addr n) /\
  (forall p a, p ∈ peers n -> peer_internal_addr p = Some a ->
     endpoint_from_shared (normalize_endpoint a) = Ok tt) /\
  (forall p, p ∈ peers n -> peer_id p <> node_id n ->
     internal_listen_addr n <> None /\ peer_internal_addr p <> None).

Definition file_ok (path : string) : Prop := exists b, fs_read path = Ok b /\ b <> [].

Definition tls_ok (t : TlsConfig) : Prop :=
  (exists f, cert_file t = Some f /\ file_ok f) /\ (exists f, key_file t = Some f /\ file_ok f) /\
  (forall f, ca_file t = Some f -> file_ok f).

(** ** Lemmas: the loops of the validation *)

Lemma insert_primaries_iff id owner l owner' :
  insert_primaries id owner l = Ok owner' ->
  NoDup l /\ (forall s, s ∈ l -> owner !! s = None) /\ dom owner' = dom owner ∪ list_to_set l.
Proof.
  revert owner. induction l as [|s l IH]; intros owner; cbn [insert_primaries].
  { intros [= <-]. split_ands; [constructor|set_solver|set_solver]. }
  destruct (owner !! s) eqn:Hs; [discriminate|]. intros (Hnd & Hfresh & Hdom)%IH.
  assert (Hnot : s ∉ l). { intros Hin. specialize (Hfresh s Hin). by rewrite lookup_insert_eq in Hfresh. }
  split_ands.
  - by constructor.
  - intros x [->|Hx]%elem_of_cons; [done|]. specialize (Hfresh x Hx).
    by apply lookup_insert_None in Hfresh as [? _].
  - rewrite Hdom, dom_insert_L. set_solver.
Qed.

Lemma insert_primaries_ok id owner l :
  NoDup l -> (forall s, s ∈ l -> owner !! s = None) -> exists owner', insert_primaries id owner l = Ok owner'.
Proof.
  revert owner. induction l as [|s l IH]; intros owner Hnd Hf; cbn [insert_primaries]; [eauto|].
  rewrite Hf by set_solver. apply NoDup_cons in Hnd as [Hs Hnd]. apply IH; [done|].
  intros x Hx. apply lookup_insert_None. split; [apply Hf; set_solver|]. intros ->. done.
Qed.

Lemma check_replicas_iff n l : check_replicas n l = Ok tt <-> forall s, s ∈ l -> s ∉ pn_primary n.
Proof.
  induction l as [|s l IH]; cbn [check_replicas]; [set_solver|].
  destruct (existsb (N.eqb s) (pn_primary n)) eqn:E.
  - split; [discriminate|]. intros Hall. apply existsb_True in E as (x & Hx & <-%N.eqb_eq).
    exfalso. apply (Hall s); [set_solver|done].
  - rewrite IH. rewrite existsb_False in E. split; intros Hall; [|set_solver].
    intros x [->|Hx]%elem_of_cons; [|by apply Hall]. intros Hin. specialize (E s Hin).
    by rewrite N.eqb_refl in E.
Qed.

Lemma check_holders_iff rf l :
  check_holders rf l = Ok tt <-> forall s k, (s, k) ∈ l -> k = rf.
Proof.
  induction l as [|[s k] l IH]; cbn [check_holders]; [set_solver|].
  destruct (k =? rf)%N eqn:E; cbn [negb]; bool_facts.
  - rewrite IH. split; [|set_solver]. intros Hall s' k' [[= -> ->]|Hin]%elem_of_cons; [done|by eapply Hall].
  - split; [discriminate|]. intros Hall. exfalso. apply E, (Hall s). set_solver.
Qed.

Lemma holders_count l holders s :
  default 0%N (foldl count_holder holders l !! s) =
    (default 0 (holders !! s) + N.of_nat (count_occ N.eq_dec l s))%N /\
  (is_Some (foldl count_holder holders l !! s) <-> is_Some (holders !! s) \/ s ∈ l).
Proof.
  revert holders. induction l as [|x l IH]; intros holders; cbn [foldl count_occ].
  { split; [lia|]. set_solver. }
  destruct (IH (count_holder holders x)) as [Hc Hs]. rewrite Hc, Hs. unfold count_holder.
  destruct (N.eq_dec x s) as [->|Hne].
  - rewrite lookup_insert_eq. cbn. split; [lia|]. set_solver.
  - rewrite lookup_insert_ne by done. split; [lia|]. set_solver.
Qed.

(** What the loop over the nodes leaves behind. *)
Definition loop_ok (node : NodeConfig) (l : ValidateLoop) (ns : list PlacementNode) : Prop :=
  NoDup (map pn_id ns) /\ (forall n, n ∈ ns -> pn_id n ∉ vl_node_ids l) /\
  (forall n, n ∈ ns -> pn_id n = node_id node \/ exists p, p ∈ peers node /\ peer_id p = pn_id n) /\
  NoDup (concat (map pn_primary ns)) /\
  (forall s, s ∈ concat (map pn_primary ns) -> vl_primary_owner l !! s = None) /\
  (forall n s, n ∈ ns -> s ∈ pn_replica n -> s ∉ pn_primary n).

Lemma known_node node n :
  negb (pn_id n =? node_id node)%N && negb (existsb (fun p => (peer_id p =? pn_id n)%N) (peers node)) = false <->
  pn_id n = node_id node \/ exists p, p ∈ peers node /\ peer_id p = pn_id n.
Proof.
  rewrite andb_false_iff, !negb_false_iff, N.eqb_eq, existsb_True.
  split; (intros [?|(p & Hp & Hq)]; [by left|right; exists p]); (split; [done|]); by apply N.eqb_eq.
Qed.

Lemma validate_nodes_iff node l ns l' :
  validate_nodes node l ns = Ok l' ->
  loop_ok node l ns /\ vl_holders l' = foldl count_holder (vl_holders l) (concat (map node_shards ns)).
Proof.
  revert l. induction ns as [|n ns IH]; intros l; cbn [validate_nodes].
  { intros [= <-]. split; [|done]. unfold loop_ok. cbn. split_ands; try constructor; set_solver. }
  intros (l1 & Hn & Hr)%bind_Ok_inv. unfold validate_node in Hn.
  destruct (bool_decide _) eqn:Hid; [discriminate|]. bool_facts.
  destruct (negb _ && _) eqn:Hk; [discriminate|]. apply known_node in Hk.
  apply bind_Ok_inv in Hn as (owner & (Hnd & Hfresh & Hdom)%insert_primaries_iff & Hn).
  apply bind_Ok_inv in Hn as ([] & Hrep & [= <-]). rewrite check_replicas_iff in Hrep.
  destruct (IH _ Hr) as [(I1 & I2 & I3 & I4 & I5 & I6) Hh]. cbn [vl_node_ids vl_primary_owner vl_holders] in *.
  assert (Hsep : forall s, s ∈ concat (map pn_primary ns) -> s ∉ pn_primary n).
  { intros s Hs Hin. specialize (I5 s Hs). apply not_elem_of_dom in I5. set_solver. }
  split; [|by rewrite Hh; cbn [map concat]; rewrite foldl_app].
  unfold loop_ok. cbn [map concat]. split_ands.
  - constructor; [|done]. intros (m & Heq & Hm)%list_elem_of_fmap. specialize (I2 m Hm). set_solver.
  - intros m [->|Hm]%elem_of_cons; [done|]. specialize (I2 m Hm). set_solver.
  - intros m [->|Hm]%elem_of_cons; [done|by apply I3].
  - apply NoDup_app. split_ands; [done| |done]. intros s Hs Hin. by apply (Hsep s).
  - intros s [Hs|Hs]%elem_of_app; [by apply Hfresh|]. specialize (I5 s Hs).
    apply not_elem_of_dom. apply not_elem_of_dom in I5. set_solver.
  - intros m s [->|Hm]%elem_of_cons; [apply Hrep|by apply I6].
Qed.

Lemma validate_nodes_ok node l ns :
  loop_ok node l ns -> exists l', validate_nodes node l ns = Ok l'.
Proof.
  revert l. induction ns as [|n ns IH]; intros l (I1 & I2 & I3 & I4 & I5 & I6); cbn [validate_nodes]; [eauto|].
  cbn [map concat] in *. apply NoDup_cons in I1 as [Hn I1]. apply NoDup_app in I4 as (P1 & P2 & P3).
  unfold validate_node. rewrite bool_decide_eq_false_2 by (apply I2; set_solver).
  rewrite (proj2 (known_node node n)) by (apply I3; set_solver).
  destruct (insert_primaries_ok (pn_id n) (vl_primary_owner l) (pn_primary n)) as [owner Ho];
    [done|intros; apply I5; set_solver|].
  rewrite Ho, bind_Ok, (proj2 (check_replicas_iff n _)) by (intros; eapply I6; set_solver). cbn [mbind result_bind].
  apply insert_primaries_iff in Ho as (_ & _ & Hdom). apply IH. unfold loop_ok.
  cbn [vl_node_ids vl_primary_owner]. split_ands; try done.
  - intros m Hm. apply not_elem_of_union. split; [|apply I2; set_solver].
    intros Heq%elem_of_singleton. apply Hn. rewrite <- Heq. by apply list_elem_of_fmap_2.
  - intros m Hm. apply I3. set_solver.
  - intros s Hs. apply not_elem_of_dom. rewrite Hdom.
    assert (s ∉ dom (vl_primary_owner l)) by (apply not_elem_of_dom, I5; set_solver).
    assert (s ∉ pn_primary n) by (intros ?; by apply (P2 s)). set_solver.
  - intros m s Hm. apply I6. set_solver.
Qed.

Lemma all_placed_holders c s k :
  foldl count_holder ∅ (all_placed c) !! s = Some k <->
  s ∈ all_placed c /\ k = N.of_nat (count_occ N.eq_dec (all_placed c) s).
Proof.
  destruct (holders_count (all_placed c) ∅ s) as [Hc Hs]. rewrite lookup_empty in Hc, Hs. cbn in Hc.
  split.
  - intros Hk. rewrite Hk in Hc. cbn in Hc. split; [|lia].
    destruct (proj1 Hs ltac:(by eexists)) as [[? ?]|]; done.
  - intros [Hin ->]. destruct (proj2 Hs (or_intror Hin)) as [k Hk]. rewrite Hk in Hc |- *. cbn in Hc. f_equal. lia.
Qed.

Lemma validate_placement_iff c : validate_placement c = Ok tt <-> placement_ok c.
Proof.
  unfold validate_placement. split.
  - destruct (bool_decide _) eqn:E1; [discriminate|]. destruct (_ =? 0)%N eqn:E2; [discriminate|]. bool_facts.
    intros (l & [(I1 & _ & I3 & I4 & _ & I6) Hh]%validate_nodes_iff & Hc)%bind_Ok_inv.
    rewrite check_holders_iff, Hh in Hc. split; try done. intros s Hs. apply (Hc s).
    apply elem_of_map_to_list. by apply all_placed_holders.
  - intros [P1 P2 P3 P4 P5 P6 P7]. rewrite bool_decide_eq_false_2 by done. rewrite (proj2 (N.eqb_neq _ _) P2).
    destruct (validate_nodes_ok (cf_node c) (mkValidate ∅ ∅ ∅) (placement_nodes (cf_placement c))) as [l Hl].
    { unfold loop_ok. cbn [vl_node_ids vl_primary_owner]. by split_ands. }
    rewrite Hl, bind_Ok. apply validate_nodes_iff in Hl as [_ Hh]. apply check_holders_iff.
    intros s k Hk%elem_of_map_to_list. rewrite Hh in Hk. apply all_placed_holders in Hk as [Hin ->].
    by apply P7.
Qed.

Lemma and_cong (A A' B B' : Prop) : (A <-> A') -> (B <-> B') -> (A /\ B <-> A' /\ B').
Proof. tauto. Qed.

Lemma in_bounds_iff lo hi n : in_bounds lo hi n = true <-> (lo <= n <= hi)%N.
Proof. unfold in_bounds. rewrite andb_true_iff, !N.leb_le. done. Qed.

Lemma unit_bind {E} (r s : result E unit) : (_ ← r; s) = Ok tt <-> r = Ok tt /\ s = Ok tt.
Proof. destruct r as [[]|]; cbn; split; [done|by intros [_ ?]|done|by intros [? _]]. Qed.

Lemma map_err_unit {E F} (f : E -> F) (r : result E unit) : map_err f r = Ok tt <-> r = Ok tt.
Proof. destruct r as [[]|]; done. Qed.

Lemma validate_peers_iff l :
  validate_peers l = Ok tt <->
  forall p a, p ∈ l -> peer_internal_addr p = Some a -> endpoint_from_shared (normalize_endpoint a) = Ok tt.
Proof.
  induction l as [|p l IH]; cbn [validate_peers]; [set_solver|]. rewrite unit_bind, IH.
  split.
  - intros [Hp Hl] q a [->|Hq]%elem_of_cons Ha; [|by eapply Hl]. rewrite Ha in Hp. by apply map_err_unit in Hp.
  - intros Hall. split; [|intros q a Hq; apply Hall; set_solver].
    destruct (peer_internal_addr p) as [a|] eqn:Ha; [|done]. apply map_err_unit, (Hall p); [set_solver|done].
Qed.

Lemma find_None {A} (f : A -> bool) l : List.find f l = None <-> forall x, x ∈ l -> f x = false.
Proof.
  rewrite <- existsb_False. induction l as [|x l IH]; cbn; [done|]. by destruct (f x).
Qed.

Lemma validate_addresses_iff n : validate_addresses n = Ok tt <-> addresses_ok n.
Proof.
  unfold validate_addresses, addresses_ok. rewrite !unit_bind, validate_peers_iff.
  apply and_cong; [|apply and_cong; [done|]].
  - destruct (internal_listen_addr n) as [a|]; [|split; [by intros _ ?|done]].
    rewrite unit_bind, map_err_unit. destruct (bool_decide (a = listen_addr n)) eqn:E; bool_facts.
    + split; [by intros [_ ?]|]. intros Hall. by destruct (Hall a eq_refl).
    + split; [by intros [? _] ? [= <-]|]. intros Hall. split; [by apply Hall|done].
  - destruct (existsb _ (peers n)) eqn:E.
    + apply existsb_True in E as (q & Hq & Hne). bool_facts.
      destruct (bool_decide _) eqn:En; bool_facts.
      { split; [discriminate|]. intros Hall. by destruct (Hall q Hq Hne). }
      destruct (List.find _ (peers n)) as [p|] eqn:Ef.
      { apply find_some in Ef as [Hp%list_elem_of_In Hb]. bool_facts.
        split; [discriminate|]. intros Hall. by destruct (Hall p Hp). }
      rewrite find_None in Ef. split; [|done]. intros _ p Hp Hid. split; [done|].
      specialize (Ef p Hp). rewrite (proj2 (N.eqb_neq _ _) Hid) in Ef. cbn in Ef. by bool_facts.
    + rewrite existsb_False in E. split; [|done]. intros _ p Hp Hid. specialize (E p Hp). by bool_facts.
Qed.

Lemma tls_file_iff name path : tls_file name path = Ok tt <-> file_ok path.
Proof.
  unfold tls_file, file_ok. destruct (fs_read path) as [b|e]; cbn.
  - destruct b as [|x b]; [split; [discriminate|by intros (? & [= <-] & ?)]|]. split; [eauto|done].
  - split; [discriminate|by intros (? & [=] & _)].
Qed.

Lemma tls_validate_iff t : tls_validate t = Ok tt <-> tls_ok t.
Proof.
  unfold tls_validate, tls_ok.
  destruct (cert_file t) as [c|]; [|split; [discriminate|by intros [(? & [=] & _) _]]].
  destruct (key_file t) as [k|]; [|split; [discriminate|by intros (_ & (? & [=] & _) & _)]].
  rewrite !unit_bind, !tls_file_iff. destruct (ca_file t) as [ca|].
  - rewrite tls_file_iff. naive_solver.
  - naive_solver.
Qed.

Lemma config_valid_rules (c : Config) :
  config_validate c = Ok tt <->
  placement_ok c /\ sizes_ok c /\ addresses_ok (cf_node c) /\
  (forall t, cf_tls c = Some t -> tls_ok t).
Proof.
  unfold config_validate, sizes_ok. rewrite unit_bind, validate_placement_iff.
  rewrite <- !in_bounds_iff. apply and_cong; [done|].
  destruct (in_bounds (1024 * 1024) _ _); cbn [negb]; [|by intuition].
  destruct (ss_keep (cf_snapshot c) =? 0)%N eqn:Ek; bool_facts; [by intuition|].
  destruct (in_bounds 1 MAX_AGGREGATE_EVENT_BYTES _); cbn [negb]; [|by intuition].
  destruct (in_bounds 1 MAX_SNAPSHOT_CHUNK_BYTES _); cbn [negb]; [|by intuition].
  rewrite unit_bind, validate_addresses_iff. destruct (cf_tls c) as [t|].
  - rewrite tls_validate_iff. naive_solver.
  - naive_solver.
Qed.

(** *** The documented rules *)

(** What the documentation of [Config::validate] promises of the placement table:
    node ids differ and are known; every shard is in the primary list of exactly
    one node; no shard is both primary and replica of a node; and the nodes that
    hold a shard are as many as the replication factor. *)
Record placement_documented (c : Config) : Prop := {
  pd_nodes : placement_nodes (cf_placement c) <> [];
  pd_factor : replication_factor (cf_placement c) <> 0%N;
  pd_ids : NoDup (map pn_id (placement_nodes (cf_placement c)));
  pd_known : forall n, n ∈ placement_nodes (cf_placement c) ->
    pn_id n = node_id (cf_node c) \/ exists p, p ∈ peers (cf_node c) /\ peer_id p = pn_id n;
  pd_one_primary : forall s, s ∈ all_placed c -> exists n, n ∈ placement_nodes (cf_placement c) /\ s ∈ pn_primary n /\
    forall m, m ∈ placement_nodes (cf_placement c) -> s ∈ pn_primary m -> m = n;
  pd_disjoint : forall n s, n ∈ placement_nodes (cf_placement c) -> s ∈ pn_replica n -> s ∉ pn_primary n;
  pd_copies : forall s, s ∈ all_placed c -> len (shard_members c s) = replication_factor (cf_placement c)
}.

(** What the validation takes for granted: no list names a shard twice, and every
    shard has a primary. *)
Definition listed_once (c : Config) : Prop :=
  forall n, n ∈ placement_nodes (cf_placement c) -> NoDup (pn_primary n) /\ NoDup (pn_replica n).

Definition has_primaries (c : Config) : Prop :=
  forall s, s ∈ all_placed c -> s ∈ concat (map pn_primary (placement_nodes (cf_placement c))).

Lemma hosts_iff n s : hosts n s = true <-> s ∈ node_shards n.
Proof.
  unfold hosts, node_shards. rewrite orb_true_iff, !existsb_True, elem_of_app. setoid_rewrite N.eqb_eq. naive_solver.
Qed.

Lemma count_occ_NoDup (l : list N) s : NoDup l -> count_occ N.eq_dec l s = if bool_decide (s ∈ l) then 1 else 0.
Proof.
  intros Hnd. apply NoDup_ListNoDup in Hnd. case_bool_decide as Hs; rewrite list_elem_of_In in Hs.
  - apply Nat.le_antisymm; [by apply NoDup_count_occ|by apply count_occ_In].
  - by apply count_occ_not_In.
Qed.

(** The entries of a shard are its nodes. *)
Lemma copies_are_nodes ns s :
  (forall n, n ∈ ns -> NoDup (node_shards n)) ->
  count_occ N.eq_dec (concat (map node_shards ns)) s = length (List.filter (fun n => hosts n s) ns).
Proof.
  induction ns as [|n ns IH]; intros Hnd; [done|]. cbn [map concat List.filter].
  rewrite count_occ_app, IH by (intros; apply Hnd; by right). rewrite count_occ_NoDup by (apply Hnd; by left).
  pose proof (hosts_iff n s) as Hh. destruct (hosts n s).
  - by rewrite bool_decide_eq_true_2 by (by apply Hh).
  - rewrite bool_decide_eq_false_2; [done|]. intros Hs. by apply Hh in Hs.
Qed.

Lemma length_shard_members c s :
  len (shard_members c s) = N.of_nat (length (List.filter (fun n => hosts n s) (placement_nodes (cf_placement c)))).
Proof. unfold len, shard_members, sort_n. by rewrite merge_sort_Permutation, length_map. Qed.

Lemma node_shards_NoDup c n :
  listed_once c -> (forall n s, n ∈ placement_nodes (cf_placement c) -> s ∈ pn_replica n -> s ∉ pn_primary n) ->
  n ∈ placement_nodes (cf_placement c) -> NoDup (node_shards n).
Proof. intros Ho Hd Hn. destruct (Ho n Hn). apply NoDup_app. split_ands; [done| |done]. intros s Hp Hr. by apply (Hd n s). Qed.

Lemma copies_documented c s :
  listed_once c -> (forall n s, n ∈ placement_nodes (cf_placement c) -> s ∈ pn_replica n -> s ∉ pn_primary n) ->
  N.of_nat (count_occ N.eq_dec (all_placed c) s) = len (shard_members c s).
Proof.
  intros Ho Hd. rewrite length_shard_members. unfold all_placed. f_equal. apply copies_are_nodes.
  intros n Hn. by eapply node_shards_NoDup.
Qed.

(** A list of lists without repetition: each list, and two lists apart. *)
Lemma NoDup_concat_map {A B} (f : A -> list B) l :
  NoDup l -> NoDup (concat (map f l)) <->
  (forall a, a ∈ l -> NoDup (f a)) /\ (forall a b x, a ∈ l -> b ∈ l -> x ∈ f a -> x ∈ f b -> a = b).
Proof.
  assert (Hin : forall l x, x ∈ concat (map f l) <-> exists a, a ∈ l /\ x ∈ f a).
  { intros l' x. rewrite list_elem_of_In, in_concat. split.
    - intros (y & (a & <- & Ha)%in_map_iff & Hx). exists a. by rewrite !list_elem_of_In.
    - intros (a & Ha & Hx). exists (f a). rewrite in_map_iff, <- list_elem_of_In. split; [|done]. exists a. by rewrite <- list_elem_of_In. }
  induction 1 as [|a l Ha _ IH]; cbn [map concat]; [split; [intros _; split; set_solver|constructor]|].
  rewrite NoDup_app, IH. split.
  - intros (H1 & H2 & H3 & H4). split; [set_solver|]. intros b1 b2 x [->|Hb1]%elem_of_cons [->|Hb2]%elem_of_cons Hx1 Hx2;
      [done| | |by eapply H4]; exfalso; eapply H2; eauto; apply Hin; eauto.
  - intros [H1 H2]. split_ands; [apply H1; by left| |intros; apply H1; by right|intros; eapply H2; [by right..|done|done]].
    intros x Hx (b & Hb & Hxb)%Hin. apply Ha. rewrite (H2 a b x); [done|by left|by right|done|done].
Qed.

Lemma placement_documented_iff c :
  listed_once c -> placement_ok c /\ has_primaries c <-> placement_documented c.
Proof.
  intros Ho.
  assert (Hin : forall s, s ∈ concat (map pn_primary (placement_nodes (cf_placement c))) <->
            exists n, n ∈ placement_nodes (cf_placement c) /\ s ∈ pn_primary n).
  { intros s. rewrite list_elem_of_In, in_concat. split.
    - intros (y & (a & <- & Ha)%in_map_iff & Hx). exists a. by rewrite !list_elem_of_In.
    - intros (a & Ha & Hx). exists (pn_primary a). rewrite in_map_iff, <- list_elem_of_In. split; [|done]. exists a. by rewrite <- list_elem_of_In. }
  split.
  - intros [[P1 P2 P3 P4 P5 P6 P7] Hp]. pose proof (NoDup_fmap_1 _ _ P3) as Hnd.
    apply NoDup_concat_map in P5 as [_ P5]; [|done]. split; try done.
    + intros s (n & Hn & Hs)%Hp%Hin. exists n. split_ands; [done|done|]. intros m Hm Hsm. by apply (P5 m n s).
    + intros s Hs. rewrite <- copies_documented by done. by apply P7.
  - intros [P1 P2 P3 P4 P5 P6 P7]. split.
    + split; try done.
      * apply NoDup_concat_map; [exact (NoDup_fmap_1 _ _ P3)|]. split; [intros n Hn; apply (Ho n Hn)|].
        intros a b s Ha Hb Hsa Hsb. destruct (P5 s) as (n & _ & _ & Huniq).
        { unfold all_placed. apply list_elem_of_In, in_concat. exists (node_shards a).
          rewrite in_map_iff, <- list_elem_of_In. split; [exists a; by rewrite <- list_elem_of_In|].
          unfold node_shards. apply elem_of_app. by left. }
        by rewrite (Huniq a Ha Hsa), (Huniq b Hb Hsb).
      * intros s Hs. rewrite copies_documented by done. by apply P7.
    + intros s (n & Hn & Hs & _)%P5. apply Hin. by exists n.
Qed.

(** C32: the start-up validation enforces its documented rules, for
    configurations whose lists name no shard twice and that give every shard a
    primary. Among the configurations whose lists name no shard twice, those that
    are accepted and have a primary for every shard are exactly those that satisfy
    the documented rules of the placement (every shard in exactly one primary
    list, and held by as many nodes as the replication factor says), with the
    sizes within the bounds of the messages, addresses and certificate files
    usable, and internal addresses for every other node. (The two conditions are
    documented as well but not checked: [config_accepts_missing_copies].) *)
Theorem config_validate_documented (c : Config) (Honce : listed_once c) :
  config_validate c = Ok tt /\ has_primaries c <->
  placement_documented c /\ sizes_ok c /\ addresses_ok (cf_node c) /\
  (forall t, cf_tls c = Some t -> tls_ok t).
Proof. rewrite config_valid_rules, <- placement_documented_iff by done. tauto. Qed.

(** The copies of a shard are counted as list entries and not as nodes, and
    no rule asks for a primary: a configuration with replication factor 2 is
    accepted whose only shard has no primary and is held by a single node, the
    one node listing it twice as a replica. *)
Theorem config_accepts_missing_copies :
  exists c, config_validate c = Ok tt /\ replication_factor (cf_placement c) = 2%N /\
    all_placed c = [0; 0]%N /\ concat (map pn_primary (placement_nodes (cf_placement c))) = [] /\
    shard_members c 0 = [1%N].
Proof.
  exists (mkConfig (mkNode 1 "127.0.0.1:50051" None []) (cf_storage config_default)
    (mkPlacementConfig 2 [mkPlacementNode 1 [] [0; 0]%N]) snapshot_section_default None limits_default).
  split_ands; vm_compute; reflexivity.
Qed.

End Rules.

(** ** Witness *)

(** A platform that accepts every address and reads every file. *)
Definition open_platform : Platform := {|
  fs_read _ := Ok [x01];
  parse_socket_addr _ := Ok tt;
  endpoint_from_shared _ := Ok tt;
  tls_apply _ _ := Ok tt;
  debug_path p := quote p
|}.

(** Two nodes, each with one shard as primary and the other's as replica. *)
Definition demo_two_nodes : Config :=
  mkConfig (mkNode 1 "127.0.0.1:50051" (Some "127.0.0.1:51051") [mkPeer 2 "127.0.0.1:50052" (Some "127.0.0.1:51052")])
    (cf_storage config_default)
    (mkPlacementConfig 2 [mkPlacementNode 1 [0%N] [1%N]; mkPlacementNode 2 [1%N] [0%N]])
    snapshot_section_default None limits_default.

Lemma demo_two_nodes_once : listed_once demo_two_nodes.
Proof.
  intros n Hn. cbn in Hn. apply elem_of_cons in Hn as [->|[->|Hn]%elem_of_cons]; [| |by apply elem_of_nil in Hn];
    split; apply NoDup_singleton.
Qed.

Lemma config_validate_documented_witness :
  placement_documented demo_two_nodes /\ shard_members demo_two_nodes 0 = [1; 2]%N.
Proof.
  split; [|vm_compute; reflexivity].
  refine (proj1 (proj1 (@config_validate_documented open_platform demo_two_nodes demo_two_nodes_once) (conj _ _))).
  - vm_compute. reflexivity.
  - intros s Hs. cbn in Hs |- *. rewrite !elem_of_cons in Hs |- *. set_solver.
Defined.
