(* ===== verification/Topology.v ===== *)
(** * es-server: run-time topology and leader lookup

    [es-server/src/rpc_support.rs]: the topology snapshot an operation works
    with and its hot reload, the lookup of remote leaders, and the mapping of
    Raft write errors to gRPC statuses; with [normalize_endpoint] and
    [apply_endpoint_tls] of es-proto and [build_clients] of [bootstrap.rs].

    A gRPC client is the URI it was built for: [connect_lazy] does no I/O. The
    world an RPC acts on is the type [W], the RPC a parameter. *)

From S2P Require Import Prelude.
From S2P Require Import Bytes.
From S2P Require Import Core.
From S2P Require Import Redirect.
From S2P Require Import Config.

(** ** gRPC statuses *)

(** The codes of [tonic::Code] the server uses, and the others by number. *)
Inductive Code : Type :=
| CodeInvalidArgument | CodeNotFound | CodeAlreadyExists | CodeFailedPrecondition
| CodeUnavailable | CodeInternal | CodeOther (code : N).

#[export] Instance Code_eq_dec : EqDecision Code.
Proof. solve_decision. Defined.

Record Status : Type := mkStatus { st_code : Code; st_message : string }.

#[export] Instance Status_eq_dec : EqDecision Status.
Proof. solve_decision. Defined.

Definition invalid_argument (m : string) : Status := mkStatus CodeInvalidArgument m.
Definition not_found (m : string) : Status := mkStatus CodeNotFound m.
Definition already_exists (m : string) : Status := mkStatus CodeAlreadyExists m.
Definition failed_precondition (m : string) : Status := mkStatus CodeFailedPrecondition m.
Definition unavailable (m : string) : Status := mkStatus CodeUnavailable m.
Definition internal (m : string) : Status := mkStatus CodeInternal m.

(** openraft's [RaftError<ClientWriteError>], with the [Display] of the errors
    the code only prints. *)
Inductive RaftWriteError : Type :=
| ForwardToLeader (leader_id : option N) (leader_node : option string)
| ChangeMembershipError (display : string)
| FatalError (display : string).

Definition leader_hint (id : N) (addr : string) : string :=
  "not leader; leader_id=" +:+ pretty id +:+ " leader_addr=" +:+ addr.

Definition leader_unknown : string := "not leader; leader unknown, retry later".

Definition client_write_to_status (e : RaftWriteError) : Status :=
  match e with
  | ForwardToLeader leader_id leader_node =>
      let addr := default "" leader_node in
      match leader_id with
      | Some id => unavailable (leader_hint id addr)
      | None => unavailable leader_unknown
      end
  | ChangeMembershipError m => failed_precondition ("成员变更错误: " +:+ m)
  | FatalError m => internal ("Raft 致命错误: " +:+ m)
  end.

(** ** Remote shards *)

(** What the code reads of [GetRaftStateResponse]. *)
Record RaftState : Type := mkRaftState {
  rf_is_leader : bool;
  rf_has_last_log_index : bool;
  rf_last_log_index : N;
  rf_voter_ids : list N
}.

Record RemoteShards : Type := mkRemote {
  rs_self_id : N;
  rs_clients : gmap N string;
  rs_addrs : gmap N string;
  rs_internal_addrs : gmap N string;
  rs_tls : option TlsClientConfig
}.

(** [collect] into a [BTreeMap]: a later pair replaces an earlier one. *)
Definition collect_map {A} (l : list (N * A)) : gmap N A :=
  foldl (fun m kv => <[kv.1 := kv.2]> m) ∅ l.

Section Remote.
Context `{Platform}.

(** es-proto/src/tls.rs, [apply_endpoint_tls]: only an https endpoint is set up
    for TLS, by default without verification. *)
Definition apply_endpoint_tls (uri : string) (tls : option TlsClientConfig) : result string unit :=
  if negb (starts_with "https://" uri) then Ok tt
  else match tls with Some cfg => tls_apply cfg uri | None => tls_apply SkipVerify uri end.

(** bootstrap.rs, [build_clients]. *)
Fixpoint build_clients_loop (out : gmap N string) (tls : option TlsClientConfig) (l : list (N * string)) :
    result string (gmap N string) :=
  match l with
  | [] => Ok out
  | (id, addr) :: l' =>
      let uri := normalize_endpoint addr in
      _ ← map_err (fun e => "节点 " +:+ pretty id +:+ " 地址 " +:+ uri +:+ " 非法：" +:+ e)
            (endpoint_from_shared uri);
      _ ← map_err (fun e => "节点 " +:+ pretty id +:+ " TLS 配置失败（" +:+ uri +:+ "）: " +:+ e)
            (apply_endpoint_tls uri tls);
      build_clients_loop (<[id := uri]> out) tls l'
  end.

Definition build_clients (members : gmap N string) (tls : option TlsClientConfig) :
    result string (gmap N string) :=
  build_clients_loop ∅ tls (btree_iter members).

Definition peer_members (c : Config) : gmap N string :=
  collect_map (map (fun p => (peer_id p, normalize_endpoint (peer_addr p))) (peers (cf_node c))).

Definition peer_internal (p : PeerConfig) : list (N * string) :=
  match peer_internal_addr p with Some a => [(peer_id p, normalize_endpoint a)] | None => [] end.

(** [config.tls.as_ref().map(|tls| tls.client_trust()).transpose()]. *)
Definition tls_trust (c : Config) : result string (option TlsClientConfig) :=
  match cf_tls c with Some t => trust ← client_trust t; Ok (Some trust) | None => Ok None end.

(** [RemoteShards::new]. *)
Definition remote_new (c : Config) : result string RemoteShards :=
  let members := peer_members c in
  tls ← tls_trust c;
  clients ← build_clients members tls;
  Ok (mkRemote (node_id (cf_node c)) clients members
        (collect_map (concat (map peer_internal (peers (cf_node c))))) tls).

(** ** Topology *)

Record RuntimeTopologySnapshot : Type := mkTopology {
  tp_remote : RemoteShards;
  tp_all_shards : list N;
  tp_control_shard_id : N
}.

(** The elements of a [BTreeSet], in ascending order. *)
Definition btree_set (l : list N) : list N := dedup (sort_n l).

(** [RuntimeTopologySnapshot::from_config]. *)
Definition from_config (c : Config) : result string RuntimeTopologySnapshot :=
  let all_shards := btree_set (all_placed c) in
  control ← ok_or "AggregateStore 要求至少一个 Shard" (head all_shards);
  remote ← remote_new c;
  Ok (mkTopology remote all_shards control).

Fixpoint debug_ns (l : list N) : string :=
  match l with [] => "" | [x] => pretty x | x :: l' => pretty x +:+ ", " +:+ debug_ns l' end.

(** [RuntimeTopology::reload]: the new snapshot, or the error with which the old
    one is kept. *)
Definition reload (current : RuntimeTopologySnapshot) (c : Config) :
    RuntimeTopologySnapshot * result string unit :=
  match from_config c with
  | Err e => (current, Err e)
  | Ok next =>
      if negb (tp_control_shard_id next =? tp_control_shard_id current)%N
      then (current, Err ("运行期不能变更控制 Shard：当前 " +:+ pretty (tp_control_shard_id current) +:+
                          "，新配置 " +:+ pretty (tp_control_shard_id next)))
      else
        let removed := List.filter (fun s => negb (existsb (N.eqb s) (tp_all_shards next)))
                         (tp_all_shards current) in
        if negb (bool_decide (removed = []))
        then (current, Err ("运行期不能移除 Shard：[" +:+ debug_ns removed +:+ "]"))
        else (next, Ok tt)
  end.

End Remote.

(** ** Finding a leader *)

Section Leader.
Context {W : Type} (get_raft_state : N -> N -> W -> W * option RaftState).

(** [find_leader]: ask the nodes other than this one in ascending order. *)
Fixpoint find_leader_loop (r : RemoteShards) (shard_id : N) (nodes : list N) (w : W) :
    W * option (N * string) :=
  match nodes with
  | [] => (w, None)
  | node :: rest =>
      if (node =? rs_self_id r)%N then find_leader_loop r shard_id rest w
      else
        match get_raft_state node shard_id w with
        | (w, Some st) =>
            if rf_is_leader st then (w, Some (node, default "" (rs_addrs r !! node)))
            else find_leader_loop r shard_id rest w
        | (w, None) => find_leader_loop r shard_id rest w
        end
  end.

Definition find_leader (r : RemoteShards) (shard_id : N) (w : W) : W * option (N * string) :=
  find_leader_loop r shard_id (btree_iter (rs_clients r)).*1 w.

(** [leader_hint_status]. *)
Definition leader_hint_status (r : RemoteShards) (shard_id : N) (w : W) : W * Status :=
  match find_leader r shard_id w with
  | (w, Some (id, addr)) => (w, unavailable (leader_hint id addr))
  | (w, None) => (w, unavailable leader_unknown)
  end.

End Leader.

(** ** Lemmas: sorted sets *)

#[export] Instance N_le_total : Total N.le.
Proof. intros x y. lia. Qed.

#[export] Instance N_le_trans : Transitive N.le.
Proof. intros x y z. lia. Qed.

Lemma dedup_cons a b l : dedup (a :: b :: l) = if (a =? b)%N then dedup (b :: l) else a :: dedup (b :: l).
Proof. reflexivity. Qed.

Lemma elem_of_dedup l x : x ∈ dedup l <-> x ∈ l.
Proof.
  induction l as [|a l IH]; [done|]. destruct l as [|b l]; [done|]. rewrite dedup_cons.
  destruct (a =? b)%N eqn:E; bool_facts.
  - subst b. rewrite IH. set_solver.
  - rewrite !elem_of_cons, IH. set_solver.
Qed.

Lemma dedup_sorted l : StronglySorted N.le l -> StronglySorted N.lt (dedup l).
Proof.
  induction 1 as [|a l Hl IH Ha]; [constructor|]. destruct l as [|b l]; [repeat constructor|].
  rewrite dedup_cons. destruct (a =? b)%N eqn:E; bool_facts; [done|]. constructor; [done|].
  apply Forall_forall. intros x Hx. rewrite elem_of_dedup in Hx.
  apply Forall_cons in Ha as [Hab _]. apply StronglySorted_inv in Hl as [_ Hb].
  apply elem_of_cons in Hx as [->|Hx]; [lia|]. rewrite Forall_forall in Hb. specialize (Hb x Hx). lia.
Qed.

Lemma btree_set_sorted l : StronglySorted N.lt (btree_set l).
Proof. apply dedup_sorted. unfold sort_n. apply (StronglySorted_merge_sort N.le). Qed.

Lemma elem_of_btree_set l x : x ∈ btree_set l <-> x ∈ l.
Proof. unfold btree_set, sort_n. by rewrite elem_of_dedup, merge_sort_Permutation. Qed.

Lemma sorted_head l x y : StronglySorted N.lt l -> head l = Some x -> y ∈ l -> (x <= y)%N.
Proof.
  intros Hs Hx Hy. destruct Hs as [|a l Hl Ha]; [done|]. injection Hx as ->.
  apply elem_of_cons in Hy as [->|Hy]; [done|]. rewrite Forall_forall in Ha. specialize (Ha y Hy). lia.
Qed.

(** ** Properties *)

Section Properties.
Context `{Platform}.

(** A snapshot taken from a configuration: all placed shards in ascending order
    and the least of them as the control shard. *)
Definition topology_of (tp : RuntimeTopologySnapshot) (c : Config) : Prop :=
  StronglySorted N.lt (tp_all_shards tp) /\
  (forall s, s ∈ tp_all_shards tp <-> s ∈ all_placed c) /\
  tp_control_shard_id tp ∈ all_placed c /\ (forall s, s ∈ all_placed c -> (tp_control_shard_id tp <= s)%N).

Lemma from_config_spec c tp : from_config c = Ok tp -> topology_of tp c.
Proof.
  unfold from_config. intros (ctl & Hctl & (r & _ & [= <-])%bind_Ok_inv)%bind_Ok_inv.
  destruct (head (btree_set (all_placed c))) as [x|] eqn:Hx; [|discriminate]. injection Hctl as ->.
  unfold topology_of. cbn. split_ands.
  - apply btree_set_sorted.
  - apply elem_of_btree_set.
  - apply elem_of_btree_set. destruct (btree_set (all_placed c)); [done|]. injection Hx as ->. left.
  - intros s Hs. apply (sorted_head (btree_set (all_placed c))); [apply btree_set_sorted|done|].
    by apply elem_of_btree_set.
Qed.

Lemma reload_cases (c0 c : Config) (current next : RuntimeTopologySnapshot) (r : result string unit)
  (Hcur : from_config c0 = Ok current) (Hr : reload current c = (next, r)) :
  (r = Ok tt /\ topology_of next c /\ tp_control_shard_id next = tp_control_shard_id current /\
   (forall s, s ∈ tp_all_shards current -> s ∈ tp_all_shards next)) \/
  (next = current /\ r <> Ok tt).
Proof.
  unfold reload in Hr. destruct (from_config c) as [tp|e] eqn:Hc; [|injection Hr as <- <-; by right].
  destruct (tp_control_shard_id tp =? tp_control_shard_id current)%N eqn:Ec; cbn [negb] in Hr; bool_facts;
    [|injection Hr as <- <-; by right].
  destruct (bool_decide _) eqn:Ef; cbn [negb] in Hr; bool_facts; [|injection Hr as <- <-; by right].
  injection Hr as <- <-. left. split_ands; [done|by apply from_config_spec|done|].
  intros s Hs. destruct (existsb (N.eqb s) (tp_all_shards tp)) eqn:E.
  - apply existsb_True in E as (x & Hx & ->%N.eqb_eq). done.
  - exfalso. assert (Hin : In s (List.filter (fun s => negb (existsb (N.eqb s) (tp_all_shards tp)))
                                   (tp_all_shards current))).
    { apply filter_In. split; [by apply list_elem_of_In|]. by rewrite E. }
    rewrite Ef in Hin. destruct Hin.
Qed.

End Properties.

Lemma leader_hint_bytes id addr : as_bytes (leader_hint id addr) = leader_hint_message (Some (id, as_bytes addr)).
Proof. unfold leader_hint, leader_hint_message. by rewrite !as_bytes_app. Qed.

Section LeaderLookup.
Context {W : Type} (get_raft_state : N -> N -> W -> W * option RaftState).

(** A leader that was found is another node that answered as the leader. *)
Lemma find_leader_loop_spec r shard_id nodes w w' node addr :
  find_leader_loop get_raft_state r shard_id nodes w = (w', Some (node, addr)) ->
  node ∈ nodes /\ node <> rs_self_id r /\ addr = default "" (rs_addrs r !! node) /\
  exists w0 st, get_raft_state node shard_id w0 = (w', Some st) /\ rf_is_leader st = true.
Proof.
  revert w. induction nodes as [|n nodes IH]; intros w; cbn [find_leader_loop]; [discriminate|].
  destruct (n =? rs_self_id r)%N eqn:En; bool_facts.
  { intros (Hin & ? & ? & ?)%IH. split_ands; try done. set_solver. }
  destruct (get_raft_state n shard_id w) as [w1 [st|]] eqn:Hg.
  - destruct (rf_is_leader st) eqn:Hl.
    + intros [= <- <- <-]. split_ands; [set_solver|done|done|]. eauto.
    + intros (Hin & ? & ? & ?)%IH. split_ands; try done. set_solver.
  - intros (Hin & ? & ? & ?)%IH. split_ands; try done. set_solver.
Qed.

Lemma leader_hint_status_code r shard_id w : st_code (leader_hint_status get_raft_state r shard_id w).2 = CodeUnavailable.
Proof. unfold leader_hint_status. by destruct (find_leader _ _ _ _) as [w' [[? ?]|]]. Qed.

(** A redirect survives its trip. Whether the server learned the leader from
    Raft's refusal of a write or by asking the other nodes, the status it sends
    is [Unavailable] and the client parses exactly the leader's address out of
    its message (an address that is not empty and has no white space around
    it); asked nodes are only believed when they answered as leaders, and an
    unknown leader gives no redirect. *)
Theorem leader_status_round_trip (r : RemoteShards) (shard_id : N) (w w' : W) (st : Status)
  (id : N) (addr : string)
  (Hne : as_bytes addr <> []) (Htrim : trimmed (as_bytes addr)) :
  (client_write_to_status (ForwardToLeader (Some id) (Some addr)) = st ->
   st_code st = CodeUnavailable /\ parse_leader_hint (as_bytes (st_message st)) = Some (as_bytes addr)) /\
  (leader_hint_status get_raft_state r shard_id w = (w', st) ->
   st_code st = CodeUnavailable /\
   ((exists n w0 s, n <> rs_self_id r /\ get_raft_state n shard_id w0 = (w', Some s) /\ rf_is_leader s = true /\
       (rs_addrs r !! n = Some addr -> parse_leader_hint (as_bytes (st_message st)) = Some (as_bytes addr))) \/
    parse_leader_hint (as_bytes (st_message st)) = None)).
Proof.
  split.
  - intros <-. cbn [client_write_to_status default from_option st_code st_message unavailable]. split; [done|].
    rewrite leader_hint_bytes. by apply leader_hint_parses.
  - unfold leader_hint_status, find_leader. destruct (find_leader_loop _ _ _ _ _) as [w1 [[n a]|]] eqn:Hf.
    + intros [= <- <-]. split; [done|]. left.
      apply find_leader_loop_spec in Hf as (_ & Hself & Ha & w0 & s & Hg & Hl).
      exists n, w0, s. split_ands; try done. intros Haddr. rewrite Haddr in Ha. cbn in Ha. subst a.
      cbn [st_message unavailable]. rewrite leader_hint_bytes. by apply leader_hint_parses.
    + intros [= <- <-]. split; [done|]. right. vm_compute. reflexivity.
Qed.

End LeaderLookup.

(** ** Witnesses *)

Definition demo_platform : Platform := {|
  fs_read _ := Ok [x01];
  parse_socket_addr _ := Ok tt;
  endpoint_from_shared _ := Ok tt;
  tls_apply _ _ := Ok tt;
  debug_path p := quote p
|}.

(** Node 2 answers as the leader of every shard. *)
Definition demo_remote : RemoteShards :=
  mkRemote 1 {[1%N := "http://a:1"; 2%N := "http://b:2"]} {[1%N := "http://a:1"; 2%N := "http://b:2"]} ∅ None.

Lemma leader_status_round_trip_witness :
  parse_leader_hint (as_bytes (st_message (client_write_to_status (ForwardToLeader (Some 2%N) (Some "http://b:2"))))) =
    Some (as_bytes "http://b:2").
Proof.
  refine (proj2 (proj1 (@leader_status_round_trip unit (fun n _ w => (w, Some (mkRaftState (n =? 2)%N false 0 [])))
    demo_remote 0 tt tt _ 2 "http://b:2" _ _) eq_refl)).
  - vm_compute. discriminate.
  - split; vm_compute; reflexivity.
Defined.
