(* ===== verification/Bootstrap.v ===== *)
(** * es-server and es-raft: forming the cluster and following the configuration

    [es-server/src/bootstrap.rs]: how a node decides whether to form a cluster,
    the members of a shard, the probing of the peers and the initialisation;
    [es-raft/src/manager.rs]: the registry of a node's shards;
    [es-server/src/watcher.rs] and [main.rs]: applying a changed configuration
    at run time, and the command-line overrides.

    Effects act on a world [W]: the RPC to a peer, openraft's [is_initialized]
    and [initialize], and the creation of a shard are parameters. Sleeping
    changes nothing the code reads. Where the source only logs how it ended,
    the model returns that outcome. *)

From S2P Require Import Prelude.
From S2P Require Import Bytes.
From S2P Require Import Core.
From S2P Require Import Keys.
From S2P Require Import Config.
From S2P Require Import Topology.

(** ** Modes *)

Inductive BootstrapMode : Type :=
| Disabled
| WaitOnly
| BootstrapWith (members : gmap N string).

Section Decide.
Context `{Platform}.

Fixpoint decide_members (seen : gset N) (members : gmap N string) (l : list PeerConfig) :
    result string (gmap N string) :=
  match l with
  | [] => Ok members
  | p :: l' =>
      if bool_decide (peer_id p ∈ seen) then Err ("node.peers 含重复节点 id " +:+ pretty (peer_id p))
      else
        let uri := normalize_endpoint (peer_addr p) in
        _ ← map_err (fun e => "node.peers 中节点 " +:+ pretty (peer_id p) +:+ " 地址 " +:+ uri +:+
                       " 非法：" +:+ e) (endpoint_from_shared uri);
        decide_members ({[peer_id p]} ∪ seen) (<[peer_id p := uri]> members) l'
  end.

(** [decide_mode]. *)
Definition decide_mode (c : Config) : result string BootstrapMode :=
  if bool_decide (length (peers (cf_node c)) = 0) then Ok Disabled
  else
    members ← decide_members ∅ ∅ (peers (cf_node c));
    if bool_decide (is_Some (members !! node_id (cf_node c)))
    then Ok (BootstrapWith members) else Ok WaitOnly.

End Decide.

(** [shard_members_map]. *)
Definition shard_members_map (all : gmap N string) (c : Config) (shard_id : N) : gmap N string :=
  collect_map (concat (map (fun id => match all !! id with Some a => [(id, a)] | None => [] end)
    (shard_members c shard_id))).

(** ** Probing and initialising *)

Inductive ProbeOutcome : Type :=
| ClusterExists (peer : N) (voters : list N)
| NoCluster
| Unreachable (l : list N).

Inductive InitResult : Type :=
| InitOk | InitNotAllowed | InitNotInMembers | InitFailed.

(** How the bootstrap of a shard ended, as the log says. *)
Inductive BootOutcome : Type :=
| NoShard
| InitQueryFailed
| AlreadyInitialized
| JoinExisting (same_members : bool)
| InitializedHere
| InitializedElsewhere
| NotAMember
| GaveUp.

Definition PROBE_ATTEMPTS : nat := 5.
Definition INIT_ATTEMPTS : nat := 3.

(** [same_ids]. *)
Definition same_ids (voters config_ids : list N) : bool :=
  bool_decide (sort_n voters = sort_n config_ids).

(** A peer that answered as part of a cluster. *)
Definition has_cluster (r : RaftState) : bool :=
  (rf_has_last_log_index r && (0 <? rf_last_log_index r)%N) || negb (bool_decide (length (rf_voter_ids r) = 0)).

Section Probe.
Context {W : Type} (get_raft_state : N -> N -> W -> W * option RaftState).
Context (has_shard : N -> W -> bool) (is_initialized : N -> W -> W * option bool).
Context (initialize : N -> gmap N string -> W -> W * InitResult).

(** One round over the peers: the first that is part of a cluster, or those that
    did not answer. *)
Fixpoint probe_round (clients : gmap N string) (shard_id : N) (unreachable : list N) (l : list N) (w : W) :
    W * (ProbeOutcome + list N) :=
  match l with
  | [] => (w, inr unreachable)
  | pid :: l' =>
      match clients !! pid with
      | None => probe_round clients shard_id unreachable l' w
      | Some _ =>
          match get_raft_state pid shard_id w with
          | (w, Some r) =>
              if has_cluster r then (w, inl (ClusterExists pid (rf_voter_ids r)))
              else probe_round clients shard_id unreachable l' w
          | (w, None) => probe_round clients shard_id (unreachable ++ [pid]) l' w
          end
      end
  end.

Fixpoint probe_rounds (attempts : nat) (clients : gmap N string) (shard_id : N) (peers unreachable : list N)
    (w : W) : W * ProbeOutcome :=
  match attempts with
  | O => (w, Unreachable unreachable)
  | S n =>
      match probe_round clients shard_id [] peers w with
      | (w, inl found) => (w, found)
      | (w, inr []) => (w, NoCluster)
      | (w, inr missing) => probe_rounds n clients shard_id peers missing w
      end
  end.

Definition other_members (members : gmap N string) (self_id : N) : list N :=
  List.filter (fun id => negb (id =? self_id)%N) (btree_iter members).*1.

(** [probe]. *)
Definition probe (clients members : gmap N string) (self_id shard_id : N) (w : W) : W * ProbeOutcome :=
  probe_rounds PROBE_ATTEMPTS clients shard_id (other_members members self_id) [] w.

(** [try_initialize]. *)
Fixpoint try_initialize (attempts : nat) (shard_id : N) (members : gmap N string) (w : W) : W * BootOutcome :=
  match attempts with
  | O => (w, GaveUp)
  | S n =>
      match initialize shard_id members w with
      | (w, InitOk) => (w, InitializedHere)
      | (w, InitNotAllowed) => (w, InitializedElsewhere)
      | (w, InitNotInMembers) => (w, NotAMember)
      | (w, InitFailed) => try_initialize n shard_id members w
      end
  end.

(** [bootstrap_shard]. *)
Definition bootstrap_shard (shard_id : N) (members clients : gmap N string) (self_id : N) (w : W) :
    W * BootOutcome :=
  if negb (has_shard shard_id w) then (w, NoShard)
  else
    match is_initialized shard_id w with
    | (w, Some true) => (w, AlreadyInitialized)
    | (w, None) => (w, InitQueryFailed)
    | (w, Some false) =>
        match is_initialized shard_id w with
        | (w, Some true) => (w, AlreadyInitialized)
        | (w, _) =>
            match probe clients members self_id shard_id w with
            | (w, ClusterExists _ voters) => (w, JoinExisting (same_ids voters (btree_iter members).*1))
            | (w, NoCluster) | (w, Unreachable _) => try_initialize INIT_ATTEMPTS shard_id members w
            end
        end
    end.

End Probe.

(** ** The registry of shards *)

(** [ShardManager]; [S] is the shard handle. *)
Record ShardManager (S : Type) : Type := mkManager {
  sm_shards : gmap N S;
  sm_num_shards : N;
  sm_node_id : N
}.
Arguments mkManager {S}.
Arguments sm_shards {S}.
Arguments sm_num_shards {S}.
Arguments sm_node_id {S}.

Section Manager.
Context {S : Type}.

Definition manager_new (node_id num_shards : N) : ShardManager S := mkManager ∅ num_shards node_id.

(** [register_shard]; [shard_id + 1] wraps in the release profile. *)
Definition register_shard (m : ShardManager S) (shard_id : N) (shard : S) : Result (ShardManager S) :=
  match sm_shards m !! shard_id with
  | Some _ => Err (InvalidInput ("shard " +:+ pretty shard_id +:+ " already registered"))
  | None => Ok (mkManager (<[shard_id := shard]> (sm_shards m))
                  (N.max (sm_num_shards m) (wrapping_add_u64 shard_id 1)) (sm_node_id m))
  end.

Definition get_shard (m : ShardManager S) (shard_id : N) : Result S :=
  ok_or (NotFound ("shard " +:+ pretty shard_id +:+ " not found")) (sm_shards m !! shard_id).

Definition shard_ids (m : ShardManager S) : list N := sort_n (map_to_list (sm_shards m)).*1.

End Manager.

(** [apply_overrides]. *)
Definition apply_overrides (c : Config) (id : option N) (listen : option string) : Config :=
  let n := cf_node c in
  let n := match id with Some i => mkNode i (listen_addr n) (internal_listen_addr n) (peers n) | None => n end in
  let n := match listen with Some l => mkNode (node_id n) l (internal_listen_addr n) (peers n) | None => n end in
  mkConfig n (cf_storage c) (cf_placement c) (cf_snapshot c) (cf_tls c) (cf_limits c).

Section Run.
Context {W S : Type} `{Platform}.
Context (get_raft_state : N -> N -> W -> W * option RaftState).
Context (is_initialized : N -> W -> W * option bool) (initialize : N -> gmap N string -> W -> W * InitResult).
Context (create_shard : Config -> N -> W -> W * result string S) (toml_from_str : string -> result string Config).

(** ** Forming the clusters of the shards *)

(** The background task of one shard. *)
Definition boot_task (c : Config) (m : ShardManager S) (clients : gmap N string) (task : N * gmap N string) (w : W) :
    W * BootOutcome :=
  bootstrap_shard get_raft_state (fun s _ => bool_decide (is_Some (sm_shards m !! s))) is_initialized initialize
    task.1 task.2 clients (node_id (cf_node c)) w.

(** [run], up to the tasks it spawns: the reason for which it stops early, or the
    probing clients and the tasks, one for each shard with its members. *)
Inductive BootPlan : Type :=
| PlanConfigError (e : string)
| PlanDisabled
| PlanWait
| PlanTlsError (e : string)
| PlanClientsError (e : string)
| PlanTasks (clients : gmap N string) (tasks : list (N * gmap N string)).

Definition shard_tasks (c : Config) (members : gmap N string) (shards : list N) : list (N * gmap N string) :=
  List.filter (fun task => negb (bool_decide (task.2 = ∅))) (map (fun s => (s, shard_members_map members c s)) shards).

Definition run (c : Config) : BootPlan :=
  match decide_mode c with
  | Err e => PlanConfigError e
  | Ok Disabled => PlanDisabled
  | Ok WaitOnly => PlanWait
  | Ok (BootstrapWith members) =>
      match tls_trust c with
      | Err e => PlanTlsError e
      | Ok tls =>
          match build_clients members tls with
          | Err e => PlanClientsError e
          | Ok clients => PlanTasks clients (shard_tasks c members (local_shards c))
          end
      end
  end.

(** [bootstrap_new_shard]; [None] if it gave up before [bootstrap_shard]. *)
Definition new_shard_task (c : Config) (shard_id : N) : option (gmap N string * (N * gmap N string)) :=
  let members := shard_members_map (peer_members c) c shard_id in
  if bool_decide (members = ∅) then None
  else
    match tls_trust c with
    | Err _ => None
    | Ok tls =>
        match build_clients members tls with
        | Err _ => None
        | Ok clients => Some (clients, (shard_id, members))
        end
    end.

Definition bootstrap_new_shard (c : Config) (m : ShardManager S) (shard_id : N) (w : W) : W * option BootOutcome :=
  match new_shard_task c shard_id with
  | None => (w, None)
  | Some (clients, task) => let '(w, o) := boot_task c m clients task w in (w, Some o)
  end.

(** ** Configuration changes at run time *)

(** [create_shard_blocking]. *)
Definition create_shard_blocking (c : Config) (m : ShardManager S) (shard_id : N) (w : W) :
    W * result string (ShardManager S) :=
  if existsb (N.eqb shard_id) (shard_ids m) then (w, Ok m)
  else
    match create_shard c shard_id w with
    | (w, Err e) => (w, Err e)
    | (w, Ok shard) =>
        match register_shard m shard_id shard with
        | Err e => (w, Err (error_to_string e))
        | Ok m => let '(w, _) := bootstrap_new_shard c m shard_id w in (w, Ok m)
        end
    end.

(** The loop over the added shards: a failure is logged and the next one tried. *)
Fixpoint create_added (c : Config) (m : ShardManager S) (created_all : bool) (l : list N) (w : W) :
    W * (ShardManager S * bool) :=
  match l with
  | [] => (w, (m, created_all))
  | s :: l' =>
      match create_shard_blocking c m s w with
      | (w, Ok m') => create_added c m' created_all l' w
      | (w, Err _) => create_added c m false l' w
      end
  end.

(** [handle_config_change] once the file is read and parsed. *)
Definition apply_config (parsed : Config) (self_id : N) (m : ShardManager S) (tp : RuntimeTopologySnapshot) (w : W) :
    W * (ShardManager S * RuntimeTopologySnapshot) :=
  let c := apply_overrides parsed (Some self_id) None in
  match config_validate c with
  | Err _ => (w, (m, tp))
  | Ok _ =>
      let desired := btree_set (local_shards c) in
      let added := List.filter (fun s => negb (existsb (N.eqb s) (shard_ids m))) desired in
      match create_added c m true added w with
      | (w, (m', true)) => (w, (m', (reload tp c).1))
      | (w, (m', false)) => (w, (m', tp))
      end
  end.

(** [std::fs::read_to_string], from what reading the bytes gave. *)
Definition read_to_string (read : result string Bytes) : result string string :=
  bytes ← read;
  if utf8_valid bytes then Ok (String.string_of_list_byte bytes) else Err "stream did not contain valid UTF-8".

(** [handle_config_change]; [read] is what the file held at its read. *)
Definition handle_config_change (read : result string Bytes) (self_id : N) (m : ShardManager S)
    (tp : RuntimeTopologySnapshot) (w : W) : W * (ShardManager S * RuntimeTopologySnapshot) :=
  match (content ← read_to_string read; toml_from_str content) with
  | Err _ => (w, (m, tp))
  | Ok parsed => apply_config parsed self_id m tp w
  end.

End Run.

(** ** Lemmas: members *)

Lemma collect_map_lookup {A} (l : list (N * A)) k v :
  NoDup l.*1 -> collect_map l !! k = Some v <-> (k, v) ∈ l.
Proof.
  unfold collect_map. intros Hnd.
  assert (Hgen : forall m : gmap N A, (forall x, x ∈ l.*1 -> m !! x = None) ->
    foldl (fun m kv => <[kv.1 := kv.2]> m) m l !! k = Some v <-> m !! k = Some v \/ (k, v) ∈ l).
  2: { rewrite Hgen; [|intros; apply lookup_empty]. rewrite lookup_empty. naive_solver. }
  induction l as [|[k0 v0] l IH]; intros m Hm; cbn [foldl].
  { set_solver. }
  cbn [fmap list_fmap fst] in *. apply NoDup_cons in Hnd as [Hk0 Hnd].
  rewrite IH; [|done|].
  - cbn [fst snd]. rewrite lookup_insert_Some, elem_of_cons.
    assert (m !! k0 = None) by (apply Hm; set_solver). naive_solver.
  - intros x Hx. cbn [fst snd]. apply lookup_insert_None. split; [apply Hm; set_solver|]. intros ->. done.
Qed.

Lemma decide_members_lookup `{Platform} seen members l members' :
  decide_members seen members l = Ok members' -> (forall x, is_Some (members !! x) -> x ∈ seen) ->
  forall k a, members' !! k = Some a <->
    members !! k = Some a \/ exists p, p ∈ l /\ peer_id p = k /\ a = normalize_endpoint (peer_addr p).
Proof.
  revert seen members. induction l as [|p l IH]; intros seen members; cbn [decide_members].
  { intros [= <-] _ k a. set_solver. }
  destruct (bool_decide _) eqn:E; [discriminate|]. bool_facts.
  intros ([] & _ & Hr)%bind_Ok_inv Hsub k a.
  rewrite (IH _ _ Hr).
  2: { intros x [b Hx]. apply lookup_insert_Some in Hx as [[-> _]|[_ Hx]]; [set_solver|].
       apply elem_of_union. right. apply Hsub. by exists b. }
  assert (Hnone : members !! peer_id p = None).
  { destruct (members !! peer_id p) eqn:Hp; [|done]. exfalso. apply E, Hsub. by eexists. }
  rewrite lookup_insert_Some. setoid_rewrite elem_of_cons. naive_solver.
Qed.

Section Members.
Context `{Platform}.

Lemma shard_members_spec c s id :
  id ∈ shard_members c s <->
  exists n, n ∈ placement_nodes (cf_placement c) /\ hosts n s = true /\ pn_id n = id.
Proof.
  unfold shard_members, sort_n. rewrite merge_sort_Permutation, list_elem_of_fmap.
  split.
  - intros (n & -> & [Hn Hh]%list_elem_of_In%filter_In). exists n. by rewrite list_elem_of_In.
  - intros (n & Hn & Hh & <-). exists n. split; [done|]. apply list_elem_of_In, filter_In.
    by rewrite <- list_elem_of_In.
Qed.

Lemma members_pairs_fst (all : gmap N string) (l : list N) :
  NoDup l ->
  NoDup (concat (map (fun id => match all !! id with Some a => [(id, a)] | None => [] end) l)).*1.
Proof.
  assert (Hsub : forall l x, x ∈ (concat (map (fun id => match all !! id with Some a => [(id, a)] | None => [] end) l)).*1 -> x ∈ l).
  { clear l. induction l as [|y l IH]; intros x; cbn; [done|]. rewrite fmap_app, elem_of_app.
    intros [Hx|Hx]; [|right; by apply IH]. destruct (all !! y); set_solver. }
  induction 1 as [|x l Hx Hl IH]; cbn; [constructor|]. rewrite fmap_app.
  destruct (all !! x) as [a|]; [|done]. cbn. constructor; [|done]. intros Hin. apply Hx. by apply Hsub.
Qed.

Lemma shard_members_map_lookup all c s id a :
  NoDup (shard_members c s) ->
  shard_members_map all c s !! id = Some a <-> id ∈ shard_members c s /\ all !! id = Some a.
Proof.
  intros Hnd. unfold shard_members_map. rewrite collect_map_lookup by (by apply members_pairs_fst).
  rewrite list_elem_of_In, in_concat. split.
  - intros (l & (x & <- & Hx)%in_map_iff & Hin). destruct (all !! x) as [b|] eqn:Hb; [|destruct Hin].
    destruct Hin as [[= -> ->]|[]]. by rewrite list_elem_of_In.
  - intros [Hid Ha]. exists [(id, a)]. split; [|by left]. apply in_map_iff. exists id. rewrite Ha.
    by rewrite <- list_elem_of_In.
Qed.

Lemma shard_members_NoDup c s : NoDup (map pn_id (placement_nodes (cf_placement c))) -> NoDup (shard_members c s).
Proof.
  intros Hnd. unfold shard_members, sort_n. rewrite merge_sort_Permutation.
  revert Hnd. generalize (placement_nodes (cf_placement c)). intros l.
  induction l as [|n l IH]; cbn; [constructor|]. intros [Hn Hl]%NoDup_cons. destruct (hosts n s); [|by apply IH].
  cbn. constructor; [|by apply IH]. intros (m & Heq & [Hm _]%list_elem_of_In%filter_In)%list_elem_of_fmap.
  apply Hn. rewrite Heq. apply list_elem_of_fmap_2. by apply list_elem_of_In.
Qed.

Lemma decide_mode_lookup c all :
  decide_mode c = Ok (BootstrapWith all) ->
  is_Some (all !! node_id (cf_node c)) /\
  forall k a, all !! k = Some a <->
    exists p, p ∈ peers (cf_node c) /\ peer_id p = k /\ a = normalize_endpoint (peer_addr p).
Proof.
  unfold decide_mode. destruct (bool_decide _); [discriminate|].
  intros (ms & Hms & Hr)%bind_Ok_inv. destruct (bool_decide (is_Some (ms !! node_id (cf_node c)))) eqn:E; [|discriminate].
  injection Hr as ->. bool_facts. split; [done|]. intros k a.
  rewrite (decide_members_lookup _ _ _ _ Hms); [|intros x [? Hx]; by rewrite lookup_empty in Hx].
  rewrite lookup_empty. naive_solver.
Qed.

Lemma shard_members_map_dom c all s :
  config_validate c = Ok tt -> decide_mode c = Ok (BootstrapWith all) ->
  dom (shard_members_map all c s) = list_to_set (shard_members c s).
Proof.
  intros ([] & HP%validate_placement_iff & _)%bind_Ok_inv [Hself Hlk]%decide_mode_lookup.
  pose proof (shard_members_NoDup c s (po_ids _ HP)) as Hnd. apply set_eq. intros id.
  rewrite elem_of_dom, elem_of_list_to_set. unfold is_Some.
  setoid_rewrite shard_members_map_lookup; [|done]. split; [by intros (a & ? & _)|]. intros Hid.
  pose proof Hid as (n & Hn & _ & <-)%shard_members_spec.
  destruct (po_known _ HP n Hn) as [Heq|(p & Hp & Hpid)].
  - rewrite Heq in *. destruct Hself as [a Ha]. by exists a.
  - exists (normalize_endpoint (peer_addr p)). split; [done|]. apply Hlk. eauto.
Qed.

(** C31: all nodes that form a shard's cluster agree on its members. On a
    validated configuration, a node that takes part in forming the cluster
    initialises each shard with exactly the nodes that hold it, each under the
    normalised address of its peer entry; so two nodes whose configurations
    share the placement table and the peers, and differ in their own identity,
    use the same membership. *)
Theorem cluster_members_agree (c c' : Config) (all all' : gmap N string) (s : N)
  (Hv : config_validate c = Ok tt) (Hv' : config_validate c' = Ok tt)
  (Hplace : cf_placement c' = cf_placement c) (Hpeers : peers (cf_node c') = peers (cf_node c))
  (Hm : decide_mode c = Ok (BootstrapWith all)) (Hm' : decide_mode c' = Ok (BootstrapWith all')) :
  dom (shard_members_map all c s) = list_to_set (shard_members c s) /\
  (forall id a, shard_members_map all c s !! id = Some a ->
     exists p, p ∈ peers (cf_node c) /\ peer_id p = id /\ a = normalize_endpoint (peer_addr p)) /\
  shard_members_map all' c' s = shard_members_map all c s.
Proof.
  destruct (decide_mode_lookup _ _ Hm) as [_ Hlk]. destruct (decide_mode_lookup _ _ Hm') as [_ Hlk'].
  pose proof (shard_members_map_dom c all s Hv Hm) as Hd.
  apply bind_Ok_inv in Hv as ([] & HP%validate_placement_iff & _).
  pose proof (shard_members_NoDup c s (po_ids _ HP)) as Hnd. split_ands.
  - exact Hd.
  - intros id a [_ Ha]%shard_members_map_lookup; [|done]. by apply Hlk.
  - apply map_eq. intros id. apply option_eq. intros a.
    assert (Hsame : shard_members c' s = shard_members c s) by (unfold shard_members; by rewrite Hplace).
    rewrite !shard_members_map_lookup by (by rewrite ?Hsame). rewrite Hsame, Hlk, Hlk', Hpeers. done.
Qed.

End Members.

(** ** Lemmas: probing *)

Section ProbeLemmas.
Context {W : Type} (get_raft_state : N -> N -> W -> W * option RaftState).

Definition answered (pid shard_id : N) (o : option RaftState) : Prop :=
  exists w w', get_raft_state pid shard_id w = (w', o).

Lemma probe_round_spec clients shard_id missing l w w' r :
  probe_round get_raft_state clients shard_id missing l w = (w', r) ->
  (forall pid, pid ∈ l -> is_Some (clients !! pid)) ->
  match r with
  | inl (ClusterExists pid voters) => pid ∈ l /\
      exists st, answered pid shard_id (Some st) /\ has_cluster st = true /\ voters = rf_voter_ids st
  | inl _ => False
  | inr missing' => exists gone, missing' = missing ++ gone /\
      (forall pid, pid ∈ gone -> pid ∈ l /\ answered pid shard_id None) /\
      (forall pid, pid ∈ l -> pid ∉ gone ->
         exists st, answered pid shard_id (Some st) /\ has_cluster st = false)
  end.
Proof.
  revert missing w. induction l as [|pid l IH]; intros missing w; cbn [probe_round].
  { intros [= <- <-] _. exists []. rewrite app_nil_r. split_ands; [done|set_solver|set_solver]. }
  intros Hr Hc. destruct (Hc pid) as [uri Huri]; [set_solver|]. rewrite Huri in Hr.
  destruct (get_raft_state pid shard_id w) as [w1 [st|]] eqn:Hg.
  - assert (Ha : answered pid shard_id (Some st)) by (by exists w, w1).
    destruct (has_cluster st) eqn:Hh.
    + injection Hr as <- <-. split; [set_solver|]. by exists st.
    + apply IH in Hr; [|set_solver]. destruct r as [[at_ voters| |]|missing']; try done.
      * destruct Hr as [Hin Hr]. split; [set_solver|done].
      * destruct Hr as (gone & -> & H1 & H2). exists gone. split_ands; [done|set_solver|].
        intros q [->|Hq]%elem_of_cons Hn; [by exists st|by apply H2].
  - assert (Ha : answered pid shard_id None) by (by exists w, w1).
    apply IH in Hr; [|set_solver]. destruct r as [[at_ voters| |]|missing']; try done.
    + destruct Hr as [Hin Hr]. split; [set_solver|done].
    + destruct Hr as (gone & -> & H1 & H2). exists (pid :: gone). rewrite <- app_assoc. split_ands; [done| |].
      * intros q [->|Hq]%elem_of_cons; [split; [set_solver|done]|]. destruct (H1 q Hq). split; [set_solver|done].
      * intros q [->|Hq]%elem_of_cons Hn; [set_solver|]. apply H2; set_solver.
Qed.

(** A node forms a new cluster only on evidence. Probing finds an existing
    cluster only if some other member answered as part of one; it concludes that
    there is none only if every other member answered and none was part of one;
    otherwise it names members that did not answer. *)
Theorem probe_sound (clients members : gmap N string) (self_id shard_id : N) (w w' : W) (out : ProbeOutcome)
  (Hclients : forall id, is_Some (members !! id) -> is_Some (clients !! id))
  (Hp : probe get_raft_state clients members self_id shard_id w = (w', out)) :
  match out with
  | ClusterExists pid voters => is_Some (members !! pid) /\ pid <> self_id /\
      exists st, answered pid shard_id (Some st) /\ has_cluster st = true /\ voters = rf_voter_ids st
  | NoCluster => forall pid, is_Some (members !! pid) -> pid <> self_id ->
      exists st, answered pid shard_id (Some st) /\ has_cluster st = false
  | Unreachable l => l <> [] /\
      forall pid, pid ∈ l -> is_Some (members !! pid) /\ pid <> self_id /\ answered pid shard_id None
  end.
Proof.
  assert (Hother : forall pid, pid ∈ other_members members self_id <-> is_Some (members !! pid) /\ pid <> self_id).
  { intros pid. unfold other_members. rewrite list_elem_of_In, filter_In, <- list_elem_of_In, list_elem_of_fmap.
    rewrite negb_true_iff, N.eqb_neq. apply and_cong; [|done]. split.
    - intros ([k a] & -> & Hin). apply elem_of_btree_iter in Hin. by exists a.
    - intros [a Ha]. exists (pid, a). split; [done|]. by apply elem_of_btree_iter. }
  unfold probe, PROBE_ATTEMPTS in Hp.
  assert (Hgen : forall n unreachable w, (n = 0%nat -> unreachable <> [] /\
            forall pid, pid ∈ unreachable -> pid ∈ other_members members self_id /\ answered pid shard_id None) ->
    probe_rounds get_raft_state n clients shard_id (other_members members self_id) unreachable w = (w', out) ->
    match out with
    | ClusterExists pid voters => pid ∈ other_members members self_id /\
        exists st, answered pid shard_id (Some st) /\ has_cluster st = true /\ voters = rf_voter_ids st
    | NoCluster => forall pid, pid ∈ other_members members self_id ->
        exists st, answered pid shard_id (Some st) /\ has_cluster st = false
    | Unreachable l => l <> [] /\
        forall pid, pid ∈ l -> pid ∈ other_members members self_id /\ answered pid shard_id None
    end).
  { clear Hp w. induction n as [|n IH]; intros unreachable w Hun; cbn [probe_rounds].
    { intros [= <- <-]. by apply Hun. }
    destruct (probe_round get_raft_state clients shard_id [] (other_members members self_id) w) as [w1 r] eqn:Hr.
    apply probe_round_spec in Hr; [|intros pid [Hm _]%Hother; by apply Hclients].
    destruct r as [found|[|x missing]].
    - intros [= <- <-]. by destruct found.
    - intros [= <- <-]. destruct Hr as (gone & Hg & _ & H2). cbn in Hg. subst gone.
      intros pid Hpid. apply H2; [done|set_solver].
    - apply IH. intros _. destruct Hr as (gone & Hg & H1 & _). cbn in Hg. subst gone.
      split; [done|exact H1]. }
  apply Hgen in Hp; [|done].
  destruct out as [pid voters| |l].
  - destruct Hp as [[? ?]%Hother ?]. done.
  - intros pid Hm Hs. apply Hp, Hother. done.
  - destruct Hp as [Hne Hl]. split; [done|]. intros pid Hpid. destruct (Hl pid Hpid) as [[? ?]%Hother ?]. done.
Qed.

End ProbeLemmas.

(** ** The tasks of the shards *)

Section Tasks.
Context `{Platform}.

(** The two checks of [build_clients] on an address. *)
Definition client_ok (tls : option TlsClientConfig) (addr : string) : Prop :=
  endpoint_from_shared (normalize_endpoint addr) = Ok tt /\ apply_endpoint_tls (normalize_endpoint addr) tls = Ok tt.

Lemma build_clients_loop_Ok out tls l r :
  build_clients_loop out tls l = Ok r ->
  Forall (fun kv => client_ok tls kv.2) l /\ forall k, is_Some (r !! k) <-> is_Some (out !! k) \/ k ∈ l.*1.
Proof.
  revert out. induction l as [|[id addr] l IH]; intros out; cbn [build_clients_loop].
  { intros [= <-]. split; [constructor|]. set_solver. }
  intros ([] & He%map_err_Ok & ([] & Ht%map_err_Ok & Hr)%bind_Ok_inv)%bind_Ok_inv. apply IH in Hr as [Hl Hk].
  split; [by constructor|]. intros k. rewrite Hk. cbn [fmap list_fmap fst]. rewrite elem_of_cons.
  destruct (decide (k = id)) as [->|Hne]; [rewrite lookup_insert_eq; naive_solver|].
  rewrite lookup_insert_ne by done. naive_solver.
Qed.

Lemma build_clients_loop_total out tls l :
  Forall (fun kv => client_ok tls kv.2) l -> exists r, build_clients_loop out tls l = Ok r.
Proof.
  intros Hl. revert out. induction Hl as [|[id addr] l [He Ht] _ IH]; intros out; cbn [build_clients_loop]; [by eexists|].
  cbn [snd] in He, Ht. rewrite He, Ht. cbn. apply IH.
Qed.

Lemma build_clients_Ok members tls clients :
  build_clients members tls = Ok clients ->
  (forall id a, members !! id = Some a -> client_ok tls a) /\
  forall id, is_Some (clients !! id) <-> is_Some (members !! id).
Proof.
  intros [Hl Hk]%build_clients_loop_Ok. split.
  - intros id a Ha%elem_of_btree_iter. rewrite Forall_forall in Hl. by apply (Hl (id, a)).
  - intros id. rewrite Hk, lookup_empty, list_elem_of_fmap. split.
    + intros [[? [=]]|([k a] & -> & Ha%elem_of_btree_iter)]. by exists a.
    + intros [a Ha]. right. exists (id, a). by rewrite elem_of_btree_iter.
Qed.

Lemma build_clients_total members tls :
  (forall id a, members !! id = Some a -> client_ok tls a) -> exists clients, build_clients members tls = Ok clients.
Proof.
  intros Hok. apply build_clients_loop_total, Forall_forall. intros [id a] Ha%elem_of_btree_iter. by eapply Hok.
Qed.

Lemma decide_members_collect seen members l members' :
  decide_members seen members l = Ok members' ->
  members' = foldl (fun m kv => <[kv.1 := kv.2]> m) members (map (fun p => (peer_id p, normalize_endpoint (peer_addr p))) l).
Proof.
  revert seen members. induction l as [|p l IH]; intros seen members; cbn [decide_members map foldl]; [by intros [= <-]|].
  destruct (bool_decide _); [done|]. intros (? & _ & Hr%IH)%bind_Ok_inv. exact Hr.
Qed.

Lemma decide_mode_members c all :
  decide_mode c = Ok (BootstrapWith all) -> all = peer_members c /\ is_Some (all !! node_id (cf_node c)).
Proof.
  unfold decide_mode. destruct (bool_decide _); [done|]. intros (ms & Hms%decide_members_collect & Hr)%bind_Ok_inv.
  destruct (bool_decide (is_Some (ms !! _))) eqn:E; [|done]. injection Hr as ->. bool_facts. by split.
Qed.

Lemma local_shards_hosted c s :
  s ∈ local_shards c -> exists n, n ∈ placement_nodes (cf_placement c) /\ pn_id n = node_id (cf_node c) /\ hosts n s = true.
Proof.
  unfold local_shards. rewrite elem_of_dedup. unfold sort_n. rewrite merge_sort_Permutation.
  destruct (List.find _ _) as [n|] eqn:Hf; [|by intros Hs%elem_of_nil]. apply List.find_some in Hf as [Hn Hid%N.eqb_eq].
  intros Hs. exists n. split_ands; [by apply list_elem_of_In|done|]. unfold hosts. apply orb_true_iff. rewrite !existsb_exists.
  unfold node_shards in Hs. apply elem_of_app in Hs as [Hs|Hs]; apply list_elem_of_In in Hs; [left|right];
    exists s; by rewrite N.eqb_refl.
Qed.

(** Every shard of this node gets its cluster, and gets the same one however it
    came to the node. On a validated configuration the tasks that are started
    cover exactly the local shards; each names as members the nodes that hold
    the shard, this node among them, and has a client for every member; and a
    shard that is added at run time is formed with the same members. *)
Theorem bootstrap_tasks_agree (c : Config) (all clients : gmap N string) (tasks : list (N * gmap N string))
  (Hv : config_validate c = Ok tt) (Hm : decide_mode c = Ok (BootstrapWith all)) (Hrun : run c = PlanTasks clients tasks) :
  tasks.*1 = local_shards c /\
  forall s members, (s, members) ∈ tasks ->
    dom members = list_to_set (shard_members c s) /\ is_Some (members !! node_id (cf_node c)) /\
    (forall id, is_Some (members !! id) -> is_Some (clients !! id)) /\
    exists clients', new_shard_task c s = Some (clients', (s, members)) /\
      forall id, is_Some (members !! id) -> is_Some (clients' !! id).
Proof.
  destruct (decide_mode_members _ _ Hm) as [-> Hself]. unfold run in Hrun. rewrite Hm in Hrun.
  destruct (tls_trust c) as [tls|] eqn:Htls; [|done]. destruct (build_clients (peer_members c) tls) as [cl|] eqn:Hcl; [|done].
  injection Hrun as -> <-. destruct (build_clients_Ok _ _ _ Hcl) as [Hok Hdom].
  pose proof Hv as ([] & HP%validate_placement_iff & _)%bind_Ok_inv.
  assert (Hsub : forall s id a, shard_members_map (peer_members c) c s !! id = Some a -> peer_members c !! id = Some a).
  { intros s id a [_ Ha]%shard_members_map_lookup; [done|]. apply shard_members_NoDup, (po_ids _ HP). }
  assert (Hin : forall s, s ∈ local_shards c -> is_Some (shard_members_map (peer_members c) c s !! node_id (cf_node c))).
  { intros s (n & Hn & Hid & Hh)%local_shards_hosted. destruct Hself as [a Ha]. exists a.
    apply shard_members_map_lookup; [apply shard_members_NoDup, (po_ids _ HP)|]. split; [|done].
    apply shard_members_spec. by exists n. }
  assert (Hne : forall s, s ∈ local_shards c -> shard_members_map (peer_members c) c s <> ∅).
  { intros s [a Ha]%Hin Heq. by rewrite Heq, lookup_empty in Ha. }
  split.
  - unfold shard_tasks. revert Hne. generalize (local_shards c). intros l Hl. induction l as [|s l IH]; [done|]. cbn [map List.filter snd].
    rewrite bool_decide_eq_false_2 by (apply Hl; left). cbn [negb fmap list_fmap fst]. f_equal. apply IH. intros x Hx. apply Hl. by right.
  - intros s members [(x & [= <- <-] & Hs)%in_map_iff _]%list_elem_of_In%filter_In. apply list_elem_of_In in Hs.
    split_ands; [by apply shard_members_map_dom|by apply Hin| |].
    + intros id [a Ha]. apply Hdom. exists a. by eapply Hsub.
    + destruct (build_clients_total (shard_members_map (peer_members c) c x) tls) as [cl' Hcl'].
      { intros id a Ha. eapply Hok. by eapply Hsub. }
      exists cl'. unfold new_shard_task. rewrite bool_decide_eq_false_2 by (by apply Hne). rewrite Htls, Hcl'.
      split; [done|]. intros id Hid. by apply (build_clients_Ok _ _ _ Hcl').
Qed.

End Tasks.

(** ** Configuration changes *)

Lemma elem_of_shard_ids {S} (m : ShardManager S) s : s ∈ shard_ids m <-> is_Some (sm_shards m !! s).
Proof.
  unfold shard_ids, sort_n. rewrite merge_sort_Permutation, list_elem_of_fmap. split.
  - intros ([k v] & -> & Hkv%elem_of_map_to_list). by exists v.
  - intros [v Hv]. exists (s, v). by rewrite elem_of_map_to_list.
Qed.

Lemma shard_ids_existsb {S} (m : ShardManager S) s :
  existsb (N.eqb s) (shard_ids m) = bool_decide (is_Some (sm_shards m !! s)).
Proof.
  apply eq_true_iff_eq. rewrite bool_decide_eq_true, <- elem_of_shard_ids, existsb_exists. setoid_rewrite <- list_elem_of_In.
  split; [by intros (x & Hx & ->%N.eqb_eq)|]. intros Hs. exists s. by rewrite N.eqb_refl.
Qed.

Section Change.
Context {W S : Type} `{Platform}.
Context (get_raft_state : N -> N -> W -> W * option RaftState).
Context (is_initialized : N -> W -> W * option bool) (initialize : N -> gmap N string -> W -> W * InitResult).
Context (create_shard : Config -> N -> W -> W * result string S) (toml_from_str : string -> result string Config).

Notation create_shard_blocking := (create_shard_blocking get_raft_state is_initialized initialize create_shard).
Notation create_added := (create_added get_raft_state is_initialized initialize create_shard).
Notation apply_config := (apply_config get_raft_state is_initialized initialize create_shard).
Notation handle_config_change :=
  (handle_config_change get_raft_state is_initialized initialize create_shard toml_from_str).

(** The identity of the node is kept, and the shards that are added are those
    that were asked for. *)
Lemma create_shard_blocking_spec c m s w w' m' :
  create_shard_blocking c m s w = (w', Ok m') ->
  sm_shards m ⊆ sm_shards m' /\ is_Some (sm_shards m' !! s) /\ sm_node_id m' = sm_node_id m /\
  forall x, is_Some (sm_shards m' !! x) -> x = s \/ is_Some (sm_shards m !! x).
Proof.
  unfold Bootstrap.create_shard_blocking. rewrite shard_ids_existsb. case_bool_decide as Hs.
  - intros [= _ <-]. split_ands; [done|done|done|by right].
  - destruct (create_shard c s w) as [w1 [sh|e]]; [|done]. unfold register_shard.
    destruct (sm_shards m !! s) eqn:Hn; [done|]. destruct (bootstrap_new_shard _ _ _ _ _ _ _) as [w2 o].
    intros [= _ <-]. cbn. split_ands; [by apply insert_subseteq|by rewrite lookup_insert_eq|done|].
    intros x [v [[<- _]|[_ Hx]]%lookup_insert_Some]; [by left|right; by exists v].
Qed.

Lemma create_added_spec c m all l w w' m' all' :
  create_added c m all l w = (w', (m', all')) ->
  sm_shards m ⊆ sm_shards m' /\ sm_node_id m' = sm_node_id m /\
  (forall x, is_Some (sm_shards m' !! x) -> x ∈ l \/ is_Some (sm_shards m !! x)) /\
  (all' = true -> all = true /\ forall s, s ∈ l -> is_Some (sm_shards m' !! s)).
Proof.
  revert m all w. induction l as [|s l IH]; intros m all w; cbn [Bootstrap.create_added].
  { intros [= _ <- <-]. split_ands; [done|done|by right|]. intros ->. split; [done|]. set_solver. }
  destruct (create_shard_blocking c m s w) as [w1 [m1|e]] eqn:Hc.
  - apply create_shard_blocking_spec in Hc as (Hsub & [sh Hs] & Hid & Hnew). intros (Hsub' & Hid' & Hnew' & Hall)%IH.
    split_ands; [by etrans|congruence| |].
    + intros x [Hx|[->|Hx]%Hnew]%Hnew'; [left; by right|left; by left|by right].
    + intros Ht. destruct (Hall Ht) as [-> Hl]. split; [done|]. intros x [->|Hx]%elem_of_cons; [|by apply Hl].
      exists sh. by eapply lookup_weaken.
  - intros (Hsub' & Hid' & Hnew' & Hall)%IH. split_ands; [done|done| |].
    + intros x [Hx|Hx]%Hnew'; [left; by right|by right].
    + intros Ht. by destruct (Hall Ht).
Qed.

(** What applying a configuration does, on every branch. *)
Lemma apply_config_cases parsed c0 self_id m m' tp tp' w w' :
  from_config c0 = Ok tp -> apply_config parsed self_id m tp w = (w', (m', tp')) ->
  let c := apply_overrides parsed (Some self_id) None in
  sm_shards m ⊆ sm_shards m' /\ sm_node_id m' = sm_node_id m /\
  (forall x, is_Some (sm_shards m' !! x) ->
     is_Some (sm_shards m !! x) \/ (config_validate c = Ok tt /\ x ∈ local_shards c)) /\
  (tp' = tp \/
   (config_validate c = Ok tt /\ (forall s, s ∈ local_shards c -> is_Some (sm_shards m' !! s)) /\
    from_config c = Ok tp' /\ topology_of tp' c /\ tp_control_shard_id tp' = tp_control_shard_id tp /\
    (forall s, s ∈ tp_all_shards tp -> s ∈ tp_all_shards tp'))).
Proof.
  intros Htp Hch c. unfold Bootstrap.apply_config in Hch. fold c in Hch.
  destruct (config_validate c) as [[]|] eqn:Hv; [|injection Hch as _ <- <-; split_ands; [done|done|by left|by left]].
  destruct (create_added _ _ _ _ _) as [w1 [m1 all]] eqn:Hadd. apply create_added_spec in Hadd as (Hsub & Hid & Hnew & Hall).
  assert (Hnew' : forall x, is_Some (sm_shards m1 !! x) ->
    is_Some (sm_shards m !! x) \/ (Ok (E := string) tt = Ok tt /\ x ∈ local_shards c)).
  { intros x [Hx|Hx]%Hnew; [right|by left]. split; [done|]. apply list_elem_of_In, filter_In in Hx as [Hx _].
    apply list_elem_of_In in Hx. by rewrite <- elem_of_btree_set. }
  destruct all; injection Hch as _ <- <-; (split_ands; [done|done|done|]); [|by left].
  destruct (Hall eq_refl) as [_ Hreg].
  destruct (reload tp c) as [next r] eqn:Hrl. cbn [fst].
  destruct (reload_cases c0 c tp next r Htp Hrl) as [(-> & Ht & Hctl & Hs)|[-> _]]; [right|by left].
  assert (Hfrom : from_config c = Ok next).
  { unfold reload in Hrl. destruct (from_config c); [|by injection Hrl as _ ?]. repeat case_match; try (by injection Hrl).
    by injection Hrl as ->. }
  split_ands; try done. intros s Hs'. destruct (sm_shards m !! s) as [v|] eqn:E.
  - exists v. by eapply lookup_weaken.
  - apply Hreg, list_elem_of_In, filter_In. rewrite <- list_elem_of_In, elem_of_btree_set, shard_ids_existsb, E.
    split; [done|]. by rewrite bool_decide_eq_false_2 by (by intros []).
Qed.

(** A configuration change at run time takes no running shard away, and is
    published to the request handlers only when the configuration is valid and
    every shard it places on this node is running; what is published has all the
    shards of the old topology and the same control shard. *)
Theorem config_change_publishes_ready (read : result string Bytes) (c0 : Config) (self_id : N) (m m' : ShardManager S)
  (tp tp' : RuntimeTopologySnapshot) (w w' : W)
  (Htp : from_config c0 = Ok tp)
  (Hch : handle_config_change read self_id m tp w = (w', (m', tp'))) :
  sm_shards m ⊆ sm_shards m' /\
  (tp' = tp \/
   exists content parsed, read_to_string read = Ok content /\ toml_from_str content = Ok parsed /\
    let c := apply_overrides parsed (Some self_id) None in
    config_validate c = Ok tt /\ (forall s, s ∈ local_shards c -> is_Some (sm_shards m' !! s)) /\
    topology_of tp' c /\ tp_control_shard_id tp' = tp_control_shard_id tp /\
    (forall s, s ∈ tp_all_shards tp -> s ∈ tp_all_shards tp')).
Proof.
  unfold Bootstrap.handle_config_change in Hch.
  destruct (read_to_string read) as [content|] eqn:Hr; cbn in Hch; [|injection Hch as _ <- <-; split; [done|by left]].
  destruct (toml_from_str content) as [parsed|] eqn:Hp; [|injection Hch as _ <- <-; split; [done|by left]].
  eapply apply_config_cases in Hch as (Hsub & _ & _ & Hcase); [|exact Htp]. split; [done|].
  destruct Hcase as [->|(Hv & Hl & _ & Ht & Hc & Hs)]; [by left|right]. exists content, parsed. by split_ands.
Qed.

End Change.

(** ** Witnesses *)

(** Two nodes that both hold shards 0 and 1. *)
Definition demo_peers : list PeerConfig :=
  [mkPeer 1 "a:1" (Some "a:11"); mkPeer 2 "https://b:2" (Some "b:12")].

Definition demo_cluster (self : N) : Config :=
  mkConfig (mkNode self "0.0.0.0:1" (Some "0.0.0.0:11") demo_peers) (cf_storage config_default)
    (mkPlacementConfig 2 [mkPlacementNode 1 [0%N] [1%N]; mkPlacementNode 2 [1%N] [0%N]])
    snapshot_section_default None limits_default.

Definition demo_members : gmap N string := {[1%N := "http://a:1"; 2%N := "https://b:2"]}.

Lemma cluster_members_agree_witness :
  shard_members_map demo_members (demo_cluster 2) 1 = shard_members_map demo_members (demo_cluster 1) 1.
Proof.
  refine (proj2 (proj2 (@cluster_members_agree demo_platform (demo_cluster 1) (demo_cluster 2) demo_members
    demo_members 1 _ _ eq_refl eq_refl _ _))); vm_compute; reflexivity.
Defined.

(** Node 1 starts both shards with both nodes. *)
Lemma bootstrap_tasks_agree_witness :
  @run demo_platform (demo_cluster 1) = PlanTasks demo_members [(0%N, demo_members); (1%N, demo_members)] /\
  exists clients, @new_shard_task demo_platform (demo_cluster 1) 1 = Some (clients, (1%N, demo_members)).
Proof.
  assert (Hrun : @run demo_platform (demo_cluster 1) = PlanTasks demo_members [(0%N, demo_members); (1%N, demo_members)])
    by (vm_compute; reflexivity).
  split; [exact Hrun|].
  destruct (proj2 (@bootstrap_tasks_agree demo_platform (demo_cluster 1) demo_members demo_members [(0%N, demo_members); (1%N, demo_members)]
    ltac:(vm_compute; reflexivity) ltac:(vm_compute; reflexivity) Hrun) 1%N demo_members ltac:(right; left))
    as (_ & _ & _ & clients & Hnew & _).
  exists clients. exact Hnew.
Defined.

(** Neither node has a log yet. *)
Lemma probe_sound_witness :
  exists st, answered (fun (_ _ : N) (w : unit) => (w, Some (mkRaftState false false 0 []))) 2 0 (Some st) /\
    has_cluster st = false.
Proof.
  exact (@probe_sound unit (fun _ _ w => (w, Some (mkRaftState false false 0 []))) demo_members demo_members
    1 0 tt tt NoCluster (fun _ H => H) ltac:(vm_compute; reflexivity) 2%N ltac:(vm_compute; eauto) ltac:(done)).
Defined.

(** Shard 1 is added to a node that runs shard 0. *)
Definition demo_config2 : Config :=
  mkConfig (cf_node config_default) (cf_storage config_default)
    (mkPlacementConfig 1 [mkPlacementNode 1 [0; 1]%N []]) snapshot_section_default None limits_default.

Definition demo_topology : RuntimeTopologySnapshot :=
  mkTopology (mkRemote 1 ∅ ∅ ∅ None) [0%N] 0.

Lemma config_change_publishes_ready_witness :
  let m := mkManager {[0%N := tt]} 1 1 in
  let r := @handle_config_change unit unit demo_platform (fun _ _ w => (w, None)) (fun _ w => (w, Some false))
             (fun _ _ w => (w, InitOk)) (fun _ _ w => (w, Ok tt)) (fun _ => Ok demo_config2) (Ok []) 1 m demo_topology tt in
  tp_all_shards r.2.2 = [0; 1]%N /\ sm_shards m ⊆ sm_shards r.2.1.
Proof.
  intros m r. split; [vm_compute; reflexivity|].
  refine (proj1 (@config_change_publishes_ready unit unit demo_platform (fun _ _ w => (w, None)) (fun _ w => (w, Some false))
    (fun _ _ w => (w, InitOk)) (fun _ _ w => (w, Ok tt)) (fun _ => Ok demo_config2) (Ok []) config_default 1
    m r.2.1 demo_topology r.2.2 tt r.1 ltac:(vm_compute; reflexivity) _)).
  by rewrite <- !surjective_pairing.
Defined.
