(* ===== verification/Wire.v ===== *)
(** * es-server: the protocol boundary

    [es-server/src/aggregate_service.rs], the conversions between the gRPC
    messages and the domain types, the opaque cursors and tokens given to
    clients, and the mapping of state-machine responses to statuses.

    The [Pb] types are the protobuf messages, with an absent message or an unset
    [oneof] as [None]. The [Debug] text of a response, which appears only in the
    message of an internal error, is the parameter [debug_response]. *)

From S2P Require Import Prelude.
From S2P Require Import Bytes.
From S2P Require Import Core.
From S2P Require Import Aggregate.
From S2P Require Import Catalog.
From S2P Require Import GroupCatalog.
From S2P Require Import GroupPartition.
From S2P Require Import Store.
From S2P Require Import RaftType.
From S2P Require Import Config.
From S2P Require Import Topology.

(** ** Messages *)

Record PbTypeRef : Type := mkTypeRef { pt_business_space : string; pt_aggregate_type : string }.

Inductive PbVersionKind : Type := PvAny | PvNoAggregate | PvAggregateExists | PvExact (v : N).

Inductive PbRevisionKind : Type := PrAbsent | PrExact (r : N).

Inductive PbGroupStartKind : Type := PsBeginning | PsNow.

Record PbEvent : Type := mkPbEvent {
  pe_aggregate_id : string;
  pe_aggregate_version : N;
  pe_event_id : Bytes;
  pe_event_type : string;
  pe_data : Bytes;
  pe_metadata : Bytes;
  pe_hlc : option (N * N)
}.

Record PbNewEvent : Type := mkPbNewEvent {
  pn_event_id : Bytes;
  pn_event_type : string;
  pn_data : Bytes;
  pn_metadata : Bytes
}.

Record PbTypeInfo : Type := mkTypeInfo {
  ti_aggregate_type : PbTypeRef;
  ti_partition_count : N;
  ti_hash_algorithm : string;
  ti_active : bool;
  ti_catalog_revision : N
}.

Record PbGroupInfo : Type := mkGroupInfo {
  gi_aggregate_type : PbTypeRef;
  gi_name : string;
  gi_revision : N;
  gi_epoch : N;
  gi_start : PbGroupStartKind;
  gi_settings : AggregateGroupSettings
}.

(** [AggregateGroupSettlementStatus] and [AggregateGroupSettlementAction]; an
    action is the protobuf integer. *)
Inductive PbSettlementStatus : Type :=
| PbApplied | PbAlreadySettled | PbStaleLease | PbWrongConsumer.

#[export] Instance PbSettlementStatus_eq_dec : EqDecision PbSettlementStatus.
Proof. solve_decision. Defined.

Record AggregateCursor : Type := mkCursor {
  cu_version : N;
  cu_aggregate_type : AggregateTypeId;
  cu_next_positions : list N
}.

Record StatePageToken : Type := mkPageToken {
  pg_version : N;
  pg_aggregate_type : AggregateTypeId;
  pg_after_aggregate_ids : list string
}.

Record AggregateDeliveryToken : Type := mkToken {
  tk_version : N;
  tk_aggregate_type : AggregateTypeId;
  tk_group_name : string;
  tk_partition_id : N;
  tk_group_epoch : N;
  tk_delivery_id : Uuid
}.

Definition CURSOR_VERSION : N := 1.
Definition STATE_PAGE_TOKEN_VERSION : N := 1.
Definition DEFAULT_STATE_PAGE_SIZE : N := 100.
Definition MAX_STATE_PAGE_SIZE : N := 1000.

(** ** Conversions *)

Abbreviation Reply := (result Status).

Definition encode_bincode {A} `{Codec A} (v : A) (name : string) : Reply Bytes :=
  map_err (fun e => internal (name +:+ " 编码失败: " +:+ e)) (bincode_encode v).

Definition decode_bincode {A} `{Codec A} (bytes : Bytes) (name : string) : Reply A :=
  vc ← map_err (fun e => internal (name +:+ " 解码失败: " +:+ e)) (bincode_decode bytes);
  if negb (vc.2 =? len bytes)%N then Err (invalid_argument (name +:+ " 包含多余字节")) else Ok vc.1.

(** [|error| Status::invalid_argument(error.to_string())]. *)
Definition invalid_of (e : Error) : Status := invalid_argument (error_to_string e).

Definition internal_of (e : Error) : Status := internal (error_to_string e).

Definition proto_aggregate_type (v : option PbTypeRef) : Reply AggregateTypeId :=
  r ← ok_or (invalid_argument "aggregate_type 必填") v;
  map_err invalid_of (type_id_new (pt_business_space r) (pt_aggregate_type r)).

Definition aggregate_type_to_proto (t : AggregateTypeId) : PbTypeRef :=
  mkTypeRef (business_space t) (aggregate_type t).

Definition aggregate_type_info (d : AggregateTypeDefinition) (catalog_revision : N) : PbTypeInfo :=
  mkTypeInfo (aggregate_type_to_proto (td_id d)) (td_partition_count d) "xxh3-v1"
    (match td_status d with Registering => false | Active => true end) catalog_revision.

Definition proto_expected_version (v : option (option PbVersionKind)) : ExpectedAggregateVersion :=
  match mjoin v with
  | None | Some PvAny => AnyVersion
  | Some PvNoAggregate => NoAggregate
  | Some PvAggregateExists => AggregateExists
  | Some (PvExact n) => ExactVersion n
  end.

Definition proto_expected_state_revision (v : option (option PbRevisionKind)) : Reply ExpectedStateRevision :=
  match mjoin v with
  | Some PrAbsent => Ok Absent
  | Some (PrExact r) => Ok (ExactRevision r)
  | None => Err (invalid_argument "expected_revision 必填")
  end.

Definition stored_event_to_proto (e : AggregateEvent) : PbEvent :=
  mkPbEvent (ev_aggregate_id e) (ev_aggregate_version e) (uuid_bytes (ev_event_id e)) (ev_event_type e)
    (ev_data e) (ev_metadata e) (Some (wall (ev_hlc e), logical (ev_hlc e))).

(** [Uuid::from_slice]. *)
Definition uuid_from_slice (b : Bytes) : option Uuid :=
  if (len b =? 16)%N then Some (be_value b) else None.

(** [{:?}] of an [Option<u64>]. *)
Definition debug_opt (o : option N) : string :=
  match o with Some n => "Some(" +:+ pretty n +:+ ")" | None => "None" end.

Definition generation_advanced (g : N) : Status :=
  unavailable ("partition generation advanced to " +:+ pretty g).

Class DebugResponse : Type := debug_response : EsResponse -> string.

Section Responses.
Context `{DebugResponse}.

Definition map_append_response (r : EsResponse) : Reply N :=
  match r with
  | AggregateAppendOk v _ => Ok v
  | AggregateOptimisticConflict actual =>
      Err (failed_precondition ("aggregate version conflict: actual=" +:+ debug_opt actual))
  | AggregateIdempotencyConflict => Err (already_exists "event_id 已绑定到不同内容")
  | AggregatePartitionFenced g => Err (generation_advanced g)
  | AggregateInvalid reason => Err (invalid_argument reason)
  | other => Err (internal ("聚合追加返回意外结果: " +:+ debug_response other))
  end.

Definition map_fence_response (r : EsResponse) : Reply N :=
  match r with
  | AggregatePartitionFenceInstalled g => Ok g
  | AggregateInvalid reason => Err (invalid_argument reason)
  | other => Err (internal ("聚合分区 fence 返回意外结果: " +:+ debug_response other))
  end.

Definition group_settlement_status (r : AggregateSettlementResult) : PbSettlementStatus :=
  match r with
  | Applied => PbApplied
  | AlreadySettled => PbAlreadySettled
  | StaleLease => PbStaleLease
  | WrongConsumer => PbWrongConsumer
  end.

Definition map_group_settlement_response (r : EsResponse) (renew : bool) : Reply (list PbSettlementStatus) :=
  match r, renew with
  | AggregateGroupSettled l, false | AggregateGroupRenewed l, true => Ok (map group_settlement_status l)
  | AggregateGroupStaleEpoch _, _ => Err (failed_precondition "消费者组 epoch 已过期")
  | AggregatePartitionFenced g, _ => Err (generation_advanced g)
  | AggregateInvalid reason, _ => Err (invalid_argument reason)
  | other, _ => Err (internal ("消费者组结算返回意外结果: " +:+ debug_response other))
  end.

End Responses.

(** ** Groups *)

Definition proto_group_start (v : option (option PbGroupStartKind)) : AggregateGroupStart :=
  match mjoin v with None | Some PsBeginning => StartBeginning | Some PsNow => StartNow end.

Definition group_start_to_proto (s : AggregateGroupStart) : PbGroupStartKind :=
  match s with StartBeginning => PsBeginning | StartNow => PsNow end.

(** The settings message has the fields of [AggregateGroupSettings]. *)
Definition proto_group_settings (v : option AggregateGroupSettings) : Reply AggregateGroupSettings :=
  let value := default settings_default v in
  _ ← map_err invalid_argument (settings_validate value);
  Ok value.

Definition group_info (g : AggregateGroupDefinition) : PbGroupInfo :=
  mkGroupInfo (aggregate_type_to_proto (gd_aggregate_type g)) (gd_name g) (gd_revision g) (gd_epoch g)
    (group_start_to_proto (gd_start g)) (gd_settings g).

(** [AggregateGroupSettlementAction::try_from]. *)
Definition settlement_action (a : N) : Reply AggregateSettlementAction :=
  match a with
  | 0%N => Ok ActAck
  | 1%N => Ok ActRetry
  | 2%N => Ok ActPark
  | 3%N => Ok ActSkip
  | _ => Err (invalid_argument "settlement action 非法")
  end.

(** ** Cursors and tokens *)

Class TokenCodecs : Type := {
  c_cursor :: Codec AggregateCursor;
  c_page_token :: Codec StatePageToken;
  c_token :: Codec AggregateDeliveryToken
}.

Class TokenCodecLaws `{TokenCodecs} : Prop := {
  cl_cursor :: CodecLaws AggregateCursor;
  cl_page_token :: CodecLaws StatePageToken;
  cl_token :: CodecLaws AggregateDeliveryToken
}.

Section Tokens.
Context `{TokenCodecs}.

Definition encode_delivery_token (g : AggregateGroupDefinition) (partition_id : N) (delivery_id : Uuid) :
    Reply Bytes :=
  encode_bincode (mkToken 1 (gd_aggregate_type g) (gd_name g) partition_id (gd_epoch g) delivery_id)
    "delivery token".

Definition decode_delivery_token (bytes : Bytes) (ty : AggregateTypeId) (group_name : string) :
    Reply AggregateDeliveryToken :=
  t ← decode_bincode bytes "delivery token";
  if negb (tk_version t =? 1)%N || negb (bool_decide (tk_aggregate_type t = ty)) ||
     negb (bool_decide (tk_group_name t = group_name))
  then Err (invalid_argument "delivery token 版本、聚合类型或消费者组不匹配")
  else Ok t.

Definition encode_cursor (c : AggregateCursor) : Reply Bytes := encode_bincode c "aggregate cursor".

Definition decode_cursor (bytes : Bytes) (ty : AggregateTypeId) (partition_count : N) : Reply AggregateCursor :=
  c ← decode_bincode bytes "aggregate cursor";
  if negb (cu_version c =? CURSOR_VERSION)%N || negb (bool_decide (cu_aggregate_type c = ty)) ||
     negb (len (cu_next_positions c) =? partition_count)%N
  then Err (invalid_argument "cursor 版本、聚合类型或分区数量不匹配")
  else Ok c.

Definition decode_state_page_token (bytes : Bytes) (ty : AggregateTypeId) (partition_count : N) :
    Reply StatePageToken :=
  match bytes with
  | [] => Ok (mkPageToken STATE_PAGE_TOKEN_VERSION ty (replicate (N.to_nat partition_count) ""))
  | _ =>
      t ← decode_bincode bytes "state page token";
      if negb (pg_version t =? STATE_PAGE_TOKEN_VERSION)%N || negb (bool_decide (pg_aggregate_type t = ty)) ||
         negb (len (pg_after_aggregate_ids t) =? partition_count)%N
      then Err (invalid_argument "page_token 版本、聚合类型或分区数量不匹配")
      else Ok t
  end.

(** ** Lemmas: strict decoding *)

Lemma decode_encoded {A} `{CodecLaws A} (v : A) name name' b :
  encode_bincode v name = Ok b -> decode_bincode b name' = Ok v.
Proof.
  intros Hb%map_err_Ok. unfold decode_bincode.
  rewrite <- (app_nil_r b), (bincode_round_trip v b [] Hb), app_nil_r. cbn. by rewrite N.eqb_refl.
Qed.

End Tokens.

(** ** Concrete codecs of the tokens *)

#[export] Instance AggregateCursor_eq_dec : EqDecision AggregateCursor.
Proof. solve_decision. Defined.

#[export] Instance AggregateCursor_countable : Countable AggregateCursor.
Proof.
  by refine (inj_countable' (fun r => (cu_version r, cu_aggregate_type r, cu_next_positions r))
    (fun '(v, t, n) => mkCursor v t n) _); intros [].
Defined.

#[export] Instance StatePageToken_eq_dec : EqDecision StatePageToken.
Proof. solve_decision. Defined.

#[export] Instance StatePageToken_countable : Countable StatePageToken.
Proof.
  by refine (inj_countable' (fun r => (pg_version r, pg_aggregate_type r, pg_after_aggregate_ids r))
    (fun '(v, t, n) => mkPageToken v t n) _); intros [].
Defined.

#[export] Instance AggregateDeliveryToken_eq_dec : EqDecision AggregateDeliveryToken.
Proof. solve_decision. Defined.

#[export] Instance AggregateDeliveryToken_countable : Countable AggregateDeliveryToken.
Proof.
  by refine (inj_countable' (fun r => (tk_version r, tk_aggregate_type r, tk_group_name r, tk_partition_id r,
    tk_group_epoch r, tk_delivery_id r))
    (fun '(v, t, g, p, e, i) => mkToken v t g p e i) _); intros [].
Defined.

Definition demo_token_codecs : TokenCodecs := {|
  c_cursor := countable_codec AggregateCursor;
  c_page_token := countable_codec StatePageToken;
  c_token := countable_codec AggregateDeliveryToken
|}.

Lemma demo_token_laws : @TokenCodecLaws demo_token_codecs.
Proof. split; apply countable_codec_laws. Qed.
