(* ===== verification/Follow.v ===== *)
(** * es-server: following the events of an aggregate type

    [es-server/src/aggregate_service.rs]: the subscription to one shard
    ([run_local_aggregate_subscription]), the source task that reconnects to a
    shard ([run_aggregate_source]), and the [AggregateReadMerger] that merges
    the sources of all shards into the stream of one client.

    The tasks talk over channels, so each is a function from what it receives to
    what it sends: the subscription from the stores it reads (one per cursor, in
    the order they are read) and the broadcast it received since it subscribed;
    the source from the frames of each connection; the merger from the messages
    of the sources in the order they arrive. A receiver that goes away cuts the
    output short. Sleeping between reconnects changes nothing. *)

From S2P Require Import Prelude.
From S2P Require Import Bytes.
From S2P Require Import Core.
From S2P Require Import Aggregate.
From S2P Require Import Catalog.
From S2P Require Import GroupCatalog.
From S2P Require Import GroupPartition.
From S2P Require Import Keys.
From S2P Require Import Store.
From S2P Require Import RaftType.
From S2P Require Import LogStore.
From S2P Require Import StateMachine.
From S2P Require Import ShardSpec.
From S2P Require Import Codecs.
From S2P Require Import Apply.
From S2P Require Import Reads.
From S2P Require Import History.
From S2P Require Import Config.
From S2P Require Import Topology.
From S2P Require Import Wire.

(** ** Messages *)

Record PartitionCursor : Type := mkPCursor { pc_partition_id : N; pc_next_position : N }.

Record InternalEvent : Type := mkInternalEvent {
  ie_partition_id : N;
  ie_partition_position : N;
  ie_event : option PbEvent
}.

(** [SubscribeAggregatePartitionsInternalResponse]: a payload, or none. *)
Inductive FrameBody : Type :=
| FrameEvent (e : InternalEvent)
| FrameCaughtUp (heads : list PartitionCursor)
| FrameEmpty.

Abbreviation Frame := (Reply FrameBody).

Inductive SourceMessage : Type :=
| MsgEvent (source : N) (e : InternalEvent)
| MsgCaughtUp (source : N) (heads : list PartitionCursor)
| MsgDegraded (source : N).

Inductive FollowPayload : Type :=
| PayloadEvent (e : PbEvent)
| PayloadCaughtUp
| PayloadDegraded (unavailable_source_count : N) (retrying : bool)
| PayloadRecovered.

Record FollowResponse : Type := mkFollow {
  fr_payload : FollowPayload;
  fr_cursor : Bytes
}.

(** The broadcast channel: an event, the report that events were dropped, or its
    end. *)
Inductive BroadcastItem : Type :=
| BcEvent (e : AggregateEvent)
| BcLagged
| BcClosed.

(** ** The subscription to one shard *)

Section Subscription.
Context `{Tree} {M : Type} `{SmCodecs M}.
Context (shard_id : N) (ty : AggregateTypeId).

Definition event_frame (e : AggregateEvent) : Frame :=
  Ok (FrameEvent (mkInternalEvent (ev_partition_id e) (ev_partition_position e)
        (Some (stored_event_to_proto e)))).

(** The frame of a historical event carries the partition that was asked for. *)
Definition history_frame (p : N) (e : AggregateEvent) : Frame :=
  Ok (FrameEvent (mkInternalEvent p (ev_partition_position e) (Some (stored_event_to_proto e)))).

(** The loop over the cursors: the frames sent, and the positions reached unless
    it ended with an error. *)
Fixpoint subscribe_history (from_now : bool) (cs : list (PartitionCursor * tree)) (next : gmap N N) :
    list Frame * option (gmap N N) :=
  match cs with
  | [] => ([], Some next)
  | (c, t) :: cs' =>
      if negb (pc_partition_id c <=? u16_max)%N
      then ([Err (invalid_argument "partition_id 超出范围")], None)
      else
        let p := pc_partition_id c in
        if from_now then
          match read_aggregate_partition_head shard_id t ty p with
          | Err e => ([Err (internal_of e)], None)
          | Ok h => subscribe_history from_now cs' (<[p := h]> next)
          end
        else
          match read_aggregate_partition_events shard_id t ty p (pc_next_position c) 0 with
          | Err e => ([Err (internal_of e)], None)
          | Ok events =>
              let next := foldl (fun n e => <[p := saturating_add_u64 (ev_partition_position e) 1]> n)
                            (<[p := pc_next_position c]> next) events in
              let rest := subscribe_history from_now cs' next in
              (map (history_frame p) events ++ rest.1, rest.2)
          end
  end.

(** The loop over the broadcast. *)
Fixpoint subscribe_live (next : gmap N N) (items : list BroadcastItem) : list Frame :=
  match items with
  | [] => []
  | BcEvent e :: items' =>
      if negb (bool_decide (ev_aggregate_type e = ty)) then subscribe_live next items'
      else
        match next !! ev_partition_id e with
        | None => subscribe_live next items'
        | Some n =>
            if (ev_partition_position e <? n)%N then subscribe_live next items'
            else event_frame e ::
              subscribe_live (<[ev_partition_id e := saturating_add_u64 (ev_partition_position e) 1]> next) items'
        end
  | BcLagged :: _ => [Err (unavailable "aggregate subscription lagged; resume from cursor")]
  | BcClosed :: _ => []
  end.

Definition heads_of (next : gmap N N) : list PartitionCursor :=
  map (fun kv => mkPCursor kv.1 kv.2) (btree_iter next).

(** [run_local_aggregate_subscription]. *)
Definition run_local_aggregate_subscription (from_now : bool) (cs : list (PartitionCursor * tree))
    (items : list BroadcastItem) : list Frame :=
  match subscribe_history from_now cs ∅ with
  | (frames, None) => frames
  | (frames, Some next) => frames ++ [Ok (FrameCaughtUp (heads_of next))] ++ subscribe_live next items
  end.

End Subscription.

(** ** The source task *)

Section Source.

(** [cursors.iter_mut().find(..)]: the first cursor of the partition. *)
Fixpoint update_cursor (p : N) (f : N -> N) (cs : list PartitionCursor) : list PartitionCursor :=
  match cs with
  | [] => []
  | c :: cs' =>
      if (pc_partition_id c =? p)%N then mkPCursor p (f (pc_next_position c)) :: cs'
      else c :: update_cursor p f cs'
  end.

Record SourceState : Type := mkSource { so_cursors : list PartitionCursor; so_from_now : bool }.

(** The loop over the frames of one connection: the messages sent, the state,
    and whether the stream failed. *)
Fixpoint source_frames (shard_id : N) (s : SourceState) (frames : list Frame) :
    list SourceMessage * SourceState * bool :=
  match frames with
  | [] => ([], s, false)
  | Err _ :: _ => ([], s, true)
  | Ok FrameEmpty :: frames' => source_frames shard_id s frames'
  | Ok (FrameEvent e) :: frames' =>
      let s := mkSource (update_cursor (ie_partition_id e)
                 (fun _ => saturating_add_u64 (ie_partition_position e) 1) (so_cursors s)) (so_from_now s) in
      let '(ms, s', failed) := source_frames shard_id s frames' in
      (MsgEvent shard_id e :: ms, s', failed)
  | Ok (FrameCaughtUp heads) :: frames' =>
      let cs := foldl (fun cs h => update_cursor (pc_partition_id h) (fun n => N.max n (pc_next_position h)) cs)
                  (so_cursors s) heads in
      let '(ms, s', failed) := source_frames shard_id (mkSource cs false) frames' in
      (MsgCaughtUp shard_id heads :: ms, s', failed)
  end.

(** One turn of the loop of [run_aggregate_source]; [None] is a connection that
    could not be opened. *)
Definition source_turn (shard_id : N) (s : SourceState) (connection : option (list Frame)) :
    list SourceMessage * SourceState :=
  match connection with
  | None => ([MsgDegraded shard_id], s)
  | Some frames =>
      let '(ms, s', failed) := source_frames shard_id s frames in
      (ms ++ (if failed || negb (so_from_now s') then [MsgDegraded shard_id] else []), s')
  end.

(** [run_aggregate_source] over a sequence of connections, each opened with the
    request the current state makes. *)
Fixpoint run_aggregate_source (shard_id : N) (s : SourceState)
    (connections : list (SourceState -> option (list Frame))) : list SourceMessage * SourceState :=
  match connections with
  | [] => ([], s)
  | open :: rest =>
      let '(ms, s1) := source_turn shard_id s (open s) in
      let '(ms', s2) := run_aggregate_source shard_id s1 rest in
      (ms ++ ms', s2)
  end.

End Source.

(** ** The merger *)

Section Merger.
Context `{TokenCodecs}.

Record AggregateReadMerger : Type := mkMerger {
  mg_cursor : AggregateCursor;
  mg_pending : gset N;
  mg_unavailable : gset N;
  mg_caught_up_sent : bool
}.

Definition merger_new (cursor : AggregateCursor) (sources : gset N) : AggregateReadMerger :=
  mkMerger cursor sources ∅ false.

(** [encode_cursor(..).unwrap_or_default()]. *)
Definition cursor_bytes (c : AggregateCursor) : Bytes :=
  match encode_cursor c with Ok b => b | Err _ => [] end.

(** [next_positions.get_mut(p)] and the assignment through it. *)
Definition set_next (f : N -> N) (p : N) (c : AggregateCursor) : AggregateCursor :=
  mkCursor (cu_version c) (cu_aggregate_type c) (alter f (N.to_nat p) (cu_next_positions c)).

Definition raise_head (c : AggregateCursor) (h : PartitionCursor) : AggregateCursor :=
  if (pc_partition_id h <=? u16_max)%N
  then set_next (fun n => N.max n (pc_next_position h)) (pc_partition_id h) c else c.

(** [AggregateReadMerger::apply]. *)
Definition merger_apply (m : AggregateReadMerger) (msg : SourceMessage) :
    AggregateReadMerger * list FollowResponse :=
  match msg with
  | MsgEvent _ e =>
      if negb (ie_partition_id e <=? u16_max)%N then (m, [])
      else
        match cu_next_positions (mg_cursor m) !! N.to_nat (ie_partition_id e) with
        | None => (m, [])
        | Some _ =>
            let c := set_next (fun _ => saturating_add_u64 (ie_partition_position e) 1)
                       (ie_partition_id e) (mg_cursor m) in
            let m := mkMerger c (mg_pending m) (mg_unavailable m) (mg_caught_up_sent m) in
            match ie_event e with
            | None => (m, [])
            | Some event => (m, [mkFollow (PayloadEvent event) (cursor_bytes c)])
            end
        end
  | MsgCaughtUp source heads =>
      let c := foldl raise_head (mg_cursor m) heads in
      let pending := mg_pending m ∖ {[source]} in
      let unavail := mg_unavailable m ∖ {[source]} in
      let recovered := bool_decide (source ∈ mg_unavailable m) && bool_decide (unavail = ∅) in
      let r1 := if recovered && mg_caught_up_sent m then [mkFollow PayloadRecovered (cursor_bytes c)] else [] in
      if bool_decide (pending = ∅) && negb (mg_caught_up_sent m)
      then (mkMerger c pending unavail true, r1 ++ [mkFollow PayloadCaughtUp (cursor_bytes c)])
      else (mkMerger c pending unavail (mg_caught_up_sent m), r1)
  | MsgDegraded source =>
      let pending := {[source]} ∪ mg_pending m in
      let unavail := {[source]} ∪ mg_unavailable m in
      let m' := mkMerger (mg_cursor m) pending unavail (mg_caught_up_sent m) in
      if bool_decide (source ∈ mg_unavailable m) then (m', [])
      else (m', [mkFollow (PayloadDegraded (as_u32 (N.of_nat (size unavail))) true) (cursor_bytes (mg_cursor m))])
  end.

(** The task that feeds the merger: the responses to each message. *)
Fixpoint merger_run (m : AggregateReadMerger) (msgs : list SourceMessage) :
    AggregateReadMerger * list (list FollowResponse) :=
  match msgs with
  | [] => (m, [])
  | msg :: msgs' =>
      let '(m1, rs) := merger_apply m msg in
      let '(m2, rss) := merger_run m1 msgs' in
      (m2, rs :: rss)
  end.

End Merger.

(** ** Streams without gaps

    [hist p q] is the event at position [q] of partition [p]. [gapless n frames
    n'] says that the frames, read from the positions [n], deliver each
    partition's events one position after the other, each the event of its
    position, and lead to [n']; a caught-up frame repeats the positions reached;
    an error ends the stream, nothing after it is read. *)

Definition cursor_map (cs : list PartitionCursor) : gmap N N :=
  list_to_map (map (fun c => (pc_partition_id c, pc_next_position c)) cs).

Section Gapless.
Context (hist : N -> N -> option AggregateEvent).

Inductive gapless : gmap N N -> list Frame -> gmap N N -> Prop :=
| GapNil n : gapless n [] n
| GapError n st frames : gapless n (Err st :: frames) n
| GapEvent n p q e frames n' :
    n !! p = Some q -> hist p q = Some e -> (q < u64_max)%N ->
    gapless (<[p := (q + 1)%N]> n) frames n' ->
    gapless n (Ok (FrameEvent (mkInternalEvent p q (Some (stored_event_to_proto e)))) :: frames) n'
| GapCaughtUp n heads frames n' :
    (forall h, h ∈ heads -> n !! pc_partition_id h = Some (pc_next_position h)) ->
    gapless n frames n' ->
    gapless n (Ok (FrameCaughtUp heads) :: frames) n'.

Lemma gapless_history p events from n frames n' :
  n !! p = Some from ->
  (forall i e, events !! i = Some e -> ev_partition_position e = (from + N.of_nat i)%N /\
     hist p (from + N.of_nat i) = Some e /\ (from + N.of_nat i < u64_max)%N) ->
  gapless (<[p := (from + len events)%N]> n) frames n' ->
  gapless n (map (history_frame p) events ++ frames) n'.
Proof.
  revert from n. induction events as [|e events IH]; intros from n Hn He Hg; cbn [map app].
  { rewrite len_nil, N.add_0_r, insert_id in Hg by done. done. }
  destruct (He 0%nat e eq_refl) as (Hpos & Hh & Hlt). rewrite N.add_0_r in Hpos, Hh, Hlt.
  unfold history_frame. rewrite Hpos. eapply GapEvent; [exact Hn|exact Hh|done|].
  apply (IH (from + 1)%N); [apply lookup_insert_eq| |].
  - intros i x Hx. destruct (He (S i) x Hx) as (? & ? & ?).
    replace (from + 1 + N.of_nat i)%N with (from + N.of_nat (S i))%N by lia. done.
  - rewrite insert_insert_eq. rewrite len_cons in Hg. by replace (from + 1 + len events)%N with (from + (1 + len events))%N by lia.
Qed.

End Gapless.

Section SubscriptionProof.
Context {M : Type} `{SmCodecLaws M} `{TreeLaws}.
Context (shard_id : N) (Hshard : (shard_id <= u64_max)%N).
Context (ty : AggregateTypeId) (Hty : type_id_ok ty).
Context (hist : N -> N -> option AggregateEvent).

(** A store read while the broadcast stands at the positions [b]: it holds a
    consistent shard state whose events are those of [hist] and which is not
    behind the broadcast. *)
Definition store_at (b : N -> N) (t : tree) : Prop :=
  exists s ap, ShardRep (M := M) shard_id (tree_view t) s ap /\ shard_wf s /\
    (forall p, (b p <= next_of s ty p)%N) /\
    (forall p q e, event_at_position s ty p q = Some e -> hist p q = Some e).

(** The broadcast from the positions [b] on: the events of each partition in
    position order, none left out before a lag is reported. *)
Fixpoint broadcast_from (b : N -> N) (items : list BroadcastItem) : Prop :=
  match items with
  | BcEvent e :: items' =>
      if bool_decide (ev_aggregate_type e = ty)
      then ev_partition_position e = b (ev_partition_id e) /\ (ev_partition_position e < u64_max)%N /\
           hist (ev_partition_id e) (ev_partition_position e) = Some e /\
           broadcast_from (fun p => if (p =? ev_partition_id e)%N then (b p + 1)%N else b p) items'
      else broadcast_from b items'
  | _ => True
  end.

Lemma fold_next p (events : list AggregateEvent) from (next : gmap N N) :
  (forall i e, events !! i = Some e -> ev_partition_position e = (from + N.of_nat i)%N /\
     (from + N.of_nat i < u64_max)%N) ->
  foldl (fun n e => <[p := saturating_add_u64 (ev_partition_position e) 1]> n) (<[p := from]> next) events =
  <[p := (from + len events)%N]> next.
Proof.
  revert from. induction events as [|e events IH]; intros from He; cbn [foldl].
  { by rewrite len_nil, N.add_0_r. }
  destruct (He 0%nat e eq_refl) as [Hpos Hlt]. rewrite N.add_0_r in Hpos, Hlt.
  rewrite insert_insert_eq, Hpos, saturating_add_u64_exact by lia. rewrite (IH (from + 1)%N).
  - rewrite len_cons. f_equal. lia.
  - intros i x Hx. destruct (He (S i) x Hx) as [? ?].
    replace (from + 1 + N.of_nat i)%N with (from + N.of_nat (S i))%N by lia. done.
Qed.

(** The events a store returns from a position on. *)
Lemma read_contiguous b t p from events :
  store_at b t -> (p <= u16_max)%N -> (from <= u64_max)%N ->
  read_aggregate_partition_events shard_id t ty p from 0 = Ok events ->
  (forall i e, events !! i = Some e -> ev_partition_position e = (from + N.of_nat i)%N /\
     hist p (from + N.of_nat i) = Some e /\ (from + N.of_nat i < u64_max)%N) /\
  (b p <= from + len events)%N.
Proof.
  intros (s & ap & Hrep & Hwf & Hb & Hh) Hp Hfrom Hr.
  apply (read_events_window shard_id Hshard t s ap Hrep Hwf ty p (conj Hty Hp)) in Hr; [|done].
  apply Forall2_same_length_lookup in Hr as [Hlen Hr]. unfold read_window in Hlen, Hr. cbn [N.eqb] in Hlen, Hr.
  unfold seqN in Hlen at 1. rewrite length_map, length_seq in Hlen.
  pose proof (sw_next _ Hwf ty p) as Hnext. specialize (Hb p). split.
  - intros i e He. pose proof (lookup_lt_Some _ _ _ He) as Hi.
    destruct (Hr i (from + N.of_nat i)%N e) as [Hat Hpos]; [apply seqN_lookup; split; [done|lia]|done|].
    split_ands; [done|by apply Hh|lia].
  - unfold len. lia.
Qed.

Lemma read_head_at b t p h :
  store_at b t -> (p <= u16_max)%N -> read_aggregate_partition_head shard_id t ty p = Ok h -> (b p <= h)%N.
Proof.
  intros (s & ap & Hrep & _ & Hb & _) Hp Hr.
  apply (read_head_rep shard_id Hshard t s ap Hrep) in Hr as ->; [|done]. apply Hb.
Qed.

(** The history phase from the cursors: [n] has all cursors, [next] those
    already read. *)
Lemma subscribe_history_gapless b cs next n frames o :
  subscribe_history shard_id ty false cs next = (frames, o) ->
  NoDup (map (fun ct => pc_partition_id ct.1) cs) ->
  (forall c t, (c, t) ∈ cs -> store_at b t /\ (pc_next_position c <= u64_max)%N /\
     n !! pc_partition_id c = Some (pc_next_position c) /\ next !! pc_partition_id c = None) ->
  (forall p q, next !! p = Some q -> n !! p = Some q /\ (b p <= q)%N) ->
  (forall p, is_Some (n !! p) -> is_Some (next !! p) \/ p ∈ map (fun ct => pc_partition_id ct.1) cs) ->
  match o with
  | None => exists n', gapless hist n frames n'
  | Some next' => (forall p q, next' !! p = Some q -> (b p <= q)%N) /\
      forall rest n', gapless hist next' rest n' -> gapless hist n (frames ++ rest) n'
  end.
Proof.
  revert next n frames. induction cs as [|[c t] cs IH]; intros next n frames; cbn [subscribe_history map fst].
  - intros [= <- <-] _ _ Hnext Hdom. split; [intros p q Hp; by apply Hnext|]. intros rest n' Hg. cbn [app].
    assert (Heq : n = next); [|by rewrite Heq]. apply map_eq. intros p. apply option_eq. intros q. split.
    + intros Hq. destruct (Hdom p) as [[q' Hq']|]; [by eexists| |set_solver].
      destruct (Hnext p q' Hq'). congruence.
    + intros Hq. by apply Hnext.
  - intros Hr Hnd Hcs Hnext Hdom. apply NoDup_cons in Hnd as [Hc Hnd].
    destruct (Hcs c t) as (Hst & Hpos & Hn & Hnone); [set_solver|].
    destruct (pc_partition_id c <=? u16_max)%N eqn:Ep; cbn [negb] in Hr; bool_facts.
    2: { injection Hr as <- <-. eexists. constructor. }
    destruct (read_aggregate_partition_events _ _ _ _ _ _) as [events|e] eqn:He.
    2: { injection Hr as <- <-. eexists. constructor. }
    destruct (read_contiguous b t _ _ _ Hst Ep Hpos He) as [Hev Hb].
    rewrite fold_next in Hr by (intros i x Hx; destruct (Hev i x Hx) as (? & _ & ?); done).
    destruct (subscribe_history shard_id ty false cs _) as [fs o'] eqn:Hrest. cbn [fst snd] in Hr.
    injection Hr as <- <-.
    specialize (IH _ (<[pc_partition_id c := (pc_next_position c + len events)%N]> n) _ Hrest Hnd).
    unshelve epose proof (IH _ _ _) as IH'; clear IH.
    + intros c' t' Hin. destruct (Hcs c' t') as (? & ? & ? & ?); [set_solver|].
      assert (pc_partition_id c <> pc_partition_id c').
      { intros Heq. apply Hc. rewrite Heq. by apply (list_elem_of_fmap_2 (fun ct => pc_partition_id ct.1)) in Hin. }
      rewrite !lookup_insert_ne by done. done.
    + intros p q. rewrite !lookup_insert. case_decide; [by intros [= <-]; subst p|apply Hnext].
    + intros p. rewrite !lookup_insert. case_decide as E; [by left|].
      intros [Hs|[->|Hs]%elem_of_cons]%Hdom; [by left|done|by right].
    + destruct o' as [next'|].
      * destruct IH' as [Hb' Hg']. split; [done|]. intros rest n' Hg. rewrite <- app_assoc.
        eapply gapless_history; [exact Hn|exact Hev|by apply Hg'].
      * destruct IH' as [n' Hg']. exists n'. by eapply gapless_history; [exact Hn|exact Hev|].
Qed.

(** The heads of [from_now]. *)
Lemma subscribe_history_now b cs next frames o :
  subscribe_history shard_id ty true cs next = (frames, o) ->
  (forall c t, (c, t) ∈ cs -> store_at b t) ->
  (forall p q, next !! p = Some q -> (b p <= q)%N) ->
  match o with
  | None => exists st, frames = [Err st]
  | Some next' => frames = [] /\ forall p q, next' !! p = Some q -> (b p <= q)%N
  end.
Proof.
  revert next. induction cs as [|[c t] cs IH]; intros next; cbn [subscribe_history].
  { intros [= <- <-] _ Hb. done. }
  intros Hr Hcs Hb. destruct (pc_partition_id c <=? u16_max)%N eqn:Ep; cbn [negb] in Hr; bool_facts.
  2: { injection Hr as <- <-. eauto. }
  destruct (read_aggregate_partition_head _ _ _ _) as [h|e] eqn:Hh.
  2: { injection Hr as <- <-. eauto. }
  apply IH in Hr; [done|intros c' t' Hin; apply (Hcs c' t'); set_solver|].
  intros p q. rewrite lookup_insert. case_decide; [|apply Hb]. intros [= <-]. subst p.
  eapply read_head_at; [apply (Hcs c t); set_solver|done|done].
Qed.

Lemma subscribe_live_gapless b next items :
  broadcast_from b items -> (forall p q, next !! p = Some q -> (b p <= q)%N) ->
  exists n', gapless hist next (subscribe_live ty next items) n'.
Proof.
  revert b next. induction items as [|[e| |] items IH]; intros b next; cbn [subscribe_live broadcast_from].
  - intros _ _. eexists. constructor.
  - destruct (bool_decide (ev_aggregate_type e = ty)) eqn:Et; cbn [negb]; [|by apply IH].
    intros (Hpos & Hlt & Hh & Hb) Hn.
    assert (Hskip : forall p q, next !! p = Some q -> (p = ev_partition_id e -> (b p < q)%N) ->
              ((if (p =? ev_partition_id e)%N then b p + 1 else b p) <= q)%N).
    { intros p q Hp Hq. specialize (Hn p q Hp). destruct (p =? ev_partition_id e)%N eqn:E; bool_facts; [|done].
      specialize (Hq E). lia. }
    destruct (next !! ev_partition_id e) as [n|] eqn:Hne.
    2: { apply (IH _ _ Hb). intros p q Hp. apply Hskip; [done|]. intros ->. congruence. }
    pose proof (Hn _ _ Hne) as Hle. destruct (ev_partition_position e <? n)%N eqn:El; bool_facts.
    + apply (IH _ _ Hb). intros p q Hp. apply Hskip; [done|]. intros ->. rewrite Hne in Hp. injection Hp as <-. lia.
    + assert (Heq : n = ev_partition_position e) by lia. rewrite saturating_add_u64_exact by lia.
      destruct (IH _ (<[ev_partition_id e := (ev_partition_position e + 1)%N]> next) Hb) as [n' Hg].
      { intros p q. rewrite lookup_insert. case_decide as E.
        - intros [= <-]. subst p. rewrite N.eqb_refl. lia.
        - intros Hp. apply Hskip; [done|]. intros ->. done. }
      exists n'. unfold event_frame. eapply GapEvent; [by rewrite Hne, Heq|done|done|exact Hg].
  - intros _ _. eexists. constructor.
  - intros _ _. eexists. constructor.
Qed.

Lemma heads_of_map next h : h ∈ heads_of next -> next !! pc_partition_id h = Some (pc_next_position h).
Proof.
  unfold heads_of. intros ([k v] & -> & Hin)%list_elem_of_fmap. cbn. by apply elem_of_btree_iter.
Qed.

Lemma cursor_map_heads next : cursor_map (heads_of next) = next.
Proof.
  unfold cursor_map, heads_of. rewrite map_map. cbn [pc_partition_id pc_next_position].
  assert (Heq : map (fun x : N * N => (x.1, x.2)) (btree_iter next) = btree_iter next).
  { rewrite <- (map_id (btree_iter next)) at 2. apply map_ext. by intros []. }
  rewrite Heq. apply map_eq. intros p. apply option_eq. intros q.
  rewrite <- elem_of_list_to_map by apply NoDup_btree_iter_keys. apply elem_of_btree_iter.
Qed.

(** The subscription to one shard delivers each partition without gap or
    repetition. From given cursors, the frames start at the cursors and hand
    over, in position order, each partition's next event, through the history
    read from the store and on into the live broadcast, whatever was appended
    between the two; an error ends the stream. From now, the first frame gives
    the positions the stream starts at, and the rest follows from there. *)
Lemma subscription_spec b cs items :
  NoDup (map (fun ct => pc_partition_id ct.1) cs) ->
  (forall c t, (c, t) ∈ cs -> store_at b t /\ (pc_next_position c <= u64_max)%N) ->
  broadcast_from b items ->
  (exists n', gapless hist (cursor_map (map fst cs)) (run_local_aggregate_subscription shard_id ty false cs items) n') /\
  ((exists st, run_local_aggregate_subscription shard_id ty true cs items = [Err st]) \/
   exists heads rest n', run_local_aggregate_subscription shard_id ty true cs items = Ok (FrameCaughtUp heads) :: rest /\
     gapless hist (cursor_map heads) rest n').
Proof.
  intros Hnd Hcs Hb. unfold run_local_aggregate_subscription. split.
  - destruct (subscribe_history shard_id ty false cs ∅) as [frames o] eqn:Hr.
    assert (Hmap : forall c t, (c, t) ∈ cs ->
              cursor_map (map fst cs) !! pc_partition_id c = Some (pc_next_position c)).
    { intros c t Hin. unfold cursor_map. apply elem_of_list_to_map.
      - unfold fmap. change (list_fmap _ _ fst) with (@map (N * N) N fst). rewrite !map_map. exact Hnd.
      - rewrite map_map. by apply (list_elem_of_fmap_2 (fun ct : PartitionCursor * tree => (pc_partition_id ct.1, pc_next_position ct.1))) in Hin. }
    apply (subscribe_history_gapless b) with (n := cursor_map (map fst cs)) in Hr; [|done| | |].
    + destruct o as [next|]; [|done]. destruct Hr as [Hb' Hg].
      destruct (subscribe_live_gapless b next items Hb Hb') as [n' Hlive]. exists n'. apply Hg.
      cbn [app]. constructor; [apply heads_of_map|done].
    + intros c t Hin. destruct (Hcs c t Hin). split_ands; [done|done|by eapply Hmap|apply lookup_empty].
    + intros p q. by rewrite lookup_empty.
    + intros p [q Hq]. right. unfold cursor_map in Hq. apply elem_of_list_to_map_2 in Hq.
      rewrite map_map in Hq. apply list_elem_of_fmap in Hq as ([c t] & [= -> ->] & Hin).
      by apply (list_elem_of_fmap_2 (fun ct : PartitionCursor * tree => pc_partition_id ct.1)) in Hin.
  - destruct (subscribe_history shard_id ty true cs ∅) as [frames o] eqn:Hr.
    apply (subscribe_history_now b) in Hr; [|intros c t Hin; by destruct (Hcs c t Hin)|intros p q; by rewrite lookup_empty].
    destruct o as [next|]; [|by left]. destruct Hr as [-> Hb']. right.
    destruct (subscribe_live_gapless b next items Hb Hb') as [n' Hlive].
    exists (heads_of next), (subscribe_live ty next items), n'. split; [done|]. by rewrite cursor_map_heads.
Qed.

End SubscriptionProof.

(** ** The messages of the sources *)

Section Messages.
Context (hist : N -> N -> option AggregateEvent).

(** [gapless] for the messages of the sources: one message, and a sequence. *)
Inductive msg_step : gmap N N -> SourceMessage -> gmap N N -> Prop :=
| StepEvent n source p q e :
    n !! p = Some q -> hist p q = Some e -> (q < u64_max)%N ->
    msg_step n (MsgEvent source (mkInternalEvent p q (Some (stored_event_to_proto e)))) (<[p := (q + 1)%N]> n)
| StepCaughtUp n source heads :
    (forall h, h ∈ heads -> n !! pc_partition_id h = Some (pc_next_position h)) ->
    msg_step n (MsgCaughtUp source heads) n
| StepDegraded n source : msg_step n (MsgDegraded source) n.

Inductive msgs_gapless : gmap N N -> list SourceMessage -> gmap N N -> Prop :=
| MsgsNil n : msgs_gapless n [] n
| MsgsCons n m n1 ms n' : msg_step n m n1 -> msgs_gapless n1 ms n' -> msgs_gapless n (m :: ms) n'.

Lemma msgs_gapless_app n ms1 n1 ms2 n2 :
  msgs_gapless n ms1 n1 -> msgs_gapless n1 ms2 n2 -> msgs_gapless n (ms1 ++ ms2) n2.
Proof. induction 1; cbn [app]; [done|econstructor; eauto]. Qed.

(** *** Cursors of a source *)

Definition ids (cs : list PartitionCursor) : list N := map pc_partition_id cs.

Lemma cursor_map_lookup cs p q :
  NoDup (ids cs) -> cursor_map cs !! p = Some q <-> mkPCursor p q ∈ cs.
Proof.
  intros Hnd. unfold cursor_map. rewrite <- elem_of_list_to_map.
  - rewrite list_elem_of_fmap. split.
    + by intros ([] & [= -> ->] & Hin).
    + intros Hin. by exists (mkPCursor p q).
  - unfold fmap. change (list_fmap _ _ fst) with (@map (N * N) N fst). rewrite map_map. exact Hnd.
Qed.

Lemma update_cursor_ids p f cs : ids (update_cursor p f cs) = ids cs.
Proof.
  induction cs as [|c cs IH]; [done|]. cbn. destruct (pc_partition_id c =? p)%N eqn:E; bool_facts; cbn;
    [by subst|by f_equal].
Qed.

Lemma cursor_map_update p f cs :
  cursor_map (update_cursor p f cs) = alter f p (cursor_map cs).
Proof.
  induction cs as [|c cs IH].
  { apply map_eq. intros x. destruct (decide (x = p)) as [->|Hne];
      [by rewrite lookup_alter_eq|by rewrite lookup_alter_ne]. }
  cbn. unfold cursor_map in IH.
  destruct (pc_partition_id c =? p)%N eqn:E; bool_facts; cbn.
  - subst p. by rewrite alter_insert_eq.
  - rewrite alter_insert_ne by done. f_equal. exact IH.
Qed.

Lemma raise_known n heads cs :
  cursor_map cs = n ->
  (forall h, h ∈ heads -> n !! pc_partition_id h = Some (pc_next_position h)) ->
  let cs' := foldl (fun cs h => update_cursor (pc_partition_id h) (fun n => N.max n (pc_next_position h)) cs) cs heads in
  cursor_map cs' = n /\ ids cs' = ids cs.
Proof.
  revert cs. induction heads as [|h heads IH]; intros cs Hcs Hh cs'; [done|]. subst cs'. cbn [foldl].
  edestruct (IH (update_cursor (pc_partition_id h) (fun n => N.max n (pc_next_position h)) cs)) as [H1 H2].
  - rewrite cursor_map_update, Hcs. apply map_eq. intros p.
    destruct (decide (p = pc_partition_id h)) as [->|Hne].
    + rewrite lookup_alter_eq, Hh by set_solver. cbn. f_equal. lia.
    + by rewrite lookup_alter_ne by done.
  - intros; apply Hh; set_solver.
  - rewrite H1, H2. split; [done|]. apply update_cursor_ids.
Qed.

(** The state of a source that follows from its cursors. *)
Definition source_ok (s : SourceState) : Prop :=
  NoDup (ids (so_cursors s)) /\ map_Forall (fun _ q => (q <= u64_max)%N) (cursor_map (so_cursors s)) /\
  so_from_now s = false.

Lemma source_frames_gapless shard_id s frames n n' ms s' failed :
  gapless hist n frames n' -> cursor_map (so_cursors s) = n -> source_ok s ->
  source_frames shard_id s frames = (ms, s', failed) ->
  msgs_gapless n ms n' /\ cursor_map (so_cursors s') = n' /\ source_ok s'.
Proof.
  intros Hg. revert s ms s' failed.
  induction Hg as [n|n st frames|n p q e frames n' Hp Hh Hlt _ IH|n heads frames n' Hh _ IH];
    intros s ms s' failed Hcs (Hnd & Hle & Hnow); cbn [source_frames ie_partition_id ie_partition_position].
  - intros [= <- <- <-]. split_ands; [constructor|done|done].
  - intros [= <- <- <-]. split_ands; [constructor|done|done].
  - destruct (source_frames shard_id _ frames) as [[ms1 s1] f1] eqn:Hr. intros [= <- <- <-].
    assert (Hmap : cursor_map (update_cursor p (fun _ => saturating_add_u64 q 1) (so_cursors s)) = <[p := (q + 1)%N]> n).
    { rewrite cursor_map_update, Hcs. rewrite saturating_add_u64_exact by lia.
      apply map_eq. intros x. destruct (decide (x = p)) as [->|Hne].
      + rewrite lookup_alter_eq, Hp, lookup_insert_eq. done.
      + rewrite lookup_alter_ne, lookup_insert_ne by done. done. }
    apply IH in Hr as (Hm & Hc & Hn); [split_ands; [by econstructor; [by constructor|]|done|done]|done|].
    unfold source_ok. cbn [so_cursors so_from_now]. rewrite update_cursor_ids, Hmap. split_ands; [done| |done].
    rewrite <- Hcs. apply map_Forall_insert_2; [lia|done].
  - destruct (source_frames shard_id _ frames) as [[ms1 s1] f1] eqn:Hr. intros [= <- <- <-].
    destruct (raise_known n heads (so_cursors s) Hcs Hh) as [Hr1 Hr2].
    apply IH in Hr as (Hm & Hc & Hn); [split_ands; [by econstructor; [by constructor|]|done|done]|exact Hr1|].
    unfold source_ok. cbn [so_cursors so_from_now]. rewrite Hr1, Hr2. by rewrite <- Hcs.
Qed.

(** A connection that, opened with the current cursors, delivers a gapless
    stream from them, or fails to open. *)
Definition sound_connection (open : SourceState -> option (list Frame)) : Prop :=
  forall s frames, source_ok s -> open s = Some frames ->
  exists n', gapless hist (cursor_map (so_cursors s)) frames n'.

Lemma run_source_gapless shard_id s connections ms s' :
  Forall sound_connection connections -> source_ok s ->
  run_aggregate_source shard_id s connections = (ms, s') ->
  msgs_gapless (cursor_map (so_cursors s)) ms (cursor_map (so_cursors s')) /\ source_ok s'.
Proof.
  intros Hc. revert s ms. induction Hc as [|open rest Hopen _ IH]; intros s ms Hnow; cbn [run_aggregate_source].
  { intros [= <- <-]. split; [constructor|done]. }
  destruct (source_turn shard_id s (open s)) as [ms1 s1] eqn:Ht.
  destruct (run_aggregate_source shard_id s1 rest) as [ms2 s2] eqn:Hr. intros [= <- <-].
  assert (Hone : msgs_gapless (cursor_map (so_cursors s)) ms1 (cursor_map (so_cursors s1)) /\ source_ok s1).
  { unfold source_turn in Ht. destruct (open s) as [frames|] eqn:Ho.
    - destruct (Hopen s frames Hnow Ho) as [n' Hg].
      destruct (source_frames shard_id s frames) as [[ms0 s0] failed] eqn:Hf. injection Ht as <- <-.
      destruct (source_frames_gapless _ _ _ _ _ _ _ _ Hg eq_refl Hnow Hf) as (Hm & Hcm & Hn).
      split; [|done]. eapply msgs_gapless_app; [exact Hm|]. rewrite <- Hcm.
      destruct (failed || negb (so_from_now s0)); repeat econstructor.
    - injection Ht as <- <-. split; [repeat econstructor|done]. }
  destruct Hone as [Hm1 Hn1]. destruct (IH _ _ Hn1 Hr) as [Hm2 Hn2]. split; [by eapply msgs_gapless_app|done].
Qed.

(** *** Interleaving the sources *)

(** [out] takes the messages of the lists [ls] in some order that keeps the order
    of each list; it may stop anywhere. *)
Inductive interleave {A} : list (list A) -> list A -> Prop :=
| InterleaveStop ls : interleave ls []
| InterleaveTake ls i x l out :
    ls !! i = Some (x :: l) -> interleave (<[i := l]> ls) out -> interleave ls (x :: out).

(** A message of one source, seen by the whole. *)
Lemma msg_step_frame ni m ni1 n :
  msg_step ni m ni1 -> ni ⊆ n -> msg_step n m (ni1 ∪ n) /\ forall p, is_Some (ni1 !! p) <-> is_Some (ni !! p).
Proof.
  intros Hs Hsub. pose proof (map_subseteq_union ni n Hsub) as Hu.
  destruct Hs as [ni source p q e Hp Hh Hlt|ni source heads Hh|ni source].
  - split.
    + rewrite <- insert_union_l, Hu. constructor; [by eapply lookup_weaken|done|done].
    + intros x. rewrite lookup_insert_is_Some. destruct (decide (p = x)) as [<-|]; [|naive_solver].
      split; [by eexists|by left].
  - rewrite Hu. split; [|done]. constructor. intros h Hin. eapply lookup_weaken; [by apply Hh|done].
  - rewrite Hu. split; [constructor|done].
Qed.

Lemma interleave_gapless lss out :
  interleave lss out ->
  forall (ns : list (gmap N N)) (n : gmap N N),
  (forall i ni, ns !! i = Some ni -> ni ⊆ n) ->
  (forall i j ni nj p, ns !! i = Some ni -> ns !! j = Some nj -> is_Some (ni !! p) -> is_Some (nj !! p) -> i = j) ->
  Forall2 (fun ni ms => exists n', msgs_gapless ni ms n') ns lss ->
  exists n', msgs_gapless n out n'.
Proof.
  induction 1 as [ls|ls i m l out Hi _ IH]; intros ns n Hsub Hdis Hall; [exists n; constructor|].
  pose proof Hall as [Hlen Hlk]%Forall2_same_length_lookup.
  destruct (lookup_lt_is_Some_2 ns i) as [ni Hni]; [rewrite Hlen; by eapply lookup_lt_Some|].
  destruct (Hlk i ni _ Hni Hi) as [n' Hg]. inversion Hg as [|? ? ni1 ? ? Hs Hrest]; subst.
  destruct (msg_step_frame ni m ni1 n Hs (Hsub _ _ Hni)) as [Hs' Hdom].
  destruct (IH (<[i := ni1]> ns) (ni1 ∪ n)) as [n2 Hn2].
  - intros j nj Hj. apply list_lookup_insert_Some in Hj as [(<- & <- & _)|[Hne Hj]].
    + apply map_union_subseteq_l.
    + apply map_subseteq_spec. intros p q Hp. apply lookup_union_Some_raw. right.
      split; [|by eapply lookup_weaken; [|eapply Hsub]].
      destruct (ni1 !! p) eqn:Hp1; [|done]. exfalso. apply Hne.
      eapply Hdis; [exact Hni|exact Hj|apply Hdom; by eexists|by eexists].
  - intros j k nj nk p Hj Hk Hpj Hpk.
    assert (Hold : forall x nx, <[i := ni1]> ns !! x = Some nx -> is_Some (nx !! p) ->
              exists nx', ns !! x = Some nx' /\ is_Some (nx' !! p)).
    { intros x nx Hx Hp. apply list_lookup_insert_Some in Hx as [(<- & <- & _)|[_ Hx]]; [|by exists nx].
      exists ni. split; [done|]. by apply Hdom. }
    destruct (Hold j nj Hj Hpj) as (nj' & ? & ?). destruct (Hold k nk Hk Hpk) as (nk' & ? & ?).
    by eapply Hdis.
  - apply Forall2_same_length_lookup. split; [by rewrite !length_insert|].
    intros j nj ms Hj Hms. apply list_lookup_insert_Some in Hms as [(<- & <- & _)|[Hne Hms]].
    + rewrite list_lookup_insert_eq in Hj by (by eapply lookup_lt_Some). injection Hj as <-. by eexists.
    + rewrite list_lookup_insert_ne in Hj by done. by eapply Hlk.
  - exists n2. by econstructor.
Qed.

End Messages.
