(* ===== verification/FollowStream.v ===== *)
(** * es-server: the stream of one follower

    [follow_aggregate_type_events] of [es-server/src/aggregate_service.rs]: where
    a follower starts, how the partitions are split among the shards, and what
    the client receives. The responses are those of the merger on an
    interleaving of the messages of the sources, each source running over any
    number of connections.

    The theorems say that the cursor of every response is exactly the place in
    the event history the client has reached, so that resuming from it neither
    loses nor repeats an event, and when the announcements of the merger are
    made. *)

From S2P Require Import Prelude.
From S2P Require Import Bytes.
From S2P Require Import Core.
From S2P Require Import Aggregate.
From S2P Require Import Catalog.
From S2P Require Import Keys.
From S2P Require Import Store.
From S2P Require Import RaftType.
From S2P Require Import LogStore.
From S2P Require Import StateMachine.
From S2P Require Import ShardSpec.
From S2P Require Import Codecs.
From S2P Require Import Apply.
From S2P Require Import Reads.
From S2P Require Import Config.
From S2P Require Import Topology.
From S2P Require Import Wire.
From S2P Require Import Follow.

(** ** Starting *)

Inductive FollowStart : Type :=
| FollowBeginning
| FollowNow
| FollowCursor (bytes : Bytes).

Section Start.
Context `{TokenCodecs}.

Definition zero_cursor (ty : AggregateTypeId) (d : AggregateTypeDefinition) : AggregateCursor :=
  mkCursor CURSOR_VERSION ty (replicate (N.to_nat (td_partition_count d)) 0%N).

(** The cursor a follower starts with, and [from_now]. *)
Definition follow_start (ty : AggregateTypeId) (d : AggregateTypeDefinition) (start : option FollowStart) :
    Reply (AggregateCursor * bool) :=
  match start with
  | None | Some FollowBeginning => Ok (zero_cursor ty d, false)
  | Some FollowNow => Ok (zero_cursor ty d, true)
  | Some (FollowCursor bytes) =>
      c ← decode_cursor bytes ty (td_partition_count d);
      Ok (c, false)
  end.

End Start.

(** The loop that groups the partitions by the shard that holds them, with the
    value [at_index] has for each; [None] is an index out of range. *)
Fixpoint group_by_shard {A} (at_index : N -> option A) (placements : list (N * PartitionPlacement))
    (acc : gmap N (list A)) : option (gmap N (list A)) :=
  match placements with
  | [] => Some acc
  | (p, pl) :: rest =>
      match at_index p with
      | None => None
      | Some a => group_by_shard at_index rest (<[pl_shard_id pl := default [] (acc !! pl_shard_id pl) ++ [a]]> acc)
      end
  end.

Definition follow_sources (c : AggregateCursor) (d : AggregateTypeDefinition) :
    option (gmap N (list PartitionCursor)) :=
  group_by_shard (fun p => mkPCursor p <$> cu_next_positions c !! N.to_nat p) (btree_iter (td_placements d)) ∅.

(** ** Connections

    What one call of [open_source_stream] meets: no leader or a failed call, or
    a leader, with the store as it is when each partition is read and the
    broadcast received since the subscription. The stream that reaches the source
    may be cut anywhere, with or without an error. *)
Inductive Connection {tree : Type} : Type :=
| Refused
| Connected (stores : N -> tree) (items : list BroadcastItem) (cut : option (nat * option Status)).
Arguments Connection : clear implicits.

Section Connections.
Context `{Tree} {M : Type} `{SmCodecs M}.

Definition cut_stream (frames : list Frame) (cut : option (nat * option Status)) : list Frame :=
  match cut with
  | None => frames
  | Some (k, None) => take k frames
  | Some (k, Some st) => take k frames ++ [Err st]
  end.

(** [open_source_stream] for the request the state of the source makes. *)
Definition open_source_stream (shard_id : N) (ty : AggregateTypeId) (k : Connection tree) (s : SourceState) :
    option (list Frame) :=
  match k with
  | Refused => None
  | Connected stores items cut =>
      Some (cut_stream (run_local_aggregate_subscription shard_id ty (so_from_now s)
              (map (fun c => (c, stores (pc_partition_id c))) (so_cursors s)) items) cut)
  end.

(** The messages of all sources. *)
Definition source_messages (ty : AggregateTypeId) (from_now : bool) (sources : gmap N (list PartitionCursor))
    (connections : N -> list (Connection tree)) : list (list SourceMessage) :=
  map (fun '(shard_id, cursors) =>
         (run_aggregate_source shard_id (mkSource cursors from_now)
            (map (open_source_stream shard_id ty) (connections shard_id))).1)
      (btree_iter sources).

End Connections.

(** ** Grouping *)

(** What [group_by_shard] collects for one shard. *)
Definition shard_items {A} (at_index : N -> option A) (placements : list (N * PartitionPlacement)) (shard_id : N) :
    list A :=
  omap (fun ppl => if (pl_shard_id ppl.2 =? shard_id)%N then at_index ppl.1 else None) placements.

Lemma group_by_shard_spec {A} (f : N -> option A) pls acc :
  (forall p pl, (p, pl) ∈ pls -> is_Some (f p)) ->
  exists m, group_by_shard f pls acc = Some m /\
    forall s, default [] (m !! s) = default [] (acc !! s) ++ shard_items f pls s.
Proof.
  revert acc. induction pls as [|[p pl] pls IH]; intros acc Hf; cbn [group_by_shard].
  { exists acc. split; [done|]. intros s. cbn. by rewrite app_nil_r. }
  destruct (Hf p pl) as [a Ha]; [by left|]. rewrite Ha.
  edestruct IH as (m & Hm & Hs); [intros x plx Hin; apply (Hf x plx); by right|]. exists m. split; [exact Hm|].
  intros s. rewrite Hs. unfold shard_items. cbn [omap list_omap fst snd].
  destruct (pl_shard_id pl =? s)%N eqn:E; bool_facts.
  - subst s. rewrite lookup_insert_eq, Ha. cbn. by rewrite <- app_assoc.
  - by rewrite lookup_insert_ne.
Qed.

Lemma group_by_shard_nonempty {A} (f : N -> option A) pls acc m :
  group_by_shard f pls acc = Some m -> (forall s l, acc !! s = Some l -> l <> []) ->
  forall s l, m !! s = Some l -> l <> [].
Proof.
  revert acc. induction pls as [|[p pl] pls IH]; intros acc; cbn [group_by_shard]; [by intros [= <-]|].
  destruct (f p) as [a|]; [|done]. intros Hm Hacc. eapply IH; [exact Hm|].
  intros s l. rewrite lookup_insert. case_decide; [|apply Hacc]. intros [= <-]. by destruct (default [] _).
Qed.

Lemma elem_of_shard_items {A} (f : N -> option A) pls s a :
  a ∈ shard_items f pls s <-> exists p pl, (p, pl) ∈ pls /\ pl_shard_id pl = s /\ f p = Some a.
Proof.
  unfold shard_items. rewrite list_elem_of_omap. split.
  - intros ([p pl] & Hin & Hf). cbn in Hf. destruct (pl_shard_id pl =? s)%N eqn:E; bool_facts; [|done]. eauto 6.
  - intros (p & pl & Hin & Hs & Hf). exists (p, pl). split; [done|]. cbn. by rewrite Hs, N.eqb_refl.
Qed.

(** The partitions of a shard's items, each once. *)
Lemma shard_items_ids {A} (f : N -> option A) (g : A -> N) pls s :
  (forall p a, f p = Some a -> g a = p) -> NoDup pls.*1 -> NoDup (map g (shard_items f pls s)).
Proof.
  intros Hg. induction pls as [|[p pl] pls IH]; cbn; [constructor|].
  intros [Hp Hnd]%NoDup_cons. destruct (pl_shard_id pl =? s)%N; [|by apply IH].
  destruct (f p) as [a|] eqn:Ha; [|by apply IH]. cbn. constructor; [|by apply IH].
  rewrite (Hg _ _ Ha). intros (b & -> & Hb)%list_elem_of_fmap.
  apply (elem_of_shard_items f pls s b) in Hb as (p' & pl' & Hin & _ & Hb). rewrite (Hg _ _ Hb) in Hp.
  apply Hp. by apply (list_elem_of_fmap_2 fst) in Hin.
Qed.

(** ** What the client sees *)

Definition positions (c : AggregateCursor) : gmap N N := kmap N.of_nat (map_seq 0 (cu_next_positions c)).

Lemma positions_lookup c p : positions c !! p = cu_next_positions c !! N.to_nat p.
Proof.
  unfold positions. rewrite <- (N2Nat.id p) at 1. rewrite lookup_kmap by apply _.
  rewrite lookup_map_seq_0. done.
Qed.

Section Client.
Context `{TokenCodecs}.
Context (ty : AggregateTypeId) (count : N) (Hcount : (count <= 65536)%N).
Context (hist : N -> N -> option AggregateEvent).

(** The cursor [b], given back to the server, resumes at the positions [n]. *)
Definition resumes_at (b : Bytes) (n : gmap N N) : Prop :=
  exists c, decode_cursor b ty count = Ok c /\ positions c = n.

Definition is_event (p : FollowPayload) : bool := match p with PayloadEvent _ => true | _ => false end.

(** The responses, from the positions [n]: each event is the next one of its
    partition, and the cursor of every response resumes right behind the events
    delivered so far. *)
Inductive follow_stream : gmap N N -> list FollowResponse -> gmap N N -> Prop :=
| FollowNil n : follow_stream n [] n
| FollowEvent n p q e b rs n' :
    n !! p = Some q -> hist p q = Some e -> resumes_at b (<[p := (q + 1)%N]> n) ->
    follow_stream (<[p := (q + 1)%N]> n) rs n' ->
    follow_stream n (mkFollow (PayloadEvent (stored_event_to_proto e)) b :: rs) n'
| FollowNote n note b rs n' :
    is_event note = false -> resumes_at b n ->
    follow_stream n rs n' -> follow_stream n (mkFollow note b :: rs) n'.

Lemma follow_stream_app n rs1 n1 rs2 n2 :
  follow_stream n rs1 n1 -> follow_stream n1 rs2 n2 -> follow_stream n (rs1 ++ rs2) n2.
Proof. induction 1; cbn [app]; [done|econstructor; eauto|constructor; eauto]. Qed.

(** *** The merger *)

Definition cursor_ok (c : AggregateCursor) : Prop :=
  cu_version c = CURSOR_VERSION /\ cu_aggregate_type c = ty /\ len (cu_next_positions c) = count.

Lemma cursor_bytes_resume `{!TokenCodecLaws} `{!CodecTotal AggregateCursor} c :
  cursor_ok c -> resumes_at (cursor_bytes c) (positions c).
Proof.
  intros (Hv & Ht & Hl). exists c. split; [|done]. unfold cursor_bytes, encode_cursor, decode_cursor.
  destruct (bincode_encode_ok c) as [b Hb].
  assert (He : encode_bincode c "aggregate cursor" = Ok b) by (unfold encode_bincode; by rewrite Hb).
  rewrite He, (decode_encoded _ _ _ _ He). cbn [mbind result_bind].
  by rewrite Hv, Ht, Hl, bool_decide_eq_true_2, !N.eqb_refl.
Qed.

Lemma set_next_ok f p c : cursor_ok c -> cursor_ok (set_next f p c).
Proof. intros (? & ? & Hl). unfold cursor_ok. split_ands; [done|done|]. unfold set_next, len in *. cbn. by rewrite length_alter. Qed.

Lemma set_next_positions f p c : positions (set_next f p c) = alter f p (positions c).
Proof.
  apply map_eq. intros x. rewrite positions_lookup. cbn [set_next cu_next_positions].
  destruct (decide (x = p)) as [->|Hne].
  - by rewrite list_lookup_alter_eq, lookup_alter_eq, positions_lookup.
  - rewrite list_lookup_alter_ne by (intros ?%N2Nat.inj; done). by rewrite lookup_alter_ne, positions_lookup by done.
Qed.

Lemma position_small c p q : cursor_ok c -> positions c !! p = Some q -> (p <=? u16_max)%N = true.
Proof.
  intros (_ & _ & Hl) Hp. rewrite positions_lookup in Hp. apply lookup_lt_Some in Hp.
  unfold len in Hl. apply N.leb_le. lia.
Qed.

Lemma raise_heads_known c heads :
  cursor_ok c -> (forall h, h ∈ heads -> positions c !! pc_partition_id h = Some (pc_next_position h)) ->
  cursor_ok (foldl raise_head c heads) /\ positions (foldl raise_head c heads) = positions c.
Proof.
  revert c. induction heads as [|h heads IH]; intros c Hc Hh; [done|]. cbn [foldl].
  pose proof (Hh h ltac:(by left)) as Hhead.
  assert (Hr : positions (raise_head c h) = positions c).
  { unfold raise_head. rewrite (position_small c _ _ Hc Hhead), set_next_positions. apply map_eq. intros x.
    destruct (decide (x = pc_partition_id h)) as [->|Hne]; [|by rewrite lookup_alter_ne].
    rewrite lookup_alter_eq, Hhead. cbn. f_equal. lia. }
  destruct (IH (raise_head c h)) as [? Hp].
  - unfold raise_head. case_match; [by apply set_next_ok|done].
  - intros h' Hin. rewrite Hr. apply Hh. by right.
  - split; [done|]. by rewrite Hp, Hr.
Qed.

Lemma merger_apply_stream `{!TokenCodecLaws} `{!CodecTotal AggregateCursor} m msg n n' m' rs :
  cursor_ok (mg_cursor m) -> positions (mg_cursor m) = n -> msg_step hist n msg n' ->
  merger_apply m msg = (m', rs) ->
  cursor_ok (mg_cursor m') /\ positions (mg_cursor m') = n' /\ follow_stream n rs n'.
Proof.
  intros Hc Hn Hs. destruct Hs as [n source p q e Hp Hh Hlt|n source heads Hh|n source]; cbn [merger_apply].
  - cbn [ie_partition_id ie_partition_position ie_event]. rewrite <- Hn in Hp.
    rewrite (position_small _ _ _ Hc Hp). cbn [negb]. rewrite <- positions_lookup, Hp.
    intros [= <- <-]. cbn [mg_cursor]. rewrite saturating_add_u64_exact by lia.
    assert (Hp' : positions (set_next (fun _ => (q + 1)%N) p (mg_cursor m)) = <[p := (q + 1)%N]> n).
    { rewrite set_next_positions, Hn. apply map_eq. intros x. rewrite Hn in Hp.
      destruct (decide (x = p)) as [->|Hne]; [by rewrite lookup_alter_eq, Hp, lookup_insert_eq|].
      by rewrite lookup_alter_ne, lookup_insert_ne. }
    pose proof (set_next_ok (fun _ => (q + 1)%N) p _ Hc) as Hc'.
    split_ands; [done|done|]. eapply FollowEvent; [by rewrite <- Hn|done| |constructor].
    rewrite <- Hp'. by apply cursor_bytes_resume.
  - rewrite <- Hn in Hh. destruct (raise_heads_known _ _ Hc Hh) as [Hc' Hp'].
    pose proof (cursor_bytes_resume _ Hc') as Hb. rewrite Hp', Hn in Hb. rewrite Hn in Hp'.
    set (c := foldl raise_head (mg_cursor m) heads) in *.
    assert (Hr : forall b : bool, follow_stream n (if b then [mkFollow PayloadRecovered (cursor_bytes c)] else []) n).
    { intros []; repeat (constructor; try done). }
    destruct (_ && negb _); intros [= <- <-]; cbn [mg_cursor]; (split_ands; [done|done|]).
    + eapply follow_stream_app; [apply Hr|]. repeat (constructor; try done).
    + apply Hr.
  - pose proof (cursor_bytes_resume _ Hc) as Hb. rewrite Hn in Hb.
    case_match; intros [= <- <-]; cbn [mg_cursor]; (split_ands; [done|done|]); repeat (constructor; try done).
Qed.

Lemma merger_run_stream `{!TokenCodecLaws} `{!CodecTotal AggregateCursor} m msgs n n' :
  cursor_ok (mg_cursor m) -> positions (mg_cursor m) = n -> msgs_gapless hist n msgs n' ->
  follow_stream n (concat (merger_run m msgs).2) n'.
Proof.
  intros Hc Hn Hg. revert m Hc Hn. induction Hg as [n|n msg n1 msgs n' Hs _ IH]; intros m Hc Hn; cbn [merger_run].
  { constructor. }
  destruct (merger_apply m msg) as [m1 rs] eqn:Ha.
  destruct (merger_apply_stream m msg n n1 m1 rs Hc Hn Hs Ha) as (Hc1 & Hn1 & Hst).
  specialize (IH m1 Hc1 Hn1). destruct (merger_run m1 msgs) as [m2 rss]. cbn [snd] in IH |- *.
  cbn [concat]. by eapply follow_stream_app.
Qed.

End Client.

(** ** The whole path *)

Lemma gapless_cut hist n frames n' k :
  gapless hist n frames n' ->
  (exists n1, gapless hist n (take k frames) n1) /\ forall st, exists n1, gapless hist n (take k frames ++ [Err st]) n1.
Proof.
  intros Hg. revert k.
  assert (Hstop : forall n, (exists n1, gapless hist n [] n1) /\ forall st, exists n1, gapless hist n [Err st] n1).
  { intros n1. split; [|intros st]; eexists; constructor. }
  induction Hg as [n|n st frames|n p q e frames n' Hp Hh Hlt _ IH|n heads frames n' Hh _ IH]; intros k.
  - rewrite take_nil. apply Hstop.
  - destruct k; [apply Hstop|]. split; [|intros st']; eexists; apply GapError.
  - destruct k; [apply Hstop|]. destruct (IH k) as [[n1 H1] H2]. split.
    + exists n1. by econstructor.
    + intros st. destruct (H2 st) as [n2 ?]. exists n2. cbn [take app]. by econstructor.
  - destruct k; [apply Hstop|]. destruct (IH k) as [[n1 H1] H2]. split.
    + exists n1. by econstructor.
    + intros st. destruct (H2 st) as [n2 ?]. exists n2. cbn [take app]. by econstructor.
Qed.

Section Path.
Context {M : Type} `{SmCodecLaws M} `{TreeLaws} `{TokenCodecLaws} `{!CodecTotal AggregateCursor}.
Context (ty : AggregateTypeId) (hist : N -> N -> option AggregateEvent).

(** A connection to a leader of the shard: the stores it reads hold consistent
    states with the events of [hist], none behind the broadcast. *)
Definition connection_ok (shard_id : N) (k : Connection tree) : Prop :=
  match k with
  | Refused => True
  | Connected stores items _ =>
      exists b, (forall p, store_at (M := M) shard_id ty hist b (stores p)) /\ broadcast_from ty hist b items
  end.

Lemma open_source_sound shard_id k :
  (shard_id <= u64_max)%N -> type_id_ok ty -> connection_ok shard_id k ->
  sound_connection hist (open_source_stream (M := M) shard_id ty k).
Proof.
  intros Hshard Hty Hk s frames (Hnd & Hle & Hnow). destruct k as [|stores items cut]; [done|].
  destruct Hk as (b & Hst & Hb). cbn [open_source_stream]. rewrite Hnow. intros [= <-].
  set (cs := map (fun c => (c, stores (pc_partition_id c))) (so_cursors s)).
  assert (Hfst : map fst cs = so_cursors s) by (unfold cs; rewrite map_map; apply map_id).
  destruct (subscription_spec shard_id Hshard ty Hty hist b cs items) as [[n' Hg] _]; [| |done|].
  - unfold cs. rewrite map_map. exact Hnd.
  - intros c t (c' & [= -> ->] & Hin)%list_elem_of_fmap. split; [apply Hst|].
    eapply (Hle (pc_partition_id c')). apply cursor_map_lookup; [done|]. by destruct c'.
  - rewrite Hfst in Hg. unfold cut_stream. destruct cut as [[k [st|]]|].
    + exact (proj2 (gapless_cut _ _ _ _ k Hg) st).
    + exact (proj1 (gapless_cut _ _ _ _ k Hg)).
    + by exists n'.
Qed.

(** The cursors handed to the sources, all from the cursor of the follower. *)
Lemma follow_sources_spec c d :
  definition_wf ty d -> len (cu_next_positions c) = td_partition_count d ->
  exists m, follow_sources c d = Some m /\
    (forall s cs, m !! s = Some cs -> NoDup (ids cs) /\ cursor_map cs ⊆ positions c) /\
    (forall s1 s2 cs1 cs2 p, m !! s1 = Some cs1 -> m !! s2 = Some cs2 ->
       p ∈ ids cs1 -> p ∈ ids cs2 -> s1 = s2) /\
    (forall p, (p < td_partition_count d)%N -> exists s cs, m !! s = Some cs /\ p ∈ ids cs).
Proof.
  intros (_ & _ & Hcnt & Hdom & _) Hlen. unfold follow_sources.
  set (f := fun p => mkPCursor p <$> cu_next_positions c !! N.to_nat p).
  assert (Hin : forall p pl, (p, pl) ∈ btree_iter (td_placements d) -> is_Some (f p)).
  { intros p pl Hp%elem_of_btree_iter. unfold f. apply fmap_is_Some, lookup_lt_is_Some.
    rewrite Hcnt in Hlen. assert (Hlt : (p < EVENT_PARTITION_COUNT)%N) by (apply Hdom; by eexists).
    unfold len in Hlen. lia. }
  destruct (group_by_shard_spec f _ ∅ Hin) as (m & Hm & Hs). exists m. split; [exact Hm|].
  assert (Hl : forall s cs, m !! s = Some cs -> cs = shard_items f (btree_iter (td_placements d)) s).
  { intros s cs Hcs. specialize (Hs s). by rewrite Hcs, lookup_empty in Hs. }
  assert (Hid : forall p a, f p = Some a -> pc_partition_id a = p).
  { intros p a. unfold f. rewrite fmap_Some. by intros (q & _ & ->). }
  assert (Hel : forall s cs p, m !! s = Some cs -> p ∈ ids cs ->
            exists pl, td_placements d !! p = Some pl /\ pl_shard_id pl = s).
  { intros s cs p Hcs Hp. rewrite (Hl _ _ Hcs) in Hp. apply list_elem_of_fmap in Hp as (a & -> & Ha).
    apply elem_of_shard_items in Ha as (p & pl & Hp & Hps & Ha). rewrite (Hid _ _ Ha).
    exists pl. split; [by apply elem_of_btree_iter|done]. }
  split_ands.
  - intros s cs Hcs. rewrite (Hl _ _ Hcs).
    assert (Hnd : NoDup (ids (shard_items f (btree_iter (td_placements d)) s))).
    { apply shard_items_ids; [exact Hid|apply NoDup_btree_iter_keys]. }
    split; [done|]. apply map_subseteq_spec. intros p q Hp%cursor_map_lookup; [|done].
    apply elem_of_shard_items in Hp as (p' & pl & _ & _ & Ha). unfold f in Ha.
    apply fmap_Some in Ha as (q' & Hq' & [= -> ->]). by rewrite positions_lookup.
  - intros s1 s2 cs1 cs2 p Hs1 Hs2 Hp1 Hp2. destruct (Hel _ _ _ Hs1 Hp1) as (pl1 & Hl1 & <-).
    destruct (Hel _ _ _ Hs2 Hp2) as (pl2 & Hl2 & <-). congruence.
  - intros p Hp. rewrite Hcnt in Hp. apply Hdom in Hp as [pl Hpl]. apply elem_of_btree_iter in Hpl.
    destruct (Hin p pl Hpl) as [a Ha].
    assert (Hit : a ∈ shard_items f (btree_iter (td_placements d)) (pl_shard_id pl)) by (apply elem_of_shard_items; eauto).
    specialize (Hs (pl_shard_id pl)). rewrite lookup_empty in Hs. cbn [default app] in Hs.
    destruct (m !! pl_shard_id pl) as [cs|] eqn:Hcs; cbn in Hs; [|by rewrite <- Hs in Hit; inversion Hit].
    exists (pl_shard_id pl), cs. split; [done|]. rewrite Hs. apply list_elem_of_fmap. exists a. by rewrite (Hid _ _ Ha).
Qed.

(** A follower that starts at a cursor. *)
Lemma follow_start_ok d start c from_now :
  type_id_ok ty -> follow_start ty d start = Ok (c, from_now) -> cursor_ok ty (td_partition_count d) c.
Proof.
  intros Hty Hs. assert (Hz : cursor_ok ty (td_partition_count d) (zero_cursor ty d)).
  { unfold cursor_ok, len. cbn. rewrite length_replicate. split_ands; [done|done|lia]. }
  destruct start as [[| |bytes]|]; cbn in Hs; try by injection Hs as <- <-.
  apply bind_Ok_inv in Hs as (c' & Hc & [= -> _]). unfold decode_cursor in Hc.
  apply bind_Ok_inv in Hc as (c' & _ & Hc). case_match; [done|]. injection Hc as <-. bool_facts.
  by unfold cursor_ok.
Qed.

(** What the merger makes of the messages of the sources of a follower. *)
Lemma merged_stream d c sources connections msgs :
  definition_wf ty d -> cursor_ok ty (td_partition_count d) c ->
  Forall (fun q => (q <= u64_max)%N) (cu_next_positions c) -> follow_sources c d = Some sources ->
  (forall s cs, sources !! s = Some cs -> (s <= u64_max)%N /\ Forall (connection_ok s) (connections s)) ->
  interleave (source_messages (M := M) ty false sources connections) msgs ->
  exists n', follow_stream ty (td_partition_count d) hist (positions c)
    (concat (merger_run (merger_new c (dom sources)) msgs).2) n'.
Proof.
  intros Hd Hc Hu64 Hm Hconn Hint. pose proof Hd as (_ & _ & Hcnt & _).
  destruct (follow_sources_spec c d Hd) as (m & Hm' & Hsub & Hdis & _); [apply Hc|].
  rewrite Hm in Hm'. injection Hm' as <-.
  set (ns := map (fun '(_, cs) => cursor_map cs) (btree_iter sources)).
  assert (Hns : forall i ni, ns !! i = Some ni ->
            exists s cs, btree_iter sources !! i = Some (s, cs) /\ sources !! s = Some cs /\ ni = cursor_map cs).
  { intros i ni. unfold ns. rewrite list_lookup_fmap. intros ([s cs] & Hi & ->)%fmap_Some.
    exists s, cs. split_ands; [done|by apply elem_of_btree_iter; eapply list_elem_of_lookup_2|done]. }
  destruct (interleave_gapless hist _ _ Hint ns (positions c)) as [n' Hg].
  - intros i ni (s & cs & _ & Hcs & ->)%Hns. by apply (Hsub s).
  - intros i j ni nj p (s1 & cs1 & Hi & Hcs1 & ->)%Hns (s2 & cs2 & Hj & Hcs2 & ->)%Hns [q1 Hp1] [q2 Hp2].
    assert (s1 = s2) as <-.
    { eapply (Hdis s1 s2 cs1 cs2 p); [done|done| |].
      - apply cursor_map_lookup in Hp1; [|by apply (Hsub s1)]. by apply (list_elem_of_fmap_2 pc_partition_id) in Hp1.
      - apply cursor_map_lookup in Hp2; [|by apply (Hsub s2)]. by apply (list_elem_of_fmap_2 pc_partition_id) in Hp2. }
    eapply (NoDup_lookup (btree_iter sources).*1); [apply NoDup_btree_iter_keys| |]; by rewrite list_lookup_fmap, ?Hi, ?Hj.
  - unfold ns, source_messages. apply Forall2_fmap_2, Forall2_same_length_lookup. split; [done|].
    intros i [s cs] [s' cs'] Hi Hi'. rewrite Hi in Hi'. injection Hi' as <- <-.
    assert (Hcs : sources !! s = Some cs) by (apply elem_of_btree_iter; by eapply list_elem_of_lookup_2).
    destruct (Hsub s cs Hcs) as [Hnd Hle]. destruct (Hconn s cs Hcs) as [Hs Hk].
    destruct (run_aggregate_source s (mkSource cs false) _) as [ms s'] eqn:Hr. cbn [fst].
    apply (run_source_gapless hist) in Hr as [Hr _]; [by eexists| |].
    + apply Forall_fmap. eapply Forall_impl; [exact Hk|]. intros k Hok. apply open_source_sound; [done|apply Hd|done].
    + unfold source_ok. split_ands; [done| |done]. intros p q Hp. cbn [so_cursors] in Hp.
      pose proof (lookup_weaken _ _ _ _ Hp Hle) as Hq. rewrite positions_lookup in Hq.
      rewrite Forall_lookup in Hu64. by eapply Hu64.
  - exists n'. assert (Hsmall : (td_partition_count d <= 65536)%N) by (by rewrite Hcnt).
    exact (merger_run_stream ty _ Hsmall hist (merger_new c (dom sources)) msgs _ n' Hc eq_refl Hg).
Qed.

(** The responses of a server to a follower that does not start from now: those
    of the merger, over any connections to leaders of the shards and any
    interleaving of the sources, as far as they have come. *)
Definition served (d : AggregateTypeDefinition) (start : option FollowStart) (rs : list FollowResponse) : Prop :=
  exists c sources connections msgs,
    follow_start ty d start = Ok (c, false) /\ Forall (fun q => (q <= u64_max)%N) (cu_next_positions c) /\
    follow_sources c d = Some sources /\
    (forall s cs, sources !! s = Some cs -> (s <= u64_max)%N /\ Forall (connection_ok s) (connections s)) /\
    interleave (source_messages (M := M) ty false sources connections) msgs /\
    rs = concat (merger_run (merger_new c (dom sources)) msgs).2.

Lemma served_stream d start rs :
  definition_wf ty d -> served d start rs ->
  exists c n', follow_start ty d start = Ok (c, false) /\
    follow_stream ty (td_partition_count d) hist (positions c) rs n'.
Proof.
  intros Hd (c & sources & connections & msgs & Hs & Hu & Hm & Hconn & Hint & ->).
  destruct (merged_stream d c sources connections msgs Hd) as [n' Hf]; [|done..|by exists c, n'].
  eapply follow_start_ok; [apply Hd|exact Hs].
Qed.


End Path.

(** ** Announcements *)

Section Announcements.
Context `{TokenCodecs}.

Definition msg_source (msg : SourceMessage) : N :=
  match msg with MsgEvent s _ | MsgCaughtUp s _ | MsgDegraded s => s end.

(** The last report of a source: caught up ([true]) or degraded ([false]). *)
Definition report (s : N) (st : option bool) (msg : SourceMessage) : option bool :=
  match msg with
  | MsgEvent _ _ => st
  | MsgCaughtUp x _ => if (x =? s)%N then Some true else st
  | MsgDegraded x => if (x =? s)%N then Some false else st
  end.

Definition source_status (msgs : list SourceMessage) (s : N) : option bool := foldl (report s) None msgs.

Definition degraded_sources (ids : gset N) (msgs : list SourceMessage) : gset N :=
  filter (fun s => source_status msgs s = Some false) ids.

Definition payloads (rss : list (list FollowResponse)) : list FollowPayload := map fr_payload (concat rss).

Definition is_caught_up (p : FollowPayload) : bool := match p with PayloadCaughtUp => true | _ => false end.

Definition caught_up_count (l : list FollowPayload) : nat := length (List.filter is_caught_up l).

Lemma merger_run_app m msgs1 msgs2 :
  merger_run m (msgs1 ++ msgs2) =
  let r1 := merger_run m msgs1 in let r2 := merger_run r1.1 msgs2 in (r2.1, r1.2 ++ r2.2).
Proof.
  revert m. induction msgs1 as [|msg msgs1 IH]; intros m; cbn [merger_run app fst snd].
  { by destruct (merger_run m msgs2). }
  destruct (merger_apply m msg) as [m1 rs]. rewrite IH. destruct (merger_run m1 msgs1) as [m2 rss]. done.
Qed.

Lemma merger_run_length m msgs : length (merger_run m msgs).2 = length msgs.
Proof.
  revert m. induction msgs as [|msg msgs IH]; intros m; cbn [merger_run]; [done|].
  destruct (merger_apply m msg) as [m1 rs]. specialize (IH m1). destruct (merger_run m1 msgs). cbn in *. lia.
Qed.

Lemma source_status_snoc msgs msg s : source_status (msgs ++ [msg]) s = report s (source_status msgs s) msg.
Proof. apply foldl_snoc. Qed.

(** What the merger knows of the sources. *)
Record merger_knows (ids : gset N) (msgs : list SourceMessage) (sent : list FollowPayload)
    (m : AggregateReadMerger) : Prop := {
  mk_pending : mg_pending m = filter (fun s => source_status msgs s <> Some true) ids;
  mk_unavailable : mg_unavailable m = degraded_sources ids msgs;
  mk_sent : caught_up_count sent = if mg_caught_up_sent m then 1 else 0;
  mk_announced : mg_pending m = ∅ -> ids = ∅ \/ mg_caught_up_sent m = true
}.

(** The conditions under which each announcement is made. *)
Definition announcement_ok (ids : gset N) (before : list SourceMessage) (msg : SourceMessage)
    (sent : list FollowPayload) (p : FollowPayload) : Prop :=
  let after := before ++ [msg] in
  match p with
  | PayloadEvent _ => exists s e, msg = MsgEvent s e
  | PayloadCaughtUp => PayloadCaughtUp ∉ sent /\ forall s, s ∈ ids -> source_status after s = Some true
  | PayloadRecovered =>
      PayloadCaughtUp ∈ sent /\ source_status before (msg_source msg) = Some false /\
      degraded_sources ids after = ∅
  | PayloadDegraded k retrying =>
      retrying = true /\ source_status before (msg_source msg) <> Some false /\
      source_status after (msg_source msg) = Some false /\
      k = as_u32 (N.of_nat (size (degraded_sources ids after)))
  end.

Lemma caught_up_count_app l1 l2 : caught_up_count (l1 ++ l2) = caught_up_count l1 + caught_up_count l2.
Proof. unfold caught_up_count. by rewrite List.filter_app, length_app. Qed.

Lemma caught_up_count_elem sent : PayloadCaughtUp ∈ sent <-> caught_up_count sent <> 0.
Proof.
  induction sent as [|p sent IH]; [by split; [inversion 1|]|].
  change (p :: sent) with ([p] ++ sent). rewrite caught_up_count_app, elem_of_app, IH, list_elem_of_singleton.
  unfold caught_up_count at 2. destruct p; cbn; naive_solver lia.
Qed.

Lemma sources_after ids msgs msg :
  msg_source msg ∈ ids ->
  let pend := fun ms => filter (fun s => source_status ms s <> Some true) ids : gset N in
  match msg with
  | MsgEvent _ _ => pend (msgs ++ [msg]) = pend msgs /\ degraded_sources ids (msgs ++ [msg]) = degraded_sources ids msgs
  | MsgCaughtUp s _ => pend (msgs ++ [msg]) = pend msgs ∖ {[s]} /\
      degraded_sources ids (msgs ++ [msg]) = degraded_sources ids msgs ∖ {[s]}
  | MsgDegraded s => pend (msgs ++ [msg]) = {[s]} ∪ pend msgs /\
      degraded_sources ids (msgs ++ [msg]) = {[s]} ∪ degraded_sources ids msgs
  end.
Proof.
  intros Hin pend. subst pend. unfold degraded_sources.
  destruct msg as [s e|s heads|s]; cbn [msg_source] in Hin; split; apply set_eq; intros x;
    rewrite ?elem_of_difference, ?elem_of_union, !elem_of_filter, ?elem_of_singleton, source_status_snoc; cbn [report];
    try (destruct (s =? x)%N eqn:E; bool_facts); subst; naive_solver.
Qed.

(** One message: what the merger knows afterwards, and what it announces. *)
Definition step_sound (ids : gset N) (msgs : list SourceMessage) (sent : list FollowPayload)
    (msg : SourceMessage) (r : AggregateReadMerger * list FollowResponse) : Prop :=
  merger_knows ids (msgs ++ [msg]) (sent ++ map fr_payload r.2) r.1 /\
  forall p, p ∈ map fr_payload r.2 -> announcement_ok ids msgs msg sent p.

Lemma step_event ids msgs sent m s e :
  merger_knows ids msgs sent m -> s ∈ ids ->
  step_sound ids msgs sent (MsgEvent s e) (merger_apply m (MsgEvent s e)).
Proof.
  intros [Hp Hu Hs Ha] Hin. destruct (sources_after ids msgs (MsgEvent s e) Hin) as [Hp' Hu'].
  assert (Hk : forall c l, caught_up_count l = 0 -> merger_knows ids (msgs ++ [MsgEvent s e]) (sent ++ l)
            (mkMerger c (mg_pending m) (mg_unavailable m) (mg_caught_up_sent m))).
  { intros c l Hl. split; cbn; [congruence|congruence| |done]. rewrite caught_up_count_app. lia. }
  assert (Hn : merger_knows ids (msgs ++ [MsgEvent s e]) (sent ++ []) m) by (destruct m; by apply Hk).
  unfold step_sound. cbn [merger_apply]. repeat case_match; cbn [fst snd map fr_payload]; (split; [by auto|]).
  all: intros pl Hpin; try by inversion Hpin.
  all: apply list_elem_of_singleton in Hpin as ->; cbn; eauto.
Qed.

Lemma step_degraded ids msgs sent m s :
  merger_knows ids msgs sent m -> s ∈ ids ->
  step_sound ids msgs sent (MsgDegraded s) (merger_apply m (MsgDegraded s)).
Proof.
  intros [Hp Hu Hs Ha] Hin. destruct (sources_after ids msgs (MsgDegraded s) Hin) as [Hp' Hu'].
  assert (Hk : forall l, caught_up_count l = 0 -> merger_knows ids (msgs ++ [MsgDegraded s]) (sent ++ l)
            (mkMerger (mg_cursor m) ({[s]} ∪ mg_pending m) ({[s]} ∪ mg_unavailable m) (mg_caught_up_sent m))).
  { intros l Hl. split; cbn; [by rewrite Hp', Hp|by rewrite Hu', Hu| |set_solver]. rewrite caught_up_count_app. lia. }
  unfold step_sound. cbn [merger_apply]. destruct (bool_decide (s ∈ mg_unavailable m)) eqn:E; bool_facts;
    cbn [fst snd map fr_payload]; (split; [by auto|]); intros p Hpin; [by inversion Hpin|].
  apply list_elem_of_singleton in Hpin as ->. cbn [announcement_ok msg_source]. split_ands.
  - done.
  - intros Hst. apply E. rewrite Hu. unfold degraded_sources. by rewrite elem_of_filter.
  - rewrite source_status_snoc. cbn. by rewrite N.eqb_refl.
  - by rewrite Hu', Hu.
Qed.

Lemma step_caught_up ids msgs sent m s heads :
  merger_knows ids msgs sent m -> s ∈ ids ->
  step_sound ids msgs sent (MsgCaughtUp s heads) (merger_apply m (MsgCaughtUp s heads)).
Proof.
  intros [Hp Hu Hs Ha] Hin. destruct (sources_after ids msgs (MsgCaughtUp s heads) Hin) as [Hp' Hu'].
  assert (Hsent : PayloadCaughtUp ∈ sent <-> mg_caught_up_sent m = true).
  { rewrite caught_up_count_elem, Hs. destruct (mg_caught_up_sent m); naive_solver. }
  unfold step_sound. cbn [merger_apply]. set (c := foldl raise_head (mg_cursor m) heads).
  set (rec := bool_decide (s ∈ mg_unavailable m) && bool_decide (mg_unavailable m ∖ {[s]} = ∅) && mg_caught_up_sent m).
  assert (Hrec : forall p, p ∈ map fr_payload (if rec then [mkFollow PayloadRecovered (cursor_bytes c)] else []) ->
            announcement_ok ids msgs (MsgCaughtUp s heads) sent p).
  { unfold rec. destruct (_ && mg_caught_up_sent m) eqn:E; cbn [map fr_payload]; intros p Hpin; [|by inversion Hpin].
    apply list_elem_of_singleton in Hpin as ->. bool_facts. cbn [announcement_ok msg_source].
    split_ands; [by apply Hsent| |by rewrite Hu', <- Hu].
    match goal with Hx : s ∈ _ |- _ => rewrite Hu in Hx; by apply elem_of_filter in Hx as [] end. }
  assert (Hcnt : caught_up_count (map fr_payload (if rec then [mkFollow PayloadRecovered (cursor_bytes c)] else [])) = 0)
    by (by destruct rec).
  destruct (bool_decide (mg_pending m ∖ {[s]} = ∅) && negb (mg_caught_up_sent m)) eqn:E; bool_facts; cbn [fst snd].
  - rewrite map_app. split.
    + split; cbn; [by rewrite Hp', Hp|by rewrite Hu', Hu| |by right].
      rewrite !caught_up_count_app, Hcnt, Hs. by destruct (mg_caught_up_sent m).
    + intros p [Hpin|Hpin]%elem_of_app; [by apply Hrec|].
      apply list_elem_of_singleton in Hpin as ->. cbn [announcement_ok fr_payload]. split; [intros Hc%Hsent; congruence|].
      intros x Hx. destruct (decide (source_status (msgs ++ [MsgCaughtUp s heads]) x = Some true)) as [|Hno]; [done|].
      assert (Hpend : x ∈ mg_pending m ∖ {[s]}) by (rewrite Hp, <- Hp'; by apply elem_of_filter). set_solver.
  - split; [|exact Hrec]. split; cbn; [by rewrite Hp', Hp|by rewrite Hu', Hu| |].
    + rewrite caught_up_count_app. lia.
    + intros Hnone. right. destruct (mg_caught_up_sent m); [done|].
      rewrite bool_decide_eq_true_2 in E by done. done.
Qed.

Lemma merger_knows_new ids c : merger_knows ids [] [] (merger_new c ids).
Proof.
  split; [| |done|by left]; cbn; apply set_eq; intros x; unfold degraded_sources; rewrite ?elem_of_filter; cbn; set_solver.
Qed.

Lemma merger_run_knows ids c msgs :
  Forall (fun msg => msg_source msg ∈ ids) msgs ->
  let r := merger_run (merger_new c ids) msgs in merger_knows ids msgs (payloads r.2) r.1.
Proof.
  induction msgs as [|msg msgs IH] using rev_ind; intros Hall; [apply merger_knows_new|].
  apply Forall_app in Hall as [Hall [Hin _]%Forall_cons]. specialize (IH Hall). cbn zeta in IH |- *.
  rewrite merger_run_app. cbn zeta. cbn [fst snd merger_run].
  destruct (merger_run (merger_new c ids) msgs) as [m rss]. cbn [fst snd] in *.
  assert (Hst : step_sound ids msgs (payloads rss) msg (merger_apply m msg)).
  { destruct msg; [by apply step_event|by apply step_caught_up|by apply step_degraded]. }
  destruct (merger_apply m msg) as [m1 rs], Hst as [Hk _]. cbn [fst snd] in *. unfold payloads in *.
  by rewrite concat_app, map_app, concat_cons, app_nil_r.
Qed.

(** The announcements of a follower's stream are truthful. "Caught up" is
    sent once at the most, when every source has reported that it caught up and
    none has since degraded, and it is sent as soon as that is so; "degraded" is
    sent when a source that was not degraded degrades, with the number of
    degraded sources; "recovered" is sent after "caught up", when the last
    degraded source has caught up again. *)
Theorem follow_announcements (ids : gset N) (c : AggregateCursor) (msgs : list SourceMessage)
  (Hsources : Forall (fun msg => msg_source msg ∈ ids) msgs) :
  let rss := (merger_run (merger_new c ids) msgs).2 in
  caught_up_count (payloads rss) <= 1 /\
  (forall k rs msg p, rss !! k = Some rs -> msgs !! k = Some msg -> p ∈ map fr_payload rs ->
     announcement_ok ids (take k msgs) msg (payloads (take k rss)) p) /\
  (forall s, s ∈ ids -> (forall x, x ∈ ids -> source_status msgs x = Some true) -> PayloadCaughtUp ∈ payloads rss).
Proof.
  intros rss. pose proof (merger_run_knows ids c msgs Hsources) as Hk. cbn zeta in Hk.
  split_ands.
  - subst rss. rewrite (mk_sent _ _ _ _ Hk). case_match; lia.
  - intros k rs msg p Hrs Hmsg Hp. subst rss.
    assert (Hsplit : msgs = take k msgs ++ msg :: drop (S k) msgs) by (symmetry; by apply take_drop_middle).
    rewrite Hsplit in Hrs, Hsources. apply Forall_app in Hsources as [Hbefore [Hin _]%Forall_cons].
    pose proof (merger_run_knows ids c _ Hbefore) as Hkb. cbn zeta in Hkb.
    assert (Hlen : length (merger_run (merger_new c ids) (take k msgs)).2 = k).
    { rewrite merger_run_length, length_take. apply lookup_lt_Some in Hmsg. lia. }
    rewrite Hsplit at 2. rewrite merger_run_app in Hrs |- *. cbn zeta in Hrs |- *. cbn [snd] in Hrs |- *.
    rewrite lookup_app_r in Hrs by lia. rewrite Hlen, Nat.sub_diag in Hrs.
    rewrite take_app_length' by done.
    destruct (merger_run (merger_new c ids) (take k msgs)) as [m rss]. cbn [fst snd] in *. cbn [merger_run] in Hrs.
    assert (Hst : step_sound ids (take k msgs) (payloads rss) msg (merger_apply m msg)).
    { destruct msg; [by apply step_event|by apply step_caught_up|by apply step_degraded]. }
    destruct (merger_apply m msg) as [m1 rs1], (merger_run m1 _) as [m2 rss2], Hst as [_ Hok].
    cbn in Hrs. injection Hrs as <-. by apply Hok.
  - intros s Hs Hall. apply caught_up_count_elem. subst rss. rewrite (mk_sent _ _ _ _ Hk).
    destruct (mk_announced _ _ _ _ Hk) as [Hno| ->]; [|set_solver|done].
    rewrite (mk_pending _ _ _ _ Hk). apply set_eq. intros x. rewrite elem_of_filter. set_solver.
Qed.

End Announcements.

(** ** Following from now *)

Section FromNow.
Context `{TokenCodecLaws} `{!CodecTotal AggregateCursor}.
Context (ty : AggregateTypeId) (d : AggregateTypeDefinition) (Hd : definition_wf ty d).

(** The message moves the position of the partition. *)
Definition mentions (p : N) (msg : SourceMessage) : Prop :=
  match msg with
  | MsgEvent _ e => ie_partition_id e = p
  | MsgCaughtUp _ heads => p ∈ ids heads
  | MsgDegraded _ => False
  end.

Definition stays (p q : N) (c : AggregateCursor) : Prop :=
  cursor_ok ty (td_partition_count d) c /\ positions c !! p = Some q.

Lemma set_next_stays f p q x c : x <> p -> stays p q c -> stays p q (set_next f x c).
Proof.
  intros Hne [Hc Hp]. split; [by apply set_next_ok|]. rewrite set_next_positions. by rewrite lookup_alter_ne.
Qed.

Lemma raise_heads_stay p q heads c : p ∉ ids heads -> stays p q c -> stays p q (foldl raise_head c heads).
Proof.
  revert c. induction heads as [|h heads IH]; intros c Hp Hc; cbn [foldl]; [done|].
  cbn in Hp. apply not_elem_of_cons in Hp as [Hne Hp]. apply IH; [done|]. unfold raise_head.
  case_match; [|done]. by apply set_next_stays.
Qed.

Lemma merger_apply_stays p q m msg :
  ~ mentions p msg -> stays p q (mg_cursor m) ->
  stays p q (mg_cursor (merger_apply m msg).1) /\
  forall r, r ∈ (merger_apply m msg).2 -> exists c, decode_cursor (fr_cursor r) ty (td_partition_count d) = Ok c /\
    positions c !! p = Some q.
Proof.
  intros Hm Hs.
  assert (Hb : forall c, stays p q c -> exists c', decode_cursor (cursor_bytes c) ty (td_partition_count d) = Ok c' /\
            positions c' !! p = Some q).
  { intros c [Hc Hp]. destruct (cursor_bytes_resume ty _ c Hc) as (c' & Hc' & He). exists c'. by rewrite He. }
  destruct msg as [s e|s heads|s]; cbn [mentions merger_apply] in *.
  - pose proof (set_next_stays (fun _ => saturating_add_u64 (ie_partition_position e) 1) p q _ _ Hm Hs) as Hs'.
    repeat case_match; cbn [fst snd mg_cursor]; (split; [done|]); intros r Hr; try by inversion Hr.
    all: apply list_elem_of_singleton in Hr as ->; by apply Hb.
  - pose proof (raise_heads_stay p q heads _ Hm Hs) as Hs'.
    repeat case_match; cbn [fst snd mg_cursor]; (split; [done|]); intros r Hr;
      rewrite ?elem_of_app, ?list_elem_of_singleton, ?elem_of_nil in Hr; destruct_or? Hr; subst; try done; by apply Hb.
  - case_match; cbn [fst snd mg_cursor]; (split; [done|]); intros r Hr; [by inversion Hr|].
    apply list_elem_of_singleton in Hr as ->. by apply Hb.
Qed.

(** C29: a cursor handed out by a follower that started now can lie before now.
    Until the source of a partition has reported its head, every response, also
    one that carries an event, has a cursor with position 0 for the partition,
    so resuming from it replays the partition's whole history. *)
Theorem follow_now_cursor_rewinds (c : AggregateCursor) (msgs : list SourceMessage) (p : N) (r : FollowResponse)
  (Hstart : follow_start ty d (Some FollowNow) = Ok (c, true)) (Hp : (p < td_partition_count d)%N)
  (Hsilent : Forall (fun msg => ~ mentions p msg) msgs) (ids : gset N)
  (Hr : r ∈ concat (merger_run (merger_new c ids) msgs).2) :
  exists c', decode_cursor (fr_cursor r) ty (td_partition_count d) = Ok c' /\ positions c' !! p = Some 0%N.
Proof.
  pose proof Hd as (_ & Hty & _). pose proof (follow_start_ok _ _ _ _ _ Hty Hstart) as Hc.
  assert (Hs : stays p 0 (mg_cursor (merger_new c ids))).
  { split; [done|]. cbn in Hstart |- *. injection Hstart as <-. rewrite positions_lookup. cbn.
    apply lookup_replicate_2. lia. }
  revert Hs Hr. generalize (merger_new c ids) as m. clear Hstart Hc.
  induction Hsilent as [|msg msgs Hm _ IH]; intros m Hs; cbn [merger_run]; [by inversion 1|].
  destruct (merger_apply_stays p 0 m msg Hm Hs) as [Hs' Hr']. destruct (merger_apply m msg) as [m1 rs].
  specialize (IH m1 Hs'). destruct (merger_run m1 msgs) as [m2 rss]. cbn [snd concat] in *.
  intros [Hr|Hr]%elem_of_app; [by apply Hr'|by apply IH].
Qed.

End FromNow.

(** ** Witnesses *)

(** A type whose partitions all lie on shard 1. *)
Definition demo_single : AggregateTypeDefinition :=
  mkDefinition demo_type 7 0 (replicate 16 x07) 256 Xxh3V1 Active
    (list_to_map (map (fun p => (p, initial_placement 1)) (partition_ids 256))).

Lemma demo_single_placements p pl :
  td_placements demo_single !! p = Some pl <-> pl = initial_placement 1 /\ (p < 256)%N.
Proof.
  unfold demo_single. cbn [td_placements]. rewrite <- elem_of_list_to_map.
  - rewrite list_elem_of_fmap. setoid_rewrite elem_of_partition_ids. naive_solver.
  - unfold fmap. change (list_fmap _ _ fst) with (@map (N * PartitionPlacement) N fst). rewrite map_map.
    cbn [fst]. rewrite map_id. apply NoDup_partition_ids.
Qed.

Lemma demo_single_wf : definition_wf demo_type demo_single.
Proof.
  unfold definition_wf. split_ands; [done|apply demo_type_ok|done| |].
  - intros p. split; [intros [pl [_ ?]%demo_single_placements]; done|].
    intros Hp. exists (initial_placement 1). by apply demo_single_placements.
  - intros p pl [-> _]%demo_single_placements. split; cbn; [lia|done].
Qed.

Definition demo_hist : N -> N -> option AggregateEvent := event_at_position demo_document_shard demo_type.

Definition demo_connection : Connection (@tree mem_tree) := Connected (fun _ => demo_tree) [] None.

Lemma demo_connection_ok :
  @connection_ok N demo_codecs mem_tree mem_tree_laws demo_type demo_hist 1 demo_connection.
Proof.
  exists (fun _ => 0%N). split; [|done]. intros p. destruct demo_tree_rep as [ap Hrep].
  exists demo_document_shard, ap. split_ands; [done|apply demo_document_shard_wf|lia|done].
Qed.

Lemma interleave_one {A} (l : list A) : interleave [l] l.
Proof. induction l as [|x l IH]; [constructor|]. by apply (InterleaveTake [x :: l] 0 x l l). Qed.

Definition demo_start : AggregateCursor := zero_cursor demo_type demo_single.

Definition demo_sources : gmap N (list PartitionCursor) := default ∅ (follow_sources demo_start demo_single).

Definition demo_messages : list SourceMessage :=
  concat (@source_messages mem_tree N demo_codecs demo_type false demo_sources
    (fun s => if (s =? 1)%N then [Refused; demo_connection] else [])).

Lemma demo_one_source : size demo_sources = 1 /\ is_Some (demo_sources !! 1%N).
Proof. split; [vm_compute; reflexivity|]. apply (bool_decide_unpack _). vm_compute. exact I. Qed.

Lemma demo_source_only s cs : demo_sources !! s = Some cs -> s = 1%N.
Proof.
  intros Hs. destruct demo_one_source as [Hsize [cs1 H1]].
  eapply (size_singleton_inv (dom demo_sources)); [by rewrite size_dom| |]; apply elem_of_dom; by eexists.
Qed.


Lemma follow_announcements_witness :
  let rss := (@merger_run demo_token_codecs (merger_new demo_start {[1%N; 2%N]})
    [MsgCaughtUp 1 []; MsgDegraded 1; MsgCaughtUp 2 []; MsgCaughtUp 1 []; MsgDegraded 2; MsgCaughtUp 2 []]).2 in
  payloads rss = [PayloadDegraded 1 true; PayloadCaughtUp; PayloadDegraded 1 true; PayloadRecovered] /\
  caught_up_count (payloads rss) <= 1.
Proof.
  split; [vm_compute; reflexivity|].
  apply (@follow_announcements demo_token_codecs {[1%N; 2%N]} demo_start). repeat constructor; set_solver.
Defined.

(** Shard 1 has reported its head and sends an event; shard 2, which holds
    partition 9, has not reported yet. *)
Definition demo_now_messages : list SourceMessage :=
  [MsgCaughtUp 1 [mkPCursor 3 5];
   MsgEvent 1 (mkInternalEvent 3 5 (Some (mkPbEvent "order-1" 6 [] "paid" [] [] None)))].

Definition demo_now_responses : list (list FollowResponse) :=
  (@merger_run demo_token_codecs (merger_new demo_start {[1%N; 2%N]}) demo_now_messages).2.

Lemma follow_now_cursor_rewinds_witness :
  exists r c', demo_now_responses = [[]; [r]] /\ is_event (fr_payload r) = true /\
    @decode_cursor demo_token_codecs (fr_cursor r) demo_type 256 = Ok c' /\ positions c' !! 9%N = Some 0%N.
Proof.
  assert (Hr : exists r, demo_now_responses = [[]; [r]] /\ is_event (fr_payload r) = true)
    by (eexists; split; reflexivity).
  destruct Hr as (r & Hr & He).
  destruct (@follow_now_cursor_rewinds demo_token_codecs demo_token_laws (countable_codec_total AggregateCursor)
    demo_type demo_single demo_single_wf demo_start demo_now_messages 9 r eq_refl) with (ids := {[1%N; 2%N]} : gset N)
    as (c' & Hc & Hp).
  - cbn. lia.
  - repeat constructor; cbn; [|lia]. intros Hin. apply list_elem_of_singleton in Hin. discriminate Hin.
  - fold demo_now_responses. rewrite Hr. by left.
  - exists r, c'. split_ands; [exact Hr|exact He|exact Hc|exact Hp].
Defined.
