(* ===== verification/Cluster.v ===== *)
(** * The cluster a server runs in

    What the handlers of [es-server/src/aggregate_service.rs] act on: the nodes
    with their topology snapshots, the Raft groups they host, and the network
    between them. openraft, tonic and the clock are parameters, gathered in the
    class [Cluster]: every operation takes the world and returns the world after
    it, in which other nodes and clients may have acted as well.

    [ClusterLaws] states what the code relies on, the documented behaviour of
    openraft: a write that succeeds was applied once, in some state the shard
    went through during the call; a node's store holds a state the shard went
    through; nothing happens to a shard but the requests in its log. A read may
    be stale, a failed write may or may not have been applied.

    [Act E A] is the monad of the handlers, and [call] an RPC to another node:
    the request may be lost, then the handler runs on the peer, then the reply
    may be lost. *)

From S2P Require Import Prelude.
From S2P Require Import Bytes.
From S2P Require Import Core.
From S2P Require Import Aggregate.
From S2P Require Import Catalog.
From S2P Require Import GroupCatalog.
From S2P Require Import GroupPartition.
From S2P Require Import Keys.
From S2P Require Import Store.
From S2P Require Import RaftType.
From S2P Require Import LogStore.
From S2P Require Import StateMachine.
From S2P Require Import ShardSpec.
From S2P Require Import Codecs.
From S2P Require Import Apply.
From S2P Require Import Config.
From S2P Require Import Topology.
From S2P Require Import Wire.

(** ** The parameters *)

Class Cluster `{Tree} : Type := {
  world : Type;
  (** [topology.snapshot()] on a node. *)
  snapshot : N -> world -> world * RuntimeTopologySnapshot;
  (** [shard_manager.get_shard(..).is_ok()] and [metrics().state.is_leader()]. *)
  has_shard : N -> N -> world -> world * bool;
  is_leader : N -> N -> world -> world * bool;
  (** The store a node has of a shard, as one read sees it. *)
  storage : N -> N -> world -> world * tree;
  client_write : N -> N -> EsRequest -> world -> world * result RaftWriteError EsResponse;
  (** [GetRaftState] of a peer, asked by a node. *)
  raft_state : N -> N -> N -> world -> world * option RaftState;
  (** Connecting from a node to an address: the node that answers there. *)
  connect : N -> string -> world -> world * option N;
  (** A message between two nodes arrives, or fails with a status. *)
  transport : N -> N -> world -> world * Reply unit;
  (** [Hlc::now()], [unix_millis()], [Instant::now()] in milliseconds and
      [Uuid::new_v4()]. *)
  hlc_now : N -> world -> world * Hlc;
  unix_millis : N -> world -> world * N;
  instant_now : N -> world -> world * N;
  new_uuid : N -> world -> world * Uuid;
  max_event_bytes : N -> N
}.

(** ** The monad *)

(** A handler fails with a status or panics. *)
Inductive Failure : Type :=
| Failed (st : Status)
| Panicked (message : string).

Section Monad.
Context `{Cluster}.

Definition Act (E A : Type) : Type := world -> world * result E A.

#[export] Instance act_ret {E} : MRet (Act E) := fun A a w => (w, Ok a).

#[export] Instance act_bind {E} : MBind (Act E) := fun A B f m w =>
  match m w with
  | (w, Ok a) => f a w
  | (w, Err e) => (w, Err e)
  end.

(** A pure result, and an effect that cannot fail. *)
Definition lift {E A} (r : result E A) : Act E A := fun w => (w, r).

Definition effect {E A} (op : world -> world * A) : Act E A := fun w =>
  match op w with (w, a) => (w, Ok a) end.

Definition map_failure {E F A} (f : E -> F) (m : Act E A) : Act F A := fun w =>
  match m w with (w, r) => (w, map_err f r) end.

(** [?] on a status, inside a handler that may also panic. *)
Definition handler {A} (m : Act Status A) : Act Failure A := map_failure Failed m.

(** Indexing and [expect]. *)
Definition or_panic {A} (message : string) (o : option A) : Act Failure A := lift (ok_or (Panicked message) o).

(** The loop of a [for] with [?] in its body. *)
Fixpoint for_each {E A} (l : list A) (body : A -> Act E unit) : Act E unit :=
  match l with
  | [] => mret tt
  | a :: l' => _ ← body a; for_each l' body
  end.

(** ** Leaders and calls *)

Context `{Platform}.

(** [AggregateStoreService::local_leader] on the node [n]. *)
Definition local_leader (n shard_id : N) : Act Status unit := fun w =>
  match has_shard n shard_id w with
  | (w, false) =>
      match snapshot n w with
      | (w, tp) =>
          match leader_hint_status (raft_state n) (tp_remote tp) shard_id w with (w, st) => (w, Err st) end
      end
  | (w, true) =>
      match is_leader n shard_id w with
      | (w, true) => (w, Ok tt)
      | (w, false) =>
          match snapshot n w with
          | (w, tp) =>
              match leader_hint_status (raft_state n) (tp_remote tp) shard_id w with (w, st) => (w, Err st) end
          end
      end
  end.

(** [if let Ok(shard) = self.local_leader(..)]. *)
Definition if_local_leader {E A} (n shard_id : N) (here there : Act E A) : Act E A := fun w =>
  match local_leader n shard_id w with
  | (w, Ok _) => here w
  | (w, Err _) => there w
  end.

Definition source_unavailable : Status := unavailable "aggregate store source unavailable".

(** [RemoteShards::aggregate_internal_client]: the node that will serve. *)
Definition aggregate_internal_client (n : N) (r : RemoteShards) (shard_id : N) : Act Status N :=
  found ← effect (find_leader (raft_state n) r shard_id);
  leader ← lift (ok_or source_unavailable found);
  addr ← lift (ok_or source_unavailable (rs_internal_addrs r !! leader.1));
  _ ← lift (map_err (fun _ => source_unavailable) (endpoint_from_shared addr));
  _ ← lift (map_err (fun _ => source_unavailable) (apply_endpoint_tls addr (rs_tls r)));
  peer ← effect (connect n addr);
  lift (ok_or source_unavailable peer).

(** An RPC from [n] to [peer]. *)
Definition call {A} (n peer : N) (serve : Act Status A) : Act Status A :=
  _ ← transport n peer;
  a ← serve;
  _ ← transport peer n;
  mret a.

(** [shard.raft.client_write(..)] with the status of an error. *)
Definition write (n shard_id : N) (req : EsRequest) : Act Status EsResponse := fun w =>
  match client_write n shard_id req w with (w, r) => (w, map_err client_write_to_status r) end.

(** A read of the node's store, with the status of an error. *)
Definition read {A} (n shard_id : N) (status : Error -> Status) (f : tree -> Result A) : Act Status A := fun w =>
  match storage n shard_id w with (w, t) => (w, map_err status (f t)) end.

End Monad.

(** ** The laws *)

Section Laws.
Context `{Xxh3}.

(** The widths of a group's settings and start positions, and a start for every
    partition. *)
Definition group_fits (g : AggregateGroupDefinition) : Prop :=
  settings_wf (gd_settings g) /\ map_Forall (fun _ q => (q <= u64_max)%N) (gd_partition_starts g).

Definition group_ok (g : AggregateGroupDefinition) : Prop :=
  group_fits g /\ forall p, (p < EVENT_PARTITION_COUNT)%N -> is_Some (gd_partition_starts g !! p).

(** The requests the servers write: fields at their widths, groups for the fixed
    number of partitions, and of the type catalog's commands the creation and the
    activation of a type. No program of the repository sends [PrepareMove] or
    [CompleteMove]: there is no RPC for them, and [register_aggregate_type] is the
    only writer of the catalog. *)
Definition service_request (req : EsRequest) : Prop :=
  request_wf req /\
  match req with
  | CommitAggregateCatalog (CmdPrepareMove _ _ _ _ _) | CommitAggregateCatalog (CmdCompleteMove _ _ _) => False
  | CommitAggregateGroupCatalog (GroupCreate g count) | CommitAggregateGroupCatalog (GroupReplace g _ count _) =>
      group_fits g /\ count = EVENT_PARTITION_COUNT
  | _ => True
  end.

(** One request of a shard's log, and the states that follow a state. *)
Definition tick (s s' : shard) : Prop := exists req, service_request req /\ s' = (shard_step s req).1.

Definition groups_of (s : shard) : gmap GroupKey AggregateGroupDefinition :=
  gc_groups (default group_catalog_default (s_group_catalog s)).

(** What a caller gave for an event that is stored. *)
Definition new_event_of (e : AggregateEvent) : NewAggregateEvent :=
  mkNewEvent (ev_event_id e) (ev_event_type e) (ev_data e) (ev_metadata e).

(** The versions at which an append that expects [expected] can be recorded. *)
Definition version_expected (expected : ExpectedAggregateVersion) (v : N) : Prop :=
  match expected with
  | AnyVersion => True
  | NoAggregate => v = 0%N
  | AggregateExists => (0 < v)%N
  | ExactVersion current => v = (current + 1)%N
  end.

(** The record of an event identifier is about the event stored with it: its
    fingerprint is that of the event's own content, under an expected version
    that the event's version met. *)
Definition idempotency_record_ok (s : shard) (ty : AggregateTypeId) (p : N) (u : Uuid) (r : AggregateIdempotencyRecord) : Prop :=
  exists id expected e, s_events s !! (ty, p, id, ar_aggregate_version (id_result r)) = Some e /\
    ev_aggregate_id e = id /\ ev_event_id e = u /\ ev_partition_position e = ar_partition_position (id_result r) /\
    id_fingerprint r = aggregate_append_fingerprint ty id expected (new_event_of e) /\
    version_expected expected (ar_aggregate_version (id_result r)).

Definition fingerprints_ok (s : shard) : Prop :=
  forall ty p u r, s_idem s !! (ty, p, u) = Some r -> idempotency_record_ok s ty p u r.

Definition shard_ok (s : shard) : Prop :=
  shard_wf s /\ map_Forall (fun _ => group_ok) (groups_of s) /\ fingerprints_ok s.

Definition later : relation shard := rtc tick.

Class ClusterLaws {M : Type} `{SmCodecs M} `{Platform} `{TreeLaws} `{!Cluster} : Type := {
  world_ok : world -> Prop;
  (** The state of each shard, as its log determines it. *)
  shard_of : world -> N -> shard;
  shard_of_ok w s : world_ok w -> shard_ok (shard_of w s);
  (** What a call leaves behind: every shard moved on. *)
  moves (w w' : world) : Prop := world_ok w' /\ forall s, later (shard_of w s) (shard_of w' s);
  snapshot_moves n w w' tp : world_ok w -> snapshot n w = (w', tp) -> moves w w';
  has_shard_moves n s w w' b : world_ok w -> has_shard n s w = (w', b) -> moves w w';
  is_leader_moves n s w w' b : world_ok w -> is_leader n s w = (w', b) -> moves w w';
  storage_moves n s w w' t : world_ok w -> storage n s w = (w', t) -> moves w w';
  write_moves n s req w w' r :
    world_ok w -> service_request req -> client_write n s req w = (w', r) -> moves w w';
  raft_state_moves n peer s w w' r : world_ok w -> raft_state n peer s w = (w', r) -> moves w w';
  connect_moves n addr w w' r : world_ok w -> connect n addr w = (w', r) -> moves w w';
  transport_moves n peer w w' r : world_ok w -> transport n peer w = (w', r) -> moves w w';
  hlc_now_moves n w w' h : world_ok w -> hlc_now n w = (w', h) -> moves w w';
  unix_millis_moves n w w' t : world_ok w -> unix_millis n w = (w', t) -> moves w w';
  instant_now_moves n w w' t : world_ok w -> instant_now n w = (w', t) -> moves w w';
  new_uuid_moves n w w' u : world_ok w -> new_uuid n w = (w', u) -> moves w w';
  (** The topology of a node comes from a configuration, and its control shard
      stays ([reload] refuses to change it). *)
  control : N -> N;
  snapshot_topology n w w' tp : world_ok w -> snapshot n w = (w', tp) ->
    (exists c, from_config c = Ok tp) /\ tp_control_shard_id tp = control n;
  (** The number of a shard is a [u64]. *)
  has_shard_u64 n s w w' : has_shard n s w = (w', true) -> (s <= u64_max)%N;
  (** The store of a node holds a state the shard went through. *)
  storage_past n s w w' t : world_ok w -> storage n s w = (w', t) ->
    exists sh ap, ShardRep (M := M) s (tree_view t) sh ap /\ shard_ok sh /\ later sh (shard_of w' s);
  (** A write that succeeds was applied once during the call. *)
  write_applied n s req w w' r : world_ok w -> service_request req ->
    client_write n s req w = (w', Ok r) ->
    exists s1 s2, later (shard_of w s) s1 /\ shard_step s1 req = (s2, r) /\ later s2 (shard_of w' s);
  (** Machine integers. *)
  new_uuid_u128 n w w' u : new_uuid n w = (w', u) -> (u <= u128_max)%N;
  unix_millis_u64 n w w' t : unix_millis n w = (w', t) -> (t <= u64_max)%N
}.

End Laws.

(** ** What a handler leaves behind *)

Section Lemmas.
Context {M : Type} `{ClusterLaws M}.

Lemma group_validate_covers g p :
  group_validate g EVENT_PARTITION_COUNT = Ok tt -> (p < EVENT_PARTITION_COUNT)%N ->
  is_Some (gd_partition_starts g !! p).
Proof.
  unfold group_validate. intros ([] & _ & Hv)%bind_Ok_inv Hp. apply bind_Ok_inv in Hv as ([] & _ & Hv).
  apply bind_Ok_inv in Hv as ([] & _ & Hv). case_match eqn:E; [discriminate|].
  apply orb_false_iff in E as [_ E]. rewrite existsb_False in E.
  specialize (E p (proj2 (elem_of_partition_ids _ _) Hp)). bool_facts.
  by destruct (gd_partition_starts g !! p).
Qed.

(** Groups stay within the widths and keep a start for every partition. *)
Lemma step_groups_ok s req :
  service_request req -> map_Forall (fun _ => group_ok) (groups_of s) ->
  map_Forall (fun _ => group_ok) (groups_of (shard_step s req).1).
Proof.
  intros [_ Hreq] Hg.
  destruct req as [ty p g id ex ev hlc|ty p g id ex data hlc|ty p g|cmd|cmd|ty p g name ep st se cmd]; cbn [shard_step].
  - destruct (step_append s ty p g id ex ev hlc) as [s' r] eqn:Hs.
    apply step_append_new in Hs as [->|(v & _ & _ & _ & _ & _ & _ & _ & -> & _)]; done.
  - unfold step_put_state. repeat case_match; done.
  - unfold step_fence. repeat case_match; done.
  - unfold step_catalog. repeat case_match; done.
  - unfold step_group_catalog. fold (groups_of s) in Hg.
    assert (Hnew : map_Forall (fun _ => group_ok)
              (gc_groups (group_catalog_apply (default group_catalog_default (s_group_catalog s)) cmd).1)).
    { unfold groups_of in Hg. revert Hg. generalize (default group_catalog_default (s_group_catalog s)).
      intros c Hc. unfold group_catalog_apply. destruct cmd as [g count|g ex count reset|t name ex op].
      - destruct Hreq as [Hf ->]. unfold group_create.
        destruct (group_validate g _) as [[]|] eqn:Hv; [|done]. destruct (gc_groups c !! group_key g); [by case_if|].
        cbn. apply map_Forall_insert_2; [|done]. split; [exact Hf|]. intros p. by apply group_validate_covers.
      - destruct Hreq as [Hf ->]. unfold group_replace.
        destruct (group_validate g _) as [[]|] eqn:Hv; [|done]. destruct (gc_groups c !! group_key g); [|done].
        case_if; [done|]. case_if; [done|]. cbn. apply map_Forall_insert_2; [|done].
        split; [exact Hf|]. intros p. by apply group_validate_covers.
      - pose proof (map_Forall_delete _ _ (t, name) Hc) as Hd. unfold group_delete. repeat case_match; simplify_eq; done. }
    destruct (group_catalog_apply _ cmd) as [c r]. by destruct (negb _).
  - unfold step_group_partition. repeat case_match; done.
Qed.

(** Only an append touches the events and the records. *)
Lemma step_idem s req s' r : shard_step s req = (s', r) ->
  s_idem s' = s_idem s /\ s_events s' = s_events s \/
  exists ty p g id ex ev hlc, req = AggregateAppend ty p g id ex ev hlc.
Proof.
  destruct req as [ty p g id ex ev hlc|ty p g id ex data hlc|ty p g|cmd|cmd|ty p g name ep st se cmd]; cbn [shard_step].
  - right. by repeat eexists.
  - unfold step_put_state. intros Hs. left. revert Hs. repeat case_match; intros [= <- _]; done.
  - unfold step_fence. intros Hs. left. revert Hs. repeat case_match; intros [= <- _]; done.
  - unfold step_catalog. intros Hs. left. revert Hs. repeat case_match; intros [= <- _]; done.
  - unfold step_group_catalog. intros Hs. left. revert Hs. repeat case_match; intros [= <- _]; done.
  - unfold step_group_partition. intros Hs. left. revert Hs. repeat case_match; intros [= <- _]; done.
Qed.

Lemma check_expected_next s ty p id expected v :
  check_expected_aggregate_version expected (s_versions s !! (ty, p, id)) = true ->
  next_version s ty p id v -> version_expected expected v.
Proof.
  unfold next_version. intros Hc [Hv _].
  destruct expected as [| | |e]; cbn in *; bool_facts; [done| | |].
  - by rewrite Hc in Hv.
  - destruct Hc as [cur Hc]. rewrite Hc in Hv. lia.
  - by rewrite Hc in Hv.
Qed.

Lemma step_fingerprints_ok s req s' r :
  shard_step s req = (s', r) -> shard_grows s s' -> fingerprints_ok s -> fingerprints_ok s'.
Proof.
  intros Hs Hg Hf. destruct (step_idem _ _ _ _ Hs) as [[Hi He]|(ty & p & g & id & ex & ev & hlc & ->)].
  { intros ty p u i Hu. unfold idempotency_record_ok. rewrite He. apply Hf. by rewrite <- Hi. }
  cbn [shard_step] in Hs.
  apply step_append_new in Hs as [->|(v & Hty & Hid & _ & _ & Hc & Hv & _ & -> & _)]; [done|].
  intros ty' p' u i Hu. cbn [record_event s_idem] in Hu. apply lookup_insert_Some in Hu as [[[= <- <- <-] <-]|[Hne Hu]].
  - exists id, ex. eexists. split; [cbn; apply lookup_insert_eq|]. split_ands; [done|done|done| |].
    + by destruct ev.
    + by eapply check_expected_next.
  - destruct (Hf _ _ _ _ Hu) as (id' & ex' & e & He & Hrest). exists id', ex', e.
    split; [|exact Hrest]. by eapply lookup_weaken; [exact He|apply Hg].
Qed.

Lemma step_ok s req s' r : service_request req -> shard_step s req = (s', r) -> shard_ok s -> shard_ok s'.
Proof.
  intros Hreq Hs (Hwf & Hg & Hf).
  assert (Hch : shard_change s s') by (eapply shard_step_change; [apply Hreq|exact Hs]).
  split; [|split].
  - by eapply shard_change_wf.
  - replace s' with (shard_step s req).1 by (by rewrite Hs). by apply step_groups_ok.
  - eapply step_fingerprints_ok; [exact Hs| |exact Hf]. by apply shard_change_grows.
Qed.

Lemma later_ok s s' : later s s' -> shard_ok s -> shard_ok s'.
Proof.
  induction 1 as [s|s s1 s2 (req & Hreq & ->) _ IH]; [done|]. intros Hok. apply IH.
  eapply step_ok; [exact Hreq|apply surjective_pairing|done].
Qed.

Lemma later_grows s s' : later s s' -> shard_ok s -> shard_grows s s'.
Proof.
  induction 1 as [s|s s1 s2 (req & Hreq & ->) _ IH]; [done|]. intros Hok.
  assert (Hch : shard_change s (shard_step s req).1)
    by (eapply shard_step_change; [apply Hreq|apply surjective_pairing]).
  etrans; [by eapply shard_change_grows; [apply Hok|]|]. apply IH.
  eapply step_ok; [exact Hreq|apply surjective_pairing|done].
Qed.

Lemma tick_step s req s' r : service_request req -> shard_step s req = (s', r) -> later s s'.
Proof. intros Hreq Hs. apply rtc_once. exists req. split; [done|]. by rewrite Hs. Qed.

Lemma moves_refl w : world_ok w -> moves w w.
Proof. intros Hw. split; [done|]. intros s. reflexivity. Qed.

Lemma moves_trans w1 w2 w3 : moves w1 w2 -> moves w2 w3 -> moves w1 w3.
Proof. intros [_ E1] [Hw E2]. split; [done|]. intros s. etrans; [apply E1|apply E2]. Qed.

(** A handler that only lets the shards move on. *)
Definition moving {E A} (m : Act E A) : Prop := forall w w' r, world_ok w -> m w = (w', r) -> moves w w'.

Lemma moving_ret {E A} (a : A) : moving (mret a : Act E A).
Proof. intros w w' r Hw [= <- _]. by apply moves_refl. Qed.

Lemma moving_lift {E A} (r : result E A) : moving (lift r).
Proof. intros w w' r' Hw [= <- _]. by apply moves_refl. Qed.

Lemma moving_bind {E A B} (m : Act E A) (f : A -> Act E B) :
  moving m -> (forall a, moving (f a)) -> moving (m ≫= f).
Proof.
  intros Hm Hf w w' r Hw. unfold mbind, act_bind. destruct (m w) as [w1 [a|e]] eqn:Hmw.
  - intros Hr. pose proof (Hm _ _ _ Hw Hmw) as Hmv. eapply moves_trans; [exact Hmv|].
    eapply Hf; [apply Hmv|exact Hr].
  - intros [= <- _]. by eapply Hm.
Qed.

Lemma moving_effect {E A} (op : world -> world * A) :
  (forall w w' a, world_ok w -> op w = (w', a) -> moves w w') -> moving (effect op : Act E A).
Proof.
  intros Hop w w' r Hw. unfold effect. destruct (op w) as [w1 a] eqn:Ho. intros [= <- _]. by eapply Hop.
Qed.

Lemma moving_map_failure {E F A} (f : E -> F) (m : Act E A) : moving m -> moving (map_failure f m).
Proof.
  intros Hm w w' r Hw. unfold map_failure. destruct (m w) as [w1 r1] eqn:Hmw. intros [= <- _]. by eapply Hm.
Qed.

Lemma moving_for_each {E A} (l : list A) (body : A -> Act E unit) :
  (forall a, a ∈ l -> moving (body a)) -> moving (for_each l body).
Proof.
  induction l as [|a l IH]; intros Hb; cbn [for_each]; [apply moving_ret|].
  apply moving_bind; [apply Hb; by left|]. intros _. apply IH. intros x Hx. apply Hb. by right.
Qed.

Lemma find_leader_moves n r s w w' o :
  world_ok w -> find_leader (raft_state n) r s w = (w', o) -> moves w w'.
Proof.
  unfold find_leader. generalize (btree_iter (rs_clients r)).*1. intros nodes. revert w.
  induction nodes as [|x nodes IH]; intros w Hw; cbn [find_leader_loop].
  { intros [= <- _]. by apply moves_refl. }
  destruct (x =? rs_self_id r)%N; [by apply IH|].
  destruct (raft_state n x s w) as [w1 [st|]] eqn:Hr; pose proof (raft_state_moves _ _ _ _ _ _ Hw Hr) as Hm.
  - destruct (rf_is_leader st); [by intros [= <- _]|]. intros Hl. eapply moves_trans; [exact Hm|].
    apply IH; [apply Hm|exact Hl].
  - intros Hl. eapply moves_trans; [exact Hm|]. apply IH; [apply Hm|exact Hl].
Qed.

Lemma moving_local_leader n s : moving (local_leader n s).
Proof.
  intros w w' r Hw. unfold local_leader.
  assert (Hhint : forall w1, moves w w1 ->
    (let '(w2, tp) := snapshot n w1 in
     let '(w3, st) := leader_hint_status (raft_state n) (tp_remote tp) s w2 in (w3, Err st)) = (w', r) -> moves w w').
  { intros w1 Hm. destruct (snapshot n w1) as [w2 tp] eqn:Hs.
    assert (Hm2 : moves w w2).
    { eapply moves_trans; [exact Hm|]. eapply snapshot_moves; [apply Hm|exact Hs]. }
    unfold leader_hint_status. destruct (find_leader (raft_state n) (tp_remote tp) s w2) as [w3 o] eqn:Hf.
    assert (Hm3 : moves w w3).
    { eapply moves_trans; [exact Hm2|]. eapply find_leader_moves; [apply Hm2|exact Hf]. }
    by destruct o as [[id addr]|]; intros [= <- _]. }
  destruct (has_shard n s w) as [w1 []] eqn:Hh; pose proof (has_shard_moves _ _ _ _ _ Hw Hh) as Hm; [|by apply Hhint].
  destruct (is_leader n s w1) as [w2 []] eqn:Hl.
  - intros [= <- _]. eapply moves_trans; [exact Hm|]. eapply is_leader_moves; [apply Hm|exact Hl].
  - apply Hhint. eapply moves_trans; [exact Hm|]. eapply is_leader_moves; [apply Hm|exact Hl].
Qed.

Lemma local_leader_u64 n s w w' : local_leader n s w = (w', Ok tt) -> (s <= u64_max)%N.
Proof.
  unfold local_leader. destruct (has_shard n s w) as [w1 []] eqn:Hh; intros Hl.
  - by eapply has_shard_u64.
  - destruct (snapshot n w1) as [w2 tp]. by destruct (leader_hint_status _ _ _ w2).
Qed.

Lemma moving_if_local_leader {E A} n s (here there : Act E A) :
  moving here -> moving there -> moving (if_local_leader n s here there).
Proof.
  intros Hh Ht w w' r Hw. unfold if_local_leader. destruct (local_leader n s w) as [w1 []] eqn:Hl;
    pose proof (moving_local_leader n s _ _ _ Hw Hl) as Hm; intros Hr; (eapply moves_trans; [exact Hm|]).
  - eapply Hh; [apply Hm|exact Hr].
  - eapply Ht; [apply Hm|exact Hr].
Qed.

Lemma moving_transport n peer : moving (transport n peer : Act Status unit).
Proof. intros w w' r Hw Hr. by eapply transport_moves. Qed.

Lemma moving_call {A} n peer (serve : Act Status A) : moving serve -> moving (call n peer serve).
Proof.
  intros Hs. unfold call. apply moving_bind; [apply moving_transport|]. intros _.
  apply moving_bind; [done|]. intros a. apply moving_bind; [apply moving_transport|]. intros _. apply moving_ret.
Qed.

Lemma moving_write n s req : service_request req -> moving (write n s req).
Proof.
  intros Hreq w w' r Hw. unfold write. destruct (client_write n s req w) as [w1 r1] eqn:Hc.
  intros [= <- _]. by eapply write_moves.
Qed.

Lemma moving_read {A} n s status (f : tree -> Result A) : moving (read n s status f).
Proof.
  intros w w' r Hw. unfold read. destruct (storage n s w) as [w1 t] eqn:Hc.
  intros [= <- _]. by eapply storage_moves.
Qed.

Lemma moving_client n r s : moving (aggregate_internal_client n r s).
Proof.
  unfold aggregate_internal_client. apply moving_bind.
  { apply moving_effect. intros w w' a Hw Ha. by eapply find_leader_moves. }
  intros found. apply moving_bind; [apply moving_lift|]. intros leader. apply moving_bind; [apply moving_lift|].
  intros addr. do 2 (apply moving_bind; [apply moving_lift|]; intros _).
  apply moving_bind; [|intros; apply moving_lift]. apply moving_effect.
  intros w w' a Hw Ha. by eapply connect_moves.
Qed.

Lemma moving_snapshot {E} n : moving (effect (snapshot n) : Act E _).
Proof. apply moving_effect. intros w w' a Hw Ha. by eapply snapshot_moves. Qed.

Lemma moving_hlc_now {E} n : moving (effect (hlc_now n) : Act E _).
Proof. apply moving_effect. intros w w' a Hw Ha. by eapply hlc_now_moves. Qed.

Lemma moving_unix_millis {E} n : moving (effect (unix_millis n) : Act E _).
Proof. apply moving_effect. intros w w' a Hw Ha. by eapply unix_millis_moves. Qed.

Lemma moving_instant_now {E} n : moving (effect (instant_now n) : Act E _).
Proof. apply moving_effect. intros w w' a Hw Ha. by eapply instant_now_moves. Qed.

Lemma moving_new_uuid {E} n : moving (effect (new_uuid n) : Act E _).
Proof. apply moving_effect. intros w w' a Hw Ha. by eapply new_uuid_moves. Qed.

(** ** Handlers that do not panic

    [runs w m Q]: started in [w], the handler lets the shards move on and ends
    with a result for which [Q] holds, or with a status; it does not panic. *)
Definition runs {A} (w : world) (m : Act Failure A) (Q : world -> A -> Prop) : Prop :=
  forall w' r, m w = (w', r) ->
    moves w w' /\ match r with Ok a => Q w' a | Err (Failed _) => True | Err (Panicked _) => False end.

Lemma runs_ret {A} w (a : A) (Q : world -> A -> Prop) : world_ok w -> Q w a -> runs w (mret a) Q.
Proof. intros Hw HQ w' r [= <- <-]. split; [by apply moves_refl|done]. Qed.

Lemma runs_bind {A B} w (m : Act Failure A) (f : A -> Act Failure B) (P : world -> A -> Prop) (Q : world -> B -> Prop) :
  runs w m P -> (forall w1 a, moves w w1 -> P w1 a -> runs w1 (f a) Q) -> runs w (m ≫= f) Q.
Proof.
  intros Hm Hf w' r. unfold mbind, act_bind. destruct (m w) as [w1 [a|e]] eqn:Hmw.
  - destruct (Hm _ _ Hmw) as [Hmv HP]. intros Hr. destruct (Hf _ _ Hmv HP _ _ Hr) as [Hmv2 HQ].
    split; [by eapply moves_trans|done].
  - destruct (Hm _ _ Hmw) as [Hmv HP]. intros [= <- <-]. split; [done|]. by destruct e.
Qed.

Lemma runs_mono {A} w (m : Act Failure A) (P Q : world -> A -> Prop) :
  runs w m P -> (forall w1 a, moves w w1 -> P w1 a -> Q w1 a) -> runs w m Q.
Proof.
  intros Hm Himp w' r Hr. destruct (Hm _ _ Hr) as [Hmv HP]. split; [done|]. destruct r as [a|[]]; auto.
Qed.

Lemma runs_ok {A} w (m : Act Failure A) (Q : world -> A -> Prop) : runs w m Q -> world_ok (m w).1.
Proof. intros Hm. by eapply Hm, surjective_pairing. Qed.

Lemma handler_ok {A} w (m : Act Status A) (Q : world -> A -> Prop) : runs w (handler m) Q -> world_ok (m w).1.
Proof.
  intros Hm. destruct (m w) as [w1 r] eqn:Hw. assert (Hh : handler m w = (w1, map_err Failed r))
    by (unfold handler, map_failure; by rewrite Hw). by eapply Hm in Hh as [[? _] _].
Qed.

Lemma moving_ok {E A} w (m : Act E A) : moving m -> world_ok w -> world_ok (m w).1.
Proof. intros Hm Hw. by eapply Hm, surjective_pairing. Qed.

(** A handler that answers with a status cannot panic. *)
Lemma runs_handler {A} w (m : Act Status A) (Q : world -> A -> Prop) :
  world_ok w -> moving m -> (forall w1 a, m w = (w1, Ok a) -> Q w1 a) -> runs w (handler m) Q.
Proof.
  intros Hw Hmv HQ w' r. unfold handler, map_failure. destruct (m w) as [w1 [a|e]] eqn:Hm; intros [= <- <-];
    (split; [by eapply Hmv|]); [by apply HQ|done].
Qed.

Lemma runs_handler_bind {A B} w (m : Act Status A) (f : A -> Act Status B) (P : world -> A -> Prop)
    (Q : world -> B -> Prop) :
  runs w (handler m) P -> (forall w1 a, moves w w1 -> P w1 a -> runs w1 (handler (f a)) Q) ->
  runs w (handler (m ≫= f)) Q.
Proof.
  intros Hm Hf w' r. unfold handler, map_failure, mbind, act_bind. destruct (m w) as [w1 [a|e]] eqn:Hmw.
  - assert (Hh : handler m w = (w1, Ok a)) by (unfold handler, map_failure; by rewrite Hmw).
    destruct (Hm _ _ Hh) as [Hmv HP]. intros Hr. destruct (Hf _ _ Hmv HP _ _ Hr) as [Hmv2 HQ].
    split; [by eapply moves_trans|done].
  - assert (Hh : handler m w = (w1, Err (Failed e))) by (unfold handler, map_failure; by rewrite Hmw).
    destruct (Hm _ _ Hh) as [Hmv _]. intros [= <- <-]. done.
Qed.

(** A pure step. *)
Lemma runs_lift {A} w (r : result Status A) (Q : world -> A -> Prop) :
  world_ok w -> (forall a, r = Ok a -> Q w a) -> runs w (handler (lift r)) Q.
Proof.
  intros Hw HQ w' o [= <- <-]. split; [by apply moves_refl|]. destruct r; [by apply HQ|done].
Qed.

Lemma runs_effect {A} w (op : world -> world * A) (Q : world -> A -> Prop) :
  world_ok w -> (forall w1 a, world_ok w -> op w = (w1, a) -> moves w w1) ->
  (forall w1 a, op w = (w1, a) -> Q w1 a) -> runs w (effect op) Q.
Proof.
  intros Hw Hmv HQ w' r. unfold effect. destruct (op w) as [w1 a] eqn:Ho. intros [= <- <-].
  split; [by eapply Hmv|by apply HQ].
Qed.

Lemma runs_or_panic {A} w msg (o : option A) a (Q : world -> A -> Prop) :
  world_ok w -> o = Some a -> Q w a -> runs w (or_panic msg o) Q.
Proof. intros Hw -> HQ w' r [= <- <-]. split; [by apply moves_refl|done]. Qed.

End Lemmas.

(** A handler lets the shards move on because its parts do. *)
Create HintDb cluster.
#[export] Hint Resolve moving_ret moving_lift moving_transport moving_read moving_client moving_local_leader
  moving_snapshot moving_hlc_now moving_unix_millis moving_instant_now moving_new_uuid : cluster.

Ltac moving_step :=
  match goal with
  | |- forall _, _ => intros ?
  | |- moving (_ ≫= _) => apply moving_bind
  | |- moving (if_local_leader _ _ _ _) => apply moving_if_local_leader
  | |- moving (call _ _ _) => apply moving_call
  | |- moving (handler _) => apply moving_map_failure
  | |- moving (map_failure _ _) => apply moving_map_failure
  | |- moving (for_each _ _) => apply moving_for_each
  | |- moving (or_panic _ _) => apply moving_lift
  | |- moving (write _ _ _) => apply moving_write
  | |- moving (let '_ := ?x in _) => destruct x
  | |- moving (match ?x with _ => _ end) => destruct x
  end.

Ltac moving := repeat moving_step; auto with cluster.
