(* ===== verification/SingleNode.v ===== *)
(** * A cluster of one node in memory

    A concrete cluster, at which the laws of [Cluster.v] hold: one node, whose
    topology comes from a configuration with the shards 0 and 1, and which leads
    both. A shard is its store, its applied log index and the state the store
    represents; a write is applied at once by the model of the state machine.
    The witnesses of the service's theorems run their handlers on it. *)

From S2P Require Import Prelude.
From S2P Require Import Bytes.
From S2P Require Import Core.
From S2P Require Import Aggregate.
From S2P Require Import Catalog.
From S2P Require Import GroupCatalog.
From S2P Require Import GroupPartition.
From S2P Require Import Keys.
From S2P Require Import Store.
From S2P Require Import RaftType.
From S2P Require Import LogStore.
From S2P Require Import StateMachine.
From S2P Require Import ShardSpec.
From S2P Require Import Codecs.
From S2P Require Import Apply.
From S2P Require Import Config.
From S2P Require Import Topology.
From S2P Require Import Bootstrap.
From S2P Require Import Wire.
From S2P Require Import Cluster.

(** ** The world *)

Record NodeShard : Type := mkNodeShard {
  ns_tree : gmap Bytes Bytes;
  ns_cache : @SmCache N;
  ns_index : N;
  ns_shard : shard
}.

Record NodeWorld : Type := mkWorld {
  nw_shards : gmap N NodeShard;
  nw_clock : N
}.

Definition shard_fresh : NodeShard := mkNodeShard ∅ demo_cache 0 shard_empty.

Definition node_shard (w : NodeWorld) (s : N) : NodeShard := default shard_fresh (nw_shards w !! s).

Definition world_empty : NodeWorld := mkWorld ∅ 1.

(** The topology of the configuration [demo_config2]: shards 0 and 1. *)
Definition node_topology : RuntimeTopologySnapshot :=
  match @from_config demo_platform demo_config2 with Ok tp => tp | Err _ => demo_topology end.

(** The time moves on with every reading of it. *)
Definition tick_clock {A} (f : N -> A) (w : NodeWorld) : NodeWorld * A :=
  (mkWorld (nw_shards w) (nw_clock w + 1), f (N.min (nw_clock w) u64_max)).

Definition node_write (s : N) (req : EsRequest) (w : NodeWorld) : NodeWorld * result RaftWriteError EsResponse :=
  let x := node_shard w s in
  if (s <=? u64_max)%N && (group_revision (ns_shard x) <? u64_max)%N
  then match @sm_apply N mem_tree demo_xxh3 demo_codecs s (ns_tree x) (ns_cache x)
               [mkEntry (mkLogId 1 1 (ns_index x + 1)) (Normal req)] with
       | Ok out =>
           match ap_responses out with
           | [r] => (mkWorld (<[s := mkNodeShard (ap_tree out) (ap_cache out) (ns_index x + 1)
                                       (@shard_step demo_xxh3 (ns_shard x) req).1]> (nw_shards w)) (nw_clock w), Ok r)
           | _ => (w, Err (FatalError "no response"))
           end
       | Err _ => (w, Err (FatalError "storage error"))
       end
  else (w, Err (FatalError "out of range")).

#[export] Instance single_node : @Cluster mem_tree := {|
  world := NodeWorld;
  snapshot _ w := (w, node_topology);
  has_shard _ s w := (w, existsb (N.eqb s) (tp_all_shards node_topology));
  is_leader _ _ w := (w, true);
  storage _ s w := (w, ns_tree (node_shard w s) : @tree mem_tree);
  client_write _ s req w := node_write s req w;
  raft_state _ _ _ w := (w, None);
  connect _ _ w := (w, None);
  transport _ _ w := (w, Ok tt);
  hlc_now _ := tick_clock (fun t => mkHlc t 0);
  unix_millis _ := tick_clock id;
  instant_now _ := tick_clock id;
  new_uuid _ := tick_clock id;
  max_event_bytes _ := 1048576%N
|}.

(** ** The laws *)

(** A shard's store holds its state. *)
Definition node_shard_ok (s : N) (x : NodeShard) : Prop :=
  (exists ap, ShardRep (M := N) (H := demo_codecs) s (ns_tree x) (ns_shard x) ap) /\
  @shard_ok demo_xxh3 (ns_shard x).

Definition node_world_ok (w : NodeWorld) : Prop := forall s, node_shard_ok s (node_shard w s).

Lemma shard_empty_ok : @shard_ok demo_xxh3 shard_empty.
Proof.
  split; [exact shard_empty_wf|]. split; [unfold groups_of; cbn; apply map_Forall_empty|].
  intros ty p u r Hr. cbn in Hr. by rewrite lookup_empty in Hr.
Qed.

Lemma world_empty_ok : node_world_ok world_empty.
Proof.
  intros s. unfold node_shard. cbn. rewrite lookup_empty. split; [exists None; apply ShardRep_empty|].
  exact shard_empty_ok.
Qed.

Lemma shard_run_request (s : shard) (id : LogId) (req : EsRequest) :
  @shard_run demo_xxh3 N s [mkEntry id (Normal req)] =
  ((@shard_step demo_xxh3 s req).1, [(@shard_step demo_xxh3 s req).2]).
Proof. cbn. by destruct (shard_step s req). Qed.

(** A write either leaves the world as it is or takes one step of the shard. *)
Lemma node_write_cases s req w w' r :
  node_world_ok w -> service_request req -> node_write s req w = (w', r) ->
  (w' = w /\ is_ok r = false) \/
  exists x, w' = mkWorld (<[s := x]> (nw_shards w)) (nw_clock w) /\ node_shard_ok s x /\
    @shard_step demo_xxh3 (ns_shard (node_shard w s)) req = (ns_shard x, default Noop (match r with Ok a => Some a | Err _ => None end)) /\
    is_ok r = true.
Proof.
  intros Hw Hreq. unfold node_write. destruct ((s <=? u64_max)%N && _) eqn:E; [|intros [= <- <-]; by left].
  apply andb_true_iff in E as [Es Er]. bool_facts. destruct (sm_apply _ _ _ _) as [out|e] eqn:Ha;
    [|intros [= <- <-]; by left].
  destruct (Hw s) as [[ap Hrep] Hok].
  destruct (@sm_apply_refines N demo_codecs demo_codec_laws mem_tree mem_tree_laws demo_xxh3 s Es
    (ns_tree (node_shard w s)) (ns_cache (node_shard w s)) (ns_shard (node_shard w s)) ap
    [mkEntry (mkLogId 1 1 (ns_index (node_shard w s) + 1)) (Normal req)] out Hrep (proj1 Hok)
    ltac:(apply Forall_singleton; exact (proj1 Hreq)) ltac:(unfold len; cbn [length]; lia) Ha) as (Hrep' & _ & Hresp & _).
  rewrite shard_run_request in Hrep', Hresp. cbn [fst snd] in Hrep', Hresp. rewrite Hresp. intros [= <- <-]. right. eexists. split; [done|].
  split_ands; [|cbn; apply surjective_pairing|done]. split; [by eexists|].
  eapply step_ok; [exact Hreq|apply surjective_pairing|done].
Qed.

Lemma node_write_moves s req w w' r :
  node_world_ok w -> service_request req -> node_write s req w = (w', r) ->
  node_world_ok w' /\ forall s', @later demo_xxh3 (ns_shard (node_shard w s')) (ns_shard (node_shard w' s')).
Proof.
  intros Hw Hreq [[-> _]|(x & -> & Hx & Hs & _)]%node_write_cases; [|split|done|done]; [done| |].
  - intros s'. unfold node_shard. cbn. destruct (decide (s' = s)) as [->|Hne].
    + by rewrite lookup_insert_eq.
    + rewrite lookup_insert_ne by done. apply Hw.
  - intros s'. unfold node_shard at 2. cbn. destruct (decide (s' = s)) as [->|Hne].
    + rewrite lookup_insert_eq. by eapply (tick_step (H := demo_xxh3)).
    + rewrite lookup_insert_ne by done. reflexivity.
Qed.

(** Every operation but a write leaves the shards alone. *)
Lemma node_moves_same (w w' : NodeWorld) :
  node_world_ok w -> nw_shards w' = nw_shards w ->
  node_world_ok w' /\ forall s, @later demo_xxh3 (ns_shard (node_shard w s)) (ns_shard (node_shard w' s)).
Proof.
  intros Hw He. assert (Hs : forall s, node_shard w' s = node_shard w s) by (intros s; unfold node_shard; by rewrite He).
  split; intros s; rewrite Hs; [apply Hw|reflexivity].
Qed.

Ltac still := intros *; intros ? Hop; apply node_moves_same; [done|injection Hop; intros; by subst].

#[export] Instance single_node_laws :
  @ClusterLaws demo_xxh3 N demo_codecs demo_platform mem_tree mem_tree_laws single_node.
Proof.
  refine {| world_ok := node_world_ok : @world mem_tree single_node -> Prop;
            shard_of := (fun w s => ns_shard (node_shard w s)) : @world mem_tree single_node -> N -> shard;
            control := fun _ => tp_control_shard_id node_topology |}.
  - intros w s Hw. apply (Hw s).
  - still.
  - still.
  - still.
  - still.
  - intros n s req w w' r Hw Hreq Hr. by eapply node_write_moves.
  - still.
  - still.
  - still.
  - still.
  - still.
  - still.
  - still.
  - intros n w w' tp _ Hsn. injection Hsn as <- <-. split; [|done]. exists demo_config2. by vm_compute.
  - intros n s w w' Hs. injection Hs as _ Hs. apply existsb_exists in Hs as (x & Hx & ->%N.eqb_eq).
    revert Hx. change (tp_all_shards node_topology) with [0; 1]%N. intros [<-|[<-|[]]]; vm_compute; discriminate.
  - intros n s w w' t Hw Hs. injection Hs as <- <-. destruct (Hw s) as [[ap Hrep] Hok].
    exists (ns_shard (node_shard w s)), ap. split_ands; [exact Hrep|done|reflexivity].
  - intros n s req w w' r Hw Hreq Hr. apply node_write_cases in Hr as [[_ Hf]|(x & -> & _ & Hs & _)]; [discriminate| |done|done].
    exists (ns_shard (node_shard w s)), (ns_shard x). split_ands; [reflexivity|exact Hs|].
    unfold node_shard. cbn. rewrite lookup_insert_eq. reflexivity.
  - intros n w w' u Hu. injection Hu as _ <-. unfold id. lia.
  - intros n w w' u Hu. injection Hu as _ <-. unfold id. lia.
Defined.
