(* ===== verification/Service.v ===== *)
(** * es-server: the aggregate service

    [es-server/src/aggregate_service.rs]: the handlers of the public and of the
    internal service for aggregate types, events and state documents. A handler
    is a function of the node [n] it runs on; what a handler does elsewhere goes
    through [call] to the internal handler of the peer.

    The theorems tie a handler's answer to the state of the shards: a
    registration that succeeds leaves the type active and every partition
    fenced; an append that succeeds leaves the event recorded once, at the
    version answered; a state write that succeeds replaced exactly the revision
    it expected; a read returns what some state of the right shard held. *)

From S2P Require Import Prelude.
From S2P Require Import Bytes.
From S2P Require Import Core.
From S2P Require Import Aggregate.
From S2P Require Import Catalog.
From S2P Require Import GroupCatalog.
From S2P Require Import GroupPartition.
From S2P Require Import Keys.
From S2P Require Import Store.
From S2P Require Import RaftType.
From S2P Require Import LogStore.
From S2P Require Import StateMachine.
From S2P Require Import ShardSpec.
From S2P Require Import Codecs.
From S2P Require Import RequestCodecs.
From S2P Require Import Apply.
From S2P Require Import Reads.
From S2P Require Import History.
From S2P Require Import Config.
From S2P Require Import Topology.
From S2P Require Import Wire.
From S2P Require Import Cluster.
From S2P Require Import SingleNode.

(** ** Messages *)

Record GroupPartitionFetchInput : Type := mkFetchInput {
  fi_aggregate_type : AggregateTypeId;
  fi_partition_id : N;
  fi_partition_generation : N;
  fi_group_name : string;
  fi_group_epoch : N;
  fi_start_position : N;
  fi_settings : AggregateGroupSettings;
  fi_consumer_id : string;
  fi_now_ms : N;
  fi_max_events : N;
  fi_max_bytes : N
}.

Record GroupPartitionFetchOutput : Type := mkFetchOutput {
  fo_deliveries : list (AggregateGroupDelivery * AggregateEvent);
  fo_caught_up : bool;
  fo_throttled : bool
}.

(** The bincode of the payloads of the internal service. *)
Class RpcCodecs : Type := {
  c_catalog_command :: Codec AggregateCatalogCommand;
  c_catalog_apply :: Codec AggregateCatalogApply;
  c_group_command :: Codec AggregateGroupCatalogCommand;
  c_group_apply :: Codec AggregateGroupCatalogApply;
  c_fetch_input :: Codec GroupPartitionFetchInput;
  c_fetch_output :: Codec GroupPartitionFetchOutput;
  c_request :: Codec EsRequest;
  c_response :: Codec EsResponse
}.

Class RpcCodecLaws `{RpcCodecs} : Prop := {
  rl_catalog_command :: CodecLaws AggregateCatalogCommand;
  rl_catalog_apply :: CodecLaws AggregateCatalogApply;
  rl_group_command :: CodecLaws AggregateGroupCatalogCommand;
  rl_group_apply :: CodecLaws AggregateGroupCatalogApply;
  rl_fetch_input :: CodecLaws GroupPartitionFetchInput;
  rl_fetch_output :: CodecLaws GroupPartitionFetchOutput;
  rl_request :: CodecLaws EsRequest;
  rl_response :: CodecLaws EsResponse
}.

Record Capabilities : Type := mkCapabilities {
  cp_api_version : string;
  cp_partition_count : N;
  cp_max_event_bytes : N;
  cp_max_state_bytes : N;
  cp_state_revision_cas : bool;
  cp_explicit_group_settlement : bool;
  cp_state_modified_time : bool
}.

Record AppendRequest : Type := mkAppendRequest {
  aq_aggregate_type : option PbTypeRef;
  aq_aggregate_id : string;
  aq_expected_version : option (option PbVersionKind);
  aq_event : option PbNewEvent
}.

Record PutStateRequest : Type := mkPutRequest {
  pq_aggregate_type : option PbTypeRef;
  pq_aggregate_id : string;
  pq_expected_revision : option (option PbRevisionKind);
  pq_data : Bytes
}.

Record StateReply : Type := mkStateReply {
  sr_revision : N;
  sr_data : Bytes;
  sr_modified_unix_millis : N
}.

Record StoreStatus : Type := mkStoreStatus {
  ss_catalog_revision : N;
  ss_aggregate_type_count : N;
  ss_registering_aggregate_type_count : N;
  ss_active_aggregate_type_count : N
}.

Record PartitionInfo : Type := mkPartitionInfo {
  pi_partition_id : N;
  pi_shard_id : N;
  pi_generation : N;
  pi_moving : bool;
  pi_target_shard_id : N
}.

(** The order of the keys of the catalog's map. *)
Definition type_le (x y : AggregateTypeId) : Prop :=
  bytes_lt (as_bytes (business_space x)) (as_bytes (business_space y)) \/
  business_space x = business_space y /\ bytes_le (as_bytes (aggregate_type x)) (as_bytes (aggregate_type y)).

#[export] Instance type_le_dec x y : Decision (type_le x y).
Proof. unfold type_le. apply _. Defined.

(** [values()] of the catalog's map. *)
Definition catalog_values (c : AggregateCatalog) : list AggregateTypeDefinition :=
  (merge_sort (fun x y => type_le x.1 y.1) (map_to_list (cat_aggregate_types c))).*2.

(** ** Handlers *)

Section Handlers.
Context {M : Type} `{Xxh3} `{SmCodecs M} `{Platform} `{Cluster} `{DebugResponse} `{RpcCodecs}.

Definition require_control_shard (n shard_id : N) : Act Status unit :=
  tp ← effect (snapshot n);
  lift (if negb (shard_id =? tp_control_shard_id tp)%N
        then Err (invalid_argument "control_shard_id 不匹配") else Ok tt).

(** The two catalogs are read and changed the same way: on the control shard if
    its leader is here, else through the internal service of the leader. *)
Section Control.
Context {A : Type} `{Codec A} (get : N -> tree -> Result A) (name failed : string).

Definition control_get_internal (n control_shard_id : N) : Act Status Bytes :=
  _ ← require_control_shard n control_shard_id;
  _ ← local_leader n control_shard_id;
  catalog ← read n control_shard_id internal_of (get control_shard_id);
  lift (encode_bincode catalog name).

Definition control_get (n : N) : Act Status A :=
  tp ← effect (snapshot n);
  let s := tp_control_shard_id tp in
  if_local_leader n s
    (read n s (fun e => internal (failed +:+ error_to_string e)) (get s))
    (peer ← aggregate_internal_client n (tp_remote tp) s;
     payload ← call n peer (control_get_internal peer s);
     lift (decode_bincode payload name)).

End Control.

Section Commit.
Context {C A : Type} `{Codec C} `{Codec A} (request : C -> EsRequest) (answer : EsResponse -> option A).
Context (command_name apply_name unexpected unexpected_internal : string).

Definition answer_or (what : string) (r : EsResponse) : Reply A :=
  ok_or (internal (what +:+ debug_response r)) (answer r).

Definition control_commit_internal (n control_shard_id : N) (payload : Bytes) : Act Status Bytes :=
  _ ← require_control_shard n control_shard_id;
  command ← lift (decode_bincode payload command_name);
  _ ← local_leader n control_shard_id;
  response ← write n control_shard_id (request command);
  applied ← lift (answer_or unexpected_internal response);
  lift (encode_bincode applied apply_name).

Definition control_commit (n : N) (command : C) : Act Status A :=
  tp ← effect (snapshot n);
  let s := tp_control_shard_id tp in
  if_local_leader n s
    (response ← write n s (request command);
     lift (answer_or unexpected response))
    (payload ← lift (encode_bincode command command_name);
     peer ← aggregate_internal_client n (tp_remote tp) s;
     reply ← call n peer (control_commit_internal peer s payload);
     lift (decode_bincode reply apply_name)).

End Commit.

Definition get_aggregate_catalog_internal : N -> N -> Act Status Bytes :=
  control_get_internal read_aggregate_catalog "AggregateCatalog".

Definition fetch_catalog : N -> Act Status AggregateCatalog :=
  control_get read_aggregate_catalog "AggregateCatalog" "读取聚合 catalog 失败: ".

(** The answer to a catalog command. *)
Definition catalog_applied (r : EsResponse) : option AggregateCatalogApply :=
  match r with AggregateCatalogApplied a => Some a | _ => None end.

Definition commit_aggregate_catalog_internal : N -> N -> Bytes -> Act Status Bytes :=
  control_commit_internal CommitAggregateCatalog catalog_applied "AggregateCatalogCommand" "AggregateCatalogApply"
    "catalog 返回意外结果: ".

Definition commit_catalog : N -> AggregateCatalogCommand -> Act Status AggregateCatalogApply :=
  control_commit CommitAggregateCatalog catalog_applied "AggregateCatalogCommand" "AggregateCatalogApply"
    "聚合 catalog 返回意外结果: " "catalog 返回意外结果: ".

Definition get_aggregate_group_catalog_internal : N -> N -> Act Status Bytes :=
  control_get_internal read_aggregate_group_catalog "AggregateGroupCatalog".

Definition fetch_group_catalog : N -> Act Status AggregateGroupCatalog :=
  control_get read_aggregate_group_catalog "AggregateGroupCatalog" "读取消费者组 catalog 失败: ".

Definition group_catalog_applied (r : EsResponse) : option AggregateGroupCatalogApply :=
  match r with AggregateGroupCatalogApplied a => Some a | _ => None end.

Definition commit_aggregate_group_catalog_internal : N -> N -> Bytes -> Act Status Bytes :=
  control_commit_internal CommitAggregateGroupCatalog group_catalog_applied "AggregateGroupCatalogCommand"
    "AggregateGroupCatalogApply" "消费者组 catalog 返回意外结果: ".

Definition commit_group_catalog : N -> AggregateGroupCatalogCommand -> Act Status AggregateGroupCatalogApply :=
  control_commit CommitAggregateGroupCatalog group_catalog_applied "AggregateGroupCatalogCommand"
    "AggregateGroupCatalogApply" "消费者组 catalog 返回意外结果: " "消费者组 catalog 返回意外结果: ".

(** [install_aggregate_partition_fence_internal]. *)
Definition install_aggregate_partition_fence_internal (n shard_id : N) (ty : option PbTypeRef)
    (partition_id generation : N) : Act Status N :=
  ty ← lift (proto_aggregate_type ty);
  _ ← lift (if (partition_id <=? u16_max)%N then Ok tt else Err (invalid_argument "partition_id 超出范围"));
  _ ← local_leader n shard_id;
  response ← write n shard_id (InstallAggregatePartitionFence ty partition_id generation);
  lift (map_fence_response response).

Definition install_partition_fence (n : N) (ty : AggregateTypeId) (partition_id shard_id generation : N) :
    Act Status N :=
  if_local_leader n shard_id
    (response ← write n shard_id (InstallAggregatePartitionFence ty partition_id generation);
     lift (map_fence_response response))
    (tp ← effect (snapshot n);
     peer ← aggregate_internal_client n (tp_remote tp) shard_id;
     call n peer (install_aggregate_partition_fence_internal peer shard_id
                    (Some (aggregate_type_to_proto ty)) partition_id generation)).

Definition require_active_aggregate_type (n : N) (ty : AggregateTypeId) : Act Status AggregateTypeDefinition :=
  catalog ← fetch_catalog n;
  d ← lift (ok_or (not_found ("聚合类型 " +:+ canonical_name ty +:+ " 不存在")) (cat_aggregate_types catalog !! ty));
  lift (if bool_decide (td_status d = Active) then Ok d
        else Err (unavailable ("聚合类型 " +:+ canonical_name ty +:+ " 尚未激活，请重试"))).

Definition append_once (n : N) (d : AggregateTypeDefinition) (aggregate_id : string)
    (expected : ExpectedAggregateVersion) (event : NewAggregateEvent) : Act Status N :=
  partition_id ← lift (map_err invalid_of (partition_for d aggregate_id));
  placement ← lift (ok_or (internal "聚合类型缺少分区放置") (td_placements d !! partition_id));
  _ ← local_leader n (pl_shard_id placement);
  hlc ← effect (hlc_now n);
  response ← write n (pl_shard_id placement)
    (AggregateAppend (td_id d) partition_id (pl_generation placement) aggregate_id expected event hlc);
  lift (map_append_response response).

(** *** Public handlers *)

Definition get_aggregate_store_capabilities (n : N) : Capabilities :=
  mkCapabilities "1.0" EVENT_PARTITION_COUNT (max_event_bytes n) (max_event_bytes n) true true true.

(** [all_shards[partition % all_shards.len()]]; the remainder by 0 panics. *)
Definition round_robin (all_shards : list N) : option (gmap N N) :=
  list_to_map <$> mapM (fun p => (p,.) <$> (if decide (all_shards = []) then None
    else all_shards !! (N.to_nat p mod length all_shards)%nat)) (partition_ids EVENT_PARTITION_COUNT).

Definition created_definition (o : AggregateCatalogOutcome) : Reply AggregateTypeDefinition :=
  match o with
  | OutType d _ => Ok d
  | OutConflict reason => Err (already_exists reason)
  | OutInvalid reason => Err (invalid_argument reason)
  | OutNotFound => Err (internal "注册聚合类型返回 NotFound")
  end.

Definition activated_info (a : AggregateCatalogApply) : Reply PbTypeInfo :=
  match ca_outcome a with
  | OutType d _ => Ok (aggregate_type_info d (ca_revision a))
  | OutConflict reason => Err (failed_precondition reason)
  | OutInvalid reason => Err (invalid_argument reason)
  | OutNotFound => Err (not_found "聚合类型不存在")
  end.

Definition register_aggregate_type (n : N) (ty : option PbTypeRef) (operation_id : Bytes) :
    Act Failure PbTypeInfo :=
  ty ← handler (lift (proto_aggregate_type ty));
  op ← handler (lift (ok_or (invalid_argument "operation_id 必须是 16 字节 UUID") (uuid_from_slice operation_id)));
  tp ← effect (snapshot n);
  placements ← or_panic "remainder with a divisor of zero" (round_robin (tp_all_shards tp));
  handler (
    created ← commit_catalog n (CmdCreate ty op (uuid_bytes op) placements);
    d ← lift (created_definition (ca_outcome created));
    _ ← for_each (btree_iter (td_placements d)) (fun '(p, pl) =>
          _ ← install_partition_fence n (td_id d) p (pl_shard_id pl) (pl_generation pl); mret tt);
    activated ← commit_catalog n (CmdActivate ty op);
    lift (activated_info activated)).

Definition list_aggregate_types (n : N) : Act Status (list PbTypeInfo) :=
  catalog ← fetch_catalog n;
  mret (map (fun d => aggregate_type_info d (cat_revision catalog)) (catalog_values catalog)).

Definition get_aggregate_type (n : N) (ty : option PbTypeRef) : Act Status PbTypeInfo :=
  ty ← lift (proto_aggregate_type ty);
  catalog ← fetch_catalog n;
  d ← lift (ok_or (not_found "聚合类型不存在") (cat_aggregate_types catalog !! ty));
  mret (aggregate_type_info d (cat_revision catalog)).

(** The checks of [append_aggregate_event] before anything is read. *)
Definition append_input (n : N) (q : AppendRequest) :
    Reply (AggregateTypeId * ExpectedAggregateVersion * NewAggregateEvent) :=
  ty ← proto_aggregate_type (aq_aggregate_type q);
  _ ← map_err invalid_of (validate_aggregate_identifier "aggregate_id" (aq_aggregate_id q));
  let expected := proto_expected_version (aq_expected_version q) in
  event ← ok_or (invalid_argument "event 必填") (aq_event q);
  _ ← (if (max_event_bytes n <? len (pn_data event) + len (pn_metadata event))%N
       then Err (failed_precondition "聚合事件 payload 超出限制") else Ok tt);
  event_id ← ok_or (invalid_argument "event_id 必须是 16 字节 UUID") (uuid_from_slice (pn_event_id event));
  _ ← (if bool_decide (pn_event_type event = "") then Err (invalid_argument "event_type 不能为空") else Ok tt);
  Ok (ty, expected, mkNewEvent event_id (pn_event_type event) (pn_data event) (pn_metadata event)).

(** A status that asks for a fresh placement. *)
Definition is_fenced (st : Status) : bool :=
  bool_decide (st_code st = CodeUnavailable) && contains "partition generation advanced" (st_message st).

(** [match first { Err(status) if again(status) => second, other => other }]. *)
Definition retry_when {A} (again : Status -> bool) (first second : Act Status A) : Act Status A := fun w =>
  match first w with
  | (w, Ok a) => (w, Ok a)
  | (w, Err st) => if again st then second w else (w, Err st)
  end.

Definition append_aggregate_event (n : N) (q : AppendRequest) : Act Status N :=
  input ← lift (append_input n q);
  let '(ty, expected, event) := input in
  d ← require_active_aggregate_type n ty;
  retry_when is_fenced
    (append_once n d (aq_aggregate_id q) expected event)
    (refreshed ← require_active_aggregate_type n ty;
     append_once n refreshed (aq_aggregate_id q) expected event).

(** [&definition.placements[&partition_id]]. *)
Definition placement_at (d : AggregateTypeDefinition) (p : N) : Act Failure PartitionPlacement :=
  or_panic "no entry found for key" (td_placements d !! p).

Definition get_aggregate_state (n : N) (ty : option PbTypeRef) (aggregate_id : string) : Act Failure StateReply :=
  ty ← handler (lift (proto_aggregate_type ty));
  d ← handler (require_active_aggregate_type n ty);
  p ← handler (lift (map_err invalid_of (partition_for d aggregate_id)));
  placement ← placement_at d p;
  handler (
    _ ← local_leader n (pl_shard_id placement);
    o ← read n (pl_shard_id placement) internal_of
          (fun t => read_aggregate_state_document (pl_shard_id placement) t ty p aggregate_id);
    state ← lift (ok_or (not_found "聚合状态不存在") o);
    mret (mkStateReply (doc_revision state) (doc_data state) (wall (doc_modified_hlc state)))).

(** The answer to [PutAggregateState]. *)
Definition map_put_response (r : EsResponse) : Reply (N * N) :=
  match r with
  | AggregateStateStored state => Ok (doc_revision state, wall (doc_modified_hlc state))
  | AggregateNotFound => Err (not_found "聚合实例不存在")
  | AggregateStateConflict actual =>
      Err (failed_precondition ("state revision conflict: actual=" +:+ debug_opt actual))
  | AggregatePartitionFenced g => Err (generation_advanced g)
  | AggregateInvalid reason => Err (invalid_argument reason)
  | other => Err (internal ("写聚合状态返回意外结果: " +:+ debug_response other))
  end.

Definition put_aggregate_state (n : N) (q : PutStateRequest) : Act Failure (N * N) :=
  _ ← handler (lift (if (max_event_bytes n <? len (pq_data q))%N
                     then Err (failed_precondition "聚合状态 payload 超出限制") else Ok tt));
  ty ← handler (lift (proto_aggregate_type (pq_aggregate_type q)));
  expected ← handler (lift (proto_expected_state_revision (pq_expected_revision q)));
  d ← handler (require_active_aggregate_type n ty);
  p ← handler (lift (map_err invalid_of (partition_for d (pq_aggregate_id q))));
  placement ← placement_at d p;
  handler (
    _ ← local_leader n (pl_shard_id placement);
    hlc ← effect (hlc_now n);
    response ← write n (pl_shard_id placement)
      (PutAggregateState ty p (pl_generation placement) (pq_aggregate_id q) expected (pq_data q) hlc);
    lift (map_put_response response)).

(** [len() as u32] of the counts. *)
Definition get_aggregate_store_status (n : N) : Act Status StoreStatus :=
  catalog ← fetch_catalog n;
  let creating := length (List.filter (fun d => bool_decide (td_status d = Registering)) (catalog_values catalog)) in
  let total := size (cat_aggregate_types catalog) in
  mret (mkStoreStatus (cat_revision catalog) (as_u32 (N.of_nat total)) (as_u32 (N.of_nat creating))
          (as_u32 (N.of_nat (total - creating)))).

Definition partition_info (ppl : N * PartitionPlacement) : PartitionInfo :=
  mkPartitionInfo ppl.1 (pl_shard_id ppl.2) (pl_generation ppl.2)
    (bool_decide (is_Some (pl_pending_move ppl.2)))
    (match pl_pending_move ppl.2 with Some m => mv_target_shard m | None => 0%N end).

Definition list_aggregate_partitions (n : N) (ty : option PbTypeRef) : Act Status (list PartitionInfo) :=
  ty ← lift (proto_aggregate_type ty);
  catalog ← fetch_catalog n;
  d ← lift (ok_or (not_found "聚合类型不存在") (cat_aggregate_types catalog !! ty));
  mret (map partition_info (btree_iter (td_placements d))).

End Handlers.

(** ** Lemmas: steps of a handler *)

Section Steps.
Context `{Cluster}.

Lemma act_bind_Ok {E A B} (m : Act E A) (f : A -> Act E B) w w' b :
  (m ≫= f) w = (w', Ok b) -> exists w1 a, m w = (w1, Ok a) /\ f a w1 = (w', Ok b).
Proof. unfold mbind, act_bind. destruct (m w) as [w1 [a|e]]; [|discriminate]. intros Hf. by exists w1, a. Qed.

Lemma lift_Ok {E A} (r : result E A) w w' a : lift r w = (w', Ok a) -> w' = w /\ r = Ok a.
Proof. by intros [= -> ->]. Qed.

Lemma effect_Ok {E A} (op : world -> world * A) w w' a : (effect op : Act E A) w = (w', Ok a) -> op w = (w', a).
Proof. unfold effect. destruct (op w) as [w1 a1]. by intros [= -> ->]. Qed.

Lemma handler_Ok {A} (m : Act Status A) w w' a : handler m w = (w', Ok a) -> m w = (w', Ok a).
Proof.
  unfold handler, map_failure. destruct (m w) as [w1 r]. intros [= -> Hr]. f_equal. by apply map_err_Ok in Hr.
Qed.

Lemma or_panic_Ok {A} msg (o : option A) w w' a : or_panic msg o w = (w', Ok a) -> w' = w /\ o = Some a.
Proof. intros [-> Ho]%lift_Ok. destruct o; [|discriminate]. injection Ho as ->. done. Qed.

Lemma ok_or_Ok {E A} (e : E) (o : option A) a : ok_or e o = Ok a -> o = Some a.
Proof. destruct o; [|discriminate]. by intros [= ->]. Qed.

End Steps.

(** Take apart a handler that succeeded. *)
Ltac act_step :=
  match goal with
  | H : (?m ≫= ?f) ?w = (_, Ok _) |- _ => apply act_bind_Ok in H as (? & ? & ? & H); cbn beta in H
  | H : lift _ _ = (_, Ok _) |- _ => apply lift_Ok in H as [-> H]
  | H : effect _ _ = (_, Ok _) |- _ => apply effect_Ok in H
  | H : handler _ _ = (_, Ok _) |- _ => apply handler_Ok in H
  | H : or_panic _ _ _ = (_, Ok _) |- _ => apply or_panic_Ok in H as [-> H]
  | H : ok_or _ _ = Ok _ |- _ => apply ok_or_Ok in H
  | H : map_err _ _ = Ok _ |- _ => apply map_err_Ok in H
  | H : (mret _ : Act _ _) _ = (_, Ok _) |- _ => injection H as <- <-
  end.

Section Specs.
Context {M : Type} `{ClusterLaws M} `{!SmCodecLaws M} `{DebugResponse} `{RpcCodecLaws}.

(** A request that was applied once between two worlds. *)
Definition applied (s : N) (req : EsRequest) (r : EsResponse) (w w' : world) : Prop :=
  exists s1 s2, later (shard_of w s) s1 /\ shard_step s1 req = (s2, r) /\ later s2 (shard_of w' s).

(** A state the shard went through. *)
Definition past (s : N) (w : world) (sh : shard) : Prop := shard_ok sh /\ later sh (shard_of w s).

Lemma applied_extend s req r w0 w w' w1 : moves w0 w -> applied s req r w w' -> moves w' w1 -> applied s req r w0 w1.
Proof.
  intros [_ Hb] (s1 & s2 & Hl1 & Hs & Hl2) [_ Ha]. exists s1, s2. split_ands; [|done|].
  - etrans; [apply Hb|exact Hl1].
  - etrans; [exact Hl2|apply Ha].
Qed.

Lemma past_extend s w w' sh : past s w sh -> moves w w' -> past s w' sh.
Proof. intros [Hwf Hl] [_ Hm]. split; [done|]. etrans; [exact Hl|apply Hm]. Qed.

Lemma write_Ok n s req w w' r :
  world_ok w -> service_request req -> write n s req w = (w', Ok r) -> moves w w' /\ applied s req r w w'.
Proof.
  intros Hw Hreq Hr. split; [by eapply moving_write|]. unfold write in Hr.
  destruct (client_write n s req w) as [w1 r1] eqn:Hc. injection Hr as -> Hr. apply map_err_Ok in Hr as ->.
  by eapply write_applied.
Qed.

Lemma read_Ok {A} n s status (f : tree -> Result A) w w' a :
  world_ok w -> read n s status f w = (w', Ok a) ->
  moves w w' /\ exists t sh ap, f t = Ok a /\ ShardRep (M := M) s (tree_view t) sh ap /\ past s w' sh.
Proof.
  intros Hw Hr. split; [by eapply moving_read|]. unfold read in Hr.
  destruct (storage n s w) as [w1 t] eqn:Hc. injection Hr as -> Hr. apply map_err_Ok in Hr.
  destruct (storage_past _ _ _ _ _ Hw Hc) as (sh & ap & Hrep & Hwf & Hl). by exists t, sh, ap.
Qed.

Lemma call_Ok {A} n peer (serve : Act Status A) w w' a :
  world_ok w -> moving serve -> call n peer serve w = (w', Ok a) ->
  exists w1 w2, moves w w1 /\ serve w1 = (w2, Ok a) /\ moves w1 w2 /\ moves w2 w'.
Proof.
  intros Hw Hs Hc. unfold call in Hc. repeat act_step.
  match goal with H1 : transport n peer w = (?w1, _), H2 : serve ?w1 = (?w2, _), H3 : transport peer n ?w2 = _ |- _ =>
    pose proof (moving_transport n peer _ _ _ Hw H1) as Hm1;
    pose proof (Hs _ _ _ (proj1 Hm1) H2) as Hm2;
    pose proof (moving_transport peer n _ _ _ (proj1 Hm2) H3) as Hm3; exists w1, w2; done end.
Qed.

Lemma snapshot_Ok n w w' tp :
  world_ok w -> snapshot n w = (w', tp) -> moves w w' /\ tp_control_shard_id tp = control n.
Proof. intros Hw Hs. split; [by eapply snapshot_moves|]. by eapply snapshot_topology. Qed.

(** [if let Ok(_) = local_leader]: both ways. *)
Lemma if_local_leader_Ok {E A} n s (here there : Act E A) w w' a :
  world_ok w -> if_local_leader n s here there w = (w', Ok a) ->
  exists w1, moves w w1 /\ (here w1 = (w', Ok a) /\ (s <= u64_max)%N \/ there w1 = (w', Ok a)).
Proof.
  intros Hw. unfold if_local_leader. destruct (local_leader n s w) as [w1 r] eqn:Hl.
  pose proof (moving_local_leader n s _ _ _ Hw Hl) as Hm. intros Hr. exists w1. split; [done|].
  destruct r as [[]|]; [left; split; [done|by eapply local_leader_u64]|by right].
Qed.

(** *** The handlers let the shards move on *)

Lemma moving_require_control n s : moving (require_control_shard n s).
Proof. unfold require_control_shard. moving. Qed.

Hint Resolve moving_require_control : cluster.

Lemma moving_control_get_internal {A} `{Codec A} (get : N -> tree -> Result A) name n s :
  moving (control_get_internal get name n s).
Proof. unfold control_get_internal. moving. Qed.

Hint Resolve moving_control_get_internal : cluster.

Lemma moving_control_get {A} `{Codec A} (get : N -> tree -> Result A) name failed n :
  moving (control_get get name failed n).
Proof. unfold control_get. moving. Qed.

Hint Resolve moving_control_get : cluster.

Lemma moving_control_commit_internal {C A} `{CodecLaws C} `{Codec A} (request : C -> EsRequest)
    (answer : EsResponse -> option A) cn an ui n s payload command :
  service_request (request command) -> encode_bincode command cn = Ok payload ->
  moving (control_commit_internal request answer cn an ui n s payload).
Proof.
  intros Hreq He. unfold control_commit_internal. rewrite (decode_encoded _ _ _ _ He).
  apply moving_bind; [apply moving_require_control|]. intros _ w w' r Hw.
  unfold mbind at 1, act_bind at 1, lift at 1. revert w w' r Hw.
  match goal with |- forall w w' r, _ -> ?m w = _ -> _ => change (moving m) end. by moving.
Qed.

Lemma moving_control_commit {C A} `{CodecLaws C} `{Codec A} (request : C -> EsRequest)
    (answer : EsResponse -> option A) cn an u ui n command :
  service_request (request command) -> moving (control_commit request answer cn an u ui n command).
Proof.
  intros Hreq. unfold control_commit. apply moving_bind; [auto with cluster|]. intros tp. cbn zeta.
  apply moving_if_local_leader; [by moving|]. intros w w' r Hw.
  unfold mbind at 1, act_bind at 1, lift at 1.
  destruct (encode_bincode command cn) as [payload|e] eqn:He; [|intros [= <- _]; by apply moves_refl].
  revert w w' r Hw. match goal with |- forall w w' r, _ -> ?m w = _ -> _ => change (moving m) end.
  moving. by eapply moving_control_commit_internal.
Qed.

Lemma moving_fetch_catalog n : moving (fetch_catalog n).
Proof. apply moving_control_get. Qed.

Lemma moving_fetch_group_catalog n : moving (fetch_group_catalog n).
Proof. apply moving_control_get. Qed.

Lemma moving_commit_catalog n command :
  service_request (CommitAggregateCatalog command) -> moving (commit_catalog n command).
Proof. apply moving_control_commit. Qed.

Lemma moving_commit_group_catalog n command :
  service_request (CommitAggregateGroupCatalog command) -> moving (commit_group_catalog n command).
Proof. apply moving_control_commit. Qed.

Hint Resolve moving_fetch_catalog moving_fetch_group_catalog moving_commit_catalog : cluster.

Hint Extern 1 (service_request (CommitAggregateCatalog _)) => (split; exact I) : cluster.

Lemma moving_require_active n ty : moving (require_active_aggregate_type n ty).
Proof. unfold require_active_aggregate_type. moving. Qed.

Hint Resolve moving_require_active : cluster.

(** *** The catalog *)

Definition catalog_of (sh : shard) : AggregateCatalog := default catalog_default (s_catalog sh).

Lemma control_get_internal_past {A} `{Codec A} (get : N -> tree -> Result A) name n s w w' payload :
  world_ok w -> control_get_internal get name n s w = (w', Ok payload) ->
  exists v t sh ap, encode_bincode v name = Ok payload /\ get s t = Ok v /\ (s <= u64_max)%N /\
    ShardRep (M := M) s (tree_view t) sh ap /\ past s w' sh.
Proof.
  intros Hw Hg. unfold control_get_internal in Hg.
  apply act_bind_Ok in Hg as (w1 & [] & Hc & Hg). apply act_bind_Ok in Hg as (w2 & [] & Hl & Hg).
  apply act_bind_Ok in Hg as (w3 & v & Hr & [-> Hg]%lift_Ok).
  pose proof (moving_require_control _ _ _ _ _ Hw Hc) as Hm1.
  pose proof (moving_local_leader _ _ _ _ _ (proj1 Hm1) Hl) as Hm2.
  apply local_leader_u64 in Hl.
  apply read_Ok in Hr as (_ & t & sh & ap & Hf & Hrep & Hp); [|apply Hm2]. eauto 10.
Qed.

(** A catalog fetched is one the control shard has had. *)
Lemma control_get_past {A} `{CodecLaws A} (get : N -> tree -> Result A) name failed n w w' v :
  world_ok w -> control_get get name failed n w = (w', Ok v) ->
  exists t sh ap, get (control n) t = Ok v /\ (control n <= u64_max)%N /\
    ShardRep (M := M) (control n) (tree_view t) sh ap /\ past (control n) w' sh.
Proof.
  intros Hw Hf. unfold control_get in Hf.
  apply act_bind_Ok in Hf as (w0 & tp & Hsn%effect_Ok & Hf). cbn zeta in Hf.
  apply snapshot_Ok in Hsn as [Hm1 Hctl]; [|done].
  rewrite Hctl in Hf. apply if_local_leader_Ok in Hf as (w1 & Hm2 & [[Hf Hs]|Hf]); [| |apply Hm1].
  - apply read_Ok in Hf as (_ & t & sh & ap & Hg & Hrep & Hp); [eauto 10|apply Hm2].
  - apply act_bind_Ok in Hf as (w2 & peer & Hcl & Hf). apply act_bind_Ok in Hf as (w3 & payload & Hcall & [-> Hd]%lift_Ok).
    pose proof (moving_client _ _ _ _ _ _ (proj1 Hm2) Hcl) as Hm3.
    apply call_Ok in Hcall as (w4 & w5 & Hm4 & Hs & _ & Hm5); [|apply Hm3|apply moving_control_get_internal].
    apply control_get_internal_past in Hs as (v' & t & sh & ap & He & Hg & Hs & Hrep & Hp); [|apply Hm4].
    rewrite (decode_encoded _ _ _ _ He) in Hd. injection Hd as <-. exists t, sh, ap.
    split_ands; [done|done|done|by eapply past_extend].
Qed.

Lemma fetch_catalog_past n w w' c :
  world_ok w -> fetch_catalog n w = (w', Ok c) ->
  moves w w' /\ exists sh, past (control n) w' sh /\ c = catalog_of sh.
Proof.
  intros Hw Hf. split; [by eapply moving_fetch_catalog|].
  apply control_get_past in Hf as (t & sh & ap & Hg & Hs & Hrep & Hp); [|done].
  exists sh. split; [done|]. by eapply (read_catalog_rep _ Hs).
Qed.

Lemma answer_or_Ok {A} (answer : EsResponse -> option A) what r a :
  answer_or answer what r = Ok a -> answer r = Some a.
Proof. apply ok_or_Ok. Qed.

Lemma control_commit_internal_applied {C A} `{CodecLaws C} `{CodecLaws A} (request : C -> EsRequest)
    (answer : EsResponse -> option A) cn an ui n s payload command w w' reply :
  world_ok w -> service_request (request command) -> encode_bincode command cn = Ok payload ->
  control_commit_internal request answer cn an ui n s payload w = (w', Ok reply) ->
  exists r a, encode_bincode a an = Ok reply /\ answer r = Some a /\ applied s (request command) r w w'.
Proof.
  intros Hw Hreq Hcmd Hg. unfold control_commit_internal in Hg.
  apply act_bind_Ok in Hg as (w1 & [] & Hc & Hg). apply act_bind_Ok in Hg as (w2 & cmd & [-> Hd]%lift_Ok & Hg).
  rewrite (decode_encoded _ _ _ _ Hcmd) in Hd. injection Hd as <-.
  apply act_bind_Ok in Hg as (w2 & [] & Hl & Hg). apply act_bind_Ok in Hg as (w3 & r & Hwr & Hg).
  apply act_bind_Ok in Hg as (w4 & a & [-> Ha%answer_or_Ok]%lift_Ok & [-> He]%lift_Ok).
  pose proof (moving_require_control _ _ _ _ _ Hw Hc) as Hm1.
  pose proof (moving_local_leader _ _ _ _ _ (proj1 Hm1) Hl) as Hm2.
  apply write_Ok in Hwr as [Hm3 Hap]; [|apply Hm2|done]. exists r, a. split_ands; [done|done|].
  eapply applied_extend; [|exact Hap|apply moves_refl, Hm3]. by eapply moves_trans.
Qed.

(** A command answered was applied once by the control shard. *)
Lemma control_commit_applied {C A} `{CodecLaws C} `{CodecLaws A} (request : C -> EsRequest)
    (answer : EsResponse -> option A) cn an u ui n command w w' a :
  world_ok w -> service_request (request command) ->
  control_commit request answer cn an u ui n command w = (w', Ok a) ->
  exists r, answer r = Some a /\ applied (control n) (request command) r w w'.
Proof.
  intros Hw Hreq Hf. unfold control_commit in Hf.
  apply act_bind_Ok in Hf as (w0 & tp & Hsn%effect_Ok & Hf). cbn zeta in Hf.
  apply snapshot_Ok in Hsn as [Hm1 Hctl]; [|done].
  rewrite Hctl in Hf. apply if_local_leader_Ok in Hf as (w1 & Hm2 & Hf); [|apply Hm1].
  pose proof (moves_trans _ _ _ Hm1 Hm2) as Hm. destruct Hf as [[Hf _]|Hf].
  - apply act_bind_Ok in Hf as (w2 & r & Hwr & [-> Ha%answer_or_Ok]%lift_Ok). exists r. split; [done|].
    apply write_Ok in Hwr as [Hm3 Hap]; [|apply Hm2|done]. eapply applied_extend; [exact Hm|exact Hap|].
    apply moves_refl, Hm3.
  - apply act_bind_Ok in Hf as (w2 & payload & [-> He]%lift_Ok & Hf).
    apply act_bind_Ok in Hf as (w2 & peer & Hcl & Hf). apply act_bind_Ok in Hf as (w3 & reply & Hcall & [-> Hd]%lift_Ok).
    pose proof (moving_client _ _ _ _ _ _ (proj1 Hm2) Hcl) as Hm3.
    apply call_Ok in Hcall as (w4 & w5 & Hm4 & Hs & _ & Hm5); [|apply Hm3|by eapply moving_control_commit_internal].
    eapply control_commit_internal_applied in Hs as (r & a' & Ha & Hans & Hap); [|apply Hm4|done|exact He].
    rewrite (decode_encoded _ _ _ _ Ha) in Hd. injection Hd as <-. exists r. split; [done|].
    eapply applied_extend; [|exact Hap|exact Hm5]. eapply moves_trans; [exact Hm|]. by eapply moves_trans.
Qed.

Lemma commit_catalog_applied n command w w' a :
  world_ok w -> service_request (CommitAggregateCatalog command) -> commit_catalog n command w = (w', Ok a) ->
  moves w w' /\ applied (control n) (CommitAggregateCatalog command) (AggregateCatalogApplied a) w w'.
Proof.
  intros Hw Hreq Hf. split; [by eapply moving_commit_catalog|].
  apply control_commit_applied in Hf as (r & Ha & Hap); [|done|done]. destruct r; try discriminate Ha.
  by injection Ha as ->.
Qed.

(** A definition once in the catalog only moves forward. *)
Lemma step_catalog_of s req : catalog_of (shard_step s req).1 = catalog_of s \/
  exists cmd, req = CommitAggregateCatalog cmd /\
    catalog_of (shard_step s req).1 = (catalog_apply (catalog_of s) cmd).1.
Proof.
  destruct req as [ty p g id ex ev hlc|ty p g id ex data hlc|ty p g|cmd|cmd|ty p g name ep st se cmd]; cbn [shard_step].
  - left. destruct (step_append s ty p g id ex ev hlc) as [s' r] eqn:Hs.
    apply step_append_new in Hs as [->|(v & _ & _ & _ & _ & _ & _ & _ & -> & _)]; done.
  - left. unfold step_put_state. repeat case_match; done.
  - left. unfold step_fence. repeat case_match; done.
  - unfold step_catalog. destruct (catalog_apply _ cmd) as [c r] eqn:Hc. cbn [fst].
    destruct (is_changed (ca_outcome r)); [right; exists cmd; split; [done|]; unfold catalog_of at 2; by rewrite Hc|by left].
  - left. unfold step_group_catalog. repeat case_match; done.
  - left. unfold step_group_partition. repeat case_match; done.
Qed.

(** The commands the servers send leave the placements of a type alone. *)
Lemma catalog_apply_placements c cmd t d d' :
  match cmd with CmdPrepareMove _ _ _ _ _ | CmdCompleteMove _ _ _ => False | _ => True end ->
  cat_aggregate_types c !! t = Some d -> cat_aggregate_types (catalog_apply c cmd).1 !! t = Some d' ->
  td_placements d' = td_placements d.
Proof.
  intros Hcmd Hd Hd'. enough (d' = d \/ d' = set_status Active d) as [-> | ->] by done. revert Hd'.
  destruct cmd as [t0 op seed pls|t0 op| |]; [| |done|done]; unfold catalog_apply, catalog_create, catalog_activate.
  - destruct (type_id_validate t0); [|cbn; rewrite Hd; intros [= <-]; by left].
    destruct (cat_aggregate_types c !! t0) as [ex|] eqn:Hex; [case_if; cbn; rewrite Hd; intros [= <-]; by left|].
    destruct (definition_create t0 op seed pls); cbn; [|rewrite Hd; intros [= <-]; by left].
    rewrite lookup_insert_ne by congruence. rewrite Hd. intros [= <-]. by left.
  - destruct (cat_aggregate_types c !! t0) as [ex|] eqn:Hex; [|cbn; rewrite Hd; intros [= <-]; by left].
    repeat case_if; cbn; try (rewrite Hd; intros [= <-]; by left).
    destruct (decide (t0 = t)) as [->|Hne].
    + rewrite lookup_insert_eq. intros [= <-]. right. by simplify_eq.
    + rewrite lookup_insert_ne by done. rewrite Hd. intros [= <-]. by left.
Qed.

Lemma later_catalog s s' t d :
  later s s' -> shard_ok s -> cat_aggregate_types (catalog_of s) !! t = Some d ->
  exists d', cat_aggregate_types (catalog_of s') !! t = Some d' /\ definition_later d d' /\
    td_placements d' = td_placements d.
Proof.
  intros Hl. revert d. induction Hl as [s|s s1 s2 (req & Hreq & ->) _ IH]; intros d Hwf Hd; [by exists d|].
  assert (Hwf1 : shard_ok (shard_step s req).1) by (by eapply step_ok; [|apply surjective_pairing|]).
  assert (Hone : exists d1, cat_aggregate_types (catalog_of (shard_step s req).1) !! t = Some d1 /\
            definition_later d d1 /\ td_placements d1 = td_placements d).
  { destruct (step_catalog_of s req) as [->|(cmd & -> & ->)]; [by exists d|].
    destruct (catalog_apply_later (catalog_of s) cmd t d) as (d1 & Hd1 & Hl1); [apply sw_catalog, Hwf|done|].
    exists d1. split_ands; [done|done|]. eapply catalog_apply_placements; [|exact Hd|exact Hd1].
    destruct Hreq as [_ Hreq]. by destruct cmd. }
  destruct Hone as (d1 & Hd1 & Hl1 & Hp1). destruct (IH d1 Hwf1 Hd1) as (d2 & Hd2 & Hl2 & Hp2).
  exists d2. split_ands; [done|by eapply definition_later_trans|congruence].
Qed.

(** *** Fences *)

Lemma proto_type_round_trip ty ty' :
  proto_aggregate_type (Some (aggregate_type_to_proto ty)) = Ok ty' -> ty' = ty.
Proof.
  unfold proto_aggregate_type. intros (r & [= <-] & Ht)%bind_Ok_inv. apply map_err_Ok in Ht.
  apply type_id_new_Ok in Ht as [-> _].
  by destruct ty.
Qed.

(** The fence is at least at the generation asked for. *)
Lemma fence_applied s ty p g r g' w w' :
  applied s (InstallAggregatePartitionFence ty p g) r w w' -> shard_ok (shard_of w s) -> (p <= u16_max)%N ->
  map_fence_response r = Ok g' -> (g <= fence_of (shard_of w' s) ty p)%N.
Proof.
  intros (s1 & s2 & Hl1 & Hs & Hl2) Hwf Hp Hr.
  pose proof (step_ok _ (InstallAggregatePartitionFence ty p g) _ _ (conj Hp I) Hs (later_ok _ _ Hl1 Hwf)) as Hwf2.
  cbn [shard_step] in Hs. unfold step_fence in Hs.
  pose proof (sg_fences _ _ (later_grows _ _ Hl2 Hwf2) ty p) as Hg.
  enough (g <= fence_of s2 ty p)%N by lia.
  destruct (type_id_validate ty); [|injection Hs as <- <-; discriminate Hr].
  destruct (g =? 0)%N; [injection Hs as <- <-; discriminate Hr|]. injection Hs as <- <-.
  destruct (N.max (fence_of s1 ty p) g =? fence_of s1 ty p)%N eqn:E; bool_facts; [lia|].
  assert (Hw : forall x, fence_of (with_fence (ty, p) x s1) ty p = x)
    by (intros x; unfold fence_of; cbn; by rewrite lookup_insert_eq).
  rewrite Hw. lia.
Qed.

Lemma moving_fence_internal n s ty p g : moving (install_aggregate_partition_fence_internal n s ty p g).
Proof.
  unfold install_aggregate_partition_fence_internal. apply moving_bind; [moving|]. intros ty'.
  intros w w' r Hw. unfold mbind at 1, act_bind at 1, lift at 1.
  destruct (p <=? u16_max)%N eqn:Ep; bool_facts; [|intros [= <- _]; by apply moves_refl].
  assert (Hmv : moving (_ ← local_leader n s;
                        response ← write n s (InstallAggregatePartitionFence ty' p g);
                        lift (map_fence_response response))) by (by moving).
  by apply Hmv.
Qed.

Lemma moving_install_fence n ty p s g : (p <= u16_max)%N -> moving (install_partition_fence n ty p s g).
Proof. intros Hp. unfold install_partition_fence. moving; [done|apply moving_fence_internal]. Qed.

Lemma install_fence_Ok n ty p s g w w' g' :
  world_ok w -> (p <= u16_max)%N -> install_partition_fence n ty p s g w = (w', Ok g') ->
  moves w w' /\ (g <= fence_of (shard_of w' s) ty p)%N.
Proof.
  intros Hw Hp Hf. split; [by eapply moving_install_fence|]. unfold install_partition_fence in Hf.
  apply if_local_leader_Ok in Hf as (w1 & Hm1 & [[Hf _]|Hf]); [| |done].
  - apply act_bind_Ok in Hf as (w2 & r & Hwr & [-> Hr]%lift_Ok).
    apply write_Ok in Hwr as [_ Hap]; [|apply Hm1|done]. eapply fence_applied; [exact Hap| |done|exact Hr].
    apply shard_of_ok, Hm1.
  - apply act_bind_Ok in Hf as (w2 & tp & Hsn%effect_Ok & Hf). apply snapshot_Ok in Hsn as [Hm2 _]; [|apply Hm1].
    apply act_bind_Ok in Hf as (w3 & peer & Hcl & Hf). pose proof (moving_client _ _ _ _ _ _ (proj1 Hm2) Hcl) as Hm3.
    apply call_Ok in Hf as (w4 & w5 & Hm4 & Hs & _ & Hm5); [|apply Hm3|apply moving_fence_internal].
    unfold install_aggregate_partition_fence_internal in Hs.
    apply act_bind_Ok in Hs as (w6 & ty' & [-> ->%proto_type_round_trip]%lift_Ok & Hs).
    apply act_bind_Ok in Hs as (w6 & [] & [-> _]%lift_Ok & Hs).
    apply act_bind_Ok in Hs as (w6 & [] & Hl & Hs). pose proof (moving_local_leader _ _ _ _ _ (proj1 Hm4) Hl) as Hm6.
    apply act_bind_Ok in Hs as (w7 & r & Hwr & [-> Hr]%lift_Ok).
    apply write_Ok in Hwr as [Hm7 Hap]; [|apply Hm6|done].
    eapply fence_applied; [|apply shard_of_ok, Hm6|done|exact Hr].
    eapply applied_extend; [apply moves_refl, Hm6|exact Hap|exact Hm5].
Qed.

(** *** Registration *)

Lemma step_catalog_apply s cmd s' a :
  shard_step s (CommitAggregateCatalog cmd) = (s', AggregateCatalogApplied a) ->
  catalog_apply (catalog_of s) cmd = (catalog_of s', a).
Proof.
  cbn [shard_step]. unfold step_catalog. fold (catalog_of s).
  destruct (catalog_apply (catalog_of s) cmd) as [c r] eqn:Ha. intros [= <- <-]. f_equal.
  destruct (is_changed (ca_outcome r)) eqn:Hc; [done|].
  apply catalog_apply_cases in Ha as [(-> & _ & _)|(d & _ & [= _ Ho] & _)]; [done|].
  rewrite Ho in Hc. discriminate Hc.
Qed.

(** The definition [Create] and [Activate] answer with is the one in the catalog. *)
Lemma create_answer c t op seed pls c' a d b :
  catalog_apply c (CmdCreate t op seed pls) = (c', a) -> ca_outcome a = OutType d b ->
  cat_aggregate_types c' !! t = Some d /\ td_create_operation_id d = op.
Proof.
  unfold catalog_apply, catalog_create. destruct (type_id_validate t) as [[]|]; [|by intros [= _ <-]].
  destruct (cat_aggregate_types c !! t) as [ex|] eqn:Hex.
  - case_if; intros [= <- <-]; [|done]. cbn. intros [= <- _]. bool_facts. done.
  - destruct (definition_create t op seed pls) as [d0|] eqn:Hd; intros [= <- <-]; [|done]. cbn. intros [= <- _].
    rewrite lookup_insert_eq. split; [done|]. unfold definition_create in Hd. case_match; [discriminate|].
    by injection Hd as <-.
Qed.

Lemma activate_answer c t op c' a d b :
  catalog_apply c (CmdActivate t op) = (c', a) -> ca_outcome a = OutType d b ->
  cat_aggregate_types c' !! t = Some d /\ td_create_operation_id d = op /\ td_status d = Active.
Proof.
  unfold catalog_apply, catalog_activate. destruct (cat_aggregate_types c !! t) as [ex|] eqn:Hex; [|by intros [= _ <-]].
  case_if; [by intros [= _ <-]|]. case_if; intros [= <- <-]; cbn; intros [= <- _]; bool_facts.
  - done.
  - by rewrite lookup_insert_eq.
Qed.

Lemma catalog_definition_wf s t d :
  shard_ok s -> cat_aggregate_types (catalog_of s) !! t = Some d -> definition_wf t d.
Proof. intros Hwf Hd. by apply (sw_catalog _ (proj1 Hwf)). Qed.

Lemma definition_placement_generation t d p pl :
  definition_wf t d -> td_placements d !! p = Some pl -> (1 <= pl_generation pl)%N.
Proof. intros (_ & _ & _ & _ & Hall) Hpl. apply (Hall p pl Hpl). Qed.

(** The fences the loop installs stay. *)
Lemma install_loop n ty l w w' :
  world_ok w -> Forall (fun ppl : N * PartitionPlacement => (ppl.1 <= u16_max)%N) l ->
  for_each l (fun '(p, pl) =>
    _ ← install_partition_fence n ty p (pl_shard_id pl) (pl_generation pl); mret tt) w = (w', Ok tt) ->
  moves w w' /\ forall p pl, (p, pl) ∈ l -> (pl_generation pl <= fence_of (shard_of w' (pl_shard_id pl)) ty p)%N.
Proof.
  intros Hw Hl. revert w Hw. induction Hl as [|[p pl] l Hp _ IH]; intros w Hw; cbn [for_each].
  { intros [= <-]. split; [by apply moves_refl|]. intros p pl Hin. inversion Hin. }
  intros (w1 & [] & Hb & Hf)%act_bind_Ok. apply act_bind_Ok in Hb as (w2 & g & Hi & [= ->]).
  apply install_fence_Ok in Hi as [Hm Hg]; [|done|done].
  destruct (IH w1 (proj1 Hm) Hf) as [Hm2 Hall]. split; [by eapply moves_trans|].
  intros p' pl' [[= -> ->]|Hin]%elem_of_cons; [|by apply Hall].
  pose proof (sg_fences _ _ (later_grows _ _ (proj2 Hm2 (pl_shard_id pl)) (shard_of_ok _ _ (proj1 Hm))) ty p). lia.
Qed.

(** C23: a registration that succeeds leaves the type usable. The type is in the
    catalog of the control shard, active, under the caller's operation, with a
    placement for each of its partitions; and on the shard of every placement the
    fence of the partition has reached the placement's generation, which is at
    least 1. A partition that was never fenced is at 0 and refuses every write, so
    it is the registration that opens the partitions. *)
Theorem register_leaves_type_active (n : N) (tyref : option PbTypeRef) (operation_id : Bytes) (w w' : world)
  (info : PbTypeInfo) (Hw : world_ok w)
  (Hreg : register_aggregate_type n tyref operation_id w = (w', Ok info)) :
  exists ty op d, proto_aggregate_type tyref = Ok ty /\ uuid_from_slice operation_id = Some op /\
    ti_active info = true /\ ti_aggregate_type info = aggregate_type_to_proto ty /\
    cat_aggregate_types (catalog_of (shard_of w' (control n))) !! ty = Some d /\
    td_status d = Active /\ td_create_operation_id d = op /\
    forall p, (p < EVENT_PARTITION_COUNT)%N -> exists pl, td_placements d !! p = Some pl /\
      (1 <= pl_generation pl <= fence_of (shard_of w' (pl_shard_id pl)) ty p)%N.
Proof.
  unfold register_aggregate_type in Hreg.
  apply act_bind_Ok in Hreg as (w0 & ty & [-> Hty]%handler_Ok%lift_Ok & Hreg).
  apply act_bind_Ok in Hreg as (w0 & op & [-> Hop%ok_or_Ok]%handler_Ok%lift_Ok & Hreg).
  apply act_bind_Ok in Hreg as (w1 & tp & Hsn%effect_Ok & Hreg). apply snapshot_Ok in Hsn as [Hm1 _]; [|done].
  apply act_bind_Ok in Hreg as (w2 & pls & [-> _]%or_panic_Ok & Hreg%handler_Ok).
  apply act_bind_Ok in Hreg as (w2 & created & Hcr & Hreg).
  apply commit_catalog_applied in Hcr as [Hm2 (s1 & s2 & Hl1 & Hs & Hl2)]; [|apply Hm1|done].
  apply act_bind_Ok in Hreg as (w3 & d0 & [-> Hd0]%lift_Ok & Hreg).
  apply act_bind_Ok in Hreg as (w3 & [] & Hloop & Hreg).
  apply act_bind_Ok in Hreg as (w4 & activated & Hact & [-> Hinfo]%lift_Ok).
  unfold created_definition in Hd0. destruct (ca_outcome created) as [d0' b| | |] eqn:Ho; [|discriminate..].
  injection Hd0 as ->. apply step_catalog_apply in Hs as Hca.
  destruct (create_answer _ _ _ _ _ _ _ _ _ Hca Ho) as [Hin0 _].
  pose proof (step_ok _ (CommitAggregateCatalog (CmdCreate ty op (uuid_bytes op) pls)) _ _ (conj I I) Hs
    (later_ok _ _ Hl1 (shard_of_ok _ _ (proj1 Hm1)))) as Hwf2.
  pose proof (catalog_definition_wf _ _ _ Hwf2 Hin0) as (Hid & _ & _ & Hdom & _). rewrite Hid in Hloop.
  apply install_loop in Hloop as [Hm3 Hfences]; [|apply Hm2|].
  2: { apply Forall_forall. intros [p pl] Hp%elem_of_btree_iter. assert (Hlt : (p < EVENT_PARTITION_COUNT)%N)
         by (apply Hdom; by eexists). cbn [fst]. unfold EVENT_PARTITION_COUNT in Hlt. lia. }
  apply commit_catalog_applied in Hact as [Hm4 (s3 & s4 & Hl3 & Hs4 & Hl4)]; [|apply Hm3|done].
  unfold activated_info in Hinfo. destruct (ca_outcome activated) as [d1 b1| | |] eqn:Ho1; [|discriminate..].
  injection Hinfo as <-. apply step_catalog_apply in Hs4 as Hca4.
  destruct (activate_answer _ _ _ _ _ _ _ Hca4 Ho1) as (Hin1 & Hop1 & Hst1).
  assert (Hl24 : later s2 s4).
  { etrans; [exact Hl2|]. etrans; [apply Hm3|]. etrans; [exact Hl3|]. by eapply tick_step; [|exact Hs4]. }
  destruct (later_catalog _ _ _ _ Hl24 Hwf2 Hin0) as (d1' & Hd1 & Hlater1 & Hpl1).
  rewrite Hin1 in Hd1. injection Hd1 as <-. pose proof (later_ok _ _ Hl24 Hwf2) as Hwf4.
  pose proof (catalog_definition_wf _ _ _ Hwf4 Hin1) as (Hid1 & _).
  destruct (later_catalog _ _ _ _ Hl4 Hwf4 Hin1) as (d & Hd & Hlater & Hpl4).
  pose proof Hlater as (Hop' & _ & _ & _ & _ & Hst & _).
  exists ty, op, d. split_ands; try done.
  - cbn. by rewrite Hst1.
  - cbn. by rewrite Hid1.
  - by apply Hst.
  - congruence.
  - intros p Hp. apply Hdom in Hp as [pl Hpl].
    exists pl. split; [congruence|].
    pose proof (definition_placement_generation _ _ _ _ (catalog_definition_wf _ _ _ Hwf2 Hin0) Hpl).
    pose proof (Hfences p pl (proj2 (elem_of_btree_iter _ _ _) Hpl)) as Hf.
    pose proof (sg_fences _ _ (later_grows _ _ (proj2 Hm4 (pl_shard_id pl)) (shard_of_ok _ _ (proj1 Hm3))) ty p). lia.
Qed.

(** *** Appending *)

Lemma uuid_from_slice_u128 b u : uuid_from_slice b = Some u -> (u <= u128_max)%N.
Proof.
  unfold uuid_from_slice. destruct (len b =? 16)%N eqn:E; [|done]. bool_facts. intros [= <-].
  pose proof (be_value_bound b) as Hb. rewrite E in Hb. change (256 ^ 16)%N with (u128_max + 1)%N in Hb. lia.
Qed.

Lemma partition_for_lt t d id p : definition_wf t d -> partition_for d id = Ok p -> (p < EVENT_PARTITION_COUNT)%N.
Proof.
  intros (_ & _ & Hc & _) Hp. unfold partition_for in Hp. rewrite Hc in Hp.
  pose proof (partition_in_range (td_hash_algorithm d) (td_seed d) id EVENT_PARTITION_COUNT ltac:(done)) as Hr.
  rewrite Hp in Hr. apply Hr.
Qed.

(** An active definition of the catalog. *)
Definition active_in (ty : AggregateTypeId) (d : AggregateTypeDefinition) (sh : shard) : Prop :=
  cat_aggregate_types (catalog_of sh) !! ty = Some d /\ td_status d = Active.

Lemma require_active_Ok n ty w w' d :
  world_ok w -> require_active_aggregate_type n ty w = (w', Ok d) ->
  moves w w' /\ exists sh, past (control n) w' sh /\ active_in ty d sh /\ definition_wf ty d.
Proof.
  intros Hw Hr. split; [by eapply moving_require_active|]. unfold require_active_aggregate_type in Hr.
  apply act_bind_Ok in Hr as (w1 & c & Hf & Hr). apply fetch_catalog_past in Hf as [_ (sh & Hp & ->)]; [|done].
  apply act_bind_Ok in Hr as (w2 & d' & [-> Hd%ok_or_Ok]%lift_Ok & [-> Hr]%lift_Ok).
  destruct (bool_decide (td_status d' = Active)) eqn:E; [|discriminate]. injection Hr as <-. bool_facts.
  exists sh. split_ands; [done|done|]. eapply catalog_definition_wf; [apply Hp|exact Hd].
Qed.

Lemma moving_append_once n t d id expected event :
  definition_wf t d -> (ne_event_id event <= u128_max)%N -> moving (append_once n d id expected event).
Proof.
  intros Hd He w w' r Hw. unfold append_once, mbind at 1, act_bind at 1, lift at 1.
  destruct (partition_for d id) as [p|e] eqn:Hp; cbn [map_err]; [|intros [= <- _]; by apply moves_refl].
  apply (partition_for_lt t) in Hp; [|done]. revert w w' r Hw.
  match goal with |- forall w w' r, _ -> ?m w = _ -> _ => change (moving m) end.
  moving. unfold EVENT_PARTITION_COUNT in Hp. split; [split; [lia|done]|done].
Qed.

Lemma append_once_Ok n t d id expected event w w' v :
  world_ok w -> definition_wf t d -> (ne_event_id event <= u128_max)%N ->
  append_once n d id expected event w = (w', Ok v) ->
  exists p pl hlc q, partition_for d id = Ok p /\ td_placements d !! p = Some pl /\
    applied (pl_shard_id pl) (AggregateAppend t p (pl_generation pl) id expected event hlc)
      (AggregateAppendOk v q) w w' /\ (p <= u16_max)%N.
Proof.
  intros Hw Hd He Ha. pose proof Hd as (Hid & _). unfold append_once in Ha. rewrite Hid in Ha.
  apply act_bind_Ok in Ha as (w1 & p & [-> Hp%map_err_Ok]%lift_Ok & Ha).
  apply act_bind_Ok in Ha as (w1 & pl & [-> Hpl%ok_or_Ok]%lift_Ok & Ha).
  apply act_bind_Ok in Ha as (w1 & [] & Hl & Ha). pose proof (moving_local_leader _ _ _ _ _ Hw Hl) as Hm1.
  apply act_bind_Ok in Ha as (w2 & hlc & Hh & Ha). pose proof (moving_hlc_now _ _ _ _ (proj1 Hm1) Hh) as Hm2.
  apply act_bind_Ok in Ha as (w3 & r & Hwr & [-> Hr]%lift_Ok).
  pose proof (partition_for_lt _ _ _ _ Hd Hp) as Hlt. unfold EVENT_PARTITION_COUNT in Hlt.
  apply write_Ok in Hwr as [Hm3 Hap]; [|apply Hm2|split; [split; [lia|done]|done]].
  destruct r; try discriminate Hr. injection Hr as ->. do 4 eexists. split_ands; [exact Hp|exact Hpl| |lia].
  eapply applied_extend; [|exact Hap|apply moves_refl, Hm3]. by eapply moves_trans.
Qed.

(** The routing of an instance does not change while its type lives on. *)
Lemma partition_for_later d d' id : definition_later d d' -> partition_for d' id = partition_for d id.
Proof. intros (_ & _ & Hs & Hc & Hh & _). unfold partition_for. by rewrite Hs, Hc, Hh. Qed.

(** The event of an accepted append, from then on. *)
Lemma append_applied s t p g id expected event hlc v q w w' :
  applied s (AggregateAppend t p g id expected event hlc) (AggregateAppendOk v q) w w' ->
  shard_ok (shard_of w s) -> (p <= u16_max)%N -> (ne_event_id event <= u128_max)%N ->
  shard_ok (shard_of w' s) /\
  s_idem (shard_of w' s) !! (t, p, ne_event_id event) =
    Some (mkIdem (aggregate_append_fingerprint t id expected event) (mkAppendResult v q)).
Proof.
  intros (s1 & s2 & Hl1 & Hs & Hl2) Hwf Hp Hu.
  pose proof (step_ok _ (AggregateAppend t p g id expected event hlc) _ _ (conj (conj Hp Hu) I) Hs
    (later_ok _ _ Hl1 Hwf)) as Hwf2.
  split; [by eapply later_ok|]. cbn [shard_step] in Hs.
  apply step_append_accepted in Hs as (_ & _ & _ & Hi).
  eapply lookup_weaken; [exact Hi|]. by apply sg_idem, later_grows.
Qed.

(** An event identifier is stored at most once in a partition. *)
Lemma event_id_unique s t p id1 v1 e1 id2 v2 e2 :
  shard_wf s -> s_events s !! (t, p, id1, v1) = Some e1 -> s_events s !! (t, p, id2, v2) = Some e2 ->
  ev_event_id e1 = ev_event_id e2 -> id1 = id2 /\ v1 = v2 /\ e1 = e2.
Proof.
  intros Hwf He1 He2 Heq.
  destruct (sw_events _ Hwf _ _ _ _ _ He1) as (_ & Hi1 & r1 & Hr1 & Hv1).
  destruct (sw_events _ Hwf _ _ _ _ _ He2) as (_ & Hi2 & r2 & Hr2 & Hv2).
  rewrite Heq in Hr1. rewrite Hr1 in Hr2. injection Hr2 as <-. rewrite Hv1 in Hv2. injection Hv2 as <- Hpos.
  rewrite Hpos, Hi2 in Hi1. injection Hi1 as <-. split_ands; [done|done|congruence].
Qed.

(** The content of a stored event is not that of the request, and yet XXH3 gives
    the same 128-bit fingerprint for it: what makes the state machine take the
    request for a repetition of the one that stored the event. *)
Definition fingerprint_collision (ty : AggregateTypeId) (e : AggregateEvent) (id : string)
    (expected : ExpectedAggregateVersion) (event : NewAggregateEvent) : Prop :=
  exists expected0, (ev_aggregate_id e, expected0, new_event_of e) <> (id, expected, event) /\
    aggregate_append_fingerprint ty (ev_aggregate_id e) expected0 (new_event_of e) =
    aggregate_append_fingerprint ty id expected event.

(** The stored event is the one of the request, on the instance of the request and
    at a version the request expected. *)
Definition stored_as_requested (ty : AggregateTypeId) (e : AggregateEvent) (id : string)
    (expected : ExpectedAggregateVersion) (event : NewAggregateEvent) : Prop :=
  ev_aggregate_id e = id /\ new_event_of e = event /\ version_expected expected (ev_aggregate_version e) \/
  fingerprint_collision ty e id expected event.

(** The result of one append, on the shard that has the partition of the instance
    under the definition [d]. *)
Definition recorded (ty : AggregateTypeId) (id : string) (expected : ExpectedAggregateVersion)
    (event : NewAggregateEvent) (v : N) (d : AggregateTypeDefinition) (w : world) : Prop :=
  exists p pl e, partition_for d id = Ok p /\ td_placements d !! p = Some pl /\
    s_events (shard_of w (pl_shard_id pl)) !! (ty, p, ev_aggregate_id e, v) = Some e /\
    ev_event_id e = ne_event_id event /\ stored_as_requested ty e id expected event /\
    s_idem (shard_of w (pl_shard_id pl)) !! (ty, p, ne_event_id event) =
      Some (mkIdem (aggregate_append_fingerprint ty id expected event) (mkAppendResult v (ev_partition_position e))) /\
    forall id2 v2 e2, s_events (shard_of w (pl_shard_id pl)) !! (ty, p, id2, v2) = Some e2 ->
      ev_event_id e2 = ne_event_id event -> id2 = ev_aggregate_id e /\ v2 = v.

Lemma stored_as_requested_intro ty e id expected event expected0 :
  aggregate_append_fingerprint ty id expected event =
    aggregate_append_fingerprint ty (ev_aggregate_id e) expected0 (new_event_of e) ->
  version_expected expected0 (ev_aggregate_version e) -> stored_as_requested ty e id expected event.
Proof.
  intros Hf Hv. destruct (decide ((ev_aggregate_id e, expected0, new_event_of e) = (id, expected, event))) as [[= <- <- <-]|Hne].
  - by left.
  - right. by exists expected0.
Qed.

(** What an idempotency record of a request says about the shard. *)
Lemma record_recorded ty id expected event v q d w p pl :
  world_ok w -> partition_for d id = Ok p -> td_placements d !! p = Some pl ->
  s_idem (shard_of w (pl_shard_id pl)) !! (ty, p, ne_event_id event) =
    Some (mkIdem (aggregate_append_fingerprint ty id expected event) (mkAppendResult v q)) ->
  recorded ty id expected event v d w.
Proof.
  intros Hw Hp Hpl Hi. destruct (shard_of_ok w (pl_shard_id pl) Hw) as (Hwf & _ & Hf).
  destruct (Hf _ _ _ _ Hi) as (id0 & ex0 & e & He & <- & Hu & Hq & Hfp & Hv). cbn in He, Hq, Hfp, Hv. subst q.
  destruct (sw_events _ Hwf _ _ _ _ _ He) as ((_ & _ & _ & Hve) & _).
  exists p, pl, e. split_ands; [done|done|done|done| |done|].
  - eapply stored_as_requested_intro; [exact Hfp|by rewrite Hve].
  - intros id2 v2 e2 He2 Hid2. destruct (event_id_unique _ _ _ _ _ _ _ _ _ Hwf He2 He) as (? & ? & _); [congruence|done].
Qed.

(** What is recorded stays, and so does the record that answers a repetition. *)
Lemma recorded_moves ty id expected event v d w w' :
  moves w w' -> world_ok w -> recorded ty id expected event v d w -> recorded ty id expected event v d w'.
Proof.
  intros [Hw' Hl] Hw (p & pl & e & Hp & Hpl & _ & _ & _ & Hi & _). eapply record_recorded; [done..|].
  eapply lookup_weaken; [exact Hi|]. eapply later_grows; [apply Hl|by apply shard_of_ok].
Qed.

(** One request has one version. *)
Lemma recorded_version ty id expected event v1 v2 d1 d2 w :
  definition_later d1 d2 -> td_placements d2 = td_placements d1 ->
  recorded ty id expected event v1 d1 w -> recorded ty id expected event v2 d2 w -> v1 = v2.
Proof.
  intros Hl Hpls (p1 & pl1 & e1 & Hp1 & Hpl1 & _ & _ & _ & Hi1 & _) (p2 & pl2 & e2 & Hp2 & Hpl2 & _ & _ & _ & Hi2 & _).
  rewrite (partition_for_later _ _ _ Hl), Hp1 in Hp2. injection Hp2 as <-.
  rewrite Hpls, Hpl1 in Hpl2. injection Hpl2 as <-. congruence.
Qed.

Lemma append_once_recorded n ty d id expected event w w' v :
  world_ok w -> definition_wf ty d -> (ne_event_id event <= u128_max)%N ->
  append_once n d id expected event w = (w', Ok v) -> recorded ty id expected event v d w'.
Proof.
  intros Hw Hd He Ha. pose proof (moving_append_once n ty d _ _ _ Hd He _ _ _ Hw Ha) as Hm.
  apply (append_once_Ok n ty) in Ha as (p & pl & hlc & q & Hp & Hpl & Hap & Hp16); [|done..].
  apply append_applied in Hap as [_ Hi]; [|by apply shard_of_ok|done|done].
  eapply record_recorded; [apply Hm|done..].
Qed.

Lemma append_input_event n q ty expected event :
  append_input n q = Ok (ty, expected, event) -> (ne_event_id event <= u128_max)%N.
Proof.
  unfold append_input. intros (t & _ & Hr)%bind_Ok_inv. apply bind_Ok_inv in Hr as (? & _ & Hr).
  apply bind_Ok_inv in Hr as (e & _ & Hr). apply bind_Ok_inv in Hr as (? & _ & Hr).
  apply bind_Ok_inv in Hr as (u & Hu%ok_or_Ok & Hr). apply bind_Ok_inv in Hr as (? & _ & Hr).
  injection Hr as _ _ <-. by eapply uuid_from_slice_u128.
Qed.

Lemma moving_append n q : moving (append_aggregate_event n q).
Proof.
  intros w w' r Hw. unfold append_aggregate_event, mbind at 1, act_bind at 1, lift at 1.
  destruct (append_input n q) as [[[ty ex] ev]|e] eqn:Hin; [|intros [= <- _]; by apply moves_refl].
  apply append_input_event in Hin. unfold mbind at 1, act_bind at 1.
  destruct (require_active_aggregate_type n ty w) as [w1 [d|e]] eqn:Hr.
  2: { intros [= <- _]. by eapply moving_require_active. }
  apply require_active_Ok in Hr as (Hm1 & sh & _ & _ & Hd); [|done]. unfold retry_when.
  destruct (append_once n d _ ex ev w1) as [w2 [v|st]] eqn:Ha;
    pose proof (moving_append_once _ _ _ _ _ _ Hd Hin _ _ _ (proj1 Hm1) Ha) as Hm2.
  { intros [= <- _]. by eapply moves_trans. }
  pose proof (moves_trans _ _ _ Hm1 Hm2) as Hm. destruct (is_fenced st); [|by intros [= <- _]].
  unfold mbind at 1, act_bind at 1. destruct (require_active_aggregate_type n ty w2) as [w3 [d2|e]] eqn:Hr2.
  - apply require_active_Ok in Hr2 as (Hm3 & sh2 & _ & _ & Hd2); [|apply Hm]. intros Ha2.
    eapply moves_trans; [exact (moves_trans _ _ _ Hm Hm3)|]. eapply moving_append_once; [exact Hd2|exact Hin|apply Hm3|exact Ha2].
  - intros [= <- _]. eapply moves_trans; [exact Hm|]. eapply moving_require_active; [apply Hm|exact Hr2].
Qed.

(** What an acknowledged append leaves behind. *)
Lemma append_recorded (n : N) (q : AppendRequest) (w w' : world) (v : N) (Hw : world_ok w)
  (Happ : append_aggregate_event n q w = (w', Ok v)) :
  exists ty expected event d, append_input n q = Ok (ty, expected, event) /\
    active_in ty d (shard_of w' (control n)) /\
    recorded ty (aq_aggregate_id q) expected event v d w'.
Proof.
  unfold append_aggregate_event in Happ.
  apply act_bind_Ok in Happ as (w0 & [[ty expected] event] & [-> Hin]%lift_Ok & Happ). cbn beta iota in Happ.
  pose proof (append_input_event _ _ _ _ _ Hin) as Hu.
  apply act_bind_Ok in Happ as (w1 & d & Hra & Happ). apply require_active_Ok in Hra as [Hm1 Hd]; [|done].
  assert (Hdone : forall w2 d2, moves w w2 -> (exists sh, past (control n) w2 sh /\ active_in ty d2 sh /\ definition_wf ty d2) ->
            append_once n d2 (aq_aggregate_id q) expected event w2 = (w', Ok v) ->
            exists d', active_in ty d' (shard_of w' (control n)) /\ recorded ty (aq_aggregate_id q) expected event v d' w').
  { intros w2 d2 Hm2 (sh & Hp & [Hact Hst] & Hwf) Ha.
    pose proof (moving_append_once n ty d2 _ _ _ Hwf Hu _ _ _ (proj1 Hm2) Ha) as Hm3.
    pose proof (past_extend _ _ _ _ Hp Hm3) as [Hshwf Hl].
    destruct (later_catalog _ _ _ _ Hl Hshwf Hact) as (d' & Hd' & Hlater & Hpls). exists d'. split.
    - split; [done|]. pose proof Hlater as (_ & _ & _ & _ & _ & Hs & _). auto.
    - apply append_once_recorded with (ty := ty) in Ha; [|apply Hm2|done|done].
      unfold recorded. by rewrite (partition_for_later _ _ _ Hlater), Hpls. }
  unfold retry_when in Happ. destruct (append_once n d _ _ _ w1) as [w2 [v1|st]] eqn:Ha1.
  - injection Happ as -> ->. destruct (Hdone _ _ Hm1 Hd Ha1) as (d' & ? & ?). by exists ty, expected, event, d'.
  - destruct (is_fenced st); [|discriminate]. destruct Hd as (sh & _ & _ & Hwf).
    pose proof (moving_append_once n ty d _ _ _ Hwf Hu _ _ _ (proj1 Hm1) Ha1) as Hm2.
    apply act_bind_Ok in Happ as (w3 & d2 & Hra2 & Happ). apply require_active_Ok in Hra2 as [Hm3 Hd2]; [|apply Hm2].
    destruct (Hdone w3 d2) as (d' & ? & ?); [|done|done|by exists ty, expected, event, d'].
    eapply moves_trans; [exact Hm1|]. by eapply moves_trans.
Qed.

(** Nodes differ in the size they allow, not in what they read from a request. *)
Lemma append_input_node n m q x y : append_input n q = Ok x -> append_input m q = Ok y -> x = y.
Proof.
  unfold append_input. intros (t & Ht & Hx)%bind_Ok_inv (t' & Ht' & Hy)%bind_Ok_inv.
  apply bind_Ok_inv in Hx as ([] & _ & Hx). apply bind_Ok_inv in Hy as ([] & _ & Hy).
  apply bind_Ok_inv in Hx as (e & He & Hx). apply bind_Ok_inv in Hy as (e' & He' & Hy).
  apply bind_Ok_inv in Hx as ([] & _ & Hx). apply bind_Ok_inv in Hy as ([] & _ & Hy).
  rewrite Ht in Ht'. injection Ht' as <-. rewrite He in He'. injection He' as <-. congruence.
Qed.

(** The same request, acknowledged again. *)
Lemma append_repeated n m q ty expected event v v' d w w1 w2 :
  world_ok w -> append_input n q = Ok (ty, expected, event) -> active_in ty d (shard_of w (control n)) ->
  recorded ty (aq_aggregate_id q) expected event v d w -> control m = control n -> moves w w1 ->
  append_aggregate_event m q w1 = (w2, Ok v') ->
  v' = v /\ recorded ty (aq_aggregate_id q) expected event v d w2.
Proof.
  intros Hw Hin [Hact _] Hrec Hctl Hm Happ.
  pose proof (moves_trans _ _ _ Hm (moving_append m _ _ _ _ (proj1 Hm) Happ)) as Hm2.
  pose proof (recorded_moves _ _ _ _ _ _ _ _ Hm2 Hw Hrec) as Hrec2. split; [|done].
  apply append_recorded in Happ as (ty' & ex' & ev' & d' & Hin' & [Hact' _] & Hrec'); [|apply Hm].
  pose proof (append_input_node _ _ _ _ _ Hin Hin') as [= <- <- <-]. rewrite Hctl in Hact'.
  destruct (later_catalog _ _ _ _ (proj2 Hm2 (control n)) (shard_of_ok _ _ Hw) Hact) as (d2 & Hd2 & Hl & Hpls).
  rewrite Hact' in Hd2. injection Hd2 as <-. symmetry. by eapply recorded_version.
Qed.


(** *** State documents *)

Lemma routed ty d id p :
  definition_wf ty d -> partition_for d id = Ok p ->
  (p <= u16_max)%N /\ partition_key_wf ty p /\ name_wf id /\ is_Some (td_placements d !! p).
Proof.
  intros Hd Hp. pose proof (partition_for_lt _ _ _ _ Hd Hp) as Hlt.
  pose proof Hd as (_ & Hty & Hc & Hdom & _). unfold partition_for in Hp. rewrite Hc in Hp.
  pose proof (partition_in_range (td_hash_algorithm d) (td_seed d) id EVENT_PARTITION_COUNT ltac:(done)) as Hr.
  rewrite Hp in Hr. destruct Hr as [Hid _]. unfold EVENT_PARTITION_COUNT in Hlt.
  split_ands; [lia|split; [done|lia]| |by apply Hdom].
  unfold name_wf. pose proof (identifier_ok_len _ Hid). lia.
Qed.

(** A state document is replaced only by the writer that has seen it. When
    [put_aggregate_state] answers with a revision, then at one moment of the call
    the shard of the instance held the expected revision (or no document, if
    none was expected) under the generation of the placement used; the document
    was replaced by the caller's data at the next revision, and the time
    answered is that of the write. *)
Lemma put_state_replaced (n : N) (q : PutStateRequest) (w w' : world) (revision millis : N)
  (Hw : world_ok w) (Hput : put_aggregate_state n q w = (w', Ok (revision, millis))) :
  exists ty expected d p pl sh1 sh2 hlc,
    proto_aggregate_type (pq_aggregate_type q) = Ok ty /\
    proto_expected_state_revision (pq_expected_revision q) = Ok expected /\
    (exists sh, past (control n) w' sh /\ active_in ty d sh) /\
    partition_for d (pq_aggregate_id q) = Ok p /\ td_placements d !! p = Some pl /\
    later (shard_of w (pl_shard_id pl)) sh1 /\ later sh2 (shard_of w' (pl_shard_id pl)) /\
    fence_of sh1 ty p = pl_generation pl /\
    state_matches expected (s_states sh1 !! (ty, p, pq_aggregate_id q)) = true /\
    revision = match s_states sh1 !! (ty, p, pq_aggregate_id q) with None => 0 | Some st => st_revision st + 1 end%N /\
    s_states sh2 = <[(ty, p, pq_aggregate_id q) := mkState revision (pq_data q)]> (s_states sh1) /\
    millis = wall hlc.
Proof.
  unfold put_aggregate_state in Hput.
  apply act_bind_Ok in Hput as (w0 & [] & [-> _]%handler_Ok%lift_Ok & Hput).
  apply act_bind_Ok in Hput as (w0 & ty & [-> Hty]%handler_Ok%lift_Ok & Hput).
  apply act_bind_Ok in Hput as (w0 & expected & [-> Hex]%handler_Ok%lift_Ok & Hput).
  apply act_bind_Ok in Hput as (w1 & d & Hra%handler_Ok & Hput).
  apply require_active_Ok in Hra as (Hm1 & sh & Hp1 & Hact & Hd); [|done].
  apply act_bind_Ok in Hput as (w2 & p & [-> Hp%map_err_Ok]%handler_Ok%lift_Ok & Hput).
  apply act_bind_Ok in Hput as (w2 & pl & [-> Hpl]%or_panic_Ok & Hput%handler_Ok).
  apply act_bind_Ok in Hput as (w2 & [] & Hl & Hput). pose proof (moving_local_leader _ _ _ _ _ (proj1 Hm1) Hl) as Hm2.
  apply act_bind_Ok in Hput as (w3 & hlc & Hh & Hput). pose proof (moving_hlc_now _ _ _ _ (proj1 Hm2) Hh) as Hm3.
  apply act_bind_Ok in Hput as (w4 & r & Hwr & [-> Hr]%lift_Ok).
  destruct (routed _ _ _ _ Hd Hp) as (Hp16 & _). apply write_Ok in Hwr as [Hm4 Hap]; [|apply Hm3|done].
  pose proof (moves_trans _ _ _ Hm2 (moves_trans _ _ _ Hm3 Hm4)) as Hm24.
  assert (Hap' : applied (pl_shard_id pl) (PutAggregateState ty p (pl_generation pl) (pq_aggregate_id q) expected
            (pq_data q) hlc) r w w4).
  { eapply applied_extend; [|exact Hap|apply moves_refl, Hm4].
    exact (moves_trans _ _ _ Hm1 (moves_trans _ _ _ Hm2 Hm3)). }
  destruct r as [ | | | | |doc| | | | | | | | | | | ]; try discriminate Hr. injection Hr as <- <-.
  destruct Hap' as (s1 & s2 & Hl1 & Hs & Hl2).
  destruct (put_state_step s1 s2 ty p (pl_generation pl) (pq_aggregate_id q) expected (pq_data q) (pq_data q) hlc hlc doc Hs)
    as (Hf & Hmt & Hdoc & Hrev & Hst & _).
  exists ty, expected, d, p, pl, s1, s2, hlc. split_ands; try done.
  - exists sh. split; [by eapply past_extend|done].
  - by rewrite Hdoc.
Qed.

(** A state read returns a document the instance has had. The answer of
    [get_aggregate_state] is the document, with its revision and the time of its
    write, that some state of the shard of the instance held. *)
Theorem get_state_returns_document (n : N) (tyref : option PbTypeRef) (id : string) (w w' : world)
  (reply : StateReply) (Hw : world_ok w) (Hget : get_aggregate_state n tyref id w = (w', Ok reply)) :
  exists ty d p pl sh doc, proto_aggregate_type tyref = Ok ty /\
    (exists c, past (control n) w' c /\ active_in ty d c) /\
    partition_for d id = Ok p /\ td_placements d !! p = Some pl /\ past (pl_shard_id pl) w' sh /\
    document_of sh ty p id = Some doc /\
    reply = mkStateReply (doc_revision doc) (doc_data doc) (wall (doc_modified_hlc doc)).
Proof.
  unfold get_aggregate_state in Hget.
  apply act_bind_Ok in Hget as (w0 & ty & [-> Hty]%handler_Ok%lift_Ok & Hget).
  apply act_bind_Ok in Hget as (w1 & d & Hra%handler_Ok & Hget).
  apply require_active_Ok in Hra as (Hm1 & sh & Hp1 & Hact & Hd); [|done].
  apply act_bind_Ok in Hget as (w2 & p & [-> Hp%map_err_Ok]%handler_Ok%lift_Ok & Hget).
  apply act_bind_Ok in Hget as (w2 & pl & [-> Hpl]%or_panic_Ok & Hget%handler_Ok).
  apply act_bind_Ok in Hget as (w2 & [] & Hl & Hget). pose proof (moving_local_leader _ _ _ _ _ (proj1 Hm1) Hl) as Hm2.
  apply act_bind_Ok in Hget as (w3 & o & Hr & Hget).
  apply act_bind_Ok in Hget as (w4 & doc & [-> Ho%ok_or_Ok]%lift_Ok & [= <- <-]).
  apply local_leader_u64 in Hl as Hs. apply read_Ok in Hr as (Hm3 & t & sh2 & ap & Hf & Hrep & Hp2); [|apply Hm2].
  destruct (routed _ _ _ _ Hd Hp) as (_ & Hk & Hn & _).
  apply (read_document_rep _ Hs _ _ _ Hrep) in Hf; [|done|done]. subst o.
  exists ty, d, p, pl, sh2, doc. split_ands; try done.
  exists sh. split; [|done]. eapply past_extend; [exact Hp1|]. exact (moves_trans _ _ _ Hm2 Hm3).
Qed.

(** *** No panics *)

Lemma all_shards_nonempty n w w' tp : world_ok w -> snapshot n w = (w', tp) -> tp_all_shards tp <> [].
Proof.
  intros Hw Hs. destruct (snapshot_topology _ _ _ _ Hw Hs) as [[c Hc] _]. unfold from_config in Hc.
  apply bind_Ok_inv in Hc as (x & Hx%ok_or_Ok & Hc). apply bind_Ok_inv in Hc as (r & _ & [= <-]).
  cbn [tp_all_shards]. by destruct (btree_set (all_placed c)).
Qed.

Lemma round_robin_total shards : shards <> [] -> is_Some (round_robin shards).
Proof.
  intros Hne. unfold round_robin. apply fmap_is_Some, mapM_is_Some. apply Forall_forall. intros p _.
  case_decide; [done|]. apply fmap_is_Some, lookup_lt_is_Some, Nat.mod_upper_bound.
  by destruct shards.
Qed.

Lemma register_runs n tyref op w :
  world_ok w -> runs w (register_aggregate_type n tyref op) (fun _ _ => True).
Proof.
  intros Hw. unfold register_aggregate_type.
  eapply (runs_bind _ _ _ (fun _ _ => True)); [by apply runs_lift|]. intros w1 ty Hm1 _.
  eapply (runs_bind _ _ _ (fun _ _ => True)); [by apply runs_lift; [apply Hm1|]|]. intros w2 u Hm2 _.
  eapply (runs_bind _ _ _ (fun _ tp => tp_all_shards tp <> [])).
  { apply runs_effect; [apply Hm2|intros; by eapply snapshot_moves|]. intros. eapply all_shards_nonempty; [apply Hm2|done]. }
  intros w3 tp Hm3 [pls Hpls]%round_robin_total.
  eapply (runs_bind _ _ _ (fun _ _ => True)); [by eapply runs_or_panic; [apply Hm3|..]|]. intros w4 pls' Hm4 _.
  eapply (runs_handler_bind _ _ _ (fun w a => forall d b, ca_outcome a = OutType d b -> exists t, definition_wf t d)).
  { apply runs_handler; [apply Hm4|by apply moving_commit_catalog|]. intros w5 a Ha d b Hout.
    apply commit_catalog_applied in Ha as [_ (s1 & s2 & Hl1 & Hs & Hl2)]; [|apply Hm4|done].
    apply step_catalog_apply in Hs as Hca. destruct (create_answer _ _ _ _ _ _ _ _ _ Hca Hout) as [Hin _].
    exists ty. eapply catalog_definition_wf; [|exact Hin]. eapply step_ok; [|exact Hs|]; [done|].
    eapply later_ok; [exact Hl1|]. apply shard_of_ok, Hm4. }
  intros w5 a Hm5 Hdef. eapply (runs_handler_bind _ _ _ (fun _ d => exists t, definition_wf t d)).
  { apply runs_lift; [apply Hm5|]. intros d Hd. unfold created_definition in Hd. case_match; simplify_eq. by eapply Hdef. }
  intros w6 d Hm6 (t & _ & _ & _ & Hdom & _). apply runs_handler; [apply Hm6| |done].
  apply moving_bind; [|moving]. apply moving_for_each. intros [p pl] Hin%elem_of_btree_iter.
  assert (Hlt : (p < EVENT_PARTITION_COUNT)%N) by (apply Hdom; by eexists). unfold EVENT_PARTITION_COUNT in Hlt.
  apply moving_bind; [apply moving_install_fence; lia|moving].
Qed.

(** The placement of the partition an instance is routed to is there. *)
Lemma routed_runs {A} n ty (id : string) (f : N -> PartitionPlacement -> Act Failure A) (Q : world -> A -> Prop) w :
  world_ok w ->
  (forall w1 d p pl, moves w w1 -> definition_wf ty d -> partition_for d id = Ok p ->
     td_placements d !! p = Some pl -> runs w1 (f p pl) Q) ->
  runs w (d ← handler (require_active_aggregate_type n ty);
          p ← handler (lift (map_err invalid_of (partition_for d id)));
          pl ← placement_at d p; f p pl) Q.
Proof.
  intros Hw Hf. eapply (runs_bind _ _ _ (fun _ d => definition_wf ty d)).
  { apply runs_handler; [done|apply moving_require_active|]. intros w1 d Hd.
    apply require_active_Ok in Hd as (_ & sh & _ & _ & Hd); done. }
  intros w1 d Hm1 Hd. eapply (runs_bind _ _ _ (fun _ p => partition_for d id = Ok p)).
  { apply runs_lift; [apply Hm1|]. by intros p Hp%map_err_Ok. }
  intros w2 p Hm2 Hp. destruct (routed _ _ _ _ Hd Hp) as (_ & _ & _ & [pl Hpl]).
  eapply (runs_bind _ _ _ (fun _ x => x = pl)); [by eapply runs_or_panic; [apply Hm2|..]|].
  intros w3 x Hm3 ->. eapply Hf; [|done..]. exact (moves_trans _ _ _ Hm1 (moves_trans _ _ _ Hm2 Hm3)).
Qed.

Lemma get_state_runs n tyref id w : world_ok w -> runs w (get_aggregate_state n tyref id) (fun _ _ => True).
Proof.
  intros Hw. unfold get_aggregate_state.
  eapply (runs_bind _ _ _ (fun _ _ => True)); [by apply runs_lift|]. intros w1 ty Hm1 _.
  apply routed_runs; [apply Hm1|]. intros w2 d p pl Hm2 Hd Hp Hpl. apply runs_handler; [apply Hm2|moving|done].
Qed.

Lemma put_state_runs n q w : world_ok w -> runs w (put_aggregate_state n q) (fun _ _ => True).
Proof.
  intros Hw. unfold put_aggregate_state.
  eapply (runs_bind _ _ _ (fun _ _ => True)); [by apply runs_lift|]. intros w1 [] Hm1 _.
  eapply (runs_bind _ _ _ (fun _ _ => True)); [by apply runs_lift; [apply Hm1|]|]. intros w2 ty Hm2 _.
  eapply (runs_bind _ _ _ (fun _ _ => True)); [by apply runs_lift; [apply Hm2|]|]. intros w3 ex Hm3 _.
  apply routed_runs; [apply Hm3|]. intros w4 d p pl Hm4 Hd Hp Hpl.
  destruct (routed _ _ _ _ Hd Hp) as (Hp16 & _). apply runs_handler; [apply Hm4|by moving|done].
Qed.

End Specs.

(** ** Concrete codecs of the payloads *)

#[export] Instance GroupPartitionFetchInput_eq_dec : EqDecision GroupPartitionFetchInput.
Proof. solve_decision. Defined.

#[export] Instance GroupPartitionFetchInput_countable : Countable GroupPartitionFetchInput.
Proof.
  by refine (inj_countable' (fun '(mkFetchInput y0 y1 y2 y3 y4 y5 y6 y7 y8 y9 y10) =>
    (y0, y1, y2, y3, y4, y5, y6, y7, y8, y9, y10))
    (fun '(y0, y1, y2, y3, y4, y5, y6, y7, y8, y9, y10) => mkFetchInput y0 y1 y2 y3 y4 y5 y6 y7 y8 y9 y10) _); intros [].
Defined.

#[export] Instance GroupPartitionFetchOutput_eq_dec : EqDecision GroupPartitionFetchOutput.
Proof. solve_decision. Defined.

#[export] Instance GroupPartitionFetchOutput_countable : Countable GroupPartitionFetchOutput.
Proof.
  by refine (inj_countable' (fun '(mkFetchOutput y0 y1 y2) => (y0, y1, y2))
    (fun '(y0, y1, y2) => mkFetchOutput y0 y1 y2) _); intros [].
Defined.

Definition demo_rpc_codecs : RpcCodecs := {|
  c_catalog_command := countable_codec AggregateCatalogCommand;
  c_catalog_apply := countable_codec AggregateCatalogApply;
  c_group_command := countable_codec AggregateGroupCatalogCommand;
  c_group_apply := countable_codec AggregateGroupCatalogApply;
  c_fetch_input := countable_codec GroupPartitionFetchInput;
  c_fetch_output := countable_codec GroupPartitionFetchOutput;
  c_request := countable_codec EsRequest;
  c_response := countable_codec EsResponse
|}.

Lemma demo_rpc_laws : @RpcCodecLaws demo_rpc_codecs.
Proof. split; apply countable_codec_laws. Qed.

Definition demo_debug : DebugResponse := fun _ => "response".

(** ** Witnesses *)

#[local] Existing Instances demo_xxh3 demo_codecs demo_codec_laws demo_platform mem_tree mem_tree_laws demo_debug
  demo_rpc_codecs demo_rpc_laws.

Lemma ok_result {W E A} (x : W * result E A) : is_ok x.2 = true -> exists w a, x = (w, Ok a).
Proof. destruct x as [w [a|e]]; [by exists w, a|discriminate]. Qed.

(** A type is registered, an event appended and a document written. *)
Definition demo_ref : option PbTypeRef := Some (aggregate_type_to_proto demo_type).

Definition demo_registered : NodeWorld * result Failure PbTypeInfo :=
  register_aggregate_type 1 demo_ref (replicate 16 x07) world_empty.

Definition demo_append_event : AppendRequest :=
  mkAppendRequest demo_ref "order-1" None (Some (mkPbNewEvent (replicate 16 x08) "created" [x01] [])).

Definition demo_appended : NodeWorld * result Status N :=
  append_aggregate_event (M := N) 1 demo_append_event demo_registered.1.

Definition demo_put_request : PutStateRequest :=
  mkPutRequest demo_ref "order-1" (Some (Some PrAbsent)) [x7b; x7d].

Definition demo_stored : NodeWorld * result Failure (N * N) :=
  put_aggregate_state (M := N) 1 demo_put_request demo_appended.1.

Definition demo_read_back : NodeWorld * result Failure StateReply :=
  get_aggregate_state (M := N) 1 demo_ref "order-1" demo_stored.1.

Lemma demo_registered_ok : world_ok demo_registered.1.
Proof. exact (runs_ok _ _ _ (register_runs 1 demo_ref (replicate 16 x07) _ world_empty_ok)). Qed.

Lemma demo_appended_ok : world_ok demo_appended.1.
Proof. exact (moving_ok _ _ (moving_append 1 demo_append_event) demo_registered_ok). Qed.

Lemma demo_stored_ok : world_ok demo_stored.1.
Proof. exact (runs_ok _ _ _ (put_state_runs 1 demo_put_request _ demo_appended_ok)). Qed.

Lemma answer_eta {W E A} (x : W * result E A) (r : result E A) : x.2 = r -> x = (x.1, r).
Proof. intros <-. apply surjective_pairing. Qed.

Example demo_register_answer : is_ok demo_registered.2 = true.
Proof. vm_compute. reflexivity. Qed.

Example demo_append_answer : demo_appended.2 = Ok 0%N.
Proof. vm_compute. reflexivity. Qed.

Example demo_put_answer : demo_stored.2 = Ok (0%N, 2%N).
Proof. vm_compute. reflexivity. Qed.

Example demo_get_answer : demo_read_back.2 = Ok (mkStateReply 0 [x7b; x7d] 2).
Proof. vm_compute. reflexivity. Qed.

Lemma register_leaves_type_active_witness :
  exists w' info ty op d pl, demo_registered = (w', Ok info) /\ proto_aggregate_type demo_ref = Ok ty /\
    uuid_from_slice (replicate 16 x07) = Some op /\
    cat_aggregate_types (catalog_of (ns_shard (node_shard w' 0))) !! ty = Some d /\ td_status d = Active /\
    td_placements d !! 5%N = Some pl /\ (1 <= fence_of (ns_shard (node_shard w' (pl_shard_id pl))) ty 5)%N.
Proof.
  destruct (ok_result demo_registered demo_register_answer) as (w' & info & Hr).
  unfold demo_registered in Hr |- *. destruct (register_leaves_type_active (H5 := single_node_laws) (H6 := demo_debug) (H8 := demo_rpc_laws) 1 demo_ref (replicate 16 x07) world_empty w' info world_empty_ok Hr)
    as (ty & op & d & Hty & Hop & _ & _ & Hc & Ha & _ & Hall).
  destruct (Hall 5%N eq_refl) as (pl & Hpl & Hf).
  exists w', info, ty, op, d, pl. split; [exact Hr|]. split; [exact Hty|]. split; [exact Hop|]. split; [exact Hc|].
  split; [exact Ha|]. split; [exact Hpl|]. etrans; [exact (proj1 Hf)|exact (proj2 Hf)].
Defined.

(** The same request once more. *)
Definition demo_appended_again : NodeWorld * result Status N :=
  append_aggregate_event (M := N) 1 demo_append_event demo_appended.1.

Example demo_append_again_answer : demo_appended_again.2 = Ok 0%N.
Proof. vm_compute. reflexivity. Qed.


Lemma put_state_replaced_example :
  exists ty d p pl sh, proto_aggregate_type demo_ref = Ok ty /\ partition_for d "order-1" = Ok p /\
    td_placements d !! p = Some pl /\ s_states sh !! (ty, p, "order-1") = Some (mkState 0 [x7b; x7d]) /\
    later sh (ns_shard (node_shard demo_stored.1 (pl_shard_id pl))).
Proof.
  pose proof (answer_eta _ _ demo_put_answer) as Hr.
  destruct (put_state_replaced (H5 := single_node_laws) (H6 := demo_debug) 1 demo_put_request demo_appended.1 demo_stored.1 0 2 demo_appended_ok Hr)
    as (ty & ex & d & p & pl & sh1 & sh2 & hlc & Hty & _ & _ & Hp & Hpl & _ & Hl & _ & _ & _ & Hs & _).
  exists ty, d, p, pl, sh2. split; [exact Hty|]. split; [exact Hp|]. split; [exact Hpl|]. split; [|exact Hl].
  rewrite Hs. apply lookup_insert_eq.
Defined.

Lemma get_state_returns_document_witness :
  exists ty d p pl sh doc, proto_aggregate_type demo_ref = Ok ty /\ partition_for d "order-1" = Ok p /\
    td_placements d !! p = Some pl /\ past (pl_shard_id pl) demo_read_back.1 sh /\
    document_of sh ty p "order-1" = Some doc /\ doc_data doc = [x7b; x7d].
Proof.
  pose proof (answer_eta _ _ demo_get_answer) as Hr.
  destruct (get_state_returns_document (H5 := single_node_laws) (SmCodecLaws0 := demo_codec_laws) 1 demo_ref "order-1" demo_stored.1 demo_read_back.1 _ demo_stored_ok Hr)
    as (ty & d & p & pl & sh & doc & Hty & _ & Hp & Hpl & Hpast & Hdoc & Heq).
  exists ty, d, p, pl, sh, doc. split; [exact Hty|]. split; [exact Hp|]. split; [exact Hpl|]. split; [exact Hpast|].
  split; [exact Hdoc|]. by injection Heq.
Defined.
