(* ===== verification/StatePages.v ===== *)
(** * es-server: listing state documents

    [list_aggregate_states] of [es-server/src/aggregate_service.rs], with
    [list_states_from_shard], [list_local_partition_states] and the internal
    handler: the pages of the state documents of a type, merged over all
    partitions and shards in the order of the instance identifiers, and the
    token that continues a listing.

    The theorem says that a page, as far as each partition's documents stand
    when the partition is read, skips nothing, repeats nothing and keeps the order
    of the identifiers: a document after the token's position in its partition is
    on the page once, or lies after the position of the new token and after the
    whole page. *)

From S2P Require Import Prelude.
From S2P Require Import Bytes.
From S2P Require Import Core.
From S2P Require Import Aggregate.
From S2P Require Import Catalog.
From S2P Require Import Keys.
From S2P Require Import Store.
From S2P Require Import RaftType.
From S2P Require Import LogStore.
From S2P Require Import StateMachine.
From S2P Require Import ShardSpec.
From S2P Require Import Codecs.
From S2P Require Import Apply.
From S2P Require Import Reads.
From S2P Require Import History.
From S2P Require Import Config.
From S2P Require Import Topology.
From S2P Require Import Wire.
From S2P Require Import Follow.
From S2P Require Import FollowStream.
From S2P Require Import Cluster.
From S2P Require Import SingleNode.
From S2P Require Import Service.

Record StateCursor : Type := mkStateCursor { sc_partition_id : N; sc_after_aggregate_id : string }.

Record InternalStateInfo : Type := mkStateInfo {
  si_partition_id : N;
  si_aggregate_id : string;
  si_revision : N;
  si_modified_unix_millis : N
}.

#[export] Instance InternalStateInfo_eq_dec : EqDecision InternalStateInfo.
Proof. solve_decision. Defined.

(** ** Sorting *)

(** [sort_by] on the identifiers: stable. *)
Definition id_le (x y : InternalStateInfo) : Prop :=
  bytes_le (as_bytes (si_aggregate_id x)) (as_bytes (si_aggregate_id y)).

Fixpoint insert_by_id (x : InternalStateInfo) (l : list InternalStateInfo) : list InternalStateInfo :=
  match l with
  | [] => [x]
  | y :: l' => if decide (bytes_le (as_bytes (si_aggregate_id x)) (as_bytes (si_aggregate_id y)))
               then x :: l else y :: insert_by_id x l'
  end.

Definition sort_by_id (l : list InternalStateInfo) : list InternalStateInfo := foldr insert_by_id [] l.

(** ** Handlers *)

Section Handlers.
Context {M : Type} `{Xxh3} `{SmCodecs M} `{Platform} `{Cluster} `{DebugResponse} `{RpcCodecs} `{TokenCodecs}.

(** The cursor of a read: an empty identifier is none. *)
Definition after_of (after : string) : option string := if bool_decide (after = "") then None else Some after.

Definition state_info (p : N) (x : string * AggregateStateDocument) : InternalStateInfo :=
  mkStateInfo p x.1 (doc_revision x.2) (wall (doc_modified_hlc x.2)).

(** The loop of [list_local_partition_states] over the cursors. *)
Fixpoint list_cursors (n shard_id : N) (ty : AggregateTypeId) (limit : N) (cursors : list StateCursor) :
    Act Status (list InternalStateInfo) :=
  match cursors with
  | [] => mret []
  | c :: rest =>
      _ ← lift (if (sc_partition_id c <=? u16_max)%N then Ok tt
                else Err (invalid_argument "partition_id 超出范围"));
      l ← read n shard_id internal_of (fun t => list_aggregate_partition_states shard_id t ty (sc_partition_id c)
            (after_of (sc_after_aggregate_id c)) limit);
      more ← list_cursors n shard_id ty limit rest;
      mret (map (state_info (sc_partition_id c)) l ++ more)
  end.

Definition list_local_partition_states (n shard_id : N) (ty : option PbTypeRef) (cursors : list StateCursor)
    (limit : N) : Act Status (list InternalStateInfo) :=
  ty ← lift (proto_aggregate_type ty);
  list_cursors n shard_id ty limit cursors.

Definition list_aggregate_partition_states_internal (n shard_id : N) (ty : option PbTypeRef)
    (cursors : list StateCursor) (limit : N) : Act Status (list InternalStateInfo) :=
  _ ← local_leader n shard_id;
  list_local_partition_states n shard_id ty cursors limit.

Definition list_states_from_shard (n shard_id : N) (ty : AggregateTypeId) (cursors : list StateCursor)
    (limit : N) : Act Status (list InternalStateInfo) :=
  if_local_leader n shard_id
    (list_local_partition_states n shard_id (Some (aggregate_type_to_proto ty)) cursors limit)
    (tp ← effect (snapshot n);
     peer ← aggregate_internal_client n (tp_remote tp) shard_id;
     call n peer (list_aggregate_partition_states_internal peer shard_id
                    (Some (aggregate_type_to_proto ty)) cursors limit)).

(** The loop over the shards. *)
Fixpoint list_shards (n : N) (ty : AggregateTypeId) (limit : N) (grouped : list (N * list StateCursor)) :
    Act Status (list InternalStateInfo) :=
  match grouped with
  | [] => mret []
  | (shard_id, cursors) :: rest =>
      l ← list_states_from_shard n shard_id ty cursors limit;
      more ← list_shards n ty limit rest;
      mret (l ++ more)
  end.

(** The loop that moves the token past the items of the page; the index panics
    out of range. *)
Fixpoint move_token (after : list string) (items : list InternalStateInfo) : Act Failure (list string) :=
  match items with
  | [] => mret after
  | x :: items' =>
      _ ← handler (lift (if (si_partition_id x <=? u16_max)%N then Ok tt
                         else Err (internal "内部 partition_id 超出范围")));
      _ ← or_panic "index out of bounds" (after !! N.to_nat (si_partition_id x));
      move_token (<[N.to_nat (si_partition_id x) := si_aggregate_id x]> after) items'
  end.

Definition page_size_of (requested : N) : N :=
  if (requested =? 0)%N then DEFAULT_STATE_PAGE_SIZE else N.min requested MAX_STATE_PAGE_SIZE.

Definition list_aggregate_states (n : N) (ty : option PbTypeRef) (requested : N) (page_token : Bytes) :
    Act Failure (list (string * N * N) * Bytes) :=
  ty ← handler (lift (proto_aggregate_type ty));
  d ← handler (require_active_aggregate_type n ty);
  let page_size := page_size_of requested in
  token ← handler (lift (decode_state_page_token page_token ty (td_partition_count d)));
  grouped ← or_panic "index out of bounds"
    (group_by_shard (fun p => mkStateCursor p <$> pg_after_aggregate_ids token !! N.to_nat p)
       (btree_iter (td_placements d)) ∅);
  all ← handler (list_shards n ty (saturating_add_u32 page_size 1) (btree_iter grouped));
  let sorted := sort_by_id all in
  let has_more := (N.to_nat page_size <? length sorted)%nat in
  let items := take (N.to_nat page_size) sorted in
  after ← move_token (pg_after_aggregate_ids token) items;
  next ← handler (lift (if has_more
    then encode_bincode (mkPageToken (pg_version token) (pg_aggregate_type token) after) "state page token"
    else Ok []));
  mret (map (fun x => (si_aggregate_id x, si_revision x, si_modified_unix_millis x)) items, next).

End Handlers.

(** ** Lemmas: sorting and the token *)

Lemma insert_by_id_perm x l : insert_by_id x l ≡ₚ x :: l.
Proof.
  induction l as [|y l IH]; cbn [insert_by_id]; [done|]. case_decide; [done|]. rewrite IH. apply Permutation_swap.
Qed.

Lemma sort_by_id_perm l : sort_by_id l ≡ₚ l.
Proof. induction l as [|x l IH]; [done|]. cbn [sort_by_id foldr]. by rewrite insert_by_id_perm, IH. Qed.

Lemma insert_by_id_sorted x l : StronglySorted id_le l -> StronglySorted id_le (insert_by_id x l).
Proof.
  induction 1 as [|y l Hl IH Hy]; cbn [insert_by_id]; [repeat constructor|]. case_decide as E.
  - constructor; [by constructor|]. constructor; [exact E|]. eapply List.Forall_impl; [|exact Hy].
    intros z Hz. unfold id_le in *. by etrans.
  - constructor; [done|]. rewrite insert_by_id_perm. constructor; [|done].
    unfold id_le. destruct (total bytes_le (as_bytes (si_aggregate_id x)) (as_bytes (si_aggregate_id y))); done.
Qed.

Lemma sort_by_id_sorted l : StronglySorted id_le (sort_by_id l).
Proof. induction l as [|x l IH]; [constructor|]. by apply insert_by_id_sorted. Qed.

Section Token.
Context `{Cluster}.

(** Where the token stands after the items: at the last item of the partition. *)
Lemma move_token_Ok after items w w' after' :
  move_token after items w = (w', Ok after') ->
  w' = w /\ length after' = length after /\
  forall i a, after' !! i = Some a ->
    after !! i = Some a /\ (forall x, x ∈ items -> N.to_nat (si_partition_id x) <> i) \/
    exists pre x post, items = pre ++ x :: post /\ N.to_nat (si_partition_id x) = i /\ si_aggregate_id x = a /\
      forall y, y ∈ post -> N.to_nat (si_partition_id y) <> i.
Proof.
  revert after. induction items as [|x items IH]; intros after; cbn [move_token].
  { intros [= <- <-]. split_ands; [done|done|]. intros i a Ha. left. split; [done|]. intros x Hx. inversion Hx. }
  intros (w1 & [] & [-> _]%handler_Ok%lift_Ok & Hm)%act_bind_Ok.
  apply act_bind_Ok in Hm as (w1 & a0 & [-> Ha0]%or_panic_Ok & Hm).
  destruct (IH _ Hm) as (-> & Hlen & Hat). rewrite length_insert in Hlen. split_ands; [done|done|].
  intros i a Hi. destruct (Hat i a Hi) as [[Ha Hno]|(pre & y & post & -> & Hy & Hid & Hno)].
  - apply list_lookup_insert_Some in Ha as [(<- & <- & _)|[Hne Ha]].
    + right. by exists [], x, items.
    + left. split; [done|]. intros z [->|Hz]%elem_of_cons; [done|by apply Hno].
  - right. by exists (x :: pre), y, post.
Qed.

(** Only an index out of range panics. *)
Lemma move_token_total after items w :
  Forall (fun x => (si_partition_id x < N.of_nat (length after))%N) items ->
  match (move_token after items w).2 with Err (Panicked _) => False | _ => True end.
Proof.
  intros Hall. revert after Hall. induction items as [|x items IH]; intros after Hall; [done|].
  apply Forall_cons in Hall as [Hx Hall]. cbn [move_token]. unfold mbind at 1, act_bind at 1, handler, map_failure, lift at 1.
  destruct (si_partition_id x <=? u16_max)%N; cbn [map_err]; [|done].
  destruct (lookup_lt_is_Some_2 after (N.to_nat (si_partition_id x))) as [a Ha]; [lia|].
  unfold mbind, act_bind, or_panic, lift. rewrite Ha. cbn [ok_or]. apply IH. by rewrite length_insert.
Qed.

End Token.

(** ** Lemmas: one partition *)

(** The list of one partition: its documents after the cursor, in order, all of
    them unless the limit cuts it short. *)
Record page_of (sh : shard) (ty : AggregateTypeId) (p : N) (after : option string) (limit : nat)
    (l : list InternalStateInfo) : Prop := {
  po_sorted : StronglySorted (fun x y => bytes_lt (as_bytes (si_aggregate_id x)) (as_bytes (si_aggregate_id y))) l;
  po_sound : forall x, x ∈ l -> exists d, x = state_info p (si_aggregate_id x, d) /\
    document_of sh ty p (si_aggregate_id x) = Some d /\ after_cursor after (si_aggregate_id x);
  po_complete : forall id d, document_of sh ty p id = Some d -> after_cursor after id ->
    state_info p (id, d) ∈ l \/
    length l = limit /\ forall x, x ∈ l -> bytes_lt (as_bytes (si_aggregate_id x)) (as_bytes id)
}.

Section Specs.
Context {M : Type} `{ClusterLaws M} `{!SmCodecLaws M} `{DebugResponse} `{RpcCodecLaws}
  `{TokenCodecs}.

Lemma moving_list_cursors n s ty limit cs : moving (list_cursors n s ty limit cs).
Proof. induction cs as [|c cs IH]; cbn [list_cursors]; moving. Qed.

Lemma moving_list_internal n s ty cs limit : moving (list_aggregate_partition_states_internal n s ty cs limit).
Proof.
  unfold list_aggregate_partition_states_internal, list_local_partition_states. moving. apply moving_list_cursors.
Qed.

Lemma moving_list_from_shard n s ty cs limit : moving (list_states_from_shard n s ty cs limit).
Proof.
  unfold list_states_from_shard, list_local_partition_states. moving.
  - apply moving_list_cursors.
  - apply moving_list_internal.
Qed.

Lemma moving_list_shards n ty limit g : moving (list_shards n ty limit g).
Proof. induction g as [|[s cs] g IH]; cbn [list_shards]; moving. apply moving_list_from_shard. Qed.

Lemma moving_move_token after items : moving (move_token after items).
Proof. revert after. induction items as [|x items IH]; intros after; cbn [move_token]; moving. Qed.

(** The lists read for the cursors of a shard. *)
Definition pages_read (ty : AggregateTypeId) (limit : N) (s : N) (w : world) (cs : list StateCursor)
    (ls : list (list InternalStateInfo)) : Prop :=
  Forall2 (fun c l => exists sh, past s w sh /\
    page_of sh ty (sc_partition_id c) (after_of (sc_after_aggregate_id c)) (N.to_nat limit) l) cs ls.

Lemma pages_read_extend ty limit s w w' cs ls : pages_read ty limit s w cs ls -> moves w w' -> pages_read ty limit s w' cs ls.
Proof.
  intros Hp Hm. eapply Forall2_impl; [exact Hp|]. intros c l (sh & Hpast & Hpage).
  exists sh. split; [by eapply past_extend|done].
Qed.

Lemma list_cursors_Ok n s ty limit cs w w' states :
  (s <= u64_max)%N -> world_ok w -> type_id_ok ty -> limit <> 0%N -> list_cursors n s ty limit cs w = (w', Ok states) ->
  exists ls, states = concat ls /\ pages_read ty limit s w' cs ls.
Proof.
  intros Hs Hw Hty Hlim. revert w states Hw. induction cs as [|c cs IH]; intros w states Hw; cbn [list_cursors].
  { intros [= <- <-]. exists []. split; [done|constructor]. }
  intros (w1 & [] & [-> Hp]%lift_Ok & Hr)%act_bind_Ok.
  apply act_bind_Ok in Hr as (w1 & l & Hl & Hr). apply act_bind_Ok in Hr as (w2 & more & Hmore & [= <- <-]).
  destruct (sc_partition_id c <=? u16_max)%N eqn:Ep; [|discriminate]. bool_facts. clear Hp.
  apply read_Ok in Hl as (Hm1 & t & sh & ap & Hf & Hrep & Hpast); [|done].
  pose proof (moving_list_cursors _ _ _ _ _ _ _ _ (proj1 Hm1) Hmore) as Hm2.
  destruct (IH _ _ (proj1 Hm1) Hmore) as (ls & -> & Hls).
  exists (map (state_info (sc_partition_id c)) l :: ls). split; [done|]. constructor; [|done].
  exists sh. split; [by eapply past_extend|].
  destruct (state_page_spec s Hs t sh ap Hrep (proj1 (proj1 Hpast)) ty (sc_partition_id c) (conj Hty Ep) _ _ l Hf)
    as (Hsorted & Hsound & Hcomplete).
  split.
  - eapply StronglySorted_map; [|exact Hsorted]. by intros [] [] _ _.
  - intros x ([id d] & -> & Hin)%list_elem_of_fmap. destruct (Hsound id d Hin) as [Ha Hd]. by exists d.
  - intros id d Hd Ha. destruct (Hcomplete id d Hd Ha) as [Hin|(_ & Hlen & Hall)].
    + left. by apply (list_elem_of_fmap_2 (state_info (sc_partition_id c))) in Hin.
    + right. rewrite length_map. split; [done|]. intros x (y & -> & Hin)%list_elem_of_fmap.
      rewrite List.Forall_forall in Hall. apply (Hall y). by apply list_elem_of_In.
Qed.

Lemma list_from_shard_Ok n s ty cs limit w w' states :
  world_ok w -> type_id_ok ty -> limit <> 0%N -> list_states_from_shard n s ty cs limit w = (w', Ok states) ->
  exists ls, states = concat ls /\ pages_read ty limit s w' cs ls.
Proof.
  intros Hw Hty Hlim Hl. unfold list_states_from_shard, list_local_partition_states in Hl.
  apply if_local_leader_Ok in Hl as (w1 & Hm1 & [[Hl Hu]|Hl]); [| |done].
  - apply act_bind_Ok in Hl as (w2 & ty' & [-> ->%proto_type_round_trip]%lift_Ok & Hl).
    by eapply list_cursors_Ok; [exact Hu|apply Hm1|..].
  - apply act_bind_Ok in Hl as (w2 & tp & Hsn%effect_Ok & Hl). apply snapshot_Ok in Hsn as [Hm2 _]; [|apply Hm1].
    apply act_bind_Ok in Hl as (w3 & peer & Hcl & Hl). pose proof (moving_client _ _ _ _ _ _ (proj1 Hm2) Hcl) as Hm3.
    apply call_Ok in Hl as (w4 & w5 & Hm4 & Hs & _ & Hm5); [|apply Hm3|apply moving_list_internal].
    unfold list_aggregate_partition_states_internal, list_local_partition_states in Hs.
    apply act_bind_Ok in Hs as (w6 & [] & Hld & Hs). pose proof (moving_local_leader _ _ _ _ _ (proj1 Hm4) Hld) as Hm6.
    apply act_bind_Ok in Hs as (w7 & ty' & [-> ->%proto_type_round_trip]%lift_Ok & Hs).
    destruct (list_cursors_Ok _ _ _ _ _ _ _ _ (local_leader_u64 _ _ _ _ Hld) (proj1 Hm6) Hty Hlim Hs) as (ls & -> & Hp).
    exists ls. split; [done|]. by eapply pages_read_extend.
Qed.

(** The lists read for all shards, each with its shard and its cursor. *)
Definition cursors_of (grouped : list (N * list StateCursor)) : list (N * StateCursor) :=
  concat (map (fun scs => map (pair scs.1) scs.2) grouped).

Definition read_ok (ty : AggregateTypeId) (limit : N) (w : world) (r : N * StateCursor * list InternalStateInfo) : Prop :=
  exists sh, past r.1.1 w sh /\
    page_of sh ty (sc_partition_id r.1.2) (after_of (sc_after_aggregate_id r.1.2)) (N.to_nat limit) r.2.

Lemma pages_read_flat ty limit s w cs ls :
  pages_read ty limit s w cs ls ->
  exists reads : list (N * StateCursor * list InternalStateInfo),
    map snd reads = ls /\ map fst reads = map (pair s) cs /\ Forall (read_ok ty limit w) reads.
Proof.
  induction 1 as [|c l cs ls Hcl _ (reads & <- & Hf & Hall)]; [by exists []|].
  exists ((s, c, l) :: reads). cbn. rewrite Hf. split_ands; [done|done|]. by constructor.
Qed.

Lemma list_shards_Ok n ty limit grouped w w' all :
  world_ok w -> type_id_ok ty -> limit <> 0%N -> list_shards n ty limit grouped w = (w', Ok all) ->
  exists reads, all = concat (map snd reads) /\ map fst reads = cursors_of grouped /\
    Forall (read_ok ty limit w') reads.
Proof.
  intros Hw Hty Hlim. revert w all Hw. induction grouped as [|[s cs] grouped IH]; intros w all Hw; cbn [list_shards].
  { intros [= <- <-]. by exists []. }
  intros (w1 & l & Hl & Hr)%act_bind_Ok. apply act_bind_Ok in Hr as (w2 & more & Hmore & [= <- <-]).
  pose proof (moving_list_from_shard _ _ _ _ _ _ _ _ Hw Hl) as Hm1.
  pose proof (moving_list_shards _ _ _ _ _ _ _ (proj1 Hm1) Hmore) as Hm2.
  apply list_from_shard_Ok in Hl as (ls & -> & Hls); [|done..].
  destruct (IH _ _ (proj1 Hm1) Hmore) as (reads & -> & Hfst & Hall).
  eapply pages_read_extend in Hls; [|exact Hm2]. apply pages_read_flat in Hls as (here & <- & Hfst1 & Hall1).
  exists (here ++ reads). rewrite !map_app, concat_app, Hfst, Hfst1. split_ands; [done|done|].
  by apply Forall_app.
Qed.

Lemma NoDup_concat_groups {A} (g : A -> N) (L : list (N * list A)) :
  NoDup L.*1 -> (forall s l, (s, l) ∈ L -> NoDup (map g l)) ->
  (forall s l s' l' x y, (s, l) ∈ L -> (s', l') ∈ L -> x ∈ l -> y ∈ l' -> g x = g y -> s = s') ->
  NoDup (map (fun sx => g sx.2) (concat (map (fun sl => map (pair sl.1) sl.2) L))).
Proof.
  induction L as [|[s l] L IH]; cbn [map concat fmap list_fmap]; intros Hnd Hl Hdis; [constructor|].
  apply NoDup_cons in Hnd as [Hs Hnd]. rewrite map_app. apply NoDup_app. split_ands.
  - rewrite map_map. cbn. apply (Hl s). by left.
  - intros x Hx Hx'. rewrite map_map in Hx. apply list_elem_of_fmap in Hx as (a & -> & Ha).
    apply list_elem_of_fmap in Hx' as ([s' b] & Hg & Hb). cbn [fst snd] in *.
    apply list_elem_of_In, in_concat in Hb as (l' & ([s2 l2] & <- & Hin)%in_map_iff & Hb).
    apply in_map_iff in Hb as (b' & [= <- <-] & Hb'%list_elem_of_In). cbn [fst snd] in *.
    apply list_elem_of_In in Hin. assert (s = s2) by (eapply (Hdis s l s2 l2 a b'); [by left|by right|done|done|done]). subst s2.
    apply Hs. apply list_elem_of_fmap. by exists (s, l2).
  - apply IH; [done|intros s0 l0 Hin; apply (Hl s0 l0); by right|].
    intros s0 l0 s1 l1 x y Hx1 Hx2. apply (Hdis s0 l0 s1 l1 x y); by right.
Qed.

(** *** One partition among all *)

(** A document of the listing: its partition and identifier. *)
Definition doc_key (x : InternalStateInfo) : N * string := (si_partition_id x, si_aggregate_id x).

Lemma page_of_keys sh ty p after limit l : page_of sh ty p after limit l -> NoDup (map doc_key l).
Proof.
  intros [Hs _ _]. induction Hs as [|x l _ IH Hx]; cbn; [constructor|]. constructor; [|exact IH].
  intros (y & [= _ Hid] & Hy)%list_elem_of_fmap. rewrite Forall_forall in Hx. specialize (Hx y Hy).
  rewrite Hid in Hx. by apply bytes_lt_nle in Hx.
Qed.

Lemma NoDup_concat_keyed (L : list (N * list InternalStateInfo)) :
  NoDup (map fst L) ->
  (forall p l, (p, l) ∈ L -> NoDup (map doc_key l) /\ forall x, x ∈ l -> si_partition_id x = p) ->
  NoDup (map doc_key (concat (map snd L))).
Proof.
  induction L as [|[p l] L IH]; cbn [map concat fst snd]; intros Hnd Hl; [constructor|].
  apply NoDup_cons in Hnd as [Hp Hnd]. destruct (Hl p l) as [Hk Hpl]; [by left|]. rewrite map_app. apply NoDup_app. split_ands.
  - done.
  - intros k (x & -> & Hx)%list_elem_of_fmap (y & [= Hid _] & Hy)%list_elem_of_fmap.
    apply list_elem_of_In, in_concat in Hy as (l' & ([p' l2] & <- & Hin)%in_map_iff & Hy). cbn [snd] in Hy.
    apply list_elem_of_In in Hin. apply list_elem_of_In in Hy. destruct (Hl p' l2) as [_ Hp']; [by right|].
    apply Hp. rewrite <- (Hpl x Hx), Hid, (Hp' y Hy). by apply (list_elem_of_fmap_2 fst) in Hin.
  - apply IH; [done|]. intros p' l' Hin. apply Hl. by right.
Qed.

(** What the listing has of partition [p]: its own list, whole. *)
Record partition_listed (ty : AggregateTypeId) (d : AggregateTypeDefinition) (after : list string) (limit : N)
    (w : world) (all : list InternalStateInfo) (p : N) (sh : shard) (l : list InternalStateInfo) : Prop := {
  pd_past : exists pl, td_placements d !! p = Some pl /\ past (pl_shard_id pl) w sh;
  pd_page : exists a, after !! N.to_nat p = Some a /\ page_of sh ty p (after_of a) (N.to_nat limit) l;
  pd_in : forall x, x ∈ l -> x ∈ all;
  pd_all : forall x, x ∈ all -> si_partition_id x = p -> x ∈ l;
  pd_length : length l <= length all
}.

Lemma length_concat_elem {A} (l : list A) ls : l ∈ ls -> length l <= length (concat ls).
Proof.
  induction ls as [|l0 ls IH]; [by inversion 1|]. cbn. rewrite length_app.
  intros [->|Hl]%elem_of_cons; [lia|]. specialize (IH Hl). lia.
Qed.

(** The cursors the placements are grouped into. *)
Lemma grouped_cursors ty d after grouped :
  definition_wf ty d -> len after = td_partition_count d ->
  group_by_shard (fun p => mkStateCursor p <$> after !! N.to_nat p) (btree_iter (td_placements d)) ∅ = Some grouped ->
  NoDup (map (fun sc => sc_partition_id sc.2) (cursors_of (btree_iter grouped))) /\
  forall s c, (s, c) ∈ cursors_of (btree_iter grouped) <->
    exists pl, td_placements d !! sc_partition_id c = Some pl /\ pl_shard_id pl = s /\
      after !! N.to_nat (sc_partition_id c) = Some (sc_after_aggregate_id c).
Proof.
  intros (_ & _ & Hcnt & Hdom & _) Hlen Hg. set (f := fun p => mkStateCursor p <$> after !! N.to_nat p) in *.
  destruct (group_by_shard_spec f (btree_iter (td_placements d)) ∅) as (m & Hm & Hs).
  { intros p pl Hp%elem_of_btree_iter. unfold f. apply fmap_is_Some, lookup_lt_is_Some. rewrite Hcnt in Hlen.
    assert (Hlt : (p < EVENT_PARTITION_COUNT)%N) by (apply Hdom; by eexists). unfold len in Hlen. lia. }
  rewrite Hg in Hm. injection Hm as <-.
  assert (Hitems : forall s, default [] (grouped !! s) = shard_items f (btree_iter (td_placements d)) s).
  { intros s. by rewrite Hs, lookup_empty. }
  assert (Hel : forall s c, c ∈ default [] (grouped !! s) <->
            exists pl, td_placements d !! sc_partition_id c = Some pl /\ pl_shard_id pl = s /\
              after !! N.to_nat (sc_partition_id c) = Some (sc_after_aggregate_id c)).
  { intros s c. rewrite Hitems, elem_of_shard_items. unfold f. split.
    - intros (p & pl & Hp%elem_of_btree_iter & Hps & (a & Ha & ->)%fmap_Some). eauto.
    - intros (pl & Hpl & Hps & Ha). exists (sc_partition_id c), pl. split_ands; [by apply elem_of_btree_iter|done|].
      rewrite Ha. by destruct c. }
  assert (Hin : forall s cs, (s, cs) ∈ btree_iter grouped -> default [] (grouped !! s) = cs).
  { intros s cs Hcs%elem_of_btree_iter. by rewrite Hcs. }
  split.
  - apply NoDup_concat_groups; [apply NoDup_btree_iter_keys| |].
    + intros s cs Hcs. rewrite <- (Hin _ _ Hcs), Hitems. apply shard_items_ids; [|apply NoDup_btree_iter_keys].
      intros p c. unfold f. by intros (a & _ & ->)%fmap_Some.
    + intros s cs s' cs' c c' Hcs Hcs' Hc Hc' Heq. rewrite <- (Hin _ _ Hcs) in Hc. rewrite <- (Hin _ _ Hcs') in Hc'.
      apply Hel in Hc as (pl & Hpl & <- & _). apply Hel in Hc' as (pl' & Hpl' & <- & _). congruence.
  - intros s c. rewrite <- Hel. unfold cursors_of. rewrite list_elem_of_In, in_concat. split.
    + intros (l & ([s' cs] & <- & Hcs)%in_map_iff & Hc). apply in_map_iff in Hc as (c' & [= -> ->] & Hc).
      rewrite <- list_elem_of_In in Hcs. rewrite (Hin _ _ Hcs). by apply list_elem_of_In.
    + intros Hc. destruct (grouped !! s) as [cs|] eqn:Hcs; [|by inversion Hc].
      exists (map (pair s) cs). split.
      * apply in_map_iff. exists (s, cs). split; [done|]. by apply list_elem_of_In, elem_of_btree_iter.
      * apply in_map_iff. exists c. split; [done|]. by apply list_elem_of_In.
Qed.

Lemma list_shards_partitions ty d after grouped limit w reads :
  definition_wf ty d -> len after = td_partition_count d ->
  group_by_shard (fun p => mkStateCursor p <$> after !! N.to_nat p) (btree_iter (td_placements d)) ∅ = Some grouped ->
  map fst reads = cursors_of (btree_iter grouped) -> Forall (read_ok ty limit w) reads ->
  (forall x, x ∈ concat (map snd reads) -> (si_partition_id x < td_partition_count d)%N) /\
  NoDup (map doc_key (concat (map snd reads))) /\
  forall p, (p < td_partition_count d)%N ->
    exists sh l, partition_listed ty d after limit w (concat (map snd reads)) p sh l.
Proof.
  intros Hd Hlen Hg Hfst Hall. destruct (grouped_cursors _ _ _ _ Hd Hlen Hg) as [Hnd Hcur].
  pose proof Hd as (_ & _ & Hcnt & Hdom & _). rewrite Forall_forall in Hall.
  assert (Hread : forall r, r ∈ reads -> exists pl, td_placements d !! sc_partition_id r.1.2 = Some pl /\
            pl_shard_id pl = r.1.1 /\ after !! N.to_nat (sc_partition_id r.1.2) = Some (sc_after_aggregate_id r.1.2)).
  { intros [[s c] l] Hr. apply Hcur. rewrite <- Hfst. by apply (list_elem_of_fmap_2 fst) in Hr. }
  assert (Hfrom : forall x, x ∈ concat (map snd reads) -> exists r, r ∈ reads /\ x ∈ r.2 /\
            si_partition_id x = sc_partition_id r.1.2).
  { intros x Hx. apply list_elem_of_In, in_concat in Hx as (l & (r & <- & Hr)%in_map_iff & Hx).
    apply list_elem_of_In in Hr. apply list_elem_of_In in Hx. exists r. split_ands; [done|done|].
    destruct (Hall _ Hr) as (sh & _ & Hpage). destruct (po_sound _ _ _ _ _ _ Hpage x Hx) as (doc & -> & _). done. }
  rewrite <- Hfst, map_map in Hnd. split; [|split].
  - intros x (r & Hr & _ & ->)%Hfrom. destruct (Hread r Hr) as (pl & Hpl & _). rewrite Hcnt. apply Hdom. by eexists.
  - pose proof (NoDup_concat_keyed (map (fun r => (sc_partition_id r.1.2, r.2)) reads)) as Hk. rewrite !map_map in Hk.
    apply Hk; [exact Hnd|]. intros p l ([[s c] l'] & [= -> ->] & Hr)%list_elem_of_fmap.
    destruct (Hall _ Hr) as (sh & _ & Hpage). split; [by eapply page_of_keys|].
    intros x Hx. by destruct (po_sound _ _ _ _ _ _ Hpage x Hx) as (doc & -> & _).
  - intros p Hp. rewrite Hcnt in Hp. apply Hdom in Hp as [pl Hpl].
    assert (Hsc : exists a, after !! N.to_nat p = Some a).
    { apply lookup_lt_is_Some. rewrite Hcnt in Hlen. assert (p < EVENT_PARTITION_COUNT)%N by (apply Hdom; by eexists).
      unfold len in Hlen. lia. }
    destruct Hsc as [a Ha].
    assert (Hin : (pl_shard_id pl, mkStateCursor p a) ∈ cursors_of (btree_iter grouped)) by (apply Hcur; eauto).
    rewrite <- Hfst in Hin. apply list_elem_of_fmap in Hin as ([[s c] l] & Heq & Hr). cbn in Heq. injection Heq as <- <-.
    destruct (Hall _ Hr) as (sh & Hpast & Hpage). cbn [fst snd sc_partition_id sc_after_aggregate_id] in *.
    exists sh, l. split; [by exists pl|by exists a| | |].
    + intros x Hx. apply list_elem_of_In, in_concat. exists l. split; [|by apply list_elem_of_In].
      apply in_map_iff. exists (pl_shard_id pl, mkStateCursor p a, l). split; [done|]. by apply list_elem_of_In.
    + intros x (r & Hr' & Hx & Hpx)%Hfrom Hxp. apply list_elem_of_lookup in Hr as [i Hi].
      apply list_elem_of_lookup in Hr' as [j Hj].
      assert (i = j) as <-.
      { eapply (NoDup_lookup _ _ _ p Hnd); rewrite list_lookup_fmap; [by rewrite Hi|]. rewrite Hj. cbn. congruence. }
      rewrite Hi in Hj. injection Hj as <-. done.
    + apply length_concat_elem. by apply (list_elem_of_fmap_2 snd) in Hr.
Qed.

(** The position of a token in a partition comes before an identifier. *)
Definition before (after : list string) (p : N) (id : string) : Prop :=
  exists a, after !! N.to_nat p = Some a /\ after_cursor (after_of a) id.

Lemma document_id_nonempty sh ty p id d : shard_wf sh -> document_of sh ty p id = Some d -> id <> "".
Proof.
  intros Hwf Hd ->. unfold document_of in Hd. destruct (s_states sh !! (ty, p, "")) as [st|] eqn:Hst; [|discriminate].
  destruct (sw_states _ Hwf (ty, p, "")) as [[v Hv] _]; [by eexists|].
  destruct (sw_ids _ Hwf _ _ _ _ Hv) as (_ & Hid & _). unfold identifier_ok in Hid. naive_solver.
Qed.

Section Page.
Context (ty : AggregateTypeId) (d : AggregateTypeDefinition) (after after' : list string) (k : nat) (w w1 : world).
Context (all : list InternalStateInfo) (p : N) (sh : shard) (l : list InternalStateInfo).
Context (Hlisted : partition_listed ty d after (N.of_nat (S k)) w all p sh l) (Hwf : shard_wf sh).
Context (Hmove : move_token after (take k (sort_by_id all)) w1 = (w1, Ok after')).

Lemma page_item x : x ∈ take k (sort_by_id all) -> x ∈ all.
Proof.
  intros (i & Hi & _)%elem_of_take. rewrite <- (sort_by_id_perm all). by eapply list_elem_of_lookup_2.
Qed.

(** The items of the partition on the page are its documents, after the old
    position and not after the new one. *)
Lemma page_sound x :
  x ∈ take k (sort_by_id all) -> si_partition_id x = p ->
  exists doc, x = state_info p (si_aggregate_id x, doc) /\ document_of sh ty p (si_aggregate_id x) = Some doc /\
    before after p (si_aggregate_id x) /\ ~ before after' p (si_aggregate_id x).
Proof.
  intros Hx Hp. pose proof (pd_all _ _ _ _ _ _ _ _ _ Hlisted x (page_item x Hx) Hp) as Hl.
  destruct (pd_page _ _ _ _ _ _ _ _ _ Hlisted) as (a & Ha & Hpage).
  destruct (po_sound _ _ _ _ _ _ Hpage x Hl) as (doc & Heq & Hdoc & Hafter).
  exists doc. split_ands; [done|done|by exists a|]. intros (a' & Ha' & Hbefore).
  destruct (move_token_Ok _ _ _ _ _ Hmove) as (_ & _ & Hat).
  destruct (Hat _ _ Ha') as [[_ Hno]|(pre & y & post & Heqi & Hy & <- & Hno)]; [by apply (Hno x Hx); rewrite Hp|].
  assert (Hyp : si_partition_id y = p) by lia.
  assert (Hyin : y ∈ take k (sort_by_id all)) by (rewrite Heqi; apply elem_of_app; right; by left).
  pose proof (pd_all _ _ _ _ _ _ _ _ _ Hlisted y (page_item y Hyin) Hyp) as Hly.
  destruct (po_sound _ _ _ _ _ _ Hpage y Hly) as (doc' & _ & Hdoc' & _).
  pose proof (document_id_nonempty _ _ _ _ _ Hwf Hdoc') as Hne.
  unfold after_of in Hbefore. rewrite bool_decide_eq_false_2 in Hbefore by done. cbn [after_cursor] in Hbefore.
  assert (Hle : bytes_le (as_bytes (si_aggregate_id x)) (as_bytes (si_aggregate_id y))).
  { rewrite Heqi in Hx. apply elem_of_app in Hx as [Hx|[->|Hx]%elem_of_cons]; [|reflexivity|].
    - pose proof (sort_by_id_sorted all) as Hsort. rewrite <- (take_drop k (sort_by_id all)), Heqi in Hsort.
      rewrite <- app_assoc in Hsort. apply (StronglySorted_app_1_elem_of id_le) with (x1 := x) (x2 := y) in Hsort; [done|done|by left].
    - exfalso. by apply (Hno x Hx); rewrite Hp. }
  by apply bytes_lt_nle in Hbefore.
Qed.

(** A document after the old position is on the page, or after the new position
    with more pages to come. *)
Lemma page_complete id doc :
  document_of sh ty p id = Some doc -> before after p id -> is_Some (after' !! N.to_nat p) ->
  state_info p (id, doc) ∈ take k (sort_by_id all) \/ (k < length (sort_by_id all) /\ before after' p id).
Proof.
  intros Hdoc (a & Ha & Hafter) [a' Ha'].
  destruct (pd_page _ _ _ _ _ _ _ _ _ Hlisted) as (a0 & Ha0 & Hpage). rewrite Ha in Ha0. injection Ha0 as <-.
  destruct (move_token_Ok _ _ _ _ _ Hmove) as (_ & _ & Hat). specialize (Hat _ _ Ha').
  (* an item of the partition on the page is in its list *)
  assert (Hitem : forall pre y post, take k (sort_by_id all) = pre ++ y :: post -> N.to_nat (si_partition_id y) = N.to_nat p ->
            y ∈ take k (sort_by_id all) /\ y ∈ l).
  { intros pre y post Heqi Hy. assert (Hyin : y ∈ take k (sort_by_id all)) by (rewrite Heqi; apply elem_of_app; right; by left).
    split; [done|]. apply (pd_all _ _ _ _ _ _ _ _ _ Hlisted y (page_item y Hyin)). lia. }
  assert (Hnew : forall y, si_aggregate_id y = a' -> bytes_lt (as_bytes (si_aggregate_id y)) (as_bytes id) -> before after' p id).
  { intros y <- Hlt. exists (si_aggregate_id y). split; [done|]. unfold after_of. case_bool_decide; done. }
  destruct (po_complete _ _ _ _ _ _ Hpage id doc Hdoc Hafter) as [Hin|[Hlen Hlt]].
  - assert (Hsorted : state_info p (id, doc) ∈ sort_by_id all)
      by (rewrite sort_by_id_perm; by apply (pd_in _ _ _ _ _ _ _ _ _ Hlisted)).
    rewrite <- (take_drop k (sort_by_id all)) in Hsorted. apply elem_of_app in Hsorted as [Hpg|Hdrop]; [by left|].
    destruct (decide (state_info p (id, doc) ∈ take k (sort_by_id all))) as [|Hnot]; [by left|]. right. split.
    { apply list_elem_of_lookup in Hdrop as [i Hi]. apply lookup_lt_Some in Hi. rewrite length_drop in Hi. lia. }
    destruct Hat as [[Ha2 _]|(pre & y & post & Heqi & Hy & Hid & _)]; [exists a'; split; [done|congruence]|].
    destruct (Hitem _ _ _ Heqi Hy) as [Hyin Hyl]. apply (Hnew y Hid).
    pose proof (sort_by_id_sorted all) as Hsort. rewrite <- (take_drop k (sort_by_id all)) in Hsort.
    pose proof (StronglySorted_app_1_elem_of id_le _ _ _ _ Hsort Hyin Hdrop) as Hle.
    apply bytes_le_lt_eq in Hle as [Hle|Heq]; [done|]. exfalso. apply Hnot. apply as_bytes_inj in Heq. cbn in Heq.
    destruct (po_sound _ _ _ _ _ _ Hpage y Hyl) as (doc' & Hyeq & Hdoc' & _). rewrite Heq, Hdoc in Hdoc'.
    injection Hdoc' as <-. rewrite Hyeq, Heq in Hyin. done.
  - right. split.
    { pose proof (pd_length _ _ _ _ _ _ _ _ _ Hlisted). rewrite sort_by_id_perm. lia. }
    destruct Hat as [[Ha2 _]|(pre & y & post & Heqi & Hy & Hid & _)]; [exists a'; split; [done|congruence]|].
    destruct (Hitem _ _ _ Heqi Hy) as [_ Hyl]. by apply (Hnew y Hid), Hlt.
Qed.

(** A document after the old position that is not on the page comes after the
    whole page in the order of the identifiers. *)
Lemma page_in_order id doc x :
  document_of sh ty p id = Some doc -> before after p id -> state_info p (id, doc) ∉ take k (sort_by_id all) ->
  x ∈ take k (sort_by_id all) -> NoDup (map doc_key all) -> bytes_le (as_bytes (si_aggregate_id x)) (as_bytes id).
Proof.
  intros Hdoc (a & Ha & Hafter) Hno Hx Hkeys.
  destruct (pd_page _ _ _ _ _ _ _ _ _ Hlisted) as (a0 & Ha0 & Hpage). rewrite Ha in Ha0. injection Ha0 as <-.
  assert (Hle : forall y, y ∈ drop k (sort_by_id all) -> id_le x y).
  { intros y Hy. pose proof (sort_by_id_sorted all) as Hsort. rewrite <- (take_drop k (sort_by_id all)) in Hsort.
    exact (StronglySorted_app_1_elem_of id_le _ _ _ _ Hsort Hx Hy). }
  assert (Hin : forall y, y ∈ l -> y ∈ take k (sort_by_id all) \/ y ∈ drop k (sort_by_id all)).
  { intros y Hy. apply elem_of_app. rewrite take_drop, sort_by_id_perm. by apply (pd_in _ _ _ _ _ _ _ _ _ Hlisted). }
  destruct (po_complete _ _ _ _ _ _ Hpage id doc Hdoc Hafter) as [Hl|[Hlen Hlt]].
  - destruct (Hin _ Hl) as [|Hd]; [done|]. by apply Hle in Hd.
  - destruct (decide (Forall (fun y => y ∈ take k (sort_by_id all)) l)) as [Hsub|Hmore].
    + exfalso. assert (Hnd : NoDup l) by (eapply (NoDup_fmap_1 doc_key), page_of_keys; exact Hpage).
      rewrite Forall_forall in Hsub. pose proof (submseteq_length _ _ (NoDup_submseteq _ _ Hnd Hsub)) as Hc.
      rewrite length_take in Hc. lia.
    + apply not_Forall_Exists in Hmore; [|apply _]. apply Exists_exists in Hmore as (y & Hy & Hn).
      destruct (Hin y Hy) as [|Hd]; [done|]. transitivity (as_bytes (si_aggregate_id y)); [by apply Hle|].
      apply bytes_le_lt_eq. left. by apply Hlt.
Qed.

End Page.

Lemma page_size_small requested : (1 <= page_size_of requested <= 1000)%N /\ saturating_add_u32 (page_size_of requested) 1 = (page_size_of requested + 1)%N.
Proof.
  assert (Hs : (1 <= page_size_of requested <= 1000)%N).
  { unfold page_size_of, DEFAULT_STATE_PAGE_SIZE, MAX_STATE_PAGE_SIZE. case_match; bool_facts; lia. }
  split; [done|]. unfold saturating_add_u32. lia.
Qed.

Lemma decode_page_token_len bytes ty count tok :
  decode_state_page_token bytes ty count = Ok tok -> len (pg_after_aggregate_ids tok) = count.
Proof.
  unfold decode_state_page_token. destruct bytes as [|b bytes].
  - intros [= <-]. cbn. unfold len. rewrite length_replicate. lia.
  - intros (t & _ & Hr)%bind_Ok_inv. case_match eqn:E; [discriminate|]. injection Hr as <-. by bool_facts.
Qed.

Context `{!TokenCodecLaws}.

(** A token that is continued has moved. *)
Lemma token_moves bytes ty count tok after' items :
  decode_state_page_token bytes ty count = Ok tok -> after' <> pg_after_aggregate_ids tok ->
  encode_bincode (mkPageToken (pg_version tok) (pg_aggregate_type tok) after') "state page token" = Ok items ->
  items <> [] -> items <> bytes.
Proof.
  intros Hd Hne He Hnil ->. unfold decode_state_page_token in Hd. destruct bytes as [|b bytes]; [done|].
  rewrite (decode_encoded _ _ _ _ He) in Hd. cbn [mbind result_bind] in Hd. case_match; [done|]. injection Hd as Hd. apply Hne. by rewrite <- Hd.
Qed.

(** C19: listing state documents page by page skips nothing, repeats nothing and
    follows the order of the identifiers. A page has at most the size asked for,
    each document once, in the order of the identifiers, and they are documents of
    the type's partitions. Of each partition there is a state of its shard such that: what the page has of the partition are
    documents of that state, with their revisions and times, that lie after the
    position of the token and not after that of the new token; and a document of
    that state after the token's position is on the page, or lies after the new
    token's position and after every document of the page in the order of the
    identifiers, and then there is a new token. Without a new token every
    remaining document is on the page. A page with a new token is full, so it is
    not empty, and the new token is another one. *)
Theorem state_pages_complete (n : N) (tyref : option PbTypeRef) (requested : N) (page_token : Bytes) (w w' : world)
  (page : list (string * N * N)) (next : Bytes) (Hw : world_ok w)
  (Hlist : list_aggregate_states n tyref requested page_token w = (w', Ok (page, next))) :
  exists ty d tok after' (items : list InternalStateInfo),
    proto_aggregate_type tyref = Ok ty /\ (exists c, past (control n) w' c /\ active_in ty d c) /\
    decode_state_page_token page_token ty (td_partition_count d) = Ok tok /\
    page = map (fun x => (si_aggregate_id x, si_revision x, si_modified_unix_millis x)) items /\
    (len page <= page_size_of requested)%N /\ StronglySorted id_le items /\ NoDup (map doc_key items) /\
    Forall (fun x => (si_partition_id x < td_partition_count d)%N) items /\
    (next <> [] -> (0 < len page)%N /\ len page = page_size_of requested /\ next <> page_token) /\
    (next = [] \/ encode_bincode (mkPageToken (pg_version tok) (pg_aggregate_type tok) after') "state page token" = Ok next) /\
    forall p, (p < td_partition_count d)%N -> exists pl sh,
      td_placements d !! p = Some pl /\ past (pl_shard_id pl) w' sh /\
      (forall x, x ∈ items -> si_partition_id x = p -> exists doc,
         x = state_info p (si_aggregate_id x, doc) /\ document_of sh ty p (si_aggregate_id x) = Some doc /\
         before (pg_after_aggregate_ids tok) p (si_aggregate_id x) /\ ~ before after' p (si_aggregate_id x)) /\
      (forall id doc, document_of sh ty p id = Some doc -> before (pg_after_aggregate_ids tok) p id ->
         state_info p (id, doc) ∈ items \/
         before after' p id /\ (forall x, x ∈ items -> bytes_le (as_bytes (si_aggregate_id x)) (as_bytes id)) /\
         encode_bincode (mkPageToken (pg_version tok) (pg_aggregate_type tok) after') "state page token" = Ok next).
Proof.
  unfold list_aggregate_states in Hlist.
  apply act_bind_Ok in Hlist as (w0 & ty & [-> Hty]%handler_Ok%lift_Ok & Hlist).
  apply act_bind_Ok in Hlist as (w1 & d & Hra%handler_Ok & Hlist).
  apply require_active_Ok in Hra as (Hm1 & c & Hp1 & Hact & Hd); [|done]. cbn zeta in Hlist.
  apply act_bind_Ok in Hlist as (w2 & tok & [-> Htok]%handler_Ok%lift_Ok & Hlist).
  apply act_bind_Ok in Hlist as (w2 & grouped & [-> Hg]%or_panic_Ok & Hlist).
  apply act_bind_Ok in Hlist as (w2 & all & Hall%handler_Ok & Hlist). cbn zeta in Hlist.
  apply act_bind_Ok in Hlist as (w3 & after' & Hmove & Hlist).
  apply act_bind_Ok in Hlist as (w4 & nx & [-> Hnext]%handler_Ok%lift_Ok & [= <- <- <-]).
  pose proof (moving_list_shards _ _ _ _ _ _ _ (proj1 Hm1) Hall) as Hm2.
  destruct (page_size_small requested) as [Hsmall Hlim]. rewrite Hlim in Hall.
  pose proof (decode_page_token_len _ _ _ _ Htok) as Hlen. pose proof Hd as (_ & Htyok & _).
  apply list_shards_Ok in Hall as (reads & -> & Hfst & Hreads); [|apply Hm1|done|lia].
  destruct (list_shards_partitions _ _ _ _ _ _ _ Hd Hlen Hg Hfst Hreads) as (Hlt & Hkeys & Hparts).
  destruct (move_token_Ok _ _ _ _ _ Hmove) as (-> & Hlen' & _).
  exists ty, d, tok, after', (take (N.to_nat (page_size_of requested)) (sort_by_id (concat (map snd reads)))).
  set (k := N.to_nat (page_size_of requested)) in *. set (all := concat (map snd reads)) in *.
  assert (Hk : N.of_nat k = page_size_of requested) by (subst k; lia). clearbody k all.
  assert (Hpage : forall p, (p < td_partition_count d)%N -> exists sh l,
            partition_listed ty d (pg_after_aggregate_ids tok) (N.of_nat (S k)) w2 all p sh l).
  { intros p Hp. destruct (Hparts p Hp) as (sh & l & Hl). exists sh, l.
    by replace (N.of_nat (S k)) with (page_size_of requested + 1)%N by lia. }
  split_ands; [done| |done|done| | | | | | |].
  - exists c. split; [by eapply past_extend|done].
  - unfold len. rewrite length_map, length_take. lia.
  - pose proof (sort_by_id_sorted all) as Hsort.
    rewrite <- (take_drop k) in Hsort. by eapply StronglySorted_app_1_l.
  - rewrite <- (sort_by_id_perm all), <- (take_drop k (sort_by_id all)), map_app in Hkeys. by apply NoDup_app in Hkeys as [? _].
  - apply Forall_forall. intros x Hx. apply Hlt. by eapply page_item.
  - intros Hmore. destruct (k <? length (sort_by_id all))%nat eqn:E; [apply Nat.ltb_lt in E|by injection Hnext].
    assert (Hfull : len (map (fun x => (si_aggregate_id x, si_revision x, si_modified_unix_millis x)) (take k (sort_by_id all)))
              = page_size_of requested) by (unfold len; rewrite length_map, length_take; lia).
    split_ands; [lia|done|]. eapply token_moves; [exact Htok| |exact Hnext|exact Hmore]. intros Hsame.
    destruct (take k (sort_by_id all)) as [|x rest] eqn:Ht; [cbn [map] in Hfull; rewrite len_nil in Hfull; lia|].
    assert (Hx : x ∈ take k (sort_by_id all)) by (rewrite Ht; by left).
    assert (Hxp : (si_partition_id x < td_partition_count d)%N) by (apply Hlt; by eapply page_item).
    destruct (Hpage _ Hxp) as (sh & l & Hl). destruct (pd_past _ _ _ _ _ _ _ _ _ Hl) as (pl & _ & Hpast). rewrite <- Ht in Hmove.
    destruct (page_sound ty d _ after' k w2 _ _ _ sh l Hl (proj1 (proj1 Hpast)) Hmove x Hx eq_refl) as (_ & _ & _ & Hb & Hnb).
    by rewrite Hsame in Hnb.
  - destruct (k <? _)%nat; [by right|]. injection Hnext as <-. by left.
  - intros p Hp. destruct (Hpage p Hp) as (sh & l & Hl).
    destruct (pd_past _ _ _ _ _ _ _ _ _ Hl) as (pl & Hpl & Hpast). exists pl, sh. split_ands; [done|done| |].
    + intros x Hx Hxp. by eapply page_sound; [exact Hl|apply (proj1 Hpast)|exact Hmove|..].
    + intros id doc Hdoc Hb.
      destruct (decide (state_info p (id, doc) ∈ take k (sort_by_id all))) as [|Hno]; [by left|right].
      destruct (page_complete ty d _ after' k w2 _ _ p sh l Hl Hmove id doc Hdoc Hb) as [Hin|[Hless Hb']]; [|done|].
      * apply lookup_lt_is_Some. unfold len in Hlen. lia.
      * split_ands; [done| |by rewrite (proj2 (Nat.ltb_lt _ _) Hless) in Hnext].
        intros x Hx. by eapply page_in_order.
Qed.

(** No index of the handler is out of range. *)
Lemma list_states_runs n tyref requested token w :
  world_ok w -> runs w (list_aggregate_states n tyref requested token) (fun _ _ => True).
Proof.
  intros Hw. unfold list_aggregate_states.
  eapply (runs_bind _ _ _ (fun _ _ => True)); [by apply runs_lift|]. intros w1 ty Hm1 _.
  eapply (runs_bind _ _ _ (fun _ d => definition_wf ty d)).
  { apply runs_handler; [apply Hm1|apply moving_require_active|]. intros w2 d Hd.
    apply require_active_Ok in Hd as (_ & sh & _ & _ & Hd); [done|apply Hm1]. }
  intros w2 d Hm2 Hd. cbn zeta. destruct (page_size_small requested) as [_ ->].
  eapply (runs_bind _ _ _ (fun _ tok => len (pg_after_aggregate_ids tok) = td_partition_count d)).
  { apply runs_lift; [apply Hm2|]. intros tok. apply decode_page_token_len. }
  intros w3 tok Hm3 Hlen.
  destruct (group_by_shard_spec (fun p => mkStateCursor p <$> pg_after_aggregate_ids tok !! N.to_nat p)
    (btree_iter (td_placements d)) ∅) as (m & Hm & _).
  { intros p pl Hp%elem_of_btree_iter. pose proof Hd as (_ & _ & Hcnt & Hdom & _).
    assert (Hlt : (p < EVENT_PARTITION_COUNT)%N) by (apply Hdom; by eexists).
    apply fmap_is_Some, lookup_lt_is_Some. unfold len in Hlen. lia. }
  eapply (runs_bind _ _ _ (fun _ g => g = m)); [by eapply runs_or_panic; [apply Hm3|..]|]. intros w4 g Hm4 ->.
  eapply (runs_bind _ _ _ (fun _ all => Forall (fun x => (si_partition_id x < td_partition_count d)%N) all)).
  { apply runs_handler; [apply Hm4|apply moving_list_shards|]. intros w5 all Hall.
    pose proof Hd as (_ & Hty & _).
    apply list_shards_Ok in Hall as (reads & -> & Hfst & Hreads); [|apply Hm4|done|lia].
    destruct (list_shards_partitions _ _ _ _ _ _ _ Hd Hlen Hm Hfst Hreads) as [Hlt _]. by apply Forall_forall. }
  intros w5 all Hm5 Hall.
  assert (Hmv : runs w5 (move_token (pg_after_aggregate_ids tok) (take (N.to_nat (page_size_of requested)) (sort_by_id all)))
                  (fun _ _ => True)).
  { intros w' r Hr. pose proof (move_token_total (pg_after_aggregate_ids tok)
      (take (N.to_nat (page_size_of requested)) (sort_by_id all)) w5) as Ht.
    assert (Hmoves : moving (move_token (pg_after_aggregate_ids tok)
      (take (N.to_nat (page_size_of requested)) (sort_by_id all)))) by apply moving_move_token.
    split; [eapply Hmoves; [apply Hm5|exact Hr]|]. rewrite Hr in Ht. cbn [snd] in Ht.
    assert (Hp : match r with Err (Panicked _) => False | _ => True end).
    { apply Ht. apply Forall_take. rewrite sort_by_id_perm. unfold len in Hlen. eapply Forall_impl; [exact Hall|]. cbn. lia. }
    by destruct r as [|[]]. }
  eapply runs_bind; [exact Hmv|]. intros w6 after' Hm6 _.
  eapply (runs_bind _ _ _ (fun _ _ => True)); [by apply runs_lift; [apply Hm6|]|]. intros w7 nx Hm7 _.
  by apply runs_ret; [apply Hm7|].
Qed.

End Specs.

(** ** Witnesses *)

#[local] Existing Instances demo_xxh3 demo_codecs demo_codec_laws demo_platform mem_tree mem_tree_laws demo_debug
  demo_rpc_codecs demo_rpc_laws demo_token_codecs demo_token_laws.

(** The document written in [Service.v], listed. *)
Definition demo_listed : NodeWorld * result Failure (list (string * N * N) * Bytes) :=
  list_aggregate_states (M := N) 1 demo_ref 10 [] demo_stored.1.

Example demo_list_answer : demo_listed.2 = Ok ([("order-1", 0%N, 2%N)], []).
Proof. vm_compute. reflexivity. Qed.

Lemma state_pages_complete_witness :
  exists ty d, proto_aggregate_type demo_ref = Ok ty /\
    exists c, past (tp_control_shard_id node_topology) demo_listed.1 c /\ active_in ty d c.
Proof.
  pose proof (answer_eta _ _ demo_list_answer) as Hr.
  destruct (state_pages_complete (H5 := single_node_laws) (SmCodecLaws0 := demo_codec_laws) (H9 := demo_token_codecs) 1 demo_ref 10 [] demo_stored.1 demo_listed.1
    [("order-1", 0%N, 2%N)] [] demo_stored_ok Hr) as (ty & d & tok & after' & items & Hty & Hc & _).
  exists ty, d. split; [exact Hty|exact Hc].
Defined.
