(* ===== verification/FollowService.v ===== *)
(** * es-server: the handler that starts a follower

    [follow_aggregate_type_events] of [es-server/src/aggregate_service.rs] up to
    the tasks it spawns: the checks of the request, the cursor it starts from, and
    the partitions handed to the source of each shard. What the sources and the
    merger do from there is in [Follow.v] and [FollowStream.v]. *)

From S2P Require Import Prelude.
From S2P Require Import Bytes.
From S2P Require Import Core.
From S2P Require Import Aggregate.
From S2P Require Import Catalog.
From S2P Require Import Store.
From S2P Require Import StateMachine.
From S2P Require Import ShardSpec.
From S2P Require Import Codecs.
From S2P Require Import Apply.
From S2P Require Import Config.
From S2P Require Import Topology.
From S2P Require Import Wire.
From S2P Require Import Follow.
From S2P Require Import FollowStream.
From S2P Require Import Cluster.
From S2P Require Import SingleNode.
From S2P Require Import Service.

(** A follower that was accepted: the merger's first cursor, and the cursors and
    the [from_now] of the sources. *)
Record FollowOpened : Type := mkOpened {
  fo_cursor : AggregateCursor;
  fo_from_now : bool;
  fo_sources : gmap N (list PartitionCursor)
}.

Section Handlers.
Context {M : Type} `{SmCodecs M} `{Platform} `{Xxh3} `{Tree} `{!Cluster} `{DebugResponse} `{RpcCodecs} `{TokenCodecs}.

Definition follow_aggregate_type_events (n : N) (tyref : option PbTypeRef) (start : option FollowStart) : Act Failure FollowOpened :=
  ty ← handler (lift (proto_aggregate_type tyref));
  d ← handler (require_active_aggregate_type n ty);
  started ← handler (lift (follow_start ty d start));
  sources ← or_panic "index out of bounds" (follow_sources started.1 d);
  mret (mkOpened started.1 started.2 sources).

End Handlers.

Section Specs.
Context {M : Type} `{ClusterLaws M} `{!SmCodecLaws M} `{DebugResponse} `{RpcCodecLaws} `{TokenCodecs}.

(** Every partition of the type is handed to the source of one shard, from the
    position the cursor has for it. *)
Lemma follow_runs n tyref start w :
  world_ok w -> runs w (follow_aggregate_type_events n tyref start) (fun w' opened =>
    exists ty d, proto_aggregate_type tyref = Ok ty /\ (exists sh, past (control n) w' sh /\ active_in ty d sh) /\
      follow_start ty d start = Ok (fo_cursor opened, fo_from_now opened) /\
      follow_sources (fo_cursor opened) d = Some (fo_sources opened) /\
      forall p, (p < td_partition_count d)%N -> exists s cs, fo_sources opened !! s = Some cs /\ p ∈ ids cs).
Proof.
  intros Hw. unfold follow_aggregate_type_events.
  eapply (runs_bind _ _ _ (fun _ ty => proto_aggregate_type tyref = Ok ty)); [by apply runs_lift|]. intros w1 ty Hm1 Hty.
  eapply (runs_bind _ _ _ (fun w' d => (exists sh, past (control n) w' sh /\ active_in ty d sh) /\ definition_wf ty d)).
  { apply runs_handler; [apply Hm1|apply moving_require_active|]. intros w2 d Hd.
    apply require_active_Ok in Hd as (_ & sh & Hp & Ha & Hd); [|apply Hm1]. by split; [exists sh|]. }
  intros w2 d Hm2 [(sh & Hp & Ha) Hd].
  eapply (runs_bind _ _ _ (fun _ started => follow_start ty d start = Ok started)); [by apply runs_lift; [apply Hm2|]|].
  intros w3 [c from_now] Hm3 Hs.
  assert (Hlen : len (cu_next_positions c) = td_partition_count d) by (eapply follow_start_ok; [apply Hd|exact Hs]).
  destruct (follow_sources_spec ty c d Hd Hlen) as (m & Hm & _ & _ & Hall). cbn [fst snd].
  eapply (runs_bind _ _ _ (fun _ g => g = m)); [by eapply runs_or_panic; [apply Hm3|..]|]. intros w4 g Hm4 ->.
  apply runs_ret; [apply Hm4|]. exists ty, d. split_ands; [done| |done|done|done].
  exists sh. split; [|done]. eapply past_extend; [exact Hp|]. by eapply moves_trans.
Qed.

End Specs.

(** ** Example *)

#[local] Existing Instances demo_xxh3 demo_codecs demo_codec_laws demo_platform mem_tree mem_tree_laws demo_debug
  demo_rpc_codecs demo_rpc_laws demo_token_codecs demo_token_laws.

(** A follower of the type registered in [Service.v], from the beginning, and one
    whose cursor is not a cursor. *)
Example demo_follow_opened :
  (fun r => match r with Ok o => size (fo_sources o) | Err _ => 0 end)
    (follow_aggregate_type_events (M := N) 1 demo_ref None demo_registered.1).2 = 2.
Proof. vm_compute. reflexivity. Qed.

Example demo_follow_refused :
  is_ok (follow_aggregate_type_events (M := N) 1 demo_ref (Some (FollowCursor [x01])) demo_registered.1).2 = false.
Proof. vm_compute. reflexivity. Qed.
