(* ===== verification/GroupService.v ===== *)
(** * es-server: consumer groups

    [es-server/src/aggregate_service.rs]: the handlers of the consumer groups.
    Creating, changing, deleting and listing groups goes through the group
    catalog of the control shard; fetching, settling and renewing go to the
    shards of the partitions, directly or through the internal service.

    Settling and renewing answer every item, in the order of the request; the
    theorems on fetching and on creating a group are in [GroupFetch.v]. *)

From S2P Require Import Prelude.
From S2P Require Import Bytes.
From S2P Require Import Core.
From S2P Require Import Aggregate.
From S2P Require Import Catalog.
From S2P Require Import GroupCatalog.
From S2P Require Import GroupPartition.
From S2P Require Import Keys.
From S2P Require Import Store.
From S2P Require Import RaftType.
From S2P Require Import LogStore.
From S2P Require Import StateMachine.
From S2P Require Import ShardSpec.
From S2P Require Import Codecs.
From S2P Require Import Apply.
From S2P Require Import Reads.
From S2P Require Import History.
From S2P Require Import Config.
From S2P Require Import Topology.
From S2P Require Import Wire.
From S2P Require Import Follow.
From S2P Require Import FollowStream.
From S2P Require Import Cluster.
From S2P Require Import Service.

Record GroupRequest : Type := mkGroupRequest {
  gq_aggregate_type : option PbTypeRef;
  gq_name : string;
  gq_start : option (option PbGroupStartKind);
  gq_settings : option AggregateGroupSettings;
  gq_expected_revision : N;
  gq_operation_id : Bytes
}.

Record FetchRequest : Type := mkFetchRequest {
  fq_aggregate_type : option PbTypeRef;
  fq_name : string;
  fq_consumer_id : string;
  fq_max_events : N;
  fq_max_bytes : N;
  fq_wait_ms : N
}.

(** [AggregateGroupDelivery] and [FetchAggregateGroupResponse]. *)
Record PbDelivery : Type := mkPbDelivery {
  pd_delivery_id : Bytes;
  pd_event : PbEvent;
  pd_attempt : N;
  pd_deadline_ms : N;
  pd_replayed : bool
}.

Record FetchReply : Type := mkFetchReply {
  fp_deliveries : list PbDelivery;
  fp_caught_up : bool;
  fp_throttled : bool
}.

Record PbSettlement : Type := mkPbSettlement {
  ps_delivery_id : Bytes;
  ps_action : N;
  ps_reason : string
}.

Record SettlementReply : Type := mkSettlementReply {
  sl_delivery_id : Bytes;
  sl_status : PbSettlementStatus;
  sl_deadline_ms : N
}.

(** [if let Entry::..].or_default().push(..)] on a [BTreeMap]. *)
Definition push_group {A} (k : N) (a : A) (m : gmap N (list A)) : gmap N (list A) :=
  <[k := default [] (m !! k) ++ [a]]> m.

(** The order of the keys of the group catalog. *)
Definition group_key_le (x y : GroupKey) : Prop :=
  (type_le x.1 y.1 /\ x.1 <> y.1) \/ (x.1 = y.1 /\ bytes_le (as_bytes x.2) (as_bytes y.2)).

#[export] Instance group_key_le_dec x y : Decision (group_key_le x y).
Proof. unfold group_key_le. apply _. Defined.

Definition group_entries (c : AggregateGroupCatalog) : list (GroupKey * AggregateGroupDefinition) :=
  merge_sort (fun x y => group_key_le x.1 y.1) (map_to_list (gc_groups c)).

Section Handlers.
Context {M : Type} `{Xxh3} `{SmCodecs M} `{Platform} `{Cluster} `{DebugResponse} `{RpcCodecs} `{TokenCodecs}.

(** ** Groups *)

Definition require_group (n : N) (ty : AggregateTypeId) (name : string) : Act Status AggregateGroupDefinition :=
  _ ← lift (map_err invalid_of (validate_aggregate_identifier "group_name" name));
  catalog ← fetch_group_catalog n;
  lift (ok_or (not_found "消费者组不存在") (gc_groups catalog !! (ty, name))).

(** The heads a subscription from now reports for its cursors: the part of
    [run_local_aggregate_subscription] up to the caught-up frame, each head read
    from the store at its moment. *)
Fixpoint subscription_heads (n shard_id : N) (ty : AggregateTypeId) (partitions : list N) (next : gmap N N) :
    Act Status (gmap N N) :=
  match partitions with
  | [] => mret next
  | p :: rest =>
      _ ← lift (if (p <=? u16_max)%N then Ok tt else Err (invalid_argument "partition_id 超出范围"));
      head ← read n shard_id internal_of (fun t => read_aggregate_partition_head shard_id t ty p);
      subscription_heads n shard_id ty rest (<[p := head]> next)
  end.

(** [open_source_stream] from now, up to the caught-up frame. A stream that
    breaks off first is a lost message with its status. *)
Definition subscribe_now (n shard_id : N) (ty : AggregateTypeId) (partitions : list N) :
    Act Status (gmap N N) :=
  if_local_leader n shard_id
    (ty ← lift (proto_aggregate_type (Some (aggregate_type_to_proto ty)));
     subscription_heads n shard_id ty partitions ∅)
    (tp ← effect (snapshot n);
     peer ← aggregate_internal_client n (tp_remote tp) shard_id;
     call n peer (
       ty ← lift (proto_aggregate_type (Some (aggregate_type_to_proto ty)));
       _ ← local_leader peer shard_id;
       subscription_heads peer shard_id ty partitions ∅)).

(** The loop over the shards; the heads of a shard are inserted in order. *)
Fixpoint capture_shards (n : N) (ty : AggregateTypeId) (grouped : list (N * list N)) (starts : gmap N N) :
    Act Status (gmap N N) :=
  match grouped with
  | [] => mret starts
  | (shard_id, partitions) :: rest =>
      heads ← subscribe_now n shard_id ty partitions;
      capture_shards n ty rest (heads ∪ starts)
  end.

Definition capture_group_starts (n : N) (d : AggregateTypeDefinition) (start : AggregateGroupStart) :
    Act Status (gmap N N) :=
  if bool_decide (start = StartBeginning)
  then mret (list_to_map (map (fun p => (p, 0%N)) (partition_ids (td_partition_count d))))
  else
    starts ← capture_shards n (td_id d)
      (btree_iter (default ∅ (group_by_shard Some (btree_iter (td_placements d)) ∅))) ∅;
    lift (if negb (N.of_nat (size starts) =? td_partition_count d)%N
          then Err (unavailable "未能捕获全部消费者组分区起点") else Ok starts).

(** The identifiers of a group request. *)
Definition operation_uuid (b : Bytes) : Reply Uuid :=
  ok_or (invalid_argument "operation_id 必须是 16 字节 UUID") (uuid_from_slice b).

Definition created_group (o : AggregateGroupCatalogOutcome) : Reply PbGroupInfo :=
  match o with
  | GOutGroup g => Ok (group_info g)
  | GOutConflict actual => Err (already_exists ("消费者组已存在: revision=" +:+ debug_opt actual))
  | GOutInvalid reason => Err (invalid_argument reason)
  | GOutNotFound => Err (not_found "聚合类型不存在")
  | GOutDeleted => Err (internal "创建消费者组返回 Deleted")
  end.

Definition create_aggregate_group (n : N) (q : GroupRequest) : Act Status PbGroupInfo :=
  ty ← lift (proto_aggregate_type (gq_aggregate_type q));
  _ ← lift (map_err invalid_of (validate_aggregate_identifier "group_name" (gq_name q)));
  op ← lift (operation_uuid (gq_operation_id q));
  let start := proto_group_start (gq_start q) in
  settings ← lift (proto_group_settings (gq_settings q));
  d ← require_active_aggregate_type n ty;
  starts ← capture_group_starts n d start;
  applied ← commit_group_catalog n (GroupCreate (mkGroup ty (gq_name q) 0 0 start starts settings op op)
              (td_partition_count d));
  lift (created_group (ga_outcome applied)).

Definition revision_conflict (actual : option N) : Status :=
  failed_precondition ("group revision conflict: actual=" +:+ debug_opt actual).

Definition updated_group (o : AggregateGroupCatalogOutcome) : Reply PbGroupInfo :=
  match o with
  | GOutGroup g => Ok (group_info g)
  | GOutConflict actual => Err (revision_conflict actual)
  | GOutInvalid reason => Err (invalid_argument reason)
  | GOutNotFound => Err (not_found "消费者组不存在")
  | GOutDeleted => Err (internal "更新消费者组返回 Deleted")
  end.

Definition update_aggregate_group (n : N) (q : GroupRequest) : Act Status PbGroupInfo :=
  ty ← lift (proto_aggregate_type (gq_aggregate_type q));
  existing ← require_group n ty (gq_name q);
  op ← lift (operation_uuid (gq_operation_id q));
  d ← require_active_aggregate_type n ty;
  start_positions ← match gq_start q with
    | Some kind =>
        let start := proto_group_start (Some kind) in
        positions ← capture_group_starts n d start;
        mret (start, positions)
    | None => mret (gd_start existing, gd_partition_starts existing)
    end;
  settings ← lift (match gq_settings q with
                   | Some s => proto_group_settings (Some s)
                   | None => Ok (gd_settings existing)
                   end);
  applied ← commit_group_catalog n (GroupReplace
    (mkGroup ty (gq_name q) (gd_revision existing) (gd_epoch existing) start_positions.1 start_positions.2 settings
       (gd_create_operation_id existing) op)
    (gq_expected_revision q) (td_partition_count d) (bool_decide (is_Some (gq_start q))));
  lift (updated_group (ga_outcome applied)).

Definition deleted_group (o : AggregateGroupCatalogOutcome) : Reply unit :=
  match o with
  | GOutDeleted => Ok tt
  | GOutConflict actual => Err (revision_conflict actual)
  | GOutNotFound => Err (not_found "消费者组不存在")
  | GOutInvalid reason => Err (invalid_argument reason)
  | GOutGroup _ => Err (internal "删除消费者组返回 Group")
  end.

Definition delete_aggregate_group (n : N) (q : GroupRequest) : Act Status unit :=
  ty ← lift (proto_aggregate_type (gq_aggregate_type q));
  op ← lift (operation_uuid (gq_operation_id q));
  applied ← commit_group_catalog n (GroupDelete ty (gq_name q) (gq_expected_revision q) op);
  lift (deleted_group (ga_outcome applied)).

Definition get_aggregate_group (n : N) (ty : option PbTypeRef) (name : string) : Act Status PbGroupInfo :=
  ty ← lift (proto_aggregate_type ty);
  group ← require_group n ty name;
  mret (group_info group).

Definition list_aggregate_groups (n : N) (ty : option PbTypeRef) : Act Status (list PbGroupInfo) :=
  ty ← lift (proto_aggregate_type ty);
  catalog ← fetch_group_catalog n;
  mret (map (fun kv => group_info kv.2)
          (List.filter (fun kv => bool_decide (kv.1.1 = ty)) (group_entries catalog))).

(** ** Fetching *)

(** [AggregateDeliveryCandidate] of an event, with a fresh delivery id. *)
Fixpoint make_candidates (n : N) (events : list AggregateEvent) : Act Status (list AggregateDeliveryCandidate) :=
  match events with
  | [] => mret []
  | e :: rest =>
      id ← effect (new_uuid n);
      more ← make_candidates n rest;
      mret (mkCandidate id (ev_partition_position e) (ev_aggregate_id e) (ev_aggregate_version e) (ev_event_id e)
              (len (ev_data e) + len (ev_metadata e)) false :: more)
  end.

Definition stale_epoch (actual : N) : Status :=
  failed_precondition ("stale group epoch: actual=" +:+ pretty actual).

(** The answer to a claim. *)
Definition map_claim_response (r : EsResponse) : Reply (list AggregateGroupDelivery) :=
  match r with
  | AggregateGroupClaimed l => Ok l
  | AggregateGroupStaleEpoch current => Err (stale_epoch current)
  | AggregatePartitionFenced g => Err (generation_advanced g)
  | AggregateInvalid reason => Err (invalid_argument reason)
  | other => Err (internal ("消费者组 claim 返回意外结果: " +:+ debug_response other))
  end.

(** The loop that takes the event of each delivery out of the window. *)
Fixpoint match_deliveries (window : gmap N AggregateEvent) (claimed : list AggregateGroupDelivery) :
    Reply (list (AggregateGroupDelivery * AggregateEvent) * gmap N AggregateEvent) :=
  match claimed with
  | [] => Ok ([], window)
  | d :: rest =>
      e ← ok_or (internal "claim 返回了扫描窗口外的事件") (window !! dl_partition_position d);
      more ← match_deliveries (delete (dl_partition_position d) window) rest;
      Ok ((d, e) :: more.1, more.2)
  end.

(** [keys().next_back()], else the position of the last delivery. *)
Definition scanned_to (left : gmap N AggregateEvent) (ds : list (AggregateGroupDelivery * AggregateEvent))
    (next_position : N) : N :=
  match last (btree_iter left).*1 with
  | Some q => saturating_add_u64 q 1
  | None => match last ds with
            | Some (_, e) => saturating_add_u64 (ev_partition_position e) 1
            | None => next_position
            end
  end.

Definition scan_limit (max_events : N) : N :=
  N.min (N.max (saturating_mul_u64 (N.max max_events 1) 16) 32) 4096.

(** The group's state of a partition, as the fetch starts from it. *)
Definition fetch_state (i : GroupPartitionFetchInput) (o : option AggregateGroupPartition) : AggregateGroupPartition :=
  default (partition_new (fi_group_epoch i) (fi_start_position i)) o.

Definition claim_request (i : GroupPartitionFetchInput) (candidates : list AggregateDeliveryCandidate) : EsRequest :=
  GroupPartitionRequest (fi_aggregate_type i) (fi_partition_id i) (fi_partition_generation i) (fi_group_name i)
    (fi_group_epoch i) (fi_start_position i) (fi_settings i)
    (GClaim (fi_consumer_id i) (fi_now_ms i) (saturating_add_u64 (fi_now_ms i) (ack_timeout_ms (fi_settings i)))
       (fi_max_events i) (fi_max_bytes i) candidates).

(** The window of events: a later event of the same position would replace an
    earlier one. *)
Definition event_window (events : list AggregateEvent) : gmap N AggregateEvent :=
  collect_map (map (fun e => (ev_partition_position e, e)) events).

Definition fetch_group_partition_local (n shard_id : N) (i : GroupPartitionFetchInput) :
    Act Status GroupPartitionFetchOutput :=
  o ← read n shard_id internal_of (fun t => read_aggregate_group_partition shard_id t (fi_aggregate_type i)
        (fi_partition_id i) (fi_group_name i));
  let state := fetch_state i o in
  if (fi_group_epoch i <? gp_epoch state)%N then lift (Err (stale_epoch (gp_epoch state)))
  else
    let state := if (gp_epoch state <? fi_group_epoch i)%N
                 then partition_reset state (fi_group_epoch i) (fi_start_position i) else state in
    head ← read n shard_id internal_of (fun t => read_aggregate_partition_head shard_id t (fi_aggregate_type i)
             (fi_partition_id i));
    if bool_decide (gp_deliveries state = ∅) && bool_decide (gp_pending_retries state = ∅)
       && (head <=? gp_next_position state)%N
    then mret (mkFetchOutput [] true false)
    else if (available_credit state (fi_consumer_id i) (fi_settings i) =? 0)%N
    then mret (mkFetchOutput [] (head <=? gp_next_position state)%N true)
    else
      events ← read n shard_id internal_of (fun t => read_aggregate_partition_events shard_id t
                 (fi_aggregate_type i) (fi_partition_id i) (gp_next_position state) (scan_limit (fi_max_events i)));
      candidates ← make_candidates n events;
      response ← write n shard_id (claim_request i candidates);
      claimed ← lift (map_claim_response response);
      matched ← lift (match_deliveries (event_window events) claimed);
      mret (mkFetchOutput matched.1
              (head <=? scanned_to matched.2 matched.1 (gp_next_position state))%N false).

(** [fetch_aggregate_group_partition_internal]. *)
Definition fetch_aggregate_group_partition_internal (n shard_id : N) (payload : Bytes) : Act Status Bytes :=
  input ← lift (decode_bincode payload "GroupPartitionFetchInput");
  _ ← local_leader n shard_id;
  output ← fetch_group_partition_local n shard_id input;
  lift (encode_bincode output "GroupPartitionFetchOutput").

Definition fetch_group_partition (n shard_id : N) (i : GroupPartitionFetchInput) :
    Act Status GroupPartitionFetchOutput :=
  if_local_leader n shard_id
    (fetch_group_partition_local n shard_id i)
    (payload ← lift (encode_bincode i "GroupPartitionFetchInput");
     tp ← effect (snapshot n);
     peer ← aggregate_internal_client n (tp_remote tp) shard_id;
     reply ← call n peer (fetch_aggregate_group_partition_internal peer shard_id payload);
     lift (decode_bincode reply "GroupPartitionFetchOutput")).

(** The loop over the deliveries of one partition. *)
Fixpoint push_deliveries (group : AggregateGroupDefinition) (p : N)
    (ds : list (AggregateGroupDelivery * AggregateEvent)) (out : list PbDelivery) (used : N) :
    Reply (list PbDelivery * N) :=
  match ds with
  | [] => Ok (out, used)
  | (d, e) :: rest =>
      let used := saturating_add_u64 used (len (ev_data e) + len (ev_metadata e)) in
      token ← encode_delivery_token group p (dl_delivery_id d);
      push_deliveries group p rest
        (out ++ [mkPbDelivery token (stored_event_to_proto e) (dl_attempt d) (dl_deadline_ms d) (dl_replayed d)]) used
  end.

Record FetchState : Type := mkFetch {
  ft_deliveries : list PbDelivery;
  ft_used_bytes : N;
  ft_caught_up : bool;
  ft_throttled : bool
}.

(** One round over the partitions. *)
Fixpoint fetch_round (n : N) (ty : AggregateTypeId) (group : AggregateGroupDefinition) (consumer_id : string)
    (now_ms max_events max_bytes : N) (placements : list (N * PartitionPlacement)) (s : FetchState) :
    Act Failure FetchState :=
  match placements with
  | [] => mret s
  | (p, pl) :: rest =>
      if (max_events <=? len (ft_deliveries s))%N || (max_bytes <=? ft_used_bytes s)%N
      then mret (mkFetch (ft_deliveries s) (ft_used_bytes s) false (ft_throttled s))
      else
        start ← or_panic "no entry found for key" (gd_partition_starts group !! p);
        output ← handler (fetch_group_partition n (pl_shard_id pl)
          (mkFetchInput ty p (pl_generation pl) (gd_name group) (gd_epoch group) start (gd_settings group)
             consumer_id now_ms (max_events - as_u32 (len (ft_deliveries s)))%N (max_bytes - ft_used_bytes s)%N));
        pushed ← handler (lift (push_deliveries group p (fo_deliveries output) (ft_deliveries s) (ft_used_bytes s)));
        fetch_round n ty group consumer_id now_ms max_events max_bytes rest
          (mkFetch pushed.1 pushed.2 (ft_caught_up s && fo_caught_up output) (ft_throttled s || fo_throttled output))
  end.

(** The loop that waits: [rounds] bounds the number of rounds, and [None] is a
    fetch that is still waiting. *)
Fixpoint fetch_rounds (rounds : nat) (n : N) (ty : AggregateTypeId) (group : AggregateGroupDefinition)
    (d : AggregateTypeDefinition) (consumer_id : string) (max_events max_bytes wait_ms deadline : N) :
    Act Failure (option FetchReply) :=
  match rounds with
  | O => mret None
  | S rounds' =>
      now_ms ← effect (unix_millis n);
      s ← fetch_round n ty group consumer_id now_ms max_events max_bytes (btree_iter (td_placements d))
            (mkFetch [] 0 true false);
      let reply := mkFetchReply (ft_deliveries s) (ft_caught_up s) (ft_throttled s) in
      if negb (bool_decide (length (ft_deliveries s) = 0)) || ft_throttled s || ft_caught_up s || (wait_ms =? 0)%N
      then mret (Some reply)
      else
        t ← effect (instant_now n);
        if (deadline <=? t)%N then mret (Some reply)
        else fetch_rounds rounds' n ty group d consumer_id max_events max_bytes wait_ms deadline
  end.

Definition limit_or (requested default_limit limit : N) : N :=
  if (requested =? 0)%N then default_limit else N.min requested limit.

Definition fetch_aggregate_group (rounds : nat) (n : N) (q : FetchRequest) : Act Failure (option FetchReply) :=
  ty ← handler (lift (proto_aggregate_type (fq_aggregate_type q)));
  _ ← handler (lift (map_err invalid_of (validate_aggregate_identifier "consumer_id" (fq_consumer_id q))));
  group ← handler (require_group n ty (fq_name q));
  d ← handler (require_active_aggregate_type n ty);
  let wait_ms := N.min (fq_wait_ms q) MAX_AGGREGATE_GROUP_FETCH_WAIT_MS in
  start ← effect (instant_now n);
  fetch_rounds rounds n ty group d (fq_consumer_id q)
    (limit_or (fq_max_events q) DEFAULT_AGGREGATE_GROUP_FETCH_EVENTS MAX_AGGREGATE_GROUP_FETCH_EVENTS)
    (limit_or (fq_max_bytes q) DEFAULT_AGGREGATE_GROUP_FETCH_BYTES MAX_AGGREGATE_GROUP_FETCH_BYTES)
    wait_ms (start + wait_ms)%N.

(** ** Settling and renewing *)

(** [apply_aggregate_group_partition_internal]. *)
Definition apply_aggregate_group_partition_internal (n shard_id : N) (payload : Bytes) : Act Status Bytes :=
  command ← lift (decode_bincode payload "AggregateGroupPartition request");
  _ ← lift (match command with
            | GroupPartitionRequest _ _ _ _ _ _ _ _ => Ok tt
            | _ => Err (invalid_argument "内部接口只接受 AggregateGroupPartition 请求")
            end);
  _ ← local_leader n shard_id;
  response ← write n shard_id command;
  lift (encode_bincode response "AggregateGroupPartition response").

Definition apply_group_partition_request (n shard_id : N) (req : EsRequest) : Act Status EsResponse :=
  if_local_leader n shard_id
    (write n shard_id req)
    (payload ← lift (encode_bincode req "AggregateGroupPartition request");
     tp ← effect (snapshot n);
     peer ← aggregate_internal_client n (tp_remote tp) shard_id;
     reply ← call n peer (apply_aggregate_group_partition_internal peer shard_id payload);
     lift (decode_bincode reply "AggregateGroupPartition response")).

(** [results[index] = Some(..)]; the index panics out of range. *)
Definition set_result (results : list (option SettlementReply)) (index : nat) (r : SettlementReply) :
    Act Failure (list (option SettlementReply)) :=
  _ ← or_panic "index out of bounds" (results !! index);
  mret (<[index := Some r]> results).

(** The loops of [settle_aggregate_group] and [renew_aggregate_group] that sort
    the items of the request by partition: [classify] reads an item's token, and
    is [None] for a token of another epoch, which is answered at once. *)
Fixpoint sort_items {A X} (id_of : A -> Bytes) (classify : A -> Reply (option (N * X))) (index : nat)
    (l : list A) (results : list (option SettlementReply)) (grouped : gmap N (list (nat * X))) :
    Act Failure (list (option SettlementReply) * gmap N (list (nat * X))) :=
  match l with
  | [] => mret (results, grouped)
  | a :: rest =>
      c ← handler (lift (classify a));
      match c with
      | None =>
          results ← set_result results index (mkSettlementReply (id_of a) PbStaleLease 0);
          sort_items id_of classify (S index) rest results grouped
      | Some (p, x) => sort_items id_of classify (S index) rest results (push_group p (index, x) grouped)
      end
  end.

Definition classify_settlement (ty : AggregateTypeId) (name : string) (group_epoch : N) (s : PbSettlement) :
    Reply (option (N * AggregateSettlement)) :=
  token ← decode_delivery_token (ps_delivery_id s) ty name;
  if negb (tk_group_epoch token =? group_epoch)%N then Ok None
  else
    action ← settlement_action (ps_action s);
    Ok (Some (tk_partition_id token, mkSettlement (tk_delivery_id token) action (ps_reason s))).

Definition classify_renewal (ty : AggregateTypeId) (name : string) (group_epoch : N) (b : Bytes) :
    Reply (option (N * Uuid)) :=
  token ← decode_delivery_token b ty name;
  Ok (if negb (tk_group_epoch token =? group_epoch)%N then None
      else Some (tk_partition_id token, tk_delivery_id token)).

(** The answers of one partition, put at their places; [zip] stops at the
    shorter list. *)
Fixpoint place_statuses (ids : list Bytes) (items : list nat) (statuses : list PbSettlementStatus)
    (deadline : PbSettlementStatus -> N) (results : list (option SettlementReply)) :
    Act Failure (list (option SettlementReply)) :=
  match items, statuses with
  | index :: items', st :: statuses' =>
      id ← or_panic "index out of bounds" (ids !! index);
      results ← set_result results index (mkSettlementReply id st (deadline st));
      place_statuses ids items' statuses' deadline results
  | _, _ => mret results
  end.

(** The request for one partition of a group, and where it goes. *)
Definition partition_request (ty : AggregateTypeId) (group : AggregateGroupDefinition) (p : N)
    (pl : PartitionPlacement) (start : N) (command : AggregateGroupPartitionCommand) : EsRequest :=
  GroupPartitionRequest ty p (pl_generation pl) (gd_name group) (gd_epoch group) start (gd_settings group) command.

Definition token_placement (d : AggregateTypeDefinition) (p : N) : Reply PartitionPlacement :=
  ok_or (invalid_argument "delivery token partition 非法") (td_placements d !! p).

(** The loops over the partitions: [command] makes the command for the items of
    a partition and the deadline answered for a status. *)
Fixpoint each_partition {X} (n : N) (ty : AggregateTypeId) (group : AggregateGroupDefinition)
    (d : AggregateTypeDefinition) (ids : list Bytes) (renew : bool)
    (command : list X -> Act Failure (AggregateGroupPartitionCommand * (PbSettlementStatus -> N)))
    (grouped : list (N * list (nat * X))) (results : list (option SettlementReply)) :
    Act Failure (list (option SettlementReply)) :=
  match grouped with
  | [] => mret results
  | (p, items) :: rest =>
      pl ← handler (lift (token_placement d p));
      cmd ← command items.*2;
      start ← or_panic "no entry found for key" (gd_partition_starts group !! p);
      response ← handler (apply_group_partition_request n (pl_shard_id pl) (partition_request ty group p pl start cmd.1));
      statuses ← handler (lift (map_group_settlement_response response renew));
      results ← place_statuses ids items.*1 statuses cmd.2 results;
      each_partition n ty group d ids renew command rest results
  end.

(** [value.expect(..)] of every result. *)
Definition collect_results (message : string) (results : list (option SettlementReply)) :
    Act Failure (list SettlementReply) :=
  or_panic message (mapM id results).

Definition settle_command (n : N) (consumer_id : string) (items : list AggregateSettlement) :
    Act Failure (AggregateGroupPartitionCommand * (PbSettlementStatus -> N)) :=
  now_ms ← effect (unix_millis n);
  mret (GSettle consumer_id now_ms items, fun _ => 0%N).

Definition settle_aggregate_group (n : N) (ty : option PbTypeRef) (name consumer_id : string)
    (settlements : list PbSettlement) : Act Failure (list SettlementReply) :=
  ty ← handler (lift (proto_aggregate_type ty));
  _ ← handler (lift (map_err invalid_of (validate_aggregate_identifier "consumer_id" consumer_id)));
  group ← handler (require_group n ty name);
  d ← handler (require_active_aggregate_type n ty);
  split ← sort_items ps_delivery_id (classify_settlement ty name (gd_epoch group)) 0 settlements
            (replicate (length settlements) None) ∅;
  results ← each_partition n ty group d (map ps_delivery_id settlements) false (settle_command n consumer_id)
              (btree_iter split.2) split.1;
  collect_results "每个 settlement 均已分组或标记 stale" results.

Definition renew_command (n : N) (group : AggregateGroupDefinition) (consumer_id : string) (ids : list Uuid) :
    Act Failure (AggregateGroupPartitionCommand * (PbSettlementStatus -> N)) :=
  now_ms ← effect (unix_millis n);
  let deadline := saturating_add_u64 now_ms (ack_timeout_ms (gd_settings group)) in
  mret (GRenew consumer_id deadline ids, fun st => if bool_decide (st = PbApplied) then deadline else 0%N).

Definition renew_aggregate_group (n : N) (ty : option PbTypeRef) (name consumer_id : string)
    (delivery_ids : list Bytes) : Act Failure (list SettlementReply) :=
  ty ← handler (lift (proto_aggregate_type ty));
  _ ← handler (lift (map_err invalid_of (validate_aggregate_identifier "consumer_id" consumer_id)));
  group ← handler (require_group n ty name);
  d ← handler (require_active_aggregate_type n ty);
  split ← sort_items id (classify_renewal ty name (gd_epoch group)) 0 delivery_ids
            (replicate (length delivery_ids) None) ∅;
  results ← each_partition n ty group d delivery_ids true (renew_command n group consumer_id)
              (btree_iter split.2) split.1;
  collect_results "每个 delivery 均已分组或标记 stale" results.

End Handlers.

(** ** Lemmas: moving on *)

Section Specs.
Context {M : Type} `{ClusterLaws M} `{!SmCodecLaws M} `{DebugResponse} `{RpcCodecLaws} `{TokenCodecLaws}.

Hint Resolve moving_require_control moving_fetch_catalog moving_fetch_group_catalog moving_commit_catalog
  moving_require_active : cluster.

Lemma moving_require_group n ty name : moving (require_group n ty name).
Proof. unfold require_group. moving. Qed.

Hint Resolve moving_require_group : cluster.

(** A group found is one the group catalog has had, at its widths. *)
Lemma require_group_Ok n ty name w w' g :
  world_ok w -> require_group n ty name w = (w', Ok g) ->
  identifier_ok name /\ exists sh, past (control n) w' sh /\ groups_of sh !! (ty, name) = Some g /\
    group_ok g /\ group_key g = (ty, name).
Proof.
  intros Hw Hr. unfold require_group in Hr.
  apply act_bind_Ok in Hr as (w1 & [] & [-> Hv%map_err_Ok]%lift_Ok & Hr).
  apply validate_identifier_iff in Hv. split; [done|].
  apply act_bind_Ok in Hr as (w1 & c & Hf & [-> Hg%ok_or_Ok]%lift_Ok).
  apply control_get_past in Hf as (t & sh & ap & Hget & Hs & Hrep & Hp); [|done].
  apply (read_group_catalog_rep _ Hs _ _ _ Hrep) in Hget. subst c.
  exists sh. split_ands; [done|done|by eapply (proj2 (proj1 Hp))|].
  pose proof (sw_group_catalog _ (proj1 (proj1 Hp))) as [Hall _].
  by destruct (Hall _ _ Hg) as [Hk _].
Qed.

Lemma moving_apply_internal n s req payload :
  service_request req -> encode_bincode req "AggregateGroupPartition request" = Ok payload ->
  moving (apply_aggregate_group_partition_internal n s payload).
Proof.
  intros Hreq He. unfold apply_aggregate_group_partition_internal. rewrite (decode_encoded _ _ _ _ He).
  intros w w' r Hw. unfold mbind at 1, act_bind at 1, lift at 1. revert w w' r Hw.
  match goal with |- forall w w' r, _ -> ?m w = _ -> _ => change (moving m) end. by moving.
Qed.

Lemma moving_apply_group n s req : service_request req -> moving (apply_group_partition_request n s req).
Proof.
  intros Hreq. unfold apply_group_partition_request. apply moving_if_local_leader; [by moving|].
  intros w w' r Hw. unfold mbind at 1, act_bind at 1, lift at 1.
  destruct (encode_bincode req _) as [payload|e] eqn:He; [|intros [= <- _]; by apply moves_refl].
  revert w w' r Hw. match goal with |- forall w w' r, _ -> ?m w = _ -> _ => change (moving m) end.
  moving. by eapply moving_apply_internal.
Qed.

Lemma apply_group_applied n s req w w' r :
  world_ok w -> service_request req -> apply_group_partition_request n s req w = (w', Ok r) -> applied s req r w w'.
Proof.
  intros Hw Hreq Hf. unfold apply_group_partition_request in Hf.
  apply if_local_leader_Ok in Hf as (w1 & Hm1 & [[Hf _]|Hf]); [| |done].
  - apply write_Ok in Hf as [Hm2 Hap]; [|apply Hm1|done]. eapply applied_extend; [exact Hm1|exact Hap|apply moves_refl, Hm2].
  - apply act_bind_Ok in Hf as (w2 & payload & [-> He]%lift_Ok & Hf).
    apply act_bind_Ok in Hf as (w2 & tp & Hsn%effect_Ok & Hf). apply snapshot_Ok in Hsn as [Hm2 _]; [|apply Hm1].
    apply act_bind_Ok in Hf as (w3 & peer & Hcl & Hf). pose proof (moving_client _ _ _ _ _ _ (proj1 Hm2) Hcl) as Hm3.
    apply act_bind_Ok in Hf as (w4 & reply & Hcall & [-> Hd]%lift_Ok).
    apply call_Ok in Hcall as (w5 & w6 & Hm5 & Hs & _ & Hm6); [|apply Hm3|by eapply moving_apply_internal].
    unfold apply_aggregate_group_partition_internal in Hs.
    apply act_bind_Ok in Hs as (w7 & cmd & [-> Hdc]%lift_Ok & Hs). rewrite (decode_encoded _ _ _ _ He) in Hdc.
    injection Hdc as <-. apply act_bind_Ok in Hs as (w7 & [] & [-> _]%lift_Ok & Hs).
    apply act_bind_Ok in Hs as (w7 & [] & Hl & Hs). pose proof (moving_local_leader _ _ _ _ _ (proj1 Hm5) Hl) as Hm7.
    apply act_bind_Ok in Hs as (w8 & r' & Hwr & [-> Hr]%lift_Ok).
    apply write_Ok in Hwr as [Hm8 Hap]; [|apply Hm7|done].
    rewrite (decode_encoded _ _ _ _ Hr) in Hd. injection Hd as <-.
    eapply applied_extend; [|exact Hap|exact Hm6].
    exact (moves_trans _ _ _ Hm1 (moves_trans _ _ _ Hm2 (moves_trans _ _ _ Hm3 (moves_trans _ _ _ Hm5 Hm7)))).
Qed.

(** ** Lemmas: sorting the items *)

Lemma set_result_runs results index r w (Q : world -> list (option SettlementReply) -> Prop) :
  world_ok w -> index < length results -> Q w (<[index := Some r]> results) -> runs w (set_result results index r) Q.
Proof.
  intros Hw Hi HQ. unfold set_result. destruct (lookup_lt_is_Some_2 results index Hi) as [o Ho].
  eapply (runs_bind _ _ _ (fun w1 _ => w1 = w)); [by eapply runs_or_panic|]. intros w1 _ _ ->. by apply runs_ret.
Qed.

Section Sorting.
Context {A X : Type} (id_of : A -> Bytes) (classify : A -> Reply (option (N * X))) (l : list A).

(** The items up to [k] are answered or grouped, the rest not yet. *)
Record sorted_out (k : nat) (results : list (option SettlementReply)) (grouped : gmap N (list (nat * X))) : Prop := {
  so_length : length results = length l;
  so_done : forall i a, i < k -> l !! i = Some a ->
    exists c, classify a = Ok c /\
      match c with
      | None => results !! i = Some (Some (mkSettlementReply (id_of a) PbStaleLease 0))
      | Some (p, x) => (i, x) ∈ default [] (grouped !! p)
      end;
  so_items : forall p i x, (i, x) ∈ default [] (grouped !! p) ->
    i < k /\ exists a, l !! i = Some a /\ classify a = Ok (Some (p, x));
  so_nodup : forall p, NoDup (default [] (grouped !! p)).*1
}.

Lemma push_group_lookup (p : N) (x : nat * X) (m : gmap N (list (nat * X))) q :
  default [] (push_group p x m !! q) = default [] (m !! q) ++ (if decide (q = p) then [x] else []).
Proof.
  unfold push_group. rewrite lookup_insert. case_decide as E; [subst q|].
  - by rewrite decide_True.
  - rewrite decide_False by congruence. by rewrite app_nil_r.
Qed.

Lemma sort_items_runs k rest results grouped w :
  world_ok w -> drop k l = rest -> sorted_out k results grouped ->
  runs w (sort_items id_of classify k rest results grouped) (fun _ r => sorted_out (length l) r.1 r.2).
Proof.
  revert k results grouped w. induction rest as [|a rest IH]; intros k results grouped w Hw Hdrop Hs; cbn [sort_items].
  { apply runs_ret; [done|]. cbn. destruct Hs as [Hl Hd Hi Hn].
    assert (Hk : length l <= k) by (apply (f_equal length) in Hdrop; rewrite length_drop in Hdrop; cbn in Hdrop; lia).
    split; [done|intros i a Hlt Ha; apply Hd; [|done]; apply lookup_lt_Some in Ha; lia| |done].
    intros p i x Hin. destruct (Hi p i x Hin) as (_ & b & Hb & Hc). split; [by eapply lookup_lt_Some|eauto]. }
  assert (Hlk : l !! k = Some a) by (rewrite <- (Nat.add_0_r k), <- lookup_drop, Hdrop; done).
  assert (Hnext : drop (S k) l = rest) by (rewrite (drop_S _ _ _ Hlk) in Hdrop; by injection Hdrop).
  destruct Hs as [Hl Hd Hi Hn].
  eapply (runs_bind _ _ _ (fun w1 c => classify a = Ok c)).
  { apply runs_handler; [done|apply moving_lift|]. by intros w1 c [_ Hc]%lift_Ok. }
  intros w1 c Hm Hc. destruct c as [[p x]|].
  - apply IH; [apply Hm|done|]. split; [done| | |].
    + intros i b Hlt Hb. destruct (decide (i = k)) as [->|Hne].
      * rewrite Hlk in Hb. injection Hb as <-. exists (Some (p, x)). split; [done|].
        rewrite push_group_lookup, decide_True by done. apply elem_of_app. right. by left.
      * destruct (Hd i b ltac:(lia) Hb) as (c & Hcb & Hres). exists c. split; [done|].
        destruct c as [[q y]|]; [|done]. rewrite push_group_lookup. apply elem_of_app. by left.
    + intros q i y. rewrite push_group_lookup. intros [Hin|Hin]%elem_of_app.
      * destruct (Hi q i y Hin) as [? ?]. split; [lia|done].
      * case_decide as E; [|by inversion Hin]. apply list_elem_of_singleton in Hin as [= -> ->]. subst q.
        split; [lia|]. by exists a.
    + intros q. rewrite push_group_lookup, fmap_app. case_decide as E; [|by rewrite app_nil_r]. subst q.
      apply NoDup_app. split_ands; [done| |by apply NoDup_singleton]. intros i Hi1 Hi2.
      apply list_elem_of_singleton in Hi2 as ->. apply list_elem_of_fmap in Hi1 as ([j y] & Hj & Hin). cbn in Hj. subst j.
      destruct (Hi p k y Hin). lia.
  - eapply (runs_bind _ _ _ (fun w2 res => res = <[k := Some (mkSettlementReply (id_of a) PbStaleLease 0)]> results)).
    { apply set_result_runs; [apply Hm|rewrite Hl; by eapply lookup_lt_Some|done]. }
    intros w2 res Hm2 ->. apply IH; [apply Hm2|done|]. split; [by rewrite length_insert| | |done].
    + intros i b Hlt Hb. destruct (decide (i = k)) as [->|Hne].
      * rewrite Hlk in Hb. injection Hb as <-. exists None. split; [done|].
        apply list_lookup_insert_eq. rewrite Hl. by eapply lookup_lt_Some.
      * destruct (Hd i b ltac:(lia) Hb) as (c & Hcb & Hres). exists c. split; [done|].
        destruct c as [[q y]|]; [done|]. by rewrite list_lookup_insert_ne.
    + intros q i y Hin. destruct (Hi q i y Hin) as [? ?]. split; [lia|done].
Qed.

Lemma sorted_out_start : sorted_out 0 (replicate (length l) None) ∅.
Proof.
  split; [by rewrite length_replicate|lia| |].
  - intros p i x. rewrite lookup_empty. inversion 1.
  - intros p. rewrite lookup_empty. constructor.
Qed.

End Sorting.

(** ** Lemmas: the answers of the partitions *)

(** The number of items a command asks about. *)
Definition items_of (c : AggregateGroupPartitionCommand) : nat :=
  match c with GSettle _ _ l => length l | GRenew _ _ ids => length ids | _ => 0 end.

Lemma settle_loop_length consumer now st p l : length (settle_loop consumer now st p l).2 = length l.
Proof.
  revert p. induction l as [|s l IH]; intros p; cbn [settle_loop]; [done|].
  destruct (settle_one consumer now st p s) as [p1 r]. specialize (IH p1).
  destruct (settle_loop consumer now st p1 l) as [p2 rs]. cbn in IH |- *. by rewrite IH.
Qed.

Lemma renew_loop_length consumer deadline p ids : length (renew_loop consumer deadline p ids).2 = length ids.
Proof.
  revert p. induction ids as [|i ids IH]; intros p; cbn [renew_loop]; [done|].
  destruct (renew_one consumer deadline p i) as [p1 r]. specialize (IH p1).
  destruct (renew_loop consumer deadline p1 ids) as [p2 rs]. cbn in IH |- *. by rewrite IH.
Qed.

Lemma group_command_items st epoch settings c st' r renewing statuses :
  group_command st epoch settings c = (st', r) -> map_group_settlement_response r renewing = Ok statuses ->
  length statuses = items_of c.
Proof.
  destruct c as [consumer now deadline mc mb cs|consumer now l|consumer deadline ids|now]; cbn [group_command items_of].
  - destruct (claim _ _ _ _ _ _ _ _). intros [= _ <-]. by destruct renewing.
  - destruct (settle st consumer epoch now settings l) as [st1 rs] eqn:Hs. intros [= _ <-].
    destruct renewing; [discriminate|]. intros [= <-]. rewrite length_map.
    apply (f_equal (fun x => length x.2)) in Hs. cbn [snd] in Hs. rewrite <- Hs. unfold settle.
    case_if; cbn [snd]; [by rewrite length_replicate|].
    pose proof (settle_loop_length consumer now settings st l) as Hl.
    destruct (settle_loop consumer now settings st l). exact Hl.
  - destruct (renew st consumer epoch deadline ids) as [st1 rs] eqn:Hs. intros [= _ <-].
    destruct renewing; [|discriminate]. intros [= <-]. rewrite length_map.
    apply (f_equal (fun x => length x.2)) in Hs. cbn [snd] in Hs. rewrite <- Hs. unfold renew.
    case_if; cbn [snd]; [by rewrite length_replicate|].
    apply renew_loop_length.
  - destruct (expire _ _ _). intros [= _ <-]. by destruct renewing.
Qed.

Lemma step_group_items s ty p g name epoch start settings c s' r renewing statuses :
  shard_step s (GroupPartitionRequest ty p g name epoch start settings c) = (s', r) ->
  map_group_settlement_response r renewing = Ok statuses -> length statuses = items_of c.
Proof.
  cbn [shard_step]. unfold step_group_partition, refuse.
  destruct (type_id_validate ty), (validate_aggregate_identifier "group_name" name), (settings_validate settings);
    try (intros [= _ <-]; by destruct renewing).
  case_if; [intros [= _ <-]; by destruct renewing|]. case_if; [intros [= _ <-]; by destruct renewing|].
  destruct (group_command _ epoch settings c) as [st' r'] eqn:Hg. intros [= _ <-]. by eapply group_command_items.
Qed.

Lemma place_statuses_runs ids items statuses deadline results w :
  world_ok w -> NoDup items -> length statuses = length items -> length ids = length results ->
  Forall (fun i => i < length results) items ->
  runs w (place_statuses ids items statuses deadline results) (fun _ results' =>
    length results' = length results /\
    (forall j i st, items !! j = Some i -> statuses !! j = Some st -> exists b, ids !! i = Some b /\
       results' !! i = Some (Some (mkSettlementReply b st (deadline st)))) /\
    (forall i, i ∉ items -> results' !! i = results !! i)).
Proof.
  intros Hw Hnd. revert statuses results w Hw.
  induction Hnd as [|i items Hi Hnd IH]; intros [|st statuses] results w Hw Hls Hids Hlt; cbn [place_statuses];
    try discriminate.
  { by apply runs_ret; [|split_ands]. }
  apply Forall_cons in Hlt as [Hlti Hlt]. destruct (lookup_lt_is_Some_2 ids i) as [b Hb]; [lia|].
  eapply (runs_bind _ _ _ (fun _ x => x = b)); [by eapply runs_or_panic|]. intros w1 x Hm1 ->.
  eapply (runs_bind _ _ _ (fun _ res => res = <[i := Some (mkSettlementReply b st (deadline st))]> results)).
  { by apply set_result_runs; [apply Hm1|..]. }
  intros w2 res Hm2 ->. eapply runs_mono; [apply IH; [apply Hm2|by injection Hls|by rewrite length_insert|]|].
  { by rewrite length_insert. }
  cbn beta. intros w3 res Hm3 (Hlen & Hat & Hother). rewrite length_insert in Hlen. split_ands; [done| |].
  - intros [|j] k st' Hk Hst; [|by eapply Hat]. injection Hk as <-. injection Hst as <-. exists b. split; [done|].
    rewrite Hother by done. by rewrite list_lookup_insert_eq.
  - intros k Hk. rewrite Hother by set_solver. apply list_lookup_insert_ne. set_solver.
Qed.

Section Answers.
Context {X : Type} (n : N) (ty : AggregateTypeId) (group : AggregateGroupDefinition) (d : AggregateTypeDefinition).
Context (ids : list Bytes) (renewing : bool).
Context (command : list X -> Act Failure (AggregateGroupPartitionCommand * (PbSettlementStatus -> N))).
Context (made : list X -> AggregateGroupPartitionCommand -> (PbSettlementStatus -> N) -> Prop).
Context (Hgroup : group_ok group) (Hdef : definition_wf ty d).
Context (Hmake : forall w xs, world_ok w -> runs w (command xs) (fun _ cmd => made xs cmd.1 cmd.2)).
Context (Hmade : forall xs cmd deadline, made xs cmd deadline -> command_wf cmd /\ items_of cmd = length xs).

(** The answer to an item is that of its partition's shard, to a request that
    was applied between the two worlds. *)
Definition answer_of (w w' : world) (p : N) (i : nat) (x : X) (r : SettlementReply) : Prop :=
  exists pl start cmd deadline xs j response statuses st,
    td_placements d !! p = Some pl /\ gd_partition_starts group !! p = Some start /\
    made xs cmd deadline /\ xs !! j = Some x /\
    applied (pl_shard_id pl) (partition_request ty group p pl start cmd) response w w' /\
    map_group_settlement_response response renewing = Ok statuses /\ statuses !! j = Some st /\
    exists b, ids !! i = Some b /\ r = mkSettlementReply b st (deadline st).

Lemma answer_of_extend w0 w1 w2 w3 p i x r :
  moves w0 w1 -> answer_of w1 w2 p i x r -> moves w2 w3 -> answer_of w0 w3 p i x r.
Proof.
  intros Hb (pl & start & cmd & dl & xs & j & resp & sts & st & ? & ? & ? & ? & Hap & ? & ? & ?) Ha.
  exists pl, start, cmd, dl, xs, j, resp, sts, st. split_ands; try done. by eapply applied_extend.
Qed.

(** The groups the loop still has to do: in range, and no item in two of them. *)
Record groups_fit (grouped : list (N * list (nat * X))) (size : nat) : Prop := {
  gf_nodup : NoDup grouped.*1;
  gf_items : forall p items, (p, items) ∈ grouped -> NoDup items.*1 /\ Forall (fun i => i < size) items.*1;
  gf_apart : forall p items q items' i, (p, items) ∈ grouped -> (q, items') ∈ grouped ->
    i ∈ items.*1 -> i ∈ items'.*1 -> p = q
}.

Lemma placed_partition p pl : td_placements d !! p = Some pl ->
  (p <= u16_max)%N /\ exists start, gd_partition_starts group !! p = Some start /\ (start <= u64_max)%N.
Proof.
  intros Hpl. pose proof Hdef as (_ & _ & _ & Hdom & _). destruct Hgroup as [[_ Hw] Hall].
  assert (Hlt : (p < EVENT_PARTITION_COUNT)%N) by (apply Hdom; by eexists).
  destruct (Hall p Hlt) as [start Hs]. unfold EVENT_PARTITION_COUNT in Hlt. split; [lia|].
  exists start. split; [done|]. exact (Hw p start Hs).
Qed.

Lemma each_partition_runs grouped results w :
  world_ok w -> length ids = length results -> groups_fit grouped (length results) ->
  runs w (each_partition n ty group d ids renewing command grouped results) (fun w' results' =>
    length results' = length results /\
    (forall p items i x, (p, items) ∈ grouped -> (i, x) ∈ items ->
       exists r, results' !! i = Some (Some r) /\ answer_of w w' p i x r) /\
    (forall i, (forall p items, (p, items) ∈ grouped -> i ∉ items.*1) -> results' !! i = results !! i)).
Proof.
  revert results w. induction grouped as [|[p items] rest IH]; intros results w Hw Hids Hfit; cbn [each_partition].
  { apply runs_ret; [done|]. split_ands; [done| |done]. intros p items i x Hin. inversion Hin. }
  destruct Hfit as [Hnd Hitems Hapart]. rewrite fmap_cons in Hnd. apply NoDup_cons in Hnd as [Hp Hnd].
  destruct (Hitems p items ltac:(by left)) as [Hnd1 Hlt1].
  eapply (runs_bind _ _ _ (fun _ pl => td_placements d !! p = Some pl)).
  { apply runs_lift; [done|]. by intros pl Hpl%ok_or_Ok. }
  intros w1 pl Hm1 Hpl. destruct (placed_partition p pl Hpl) as (Hp16 & start & Hstart & Hs64).
  eapply runs_bind; [apply Hmake, Hm1|]. intros w2 [cmd dl] Hm2 Hcmd. cbn [fst snd] in Hcmd |- *.
  destruct (Hmade _ _ _ Hcmd) as [Hcwf Hn].
  eapply (runs_bind _ _ _ (fun _ x => x = start)); [by eapply runs_or_panic; [apply Hm2|..]|]. intros w3 x Hm3 ->.
  assert (Hreq : service_request (partition_request ty group p pl start cmd)).
  { split; [|done]. cbn. split; [done|]. split; [apply Hgroup|done]. }
  eapply (runs_bind _ _ _ (fun w4 r => applied (pl_shard_id pl) (partition_request ty group p pl start cmd) r w w4)).
  { apply runs_handler; [apply Hm3|by apply moving_apply_group|]. intros w4 r Hr.
    pose proof (moving_apply_group _ _ _ Hreq _ _ _ (proj1 Hm3) Hr) as Hm4.
    apply apply_group_applied in Hr; [|apply Hm3|done]. eapply applied_extend; [|exact Hr|apply moves_refl, Hm4].
    exact (moves_trans _ _ _ Hm1 (moves_trans _ _ _ Hm2 Hm3)). }
  intros w4 resp Hm4 Hap.
  eapply (runs_bind _ _ _ (fun w5 sts => w5 = w4 /\ map_group_settlement_response resp renewing = Ok sts)).
  { by apply runs_lift; [apply Hm4|]. }
  intros w5 sts Hm5 [-> Hsts].
  assert (Hlen : length sts = length items.*1).
  { destruct Hap as (s1 & s2 & _ & Hs & _). rewrite (step_group_items _ _ _ _ _ _ _ _ _ _ _ _ _ Hs Hsts), Hn.
    by rewrite !length_fmap. }
  eapply runs_bind; [apply place_statuses_runs; [apply Hm4|done..]|].
  cbn beta. intros w6 res Hm6 (Hl6 & Hat & Hother).
  eapply runs_mono; [apply IH; [apply Hm6|congruence|]|].
  { rewrite Hl6. split; [done|intros q l Hq; apply (Hitems q l); by right|]. intros q l q' l' i Hq Hq'. apply (Hapart q l q' l' i); by right. }
  cbn beta. intros w7 res' Hm7 (Hl7 & Hans & Hrest).
  pose proof (moves_trans _ _ _ Hm1 (moves_trans _ _ _ Hm2 (moves_trans _ _ _ Hm3 (moves_trans _ _ _ Hm4 Hm6)))) as Hm.
  split_ands; [congruence| |].
  - intros q l i x [[= -> ->]|Hin]%elem_of_cons Hx.
    + apply list_elem_of_lookup in Hx as [j Hj].
      assert (Hj1 : items.*1 !! j = Some i) by (by rewrite list_lookup_fmap, Hj).
      destruct (lookup_lt_is_Some_2 sts j) as [st Hst]; [rewrite Hlen; by eapply lookup_lt_Some|].
      destruct (Hat j i st Hj1 Hst) as (b & Hb & Hres). eexists. split.
      * rewrite Hrest; [exact Hres|]. intros q l Hq Hi. apply Hp. apply list_elem_of_fmap. exists (q, l). split; [|done].
        apply list_elem_of_lookup_2 in Hj1. apply (Hapart p items q l i); [by left|by right|done|done].
      * exists pl, start, cmd, dl, items.*2, j, resp, sts, st. split_ands; try done.
        -- by rewrite list_lookup_fmap, Hj.
        -- eapply applied_extend; [apply moves_refl; exact Hw|exact Hap|]. exact (moves_trans _ _ _ Hm6 Hm7).
        -- by exists b.
    + destruct (Hans q l i x Hin Hx) as (r & Hr & Hof). exists r. split; [done|].
      eapply answer_of_extend; [exact Hm|exact Hof|]. apply moves_refl, Hm7.
  - intros i Hi. rewrite Hrest; [|intros q l Hq; apply (Hi q l); by right]. apply Hother, (Hi p items). by left.
Qed.

Lemma collect_results_runs msg results w (Q : world -> list SettlementReply -> Prop) :
  world_ok w -> Forall is_Some results -> (forall l, Some <$> l = results -> Q w l) ->
  runs w (collect_results msg results) Q.
Proof.
  intros Hw Hall HQ. unfold collect_results.
  assert (Hc : exists l, mapM id results = Some l /\ Some <$> l = results).
  { clear HQ. induction Hall as [|o results [r ->] _ (l & Hl & <-)]; [by exists []|]. exists (r :: l).
    split; [|done]. cbn in Hl |- *. by rewrite Hl. }
  destruct Hc as (l & Hl & Heq). eapply runs_or_panic; [done|exact Hl|]. by apply HQ.
Qed.

Section All.
Context {A : Type} (id_of : A -> Bytes) (classify : A -> Reply (option (N * X))) (l : list A).
Context (Hids : ids = map id_of l).

Lemma sorted_groups_fit results grouped :
  sorted_out id_of classify l (length l) results grouped -> groups_fit (btree_iter grouped) (length l).
Proof.
  intros [Hlen Hdone Hitems Hnd].
  assert (Hin : forall p items, (p, items) ∈ btree_iter grouped -> default [] (grouped !! p) = items).
  { intros p items Hp%elem_of_btree_iter. by rewrite Hp. }
  split.
  - apply NoDup_btree_iter_keys.
  - intros p items Hp%Hin. subst items. split; [apply Hnd|]. apply Forall_forall.
    intros i ([j x] & -> & Hx)%list_elem_of_fmap. by apply (Hitems p j x).
  - intros p items q items' i Hp%Hin Hq%Hin. subst items items'.
    intros ([j x] & -> & Hx)%list_elem_of_fmap ([k y] & Hk & Hy)%list_elem_of_fmap. cbn in Hk. subst k.
    destruct (Hitems p j x Hx) as (_ & a & Ha & Hc), (Hitems q j y Hy) as (_ & a' & Ha' & Hc'). congruence.
Qed.

(** Every item is answered, at its place. *)
Lemma answer_all_runs msg w :
  world_ok w ->
  runs w (split ← sort_items id_of classify 0 l (replicate (length l) None) ∅;
          results ← each_partition n ty group d ids renewing command (btree_iter split.2) split.1;
          collect_results msg results)
    (fun w' replies => length replies = length l /\
       forall i a r, l !! i = Some a -> replies !! i = Some r -> sl_delivery_id r = id_of a /\
         exists c, classify a = Ok c /\
           match c with
           | None => sl_status r = PbStaleLease
           | Some (p, x) => answer_of w w' p i x r
           end).
Proof.
  intros Hw. eapply runs_bind; [apply sort_items_runs; [exact Hw|done|apply sorted_out_start]|].
  cbn beta. intros w1 [res grouped] Hm1 Hs. cbn [fst snd] in Hs |- *. pose proof (sorted_groups_fit _ _ Hs) as Hfit.
  destruct Hs as [Hlen Hdone Hitems Hnd].
  eapply runs_bind; [apply each_partition_runs; [apply Hm1|by rewrite Hids, length_map|by rewrite Hlen]|].
  cbn beta. intros w2 res' Hm2 (Hlen' & Hans & Hother).
  assert (Hall : forall i a, l !! i = Some a -> exists r c, res' !! i = Some (Some r) /\ classify a = Ok c /\
    match c with None => r = mkSettlementReply (id_of a) PbStaleLease 0 | Some (p, x) => answer_of w1 w2 p i x r end).
  { intros i a Ha. destruct (Hdone i a ltac:(by eapply lookup_lt_Some) Ha) as (c & Hc & Hcase).
    destruct c as [[p x]|].
    - assert (Hg : grouped !! p = Some (default [] (grouped !! p))).
      { destruct (grouped !! p); [done|]. cbn in Hcase. inversion Hcase. }
      destruct (Hans p _ i x (proj2 (elem_of_btree_iter _ _ _) Hg) Hcase) as (r & Hr & Hof).
      by exists r, (Some (p, x)).
    - exists (mkSettlementReply (id_of a) PbStaleLease 0), None. split_ands; [|done|done]. rewrite Hother; [done|].
      intros p items Hp%elem_of_btree_iter ([j x] & -> & Hx)%list_elem_of_fmap.
      destruct (Hitems p j x) as (_ & a' & Ha' & Hc'); [by rewrite Hp|]. cbn [fst] in *. congruence. }
  apply collect_results_runs; [apply Hm2| |].
  { apply Forall_lookup. intros i o Ho. destruct (lookup_lt_is_Some_2 l i) as [a Ha].
    { apply lookup_lt_Some in Ho. lia. }
    destruct (Hall i a Ha) as (r & c & Hr & _). rewrite Hr in Ho. by injection Ho as <-. }
  intros replies Heq. split; [apply (f_equal length) in Heq; rewrite length_fmap in Heq; lia|].
  intros i a r Ha Hr. destruct (Hall i a Ha) as (r' & c & Hr' & Hc & Hcase).
  rewrite <- Heq in Hr'.
  rewrite list_lookup_fmap, Hr in Hr'. injection Hr' as <-. destruct c as [[p x]|].
  - split; [|exists (Some (p, x)); split; [done|]].
    + destruct Hcase as (? & ? & ? & ? & ? & ? & ? & ? & ? & _ & _ & _ & _ & _ & _ & _ & b & Hb & ->).
      rewrite Hids in Hb. change (map id_of l) with (id_of <$> l) in Hb. rewrite list_lookup_fmap, Ha in Hb.
      by injection Hb as <-.
    + eapply answer_of_extend; [exact Hm1|exact Hcase|]. apply moves_refl, Hm2.
  - subst r. split; [done|]. by exists None.
Qed.

End All.

End Answers.

(** The commands of the two handlers. *)
Definition settle_made (consumer_id : string) (xs : list AggregateSettlement) (c : AggregateGroupPartitionCommand)
    (deadline : PbSettlementStatus -> N) : Prop :=
  exists now_ms, c = GSettle consumer_id now_ms xs /\ deadline = fun _ => 0%N.

Definition renew_made (group : AggregateGroupDefinition) (consumer_id : string) (xs : list Uuid)
    (c : AggregateGroupPartitionCommand) (deadline : PbSettlementStatus -> N) : Prop :=
  exists now_ms, c = GRenew consumer_id (saturating_add_u64 now_ms (ack_timeout_ms (gd_settings group))) xs /\
    deadline = fun st => if bool_decide (st = PbApplied)
                         then saturating_add_u64 now_ms (ack_timeout_ms (gd_settings group)) else 0%N.

Lemma settle_command_runs n consumer w xs :
  world_ok w -> runs w (settle_command n consumer xs) (fun _ cmd => settle_made consumer xs cmd.1 cmd.2).
Proof.
  intros Hw. unfold settle_command. eapply (runs_bind _ _ _ (fun _ _ => True)).
  { apply runs_effect; [done|intros; by eapply unix_millis_moves|done]. }
  intros w1 now Hm _. apply runs_ret; [apply Hm|]. by exists now.
Qed.

Lemma renew_command_runs n group consumer w xs :
  world_ok w -> runs w (renew_command n group consumer xs) (fun _ cmd => renew_made group consumer xs cmd.1 cmd.2).
Proof.
  intros Hw. unfold renew_command. eapply (runs_bind _ _ _ (fun _ _ => True)).
  { apply runs_effect; [done|intros; by eapply unix_millis_moves|done]. }
  intros w1 now Hm _. apply runs_ret; [apply Hm|]. by exists now.
Qed.

(** The group and the type a handler of a consumer starts from. *)
Definition serving (n : N) (ty : AggregateTypeId) (name : string) (group : AggregateGroupDefinition)
    (d : AggregateTypeDefinition) (w : world) : Prop :=
  (exists sh, past (control n) w sh /\ groups_of sh !! (ty, name) = Some group) /\
  (exists sh, past (control n) w sh /\ active_in ty d sh) /\ group_ok group /\
  group_key group = (ty, name) /\ identifier_ok name /\ definition_wf ty d.

Lemma serving_extend n ty name group d w w' : serving n ty name group d w -> moves w w' -> serving n ty name group d w'.
Proof.
  intros ((sh & Hp & Hg) & (sh' & Hp' & Hd) & Hrest) Hm. split; [|split; [|done]].
  - exists sh. split; [by eapply past_extend|done].
  - exists sh'. split; [by eapply past_extend|done].
Qed.

Lemma serving_runs {A} n tyref name consumer w
    (f : AggregateTypeId -> AggregateGroupDefinition -> AggregateTypeDefinition -> Act Failure A) (Q : world -> A -> Prop) :
  world_ok w ->
  (forall w1 ty group d, moves w w1 -> proto_aggregate_type tyref = Ok ty -> serving n ty name group d w1 ->
     runs w1 (f ty group d) Q) ->
  runs w (ty ← handler (lift (proto_aggregate_type tyref));
          _ ← handler (lift (map_err invalid_of (validate_aggregate_identifier "consumer_id" consumer)));
          group ← handler (require_group n ty name);
          d ← handler (require_active_aggregate_type n ty);
          f ty group d) Q.
Proof.
  intros Hw Hf. eapply (runs_bind _ _ _ (fun _ ty => proto_aggregate_type tyref = Ok ty)); [by apply runs_lift|].
  intros w1 ty Hm1 Hty. eapply (runs_bind _ _ _ (fun _ _ => True)); [by apply runs_lift; [apply Hm1|]|].
  intros w2 [] Hm2 _. eapply (runs_bind _ _ _ (fun w3 g => (exists sh, past (control n) w3 sh /\
    groups_of sh !! (ty, name) = Some g) /\ group_ok g /\ group_key g = (ty, name) /\ identifier_ok name)).
  { apply runs_handler; [apply Hm2|apply moving_require_group|]. intros w3 g Hg.
    apply require_group_Ok in Hg as (? & sh & ? & ? & ? & ?); [|apply Hm2]. split; [by exists sh|done]. }
  intros w3 g Hm3 ((sh & Hp & Hg) & Hgok & Hname & Hid).
  eapply (runs_bind _ _ _ (fun w4 d => (exists sh, past (control n) w4 sh /\ active_in ty d sh) /\ definition_wf ty d)).
  { apply runs_handler; [apply Hm3|apply moving_require_active|]. intros w4 d Hd.
    apply require_active_Ok in Hd as (_ & sh' & ? & ? & ?); [|apply Hm3]. split; [by exists sh'|done]. }
  intros w4 d Hm4 [Hd Hdwf]. apply Hf; [|done|].
  - exact (moves_trans _ _ _ Hm1 (moves_trans _ _ _ Hm2 (moves_trans _ _ _ Hm3 Hm4))).
  - split; [|done]. exists sh. split; [by eapply past_extend|done].
Qed.

(** The answers of the two handlers, item by item. *)
Definition settled_in_order (n : N) (tyref : option PbTypeRef) (name consumer : string) (settlements : list PbSettlement)
    (w w' : world) (replies : list SettlementReply) : Prop :=
  exists ty group d, proto_aggregate_type tyref = Ok ty /\ serving n ty name group d w' /\
    length replies = length settlements /\
    forall i s r, settlements !! i = Some s -> replies !! i = Some r -> sl_delivery_id r = ps_delivery_id s /\
      exists token, decode_delivery_token (ps_delivery_id s) ty name = Ok token /\
        if (tk_group_epoch token =? gd_epoch group)%N
        then exists action, settlement_action (ps_action s) = Ok action /\
          answer_of ty group d (map ps_delivery_id settlements) false (settle_made consumer) w w' (tk_partition_id token)
            i (mkSettlement (tk_delivery_id token) action (ps_reason s)) r
        else sl_status r = PbStaleLease.

Definition renewed_in_order (n : N) (tyref : option PbTypeRef) (name consumer : string) (delivery_ids : list Bytes)
    (w w' : world) (replies : list SettlementReply) : Prop :=
  exists ty group d, proto_aggregate_type tyref = Ok ty /\ serving n ty name group d w' /\
    length replies = length delivery_ids /\
    forall i b r, delivery_ids !! i = Some b -> replies !! i = Some r -> sl_delivery_id r = b /\
      exists token, decode_delivery_token b ty name = Ok token /\
        if (tk_group_epoch token =? gd_epoch group)%N
        then answer_of ty group d delivery_ids true (renew_made group consumer) w w' (tk_partition_id token)
          i (tk_delivery_id token) r
        else sl_status r = PbStaleLease.

Lemma classify_settlement_Ok ty name epoch s c :
  classify_settlement ty name epoch s = Ok c ->
  exists token, decode_delivery_token (ps_delivery_id s) ty name = Ok token /\
    if (tk_group_epoch token =? epoch)%N
    then exists action, settlement_action (ps_action s) = Ok action /\
      c = Some (tk_partition_id token, mkSettlement (tk_delivery_id token) action (ps_reason s))
    else c = None.
Proof.
  unfold classify_settlement. destruct (decode_delivery_token _ _ _) as [token|e]; [|done]. cbn.
  intros Hc. exists token. split; [done|]. destruct (_ =? _)%N; cbn in Hc; [|congruence].
  destruct (settlement_action _) as [a|e]; [|done]. exists a. split; [done|]. cbn in Hc. congruence.
Qed.

Lemma classify_renewal_Ok ty name epoch b c :
  classify_renewal ty name epoch b = Ok c ->
  exists token, decode_delivery_token b ty name = Ok token /\
    if (tk_group_epoch token =? epoch)%N then c = Some (tk_partition_id token, tk_delivery_id token) else c = None.
Proof.
  unfold classify_renewal. destruct (decode_delivery_token _ _ _) as [token|e]; [|done]. cbn.
  intros Hc. exists token. split; [done|]. destruct (_ =? _)%N; cbn in Hc; congruence.
Qed.

Lemma settle_runs n tyref name consumer settlements w :
  world_ok w -> runs w (settle_aggregate_group n tyref name consumer settlements)
    (settled_in_order n tyref name consumer settlements w).
Proof.
  intros Hw. apply serving_runs; [exact Hw|]. intros w1 ty group d Hm1 Hty Hs. pose proof Hs as (_ & _ & Hg & _ & _ & Hd).
  eapply runs_mono; [apply (answer_all_runs n ty group d (map ps_delivery_id settlements) false _
    (settle_made consumer) Hg Hd); [intros; by apply settle_command_runs| |done|apply Hm1]|].
  - by intros xs c dl (now & -> & _).
  - cbn beta. intros w2 replies Hm2 [Hlen Hall]. exists ty, group, d. split_ands; [done|by eapply serving_extend|done|].
    intros i s r Hi Hr. destruct (Hall i s r Hi Hr) as (Hid & c & Hc & Hcase). split; [done|].
    apply classify_settlement_Ok in Hc as (token & Htok & Hc). exists token. split; [done|].
    destruct (_ =? _)%N; [destruct Hc as (a & Ha & ->); exists a; split; [done|]|by subst c].
    eapply answer_of_extend; [exact Hm1|exact Hcase|apply moves_refl, Hm2].
Qed.

Lemma renew_runs n tyref name consumer delivery_ids w :
  world_ok w -> runs w (renew_aggregate_group n tyref name consumer delivery_ids)
    (renewed_in_order n tyref name consumer delivery_ids w).
Proof.
  intros Hw. apply serving_runs; [exact Hw|]. intros w1 ty group d Hm1 Hty Hs. pose proof Hs as (_ & _ & Hg & _ & _ & Hd).
  eapply runs_mono; [apply (answer_all_runs n ty group d delivery_ids true _
    (renew_made group consumer) Hg Hd); [intros; by apply renew_command_runs| | |apply Hm1]|].
  - by intros xs c dl (now & -> & _).
  - symmetry. apply map_id.
  - cbn beta. intros w2 replies Hm2 [Hlen Hall]. exists ty, group, d. split_ands; [done|by eapply serving_extend|done|].
    intros i s r Hi Hr. destruct (Hall i s r Hi Hr) as (Hid & c & Hc & Hcase). split; [done|].
    apply classify_renewal_Ok in Hc as (token & Htok & Hc). exists token. split; [done|].
    destruct (_ =? _)%N; subst c; [|done]. eapply answer_of_extend; [exact Hm1|exact Hcase|apply moves_refl, Hm2].
Qed.

(** C18: settling and renewing answer every item of the request. When a handler
    succeeds it gives one answer for each item, in the order of the request and
    under the item's delivery identifier. A token of another epoch of the group
    is answered with a stale lease; any other item with the status, at the item's
    place, of a command for the consumer that the shard of its partition applied
    during the call, for the group's epoch and settings. A renewal that was
    applied is answered with the deadline the shard was given. *)
Theorem settlements_answered_in_order (n : N) (tyref : option PbTypeRef) (name consumer : string) (w w' : world)
  (settlements : list PbSettlement) (delivery_ids : list Bytes) (replies : list SettlementReply) (Hw : world_ok w) :
  (settle_aggregate_group n tyref name consumer settlements w = (w', Ok replies) ->
   settled_in_order n tyref name consumer settlements w w' replies) /\
  (renew_aggregate_group n tyref name consumer delivery_ids w = (w', Ok replies) ->
   renewed_in_order n tyref name consumer delivery_ids w w' replies).
Proof.
  split; intros Hr; [by destruct (settle_runs n tyref name consumer settlements w Hw _ _ Hr)|].
  by destruct (renew_runs n tyref name consumer delivery_ids w Hw _ _ Hr).
Qed.

End Specs.
