(* ===== verification/GroupFetch.v ===== *)
(** * es-server: what a fetch hands out

    The theorems on [fetch_aggregate_group] and [create_aggregate_group] of
    [GroupService.v]: every event a fetch hands out is the stored event of the
    delivery the shard recorded for it, and the token that comes with it leads a
    settlement back to that delivery; a group is created with a start position
    for every partition. *)

From S2P Require Import Prelude.
From S2P Require Import Bytes.
From S2P Require Import Core.
From S2P Require Import Aggregate.
From S2P Require Import Catalog.
From S2P Require Import GroupCatalog.
From S2P Require Import GroupPartition.
From S2P Require Import Keys.
From S2P Require Import Store.
From S2P Require Import RaftType.
From S2P Require Import LogStore.
From S2P Require Import StateMachine.
From S2P Require Import ShardSpec.
From S2P Require Import Codecs.
From S2P Require Import Apply.
From S2P Require Import Reads.
From S2P Require Import History.
From S2P Require Import Config.
From S2P Require Import Topology.
From S2P Require Import Bootstrap.
From S2P Require Import Wire.
From S2P Require Import Follow.
From S2P Require Import FollowStream.
From S2P Require Import Cluster.
From S2P Require Import Service.
From S2P Require Import SingleNode.
From S2P Require Import StatePages.
From S2P Require Import FollowService.
From S2P Require Import GroupService.

(** ** Lemmas: claims *)

(** What a claim hands out, whatever the byte limit. *)
Lemma claim_delivers p consumer now dl settings mc mb cs p' l :
  partition_wf p -> settings_wf settings -> candidates_wf cs ->
  claim p consumer now dl settings mc mb cs = (p', l) ->
  exists took, took `sublist_of` cs /\ Forall2 (delivers consumer dl (gp_epoch p)) l took /\
    Forall (fun d => gp_deliveries p' !! dl_delivery_id d = Some d) l /\ (len l <= mc)%N.
Proof.
  intros Hwf Hset Hcs Hc.
  destruct (claim_cases p consumer now dl settings mc mb cs Hwf Hset Hcs)
    as [He|(took & s' & Hsub & Hrun & _ & He & _ & _)]; rewrite Hc in He; injection He as -> ->.
  { exists []. split_ands; [apply sublist_nil_l|done|done|rewrite len_nil; lia]. }
  destruct (claim_runs_delivers _ _ _ _ _ _ _ Hrun) as (new & Hnew & Hdel & Hin).
  destruct (claim_runs_credit _ _ _ _ _ _ _ settings Hrun) as [Hn _].
  destruct (expire_ok (fun _ _ => False) p now settings Hwf) as [_ [Hep _ _ _ _ _ _ _]].
  cbn [cl_claimed cl_partition cl_credit app] in *. rewrite Hnew. exists took.
  split_ands; [done|by rewrite <- Hep|done|].
  pose proof (Forall2_length _ _ _ Hdel) as Hlen. unfold len in Hn |- *. lia.
Qed.

(** The group's state of a partition, at a request of an epoch. *)
Definition state_for (sh : shard) (ty : AggregateTypeId) (p : N) (name : string) (epoch start : N) :
    AggregateGroupPartition :=
  let st := default (partition_new epoch start) (s_groups sh !! (ty, p, name)) in
  if (gp_epoch st <? epoch)%N then partition_reset st epoch start else st.

Lemma state_for_wf sh ty p name epoch start :
  shard_wf sh -> (start <= u64_max)%N -> partition_wf (state_for sh ty p name epoch start).
Proof.
  intros Hwf Hs. unfold state_for. case_if; [by apply partition_new_wf|].
  destruct (s_groups sh !! (ty, p, name)) eqn:Hg; [by eapply (sw_groups _ Hwf)|]. by apply partition_new_wf.
Qed.

Lemma step_claim `{Xxh3} s ty p g name epoch start settings consumer now dl mc mb cs s' l :
  shard_step s (GroupPartitionRequest ty p g name epoch start settings (GClaim consumer now dl mc mb cs)) =
    (s', AggregateGroupClaimed l) ->
  shard_wf s -> (start <= u64_max)%N -> settings_wf settings -> candidates_wf cs ->
  (exists took, took `sublist_of` cs /\ Forall2 (delivers consumer dl epoch) l took) /\ (len l <= mc)%N /\
  exists st, s_groups s' !! (ty, p, name) = Some st /\
    Forall (fun d => gp_deliveries st !! dl_delivery_id d = Some d) l.
Proof.
  intros Hs Hwf Hstart Hset Hcs. cbn [shard_step] in Hs. unfold step_group_partition, refuse in Hs.
  destruct (type_id_validate ty), (validate_aggregate_identifier "group_name" name), (settings_validate settings);
    try discriminate Hs.
  case_match; [discriminate|].
  destruct (epoch <? gp_epoch _)%N eqn:E1; [discriminate|]. bool_facts.
  change (if (gp_epoch (default (partition_new epoch start) (s_groups s !! (ty, p, name))) <? epoch)%N
          then _ else _) with (state_for s ty p name epoch start) in Hs.
  assert (Hep : gp_epoch (state_for s ty p name epoch start) = epoch).
  { unfold state_for. destruct (gp_epoch _ <? epoch)%N eqn:E2; bool_facts; [done|lia]. }
  unfold group_command in Hs. destruct (claim _ _ _ _ _ _ _ _) as [st' l'] eqn:Hc. injection Hs as <- ->.
  apply claim_delivers in Hc as (took & Hsub & Hdel & Hin & Hlen); [|by apply state_for_wf|done|done].
  rewrite Hep in Hdel. split_ands; [by exists took|done|]. exists st'. split; [|done]. cbn. apply lookup_insert_eq.
Qed.

(** ** Lemmas: the window *)

Lemma seqN_nodup from n : NoDup (seqN from n).
Proof.
  apply NoDup_alt. intros i j q Hi%seqN_lookup Hj%seqN_lookup. lia.
Qed.

Definition candidate_of (c : AggregateDeliveryCandidate) (e : AggregateEvent) : Prop :=
  cd_partition_position c = ev_partition_position e /\ cd_aggregate_id c = ev_aggregate_id e /\
  cd_event_id c = ev_event_id e.

Lemma event_window_lookup events q e :
  NoDup (map ev_partition_position events) ->
  event_window events !! q = Some e <-> e ∈ events /\ ev_partition_position e = q.
Proof.
  intros Hnd. unfold event_window. rewrite collect_map_lookup.
  - rewrite list_elem_of_fmap. naive_solver.
  - change (map (fun e => (ev_partition_position e, e)) events) with ((fun e => (ev_partition_position e, e)) <$> events).
    by rewrite <- list_fmap_compose.
Qed.

Lemma match_deliveries_Ok window claimed ds left :
  match_deliveries window claimed = Ok (ds, left) ->
  ds.*1 = claimed /\ Forall (fun de => window !! dl_partition_position de.1 = Some de.2) ds.
Proof.
  revert window ds left. induction claimed as [|d claimed IH]; intros window ds left; cbn [match_deliveries].
  { by intros [= <- <-]. }
  intros (e & He & Hr)%bind_Ok_inv. apply bind_Ok_inv in Hr as ([ds' left'] & Hr & [= <- <-]).
  assert (He' : window !! dl_partition_position d = Some e) by (by destruct (window !! _); [injection He as ->|]).
  destruct (IH _ _ _ Hr) as [Hd Hall]. cbn. split; [by f_equal|]. constructor; [done|].
  eapply Forall_impl; [exact Hall|]. cbn. intros de Hde. by apply lookup_delete_Some in Hde as [_ ?].
Qed.

(** The deliveries of a claim are in the window. *)
Lemma match_deliveries_total window claimed :
  NoDup (map dl_partition_position claimed) ->
  Forall (fun d => is_Some (window !! dl_partition_position d)) claimed ->
  is_ok (match_deliveries window claimed) = true.
Proof.
  revert window. induction claimed as [|d claimed IH]; intros window Hnd Hall; cbn [match_deliveries]; [done|].
  apply NoDup_cons in Hnd as [Hd Hnd]. apply Forall_cons in Hall as [[e He] Hall]. rewrite He. cbn [ok_or mbind result_bind].
  specialize (IH (delete (dl_partition_position d) window) Hnd). destruct (match_deliveries _ claimed) as [[]|]; [done|].
  apply IH. apply Forall_forall. intros x Hx. rewrite lookup_delete_ne; [by eapply Forall_forall in Hall|].
  intros Heq. apply Hd. rewrite Heq. by apply list_elem_of_fmap_2.
Qed.

(** ** The handlers *)

Section Specs.
Context {M : Type} `{ClusterLaws M} `{!SmCodecLaws M} `{DebugResponse} `{RpcCodecLaws} `{TokenCodecLaws}.

Lemma runs_read {A} n s status (f : tree -> Result A) w :
  world_ok w ->
  runs w (handler (read n s status f)) (fun w' a => exists t sh ap, f t = Ok a /\
    ShardRep (M := M) s (tree_view t) sh ap /\ past s w' sh).
Proof.
  intros Hw. apply runs_handler; [done|apply moving_read|]. intros w1 a Hr. by apply read_Ok in Hr as [_ ?].
Qed.

Lemma runs_write n s req w :
  world_ok w -> service_request req ->
  runs w (handler (write n s req)) (fun w' r => applied s req r w w').
Proof.
  intros Hw Hreq. apply runs_handler; [done|by apply moving_write|]. intros w1 a Hr. by apply write_Ok in Hr as [_ ?].
Qed.

Lemma runs_if_local_leader {A} n s (here there : Act Status A) w (Q : world -> A -> Prop) :
  world_ok w ->
  (forall w1, moves w w1 -> (s <= u64_max)%N -> runs w1 (handler here) Q) ->
  (forall w1, moves w w1 -> runs w1 (handler there) Q) ->
  runs w (handler (if_local_leader n s here there)) Q.
Proof.
  intros Hw Hh Ht w' r. unfold handler at 1, map_failure, if_local_leader.
  destruct (local_leader n s w) as [w1 [[]|e]] eqn:Hl; pose proof (moving_local_leader _ _ _ _ _ Hw Hl) as Hm; intros Hr.
  - destruct (Hh w1 Hm (local_leader_u64 _ _ _ _ Hl) w' r Hr) as [Hm2 HQ]. split; [by eapply moves_trans|done].
  - destruct (Ht w1 Hm w' r Hr) as [Hm2 HQ]. split; [by eapply moves_trans|done].
Qed.

Lemma runs_call {A} n peer (serve : Act Status A) w (Q : world -> A -> Prop) :
  world_ok w -> (forall w1, moves w w1 -> runs w1 (handler serve) Q) ->
  (forall w1 w2 a, Q w1 a -> moves w1 w2 -> Q w2 a) -> runs w (handler (call n peer serve)) Q.
Proof.
  intros Hw Hs HQ. unfold call. eapply (runs_handler_bind _ _ _ (fun _ _ => True)).
  { by apply runs_handler; [|apply moving_transport|]. }
  intros w1 [] Hm1 _. eapply runs_handler_bind; [by apply Hs|]. intros w2 a Hm2 HQa.
  eapply (runs_handler_bind _ _ _ (fun w3 _ => Q w3 a)).
  { apply runs_handler; [apply Hm2|apply moving_transport|]. intros w3 [] Ht. eapply HQ; [exact HQa|].
    eapply moving_transport; [apply Hm2|exact Ht]. }
  intros w3 [] Hm3 HQ3. by apply runs_lift; [apply Hm3|intros b [= <-]].
Qed.
(** Local steps of a handler that only moves on. *)
Lemma runs_moving {A} w (m : Act Status A) : world_ok w -> moving m -> runs w (handler m) (fun _ _ => True).
Proof. intros Hw Hm. by apply runs_handler. Qed.

Lemma make_candidates_runs n events w :
  world_ok w -> runs w (handler (make_candidates n events)) (fun _ cs => Forall2 candidate_of cs events).
Proof.
  revert w. induction events as [|e events IH]; intros w Hw; cbn [make_candidates].
  { by apply runs_lift; [|intros cs [= <-]]. }
  eapply runs_handler_bind; [apply (runs_moving _ _ Hw), moving_new_uuid|]. intros w1 u Hm1 _.
  eapply runs_handler_bind; [apply IH, Hm1|]. cbn beta. intros w2 cs Hm2 Hcs.
  apply runs_lift; [apply Hm2|]. intros l [= <-]. by constructor.
Qed.

(** The widths of an input, and identifiers that are keys. *)
Definition fetch_input_ok (i : GroupPartitionFetchInput) : Prop :=
  partition_key_wf (fi_aggregate_type i) (fi_partition_id i) /\ name_wf (fi_group_name i) /\
  (fi_start_position i <= u64_max)%N /\ settings_wf (fi_settings i).

(** A delivery handed out with its event: the event is the one stored at the
    delivery's position, and the delivery is for the consumer and the epoch. *)
Definition delivery_of (s : N) (i : GroupPartitionFetchInput) (w : world)
    (de : AggregateGroupDelivery * AggregateEvent) : Prop :=
  dl_consumer_id de.1 = fi_consumer_id i /\ dl_group_epoch de.1 = fi_group_epoch i /\
  dl_aggregate_id de.1 = ev_aggregate_id de.2 /\ dl_event_id de.1 = ev_event_id de.2 /\
  exists sh, past s w sh /\
    event_at_position sh (fi_aggregate_type i) (fi_partition_id i) (dl_partition_position de.1) = Some de.2.

(** The shard has recorded the deliveries. *)
Definition deliveries_recorded (s : N) (i : GroupPartitionFetchInput) (w : world) (l : list AggregateGroupDelivery) : Prop :=
  exists sh st, past s w sh /\ s_groups sh !! (fi_aggregate_type i, fi_partition_id i, fi_group_name i) = Some st /\
    Forall (fun d => gp_deliveries st !! dl_delivery_id d = Some d) l.

Record fetched (s : N) (i : GroupPartitionFetchInput) (w : world) (out : GroupPartitionFetchOutput) : Prop := {
  fe_limit : (len (fo_deliveries out) <= fi_max_events i)%N;
  fe_deliveries : Forall (delivery_of s i w) (fo_deliveries out);
  fe_recorded : fo_deliveries out = [] \/ deliveries_recorded s i w (fo_deliveries out).*1
}.

Lemma fetched_extend s i w w' out : fetched s i w out -> moves w w' -> fetched s i w' out.
Proof.
  intros [Hl Hd Hr] Hm. split; [done| |].
  - eapply Forall_impl; [exact Hd|]. intros de (? & ? & ? & ? & sh & Hp & He). do 4 (split; [done|]).
    exists sh. split; [by eapply past_extend|done].
  - destruct Hr as [?|(sh & st & Hp & ?)]; [by left|right]. exists sh, st. split; [by eapply past_extend|done].
Qed.

Lemma fetched_nothing s i w b1 b2 : fetched s i w (mkFetchOutput [] b1 b2).
Proof. split; [apply N.le_0_l|done|by left]. Qed.

(** The events of a window, as some state of the shard has them. *)
Lemma window_events s t sh ap ty p from limit l :
  (s <= u64_max)%N -> ShardRep (M := M) s (tree_view t) sh ap -> shard_wf sh -> partition_key_wf ty p ->
  (from <= u64_max)%N -> read_aggregate_partition_events s t ty p from limit = Ok l ->
  NoDup (map ev_partition_position l) /\
  Forall (fun e => event_at_position sh ty p (ev_partition_position e) = Some e /\ (ev_partition_position e < u64_max)%N) l.
Proof.
  intros Hs Hrep Hwf Hp Hfrom Hl.
  apply (read_events_window s Hs t sh ap Hrep Hwf ty p Hp from limit l Hfrom) in Hl.
  assert (Hpos : map ev_partition_position l = seqN from (read_window (next_of sh ty p) from limit)).
  { clear -Hl. induction Hl as [|q e qs l [_ <-] _ IH]; [done|]. cbn. by rewrite IH. }
  split; [rewrite Hpos; apply seqN_nodup|]. apply Forall_forall. intros e He.
  apply list_elem_of_lookup in He as [k Hk]. destruct (Forall2_lookup_r _ _ _ _ _ Hl Hk) as (q & _ & Hat & <-).
  split; [done|]. unfold event_at_position in Hat.
  destruct (s_index sh !! (ty, p, ev_partition_position e)) as [x|] eqn:Hx; [|discriminate].
  pose proof (proj1 (sw_positions _ Hwf ty p (ev_partition_position e)) (mk_is_Some _ _ Hx)).
  pose proof (sw_next _ Hwf ty p). lia.
Qed.

Lemma claim_request_ok i candidates :
  fetch_input_ok i -> candidates_wf candidates -> service_request (claim_request i candidates).
Proof. intros ((_ & Hp) & _ & Hst & Hset) Hc. split; [|done]. cbn. by split_ands. Qed.

(** The claim of the fetch, matched with the window. *)
Lemma claim_matched s i candidates events sh response claimed ds left w w' :
  world_ok w -> fetch_input_ok i -> past s w' sh ->
  NoDup (map ev_partition_position events) ->
  Forall (fun e => event_at_position sh (fi_aggregate_type i) (fi_partition_id i) (ev_partition_position e) = Some e /\
    (ev_partition_position e < u64_max)%N) events ->
  Forall2 candidate_of candidates events -> candidates_wf candidates ->
  applied s (claim_request i candidates) response w w' -> map_claim_response response = Ok claimed ->
  match_deliveries (event_window events) claimed = Ok (ds, left) ->
  forall b1 b2, fetched s i w' (mkFetchOutput ds b1 b2).
Proof.
  intros Hw Hin Hpast Hnd Hev Hcs Hcwf (s1 & s2 & Hl1 & Hs & Hl2) Hmap Hm b1 b2.
  destruct response; try discriminate Hmap. injection Hmap as ->.
  pose proof (later_ok _ _ Hl1 (shard_of_ok _ s Hw)) as Hwf1.
  pose proof (step_ok _ _ _ _ (claim_request_ok i candidates Hin Hcwf) Hs Hwf1) as Hwf2. destruct Hin as (Hp & _ & Hst & Hset).
  unfold claim_request in Hs.
  apply step_claim in Hs as ((took & Hsub & Hdel) & Hlim & st & Hg & Hrec); [|apply Hwf1|done|done|done].
  apply match_deliveries_Ok in Hm as [Hfst Hall]. split; cbn [fo_deliveries].
  - rewrite <- Hfst in Hlim. unfold len in *. by rewrite length_fmap in Hlim.
  - apply Forall_forall. intros [d e] Hde. eapply Forall_forall in Hall; [|exact Hde]. cbn [fst snd] in Hall.
    apply event_window_lookup in Hall as [He Hpos]; [|done]. pose proof He as Hat.
    eapply Forall_forall in Hat; [|exact Hev]. destruct Hat as [Hat _].
    assert (Hd : d ∈ claimed) by (rewrite <- Hfst; apply list_elem_of_fmap; by exists (d, e)).
    apply list_elem_of_lookup in Hd as [k Hk]. destruct (Forall2_lookup_l _ _ _ _ _ Hdel Hk) as (c & Hc & Hdc).
    destruct Hdc as (_ & Hcons & Hdpos & Hagg & Hid & _ & Hep).
    apply list_elem_of_lookup_2 in Hc. apply (elem_of_sublist _ _ _ Hc) in Hsub as Hin'.
    apply list_elem_of_lookup in Hin' as [m Hm]. destruct (Forall2_lookup_l _ _ _ _ _ Hcs Hm) as (e' & He' & Hcp & Hca & Hci).
    apply list_elem_of_lookup_2 in He'. eapply Forall_forall in He'; [|exact Hev]. destruct He' as [Hat' _].
    assert (e' = e) as ->.
    { rewrite <- Hcp, <- Hdpos in Hat'. rewrite Hpos in Hat. congruence. }
    unfold delivery_of. cbn [fst snd]. split_ands; [done|done|congruence|congruence|]. exists sh. split; [done|].
    by rewrite <- Hpos.
  - right. exists s2, st. split_ands; [split; [exact Hwf2|exact Hl2]|exact Hg|by rewrite Hfst].
Qed.

Lemma candidates_of_wf candidates events :
  Forall2 candidate_of candidates events -> Forall (fun e => (ev_partition_position e < u64_max)%N) events ->
  candidates_wf candidates.
Proof.
  induction 1 as [|c e cs es (Hpos & _) _ IH]; intros Hall; [constructor|].
  apply Forall_cons in Hall as [He Hall]. constructor; [by rewrite Hpos|by apply IH].
Qed.

Lemma fetch_local_runs n s i w :
  world_ok w -> (s <= u64_max)%N -> fetch_input_ok i ->
  runs w (handler (fetch_group_partition_local n s i)) (fetched s i).
Proof.
  intros Hw Hs Hin. pose proof Hin as (Hp & Hname & Hst & Hset). unfold fetch_group_partition_local.
  eapply runs_handler_bind; [by apply runs_read|]. cbn beta.
  intros w1 o Hm1 (t & sh & ap & Ho & Hrep & Hpast). apply (read_group_partition_rep _ Hs _ _ _ Hrep) in Ho; [|done|done].
  subst o. cbn zeta. set (o := s_groups sh !! _). destruct (fi_group_epoch i <? gp_epoch (fetch_state i o))%N; [by apply runs_lift; [apply Hm1|]|].
  change (if (gp_epoch (fetch_state i o) <? fi_group_epoch i)%N
          then partition_reset (fetch_state i o) (fi_group_epoch i) (fi_start_position i) else fetch_state i o)
    with (state_for sh (fi_aggregate_type i) (fi_partition_id i) (fi_group_name i) (fi_group_epoch i) (fi_start_position i)).
  pose proof (state_for_wf sh (fi_aggregate_type i) (fi_partition_id i) (fi_group_name i) (fi_group_epoch i)
    (fi_start_position i) (proj1 (proj1 Hpast)) Hst) as Hwf.
  revert Hwf. generalize (state_for sh (fi_aggregate_type i) (fi_partition_id i) (fi_group_name i) (fi_group_epoch i)
    (fi_start_position i)) as state. intros state [[[Hstate _] _ _ _ _ _] _].
  eapply runs_handler_bind; [apply runs_moving; [apply Hm1|apply moving_read]|]. intros w2 head Hm2 _.
  destruct (bool_decide _ && bool_decide _ && _).
  { by apply runs_lift; [apply Hm2|intros out [= <-]; apply fetched_nothing]. }
  destruct (available_credit state (fi_consumer_id i) (fi_settings i) =? 0)%N.
  { by apply runs_lift; [apply Hm2|intros out [= <-]; apply fetched_nothing]. }
  eapply runs_handler_bind; [by apply runs_read, Hm2|]. cbn beta. intros w3 events Hm3 (t' & sh' & ap' & He & Hrep' & Hpast').
  apply (window_events s t' sh' ap') in He as [Hnd Hev]; [|done|done|apply Hpast'|done|done].
  eapply runs_handler_bind; [apply make_candidates_runs, Hm3|]. cbn beta. intros w4 cs Hm4 Hcs.
  assert (Hcwf : candidates_wf cs).
  { eapply candidates_of_wf; [exact Hcs|]. eapply Forall_impl; [exact Hev|]. by intros e [_ ?]. }
  eapply runs_handler_bind; [by apply runs_write; [apply Hm4|apply claim_request_ok]|]. cbn beta.
  intros w5 resp Hm5 Hap.
  eapply (runs_handler_bind _ _ _ (fun w6 l => w6 = w5 /\ map_claim_response resp = Ok l)); [by apply runs_lift; [apply Hm5|]|].
  intros w6 claimed Hm6 [-> Hcl].
  eapply (runs_handler_bind _ _ _ (fun w7 m => w7 = w5 /\ match_deliveries (event_window events) claimed = Ok m));
    [by apply runs_lift; [apply Hm5|]|].
  intros w7 [ds left] Hm7 [-> Hmd]. apply runs_lift; [apply Hm5|]. intros out [= <-].
  eapply (claim_matched s i cs events sh'); [apply Hm4|done| |done|done|done|done|exact Hap|exact Hcl|exact Hmd].
  eapply past_extend; [exact Hpast'|]. exact (moves_trans _ _ _ Hm4 Hm5).
Qed.

Lemma fetch_partition_runs n s i w :
  world_ok w -> fetch_input_ok i -> runs w (handler (fetch_group_partition n s i)) (fetched s i).
Proof.
  intros Hw Hin. unfold fetch_group_partition. apply runs_if_local_leader; [done| |].
  { intros w1 Hm1 Hs. by apply fetch_local_runs; [apply Hm1|..]. }
  intros w1 Hm1. eapply (runs_handler_bind _ _ _ (fun _ b => encode_bincode i "GroupPartitionFetchInput" = Ok b));
    [by apply runs_lift; [apply Hm1|]|].
  intros w2 payload Hm2 Henc. eapply runs_handler_bind; [apply runs_moving; [apply Hm2|apply moving_snapshot]|].
  intros w3 tp Hm3 _. eapply runs_handler_bind; [apply runs_moving; [apply Hm3|apply moving_client]|].
  intros w4 peer Hm4 _.
  eapply (runs_handler_bind _ _ _ (fun w5 reply => exists out, encode_bincode out "GroupPartitionFetchOutput" = Ok reply /\
    fetched s i w5 out)).
  - apply runs_call; [apply Hm4| |].
    + intros w5 Hm5. unfold fetch_aggregate_group_partition_internal. rewrite (decode_encoded _ _ _ _ Henc).
      eapply (runs_handler_bind _ _ _ (fun _ x => x = i)); [by apply runs_lift; [apply Hm5|intros x [= <-]]|].
      intros w6 x Hm6 ->. eapply (runs_handler_bind _ _ _ (fun _ _ => (s <= u64_max)%N)).
      { apply runs_handler; [apply Hm6|apply moving_local_leader|]. intros w7 []. apply local_leader_u64. }
      intros w7 [] Hm7 Hs. eapply runs_handler_bind; [by apply fetch_local_runs; [apply Hm7|..]|].
      intros w8 out Hm8 Hf. apply runs_lift; [apply Hm8|]. intros b Hb. by exists out.
    + intros w5 w6 reply (out & He & Hf) Hm. exists out. split; [done|]. by eapply fetched_extend.
  - cbn beta. intros w5 reply Hm5 (out & He & Hf). apply runs_lift; [apply Hm5|]. intros out' Hd.
    rewrite (decode_encoded _ _ _ _ He) in Hd. by injection Hd as <-.
Qed.

(** An item of a fetch: its token names the partition, the epoch and a delivery
    that the partition's shard has recorded for the consumer; its event is the
    one stored at the delivery's position. *)
Definition handed_out (ty : AggregateTypeId) (group : AggregateGroupDefinition) (d : AggregateTypeDefinition)
    (consumer : string) (w : world) (pd : PbDelivery) : Prop :=
  exists p pl dl e,
    td_placements d !! p = Some pl /\
    decode_delivery_token (pd_delivery_id pd) ty (gd_name group) =
      Ok (mkToken 1 ty (gd_name group) p (gd_epoch group) (dl_delivery_id dl)) /\
    pd = mkPbDelivery (pd_delivery_id pd) (stored_event_to_proto e) (dl_attempt dl) (dl_deadline_ms dl) (dl_replayed dl) /\
    dl_consumer_id dl = consumer /\ dl_group_epoch dl = gd_epoch group /\ dl_event_id dl = ev_event_id e /\
    (exists sh, past (pl_shard_id pl) w sh /\ event_at_position sh ty p (dl_partition_position dl) = Some e) /\
    (exists sh st, past (pl_shard_id pl) w sh /\ s_groups sh !! (ty, p, gd_name group) = Some st /\
       gp_deliveries st !! dl_delivery_id dl = Some dl).

Lemma handed_out_extend ty group d consumer w w' pd :
  handed_out ty group d consumer w pd -> moves w w' -> handed_out ty group d consumer w' pd.
Proof.
  intros (p & pl & dl & e & ? & ? & ? & ? & ? & ? & (sh & Hp & ?) & (sh' & st & Hp' & ?)) Hm.
  exists p, pl, dl, e. do 6 (split; [done|]). split.
  - exists sh. split; [by eapply past_extend|done].
  - exists sh', st. split; [by eapply past_extend|done].
Qed.

Lemma push_deliveries_Ok group p ds out used out' used' :
  push_deliveries group p ds out used = Ok (out', used') ->
  exists new, out' = out ++ new /\ Forall2 (fun de pd => exists token,
    encode_delivery_token group p (dl_delivery_id de.1) = Ok token /\
    pd = mkPbDelivery token (stored_event_to_proto de.2) (dl_attempt de.1) (dl_deadline_ms de.1) (dl_replayed de.1)) ds new.
Proof.
  revert out used. induction ds as [|[d e] ds IH]; intros out used; cbn [push_deliveries].
  { intros [= <- <-]. exists []. by rewrite app_nil_r. }
  intros (token & Ht & Hr)%bind_Ok_inv. apply IH in Hr as (new & -> & Hnew). rewrite <- app_assoc. cbn [app].
  eexists. split; [reflexivity|]. constructor; [|exact Hnew]. by exists token.
Qed.

Lemma token_decodes group ty p id token :
  gd_aggregate_type group = ty -> encode_delivery_token group p id = Ok token ->
  decode_delivery_token token ty (gd_name group) = Ok (mkToken 1 ty (gd_name group) p (gd_epoch group) id).
Proof.
  intros <- He. unfold encode_delivery_token in He. unfold decode_delivery_token.
  rewrite (decode_encoded _ _ _ _ He). cbn. by rewrite !bool_decide_eq_true_2.
Qed.

Section Rounds.
Context (n : N) (ty : AggregateTypeId) (name consumer : string) (group : AggregateGroupDefinition).
Context (d : AggregateTypeDefinition) (w0 : world) (Hserve : serving n ty name group d w0).
Context (max_events max_bytes : N) (Hmax : (max_events <= u32_max)%N).

Lemma served_input p pl start consumer_id now me mb :
  td_placements d !! p = Some pl -> gd_partition_starts group !! p = Some start ->
  fetch_input_ok (mkFetchInput ty p (pl_generation pl) (gd_name group) (gd_epoch group) start (gd_settings group)
    consumer_id now me mb).
Proof.
  destruct Hserve as (_ & _ & [[Hset Hw] _] & Hk & Hid & (_ & Hty & _ & Hdom & _)). intros Hpl Hstart. injection Hk as _ Hn.
  assert (Hlt : (p < EVENT_PARTITION_COUNT)%N) by (apply Hdom; by eexists). unfold EVENT_PARTITION_COUNT in Hlt.
  split; [split; cbn; [done|lia]|]. split; [|split; [exact (Hw _ _ Hstart)|done]]. cbn. rewrite Hn. by apply identifier_name_wf.
Qed.

Definition fetch_fits (w : world) (s : FetchState) : Prop :=
  (len (ft_deliveries s) <= max_events)%N /\ Forall (handed_out ty group d consumer w) (ft_deliveries s).

Lemma fetch_fits_extend w w' s : fetch_fits w s -> moves w w' -> fetch_fits w' s.
Proof.
  intros [Hl Hall] Hm. split; [done|]. eapply Forall_impl; [exact Hall|]. intros pd Hpd. by eapply handed_out_extend.
Qed.

(** The deliveries of one partition, added to the reply. *)
Lemma pushed_fits w p pl start now mb s out ds used :
  td_placements d !! p = Some pl -> (len (ft_deliveries s) < max_events)%N -> fetch_fits w s ->
  fetched (pl_shard_id pl) (mkFetchInput ty p (pl_generation pl) (gd_name group) (gd_epoch group) start
    (gd_settings group) consumer now (max_events - as_u32 (len (ft_deliveries s))) mb) w out ->
  push_deliveries group p (fo_deliveries out) (ft_deliveries s) (ft_used_bytes s) = Ok (ds, used) ->
  (len ds <= max_events)%N /\ Forall (handed_out ty group d consumer w) ds.
Proof.
  intros Hpl Hlt [Hlen Hall] [Hlim Hdel Hrec] Hpush. apply push_deliveries_Ok in Hpush as (new & -> & Hnew).
  cbn [fi_max_events] in Hlim. pose proof (Forall2_length _ _ _ Hnew) as Hn. split.
  - unfold as_u32 in Hlim. rewrite N.mod_small in Hlim by lia. unfold len in *. rewrite length_app. lia.
  - apply Forall_app. split; [done|]. apply Forall_forall. intros pd Hpd. apply list_elem_of_lookup in Hpd as [k Hk].
    destruct (Forall2_lookup_r _ _ _ _ _ Hnew Hk) as ([dl e] & Hde & token & Ht & ->). cbn [fst snd] in Ht |- *.
    apply list_elem_of_lookup_2 in Hde. pose proof Hde as Hof. eapply Forall_forall in Hof; [|exact Hdel].
    destruct Hof as (Hc & Hep & _ & Hid & sh & Hp & He). cbn [fst snd fi_consumer_id fi_group_epoch] in *.
    pose proof Hserve as (_ & _ & _ & Hk' & _). injection Hk' as Hgt _.
    exists p, pl, dl, e. split; [done|]. split; [by apply token_decodes|]. do 4 (split; [done|]).
    split; [by exists sh|]. destruct Hrec as [Hnil|(sh' & st & Hp' & Hg & Hin)]; [rewrite Hnil in Hde; inversion Hde|].
    exists sh', st. split_ands; [done|exact Hg|]. eapply Forall_forall in Hin; [exact Hin|]. apply list_elem_of_fmap.
    by exists (dl, e).
Qed.

Lemma fetch_round_runs now placements s w :
  world_ok w -> (forall p pl, (p, pl) ∈ placements -> td_placements d !! p = Some pl) -> fetch_fits w s ->
  runs w (fetch_round n ty group consumer now max_events max_bytes placements s) fetch_fits.
Proof.
  revert s w. induction placements as [|[p pl] rest IH]; intros s w Hw Hin Hfit; cbn [fetch_round]; [by apply runs_ret|].
  destruct ((max_events <=? len (ft_deliveries s))%N || (max_bytes <=? ft_used_bytes s)%N) eqn:E; [by apply runs_ret|].
  apply orb_false_iff in E as [E _]. bool_facts. pose proof (Hin p pl ltac:(by left)) as Hpl.
  destruct (placed_partition ty group d (proj1 (proj2 (proj2 Hserve))) (proj2 (proj2 (proj2 (proj2 (proj2 Hserve))))) p pl Hpl)
    as (_ & start & Hstart & _).
  eapply (runs_bind _ _ _ (fun _ x => x = start)); [by eapply runs_or_panic|]. intros w1 x Hm1 ->.
  eapply runs_bind; [apply fetch_partition_runs; [apply Hm1|by apply served_input]|]. cbn beta. intros w2 out Hm2 Hout.
  eapply (runs_bind _ _ _ (fun w3 r => w3 = w2 /\ push_deliveries group p (fo_deliveries out) (ft_deliveries s)
    (ft_used_bytes s) = Ok r)); [by apply runs_lift; [apply Hm2|]|].
  intros w3 [ds used] Hm3 [-> Hpush]. apply IH; [apply Hm2|intros q pl' Hq; apply Hin; by right|].
  eapply pushed_fits; [exact Hpl|exact E| |exact Hout|exact Hpush]. eapply fetch_fits_extend; [exact Hfit|].
  by eapply moves_trans.
Qed.

Lemma fetch_rounds_runs rounds wait_ms deadline w :
  world_ok w ->
  runs w (fetch_rounds rounds n ty group d consumer max_events max_bytes wait_ms deadline) (fun w' o =>
    (forall reply, o = Some reply -> (len (fp_deliveries reply) <= max_events)%N /\
       Forall (handed_out ty group d consumer w') (fp_deliveries reply)) /\
    (wait_ms = 0%N -> rounds <> 0 -> is_Some o)).
Proof.
  revert w. induction rounds as [|rounds IH]; intros w Hw; cbn [fetch_rounds].
  { by apply runs_ret; [|split]. }
  eapply (runs_bind _ _ _ (fun _ _ => True)).
  { apply runs_effect; [done|intros; by eapply unix_millis_moves|done]. }
  intros w1 now Hm1 _. eapply runs_bind.
  { apply fetch_round_runs; [apply Hm1|by intros p pl Hp%elem_of_btree_iter|]. split; [apply N.le_0_l|constructor]. }
  intros w2 s Hm2 Hfit. cbn zeta.
  assert (Hdone : forall w3, moves w2 w3 -> runs w3 (mret (Some (mkFetchReply (ft_deliveries s) (ft_caught_up s) (ft_throttled s))))
    (fun w' o => (forall reply, o = Some reply -> (len (fp_deliveries reply) <= max_events)%N /\
       Forall (handed_out ty group d consumer w') (fp_deliveries reply)) /\ (wait_ms = 0%N -> S rounds <> 0 -> is_Some o))).
  { intros w3 Hm3. apply runs_ret; [apply Hm3|]. split; [|done]. intros reply [= <-]. cbn [fp_deliveries].
    exact (fetch_fits_extend _ _ _ Hfit Hm3). }
  destruct (_ || (wait_ms =? 0)%N) eqn:E; [apply Hdone, moves_refl, Hm2|].
  apply orb_false_iff in E as [_ E]. bool_facts.
  eapply (runs_bind _ _ _ (fun _ _ => True)).
  { apply runs_effect; [apply Hm2|intros; by eapply instant_now_moves|done]. }
  intros w3 t Hm3 _. destruct (deadline <=? t)%N; [by apply Hdone|].
  eapply runs_mono; [apply IH, Hm3|]. intros w4 o Hm4 [Ho _]. split; [done|]. intros Hz. lia.
Qed.

End Rounds.

(** The reply of a fetch. *)
Definition fetch_reply_ok (rounds : nat) (n : N) (q : FetchRequest) (w' : world) (o : option FetchReply) : Prop :=
  exists ty group d, proto_aggregate_type (fq_aggregate_type q) = Ok ty /\ serving n ty (fq_name q) group d w' /\
    (forall reply, o = Some reply ->
       (len (fp_deliveries reply) <= limit_or (fq_max_events q) 100 1000)%N /\
       Forall (handed_out ty group d (fq_consumer_id q) w') (fp_deliveries reply)) /\
    (fq_wait_ms q = 0%N -> rounds <> 0 -> is_Some o).

Lemma fetch_runs rounds n q w :
  world_ok w -> runs w (fetch_aggregate_group rounds n q) (fetch_reply_ok rounds n q).
Proof.
  intros Hw. unfold fetch_aggregate_group. apply serving_runs; [done|]. intros w1 ty group d Hm1 Hty Hs. cbn zeta.
  eapply (runs_bind _ _ _ (fun _ _ => True)).
  { apply runs_effect; [apply Hm1|intros; by eapply instant_now_moves|done]. }
  intros w2 start Hm2 _. eapply runs_mono.
  { apply (fetch_rounds_runs n ty (fq_name q) (fq_consumer_id q) group d w1 Hs); [|apply Hm2].
    unfold limit_or, DEFAULT_AGGREGATE_GROUP_FETCH_EVENTS, MAX_AGGREGATE_GROUP_FETCH_EVENTS. case_match; lia. }
  cbn beta. intros w3 o Hm3 [Ho Hwait]. exists ty, group, d. split_ands; [done| |done|].
  - eapply serving_extend; [exact Hs|]. by eapply moves_trans.
  - intros Hz. apply Hwait. rewrite Hz. apply N.min_0_l.
Qed.

(** C17: what a fetch hands out is recorded and can be settled. A reply has at
    most the number of events asked for (100 if none was asked for, never more
    than 1000); each item carries the event stored at the position of a delivery
    that the shard of its partition recorded for the consumer and the group's
    epoch, with that delivery's attempt, deadline and replay mark; and the item's
    token decodes, for the same type and group, to that partition, epoch and
    delivery. A fetch that does not wait replies in its first round. *)
Theorem fetch_hands_out_recorded (rounds : nat) (n : N) (q : FetchRequest) (w w' : world) (o : option FetchReply)
  (Hw : world_ok w) (Hfetch : fetch_aggregate_group rounds n q w = (w', Ok o)) :
  fetch_reply_ok rounds n q w' o.
Proof. by destruct (fetch_runs rounds n q w Hw _ _ Hfetch). Qed.

(** ** Creating a group *)

(** A start position that was the head of the partition. *)
Definition head_of (ty : AggregateTypeId) (s : N) (w : world) (p q : N) : Prop :=
  exists sh, past s w sh /\ q = next_of sh ty p.

Lemma head_of_extend ty s w w' p q : head_of ty s w p q -> moves w w' -> head_of ty s w' p q.
Proof. intros (sh & Hp & ->) Hm. exists sh. split; [by eapply past_extend|done]. Qed.

Lemma subscription_heads_runs n s ty partitions next w :
  world_ok w -> (s <= u64_max)%N -> type_id_ok ty ->
  (forall p q, next !! p = Some q -> head_of ty s w p q) ->
  runs w (handler (subscription_heads n s ty partitions next)) (fun w' heads =>
    forall p q, heads !! p = Some q -> head_of ty s w' p q /\ (p ∈ partitions \/ is_Some (next !! p))).
Proof.
  intros Hw Hs Hty. revert next w Hw. induction partitions as [|p ps IH]; intros next w Hw Hnext; cbn [subscription_heads].
  { apply runs_lift; [done|]. intros h [= <-] p q Hp. split; [by apply Hnext|right; by eexists]. }
  eapply (runs_handler_bind _ _ _ (fun w1 _ => w1 = w /\ (p <= u16_max)%N)).
  { apply runs_lift; [done|]. intros [] Hc. destruct (p <=? u16_max)%N eqn:E; [|discriminate]. by bool_facts. }
  intros w1 [] _ [-> Hp]. eapply runs_handler_bind; [by apply runs_read|]. cbn beta.
  intros w2 head Hm2 (t & sh & ap & Hh & Hrep & Hpast). apply (read_head_rep _ Hs _ _ _ Hrep) in Hh; [|done].
  eapply runs_mono; [apply IH; [apply Hm2|]|].
  - intros p' q. destruct (decide (p' = p)) as [->|Hne].
    + rewrite lookup_insert_eq. intros [= <-]. by exists sh.
    + rewrite lookup_insert_ne by done. intros Hq. eapply head_of_extend; [by apply Hnext|done].
  - cbn beta. intros w3 heads Hm3 Hall p' q Hq. destruct (Hall p' q Hq) as [Hhead Hin]. split; [done|].
    destruct (decide (p' = p)) as [->|Hne]; [left; by left|]. rewrite lookup_insert_ne in Hin by done.
    destruct Hin; [left; by right|by right].
Qed.

Lemma subscribe_now_runs n s ty partitions w :
  world_ok w -> type_id_ok ty ->
  runs w (handler (subscribe_now n s ty partitions)) (fun w' heads =>
    forall p q, heads !! p = Some q -> head_of ty s w' p q /\ p ∈ partitions).
Proof.
  intros Hw Hty. unfold subscribe_now.
  assert (Hheads : forall n1 w1, world_ok w1 -> (s <= u64_max)%N ->
    runs w1 (handler (subscription_heads n1 s ty partitions ∅)) (fun w' heads =>
      forall p q, heads !! p = Some q -> head_of ty s w' p q /\ p ∈ partitions)).
  { intros n1 w1 Hw1 Hs. eapply runs_mono; [apply subscription_heads_runs; [done|done|done|]|].
    - intros p q. by rewrite lookup_empty.
    - cbn beta. intros w2 h Hm2 Hall p q Hq. destruct (Hall p q Hq) as [? [?|[? Hx]]]; [done|].
      by rewrite lookup_empty in Hx. }
  apply runs_if_local_leader; [done| |].
  - intros w1 Hm1 Hs. eapply (runs_handler_bind _ _ _ (fun _ t => t = ty)).
    { apply runs_lift; [apply Hm1|]. intros t. apply proto_type_round_trip. }
    intros w2 t Hm2 ->. by apply Hheads; [apply Hm2|].
  - intros w1 Hm1. eapply runs_handler_bind; [apply runs_moving; [apply Hm1|apply moving_snapshot]|].
    intros w2 tp Hm2 _. eapply runs_handler_bind; [apply runs_moving; [apply Hm2|apply moving_client]|].
    intros w3 peer Hm3 _. apply runs_call; [apply Hm3| |].
    + intros w4 Hm4. eapply (runs_handler_bind _ _ _ (fun _ t => t = ty)).
      { apply runs_lift; [apply Hm4|]. intros t. apply proto_type_round_trip. }
      intros w5 t Hm5 ->. eapply (runs_handler_bind _ _ _ (fun _ _ => (s <= u64_max)%N)).
      { apply runs_handler; [apply Hm5|apply moving_local_leader|]. intros w6 []. apply local_leader_u64. }
      intros w6 [] Hm6 Hs. by apply Hheads; [apply Hm6|].
    + intros w4 w5 h Hall Hm p q Hq. destruct (Hall p q Hq) as [Hh Hin]. split; [by eapply head_of_extend|done].
Qed.

(** A start captured from a placement of the type. *)
Definition captured (d : AggregateTypeDefinition) (ty : AggregateTypeId) (w : world) (starts : gmap N N) : Prop :=
  forall p q, starts !! p = Some q -> exists pl, td_placements d !! p = Some pl /\ head_of ty (pl_shard_id pl) w p q.

Lemma capture_shards_runs n ty d grouped starts w :
  world_ok w -> type_id_ok ty ->
  (forall s ps p, (s, ps) ∈ grouped -> p ∈ ps -> exists pl, td_placements d !! p = Some pl /\ pl_shard_id pl = s) ->
  captured d ty w starts ->
  runs w (handler (capture_shards n ty grouped starts)) (captured d ty).
Proof.
  intros Hw Hty. revert starts w Hw.
  induction grouped as [|[s ps] rest IH]; intros starts w Hw Hg Hst; cbn [capture_shards].
  { by apply runs_lift; [|intros x [= <-]]. }
  eapply runs_handler_bind; [by apply subscribe_now_runs|]. cbn beta. intros w1 heads Hm1 Hheads.
  apply IH; [apply Hm1|intros s' ps' p Hin; apply Hg; by right|].
  intros p q [Hq|[_ Hq]]%lookup_union_Some_raw.
  - destruct (Hheads p q Hq) as [Hh Hp]. destruct (Hg s ps p ltac:(by left) Hp) as (pl & Hpl & <-). by exists pl.
  - destruct (Hst p q Hq) as (pl & Hpl & Hh). exists pl. split; [done|]. by eapply head_of_extend.
Qed.

Lemma placements_grouped d s ps p :
  (s, ps) ∈ btree_iter (default ∅ (group_by_shard Some (btree_iter (td_placements d)) ∅)) -> p ∈ ps ->
  exists pl, td_placements d !! p = Some pl /\ pl_shard_id pl = s.
Proof.
  destruct (group_by_shard_spec Some (btree_iter (td_placements d)) ∅) as (m & -> & Hs); [by eexists|].
  cbn [default from_option id]. intros Hin%elem_of_btree_iter Hp. specialize (Hs s).
  rewrite Hin, lookup_empty in Hs. cbn in Hs. subst ps. unfold shard_items in Hp.
  apply list_elem_of_omap in Hp as ([p' pl] & Hin' & Hc). cbn [fst snd] in Hc.
  destruct (pl_shard_id pl =? s)%N eqn:E; [|discriminate]. injection Hc as ->. bool_facts.
  apply elem_of_btree_iter in Hin'. by exists pl.
Qed.

(** The starts a group is created or reset with. *)
Definition starts_from (start : AggregateGroupStart) (d : AggregateTypeDefinition) (ty : AggregateTypeId) (w : world)
    (starts : gmap N N) : Prop :=
  match start with
  | StartBeginning => forall p q, starts !! p = Some q -> q = 0%N
  | StartNow => captured d ty w starts
  end.

Lemma starts_from_extend start d ty w w' starts :
  starts_from start d ty w starts -> moves w w' -> starts_from start d ty w' starts.
Proof.
  destruct start; [done|]. intros Hc Hm p q Hq. destruct (Hc p q Hq) as (pl & Hpl & Hh). exists pl.
  split; [done|]. by eapply head_of_extend.
Qed.

Lemma starts_from_u64 start d ty w starts :
  starts_from start d ty w starts -> map_Forall (fun _ q => (q <= u64_max)%N) starts.
Proof.
  intros Hs p q Hq. destruct start; cbn in Hs.
  - rewrite (Hs p q Hq). lia.
  - destruct (Hs p q Hq) as (pl & _ & sh & Hp & ->). apply (sw_next _ (proj1 (proj1 Hp))).
Qed.

Lemma capture_runs n ty d start w :
  world_ok w -> definition_wf ty d -> runs w (handler (capture_group_starts n d start)) (starts_from start d ty).
Proof.
  intros Hw (Hid & Hty & _). unfold capture_group_starts. case_bool_decide as E.
  - subst start. apply runs_lift; [done|]. intros starts [= <-] p q Hq.
    apply elem_of_list_to_map_2 in Hq. apply list_elem_of_fmap in Hq as (x & [= -> ->] & _). done.
  - destruct start; [done|]. rewrite Hid.
    eapply runs_handler_bind; [apply (capture_shards_runs n ty d); [done|done| |]|].
    + intros s ps p. apply placements_grouped.
    + intros p q. by rewrite lookup_empty.
    + intros w1 starts Hm1 Hc. apply runs_lift; [apply Hm1|]. intros x Hx. case_match; [discriminate|]. by injection Hx as <-.
Qed.

Definition group_catalog_of (sh : shard) : AggregateGroupCatalog := default group_catalog_default (s_group_catalog sh).

(** The group [Create] answers with is in the catalog, new or from before. *)
Lemma step_create_group s g count s' a g' :
  shard_step s (CommitAggregateGroupCatalog (GroupCreate g count)) = (s', AggregateGroupCatalogApplied a) ->
  ga_outcome a = GOutGroup g' ->
  gd_create_operation_id g' = gd_create_operation_id g /\ group_validate g count = Ok tt /\
  match groups_of s !! group_key g with
  | Some g0 => g' = g0
  | None => g' = group_created g /\ (groups_of s' !! group_key g = Some g' \/ gc_revision (group_catalog_of s) = u64_max)
  end.
Proof.
  intros Hs Ho. cbn [shard_step] in Hs. unfold step_group_catalog, group_catalog_apply in Hs. fold (group_catalog_of s) in Hs.
  unfold groups_of. fold (group_catalog_of s). fold (group_catalog_of s').
  unfold group_create in Hs. destruct (group_validate g count) as [[]|]; [|injection Hs as _ <-; discriminate].
  destruct (gc_groups (group_catalog_of s) !! group_key g) as [ex|] eqn:Hex.
  - destruct (gd_create_operation_id ex =? _)%N eqn:E; injection Hs as _ <-; [|discriminate]. cbn in Ho. injection Ho as <-.
    by bool_facts.
  - injection Hs as Hs <-. cbn in Ho. injection Ho as <-. split; [done|]. split; [done|]. split; [done|].
    cbn [gc_revision] in Hs. destruct (saturating_add_u64 _ 1 =? _)%N eqn:E; cbn [negb] in Hs; bool_facts.
    + right. unfold saturating_add_u64 in E. lia.
    + left. subst s'. cbn. apply lookup_insert_eq.
Qed.

Lemma commit_group_catalog_runs n command w :
  world_ok w -> service_request (CommitAggregateGroupCatalog command) ->
  runs w (handler (commit_group_catalog n command)) (fun w' a =>
    applied (control n) (CommitAggregateGroupCatalog command) (AggregateGroupCatalogApplied a) w w').
Proof.
  intros Hw Hreq. apply runs_handler; [done|by apply moving_commit_group_catalog|]. intros w1 a Ha.
  apply control_commit_applied in Ha as (r & Hr & Hap); [|done|done]. destruct r; try discriminate Hr. by injection Hr as ->.
Qed.

Lemma proto_settings_fit v s :
  (forall x, v = Some x -> settings_wf x) -> proto_group_settings v = Ok s -> settings_wf s.
Proof.
  intros Hv Hs. unfold proto_group_settings in Hs. apply bind_Ok_inv in Hs as ([] & _ & [= <-]).
  destruct v as [x|]; cbn; [by apply Hv|]. unfold settings_wf. cbn. lia.
Qed.

(** The group a creation answers with. *)
Definition created_ok (n : N) (q : GroupRequest) (w w' : world) (info : PbGroupInfo) : Prop :=
  exists ty op d g s1 s2,
    proto_aggregate_type (gq_aggregate_type q) = Ok ty /\ operation_uuid (gq_operation_id q) = Ok op /\
    definition_wf ty d /\ info = group_info g /\ gd_create_operation_id g = op /\
    (forall p, (p < EVENT_PARTITION_COUNT)%N -> is_Some (gd_partition_starts g !! p)) /\
    later (shard_of w (control n)) s1 /\ later s2 (shard_of w' (control n)) /\
    match groups_of s1 !! (ty, gq_name q) with
    | Some g0 => g = g0
    | None => starts_from (proto_group_start (gq_start q)) d ty w' (gd_partition_starts g) /\
        (groups_of s2 !! (ty, gq_name q) = Some g \/ gc_revision (group_catalog_of s1) = u64_max)
    end.

Lemma create_runs n q w :
  world_ok w -> (forall s, gq_settings q = Some s -> settings_wf s) ->
  runs w (handler (create_aggregate_group n q)) (created_ok n q w).
Proof.
  intros Hw Hfit. unfold create_aggregate_group. eapply (runs_handler_bind _ _ _ (fun _ ty => proto_aggregate_type (gq_aggregate_type q) = Ok ty));
    [by apply runs_lift|].
  intros w1 ty Hm1 Hty. eapply (runs_handler_bind _ _ _ (fun _ _ => True)); [by apply runs_lift; [apply Hm1|]|].
  intros w2 [] Hm2 _. eapply (runs_handler_bind _ _ _ (fun _ op => operation_uuid (gq_operation_id q) = Ok op));
    [by apply runs_lift; [apply Hm2|]|].
  intros w3 op Hm3 Hop. cbn zeta. eapply (runs_handler_bind _ _ _ (fun _ s => settings_wf s)).
  { apply runs_lift; [apply Hm3|]. intros s. by apply proto_settings_fit. }
  intros w4 settings Hm4 Hset. eapply (runs_handler_bind _ _ _ (fun _ d => definition_wf ty d)).
  { apply runs_handler; [apply Hm4|apply moving_require_active|]. intros w5 d Hd.
    apply require_active_Ok in Hd as (_ & sh & _ & _ & Hd); [done|apply Hm4]. }
  intros w5 d Hm5 Hd. eapply runs_handler_bind; [by apply capture_runs; [apply Hm5|]|].
  intros w6 starts Hm6 Hst. pose proof Hd as (_ & _ & Hcnt & _). rewrite Hcnt.
  eapply runs_handler_bind; [apply commit_group_catalog_runs; [apply Hm6|]|].
  { split; [done|]. split; [|done]. split; [done|]. by eapply starts_from_u64. }
  intros w7 a Hm7 (s1 & s2 & Hl1 & Hs & Hl2). apply runs_lift; [apply Hm7|]. intros info Hinfo.
  unfold created_group in Hinfo. destruct (ga_outcome a) as [g| | | |] eqn:Ho; try discriminate Hinfo. injection Hinfo as <-.
  pose proof (later_ok _ _ Hl1 (shard_of_ok _ _ (proj1 Hm6))) as Hwf1.
  destruct (step_create_group _ _ _ _ _ _ Hs Ho) as (Hgop & Hval & Hcase). unfold group_key in Hcase. cbn in Hgop, Hcase.
  exists ty, op, d, g, s1, s2. split_ands; try done.
  - intros p Hp. destruct (groups_of s1 !! (ty, gq_name q)) as [g0|] eqn:Hg0.
    + subst g0. by apply (proj1 (proj2 Hwf1) _ _ Hg0).
    + destruct Hcase as [-> _]. exact (group_validate_covers _ p Hval Hp).
  - etrans; [|exact Hl1].
    apply (moves_trans _ _ _ Hm1 (moves_trans _ _ _ Hm2 (moves_trans _ _ _ Hm3 (moves_trans _ _ _ Hm4 (moves_trans _ _ _ Hm5 Hm6))))).
  - destruct (groups_of s1 !! (ty, gq_name q)); [done|]. destruct Hcase as [-> Hin]. split; [|done].
    by eapply starts_from_extend.
Qed.

(** A group is created with a start position for every partition. When
    [create_aggregate_group] succeeds, the group it answers with carries the
    caller's operation and has a start for each of the 256 partitions. At the
    moment the control shard took the command, either the catalog had that group
    already, from the same operation; or it had no group of that name and, unless
    its revision counter is exhausted, has this one afterwards, with the starts
    asked for: zero from the beginning, and from now on the head each partition
    had in some state of its shard up to the end of the call. *)
Theorem create_group_covers_partitions (n : N) (q : GroupRequest) (w w' : world) (info : PbGroupInfo) (Hw : world_ok w)
  (Hfit : forall s, gq_settings q = Some s -> settings_wf s)
  (Hcreate : create_aggregate_group n q w = (w', Ok info)) :
  created_ok n q w w' info.
Proof.
  assert (Hh : handler (create_aggregate_group n q) w = (w', Ok info)) by (unfold handler, map_failure; by rewrite Hcreate).
  by destruct (create_runs n q w Hw Hfit _ _ Hh).
Qed.

(** *** No panics *)

(** C24: no request makes a client-facing handler of the service panic. Of the
    handlers of the aggregate service these eight index or unwrap: the placements
    and the group's starts, the cursors of a page token and of a follower, the list
    of results, a remainder by the number of shards, and the collected answers.
    Whatever the request, with whatever cursor or token, none of these can fail in
    any state the cluster reaches, so each handler answers with a result or a
    status. *)
Theorem handlers_do_not_panic (n : N) (w w' : world) (message : string) (tyref : option PbTypeRef)
  (name consumer : string) (b : Bytes) (page : N) (put : PutStateRequest) (q : FetchRequest) (rounds : nat)
  (start : option FollowStart) (settlements : list PbSettlement) (delivery_ids : list Bytes) (Hw : world_ok w) :
  register_aggregate_type n tyref b w <> (w', Err (Panicked message)) /\
  follow_aggregate_type_events n tyref start w <> (w', Err (Panicked message)) /\
  get_aggregate_state n tyref name w <> (w', Err (Panicked message)) /\
  put_aggregate_state n put w <> (w', Err (Panicked message)) /\
  list_aggregate_states n tyref page b w <> (w', Err (Panicked message)) /\
  fetch_aggregate_group rounds n q w <> (w', Err (Panicked message)) /\
  settle_aggregate_group n tyref name consumer settlements w <> (w', Err (Panicked message)) /\
  renew_aggregate_group n tyref name consumer delivery_ids w <> (w', Err (Panicked message)).
Proof.
  split_ands; intros Hr.
  - by destruct (register_runs _ _ _ _ Hw _ _ Hr).
  - by destruct (follow_runs _ _ _ _ Hw _ _ Hr).
  - by destruct (get_state_runs _ _ _ _ Hw _ _ Hr).
  - by destruct (put_state_runs _ _ _ Hw _ _ Hr).
  - by destruct (list_states_runs _ _ _ _ _ Hw _ _ Hr).
  - by destruct (fetch_runs _ _ _ _ Hw _ _ Hr).
  - by destruct (settle_runs _ _ _ _ _ _ Hw _ _ Hr).
  - by destruct (renew_runs _ _ _ _ _ _ Hw _ _ Hr).
Qed.

End Specs.

(** ** Witnesses *)

#[local] Existing Instances demo_xxh3 demo_codecs demo_codec_laws demo_platform mem_tree mem_tree_laws demo_debug
  demo_rpc_codecs demo_rpc_laws demo_token_codecs demo_token_laws.

(** A group is created after the event of [Service.v] was appended; a consumer
    fetches the event, renews its lease and acknowledges it. *)
Definition demo_group_request : GroupRequest := mkGroupRequest demo_ref "workers" None None 0 (replicate 16 x09).

Definition demo_created : NodeWorld * result Status PbGroupInfo :=
  create_aggregate_group (M := N) 1 demo_group_request demo_appended.1.

Definition demo_fetch_request : FetchRequest := mkFetchRequest demo_ref "workers" "c1" 10 0 0.

Definition demo_fetched : NodeWorld * result Failure (option FetchReply) :=
  fetch_aggregate_group (M := N) 1 1 demo_fetch_request demo_created.1.

Definition items_fetched (r : result Failure (option FetchReply)) : list PbDelivery :=
  match r with Ok (Some r) => fp_deliveries r | _ => [] end.

Definition demo_tokens : list Bytes := map pd_delivery_id (items_fetched demo_fetched.2).

Definition demo_settled : NodeWorld * result Failure (list SettlementReply) :=
  settle_aggregate_group (M := N) 1 demo_ref "workers" "c1" (map (fun b => mkPbSettlement b 0 "") demo_tokens) demo_fetched.1.

Example demo_create_answer : is_ok demo_created.2 = true.
Proof. vm_compute. reflexivity. Qed.

Example demo_fetch_answer :
  (is_ok demo_fetched.2, map (fun d => pe_aggregate_id (pd_event d)) (items_fetched demo_fetched.2)) = (true, ["order-1"]).
Proof. vm_compute. reflexivity. Qed.

Example demo_settle_answer : is_ok demo_settled.2 = true.
Proof. vm_compute. reflexivity. Qed.

Lemma demo_group_request_fits : forall s, gq_settings demo_group_request = Some s -> settings_wf s.
Proof. discriminate. Qed.

Lemma create_group_covers_partitions_witness :
  exists info g, demo_created.2 = Ok info /\ info = group_info g /\
    forall p, (p < EVENT_PARTITION_COUNT)%N -> is_Some (gd_partition_starts g !! p).
Proof.
  destruct (ok_result demo_created demo_create_answer) as (w' & info & Hr). unfold demo_created in Hr |- *.
  destruct (create_group_covers_partitions (H5 := single_node_laws) (SmCodecLaws0 := demo_codec_laws) (H6 := demo_debug)
    (H8 := demo_rpc_laws) 1 demo_group_request demo_appended.1 w' info demo_appended_ok demo_group_request_fits Hr)
    as (ty & op & d & g & s1 & s2 & _ & _ & _ & Hinfo & _ & Hall & _).
  exists info, g. split; [exact (f_equal snd Hr)|]. split; [exact Hinfo|exact Hall].
Defined.

Lemma demo_created_ok : world_ok demo_created.1.
Proof.
  exact (handler_ok _ _ _ (create_runs 1 demo_group_request _ demo_appended_ok demo_group_request_fits)).
Qed.

Lemma demo_fetched_ok : world_ok demo_fetched.1.
Proof. exact (runs_ok _ _ _ (fetch_runs 1 1 demo_fetch_request _ demo_created_ok)). Qed.

Lemma fetch_hands_out_recorded_witness :
  exists w' o ty group d, demo_fetched = (w', Ok o) /\ serving 1 ty "workers" group d w' /\ is_Some o.
Proof.
  assert (Hok : is_ok demo_fetched.2 = true) by exact (f_equal fst demo_fetch_answer).
  destruct (ok_result demo_fetched Hok) as (w' & o & Hr). unfold demo_fetched in Hr |- *.
  destruct (fetch_hands_out_recorded (H5 := single_node_laws) (SmCodecLaws0 := demo_codec_laws) (H6 := demo_debug)
    (H8 := demo_rpc_laws) (H10 := demo_token_laws) 1 1 demo_fetch_request demo_created.1 w' o demo_created_ok Hr)
    as (ty & group & d & _ & Hs & _ & Hsome).
  exists w', o, ty, group, d. split; [exact Hr|]. split; [exact Hs|]. apply Hsome; [reflexivity|discriminate].
Defined.

Definition demo_settlements : list PbSettlement := map (fun b => mkPbSettlement b 0 "") demo_tokens.

Lemma settlements_answered_in_order_witness :
  exists w' replies, demo_settled = (w', Ok replies) /\
    settled_in_order 1 demo_ref "workers" "c1" demo_settlements demo_fetched.1 w' replies.
Proof.
  destruct (ok_result demo_settled demo_settle_answer) as (w' & replies & Hr). unfold demo_settled in Hr |- *.
  exists w', replies. split; [exact Hr|].
  exact (proj1 (settlements_answered_in_order (H5 := single_node_laws) (SmCodecLaws0 := demo_codec_laws) (H6 := demo_debug)
    (H8 := demo_rpc_laws) (H10 := demo_token_laws) 1 demo_ref "workers" "c1" demo_fetched.1 w' demo_settlements []
    replies demo_fetched_ok) Hr).
Defined.

Lemma handlers_do_not_panic_witness :
  demo_fetched <> (demo_fetched.1, Err (Panicked "no entry found for key")) /\
  demo_settled <> (demo_settled.1, Err (Panicked "index out of bounds")) /\
  forall w', follow_aggregate_type_events (M := N) 1 demo_ref (Some (FollowCursor [])) demo_created.1 <>
    (w', Err (Panicked "index out of bounds")).
Proof.
  split; [|split].
  - exact (proj1 (proj2 (proj2 (proj2 (proj2 (proj2 (handlers_do_not_panic (H5 := single_node_laws) (SmCodecLaws0 := demo_codec_laws)
      (H6 := demo_debug) (H8 := demo_rpc_laws) (H10 := demo_token_laws) 1 demo_created.1 demo_fetched.1
      "no entry found for key" demo_ref "workers" "c1" []
      10 demo_put_request demo_fetch_request 1 None [] [] demo_created_ok))))))).
  - exact (proj1 (proj2 (proj2 (proj2 (proj2 (proj2 (proj2 (handlers_do_not_panic (H5 := single_node_laws) (SmCodecLaws0 := demo_codec_laws)
      (H6 := demo_debug) (H8 := demo_rpc_laws) (H10 := demo_token_laws) 1 demo_fetched.1 demo_settled.1
      "index out of bounds" demo_ref "workers" "c1" []
      10 demo_put_request demo_fetch_request 1 None demo_settlements [] demo_fetched_ok)))))))).
  - intros w'. exact (proj1 (proj2 (handlers_do_not_panic (H5 := single_node_laws) (SmCodecLaws0 := demo_codec_laws)
      (H6 := demo_debug) (H8 := demo_rpc_laws) (H10 := demo_token_laws) 1 demo_created.1 w'
      "index out of bounds" demo_ref "workers" "c1" []
      10 demo_put_request demo_fetch_request 1 (Some (FollowCursor [])) [] [] demo_created_ok))).
Defined.
