(* ===== verification/FusePath.v ===== *)
(** * eventfs-fuse: paths

    [eventfs-fuse/src/path.rs]: the nodes a mount shows and the parsing of their
    paths; [parent_node] and [node_aggregate_type] of [fuse.rs] and the
    aggregate-type identity of [backend.rs], which name nodes.

    [node_path] is the specification of a path: the theorem says that parsing
    accepts exactly the paths of the valid nodes. *)

From S2P Require Import Prelude.
From S2P Require Import Bytes.
From S2P Require Import Core.
From S2P Require Import Aggregate.

(** ** Nodes *)

Inductive Node : Type :=
| Root
| BusinessSpace (business_space : string)
| AggregateTypeDir (business_space aggregate_type : string)
| Events (business_space aggregate_type : string)
| States (business_space aggregate_type : string)
| State (business_space aggregate_type aggregate_id : string)
| Groups (business_space aggregate_type : string)
| Group (business_space aggregate_type group_name : string)
| Consumer (business_space aggregate_type group_name consumer_id : string).

#[export] Instance Node_eq_dec : EqDecision Node.
Proof. solve_decision. Defined.

Definition node_code (n : Node) : N * list string :=
  match n with
  | Root => (0%N, [])
  | BusinessSpace s => (1%N, [s])
  | AggregateTypeDir s t => (2%N, [s; t])
  | Events s t => (3%N, [s; t])
  | States s t => (4%N, [s; t])
  | State s t i => (5%N, [s; t; i])
  | Groups s t => (6%N, [s; t])
  | Group s t g => (7%N, [s; t; g])
  | Consumer s t g c => (8%N, [s; t; g; c])
  end.

Definition node_decode (p : N * list string) : Node :=
  match p with
  | (1%N, [s]) => BusinessSpace s
  | (2%N, [s; t]) => AggregateTypeDir s t
  | (3%N, [s; t]) => Events s t
  | (4%N, [s; t]) => States s t
  | (5%N, [s; t; i]) => State s t i
  | (6%N, [s; t]) => Groups s t
  | (7%N, [s; t; g]) => Group s t g
  | (8%N, [s; t; g; c]) => Consumer s t g c
  | _ => Root
  end.

#[export] Instance Node_countable : Countable Node.
Proof. apply (inj_countable' node_code node_decode). by intros []. Defined.

Inductive PathError : Type :=
| InvalidShape
| InvalidName
| InvalidExtension
| NotDirectory
| PathNotFound.

Definition identifier (kind value : string) : result PathError unit :=
  map_err (fun _ => InvalidName) (validate_aggregate_identifier kind value).

(** [strip_suffix(extension).filter(|stem| !stem.is_empty()).ok_or(..)]. *)
Definition strip_extension (name extension : string) : result PathError string :=
  match strip_suffix extension name with
  | Some stem => if bool_decide (stem = "") then Err InvalidExtension else Ok stem
  | None => Err InvalidExtension
  end.

(** [Node::child]. *)
Definition child (n : Node) (name : string) : result PathError Node :=
  if bool_decide (name = "") || bool_decide (name = ".") || bool_decide (name = "..") || contains "/" name
  then Err InvalidName
  else
    match n with
    | Root => _ ← identifier "business_space" name; Ok (BusinessSpace name)
    | BusinessSpace s => _ ← identifier "aggregate_type" name; Ok (AggregateTypeDir s name)
    | AggregateTypeDir s t =>
        if bool_decide (name = "events.jsonl") then Ok (Events s t)
        else if bool_decide (name = "states") then Ok (States s t)
        else if bool_decide (name = "groups") then Ok (Groups s t)
        else Err PathNotFound
    | States s t =>
        aggregate_id ← strip_extension name ".json";
        _ ← identifier "aggregate_id" aggregate_id;
        Ok (State s t aggregate_id)
    | Groups s t => _ ← identifier "group_name" name; Ok (Group s t name)
    | Group s t g =>
        consumer_id ← strip_extension name ".jsonl";
        _ ← identifier "consumer_id" consumer_id;
        Ok (Consumer s t g consumer_id)
    | Events _ _ | State _ _ _ | Consumer _ _ _ _ => Err NotDirectory
    end.

(** The loop of [Node::parse]. *)
Fixpoint descend (n : Node) (segments : list string) : result PathError Node :=
  match segments with
  | [] => Ok n
  | name :: rest => m ← child n name; descend m rest
  end.

(** [path[1..]]. *)
Definition tail_str (s : string) : string := match s with EmptyString => "" | String _ rest => rest end.

(** [Node::parse]. *)
Definition node_parse (path : string) : result PathError Node :=
  if bool_decide (path = "/") then Ok Root
  else if negb (starts_with "/" path) || ends_with "/" path || contains "//" path then Err InvalidShape
  else descend Root (split_char slash (tail_str path)).

Definition is_directory (n : Node) : bool :=
  match n with
  | Root | BusinessSpace _ | AggregateTypeDir _ _ | States _ _ | Groups _ _ | Group _ _ _ => true
  | Events _ _ | State _ _ _ | Consumer _ _ _ _ => false
  end.

(** [Node::aggregate_type]. *)
Definition node_type_names (n : Node) : option (string * string) :=
  match n with
  | AggregateTypeDir s t | Events s t | States s t | State s t _ | Groups s t | Group s t _ | Consumer s t _ _ =>
      Some (s, t)
  | Root | BusinessSpace _ => None
  end.

(** [parent_node] of [fuse.rs]. *)
Definition parent_node (n : Node) : Node :=
  match n with
  | Root | BusinessSpace _ => Root
  | AggregateTypeDir s _ => BusinessSpace s
  | Events s t | States s t | Groups s t => AggregateTypeDir s t
  | State s t _ => States s t
  | Group s t _ => Groups s t
  | Consumer s t g _ => Group s t g
  end.

(** ** The path of a node *)

Definition segments (n : Node) : list string :=
  match n with
  | Root => []
  | BusinessSpace s => [s]
  | AggregateTypeDir s t => [s; t]
  | Events s t => [s; t; "events.jsonl"]
  | States s t => [s; t; "states"]
  | State s t i => [s; t; "states"; i +:+ ".json"]
  | Groups s t => [s; t; "groups"]
  | Group s t g => [s; t; "groups"; g]
  | Consumer s t g c => [s; t; "groups"; g; c +:+ ".jsonl"]
  end.

Definition node_path (n : Node) : string := String slash (join_slash (segments n)).

(** The identifiers of a node are valid. *)
Definition node_ok (n : Node) : Prop :=
  match n with
  | Root => True
  | BusinessSpace s => identifier_ok s
  | AggregateTypeDir s t | Events s t | States s t | Groups s t => identifier_ok s /\ identifier_ok t
  | State s t i => identifier_ok s /\ identifier_ok t /\ identifier_ok i
  | Group s t g => identifier_ok s /\ identifier_ok t /\ identifier_ok g
  | Consumer s t g c => identifier_ok s /\ identifier_ok t /\ identifier_ok g /\ identifier_ok c
  end.

(** ** Lemmas: names *)

(** A name a directory can hold: not empty, no dots alone, no separator. *)
Definition plain_name (name : string) : Prop :=
  name <> "" /\ name <> "." /\ name <> ".." /\ slash_byte ∉ as_bytes name.

Lemma contains_slash s : contains "/" s = true <-> slash_byte ∈ as_bytes s.
Proof.
  induction s as [|a s IH]; [by split; [|intros ?%elem_of_nil]|].
  change (as_bytes (String a s)) with (Ascii.byte_of_ascii a :: as_bytes s).
  cbn [contains]. rewrite orb_true_iff, elem_of_cons, IH. unfold starts_with. cbn [String.prefix].
  split; (intros [Ha|]; [left|by right]).
  - destruct (Ascii.ascii_dec _ a) as [<-|]; [done|]. by destruct s.
  - assert (Ascii.ascii_of_byte slash_byte = a) as <- by (rewrite Ha; apply Ascii.ascii_of_byte_of_ascii).
    by destruct s.
Qed.

Lemma name_test name :
  bool_decide (name = "") || bool_decide (name = ".") || bool_decide (name = "..") || contains "/" name = false <->
  plain_name name.
Proof.
  unfold plain_name. rewrite !orb_false_iff, !bool_decide_eq_false, <- contains_slash, not_true_iff_false. tauto.
Qed.

Lemma identifier_ok_first v : identifier_ok v -> exists b l, as_bytes v = b :: l /\ is_ascii_alphanumeric b = true.
Proof.
  intros (_ & _ & _ & H & _). destruct (as_bytes v) as [|b l]; [done|]. cbn in H. eauto.
Qed.

Lemma identifier_ok_plain v ext :
  identifier_ok v -> slash_byte ∉ as_bytes ext -> plain_name (v +:+ ext).
Proof.
  intros Hv He. destruct (identifier_ok_first v Hv) as (b & l & Hb & Hal).
  assert (Hne : forall s, s = "" \/ s = "." \/ s = ".." -> v +:+ ext <> s).
  { intros s Hs Heq. apply (f_equal as_bytes) in Heq. rewrite as_bytes_app, Hb in Heq.
    destruct Hs as [->|[->| ->]]; cbn in Heq; [done| |]; injection Heq as -> _; by vm_compute in Hal. }
  unfold plain_name. split_ands; [apply Hne; auto..|]. rewrite as_bytes_app, elem_of_app.
  intros [H|H]; [by eapply identifier_ok_no_slash|done].
Qed.

Lemma append_empty s : s +:+ "" = s.
Proof. induction s as [|a s IH]; [done|]. change (String a s +:+ "") with (String a (s +:+ "")). by rewrite IH. Qed.

Lemma identifier_iff kind v r : identifier kind v = Ok r <-> identifier_ok v.
Proof.
  unfold identifier. rewrite <- (validate_identifier_iff kind v). destruct r.
  destruct (validate_aggregate_identifier kind v) as [[]|]; cbn; split; congruence.
Qed.

Lemma strip_extension_Ok name ext stem :
  strip_extension name ext = Ok stem <-> stem <> "" /\ name = stem +:+ ext.
Proof.
  unfold strip_extension. destruct (strip_suffix ext name) as [t|] eqn:E.
  - apply strip_suffix_Some in E as ->. case_bool_decide as Ht.
    + subst t. split; [done|]. intros [Hne Heq]. destruct Hne.
      assert (Hs : strip_suffix ext ("" +:+ ext) = Some stem) by (by apply strip_suffix_Some).
      assert (He : strip_suffix ext ("" +:+ ext) = Some "") by (by apply strip_suffix_Some). congruence.
    + split; [intros [= <-]; done|]. intros [_ Heq]. f_equal.
      assert (Hs : strip_suffix ext (t +:+ ext) = Some stem) by (by apply strip_suffix_Some).
      assert (He : strip_suffix ext (t +:+ ext) = Some t) by (by apply strip_suffix_Some). congruence.
  - split; [done|]. intros [_ ->].
    assert (He : strip_suffix ext (stem +:+ ext) = Some stem) by (by apply strip_suffix_Some). congruence.
Qed.

(** ** Lemmas: children *)

Lemma no_slash s : contains "/" s = false -> slash_byte ∉ as_bytes s.
Proof. rewrite <- contains_slash. by intros ->. Qed.

Lemma identifier_plain v : identifier_ok v -> plain_name v.
Proof. intros Hv. rewrite <- (append_empty v). by apply identifier_ok_plain; [|apply no_slash]. Qed.

#[local] Hint Resolve identifier_plain : ident.

Lemma child_plain n name : plain_name name -> child n name =
    match n with
    | Root => _ ← identifier "business_space" name; Ok (BusinessSpace name)
    | BusinessSpace s => _ ← identifier "aggregate_type" name; Ok (AggregateTypeDir s name)
    | AggregateTypeDir s t =>
        if bool_decide (name = "events.jsonl") then Ok (Events s t)
        else if bool_decide (name = "states") then Ok (States s t)
        else if bool_decide (name = "groups") then Ok (Groups s t)
        else Err PathNotFound
    | States s t =>
        aggregate_id ← strip_extension name ".json";
        _ ← identifier "aggregate_id" aggregate_id;
        Ok (State s t aggregate_id)
    | Groups s t => _ ← identifier "group_name" name; Ok (Group s t name)
    | Group s t g =>
        consumer_id ← strip_extension name ".jsonl";
        _ ← identifier "consumer_id" consumer_id;
        Ok (Consumer s t g consumer_id)
    | Events _ _ | State _ _ _ | Consumer _ _ _ _ => Err NotDirectory
    end.
Proof. intros Hp%name_test. unfold child. by rewrite Hp. Qed.

Lemma child_Ok n name m :
  node_ok n -> child n name = Ok m ->
  node_ok m /\ segments m = segments n ++ [name] /\ parent_node m = n /\ plain_name name.
Proof.
  intros Hn Hc. assert (Hp : plain_name name).
  { unfold child in Hc. destruct (_ || contains "/" name) eqn:Ht; [done|]. by apply name_test. }
  rewrite child_plain in Hc by done. destruct n; cbn in Hn;
    repeat case_bool_decide; inv_result; try done;
    repeat match goal with
    | H : identifier _ _ = Ok _ |- _ => apply identifier_iff in H
    | H : strip_extension _ _ = Ok _ |- _ => apply strip_extension_Ok in H as [? ->]
    end; cbn; tauto.
Qed.

Lemma child_of n name m :
  node_ok m -> segments m = segments n ++ [name] -> child n name = Ok m.
Proof.
  assert (Hext : forall kind v e, identifier_ok v -> contains "/" e = false ->
    plain_name (v +:+ e) /\ strip_extension (v +:+ e) e = Ok v /\ identifier kind v = Ok tt).
  { intros kind v e Hv He. split_ands; [by apply identifier_ok_plain; [|apply no_slash]| |by apply identifier_iff].
    apply strip_extension_Ok. split; [by apply identifier_ok_nonempty|done]. }
  intros Hm Hs. destruct n, m; cbn in Hs; simplify_eq; cbn in Hm.
  all: try (rewrite child_plain by (apply identifier_plain; tauto); cbn;
    by rewrite (proj2 (identifier_iff _ _ tt)) by tauto).
  all: try (rewrite child_plain by (vm_compute; repeat split; try done; intros H;
    repeat (apply elem_of_cons in H as [H|H]; [done|]); by apply elem_of_nil in H);
    by repeat case_bool_decide).
  - destruct (Hext "aggregate_id" aggregate_id ".json") as (Hp & He & Hi); [tauto|done|].
    rewrite child_plain by done. rewrite He. cbn. by rewrite Hi.
  - destruct (Hext "consumer_id" consumer_id ".jsonl") as (Hp & He & Hi); [tauto|done|].
    rewrite child_plain by done. rewrite He. cbn. by rewrite Hi.
Qed.

(** ** Lemmas: whole paths *)

Lemma descend_app n l1 l2 : descend n (l1 ++ l2) = (m ← descend n l1; descend m l2).
Proof.
  revert n. induction l1 as [|a l1 IH]; intros n; [done|]. cbn. destruct (child n a); [|done]. apply IH.
Qed.

Lemma parent_segments m : m <> Root -> exists name, segments m = segments (parent_node m) ++ [name].
Proof. destruct m; cbn; eauto; done. Qed.

Lemma parent_ok m : node_ok m -> node_ok (parent_node m).
Proof. destruct m; cbn; tauto. Qed.

(** Descending from the root reaches a node along its segments, and only so. *)
Lemma descend_iff l m : descend Root l = Ok m <-> node_ok m /\ segments m = l.
Proof.
  revert m. induction l as [|name l IH] using rev_ind; intros m.
  - cbn. split; [intros [= <-]; done|]. intros [_ Hs]. by destruct m.
  - rewrite descend_app. split.
    + intros (n & Hn & (m' & Hc & [= <-])%bind_Ok_inv)%bind_Ok_inv. apply IH in Hn as [Hok <-].
      by apply child_Ok in Hc as (? & ? & _).
    + intros [Hok Hs]. assert (Hne : m <> Root) by (intros ->; by destruct l).
      destruct (parent_segments m Hne) as [name' Hp]. rewrite Hp in Hs. apply app_inj_tail in Hs as [Hs ->].
      assert (Hd : descend Root l = Ok (parent_node m)) by (apply IH; split; [by apply parent_ok|done]).
      rewrite Hd. cbn. by rewrite (child_of _ _ _ Hok Hp).
Qed.

Lemma segments_plain m : node_ok m -> Forall plain_name (segments m).
Proof.
  intros Hm. assert (Hd : descend Root (segments m) = Ok m) by (by apply descend_iff).
  assert (Hr : node_ok Root) by done. revert Hr Hd. generalize Root (segments m). intros n l.
  revert n. induction l as [|name l IH]; intros n Hn Hd; constructor.
  - apply bind_Ok_inv in Hd as (m' & Hc & _). by apply child_Ok in Hc as (_ & _ & _ & ?).
  - apply bind_Ok_inv in Hd as (m' & Hc & Hd). apply child_Ok in Hc as (Hm' & _); [|done]. eauto.
Qed.

Lemma split_join l : l <> [] -> Forall plain_name l -> split_char slash (join_slash l) = l.
Proof.
  intros Hne. induction 1 as [|a l (_ & _ & _ & Ha) Hl IH]; [done|]. destruct l as [|b l].
  - by apply split_char_no_sep.
  - change (join_slash (a :: b :: l)) with (a +:+ String slash (join_slash (b :: l))).
    rewrite split_char_sep by done. by rewrite IH.
Qed.

(** Splitting shows where a path has empty segments. *)
Lemma contains_double s : contains "//" (String slash s) = true -> "" ∈ split_char slash s.
Proof.
  revert s. assert (Hgen : forall s, contains "//" s = true -> exists a l, split_char slash s = a :: l /\ "" ∈ l).
  { induction s as [|a s IH]; [done|]. cbn [contains]. rewrite orb_true_iff. intros [Hp|Hc].
    - unfold starts_with in Hp. cbn [String.prefix] in Hp.
      destruct (Ascii.ascii_dec _ a) as [<-|]; [|done]. destruct s as [|b s]; [done|].
      cbn [String.prefix] in Hp. destruct (Ascii.ascii_dec _ b) as [<-|]; [|done]. exists "", ("" :: split_char slash s). split; [done|left].
    - destruct (IH Hc) as (b & l & Hs & Hl). cbn [split_char]. rewrite Hs. case_bool_decide.
      + exists "", (b :: l). split; [done|by right].
      + by exists (String a b), l. }
  intros s Hc. apply Hgen in Hc as (a & l & Hs & Hl). cbn [split_char] in Hs.
  rewrite bool_decide_eq_true_2 in Hs by done. by injection Hs as <- ->.
Qed.

Lemma ends_slash t : exists a l, split_char slash (t +:+ "/") = a :: l ++ [""].
Proof.
  induction t as [|a t (b & l & IH)]; [by exists "", []|].
  change (String a t +:+ "/") with (String a (t +:+ "/")). cbn [split_char]. rewrite IH. case_bool_decide.
  - by exists "", (b :: l).
  - by exists (String a b), l.
Qed.

(** ** Properties *)

(** C33: a mount accepts exactly the canonical paths. Parsing a path succeeds if
    and only if it is the path of a node whose identifiers are all valid, and
    then it gives that node: no node has two paths, every node has one, and a
    path that is empty, relative, has an empty segment, a dot segment or the
    wrong extension is an error. *)
Theorem path_round_trip (path : string) (n : Node) :
  node_parse path = Ok n <-> node_ok n /\ path = node_path n.
Proof.
  unfold node_parse, node_path. case_bool_decide as Hroot.
  - subst path. split; [intros [= <-]; done|]. intros [Hn Hp].
    destruct (decide (n = Root)) as [->|Hne]; [done|]. exfalso. pose proof (segments_plain n Hn) as Hs.
    assert (Hl : segments n <> []) by (by destruct n). pose proof (split_join _ Hl Hs) as Hj.
    injection Hp as Hp. rewrite <- Hp in Hj. cbn in Hj. rewrite <- Hj in Hs. apply Forall_cons in Hs as [(Hs & _) _]. done.
  - destruct (_ || _) eqn:Ht.
    + split; [done|]. intros [Hn ->]. exfalso. apply not_false_iff_true in Ht. apply Ht.
      assert (Hne : n <> Root) by (intros ->; by apply Hroot). pose proof (segments_plain n Hn) as Hs.
      assert (Hl : segments n <> []) by (by destruct n). pose proof (split_join _ Hl Hs) as Hj.
      assert (Hempty : "" ∉ segments n).
      { rewrite Forall_forall in Hs. intros Hin. by apply Hs in Hin as [? _]. }
      rewrite !orb_false_iff, negb_false_iff. split_ands.
      * unfold starts_with. cbn. by destruct (join_slash _).
      * apply not_true_iff_false. rewrite ends_with_iff. intros [t Ht']. destruct t as [|a t].
        { injection Ht' as Ht'. rewrite Ht' in Hj. cbn in Hj. rewrite <- Hj in Hempty. set_solver. }
        injection Ht' as _ Ht'. destruct (ends_slash t) as (b & l & Hsp). rewrite <- Ht', Hj in Hsp.
        rewrite Hsp in Hempty. set_solver.
      * apply not_true_iff_false. intros Hc%contains_double. by rewrite Hj in Hc.
    + rewrite !orb_false_iff, negb_false_iff in Ht. destruct Ht as [[Hst _] _].
      destruct path as [|a rest]; [done|]. unfold starts_with in Hst. cbn [String.prefix] in Hst.
      destruct (Ascii.ascii_dec _ a) as [<-|]; [|done]. cbn [tail_str]. rewrite descend_iff. split.
      * intros [Hn Hs]. split; [done|]. rewrite Hs, join_split. done.
      * intros [Hn Hp]. split; [done|]. injection Hp as ->. symmetry. apply split_join; [|by apply segments_plain].
        intros Hs. apply Hroot. rewrite Hs. done.
Qed.

(** A node is found again under its name in its parent directory. *)
Lemma child_of_parent m : node_ok m -> m <> Root ->
  exists name, child (parent_node m) name = Ok m /\ is_directory (parent_node m) = true.
Proof.
  intros Hm Hne. destruct (parent_segments m Hne) as [name Hs]. exists name.
  split; [by apply child_of|]. by destruct m.
Qed.
