(* ===== verification/FuseHandle.v ===== *)
(** * eventfs-fuse: the buffers of open files

    [eventfs-fuse/src/handle.rs]: [BufferedWrite], which collects the bytes of
    one JSON value and submits them once, and [StreamBuffer], the queue between
    the task that fills a stream and the reader.

    Both live behind a mutex and are used by several tasks: a history of a buffer
    is any sequence of its operations. The theorem on [BufferedWrite] says what
    is submitted over any history; the one on [StreamBuffer], that the reader
    gets exactly the bytes pushed, in order. *)

From S2P Require Import Prelude.
From S2P Require Import Bytes.

(** ** BufferedWrite *)

Inductive WriteError : Type := InvalidOffset | TooLarge | Busy.

#[export] Instance WriteError_eq_dec : EqDecision WriteError.
Proof. solve_decision. Defined.

Inductive CommitState (T : Type) : Type :=
| CommitOpen
| Committing (request : T)
| Committed.

Arguments CommitOpen {T}.
Arguments Committing {T} request.
Arguments Committed {T}.

Record BufferedWrite (T : Type) : Type := mkBuffered {
  bw_bytes : Bytes;
  bw_max_bytes : N;
  bw_prepared : option T;
  bw_state : CommitState T
}.

Arguments mkBuffered {T} _ _ _ _.
Arguments bw_bytes {T} _.
Arguments bw_max_bytes {T} _.
Arguments bw_prepared {T} _.
Arguments bw_state {T} _.

Inductive BeginError (E : Type) : Type :=
| BeginWrite (e : WriteError)
| BeginPrepare (e : E).

Arguments BeginWrite {E} e.
Arguments BeginPrepare {E} e.

Section BufferedWrite.
Context {T : Type}.

Definition buffered_new (max_bytes : N) : BufferedWrite T := mkBuffered [] max_bytes None CommitOpen.

Definition is_commit_open (s : CommitState T) : bool := match s with CommitOpen => true | _ => false end.

(** [BufferedWrite::write]. *)
Definition buffered_write (b : BufferedWrite T) (offset : N) (data : Bytes) :
    BufferedWrite T * result WriteError N :=
  if negb (is_commit_open (bw_state b)) || bool_decide (is_Some (bw_prepared b)) then (b, Err Busy)
  else if negb (offset =? len (bw_bytes b))%N then (b, Err InvalidOffset)
  else if (bw_max_bytes b <? saturating_add_u64 (len (bw_bytes b)) (len data))%N then (b, Err TooLarge)
  else (mkBuffered (bw_bytes b ++ data) (bw_max_bytes b) (bw_prepared b) (bw_state b), Ok (as_u32 (len data))).

(** [BufferedWrite::begin]. *)
Definition buffered_begin {E} (b : BufferedWrite T) (prepare : Bytes -> result E T) :
    BufferedWrite T * result (BeginError E) (option T) :=
  match bw_state b with
  | Committed => (b, Ok None)
  | Committing _ => (b, Err (BeginWrite Busy))
  | CommitOpen =>
      match match bw_prepared b with Some request => Ok request | None => prepare (bw_bytes b) end with
      | Err e => (b, Err (BeginPrepare e))
      | Ok request =>
          (mkBuffered (bw_bytes b) (bw_max_bytes b) (Some request) (Committing request), Ok (Some request))
      end
  end.

(** [BufferedWrite::finish]. *)
Definition buffered_finish (b : BufferedWrite T) (success : bool) : BufferedWrite T :=
  match bw_state b with
  | Committing _ =>
      mkBuffered (bw_bytes b) (bw_max_bytes b) (bw_prepared b) (if success then Committed else CommitOpen)
  | _ => b
  end.

Definition buffered_committed (b : BufferedWrite T) : bool :=
  match bw_state b with Committed => true | _ => false end.

End BufferedWrite.

(** ** StreamBuffer *)

Record StreamBuffer : Type := mkStream {
  sb_bytes : Bytes;
  sb_consumed : N;
  sb_closed : bool
}.

Definition stream_default : StreamBuffer := mkStream [] 0 false.

Definition stream_push (b : StreamBuffer) (frame : Bytes) : StreamBuffer :=
  if negb (sb_closed b) then mkStream (sb_bytes b ++ frame) (sb_consumed b) (sb_closed b) else b.

(** [StreamBuffer::read]. *)
Definition stream_read (b : StreamBuffer) (offset size : N) :
    StreamBuffer * result WriteError (option Bytes) :=
  if negb (offset =? sb_consumed b)%N then (b, Err InvalidOffset)
  else match sb_bytes b with
  | [] => (b, Ok (if sb_closed b then Some [] else None))
  | _ =>
      let count := N.to_nat (N.min (len (sb_bytes b)) size) in
      let data := take count (sb_bytes b) in
      (mkStream (drop count (sb_bytes b)) (saturating_add_u64 (sb_consumed b) (len data)) (sb_closed b),
       Ok (Some data))
  end.

Definition stream_close (b : StreamBuffer) : StreamBuffer := mkStream (sb_bytes b) (sb_consumed b) true.

Definition stream_ready (b : StreamBuffer) : bool := negb (bool_decide (sb_bytes b = [])) || sb_closed b.

(** ** Histories of a write buffer *)

(** What is done to a buffer, and what it answers: a write with its data, a
    [begin] that handed out a request, one that did not, and the end of an
    attempt. *)
Inductive BufferedEvent (T : Type) : Type :=
| EvWrite (offset : N) (data : Bytes) (r : result WriteError N)
| EvSubmit (request : T)
| EvNothing
| EvFinish (success : bool).

Arguments EvWrite {T} offset data r.
Arguments EvSubmit {T} request.
Arguments EvNothing {T}.
Arguments EvFinish {T} success.

Section History.
Context {T E : Type} (prepared_from : Bytes -> T -> Prop).

(** The preparation may differ from call to call, as it draws a random
    identifier; [prepared_from] is what all of them have in common. *)
Definition prepares (prepare : Bytes -> result E T) : Prop :=
  forall bytes request, prepare bytes = Ok request -> prepared_from bytes request.

Inductive buffered_step : BufferedWrite T -> BufferedEvent T -> BufferedWrite T -> Prop :=
| StepWrite b offset data b' r :
    buffered_write b offset data = (b', r) -> buffered_step b (EvWrite offset data r) b'
| StepSubmit b prepare b' request :
    prepares prepare -> buffered_begin b prepare = (b', Ok (Some request)) -> buffered_step b (EvSubmit request) b'
| StepNothing b prepare b' r :
    prepares prepare -> buffered_begin b prepare = (b', r) -> (forall request, r <> Ok (Some request)) -> buffered_step b EvNothing b'
| StepFinish b success : buffered_step b (EvFinish success) (buffered_finish b success).

Inductive buffered_run (b : BufferedWrite T) : list (BufferedEvent T) -> BufferedWrite T -> Prop :=
| RunNil : buffered_run b [] b
| RunSnoc l b1 e b2 : buffered_run b l b1 -> buffered_step b1 e b2 -> buffered_run b (l ++ [e]) b2.

(** The requests handed out, and the bytes accepted by writes. *)
Definition submitted (l : list (BufferedEvent T)) : list T :=
  omap (fun e => match e with EvSubmit r => Some r | _ => None end) l.

Definition written (l : list (BufferedEvent T)) : Bytes :=
  concat (omap (fun e => match e with EvWrite _ data (Ok _) => Some data | _ => None end) l).

(** One attempt after the other until one succeeds: no request is handed out
    while another is under way, or after one has succeeded. *)
Inductive Attempts : list (BufferedEvent T) -> CommitState T -> Prop :=
| AttemptsNil : Attempts [] CommitOpen
| AttemptsSubmit l r : Attempts l CommitOpen -> Attempts (l ++ [EvSubmit r]) (Committing r)
| AttemptsFailed l r : Attempts l (Committing r) -> Attempts (l ++ [EvFinish false]) CommitOpen
| AttemptsDone l r : Attempts l (Committing r) -> Attempts (l ++ [EvFinish true]) Committed
| AttemptsIdle l s success : Attempts l s -> (forall r, s <> Committing r) -> Attempts (l ++ [EvFinish success]) s
| AttemptsOther l s e : Attempts l s -> (forall r, e <> EvSubmit r) -> (forall b, e <> EvFinish b) -> Attempts (l ++ [e]) s.


(** ** Lemmas *)

Lemma submitted_snoc l e : submitted (l ++ [e]) = submitted l ++ submitted [e].
Proof. apply omap_app. Qed.

Lemma written_snoc l e : written (l ++ [e]) = written l ++ written [e].
Proof. unfold written. by rewrite omap_app, concat_app. Qed.

(** What holds of a buffer after a history. *)
Record buffered_inv (max_bytes : N) (l : list (BufferedEvent T)) (b : BufferedWrite T) : Prop := {
  bi_max : bw_max_bytes b = max_bytes;
  bi_bytes : written l = bw_bytes b;
  bi_fits : (len (bw_bytes b) <= max_bytes)%N;
  bi_attempts : Attempts l (bw_state b);
  bi_submitted : forall x, x ∈ submitted l -> bw_prepared b = Some x;
  bi_prepared : forall r, bw_prepared b = Some r -> prepared_from (bw_bytes b) r;
  bi_current : forall r, bw_state b = Committing r -> bw_prepared b = Some r
}.

Lemma buffered_inv_new max_bytes : buffered_inv max_bytes [] (buffered_new max_bytes).
Proof. split; cbn; [done|done|apply N.le_0_l|constructor|by intros x ?%elem_of_nil|done|done]. Qed.

Lemma write_inv max_bytes l b offset data b' r :
  (max_bytes < u64_max)%N -> buffered_inv max_bytes l b -> buffered_write b offset data = (b', r) ->
  buffered_inv max_bytes (l ++ [EvWrite offset data r]) b'.
Proof.
  intros Hmax [Hm Hb Hf Ha Hs Hp Hc] Hw.
  assert (Hat : forall s, Attempts l s -> Attempts (l ++ [EvWrite offset data r]) s) by (intros; by constructor).
  assert (Hsame : forall e, r = Err e -> b' = b -> buffered_inv max_bytes (l ++ [EvWrite offset data r]) b').
  { intros e -> ->. split; rewrite ?submitted_snoc, ?written_snoc, ?app_nil_r; auto. }
  revert Hw. unfold buffered_write. destruct (_ || _) eqn:E0; [intros [= <- <-]; eauto|].
  apply orb_false_iff in E0 as [_ Hnp]. apply bool_decide_eq_false in Hnp.
  case_if; [intros [= <- <-]; eauto|]. case_if; [intros [= <- <-]; eauto|].
  bool_facts. unfold saturating_add_u64 in *. intros [= <- <-].
  split; rewrite ?submitted_snoc, ?written_snoc; cbn; rewrite ?app_nil_r; auto.
  - by rewrite Hb.
  - autorewrite with machine. lia.
  - intros r Hr. exfalso. apply Hnp. by exists r.
Qed.

Lemma begin_inv max_bytes l b prepare b' r :
  buffered_inv max_bytes l b -> prepares prepare -> buffered_begin b prepare = (b', r) ->
  match r with
  | Ok (Some request) => buffered_inv max_bytes (l ++ [EvSubmit request]) b'
  | _ => buffered_inv max_bytes (l ++ [EvNothing]) b'
  end.
Proof.
  intros [Hm Hb Hf Ha Hs Hp Hc] Hprep. unfold buffered_begin.
  assert (Hsame : buffered_inv max_bytes (l ++ [EvNothing]) b)
    by (split; rewrite ?submitted_snoc, ?written_snoc, ?app_nil_r; auto; by constructor).
  destruct (bw_state b) as [|r0|] eqn:Hst; [|by intros [= <- <-]..].
  destruct (match bw_prepared b with Some request => Ok request | None => prepare (bw_bytes b) end) as [q|e] eqn:Hq;
    intros [= <- <-]; [|done].
  split; rewrite ?submitted_snoc, ?written_snoc; cbn; rewrite ?app_nil_r; auto.
  - by constructor.
  - intros x [Hx|Hx]%elem_of_app.
    + apply Hs in Hx. rewrite Hx in Hq. congruence.
    + by apply list_elem_of_singleton in Hx as ->.
  - intros r [= <-]. destruct (bw_prepared b) as [q'|] eqn:Hpr; [injection Hq as <-; by apply Hp|]. by apply Hprep.
  - by intros r [= <-].
Qed.

Lemma finish_inv max_bytes l b success :
  buffered_inv max_bytes l b -> buffered_inv max_bytes (l ++ [EvFinish success]) (buffered_finish b success).
Proof.
  intros [Hm Hb Hf Ha Hs Hp Hc]. unfold buffered_finish. destruct (bw_state b) as [|r|] eqn:Hst.
  - split; rewrite ?submitted_snoc, ?written_snoc, ?app_nil_r, ?Hst; auto. by apply AttemptsIdle.
  - split; rewrite ?submitted_snoc, ?written_snoc, ?app_nil_r; auto.
    + cbn. destruct success; by econstructor.
    + by destruct success.
  - split; rewrite ?submitted_snoc, ?written_snoc, ?app_nil_r, ?Hst; auto. by apply AttemptsIdle.
Qed.

Lemma run_inv max_bytes l b :
  (max_bytes < u64_max)%N -> buffered_run (buffered_new max_bytes) l b -> buffered_inv max_bytes l b.
Proof.
  intros Hmax. induction 1 as [|l b1 e b2 _ IH Hstep]; [apply buffered_inv_new|].
  destruct Hstep as [b offset data b' r Hw|b prepare b' q Hpr Hbg|b prepare b' r Hpr Hbg Hno|b success].
  - by eapply write_inv.
  - by apply (begin_inv _ _ _ _ _ _ IH Hpr Hbg).
  - pose proof (begin_inv _ _ _ _ _ _ IH Hpr Hbg) as Hi. destruct r as [[q|]|]; [by destruct (Hno q)|done|done].
  - by apply finish_inv.
Qed.

(** ** Properties *)

(** C16: an open file is submitted once. Over any history of a write buffer, with
    writes, flushes and syncs of several tasks in any order: every request handed
    out is the same one, prepared from exactly the bytes the writes have
    accepted, in order, and never more than the limit; a request is handed out
    only when the last attempt has failed; and after an attempt that succeeded
    none is. In particular a retry carries the event identifier of the first
    attempt. *)
Theorem buffered_submits_once (max_bytes : N) (l : list (BufferedEvent T)) (b : BufferedWrite T)
  (Hmax : (max_bytes < u64_max)%N) (Hrun : buffered_run (buffered_new max_bytes) l b) :
  (forall r1 r2, r1 ∈ submitted l -> r2 ∈ submitted l -> r1 = r2) /\
  (forall r, r ∈ submitted l -> prepared_from (written l) r) /\
  (len (written l) <= max_bytes)%N /\ Attempts l (bw_state b).
Proof.
  destruct (run_inv _ _ _ Hmax Hrun) as [Hm Hb Hf Ha Hs Hp Hc]. split_ands.
  - intros r1 r2 H1%Hs H2%Hs. congruence.
  - intros r Hr%Hs. rewrite Hb. by apply Hp.
  - by rewrite Hb.
  - done.
Qed.

End History.

(** A failed attempt and its repetition. *)
Lemma buffered_submits_once_witness :
  let b0 := buffered_new (T := Bytes) 16 in
  let b1 := (buffered_write b0 0 [x61; x62]).1 in
  let b2 := (buffered_begin (E := unit) b1 Ok).1 in
  let b4 := (buffered_begin (E := unit) (buffered_finish b2 false) Ok).1 in
  let l := [EvWrite 0 [x61; x62] (Ok 2%N); EvSubmit [x61; x62]; EvFinish false; EvSubmit [x61; x62]] in
  submitted l = [[x61; x62]; [x61; x62]] /\ written l = [x61; x62] /\ Attempts l (bw_state b4).
Proof.
  intros b0 b1 b2 b4 l. split_ands; [done|done|].
  assert (Hp : prepares (E := unit) (fun b r => r = b) Ok) by (by intros b r [= <-]).
  apply (buffered_submits_once (E := unit) (fun b r => r = b) 16 l b4 ltac:(done)).
  apply (RunSnoc _ _ [_; _; _] (buffered_finish b2 false)); [|by econstructor].
  apply (RunSnoc _ _ [_; _] b2); [|constructor].
  apply (RunSnoc _ _ [_] b1); [|by econstructor].
  apply (RunSnoc _ _ [] b0); [constructor|by econstructor].
Defined.

(** ** Lemmas: the stream buffer *)

Lemma stream_read_offset b offset size : offset <> sb_consumed b -> stream_read b offset size = (b, Err InvalidOffset).
Proof. intros H. unfold stream_read. by rewrite (proj2 (N.eqb_neq _ _) H). Qed.

(** A read takes a prefix of what is queued, of at most the size asked for. *)
Lemma stream_read_data b size :
  sb_bytes b <> [] ->
  exists data rest, sb_bytes b = data ++ rest /\ len data = N.min (len (sb_bytes b)) size /\
    stream_read b (sb_consumed b) size =
      (mkStream rest (saturating_add_u64 (sb_consumed b) (len data)) (sb_closed b), Ok (Some data)).
Proof.
  intros Hne. set (c := N.to_nat (N.min (len (sb_bytes b)) size)).
  exists (take c (sb_bytes b)), (drop c (sb_bytes b)). split_ands.
  - by rewrite take_drop.
  - unfold len at 1. rewrite length_take_le; unfold c, len; lia.
  - unfold stream_read. rewrite N.eqb_refl. cbn [negb]. by destruct (sb_bytes b).
Qed.

Lemma stream_read_empty b size :
  sb_bytes b = [] -> stream_read b (sb_consumed b) size = (b, Ok (if sb_closed b then Some [] else None)).
Proof. intros H. unfold stream_read. by rewrite N.eqb_refl, H. Qed.
