(* ===== verification/FuseCodec.v ===== *)
(** * eventfs-fuse: the JSON contract

    [eventfs-fuse/src/codec.rs]: the envelopes written to event and consumer
    files, and the lines of the streams read from them.

    [serde_json] with the derived (de)serialisers of the wire structs is the
    parameter [SerdeJson]; [SerdeJsonLaws] says that what it prints is one line
    and reads back. Everything the crate does itself is modelled: the checks
    behind the deserialiser, the hexadecimal tokens with the slicing that can
    panic, the frames and [String::from_utf8_lossy]. *)

From S2P Require Import Prelude.
From S2P Require Import Bytes.
From S2P Require Import Core.
From S2P Require Import Aggregate.
From S2P Require Import GroupCatalog.
From S2P Require Import Store.
From S2P Require Import RaftType.
From S2P Require Import Config.
From S2P Require Import Topology.
From S2P Require Import Wire.

(** ** Envelopes *)

Inductive AggregateVersionExpectation : Type :=
| VeAny | VeNoAggregate | VeExists | VeExact (version : N).

Record EventEnvelope : Type := mkEnvelope {
  en_aggregate_id : string;
  en_event_type : string;
  en_data : Bytes;
  en_metadata : Bytes;
  en_event_id : Uuid;
  en_expected_version : AggregateVersionExpectation
}.

Inductive SettlementAction : Type := SaAck | SaRetry | SaPark | SaSkip.

Record Settlement : Type := mkSettled {
  sv_delivery_id : Bytes;
  sv_action : SettlementAction;
  sv_reason : string
}.

Record SettlementEnvelope : Type := mkSettlements { sv_settlements : list Settlement }.

(** [WireExpectedAggregateVersion] has the constructors of
    [AggregateVersionExpectation]. *)
Record WireEventEnvelope (value : Type) : Type := mkWireEvent {
  we_spec_version : string;
  we_aggregate_id : string;
  we_event_type : string;
  we_data : value;
  we_event_id : option Uuid;
  we_expected_version : option AggregateVersionExpectation;
  we_metadata : value
}.

Arguments mkWireEvent {value} _ _ _ _ _ _ _.
Arguments we_spec_version {value} _.
Arguments we_aggregate_id {value} _.
Arguments we_event_type {value} _.
Arguments we_data {value} _.
Arguments we_event_id {value} _.
Arguments we_expected_version {value} _.
Arguments we_metadata {value} _.

Record WireSettlement : Type := mkWireSettlement {
  ws_delivery_id : string;
  ws_action : SettlementAction;
  ws_reason : string
}.

Inductive CodecError : Type :=
| CodecTooLarge
| CodecJson (message : string)
| UnsupportedSpec (version : string)
| InvalidField (name : string)
| InvalidToken
| MissingEvent.

(** An error, or a panic. *)
Inductive Thrown (E : Type) : Type := Raised (e : E) | Panics (message : string).

Arguments Raised {E} e.
Arguments Panics {E} message.

(** The fields of a printed object: strings, integers, booleans and JSON
    values. *)
Inductive FieldValue (value : Type) : Type :=
| FvString (s : string)
| FvNumber (n : N)
| FvBool (b : bool)
| FvValue (v : value).

Arguments FvString {value} s.
Arguments FvNumber {value} n.
Arguments FvBool {value} b.
Arguments FvValue {value} v.

Class SerdeJson : Type := {
  value : Type;
  value_is_object : value -> bool;
  value_string : string -> value;
  (** [serde_json::from_slice] at the three types the crate reads. *)
  value_from_slice : Bytes -> result string value;
  wire_event_from_slice : Bytes -> result string (WireEventEnvelope value);
  wire_settlements_from_slice : Bytes -> result string (list WireSettlement);
  (** [serde_json::to_vec] of a value, and of a struct with these fields. *)
  value_to_vec : value -> Bytes;
  object_to_vec : list (string * FieldValue value) -> Bytes;
  (** Reading a printed object back, field by field. *)
  object_from_slice : Bytes -> option (list (string * FieldValue value))
}.

Class SerdeJsonLaws `{SerdeJson} : Prop := {
  (** Compact output escapes control characters. *)
  object_one_line fields : x0a ∉ object_to_vec fields;
  object_round_trip fields : object_from_slice (object_to_vec fields) = Some fields
}.

(** ** Hexadecimal tokens *)

(** [format!("{byte:02x}")]. *)
Definition hex_digit (n : N) : Ascii.ascii :=
  Ascii.ascii_of_N (if (n <? 10)%N then 48 + n else 87 + n).

Definition hex_byte (b : byte) : string :=
  let n := Byte.to_N b in String (hex_digit (n / 16)) (String (hex_digit (n mod 16)) "").

Definition hex (bytes : Bytes) : string := String.concat "" (map hex_byte bytes).

(** [char::to_digit(16)] of a byte; the bytes of longer characters are none. *)
Definition to_digit16 (b : byte) : option N :=
  let n := Byte.to_N b in
  if ((48 <=? n) && (n <=? 57))%N then Some (n - 48)%N
  else if ((97 <=? n) && (n <=? 102))%N then Some (n - 87)%N
  else if ((65 <=? n) && (n <=? 70))%N then Some (n - 55)%N
  else None.

(** [u8::from_str_radix(_, 16)] of two bytes: a leading [+] is accepted. *)
Definition u8_from_hex (a b : byte) : option N :=
  if bool_decide (a = x2b) then to_digit16 b
  else match to_digit16 a, to_digit16 b with
       | Some x, Some y => Some (16 * x + y)%N
       | _, _ => None
       end.

(** A byte inside a UTF-8 character: no slice of a [str] may begin or end in
    front of it. *)
Definition is_continuation (b : byte) : bool :=
  let n := Byte.to_N b in ((128 <=? n) && (n <? 192))%N.

(** The slices [&value[index..index + 2]] one after the other; a slice that
    begins or ends inside a character panics. *)
Fixpoint decode_pairs (bytes : Bytes) : result (Thrown CodecError) Bytes :=
  match bytes with
  | [] => Ok []
  | [_] => Err (Panics "byte index out of bounds")
  | a :: b :: rest =>
      if is_continuation a || match rest with c :: _ => is_continuation c | [] => false end
      then Err (Panics "byte index is not a char boundary")
      else
        n ← ok_or (Raised InvalidToken) (u8_from_hex a b);
        more ← decode_pairs rest;
        Ok (byte_of_N n :: more)
  end.

Definition decode_hex (s : string) : result (Thrown CodecError) Bytes :=
  if bool_decide (s = "") || negb (N.even (len (as_bytes s))) then Err (Raised InvalidToken)
  else decode_pairs (as_bytes s).

(** ** [String::from_utf8_lossy] *)

Definition replacement : Bytes := [xef; xbf; xbd].

(** The bytes a first byte asks for: the range of the second, and how many more
    follow it. *)
Definition utf8_lead (b : byte) : option (N * N * nat) :=
  let n := Byte.to_N b in
  if ((194 <=? n) && (n <=? 223))%N then Some (128%N, 191%N, 0)
  else if (n =? 224)%N then Some (160%N, 191%N, 1)
  else if (n =? 237)%N then Some (128%N, 159%N, 1)
  else if ((225 <=? n) && (n <=? 239))%N then Some (128%N, 191%N, 1)
  else if (n =? 240)%N then Some (144%N, 191%N, 2)
  else if ((241 <=? n) && (n <=? 243))%N then Some (128%N, 191%N, 2)
  else if (n =? 244)%N then Some (128%N, 143%N, 2)
  else None.

(** How many of the following bytes belong to the character, up to [k], and
    whether they all do. *)
Fixpoint utf8_tail (k : nat) (bytes : Bytes) : nat * bool :=
  match k, bytes with
  | O, _ => (0, true)
  | S k', b :: rest => if is_continuation b then let '(n, ok) := utf8_tail k' rest in (S n, ok) else (0, false)
  | S _, [] => (0, false)
  end.

(** The length of the character or of the invalid sequence in front. *)
Definition utf8_step (b : byte) (rest : Bytes) : nat * bool :=
  if (Byte.to_N b <? 128)%N then (1, true)
  else match utf8_lead b with
  | None => (1, false)
  | Some (lo, hi, more) =>
      match rest with
      | c :: rest' =>
          if ((lo <=? Byte.to_N c) && (Byte.to_N c <=? hi))%N
          then let '(n, ok) := utf8_tail more rest' in (S (S n), ok)
          else (1, false)
      | [] => (1, false)
      end
  end.

(** Each step takes at least one byte: [length bytes] steps are enough. *)
Fixpoint utf8_lossy (fuel : nat) (bytes : Bytes) : Bytes :=
  match fuel, bytes with
  | S fuel', b :: rest =>
      let '(n, ok) := utf8_step b rest in
      (if ok then take n (b :: rest) else replacement) ++ utf8_lossy fuel' (drop n (b :: rest))
  | _, _ => []
  end.

Definition from_utf8_lossy (bytes : Bytes) : string :=
  String.string_of_list_byte (utf8_lossy (length bytes) bytes).

(** ** Reading *)

Section Codec.
Context `{SerdeJson}.

Definition check_size (bytes : Bytes) (max_bytes : N) : result CodecError unit :=
  if (max_bytes <? len bytes)%N then Err CodecTooLarge else Ok tt.

(** [parse_event]; [fresh] is the identifier [Uuid::new_v4] would give. *)
Definition parse_event (bytes : Bytes) (max_bytes : N) (fresh : Uuid) : result CodecError EventEnvelope :=
  _ ← check_size bytes max_bytes;
  wire ← map_err CodecJson (wire_event_from_slice bytes);
  if negb (bool_decide (we_spec_version wire = "1.0")) then Err (UnsupportedSpec (we_spec_version wire))
  else
    _ ← map_err (fun _ => InvalidField "aggregate_id")
          (validate_aggregate_identifier "aggregate_id" (we_aggregate_id wire));
    if bool_decide (we_event_type wire = "") then Err (InvalidField "event_type")
    else if negb (value_is_object (we_metadata wire)) then Err (InvalidField "metadata")
    else
      Ok (mkEnvelope (we_aggregate_id wire) (we_event_type wire) (value_to_vec (we_data wire))
            (value_to_vec (we_metadata wire)) (default fresh (we_event_id wire))
            (default VeAny (we_expected_version wire))).

Definition parse_settlement (s : WireSettlement) : result (Thrown CodecError) Settlement :=
  id ← decode_hex (ws_delivery_id s);
  Ok (mkSettled id (ws_action s) (ws_reason s)).

Definition parse_settlements (bytes : Bytes) (max_bytes : N) : result (Thrown CodecError) SettlementEnvelope :=
  _ ← map_err Raised (check_size bytes max_bytes);
  wire ← map_err (fun e => Raised (CodecJson e)) (wire_settlements_from_slice bytes);
  if bool_decide (length wire = 0) then Err (Raised (InvalidField "settlements"))
  else
    settlements ← result_mapM parse_settlement wire;
    Ok (mkSettlements settlements).

(** ** Frames *)

(** [AggregateGroupDelivery] as a client receives it: the event may be absent. *)
Record ReceivedDelivery : Type := mkReceived {
  rd_delivery_id : Bytes;
  rd_event : option PbEvent;
  rd_attempt : N;
  rd_deadline_ms : N;
  rd_replayed : bool
}.

Definition json_value (bytes : Bytes) : value :=
  match value_from_slice bytes with Ok v => v | Err _ => value_string (from_utf8_lossy bytes) end.

Definition json_line (fields : list (string * FieldValue value)) : Bytes := object_to_vec fields ++ [x0a].

Definition event_fields (e : PbEvent) : list (string * FieldValue value) :=
  [("aggregate_id", FvString (pe_aggregate_id e)); ("aggregate_version", FvNumber (pe_aggregate_version e));
   ("event_id", FvString (hex (pe_event_id e))); ("event_type", FvString (pe_event_type e));
   ("data", FvValue (json_value (pe_data e))); ("metadata", FvValue (json_value (pe_metadata e)))].

Definition event_frame (e : PbEvent) : Bytes := json_line (("kind", FvString "event") :: event_fields e).

Definition delivery_fields (d : ReceivedDelivery) (e : PbEvent) : list (string * FieldValue value) :=
  [("kind", FvString "delivery"); ("delivery_id", FvString (hex (rd_delivery_id d)));
   ("attempt", FvNumber (rd_attempt d)); ("deadline_ms", FvNumber (rd_deadline_ms d));
   ("replayed", FvBool (rd_replayed d))] ++ event_fields e.

Definition delivery_frame (d : ReceivedDelivery) : result CodecError Bytes :=
  event ← ok_or MissingEvent (rd_event d);
  Ok (json_line (delivery_fields d event)).

(** The keys of a [json!] object are printed in the order of a [BTreeMap]. *)
Definition status_frame (kind : string) (unavailable_sources : option N) : Bytes :=
  json_line
    match unavailable_sources with
    | Some count => [("kind", FvString kind); ("retrying", FvBool true); ("unavailable_source_count", FvNumber count)]
    | None => [("kind", FvString kind)]
    end.

End Codec.

(** ** Lemmas: hexadecimal *)

Lemma string_concat_bytes l : as_bytes (String.concat "" l) = concat (map as_bytes l).
Proof.
  induction l as [|s l IH]; [done|]. destruct l as [|t l]; [by cbn; rewrite app_nil_r|].
  change (String.concat "" (s :: t :: l)) with (s +:+ String.concat "" (t :: l)).
  rewrite as_bytes_app, IH. done.
Qed.

Lemma hex_byte_decodes b rest :
  decode_pairs (as_bytes (hex_byte b) ++ rest) =
  match rest with
  | c :: _ => if is_continuation c then Err (Panics "byte index is not a char boundary")
              else (more ← decode_pairs rest; Ok (b :: more))
  | [] => Ok [b]
  end.
Proof. destruct b; vm_compute (as_bytes _); destruct rest; reflexivity. Qed.

Lemma hex_decodes bytes : decode_pairs (as_bytes (hex bytes)) = Ok bytes.
Proof.
  unfold hex. rewrite string_concat_bytes. induction bytes as [|b bytes IH]; [done|].
  change (concat (map as_bytes (map hex_byte (b :: bytes))))
    with (as_bytes (hex_byte b) ++ concat (map as_bytes (map hex_byte bytes))).
  rewrite hex_byte_decodes. destruct bytes as [|c bytes]; [done|].
  destruct (concat (map as_bytes (map hex_byte (c :: bytes)))) as [|a rest] eqn:E; [by destruct c|].
  rewrite IH. assert (Ha : is_continuation a = false) by (destruct c; cbn in E; by injection E as <- _).
  by rewrite Ha.
Qed.

Lemma hex_length bytes : len (as_bytes (hex bytes)) = (2 * len bytes)%N.
Proof.
  unfold hex. rewrite string_concat_bytes. induction bytes as [|b bytes IH]; [done|].
  cbn [map concat]. autorewrite with machine. rewrite IH. change (len (as_bytes (hex_byte b))) with 2%N. lia.
Qed.

Lemma hex_token_decodes token : token <> [] -> decode_hex (hex token) = Ok token.
Proof.
  intros Hne. unfold decode_hex. rewrite hex_decodes, hex_length. destruct (bool_decide _) eqn:E; bool_facts.
  - destruct token as [|b token]; [done|]. by destruct b, token.
  - rewrite N.even_mul. done.
Qed.

(** A field of a printed object. *)
Definition field {V} (name : string) (fields : list (string * FieldValue V)) : option (FieldValue V) :=
  (fun x => x.2.2) <$> list_find (fun f => f.1 = name) fields.

(** ** Properties *)

Section Properties.
Context `{SerdeJsonLaws}.

(** What a consumer needs to settle a delivery survives the trip through its
    file. A delivery with an event and a token is shown as one line, with no line
    break inside; the line reads back to fields among which the identity, the
    version and the attempt are those of the delivery, and the text of the
    delivery id, written back in a settlement, is decoded to exactly the token
    the server gave. *)
Theorem delivery_line_round_trip (d : ReceivedDelivery) (e : PbEvent)
  (Hevent : rd_event d = Some e) (Htoken : rd_delivery_id d <> []) :
  exists text fields id, delivery_frame d = Ok (text ++ [x0a]) /\ x0a ∉ text /\
    object_from_slice text = Some fields /\
    field "delivery_id" fields = Some (FvString id) /\ decode_hex id = Ok (rd_delivery_id d) /\
    field "attempt" fields = Some (FvNumber (rd_attempt d)) /\
    field "aggregate_id" fields = Some (FvString (pe_aggregate_id e)) /\
    field "aggregate_version" fields = Some (FvNumber (pe_aggregate_version e)).
Proof.
  exists (object_to_vec (delivery_fields d e)), (delivery_fields d e), (hex (rd_delivery_id d)).
  split_ands; try done.
  - unfold delivery_frame. by rewrite Hevent.
  - apply object_one_line.
  - apply object_round_trip.
  - by apply hex_token_decodes.
Qed.

(** A settlement file can panic the file system's task. A delivery id of even
    length whose characters do not end at every second byte makes the slicing in
    [decode_hex] panic, before the text is checked to be hexadecimal; the
    documented result for a malformed token is an error. *)
Theorem settlement_token_panics (bytes : Bytes) (max_bytes : N) (w : WireSettlement) (rest : list WireSettlement)
  (a b c : byte) (tail : Bytes)
  (Hsize : (len bytes <= max_bytes)%N) (Hwire : wire_settlements_from_slice bytes = Ok (w :: rest))
  (Htext : as_bytes (ws_delivery_id w) = a :: b :: c :: tail) (Heven : N.even (len tail) = false)
  (Hchar : is_continuation c = true) :
  parse_settlements bytes max_bytes = Err (Panics "byte index is not a char boundary").
Proof.
  unfold parse_settlements, check_size. rewrite (proj2 (N.ltb_ge _ _)) by done. cbn [map_err mbind result_bind].
  rewrite Hwire. cbn [map_err mbind result_bind]. rewrite bool_decide_eq_false_2 by done.
  assert (Hd : decode_hex (ws_delivery_id w) = Err (Panics "byte index is not a char boundary")).
  { unfold decode_hex. rewrite Htext, bool_decide_eq_false_2 by (intros E; rewrite E in Htext; done).
    autorewrite with machine. rewrite !N.even_add, Heven. cbn [orb negb N.even Bool.eqb].
    cbn [decode_pairs]. rewrite Hchar, orb_true_r. done. }
  assert (Hp : parse_settlement w = Err (Panics "byte index is not a char boundary"))
    by (unfold parse_settlement; by rewrite Hd).
  cbn [result_mapM]. by rewrite Hp.
Qed.

End Properties.

(** ** A concrete serialiser *)

#[export] Instance FieldValue_eq_dec {V} `{EqDecision V} : EqDecision (FieldValue V).
Proof. solve_decision. Defined.

#[export] Instance FieldValue_countable {V} `{Countable V} : Countable (FieldValue V).
Proof.
  refine (inj_countable'
    (fun f : FieldValue V => match f with
      | FvString s => inl (inl s) | FvNumber n => inl (inr n) | FvBool b => inr (inl b) | FvValue v => inr (inr v) end)
    (fun x => match x with
      | inl (inl s) => FvString s | inl (inr n) => FvNumber n | inr (inl b) => FvBool b | inr (inr v) => FvValue v end) _).
  by intros [].
Defined.

#[export] Instance SettlementAction_eq_dec : EqDecision SettlementAction.
Proof. solve_decision. Defined.

#[export] Instance SettlementAction_countable : Countable SettlementAction.
Proof.
  by refine (inj_countable' (fun a => match a with SaAck => 0 | SaRetry => 1 | SaPark => 2 | SaSkip => 3 end)
    (fun n => match n with 0 => SaAck | 1 => SaRetry | 2 => SaPark | _ => SaSkip end) _); intros [].
Defined.

#[export] Instance WireSettlement_eq_dec : EqDecision WireSettlement.
Proof. solve_decision. Defined.

#[export] Instance WireSettlement_countable : Countable WireSettlement.
Proof.
  by refine (inj_countable' (fun w => (ws_delivery_id w, ws_action w, ws_reason w))
    (fun '(i, a, r) => mkWireSettlement i a r) _); intros [].
Defined.

#[export] Instance VersionExpectation_eq_dec : EqDecision AggregateVersionExpectation.
Proof. solve_decision. Defined.

#[export] Instance VersionExpectation_countable : Countable AggregateVersionExpectation.
Proof.
  refine (inj_countable'
    (fun v => match v with VeAny => inl 0 | VeNoAggregate => inl 1 | VeExists => inl 2 | VeExact n => inr n end)
    (fun x => match x with inl 0 => VeAny | inl 1 => VeNoAggregate | inl _ => VeExists | inr n => VeExact n end) _).
  by intros [].
Defined.

#[export] Instance WireEvent_eq_dec : EqDecision (WireEventEnvelope string).
Proof. solve_decision. Defined.

#[export] Instance WireEvent_countable : Countable (WireEventEnvelope string).
Proof.
  by refine (inj_countable' (fun w => (we_spec_version w, we_aggregate_id w, we_event_type w, we_data w,
      we_event_id w, we_expected_version w, we_metadata w))
    (fun '(s, a, t, d, i, x, m) => mkWireEvent s a t d i x m) _); intros [].
Defined.

(** The text of a value is the text of its code. *)
Definition code_text {A} `{Countable A} (a : A) : Bytes := positive_bytes (countable.encode a).

Definition text_code {A} `{Countable A} (b : Bytes) : option A :=
  x ← positive_read b; if (x.2 =? len b)%N then countable.decode x.1 else None.

Definition demo_serde : SerdeJson := {|
  value := string;
  value_is_object := fun v => bool_decide (v = "{}");
  value_string := fun s => s;
  value_from_slice := fun b => ok_or "expected value" (text_code b);
  wire_event_from_slice := fun b => ok_or "missing field" (text_code b);
  wire_settlements_from_slice := fun b => ok_or "missing field" (text_code b);
  value_to_vec := as_bytes;
  object_to_vec := code_text;
  object_from_slice := text_code
|}.

Lemma text_code_text {A} `{Countable A} (a : A) : text_code (code_text a) = Some a.
Proof.
  unfold text_code, code_text. pose proof (positive_read_bytes (countable.encode a) []) as Hr.
  rewrite app_nil_r in Hr. rewrite Hr. cbn. by rewrite N.eqb_refl, decode_encode.
Qed.

Lemma positive_bytes_line p : x0a ∉ positive_bytes p.
Proof. induction p; cbn; rewrite ?not_elem_of_cons; intuition (try done); by apply elem_of_nil in H. Qed.

Lemma demo_serde_laws : @SerdeJsonLaws demo_serde.
Proof. split; intros fields; [apply positive_bytes_line|apply text_code_text]. Qed.

Definition demo_pb_event : PbEvent := mkPbEvent "order-1" 3 [x01] "OrderPlaced" [] [] None.

Lemma delivery_line_round_trip_witness :
  decode_hex (hex [x00; xff]) = Ok [x00; xff] /\
  exists text, @delivery_frame demo_serde (mkReceived [x00; xff] (Some demo_pb_event) 1 5 false) = Ok (text ++ [x0a]).
Proof.
  split; [vm_compute; reflexivity|].
  destruct (@delivery_line_round_trip demo_serde demo_serde_laws
    (mkReceived [x00; xff] (Some demo_pb_event) 1 5 false) demo_pb_event) as (text & _ & _ & Hf & _);
    [reflexivity|discriminate|]. by exists text.
Defined.

(** The text [aéa]. *)
Lemma settlement_token_panics_witness :
  let w := mkWireSettlement (String.string_of_list_byte [x61; xc3; xa9; x61]) SaAck "" in
  @parse_settlements demo_serde (code_text [w]) 1000000 = Err (Panics "byte index is not a char boundary").
Proof.
  intros w. apply (@settlement_token_panics demo_serde (code_text [w]) 1000000 w [] x61 xc3 xa9 [x61]).
  - vm_compute. discriminate.
  - cbn [wire_settlements_from_slice demo_serde]. by rewrite text_code_text.
  - reflexivity.
  - reflexivity.
  - reflexivity.
Defined.
