(* ===== verification/FuseInodes.v ===== *)
(** * eventfs-fuse: the inode table

    [InodeTable] of [eventfs-fuse/src/fuse.rs]: inode numbers for the nodes the
    kernel and the open directories refer to, with their reference counts.

    The table is behind one mutex, so what concurrent requests do to it is a
    sequence of its operations. The specification is the kernel's own view, a
    count and a node for each inode number it holds; the theorem says that the
    table agrees with it after any sequence in which the kernel gives back no
    more than it was given. *)

From S2P Require Import Prelude.
From S2P Require Import Bytes.
From S2P Require Import FusePath.

Record InodeTable : Type := mkTable {
  it_next : N;
  it_by_inode : gmap N Node;
  it_by_node : gmap Node N;
  it_sizes : gmap N N;
  it_lookup_refs : gmap N N;
  it_directory_refs : gmap N N
}.

(** [INodeNo::ROOT]. *)
Definition ROOT : N := 1.

Definition table_new : InodeTable := mkTable (ROOT + 1) {[ROOT := Root]} {[Root := ROOT]} ∅ ∅ ∅.

(** [InodeTable::ensure]. *)
Definition ensure (t : InodeTable) (node : Node) (size : N) : InodeTable * N :=
  match it_by_node t !! node with
  | Some ino =>
      (mkTable (it_next t) (it_by_inode t) (it_by_node t) (<[ino := size]> (it_sizes t))
         (it_lookup_refs t) (it_directory_refs t), ino)
  | None =>
      let ino := it_next t in
      (mkTable (saturating_add_u64 ino 1) (<[ino := node]> (it_by_inode t)) (<[node := ino]> (it_by_node t))
         (<[ino := size]> (it_sizes t)) (it_lookup_refs t) (it_directory_refs t), ino)
  end.

Definition table_node (t : InodeTable) (ino : N) : option Node := it_by_inode t !! ino.

Definition table_inode (t : InodeTable) (node : Node) : option N := it_by_node t !! node.

Definition table_size (t : InodeTable) (ino : N) : N := default 0%N (it_sizes t !! ino).

(** [*map.entry(ino).or_default() += 1]. *)
Definition count_up (m : gmap N N) (ino : N) : gmap N N :=
  <[ino := wrapping_add_u64 (default 0%N (m !! ino)) 1]> m.

(** [value.saturating_sub(count)], and the entry removed at zero. *)
Definition count_down (m : gmap N N) (ino count : N) : gmap N N :=
  match m !! ino with
  | Some v => if (v - count =? 0)%N then delete ino m else <[ino := (v - count)%N]> m
  | None => m
  end.

Definition with_lookups (t : InodeTable) (m : gmap N N) : InodeTable :=
  mkTable (it_next t) (it_by_inode t) (it_by_node t) (it_sizes t) m (it_directory_refs t).

Definition with_directories (t : InodeTable) (m : gmap N N) : InodeTable :=
  mkTable (it_next t) (it_by_inode t) (it_by_node t) (it_sizes t) (it_lookup_refs t) m.

Definition remember_lookup (t : InodeTable) (node : Node) (size : N) : InodeTable * N :=
  let '(t, ino) := ensure t node size in
  (with_lookups t (count_up (it_lookup_refs t) ino), ino).

Definition remove_if_unreferenced (t : InodeTable) (ino : N) : InodeTable :=
  if (ino =? ROOT)%N || bool_decide (is_Some (it_lookup_refs t !! ino)) ||
     bool_decide (is_Some (it_directory_refs t !! ino)) then t
  else match it_by_inode t !! ino with
  | Some node =>
      mkTable (it_next t) (delete ino (it_by_inode t)) (delete node (it_by_node t)) (delete ino (it_sizes t))
        (it_lookup_refs t) (it_directory_refs t)
  | None => t
  end.

Definition forget (t : InodeTable) (ino count : N) : InodeTable :=
  remove_if_unreferenced (with_lookups t (count_down (it_lookup_refs t) ino count)) ino.

Definition retain_directory (t : InodeTable) (ino : N) : InodeTable :=
  with_directories t (count_up (it_directory_refs t) ino).

Definition release_directory (t : InodeTable) (ino : N) : InodeTable :=
  remove_if_unreferenced (with_directories t (count_down (it_directory_refs t) ino 1)) ino.

(** ** Histories *)

(** [TRetainNode] is [retain_directory_node] of [Inner], an [ensure] and a
    [retain_directory] under one lock. *)
Inductive TableOp : Type :=
| TEnsure (node : Node) (size : N)
| TLookup (node : Node) (size : N)
| TForget (ino count : N)
| TRetainNode (node : Node) (size : N)
| TRetain (ino : N)
| TRelease (ino : N).

Definition retain_directory_node (t : InodeTable) (node : Node) (size : N) : InodeTable * N :=
  let '(t, ino) := ensure t node size in (retain_directory t ino, ino).

(** The view of those who hold inode numbers: how often a number was given out
    and not given back, and for which node. *)
Abbreviation Held := (gmap N (N * Node)).

Record View : Type := mkView { v_kernel : Held; v_directories : Held }.

Definition held (h : Held) (ino : N) : N := match h !! ino with Some (c, _) => c | None => 0%N end.

Definition take_one (h : Held) (ino : N) (node : Node) : Held := <[ino := ((held h ino + 1)%N, node)]> h.

Definition give_back (h : Held) (ino count : N) : Held :=
  match h !! ino with
  | Some (c, node) => if (c <=? count)%N then delete ino h else <[ino := ((c - count)%N, node)]> h
  | None => h
  end.

(** One operation, what its caller then holds, and what a caller may ask for:
    [forget] and [release] at most what is held, [retain] of a number at hand. *)
Inductive table_step : InodeTable * View -> TableOp -> InodeTable * View -> Prop :=
| TsEnsure t v node size :
    table_step (t, v) (TEnsure node size) ((ensure t node size).1, v)
| TsLookup t v node size t' ino :
    remember_lookup t node size = (t', ino) ->
    table_step (t, v) (TLookup node size) (t', mkView (take_one (v_kernel v) ino node) (v_directories v))
| TsForget t v ino count :
    (count <= held (v_kernel v) ino)%N ->
    table_step (t, v) (TForget ino count) (forget t ino count, mkView (give_back (v_kernel v) ino count) (v_directories v))
| TsRetainNode t v node size t' ino :
    retain_directory_node t node size = (t', ino) ->
    table_step (t, v) (TRetainNode node size) (t', mkView (v_kernel v) (take_one (v_directories v) ino node))
| TsRetain t v ino node :
    table_node t ino = Some node ->
    table_step (t, v) (TRetain ino) (retain_directory t ino, mkView (v_kernel v) (take_one (v_directories v) ino node))
| TsRelease t v ino :
    (0 < held (v_directories v) ino)%N ->
    table_step (t, v) (TRelease ino) (release_directory t ino, mkView (v_kernel v) (give_back (v_directories v) ino 1)).

Inductive table_run : list TableOp -> InodeTable * View -> Prop :=
| TrNew : table_run [] (table_new, mkView ∅ ∅)
| TrStep l s op s' : table_run l s -> table_step s op s' -> table_run (l ++ [op]) s'.

(** ** The invariant *)

Record table_wf (t : InodeTable) : Prop := {
  tw_inverse : forall ino node, it_by_inode t !! ino = Some node <-> it_by_node t !! node = Some ino;
  tw_root : it_by_inode t !! ROOT = Some Root;
  tw_next : forall ino node, it_by_inode t !! ino = Some node -> (ROOT <= ino < it_next t)%N
}.

(** What the holders have is what the table counts, and it is in the table. *)
Definition agrees (t : InodeTable) (h : Held) (refs : gmap N N) : Prop :=
  (forall ino, refs !! ino = fst <$> h !! ino) /\
  (forall ino c node, h !! ino = Some (c, node) -> (0 < c)%N /\ it_by_inode t !! ino = Some node).

Record table_inv (k : nat) (t : InodeTable) (v : View) : Prop := {
  ti_wf : table_wf t;
  ti_next : (it_next t <= 2 + N.of_nat k)%N;
  ti_kernel : agrees t (v_kernel v) (it_lookup_refs t);
  ti_directories : agrees t (v_directories v) (it_directory_refs t);
  ti_counts : forall ino, (held (v_kernel v) ino <= N.of_nat k /\ held (v_directories v) ino <= N.of_nat k)%N
}.

(** ** Lemmas: one operation *)

Lemma ensure_wf t node size t' ino :
  table_wf t -> (it_next t < u64_max)%N -> ensure t node size = (t', ino) ->
  table_wf t' /\ it_by_inode t' !! ino = Some node /\ (it_next t <= it_next t' <= it_next t + 1)%N /\
  it_lookup_refs t' = it_lookup_refs t /\ it_directory_refs t' = it_directory_refs t /\
  (forall i n, it_by_inode t !! i = Some n -> it_by_inode t' !! i = Some n).
Proof.
  intros [Hinv Hroot Hnext] Hmax. unfold ensure. destruct (it_by_node t !! node) as [i|] eqn:Hn; intros [= <- <-]; cbn.
  - split_ands; try lia; try done. by apply Hinv.
  - rewrite saturating_add_u64_exact by lia.
    assert (Hfresh : it_by_inode t !! it_next t = None).
    { destruct (it_by_inode t !! it_next t) as [n|] eqn:E; [|done]. apply Hnext in E. lia. }
    split_ands; try done; try lia; [|by apply lookup_insert_eq|].
    + split; cbn.
      * intros i n. destruct (decide (i = it_next t)) as [->|Hi].
        { rewrite lookup_insert_eq. destruct (decide (n = node)) as [->|Hne]; [by rewrite lookup_insert_eq|].
          rewrite lookup_insert_ne by done. split; [congruence|]. intros H%Hinv. congruence. }
        rewrite lookup_insert_ne by done. destruct (decide (n = node)) as [->|Hne].
        { rewrite lookup_insert_eq. split; [intros H%Hinv; congruence|congruence]. }
        rewrite lookup_insert_ne by done. apply Hinv.
      * rewrite lookup_insert_ne; [done|]. apply Hnext in Hroot. lia.
      * intros i n. destruct (decide (i = it_next t)) as [->|Hi].
        { intros _. apply Hnext in Hroot. lia. }
        rewrite lookup_insert_ne by done. intros H%Hnext. lia.
    + intros i n Hi. rewrite lookup_insert_ne; [done|]. intros <-. congruence.
Qed.

Lemma count_up_spec m ino : (default 0 (m !! ino) < u64_max)%N -> count_up m ino = <[ino := (default 0 (m !! ino) + 1)%N]> m.
Proof. intros H. unfold count_up, wrapping_add_u64. rewrite N.mod_small by lia. done. Qed.

Lemma agrees_held t h refs ino : agrees t h refs -> default 0%N (refs !! ino) = held h ino.
Proof. intros [H _]. rewrite H. unfold held. by destruct (h !! ino) as [[]|]. Qed.

(** Taking a number of the table, and giving numbers back. *)
Lemma agrees_take t h refs ino node :
  agrees t h refs -> (held h ino < u64_max)%N -> it_by_inode t !! ino = Some node ->
  agrees t (take_one h ino node) (count_up refs ino).
Proof.
  intros Ha Hlt Hino. pose proof (agrees_held _ _ _ ino Ha) as Hh. destruct Ha as [Hr Hp].
  rewrite count_up_spec by (rewrite Hh; done). rewrite Hh. unfold take_one. split.
  - intros i. destruct (decide (i = ino)) as [->|Hi]; [by rewrite !lookup_insert_eq|]. by rewrite !lookup_insert_ne.
  - intros i c n. destruct (decide (i = ino)) as [->|Hi].
    + rewrite lookup_insert_eq. intros [= <- <-]. split; [lia|done].
    + rewrite lookup_insert_ne by done. apply Hp.
Qed.

Lemma agrees_give t h refs ino count :
  agrees t h refs -> (count <= held h ino)%N -> agrees t (give_back h ino count) (count_down refs ino count).
Proof.
  intros [Hr Hp] Hle. unfold give_back, count_down. rewrite Hr. unfold held in Hle.
  destruct (h !! ino) as [[c node]|] eqn:Hh; cbn [fmap option_fmap option_map]; [|done]. cbn [fst].
  destruct (Hp _ _ _ Hh) as [Hc Hn].
  replace (c - count =? 0)%N with (c <=? count)%N by (destruct (N.leb_spec c count), (N.eqb_spec (c - count) 0); lia || done).
  destruct (c <=? count)%N eqn:Hcc; bool_facts.
  - split.
    + intros i. destruct (decide (i = ino)) as [->|Hi]; [by rewrite !lookup_delete_eq|]. by rewrite !lookup_delete_ne.
    + intros i c' n. rewrite lookup_delete_Some. intros [_ Hin]. by apply Hp.
  - split.
    + intros i. destruct (decide (i = ino)) as [->|Hi]; [by rewrite !lookup_insert_eq|]. by rewrite !lookup_insert_ne.
    + intros i c' n. destruct (decide (i = ino)) as [->|Hi].
      * rewrite lookup_insert_eq. intros [= <- <-]. split; [lia|done].
      * rewrite lookup_insert_ne by done. apply Hp.
Qed.

(** Entries that stay keep the agreement. *)
Lemma agrees_table t t' h refs :
  agrees t h refs -> (forall ino c node, h !! ino = Some (c, node) -> it_by_inode t !! ino = Some node ->
    it_by_inode t' !! ino = Some node) -> agrees t' h refs.
Proof.
  intros [Hr Hp] Hkeep. split; [done|]. intros ino c node Hh. destruct (Hp _ _ _ Hh) as [Hc Hn]. eauto.
Qed.

(** Only an unreferenced entry is removed. *)
Lemma remove_spec t ino :
  table_wf t ->
  let t' := remove_if_unreferenced t ino in
  table_wf t' /\ it_next t' = it_next t /\ it_lookup_refs t' = it_lookup_refs t /\
  it_directory_refs t' = it_directory_refs t /\
  forall i n, it_by_inode t !! i = Some n ->
    is_Some (it_lookup_refs t !! i) \/ is_Some (it_directory_refs t !! i) -> it_by_inode t' !! i = Some n.
Proof.
  intros Hwf t'. unfold t', remove_if_unreferenced. destruct (_ || _ || _) eqn:E; [by split_ands|].
  bool_facts. destruct (it_by_inode t !! ino) as [node|] eqn:Hi; [|by split_ands]. cbn.
  destruct Hwf as [Hinv Hroot Hnext]. split_ands; try done.
  - split; cbn.
    + intros i n. rewrite !lookup_delete_Some, Hinv. apply Hinv in Hi as Hn. split; intros [Hne Hin]; (split; [|done]).
      * intros ->. congruence.
      * intros ->. apply Hinv in Hin. congruence.
    + by rewrite lookup_delete_ne.
    + intros i n. rewrite lookup_delete_Some. intros [_ Hin]. eauto.
  - intros i n Hin Href. rewrite lookup_delete_ne; [done|]. intros <-. tauto.
Qed.

Lemma held_take h ino node i : (held (take_one h ino node) i <= held h i + 1)%N.
Proof.
  unfold take_one, held at 1. destruct (decide (i = ino)) as [->|Hi]; [by rewrite lookup_insert_eq|].
  rewrite lookup_insert_ne by done. fold (held h i). lia.
Qed.

Lemma held_give h ino count i : (held (give_back h ino count) i <= held h i)%N.
Proof.
  unfold give_back. destruct (h !! ino) as [[c node]|] eqn:E; [|done]. unfold held at 1.
  destruct (decide (i = ino)) as [->|Hi].
  - unfold held. rewrite E. case_if; [rewrite lookup_delete_eq; lia|rewrite lookup_insert_eq; lia].
  - case_if; [rewrite lookup_delete_ne by done|rewrite lookup_insert_ne by done]; done.
Qed.

Lemma agrees_refs t h refs ino c node : agrees t h refs -> h !! ino = Some (c, node) -> is_Some (refs !! ino).
Proof. intros [Hr _] Hh. rewrite Hr, Hh. by eexists. Qed.

(** ** Preservation *)

(** Handing out a number under [ensure], whoever holds it. *)
Lemma inv_ensure k t v node size t' ino :
  (N.of_nat k + 2 < u64_max)%N -> table_inv k t v -> ensure t node size = (t', ino) ->
  table_inv (S k) t' v /\ it_by_inode t' !! ino = Some node.
Proof.
  intros Hk [Hwf Hn [Hlk Hl] [Hdk Hd] Hc] He.
  destruct (ensure_wf _ _ _ _ _ Hwf ltac:(lia) He) as (Hwf' & Hino & Hnext & Hlr & Hdr & Hkeep).
  split; [|done]. split; [done|lia| | |].
  - rewrite Hlr. by apply (agrees_table t); [|eauto].
  - rewrite Hdr. by apply (agrees_table t); [|eauto].
  - intros i. specialize (Hc i). lia.
Qed.

Lemma inv_take_kernel k t v ino node :
  (N.of_nat k < u64_max)%N -> table_inv k t v -> it_by_inode t !! ino = Some node ->
  table_inv (S k) (with_lookups t (count_up (it_lookup_refs t) ino))
    (mkView (take_one (v_kernel v) ino node) (v_directories v)).
Proof.
  intros Hk [Hwf Hn Hl Hd Hc] Hino. pose proof (Hc ino) as Hci. split; cbn.
  - by destruct Hwf.
  - lia.
  - apply agrees_take; [exact Hl|lia|done].
  - exact Hd.
  - intros i. specialize (Hc i). pose proof (held_take (v_kernel v) ino node i). lia.
Qed.

Lemma inv_take_directory k t v ino node :
  (N.of_nat k < u64_max)%N -> table_inv k t v -> it_by_inode t !! ino = Some node ->
  table_inv (S k) (retain_directory t ino) (mkView (v_kernel v) (take_one (v_directories v) ino node)).
Proof.
  intros Hk [Hwf Hn Hl Hd Hc] Hino. pose proof (Hc ino) as Hci. split; cbn.
  - by destruct Hwf.
  - lia.
  - exact Hl.
  - apply agrees_take; [exact Hd|lia|done].
  - intros i. specialize (Hc i). pose proof (held_take (v_directories v) ino node i). lia.
Qed.

Lemma inv_remove k t v ino : table_inv k t v -> table_inv k (remove_if_unreferenced t ino) v.
Proof.
  intros [Hwf Hn Hl Hd Hc]. destruct (remove_spec t ino Hwf) as (Hwf' & Hnext & Hlr & Hdr & Hkeep).
  split; [done|lia| | |done].
  - rewrite Hlr. apply (agrees_table t); [done|]. intros i c n Hh Hi. eapply Hkeep; [done|]. left. by eapply agrees_refs.
  - rewrite Hdr. apply (agrees_table t); [done|]. intros i c n Hh Hi. eapply Hkeep; [done|]. right. by eapply agrees_refs.
Qed.

Lemma inv_weaken k k' t v : k <= k' -> table_inv k t v -> table_inv k' t v.
Proof. intros Hle [Hwf Hn Hl Hd Hc]. split; [done|lia|done|done|]. intros i. specialize (Hc i). lia. Qed.

Lemma inv_forget k t v ino count :
  table_inv k t v -> (count <= held (v_kernel v) ino)%N ->
  table_inv k (forget t ino count) (mkView (give_back (v_kernel v) ino count) (v_directories v)).
Proof.
  intros [Hwf Hn Hl Hd Hc] Hle. apply inv_remove. split; cbn; [by destruct Hwf|done| |exact Hd|].
  - by apply agrees_give.
  - intros i. specialize (Hc i). pose proof (held_give (v_kernel v) ino count i). lia.
Qed.

Lemma inv_release k t v ino :
  table_inv k t v -> (0 < held (v_directories v) ino)%N ->
  table_inv k (release_directory t ino) (mkView (v_kernel v) (give_back (v_directories v) ino 1)).
Proof.
  intros [Hwf Hn Hl Hd Hc] Hle. apply inv_remove. split; cbn; [by destruct Hwf|done|exact Hl| |].
  - apply agrees_give; [exact Hd|lia].
  - intros i. specialize (Hc i). pose proof (held_give (v_directories v) ino 1 i). lia.
Qed.

(** An operation adds at most one entry and one reference. *)
Lemma table_inv_step k s op s' :
  (N.of_nat k + 4 < u64_max)%N -> table_inv k s.1 s.2 -> table_step s op s' -> table_inv (2 + k) s'.1 s'.2.
Proof.
  intros Hk Hinv Hstep. destruct Hstep as [t v node size|t v node size t' ino He|t v ino count Hle
    |t v node size t' ino He|t v ino node Hn|t v ino Hle]; cbn [fst snd] in *.
  - destruct (ensure t node size) as [t' ino] eqn:He. destruct (inv_ensure k t v node size t' ino) as [Hi _]; [lia|done|done|].
    by eapply inv_weaken; [|exact Hi]; lia.
  - unfold remember_lookup in He. destruct (ensure t node size) as [t1 i] eqn:He1. injection He as <- <-.
    destruct (inv_ensure k t v node size t1 i) as [Hi Hn]; [lia|done|done|]. apply inv_take_kernel; [lia|done|done].
  - by eapply inv_weaken; [|by apply inv_forget]; lia.
  - unfold retain_directory_node in He. destruct (ensure t node size) as [t1 i] eqn:He1. injection He as <- <-.
    destruct (inv_ensure k t v node size t1 i) as [Hi Hn]; [lia|done|done|]. apply inv_take_directory; [lia|done|done].
  - eapply inv_weaken; [|apply inv_take_directory; [|exact Hinv|exact Hn]]; lia.
  - by eapply inv_weaken; [|by apply inv_release]; lia.
Qed.

Lemma table_inv_new : table_inv 0 table_new (mkView ∅ ∅).
Proof.
  split; [split|..]; cbn [it_next it_by_inode it_by_node it_lookup_refs it_directory_refs table_new v_kernel v_directories].
  - intros ino node. rewrite !lookup_singleton_Some. tauto.
  - by apply lookup_singleton_Some.
  - intros ino node. rewrite lookup_singleton_Some. unfold ROOT. intros [<- _]. lia.
  - unfold ROOT. lia.
  - split; intros ino; [by rewrite !lookup_empty|]. intros c node. by rewrite lookup_empty.
  - split; intros ino; [by rewrite !lookup_empty|]. intros c node. by rewrite lookup_empty.
  - intros ino. unfold held. rewrite !lookup_empty. lia.
Qed.

Lemma table_run_inv l s :
  (2 * len l + 4 < u64_max)%N -> table_run l s -> table_inv (2 * length l) s.1 s.2.
Proof.
  intros Hlen Hrun. induction Hrun as [|l s op s' _ IH Hstep]; [apply table_inv_new|].
  autorewrite with machine in Hlen. unfold len in *. rewrite length_app. cbn [length].
  replace (2 * (length l + 1)) with (2 + 2 * length l) by lia.
  eapply table_inv_step; [lia|apply IH; lia|exact Hstep].
Qed.

(** ** Properties *)

(** C22: inode numbers are stable. After any sequence of operations of the table,
    in which the kernel forgets no more than it was given and a directory
    releases only what it retained: a number the kernel or an open directory
    holds names the node it was given out for, the node has that number and no
    other, and the table counts exactly the references held; distinct nodes have
    distinct numbers, and the root is never lost. The bound is on the number of
    operations, which would exhaust the 64-bit counters. *)
Theorem inodes_stable (l : list TableOp) (t : InodeTable) (v : View) (ino c : N) (node : Node)
  (Hlen : (2 * len l + 4 < u64_max)%N) (Hrun : table_run l (t, v))
  (Hheld : v_kernel v !! ino = Some (c, node) \/ v_directories v !! ino = Some (c, node)) :
  table_node t ino = Some node /\ table_inode t node = Some ino /\ (0 < c)%N /\
  table_node t ROOT = Some Root /\
  (v_kernel v !! ino = Some (c, node) -> it_lookup_refs t !! ino = Some c) /\
  (forall ino' node', table_node t ino' = Some node' -> table_inode t node' = Some ino').
Proof.
  destruct (table_run_inv _ _ Hlen Hrun) as [[Hinv Hroot _] _ [Hlr Hl] [_ Hd] _]. cbn [fst snd] in *.
  assert (Hnode : (0 < c)%N /\ it_by_inode t !! ino = Some node) by (destruct Hheld as [Hh|Hh]; eauto).
  destruct Hnode as [Hc Hn]. split_ands; try done.
  - by apply Hinv.
  - intros Hk. by rewrite Hlr, Hk.
  - intros i n Hi. by apply Hinv.
Qed.

(** A looked-up node that an open directory retains as well survives a forget. *)
Definition demo_space : Node := BusinessSpace "orders".

Definition demo_ops : list TableOp := [TLookup demo_space 0; TRetainNode demo_space 0; TForget 2 1].

Definition demo_table : InodeTable :=
  forget (retain_directory_node (remember_lookup table_new demo_space 0).1 demo_space 0).1 2 1.

Definition demo_view : View :=
  mkView (give_back (take_one ∅ 2 demo_space) 2 1) (take_one ∅ 2 demo_space).

Lemma demo_table_run : table_run demo_ops (demo_table, demo_view).
Proof.
  apply (TrStep [_; _] ((retain_directory_node (remember_lookup table_new demo_space 0).1 demo_space 0).1,
    mkView (take_one ∅ 2 demo_space) (take_one ∅ 2 demo_space))).
  - apply (TrStep [_] ((remember_lookup table_new demo_space 0).1, mkView (take_one ∅ 2 demo_space) ∅)).
    + apply (TrStep [] (table_new, mkView ∅ ∅)); [constructor|]. by apply (TsLookup table_new (mkView ∅ ∅)).
    + by apply (TsRetainNode _ (mkView (take_one ∅ 2 demo_space) ∅)).
  - apply (TsForget _ (mkView (take_one ∅ 2 demo_space) (take_one ∅ 2 demo_space))). vm_compute. discriminate.
Qed.

Lemma inodes_stable_witness :
  table_node demo_table 2 = Some demo_space /\ table_inode demo_table demo_space = Some 2%N.
Proof.
  assert (Hlen : (2 * len demo_ops + 4 < u64_max)%N) by (vm_compute; reflexivity).
  assert (Hd : v_directories demo_view !! 2%N = Some (1%N, demo_space)) by (vm_compute; reflexivity).
  pose proof (inodes_stable demo_ops demo_table demo_view 2 1 demo_space Hlen demo_table_run (or_intror Hd)) as (H1 & H2 & _).
  split; assumption.
Defined.
