(* ===== verification/FuseBackend.v ===== *)
(** * eventfs-fuse: the backend interface

    [eventfs-fuse/src/backend.rs]: what the file system asks of the store, as the
    type [Query] of the calls of the trait [EventFsBackend], the errors it gets
    back, and the negotiation of capabilities; [eventfs-fuse/src/config.rs] and
    [main.rs]: the mount configuration and the limits in force; and the mapping
    of errors to Linux error numbers of [fuse.rs]. *)

From S2P Require Import Prelude.
From S2P Require Import Bytes.
From S2P Require Import Core.
From S2P Require Import Aggregate.
From S2P Require Import GroupCatalog.
From S2P Require Import Store.
From S2P Require Import RaftType.
From S2P Require Import Config.
From S2P Require Import Topology.
From S2P Require Import Wire.
From S2P Require Import FusePath.
From S2P Require Import FuseHandle.
From S2P Require Import FuseCodec.

(** ** Identities, documents, errors *)

Record AggregateType : Type := mkAggregateType { at_business_space : string; at_aggregate_type : string }.

#[export] Instance AggregateType_eq_dec : EqDecision AggregateType.
Proof. solve_decision. Defined.

#[export] Instance AggregateType_countable : Countable AggregateType.
Proof.
  by refine (inj_countable' (fun t => (at_business_space t, at_aggregate_type t))
    (fun '(s, t) => mkAggregateType s t) _); intros [].
Defined.

Inductive BackendError : Type :=
| BeInvalidArgument (message : string)
| BeNotFound (message : string)
| BeAlreadyExists (message : string)
| BeConflict (message : string)
| BeTooLarge (message : string)
| BeStale (message : string)
| BePermissionDenied (message : string)
| BeTimeout (message : string)
| BeUnavailable (message : string)
| BeBusy (message : string)
| BeUnsupported (message : string)
| BeInternal (message : string).

Abbreviation BackendResult := (result BackendError).

(** [AggregateType::new]. *)
Definition aggregate_type_new (space ty : string) : BackendResult AggregateType :=
  _ ← map_err (fun e => BeInvalidArgument (error_to_string e)) (type_id_new space ty);
  Ok (mkAggregateType space ty).

(** [AggregateType::proto]. *)
Definition at_proto (t : AggregateType) : PbTypeRef := mkTypeRef (at_business_space t) (at_aggregate_type t).

Record StateDocument : Type := mkStateDocument {
  sd_revision : N;
  sd_data : Bytes;
  sd_modified_unix_millis : N
}.

Record StatePage : Type := mkStatePage {
  sp_aggregate_ids : list string;
  sp_next_page_token : Bytes
}.

(** ** Capabilities and limits *)

(** [AggregateStoreCapabilities] of the protocol. *)
Record PbCapabilities : Type := mkPbCapabilities {
  pc_api_version : string;
  pc_partition_count : N;
  pc_max_event_bytes : N;
  pc_max_state_bytes : N;
  pc_state_revision_cas : bool;
  pc_explicit_group_settlement : bool;
  pc_state_modified_time : bool
}.

Record Capabilities : Type := mkCapabilities { cap_max_event_bytes : N; cap_max_state_bytes : N }.

Definition show_bool (b : bool) : string := if b then "true" else "false".

(** [usize] has 64 bits, so [usize::try_from] of a [u64] succeeds. *)
Definition validate_capabilities (v : PbCapabilities) : BackendResult Capabilities :=
  if negb (bool_decide (pc_api_version v = "1.0")) || negb (pc_partition_count v =? EVENT_PARTITION_COUNT)%N ||
     negb (pc_state_revision_cas v) || negb (pc_explicit_group_settlement v) || negb (pc_state_modified_time v)
  then Err (BeUnsupported
    ("服务端能力不满足 eventfs-fuse: version=" +:+ pc_api_version v +:+ " partitions=" +:+ pretty (pc_partition_count v) +:+
     " state_cas=" +:+ show_bool (pc_state_revision_cas v) +:+ " explicit_settlement=" +:+
     show_bool (pc_explicit_group_settlement v) +:+ " state_modified_time=" +:+ show_bool (pc_state_modified_time v)))
  else Ok (mkCapabilities (pc_max_event_bytes v) (pc_max_state_bytes v)).

Definition DEFAULT_WRITE_BYTES : N := 1024 * 1024.
Definition HARD_WRITE_BYTES : N := 6 * 1024 * 1024.

Record MountConfig : Type := mkMountConfig {
  mc_endpoints : list string;
  mc_ca_file : option string;
  mc_insecure_skip_tls_verify : bool;
  mc_max_event_bytes : N;
  mc_max_state_bytes : N
}.

(** [anyhow::ensure!]. *)
Definition ensure_that (b : bool) (message : string) : result string unit := if b then Ok tt else Err message.

Definition check_limit (name : string) (limit : N) : result string unit :=
  _ ← ensure_that (0 <? limit)%N (name +:+ " 必须大于 0");
  ensure_that (limit <=? HARD_WRITE_BYTES)%N (name +:+ " 不能超过 6 MiB").

(** [MountConfig::validate]. *)
Definition mount_validate (c : MountConfig) : result string unit :=
  _ ← ensure_that (negb (bool_decide (mc_endpoints c = []))) "endpoints 至少需要一个地址";
  _ ← ensure_that (negb (bool_decide (is_Some (mc_ca_file c)) && mc_insecure_skip_tls_verify c))
        "ca_file 与 insecure_skip_tls_verify 互斥";
  _ ← check_limit "max_event_bytes" (mc_max_event_bytes c);
  check_limit "max_state_bytes" (mc_max_state_bytes c).

(** The limits [mount] works with: the smaller of the server's and the
    configured ones. *)
Definition mount_capabilities (c : MountConfig) (server : Capabilities) : Capabilities :=
  mkCapabilities (N.min (cap_max_event_bytes server) (mc_max_event_bytes c))
    (N.min (cap_max_state_bytes server) (mc_max_state_bytes c)).

(** ** The calls of the trait *)

(** [FetchAggregateGroupResponse], and a result of settling or renewing. *)
Record FetchResponse : Type := mkFetchResponse {
  fr_deliveries : list ReceivedDelivery;
  fr_caught_up : bool;
  fr_throttled : bool
}.

Record SettlementResult : Type := mkSettlementResult {
  sr_delivery_id : Bytes;
  sr_status : PbSettlementStatus;
  sr_deadline_ms : N
}.

(** A follow call hands out a receiver, which [QReceive] reads; the clock and
    fresh identifiers are asked for in the same way. *)
Inductive Query : Type -> Type :=
| QListTypes : Query (BackendResult (list AggregateType))
| QRegister (t : AggregateType) (operation_id : Uuid) : Query (BackendResult unit)
| QAppend (t : AggregateType) (event : EventEnvelope) : Query (BackendResult N)
| QFollow (t : AggregateType) : Query (BackendResult N)
| QReceive (receiver : N) : Query (option (BackendResult Bytes))
| QListStatesPage (t : AggregateType) (page_token : Bytes) (page_size : N) : Query (BackendResult StatePage)
| QGetState (t : AggregateType) (aggregate_id : string) : Query (BackendResult (option StateDocument))
| QPutState (t : AggregateType) (aggregate_id : string) (revision : option N) (data : Bytes) :
    Query (BackendResult StateDocument)
| QListGroups (t : AggregateType) : Query (BackendResult (list string))
| QCreateGroup (t : AggregateType) (group_name : string) (operation_id : Uuid) : Query (BackendResult unit)
| QFetch (t : AggregateType) (group_name consumer_id : string) : Query (BackendResult FetchResponse)
| QSettle (t : AggregateType) (group_name consumer_id : string) (settlements : list Settlement) :
    Query (BackendResult (list SettlementResult))
| QRenew (t : AggregateType) (group_name consumer_id : string) (delivery_ids : list Bytes) :
    Query (BackendResult (list SettlementResult))
| QNewUuid : Query Uuid
| QUnixMillis : Query N.

(** ** Error numbers *)

Inductive Errno : Type :=
| EINVAL | ENOENT | EEXIST | EAGAIN | EFBIG | ESTALE | EACCES | ETIMEDOUT | EHOSTUNREACH | EBUSY | ENOTSUP | EIO
| ENOTDIR | EISDIR | EPERM | EBADF.

#[export] Instance Errno_eq_dec : EqDecision Errno.
Proof. solve_decision. Defined.

Definition backend_errno (e : BackendError) : Errno :=
  match e with
  | BeInvalidArgument _ => EINVAL
  | BeNotFound _ => ENOENT
  | BeAlreadyExists _ => EEXIST
  | BeConflict _ => EAGAIN
  | BeTooLarge _ => EFBIG
  | BeStale _ => ESTALE
  | BePermissionDenied _ => EACCES
  | BeTimeout _ => ETIMEDOUT
  | BeUnavailable _ => EHOSTUNREACH
  | BeBusy _ => EBUSY
  | BeUnsupported _ => ENOTSUP
  | BeInternal _ => EIO
  end.

Definition path_errno (e : PathError) : Errno :=
  match e with
  | NotDirectory => ENOTDIR
  | PathNotFound => ENOENT
  | InvalidShape | InvalidName | InvalidExtension => EINVAL
  end.

Definition write_errno (e : WriteError) : Errno :=
  match e with InvalidOffset => EINVAL | TooLarge => EFBIG | Busy => EBUSY end.

Definition begin_errno {E} (e : BeginError E) : Errno :=
  match e with BeginWrite e => write_errno e | BeginPrepare _ => EINVAL end.

(** [node_aggregate_type] of [fuse.rs]. *)
Definition node_aggregate_type (n : Node) : result Errno AggregateType :=
  names ← ok_or EINVAL (node_type_names n);
  map_err backend_errno (aggregate_type_new names.1 names.2).

(** ** Lemmas *)

Lemma node_aggregate_type_ok n s t :
  node_ok n -> node_type_names n = Some (s, t) -> node_aggregate_type n = Ok (mkAggregateType s t).
Proof.
  intros Hn Ht. unfold node_aggregate_type. rewrite Ht. cbn. unfold aggregate_type_new.
  assert (Hst : identifier_ok s /\ identifier_ok t) by (destruct n; cbn in *; simplify_eq; tauto).
  destruct Hst as [Hs Ht']. unfold type_id_new.
  by rewrite (proj2 (validate_identifier_iff "business_space" s) Hs), (proj2 (validate_identifier_iff "aggregate_type" t) Ht').
Qed.

(** A mount never buffers more than 6 MiB for a file. *)
Lemma mount_limits c server :
  mount_validate c = Ok tt ->
  (cap_max_event_bytes (mount_capabilities c server) <= HARD_WRITE_BYTES)%N /\
  (cap_max_state_bytes (mount_capabilities c server) <= HARD_WRITE_BYTES)%N.
Proof.
  unfold mount_validate, check_limit. intros ([] & _ & H)%bind_Ok_inv.
  apply bind_Ok_inv in H as ([] & _ & H). apply bind_Ok_inv in H as ([] & He & Hs).
  apply bind_Ok_inv in He as ([] & _ & He). apply bind_Ok_inv in Hs as ([] & _ & Hs).
  unfold ensure_that in He, Hs. cbn.
  destruct (mc_max_event_bytes c <=? HARD_WRITE_BYTES)%N eqn:E1; [|done].
  destruct (mc_max_state_bytes c <=? HARD_WRITE_BYTES)%N eqn:E2; [|done]. bool_facts. lia.
Qed.
