(* ===== verification/FuseStream.v ===== *)
(** * eventfs-fuse: the stream between a producer and a reader

    [StreamShared] of [eventfs-fuse/src/fuse.rs]: the bounded buffer between the
    task that fills the stream of an open file, the requests that read it, and
    the release of the file.

    The tasks run concurrently. A step is one critical section or one
    notification of the code, so every interleaving of the tasks is a run of the
    step relation. [tokio::sync::Notify] is a permit: [notify_one] stores it,
    awaiting [notified] takes it. The theorems say that the reader gets exactly
    the bytes that were pushed, within bounded memory, and that no wake-up is
    lost. *)

From S2P Require Import Prelude.
From S2P Require Import Bytes.
From S2P Require Import FuseHandle.
From S2P Require Import FuseBackend.

Definition MAX_STREAM_BUFFER_BYTES : N := 8 * 1024 * 1024.

(** [ss_notify] and [ss_space] are the permits of the two [Notify]s; the poll
    notifiers are counted. *)
Record StreamShared : Type := mkShared {
  ss_buffer : StreamBuffer;
  ss_notify : bool;
  ss_space : bool;
  ss_pollers : nat;
  ss_closed : bool;
  ss_error : option Errno
}.

(** [StreamShared::new]. *)
Definition shared_new : StreamShared := mkShared stream_default false false 0 false None.

Definition with_buffer (s : StreamShared) (b : StreamBuffer) : StreamShared :=
  mkShared b (ss_notify s) (ss_space s) (ss_pollers s) (ss_closed s) (ss_error s).

Definition take_notify (s : StreamShared) : StreamShared :=
  mkShared (ss_buffer s) false (ss_space s) (ss_pollers s) (ss_closed s) (ss_error s).

Definition set_space (s : StreamShared) (permit : bool) : StreamShared :=
  mkShared (ss_buffer s) (ss_notify s) permit (ss_pollers s) (ss_closed s) (ss_error s).

(** [StreamShared::wake]. *)
Definition wake (s : StreamShared) : StreamShared :=
  mkShared (ss_buffer s) true (ss_space s) 0 (ss_closed s) (ss_error s).

(** The critical section of [push]. *)
Inductive Pushing : Type := PushClosed | Pushed | PushFull.

Definition has_room (b : StreamBuffer) (bytes : Bytes) : bool :=
  bool_decide (sb_bytes b = []) ||
  (saturating_add_u64 (len (sb_bytes b)) (len bytes) <=? MAX_STREAM_BUFFER_BYTES)%N.

Definition push_try (s : StreamShared) (bytes : Bytes) : StreamShared * Pushing :=
  if sb_closed (ss_buffer s) then (s, PushClosed)
  else if has_room (ss_buffer s) bytes then (with_buffer s (stream_push (ss_buffer s) bytes), Pushed)
  else (s, PushFull).

(** The steps of [fail] and [close], one after the other. *)
Inductive Ending : Type := SetError (e : Errno) | CloseBuffer | SetClosed | NotifySpace | WakeUp.

#[export] Instance Ending_eq_dec : EqDecision Ending.
Proof. solve_decision. Defined.

Definition close_steps : list Ending := [CloseBuffer; SetClosed; NotifySpace; WakeUp].

Definition fail_steps (e : Errno) : list Ending := SetError e :: close_steps.

Definition end_step (s : StreamShared) (x : Ending) : StreamShared :=
  match x with
  | SetError e => mkShared (ss_buffer s) (ss_notify s) (ss_space s) (ss_pollers s) (ss_closed s) (Some e)
  | CloseBuffer => with_buffer s (stream_close (ss_buffer s))
  | SetClosed => mkShared (ss_buffer s) (ss_notify s) (ss_space s) (ss_pollers s) true (ss_error s)
  | NotifySpace => set_space s true
  | WakeUp => wake s
  end.

(** [StreamShared::close] as a whole, for a caller that no one interrupts. *)
Definition shared_close (s : StreamShared) : StreamShared := foldl end_step s close_steps.

Definition shared_fail (s : StreamShared) (e : Errno) : StreamShared := foldl end_step s (fail_steps e).

(** The critical section of [read]. *)
Definition read_try (s : StreamShared) (offset size : N) : StreamShared * result Errno (option Bytes) :=
  match stream_read (ss_buffer s) offset size with
  | (b, r) => (with_buffer s b, map_err write_errno r)
  end.

(** What [read] answers to data: at the end of the stream its error, if any. *)
Definition read_answer (s : StreamShared) (data : Bytes) : result Errno Bytes :=
  match data, ss_error s with
  | [], Some e => Err e
  | _, _ => Ok data
  end.

Definition shared_ready (s : StreamShared) : bool := stream_ready (ss_buffer s).

(** [ready_or_register] with [pollers.push(notifier)]. *)
Definition ready_or_register (s : StreamShared) : StreamShared * bool :=
  if stream_ready (ss_buffer s) then (s, true)
  else (mkShared (ss_buffer s) (ss_notify s) (ss_space s) (S (ss_pollers s)) (ss_closed s) (ss_error s), false).

(** ** The tasks *)

(** The producer: waiting for a frame, in [push], about to wake the reader, or
    ending the stream. *)
Inductive Producer : Type :=
| PNext
| PTry (bytes : Bytes)
| PWait (bytes : Bytes)
| PWake
| PEnd (steps : list Ending).

(** A read request: none, in the loop of [read], waiting, or answering. *)
Inductive Reader : Type :=
| RIdle
| RTry (offset size : N)
| RWait (offset size : N)
| RAnswer (data : Bytes).

(** All tasks of a stream, with what was pushed and what was read so far. *)
Record Stream : Type := mkRun {
  st_shared : StreamShared;
  st_producer : Producer;
  st_reader : Reader;
  st_release : list Ending;
  st_pushed : Bytes;
  st_read : Bytes
}.

Definition stream_start : Stream := mkRun shared_new PNext RIdle [] [] [].

(** Steps the tasks take by themselves. *)
Inductive stream_run : Stream -> Stream -> Prop :=
| SrPush sh bytes r rel pu re sh' : push_try sh bytes = (sh', Pushed) ->
    stream_run (mkRun sh (PTry bytes) r rel pu re) (mkRun sh' PWake r rel (pu ++ bytes) re)
| SrPushClosed sh bytes r rel pu re sh' : push_try sh bytes = (sh', PushClosed) ->
    stream_run (mkRun sh (PTry bytes) r rel pu re) (mkRun sh' (PEnd []) r rel pu re)
| SrPushFull sh bytes r rel pu re sh' : push_try sh bytes = (sh', PushFull) ->
    stream_run (mkRun sh (PTry bytes) r rel pu re) (mkRun sh' (PWait bytes) r rel pu re)
| SrSpace sh bytes r rel pu re : ss_space sh = true ->
    stream_run (mkRun sh (PWait bytes) r rel pu re) (mkRun (set_space sh false) (PTry bytes) r rel pu re)
| SrWake sh r rel pu re :
    stream_run (mkRun sh PWake r rel pu re) (mkRun (wake sh) PNext r rel pu re)
| SrEnd sh x l r rel pu re :
    stream_run (mkRun sh (PEnd (x :: l)) r rel pu re) (mkRun (end_step sh x) (PEnd l) r rel pu re)
| SrReadErr sh p offset size rel pu re sh' e : read_try sh offset size = (sh', Err e) ->
    stream_run (mkRun sh p (RTry offset size) rel pu re) (mkRun sh' p RIdle rel pu re)
| SrReadData sh p offset size rel pu re sh' data : read_try sh offset size = (sh', Ok (Some data)) ->
    stream_run (mkRun sh p (RTry offset size) rel pu re) (mkRun sh' p (RAnswer data) rel pu (re ++ data))
| SrReadWait sh p offset size rel pu re sh' : read_try sh offset size = (sh', Ok None) ->
    stream_run (mkRun sh p (RTry offset size) rel pu re) (mkRun sh' p (RWait offset size) rel pu re)
| SrNotified sh p offset size rel pu re : ss_notify sh = true ->
    stream_run (mkRun sh p (RWait offset size) rel pu re) (mkRun (take_notify sh) p (RTry offset size) rel pu re)
| SrAnswer sh p data rel pu re : data <> [] ->
    stream_run (mkRun sh p (RAnswer data) rel pu re) (mkRun (set_space sh true) p RIdle rel pu re)
| SrAnswerEnd sh p rel pu re :
    stream_run (mkRun sh p (RAnswer []) rel pu re) (mkRun sh p RIdle rel pu re)
| SrRelease sh p r x l pu re :
    stream_run (mkRun sh p r (x :: l) pu re) (mkRun (end_step sh x) p r l pu re).

(** Steps the outside causes: a frame, an error or the end of the source, a
    producer that sees the file closed, a read of at least one byte, a poll, and
    the release. *)
Inductive stream_input : Stream -> Stream -> Prop :=
| SiFrame sh bytes r rel pu re :
    stream_input (mkRun sh PNext r rel pu re)
      (mkRun sh (if (MAX_STREAM_BUFFER_BYTES <? len bytes)%N then PEnd (fail_steps EFBIG) else PTry bytes) r rel pu re)
| SiError sh e r rel pu re :
    stream_input (mkRun sh PNext r rel pu re) (mkRun sh (PEnd (fail_steps e)) r rel pu re)
| SiEnd sh r rel pu re :
    stream_input (mkRun sh PNext r rel pu re) (mkRun sh (PEnd close_steps) r rel pu re)
| SiStop sh r rel pu re : ss_closed sh = true ->
    stream_input (mkRun sh PNext r rel pu re) (mkRun sh (PEnd []) r rel pu re)
| SiRead sh p offset size rel pu re : (0 < size)%N ->
    stream_input (mkRun sh p RIdle rel pu re) (mkRun sh p (RTry offset size) rel pu re)
| SiPoll sh p r rel pu re :
    stream_input (mkRun sh p r rel pu re) (mkRun (ready_or_register sh).1 p r rel pu re)
| SiRelease sh p r pu re :
    stream_input (mkRun sh p r [] pu re) (mkRun sh p r close_steps pu re).

Definition stream_reachable (c : Stream) : Prop :=
  rtc (fun a b => stream_run a b \/ stream_input a b) stream_start c.

(** ** The invariant *)

(** What is left of [fail] or [close]. *)
Definition ending (l : list Ending) : Prop := exists e, suffix l (fail_steps e).

Definition wake_pending (c : Stream) : Prop :=
  st_producer c = PWake \/ (exists l, st_producer c = PEnd l /\ WakeUp ∈ l) \/ WakeUp ∈ st_release c.

Definition room_pending (c : Stream) : Prop :=
  (exists data, st_reader c = RAnswer data /\ data <> []) \/ NotifySpace ∈ st_release c.

Record stream_inv (c : Stream) : Prop := {
  si_bytes : st_read c ++ sb_bytes (ss_buffer (st_shared c)) = st_pushed c;
  si_consumed : (len (st_pushed c) <= u64_max)%N -> sb_consumed (ss_buffer (st_shared c)) = len (st_read c);
  si_bounded : (len (sb_bytes (ss_buffer (st_shared c))) <= MAX_STREAM_BUFFER_BYTES)%N;
  si_frame : forall bytes, st_producer c = PTry bytes \/ st_producer c = PWait bytes ->
    (len bytes <= MAX_STREAM_BUFFER_BYTES)%N;
  si_size : forall offset size, st_reader c = RTry offset size \/ st_reader c = RWait offset size -> (0 < size)%N;
  si_endings : ending (st_release c) /\ forall l, st_producer c = PEnd l -> ending l;
  si_end : st_reader c = RAnswer [] -> sb_closed (ss_buffer (st_shared c)) = true /\ sb_bytes (ss_buffer (st_shared c)) = [];
  si_wake : forall offset size, st_reader c = RWait offset size ->
    stream_ready (ss_buffer (st_shared c)) = true -> ss_notify (st_shared c) = true \/ wake_pending c;
  si_room : forall bytes, st_producer c = PWait bytes ->
    sb_closed (ss_buffer (st_shared c)) = true \/ has_room (ss_buffer (st_shared c)) bytes = true ->
    ss_space (st_shared c) = true \/ room_pending c
}.

(** ** Lemmas: critical sections *)

Lemma push_try_spec sh bytes sh' r :
  push_try sh bytes = (sh', r) ->
  match r with
  | PushClosed => sh' = sh /\ sb_closed (ss_buffer sh) = true
  | PushFull => sh' = sh /\ sb_closed (ss_buffer sh) = false /\ has_room (ss_buffer sh) bytes = false
  | Pushed => has_room (ss_buffer sh) bytes = true /\ sb_closed (ss_buffer sh) = false /\
      sh' = with_buffer sh (mkStream (sb_bytes (ss_buffer sh) ++ bytes) (sb_consumed (ss_buffer sh)) false)
  end.
Proof.
  unfold push_try, stream_push. destruct (sb_closed (ss_buffer sh)) eqn:Hc; [by intros [= <- <-]|].
  destruct (has_room (ss_buffer sh) bytes) eqn:Hr; intros [= <- <-]; done.
Qed.

Lemma read_try_spec sh offset size sh' r :
  (0 < size)%N -> read_try sh offset size = (sh', r) ->
  match r with
  | Err e => sh' = sh
  | Ok None => sh' = sh /\ stream_ready (ss_buffer sh) = false
  | Ok (Some []) => sh' = sh /\ sb_bytes (ss_buffer sh) = [] /\ sb_closed (ss_buffer sh) = true
  | Ok (Some data) => exists rest, sb_bytes (ss_buffer sh) = data ++ rest /\
      sh' = with_buffer sh (mkStream rest (saturating_add_u64 (sb_consumed (ss_buffer sh)) (len data)) (sb_closed (ss_buffer sh)))
  end.
Proof.
  intros Hsize. unfold read_try. destruct (decide (offset = sb_consumed (ss_buffer sh))) as [->|Hne].
  - destruct (decide (sb_bytes (ss_buffer sh) = [])) as [He|He].
    + rewrite stream_read_empty by done. unfold stream_ready. rewrite He.
      destruct (sb_closed (ss_buffer sh)) eqn:Hc; intros [= <- <-]; by destruct sh.
    + destruct (stream_read_data (ss_buffer sh) size He) as (data & rest & Hd & Hl & ->). intros [= <- <-]. cbn.
      destruct data as [|b data]; [|by exists rest]. exfalso. rewrite len_nil in Hl.
      destruct (sb_bytes (ss_buffer sh)) as [|c l]; [done|]. rewrite len_cons in Hl. lia.
  - rewrite stream_read_offset by done. intros [= <- <-]. by destruct sh.
Qed.

Lemma ending_tail x l : ending (x :: l) -> ending l.
Proof. intros [e Hs]. exists e. by apply suffix_cons_l in Hs. Qed.

Lemma ending_nil : ending [].
Proof. exists EIO. apply suffix_nil. Qed.

Lemma ending_close : ending close_steps.
Proof. exists EIO. by exists [SetError EIO]. Qed.

Lemma ending_fail e : ending (fail_steps e).
Proof. exists e. done. Qed.

(** After the buffer is closed both sides are still going to be woken. *)
Lemma ending_close_first l : ending (CloseBuffer :: l) -> l = [SetClosed; NotifySpace; WakeUp].
Proof.
  intros [e [k Hk]]. unfold fail_steps, close_steps in Hk.
  destruct k as [|? [|? [|? [|? [|? k]]]]]; cbn in Hk; simplify_eq; [done|by destruct k].
Qed.

Lemma has_room_bound b bytes :
  (len bytes <= MAX_STREAM_BUFFER_BYTES)%N -> has_room b bytes = true ->
  (len (sb_bytes b ++ bytes) <= MAX_STREAM_BUFFER_BYTES)%N.
Proof.
  intros Hb. unfold has_room. rewrite orb_true_iff, bool_decide_eq_true, N.leb_le. autorewrite with machine.
  unfold saturating_add_u64, MAX_STREAM_BUFFER_BYTES in *. intros [->|Hr]; [rewrite len_nil|]; lia.
Qed.

#[local] Hint Resolve ending_nil ending_close ending_fail ending_tail : core.

Lemma stream_inv_start : stream_inv stream_start.
Proof.
  split; cbn; try done; [by intros ? [?|?]|by intros ? ? [?|?]].
Qed.

(** ** Preservation *)

(** The buffer and the reader keep what is delivered, whatever else changes. *)
Ltac stream_split :=
  split; cbn [st_shared st_producer st_reader st_release st_pushed st_read] in *.

Lemma inv_push sh bytes r rel pu re sh' :
  push_try sh bytes = (sh', Pushed) -> stream_inv (mkRun sh (PTry bytes) r rel pu re) ->
  stream_inv (mkRun sh' PWake r rel (pu ++ bytes) re).
Proof.
  intros (Hroom & Hopen & ->)%push_try_spec [Hb Hc Hbd Hf Hsz [Hrel _] He Hw Hr]. stream_split; cbn; try done.
  - rewrite <- Hb, app_assoc. done.
  - intros Hlen. apply Hc. rewrite len_app in Hlen. lia.
  - apply has_room_bound; [by apply Hf; left|done].
  - by intros ? [?|?].
  - intros ->. destruct He as [He _]; [done|]. congruence.
  - intros o z Hrw _. right. left. done.
Qed.

Lemma inv_read sh p offset size rel pu re sh' r :
  read_try sh offset size = (sh', r) -> stream_inv (mkRun sh p (RTry offset size) rel pu re) ->
  match r with
  | Err e => stream_inv (mkRun sh' p RIdle rel pu re)
  | Ok None => stream_inv (mkRun sh' p (RWait offset size) rel pu re)
  | Ok (Some data) => stream_inv (mkRun sh' p (RAnswer data) rel pu (re ++ data))
  end.
Proof.
  intros Hread [Hb Hc Hbd Hf Hsz [Hrel Hend] He Hw Hr]. cbn [st_shared st_producer st_reader st_release st_pushed st_read] in *.
  assert (Hs : (0 < size)%N) by (eapply Hsz; by left). pose proof (read_try_spec _ _ _ _ _ Hs Hread) as Hspec.
  destruct r as [[[|b data]|]|e].
  - destruct Hspec as (-> & Hnil & Hcl). rewrite app_nil_r. stream_split; try done; [by intros ? ? [?|?]|].
    intros bytes Hp Hc'. destruct (Hr bytes Hp Hc') as [?|[(d & ? & _)|?]]; [by left|done|by right; right].
  - destruct Hspec as (rest & Hd & ->). stream_split; cbn; try done; [| | |by intros ? ? [?|?]|].
    + rewrite <- Hb, Hd, <- app_assoc. done.
    + intros Hlen. rewrite Hc by done. rewrite len_app. apply saturating_add_u64_exact.
      rewrite <- Hb, Hd in Hlen. rewrite !len_app in Hlen. lia.
    + rewrite Hd, len_app in Hbd. lia.
    + intros bytes Hp _. right. left. by eexists.
  - destruct Hspec as (-> & Hnr). stream_split; try done.
    + intros o z [?|[= <- <-]]; [done|]. exact Hs.
    + intros o z _ Hready. congruence.
    + intros bytes Hp Hc'. destruct (Hr bytes Hp Hc') as [?|[(d & ? & _)|?]]; [by left|done|by right; right].
  - subst sh'. stream_split; try done; [by intros ? ? [?|?]|].
    intros bytes Hp Hc'. destruct (Hr bytes Hp Hc') as [?|[(d & ? & _)|?]]; [by left|done|by right; right].
Qed.

(** A step of [fail] or [close], by the producer or by the release. *)
Lemma end_step_keeps sh x :
  sb_bytes (ss_buffer (end_step sh x)) = sb_bytes (ss_buffer sh) /\
  sb_consumed (ss_buffer (end_step sh x)) = sb_consumed (ss_buffer sh) /\
  (sb_closed (ss_buffer sh) = true -> sb_closed (ss_buffer (end_step sh x)) = true) /\
  (ss_notify sh = true -> ss_notify (end_step sh x) = true) /\
  (ss_space sh = true -> ss_space (end_step sh x) = true) /\
  (x <> CloseBuffer -> ss_buffer (end_step sh x) = ss_buffer sh) /\
  (x = WakeUp -> ss_notify (end_step sh x) = true) /\ (x = NotifySpace -> ss_space (end_step sh x) = true).
Proof. destruct x; cbn; split_ands; intros; congruence || done. Qed.

Lemma stream_inv_release sh p r x l pu re :
  stream_inv (mkRun sh p r (x :: l) pu re) -> stream_inv (mkRun (end_step sh x) p r l pu re).
Proof.
  intros [Hb Hc Hbd Hf Hsz [Hrel Hend] He Hw Hr].
  destruct (end_step_keeps sh x) as (Eb & Ec & Ecl & En & Es & Ebuf & Ew & Esp). stream_split; rewrite ?Eb, ?Ec; try done.
  - split; [by eapply ending_tail|done].
  - intros Hra. destruct (He Hra). auto.
  - intros o z Hrw Hready. destruct (decide (x = CloseBuffer)) as [->|Hx].
    { apply ending_close_first in Hrel as ->. right. right. right. cbn. set_solver. }
    rewrite Ebuf in Hready by done. destruct (Hw _ _ Hrw Hready) as [Hn|[Hp|[Hp|Hin]]]; [auto|right; by left|right; by right; left|].
    apply elem_of_cons in Hin as [Hin|Hin]; [left; by apply Ew|right; right; by right].
  - intros bytes Hp Hcond. destruct (decide (x = CloseBuffer)) as [->|Hx].
    { apply ending_close_first in Hrel as ->. right. right. cbn. set_solver. }
    rewrite Ebuf in Hcond by done. destruct (Hr _ Hp Hcond) as [Hn|[Hd|Hin]]; [auto|right; by left|].
    apply elem_of_cons in Hin as [Hin|Hin]; [left; by apply Esp|right; by right].
Qed.

Lemma inv_end sh x l r rel pu re :
  stream_inv (mkRun sh (PEnd (x :: l)) r rel pu re) -> stream_inv (mkRun (end_step sh x) (PEnd l) r rel pu re).
Proof.
  intros [Hb Hc Hbd Hf Hsz [Hrel Hend] He Hw Hr]. pose proof (Hend _ eq_refl) as Hl.
  destruct (end_step_keeps sh x) as (Eb & Ec & Ecl & En & Es & Ebuf & Ew & Esp). stream_split; rewrite ?Eb, ?Ec; try done.
  - by intros ? [?|?].
  - split; [done|]. intros l' [= <-]. by eapply ending_tail.
  - intros Hra. destruct (He Hra). auto.
  - intros o z Hrw Hready. destruct (decide (x = CloseBuffer)) as [->|Hx].
    { apply ending_close_first in Hl as ->. right. right. left. eexists. split; [done|]. set_solver. }
    rewrite Ebuf in Hready by done. destruct (Hw _ _ Hrw Hready) as [Hn|[Hp|[(l' & [= <-] & Hin)|Hin]]]; [auto|done| |].
    + apply elem_of_cons in Hin as [Hin|Hin]; [left; by apply Ew|right; right; left; eauto].
    + right. right. by right.
Qed.

(** What the other steps leave alone. *)
Lemma inv_other sh p r rel pu re sh' p' r' :
  stream_inv (mkRun sh p r rel pu re) -> ss_buffer sh' = ss_buffer sh ->
  (forall bytes, p' = PTry bytes \/ p' = PWait bytes -> (len bytes <= MAX_STREAM_BUFFER_BYTES)%N) ->
  (forall offset size, r' = RTry offset size \/ r' = RWait offset size -> (0 < size)%N) ->
  (forall l, p' = PEnd l -> ending l) -> (r' = RAnswer [] -> r = RAnswer []) ->
  (forall offset size, r' = RWait offset size -> stream_ready (ss_buffer sh) = true ->
     ss_notify sh' = true \/ wake_pending (mkRun sh' p' r' rel pu re)) ->
  (forall bytes, p' = PWait bytes -> sb_closed (ss_buffer sh) = true \/ has_room (ss_buffer sh) bytes = true ->
     ss_space sh' = true \/ room_pending (mkRun sh' p' r' rel pu re)) ->
  stream_inv (mkRun sh' p' r' rel pu re).
Proof.
  intros [Hb Hc Hbd Hf Hsz [Hrel Hend] He Hw Hr] Heq H1 H2 H3 H4 H5 H6.
  stream_split; rewrite ?Heq; auto.
Qed.

(** The obligations of [inv_other] that do not depend on the step. *)
Ltac stream_other Hinv :=
  apply (inv_other _ _ _ _ _ _ _ _ _ Hinv); try done; try apply Hinv;
  try (by intros ? [?|?]); try (by intros ? ? [?|?]); try (intros ? [= <-]; solve [auto]);
  try (intros ? ? Hrw Hready;
       first [by left
             |destruct (si_wake _ Hinv _ _ Hrw Hready) as [?|[?|[(? & ? & ?)|?]]]; try done;
              first [by left|by right; left|by right; right; right|right; right; left; by eauto]]);
  try (intros ? Hpw Hcond;
       first [by left
             |destruct (si_room _ Hinv _ Hpw Hcond) as [?|[(? & ? & ?)|?]];
              cbn [st_reader] in *; simplify_eq; try done;
              first [by left|by right; right]]).

Lemma stream_inv_step c c' : stream_inv c -> stream_run c c' \/ stream_input c c' -> stream_inv c'.
Proof.
  intros Hinv [Hstep|Hstep].
  - destruct Hstep as [sh bytes r rel pu re sh' Hp|sh bytes r rel pu re sh' Hp|sh bytes r rel pu re sh' Hp
      |sh bytes r rel pu re Hsp|sh r rel pu re|sh x l r rel pu re|sh p o z rel pu re sh' e Hr|sh p o z rel pu re sh' d Hr
      |sh p o z rel pu re sh' Hr|sh p o z rel pu re Hn|sh p d rel pu re Hd|sh p rel pu re|sh p r x l pu re].
    + by eapply inv_push.
    + apply push_try_spec in Hp as [-> _]. stream_other Hinv.
    + apply push_try_spec in Hp as (-> & Hopen & Hfull). stream_other Hinv.
      * intros ? [?|[= <-]]; [done|]. apply (si_frame _ Hinv). by left.
      * intros ? [= <-] [?|?]; congruence.
    + stream_other Hinv. intros ? [[= <-]|?]; [|done]. apply (si_frame _ Hinv). by right.
    + stream_other Hinv.
    + by apply inv_end.
    + apply (inv_read _ _ _ _ _ _ _ _ _ Hr Hinv).
    + apply (inv_read _ _ _ _ _ _ _ _ _ Hr Hinv).
    + apply (inv_read _ _ _ _ _ _ _ _ _ Hr Hinv).
    + stream_other Hinv. intros ? ? [[= <- <-]|?]; [|done]. eapply (si_size _ Hinv). by right.
    + stream_other Hinv.
    + stream_other Hinv.
    + by apply stream_inv_release.
  - destruct Hstep as [sh bytes r rel pu re|sh e r rel pu re|sh r rel pu re|sh r rel pu re Hc|sh p o z rel pu re Hz
      |sh p r rel pu re|sh p r pu re].
    + case_if; bool_facts; stream_other Hinv. intros ? [[= <-]|?]; [lia|done].
    + stream_other Hinv.
    + stream_other Hinv.
    + stream_other Hinv.
    + stream_other Hinv. intros ? ? [[= <- <-]|?]; [lia|done].
    + unfold ready_or_register. destruct (stream_ready (ss_buffer sh)) eqn:Hrd; [done|].
      apply (inv_other _ _ _ _ _ _ _ _ _ Hinv); try done; try apply Hinv.
    + destruct Hinv as [Hb Hc Hbd Hf Hsz [_ Hend] He Hw Hr]. stream_split; auto.
      * intros o z Hrw Hready. destruct (Hw _ _ Hrw Hready) as [?|[?|[?|Hin]]]; [by left|right; by left|right; right; by left|].
        by apply elem_of_nil in Hin.
      * intros bytes Hp Hcond. destruct (Hr _ Hp Hcond) as [?|[?|Hin]]; [by left|right; by left|]. by apply elem_of_nil in Hin.
Qed.

Lemma stream_reachable_inv c : stream_reachable c -> stream_inv c.
Proof.
  intros Hr. unfold stream_reachable in Hr. apply rtc_nsteps in Hr as [n Hr].
  revert c Hr. induction n as [|n IH]; intros c Hr; [inversion Hr; subst; apply stream_inv_start|].
  apply nsteps_inv_r in Hr as (d & Hd & Hstep). by eapply stream_inv_step; [apply IH|].
Qed.

(** ** Properties *)

(** C15: a stream delivers exactly what was produced. In every interleaving of
    the producer, the reader and the release of a file: the bytes handed to the
    reader so far followed by those in the buffer are the bytes pushed, in order;
    the buffer never holds more than 8 MiB; and the end of the stream, or its
    error, is reported only when the stream is closed and every byte pushed has
    been handed out. *)
Theorem stream_delivers (c : Stream) (Hreach : stream_reachable c) :
  st_read c ++ sb_bytes (ss_buffer (st_shared c)) = st_pushed c /\
  (len (sb_bytes (ss_buffer (st_shared c))) <= MAX_STREAM_BUFFER_BYTES)%N /\
  (st_reader c = RAnswer [] -> sb_closed (ss_buffer (st_shared c)) = true /\ st_read c = st_pushed c).
Proof.
  destruct (stream_reachable_inv c Hreach) as [Hb _ Hbd _ _ _ He _ _]. split_ands; [done|done|].
  intros Hr. destruct (He Hr) as [Hcl Hnil]. rewrite Hnil, app_nil_r in Hb. done.
Qed.

(** C14: no wake-up is lost. In every interleaving: if the reader sleeps although
    there is data or the stream is closed, or the producer sleeps although its
    frame fits or the file was closed, then one of the tasks can take a step of
    its own, without a new frame, request or release. *)
Theorem stream_no_lost_wakeup (c : Stream) (Hreach : stream_reachable c)
  (Hsleep : (exists offset size, st_reader c = RWait offset size /\ shared_ready (st_shared c) = true) \/
    (exists bytes, st_producer c = PWait bytes /\
       (sb_closed (ss_buffer (st_shared c)) = true \/ has_room (ss_buffer (st_shared c)) bytes = true))) :
  exists c', stream_run c c'.
Proof.
  destruct (stream_reachable_inv c Hreach) as [_ _ _ _ _ _ _ Hw Hr]. destruct c as [sh p r rel pu re].
  cbn [st_shared st_producer st_reader st_release] in *.
  destruct Hsleep as [(o & z & -> & Hready)|(bytes & -> & Hcond)].
  - destruct (Hw o z eq_refl Hready) as [Hn|[Hp|[(l & Hp & Hl)|Hl]]]; cbn in *; subst.
    + eexists. by apply SrNotified.
    + eexists. apply SrWake.
    + destruct l as [|x l]; [by apply elem_of_nil in Hl|]. eexists. apply SrEnd.
    + destruct rel as [|x rel]; [by apply elem_of_nil in Hl|]. eexists. apply SrRelease.
  - destruct (Hr bytes eq_refl Hcond) as [Hs|[(d & Hd & Hne)|Hl]]; cbn in *; subst.
    + eexists. by apply SrSpace.
    + eexists. by apply SrAnswer.
    + destruct rel as [|x rel]; [by apply elem_of_nil in Hl|]. eexists. apply SrRelease.
Qed.

(** The reader sleeps on an empty stream, and the producer pushes a byte. *)
Definition demo_woken : Stream :=
  mkRun (with_buffer shared_new (mkStream [x61] 0 false)) PWake (RWait 0 10) [] [x61] [].

Lemma demo_woken_reachable : stream_reachable demo_woken.
Proof.
  eapply rtc_l; [right; apply (SiRead shared_new PNext 0 10 [] [] []); done|].
  eapply rtc_l; [left; by apply SrReadWait|].
  eapply rtc_l; [right; apply (SiFrame _ [x61])|].
  eapply rtc_l; [left; by apply SrPush|]. apply rtc_refl.
Qed.

Lemma stream_delivers_witness :
  st_read demo_woken ++ [x61] = st_pushed demo_woken.
Proof. exact (proj1 (stream_delivers demo_woken demo_woken_reachable)). Defined.

Lemma stream_no_lost_wakeup_witness : exists c', stream_run demo_woken c'.
Proof.
  apply (stream_no_lost_wakeup demo_woken demo_woken_reachable). left. by exists 0%N, 10%N.
Defined.
