(* ===== verification/Fuse.v ===== *)
(** * eventfs-fuse: the file system

    [eventfs-fuse/src/fuse.rs]: the state of a mount ([Inner]), the handlers of
    the kernel's requests ([Filesystem]) and what they call.

    Requests run as tasks, concurrently. A handler is a [Task]: a sequence of
    critical sections ([Lock]) and calls of the backend ([Ask]); whoever runs a
    task may run others between any two of these. A section that cannot proceed
    (a directory whose lock is taken, a stream without data or without room)
    blocks; [FuseStream.v] looks at how the code waits. [run] executes a task
    alone against a backend.

    A handle that was released can still be used by tasks that hold it, so the
    objects stay and [fs_handles] says which are open. Only the mutex of a
    settlement buffer can be poisoned: nothing else panics under a lock. *)

From S2P Require Import Prelude.
From S2P Require Import Bytes.
From S2P Require Import Core.
From S2P Require Import Aggregate.
From S2P Require Import GroupCatalog.
From S2P Require Import Store.
From S2P Require Import RaftType.
From S2P Require Import Config.
From S2P Require Import Topology.
From S2P Require Import Wire.
From S2P Require Import FusePath.
From S2P Require Import FuseHandle.
From S2P Require Import FuseCodec.
From S2P Require Import FuseInodes.
From S2P Require Import FuseBackend.
From S2P Require Import FuseStream.

(** ** State *)

Definition STATE_DIRECTORY_PAGE_SIZE : N := 256.

Record MountIdentity : Type := mkMount { mi_uid : N; mi_gid : N }.

Record ConsumerKey : Type := mkConsumerKey {
  ck_aggregate_type : AggregateType;
  ck_group_name : string;
  ck_consumer_id : string
}.

#[export] Instance ConsumerKey_eq_dec : EqDecision ConsumerKey.
Proof. solve_decision. Defined.

#[export] Instance ConsumerKey_countable : Countable ConsumerKey.
Proof.
  by refine (inj_countable' (fun k => (ck_aggregate_type k, ck_group_name k, ck_consumer_id k))
    (fun '(t, g, c) => mkConsumerKey t g c) _); intros [].
Defined.

Inductive FileType : Type := FtDirectory | FtRegularFile.

Record DirectoryEntry : Type := mkEntry { de_name : string; de_ino : N; de_kind : FileType }.

Record DirectoryState : Type := mkDirectory {
  ds_entries : list DirectoryEntry;
  ds_retained_inodes : list N;
  ds_next_page_token : Bytes;
  ds_initialized : bool;
  ds_complete : bool
}.

Definition is_states (n : Node) : bool := match n with States _ _ => true | _ => false end.

(** [DirectoryState::new]. *)
Definition directory_new (n : Node) : DirectoryState := mkDirectory [] [] [] false (negb (is_states n)).

(** [locked] and [poisoned] are the states of the mutexes. *)
Inductive OpenHandle : Type :=
| HDirectory (node : Node) (state : DirectoryState) (locked : bool)
| HStaticRead (data : Bytes)
| HStreamingRead (shared : StreamShared) (consumer : option ConsumerKey)
| HEventWrite (t : AggregateType) (buffer : BufferedWrite EventEnvelope)
| HStateWrite (t : AggregateType) (aggregate_id : string) (revision : option N) (buffer : BufferedWrite Bytes)
| HSettlementWrite (t : AggregateType) (group_name consumer_id : string) (buffer : BufferedWrite SettlementEnvelope)
    (poisoned : bool).

Record Fs : Type := mkFs {
  fs_inodes : InodeTable;
  fs_objects : gmap N OpenHandle;
  fs_handles : gset N;
  fs_next_handle : N;
  fs_active_consumers : gset ConsumerKey
}.

(** [EventFs::new]. *)
Definition fs_new : Fs := mkFs table_new ∅ ∅ 1 ∅.

Definition with_inodes (fs : Fs) (t : InodeTable) : Fs :=
  mkFs t (fs_objects fs) (fs_handles fs) (fs_next_handle fs) (fs_active_consumers fs).

Definition with_object (fs : Fs) (fh : N) (h : OpenHandle) : Fs :=
  mkFs (fs_inodes fs) (<[fh := h]> (fs_objects fs)) (fs_handles fs) (fs_next_handle fs) (fs_active_consumers fs).

(** ** Tasks *)

Inductive Task (A : Type) : Type :=
| Done (a : A)
| Lock (X : Type) (section : Fs -> option (Fs * X)) (k : X -> Task A)
| Ask (X : Type) (q : Query X) (k : X -> Task A).

Arguments Done {A} a.
Arguments Lock {A X} section k.
Arguments Ask {A X} q k.

Fixpoint task_bind {A B} (m : Task A) (f : A -> Task B) : Task B :=
  match m with
  | Done a => f a
  | Lock section k => Lock section (fun x => task_bind (k x) f)
  | Ask q k => Ask q (fun x => task_bind (k x) f)
  end.

(** A handler answers, replies with an error number, or panics. *)
Definition Op (A : Type) : Type := Task (result (Thrown Errno) A).

#[export] Instance op_ret : MRet Op := fun A a => Done (Ok a).

#[export] Instance op_bind : MBind Op := fun A B f m =>
  task_bind m (fun r => match r with Ok a => f a | Err e => Done (Err e) end).

Definition raise {A} (e : Errno) : Op A := Done (Err (Raised e)).

Definition panic {A} (message : string) : Op A := Done (Err (Panics message)).

Definition of_result {A} (r : result Errno A) : Op A := Done (map_err Raised r).

(** A critical section, and one that may have to wait. *)
Definition atomically {A} (section : Fs -> Fs * A) : Op A := Lock (fun fs => Some (section fs)) (fun x => Done (Ok x)).

Definition atomically_when {A} (section : Fs -> option (Fs * A)) : Op A := Lock section (fun x => Done (Ok x)).

Definition ask {X} (q : Query X) : Op X := Ask q (fun x => Done (Ok x)).

(** [.await.map_err(backend_errno)?]. *)
Definition ask_ok {X} (q : Query (BackendResult X)) : Op X :=
  r ← ask q; of_result (map_err backend_errno r).

Definition on_inodes {A} (f : InodeTable -> InodeTable * A) : Op A :=
  atomically (fun fs => let '(t, a) := f (fs_inodes fs) in (with_inodes fs t, a)).

(** Running a task alone: the backend [W] answers every call. *)
Fixpoint run {W A} (backend : forall X, Query X -> W -> W * X) (m : Task A) (fs : Fs) (w : W) : option (Fs * W * A) :=
  match m with
  | Done a => Some (fs, w, a)
  | Lock section k =>
      match section fs with
      | Some (fs', x) => run backend (k x) fs' w
      | None => None
      end
  | Ask q k => let '(w', x) := backend _ q w in run backend (k x) fs w'
  end.

(** ** Nodes and attributes *)

Record FileAttr : Type := mkAttr {
  fa_ino : N;
  fa_size : N;
  fa_blocks : N;
  fa_mtime : N;
  fa_kind : FileType;
  fa_perm : N;
  fa_nlink : N;
  fa_uid : N;
  fa_gid : N
}.

Definition node_kind (n : Node) : FileType := if is_directory n then FtDirectory else FtRegularFile.

(** [Inner::attr]; a time is in milliseconds since the epoch. *)
Definition attr (m : MountIdentity) (ino : N) (n : Node) (size mtime : N) : FileAttr :=
  mkAttr ino size ((size + 511) / 512) mtime (node_kind n) (if is_directory n then 488 else 416)
    (if is_directory n then 2 else 1) (mi_uid m) (mi_gid m).

Definition inner_node (ino : N) : Op Node :=
  n ← on_inodes (fun t => (t, table_node t ino));
  of_result (ok_or ENOENT n).

Definition ensure_node (n : Node) (size : N) : Op N := on_inodes (fun t => ensure t n size).

Definition remember_node (n : Node) (size : N) : Op N := on_inodes (fun t => remember_lookup t n size).

Definition inner_retain_directory_node (n : Node) (size : N) : Op N :=
  on_inodes (fun t => retain_directory_node t n size).

Definition release_directory_nodes (inos : list N) : Op unit :=
  on_inodes (fun t => (foldl release_directory t inos, tt)).

(** [Inner::state_attributes]: size and time of a state document. *)
Definition state_attributes (n : Node) : Op (N * N) :=
  match n with
  | State _ _ aggregate_id =>
      t ← of_result (node_aggregate_type n);
      found ← ask_ok (QGetState t aggregate_id);
      d ← of_result (ok_or ENOENT found);
      mret (len (sd_data d), sd_modified_unix_millis d)
  | _ => raise EINVAL
  end.

(** A handle that is creating the state document of this node. *)
Definition creates_state (t : AggregateType) (aggregate_id : string) (h : OpenHandle) : bool :=
  match h with
  | HStateWrite t' id None _ => bool_decide (t' = t) && bool_decide (id = aggregate_id)
  | _ => false
  end.

Definition open_objects (fs : Fs) : list OpenHandle :=
  omap (fun fh => fs_objects fs !! fh) (elements (fs_handles fs)).

Definition has_pending_state_write (fs : Fs) (n : Node) : bool :=
  match n with
  | State s t aggregate_id =>
      match aggregate_type_new s t with
      | Ok ty => existsb (creates_state ty aggregate_id) (open_objects fs)
      | Err _ => false
      end
  | _ => false
  end.

(** [match .. { Err(ENOENT) if pending => Ok((0, UNIX_EPOCH)), result => result }]. *)
Definition state_attributes_for_getattr (n : Node) : Op (N * N) :=
  task_bind (state_attributes n) (fun r =>
    match r return Op (N * N) with
    | Err (Raised ENOENT) =>
        (pending ← (atomically (fun fs => (fs, has_pending_state_write fs n)) : Op bool);
         if (pending : bool) then mret (0%N, 0%N) else raise ENOENT)
    | other => Done other
    end).

(** [Inner::insert_handle]; [fetch_add] wraps around. *)
Definition insert_handle (h : OpenHandle) : Op N :=
  id ← atomically (fun fs =>
         (mkFs (fs_inodes fs) (fs_objects fs) (fs_handles fs) (wrapping_add_u64 (fs_next_handle fs) 1)
            (fs_active_consumers fs), fs_next_handle fs));
  atomically (fun fs =>
    (mkFs (fs_inodes fs) (<[id := h]> (fs_objects fs)) ({[id]} ∪ fs_handles fs) (fs_next_handle fs)
       (fs_active_consumers fs), id)).

Definition open_object (fs : Fs) (fh : N) : option OpenHandle :=
  if bool_decide (fh ∈ fs_handles fs) then fs_objects fs !! fh else None.

(** [Inner::handle]. *)
Definition inner_handle (fh : N) : Op OpenHandle :=
  h ← atomically (fun fs => (fs, open_object fs fh));
  of_result (ok_or EBADF h).

(** ** Lookup and directories *)

(** [Inner::lookup_child]. In the arm for aggregate types the name that the
    closure compares with is shadowed by its parameter; the model compares with
    the name looked up. *)
Definition child_exists (parent c : Node) : Op bool :=
  match c, parent with
  | BusinessSpace space, Root =>
      known ← on_inodes (fun t => (t, bool_decide (is_Some (table_inode t c))));
      if (known : bool) then mret true
      else
        types ← ask_ok QListTypes;
        mret (existsb (fun t => bool_decide (at_business_space t = space)) types)
  | AggregateTypeDir space ty, BusinessSpace _ =>
      types ← ask_ok QListTypes;
      mret (existsb (fun t => bool_decide (at_business_space t = space) && bool_decide (at_aggregate_type t = ty)) types)
  | Group _ _ group_name, Groups _ _ =>
      t ← of_result (node_aggregate_type c);
      names ← ask_ok (QListGroups t);
      mret (existsb (fun name => bool_decide (name = group_name)) names)
  | Consumer _ _ _ _, Group _ _ _ => mret true
  | (Events _ _ | States _ _ | Groups _ _), AggregateTypeDir _ _ => mret true
  | _, _ => mret false
  end.

Definition lookup_child (parent : Node) (name : string) : Op (Node * N * N) :=
  c ← of_result (map_err path_errno (child parent name));
  match c, parent with
  | State _ _ _, States _ _ =>
      a ← state_attributes c;
      mret (c, a.1, a.2)
  | _, _ =>
      exists_ ← child_exists parent c;
      if (exists_ : bool) then mret (c, 0%N, 0%N) else raise ENOENT
  end.

(** [Inner::create_directory]. *)
Definition create_directory (parent : Node) (name : string) : Op Node :=
  c ← of_result (map_err path_errno (child parent name));
  _ ← match parent, c with
      | Root, BusinessSpace _ => mret tt
      | BusinessSpace _, AggregateTypeDir _ _ =>
          t ← of_result (node_aggregate_type c);
          op ← ask QNewUuid;
          ask_ok (QRegister t op)
      | Groups _ _, Group _ _ group_name =>
          t ← of_result (node_aggregate_type c);
          op ← ask QNewUuid;
          ask_ok (QCreateGroup t group_name op)
      | _, _ => raise EPERM
      end;
  mret c.

(** ** Listing *)

Definition string_le (x y : string) : Prop := bytes_le (as_bytes x) (as_bytes y).

#[export] Instance string_le_dec x y : Decision (string_le x y).
Proof. unfold string_le. apply _. Defined.

(** [BTreeSet<String>] in its order. *)
Definition sorted_strings (s : gset string) : list string := merge_sort string_le (elements s).

(** A call that does not return. *)
Definition never {A} : Op A := Lock (fun _ => None) (fun a => Done (Ok a)).

(** [EventFsBackend::list_states]: all pages, of which there are fewer than
    [pages] or the loop does not end. *)
Fixpoint list_states (pages : nat) (t : AggregateType) (token : Bytes) (states : list string) : Op (list string) :=
  match pages with
  | O => never
  | S pages' =>
      page ← ask_ok (QListStatesPage t token 1000);
      let states := states ++ sp_aggregate_ids page in
      if bool_decide (sp_next_page_token page = []) then mret states
      else list_states pages' t (sp_next_page_token page) states
  end.

(** [node.child(&name).expect("服务端身份已校验")]. *)
Definition expected_child (n : Node) (name : string) : Op (string * Node * N) :=
  match child n name with
  | Ok c => mret (name, c, 0%N)
  | Err _ => panic "服务端身份已校验"
  end.

Fixpoint op_mapM {A B} (f : A -> Op B) (l : list A) : Op (list B) :=
  match l with
  | [] => mret []
  | a :: l' => b ← f a; bs ← op_mapM f l'; mret (b :: bs)
  end.

Definition known_spaces (t : InodeTable) : gset string :=
  list_to_set (omap (fun n => match n with BusinessSpace s => Some s | _ => None end) (map_to_list (it_by_node t)).*1).

(** [Inner::children]. *)
Definition children (pages : nat) (n : Node) : Op (list (string * Node * N)) :=
  match n with
  | Root =>
      types ← ask_ok QListTypes;
      local ← on_inodes (fun t => (t, known_spaces t));
      mret (map (fun space => (space, BusinessSpace space, 0%N))
              (sorted_strings (list_to_set (map at_business_space types) ∪ local)))
  | BusinessSpace space =>
      types ← ask_ok QListTypes;
      mret (map (fun t => (at_aggregate_type t, AggregateTypeDir (at_business_space t) (at_aggregate_type t), 0%N))
              (filter (fun t => at_business_space t = space) types))
  | AggregateTypeDir _ _ =>
      op_mapM (fun name => c ← of_result (map_err path_errno (child n name)); mret (name, c, 0%N))
        ["events.jsonl"; "states"; "groups"]
  | States _ _ =>
      t ← of_result (node_aggregate_type n);
      ids ← list_states pages t [] [];
      op_mapM (fun id => expected_child n (id +:+ ".json")) ids
  | Groups _ _ =>
      t ← of_result (node_aggregate_type n);
      names ← ask_ok (QListGroups t);
      op_mapM (expected_child n) names
  | Group _ _ _ => mret []
  | Events _ _ | State _ _ _ | Consumer _ _ _ _ => raise ENOTDIR
  end.

(** The loop that adds the children of a page; what it does to the directory is
    returned with the result, as the caller keeps it in either case. *)
Fixpoint add_children (st : DirectoryState) (l : list (string * Node * N)) :
    Task (DirectoryState * result (Thrown Errno) unit) :=
  match l with
  | [] => Done (st, Ok tt)
  | (name, c, size) :: rest =>
      task_bind (inner_retain_directory_node c size) (fun r =>
        match r with
        | Ok ino =>
            add_children
              (mkDirectory (ds_entries st ++ [mkEntry name ino (node_kind c)]) (ds_retained_inodes st ++ [ino])
                 (ds_next_page_token st) (ds_initialized st) (ds_complete st)) rest
        | Err e => Done (st, Err e)
        end)
  end.

Definition initialized (st : DirectoryState) : DirectoryState :=
  mkDirectory (ds_entries st) (ds_retained_inodes st) (ds_next_page_token st) true (ds_complete st).

(** [Inner::load_next_directory_page]. *)
Definition load_next_directory_page (n : Node) (st : DirectoryState) :
    Task (DirectoryState * result (Thrown Errno) unit) :=
  if ds_complete st && ds_initialized st then Done (st, Ok tt)
  else if is_states n then
    let token := ds_next_page_token st in
    let query : Op StatePage :=
      t ← of_result (node_aggregate_type n); ask_ok (QListStatesPage t token STATE_DIRECTORY_PAGE_SIZE) in
    task_bind query (fun r =>
      match r with
      | Err e => Done (st, Err e)
      | Ok page =>
          let next := sp_next_page_token page in
          if negb (bool_decide (next = [])) && bool_decide (next = token) then Done (st, Err (Raised EIO))
          else
            let st := mkDirectory (ds_entries st) (ds_retained_inodes st) next (ds_initialized st) (bool_decide (next = [])) in
            match result_mapM (fun id =>
                    c ← map_err path_errno (child n (id +:+ ".json")); Ok (id +:+ ".json", c, 0%N)) (sp_aggregate_ids page) with
            | Err e => Done (st, Err (Raised e))
            | Ok l => add_children (initialized st) l
            end
      end)
  else
    let st := mkDirectory (ds_entries st) (ds_retained_inodes st) (ds_next_page_token st) (ds_initialized st) true in
    task_bind (children 0 n) (fun r =>
      match r with
      | Err e => Done (st, Err e)
      | Ok l => add_children (initialized st) l
      end).

(** ** Directory requests *)

Definition opendir (ino : N) : Op N :=
  n ← inner_node ino;
  if negb (is_directory n) then raise ENOTDIR
  else
    _ ← on_inodes (fun t => (retain_directory t ino, tt));
    let st := directory_new n in
    insert_handle (HDirectory n (mkDirectory (ds_entries st) (ds_retained_inodes st ++ [ino]) (ds_next_page_token st)
      (ds_initialized st) (ds_complete st)) false).

(** An entry of the reply: inode, offset of the next one, kind and name.
    [ReplyDirectory::add] refuses an entry that does not fit any more. *)
Record ReplyEntry : Type := mkReplyEntry { re_ino : N; re_offset : N; re_kind : FileType; re_name : string }.

Section Requests.
Context (fits : list ReplyEntry -> ReplyEntry -> bool).

Definition reply_add (acc : list ReplyEntry) (e : ReplyEntry) : list ReplyEntry * bool :=
  if fits acc e then (acc ++ [e], false) else (acc, true).

(** The entries from [index] on, until the reply is full. *)
Fixpoint emit (acc : list ReplyEntry) (index : N) (l : list DirectoryEntry) : list ReplyEntry * bool :=
  match l with
  | [] => (acc, false)
  | e :: rest =>
      match reply_add acc (mkReplyEntry (de_ino e) (index + 3) (de_kind e) (de_name e)) with
      | (acc, true) => (acc, true)
      | (acc, false) => emit acc (index + 1) rest
      end
  end.

(** The loop of [readdir] over the children, with at most one page fetched. *)
Definition readdir_children (n : Node) (st : DirectoryState) (acc : list ReplyEntry) (index : N) :
    Task (DirectoryState * result (Thrown Errno) (list ReplyEntry)) :=
  let known := drop (N.to_nat index) (ds_entries st) in
  match emit acc index known with
  | (acc, true) => Done (st, Ok acc)
  | (acc, false) =>
      if ds_complete st then Done (st, Ok acc)
      else
        let index := (index + len known)%N in
        task_bind (load_next_directory_page n st) (fun r =>
          match r with
          | (st, Err e) => Done (st, Err e)
          | (st, Ok _) => Done (st, Ok (emit acc index (drop (N.to_nat index) (ds_entries st))).1)
          end)
  end.

(** The directory's own lock, held over the calls of the backend. *)
Definition lock_directory (fh : N) : Op DirectoryState :=
  atomically_when (fun fs =>
    match fs_objects fs !! fh with
    | Some (HDirectory n st false) => Some (with_object fs fh (HDirectory n st true), st)
    | _ => None
    end).

Definition unlock_directory (fh : N) (st : DirectoryState) : Op unit :=
  atomically (fun fs =>
    (match fs_objects fs !! fh with
     | Some (HDirectory n _ _) => with_object fs fh (HDirectory n st false)
     | _ => fs
     end, tt)).

Definition readdir (ino fh offset : N) : Op (list ReplyEntry) :=
  n ← inner_node ino;
  h ← inner_handle fh;
  match h with
  | HDirectory handle_node _ _ =>
      if negb (bool_decide (handle_node = n)) then raise EBADF
      else
        let '(acc, full) :=
          if (offset =? 0)%N then reply_add [] (mkReplyEntry ino 1 FtDirectory ".") else ([], false) in
        if (full : bool) then mret acc
        else
          let rest (acc : list ReplyEntry) : Op (list ReplyEntry) :=
            st ← lock_directory fh;
            task_bind (readdir_children n st acc (offset - 2)) (fun r =>
              task_bind (unlock_directory fh r.1) (fun _ => Done r.2)) in
          if (offset <=? 1)%N then
            parent_ino ← ensure_node (parent_node n) 0;
            match reply_add acc (mkReplyEntry parent_ino 2 FtDirectory "..") with
            | (acc, true) => mret acc
            | (acc, false) => rest acc
            end
          else rest acc
  | _ => raise EBADF
  end.

(** [releasedir]: the handle goes at once, its references when the directory's
    lock is free. *)
Definition releasedir (fh : N) : Op unit :=
  found ← atomically (fun fs =>
    match open_object fs fh with
    | Some (HDirectory _ _ _) =>
        (mkFs (fs_inodes fs) (fs_objects fs) (fs_handles fs ∖ {[fh]}) (fs_next_handle fs) (fs_active_consumers fs), true)
    | _ => (fs, false)
    end);
  if negb found then raise EBADF
  else
    st ← lock_directory fh;
    _ ← release_directory_nodes (ds_retained_inodes st);
    unlock_directory fh st.

End Requests.

(** ** Lookup, attributes, making directories *)

Section Mount.
Context (mount : MountIdentity) (caps : Capabilities) `{SerdeJson}.

(** A file name is a string when it is UTF-8; the handlers answer [EINVAL]
    otherwise. *)
Definition lookup_request (parent : N) (name : option string) : Op FileAttr :=
  p ← inner_node parent;
  name ← of_result (ok_or EINVAL name);
  found ← lookup_child p name;
  let '(n, size, mtime) := (found : Node * N * N) in
  ino ← remember_node n size;
  mret (attr mount ino n size mtime).

Definition forget_request (ino nlookup : N) : Op unit := on_inodes (fun t => (forget t ino nlookup, tt)).

Definition is_state_file (n : Node) : bool := match n with State _ _ _ => true | _ => false end.

Definition getattr (ino : N) : Op FileAttr :=
  n ← inner_node ino;
  if is_state_file n then
    a ← state_attributes_for_getattr n;
    _ ← ensure_node n (fst a);
    mret (attr mount ino n (fst a) (snd a))
  else
    size ← on_inodes (fun t => (t, table_size t ino));
    mret (attr mount ino n size 0).

Definition mkdir (parent : N) (name : option string) : Op FileAttr :=
  p ← inner_node parent;
  name ← of_result (ok_or EINVAL name);
  c ← create_directory p name;
  ino ← remember_node c 0;
  mret (attr mount ino c 0 0).

(** [unlink], [rmdir] and [rename]. *)
Definition refuse : Op unit := raise EPERM.

(** ** Opening files *)

Inductive OpenAccMode : Type := O_RDONLY | O_WRONLY | O_RDWR.

Record FopenFlags : Type := mkFopen { fo_direct_io : bool; fo_nonseekable : bool }.

Definition direct : FopenFlags := mkFopen true true.
Definition direct_io : FopenFlags := mkFopen true false.

Definition type_of_names (s t : string) : Op AggregateType := of_result (map_err backend_errno (aggregate_type_new s t)).

(** [Inner::open_handle], with the receiver a follower reads from. *)
Definition open_handle (n : Node) (mode : OpenAccMode) : Op (N * FopenFlags * option N) :=
  if is_directory n then raise EISDIR
  else match mode, n with
  | O_RDWR, _ => raise EINVAL
  | O_RDONLY, Events _ _ =>
      t ← of_result (node_aggregate_type n);
      receiver ← ask_ok (QFollow t);
      fh ← insert_handle (HStreamingRead shared_new None);
      mret (fh, direct, Some receiver)
  | O_WRONLY, Events _ _ =>
      t ← of_result (node_aggregate_type n);
      fh ← insert_handle (HEventWrite t (buffered_new (cap_max_event_bytes caps)));
      mret (fh, direct_io, None)
  | O_RDONLY, State s ty aggregate_id =>
      t ← type_of_names s ty;
      found ← ask_ok (QGetState t aggregate_id);
      d ← of_result (ok_or ENOENT found);
      fh ← insert_handle (HStaticRead (sd_data d));
      mret (fh, direct_io, None)
  | O_WRONLY, State s ty aggregate_id =>
      t ← type_of_names s ty;
      found ← ask_ok (QGetState t aggregate_id);
      fh ← insert_handle (HStateWrite t aggregate_id (sd_revision <$> found) (buffered_new (cap_max_state_bytes caps)));
      mret (fh, direct_io, None)
  | O_RDONLY, Consumer s ty group_name consumer_id =>
      t ← type_of_names s ty;
      let key := mkConsumerKey t group_name consumer_id in
      inserted ← atomically (fun fs =>
        (mkFs (fs_inodes fs) (fs_objects fs) (fs_handles fs) (fs_next_handle fs) ({[key]} ∪ fs_active_consumers fs),
         negb (bool_decide (key ∈ fs_active_consumers fs))));
      if negb inserted then raise EBUSY
      else
        fh ← insert_handle (HStreamingRead shared_new (Some key));
        mret (fh, direct, None)
  | O_WRONLY, Consumer s ty group_name consumer_id =>
      t ← type_of_names s ty;
      fh ← insert_handle (HSettlementWrite t group_name consumer_id (buffered_new (cap_max_event_bytes caps)) false);
      mret (fh, direct_io, None)
  | _, _ => raise EINVAL
  end.

Definition open_request (ino : N) (mode : OpenAccMode) : Op (N * FopenFlags * option N) :=
  n ← inner_node ino;
  open_handle n mode.

Definition create_request (parent : N) (name : option string) (mode : OpenAccMode) : Op (FileAttr * (N * FopenFlags * option N)) :=
  p ← inner_node parent;
  name ← of_result (ok_or EINVAL name);
  c ← of_result (match child p name with
                 | Ok (State _ _ _ as c) | Ok (Consumer _ _ _ _ as c) => Ok c
                 | Ok _ => Err EPERM
                 | Err e => Err (path_errno e)
                 end);
  opened ← open_handle c mode;
  ino ← remember_node c 0;
  mret (attr mount ino c 0 0, opened).

(** ** Reading and writing *)

(** [StreamShared::read], waiting while there is nothing to read. *)
Definition stream_object (fs : Fs) (fh : N) : option (StreamShared * option ConsumerKey) :=
  match fs_objects fs !! fh with Some (HStreamingRead sh c) => Some (sh, c) | _ => None end.

Definition shared_read (fh offset size : N) : Op Bytes :=
  r ← atomically_when (fun fs =>
    match stream_object fs fh with
    | Some (sh, c) =>
        match read_try sh offset size with
        | (sh', Ok (Some data)) => Some (with_object fs fh (HStreamingRead sh' c), Ok data)
        | (_, Ok None) => None
        | (sh', Err e) => Some (with_object fs fh (HStreamingRead sh' c), Err e)
        end
    | None => None
    end);
  data ← of_result r;
  answer ← atomically (fun fs =>
    match stream_object fs fh with
    | Some (sh, c) =>
        (if bool_decide (data = []) then fs else with_object fs fh (HStreamingRead (set_space sh true) c), read_answer sh data)
    | None => (fs, Ok data)
    end);
  of_result answer.

Definition read_request (fh offset size : N) : Op Bytes :=
  h ← inner_handle fh;
  match h with
  | HStaticRead data =>
      let start := N.min offset (len data) in
      let stop := N.min (saturating_add_u64 start size) (len data) in
      mret (take (N.to_nat (stop - start)) (drop (N.to_nat start) data))
  | HStreamingRead _ _ => shared_read fh offset size
  | _ => raise EBADF
  end.

(** [buffer.lock().expect(..).write(offset, data)] of the three kinds. *)
Definition write_object (h : OpenHandle) (offset : N) (data : Bytes) : OpenHandle * result (Thrown WriteError) N :=
  match h with
  | HEventWrite t b => let '(b, r) := buffered_write b offset data in (HEventWrite t b, map_err Raised r)
  | HStateWrite t id rev b => let '(b, r) := buffered_write b offset data in (HStateWrite t id rev b, map_err Raised r)
  | HSettlementWrite t g c b true => (h, Err (Panics "settlement buffer poisoned"))
  | HSettlementWrite t g c b false =>
      let '(b, r) := buffered_write b offset data in (HSettlementWrite t g c b false, map_err Raised r)
  | _ => (h, Err (Raised Busy))
  end.

(** An operation on the object behind a handle a task holds. *)
Definition on_object {A} (fh : N) (f : OpenHandle -> OpenHandle * A) (absent : A) : Op A :=
  atomically (fun fs =>
    match fs_objects fs !! fh with
    | Some h => let '(h', a) := f h in (with_object fs fh h', a)
    | None => (fs, absent)
    end).

Definition write_request (fh offset : N) (data : Bytes) : Op N :=
  h ← inner_handle fh;
  r ← on_object fh (fun h => write_object h offset data) (Err (Raised Busy));
  Done (map_err (fun e => match e with Raised e => Raised (write_errno e) | Panics m => Panics m end) r).

Definition end_stream (fh : N) (f : StreamShared -> StreamShared) : Op unit :=
  on_object fh (fun h => match h with HStreamingRead sh c => (HStreamingRead (f sh) c, tt) | _ => (h, tt) end) tt.

(** ** Committing *)

(** [.map_err(begin_errno)] on the result of [begin], with what else the call
    needs. *)
Definition begun {E T Q} (f : T -> Q) (r : result (BeginError E) (option T)) : result (Thrown Errno) (option Q) :=
  match r with
  | Ok request => Ok (f <$> request)
  | Err e => Err (Raised (begin_errno e))
  end.

(** [buffer.lock().expect(..).begin(..)]. *)
Definition begin_event (fresh : Uuid) (h : OpenHandle) : OpenHandle * result (Thrown Errno) (option (AggregateType * EventEnvelope)) :=
  match h with
  | HEventWrite t b =>
      let '(b, r) := buffered_begin b (fun bytes => parse_event bytes (cap_max_event_bytes caps) fresh) in
      (HEventWrite t b, begun (pair t) r)
  | _ => (h, Ok None)
  end.

Definition begin_state (h : OpenHandle) :
    OpenHandle * result (Thrown Errno) (option (AggregateType * string * option N * Bytes)) :=
  match h with
  | HStateWrite t id rev b =>
      let '(b, r) := buffered_begin b (fun bytes => _ ← value_from_slice bytes; Ok bytes) in
      (HStateWrite t id rev b, begun (pair (t, id, rev)) r)
  | _ => (h, Ok None)
  end.

(** A panic of the parser poisons the mutex it runs under. *)
Definition begin_settlement (h : OpenHandle) :
    OpenHandle * result (Thrown Errno) (option (AggregateType * string * string * SettlementEnvelope)) :=
  match h with
  | HSettlementWrite t g c b true => (h, Err (Panics "settlement buffer poisoned"))
  | HSettlementWrite t g c b false =>
      match buffered_begin b (fun bytes => parse_settlements bytes (cap_max_event_bytes caps)) with
      | (b, Err (BeginPrepare (Panics m))) => (HSettlementWrite t g c b true, Err (Panics m))
      | (b, Err e) => (HSettlementWrite t g c b false, Err (Raised (begin_errno e)))
      | (b, Ok r) => (HSettlementWrite t g c b false, Ok (pair (t, g, c) <$> r))
      end
  | _ => (h, Ok None)
  end.

(** [buffer.lock().expect(..).finish(result.is_ok())]. *)
Definition finish_object (success : bool) (h : OpenHandle) : OpenHandle * result (Thrown Errno) unit :=
  match h with
  | HEventWrite t b => (HEventWrite t (buffered_finish b success), Ok tt)
  | HStateWrite t id rev b => (HStateWrite t id rev (buffered_finish b success), Ok tt)
  | HSettlementWrite t g c b true => (h, Err (Panics "settlement buffer poisoned"))
  | HSettlementWrite t g c b false => (HSettlementWrite t g c (buffered_finish b success) false, Ok tt)
  | _ => (h, Ok tt)
  end.

(** What the results of a settlement mean for the file. *)
Definition settled (results : list SettlementResult) : BackendResult unit :=
  if forallb (fun r => bool_decide (sr_status r = PbApplied) || bool_decide (sr_status r = PbAlreadySettled)) results
  then Ok tt
  else if existsb (fun r => bool_decide (sr_status r = PbStaleLease)) results
  then Err (BeStale "delivery lease 已失效")
  else Err (BePermissionDenied "delivery 不属于当前 consumer").

(** [begin], the call of the backend, [finish]. *)
Definition submit {Q A} (fh : N) (begin : OpenHandle -> OpenHandle * result (Thrown Errno) (option Q))
    (call : Q -> Op (BackendResult A)) : Op unit :=
  r ← on_object fh begin (Ok None);
  request ← (Done r : Op (option Q));
  match request with
  | None => mret tt
  | Some q =>
      result ← call q;
      f ← on_object fh (finish_object (is_ok result)) (Ok tt);
      _ ← (Done f : Op unit);
      of_result (map_err backend_errno ((fun _ => tt) <$> result))
  end.

(** [Inner::commit] on the object behind [fh], open or not. *)
Definition commit (fh : N) : Op unit :=
  h ← atomically (fun fs => (fs, fs_objects fs !! fh));
  match h with
  | Some (HEventWrite _ _) =>
      fresh ← ask QNewUuid;
      submit fh (begin_event fresh) (fun '(t, e) => ask (QAppend t e))
  | Some (HStateWrite _ _ _ _) =>
      submit fh begin_state (fun '(t, id, rev, data) => ask (QPutState t id rev data))
  | Some (HSettlementWrite _ _ _ _ _) =>
      submit fh begin_settlement (fun '(t, g, c, e) =>
        r ← ask (QSettle t g c (sv_settlements e)); mret (r ≫= settled))
  | _ => mret tt
  end.

Definition flush (fh : N) : Op unit :=
  _ ← inner_handle fh;
  commit fh.

Definition fsync (fh : N) : Op unit :=
  _ ← inner_handle fh;
  commit fh.

Definition release (fh : N) : Op unit :=
  found ← atomically (fun fs =>
    (mkFs (fs_inodes fs) (fs_objects fs) (fs_handles fs ∖ {[fh]}) (fs_next_handle fs) (fs_active_consumers fs),
     open_object fs fh));
  h ← of_result (ok_or EBADF found);
  _ ← match h with
      | HStreamingRead _ consumer =>
          _ ← end_stream fh shared_close;
          match consumer with
          | Some key =>
              atomically (fun fs =>
                (mkFs (fs_inodes fs) (fs_objects fs) (fs_handles fs) (fs_next_handle fs) (fs_active_consumers fs ∖ {[key]}), tt))
          | None => mret tt
          end
      | _ => mret tt
      end;
  commit fh.

(** What [poll] reports: readable, writable. *)
Definition poll (fh : N) (schedule_notify : bool) : Op (bool * bool) :=
  h ← inner_handle fh;
  match h with
  | HStreamingRead _ _ =>
      ready ← on_object fh (fun h =>
        match h with
        | HStreamingRead sh c =>
            if schedule_notify then let '(sh, r) := ready_or_register sh in (HStreamingRead sh c, r)
            else (h, shared_ready sh)
        | _ => (h, false)
        end) false;
      mret (ready, false)
  | _ => mret (true, true)
  end.

End Mount.

(** ** The tasks that fill streams *)

(** [shared.push(&frame).await]: [false] when the stream is closed. *)
Definition shared_push (fh : N) (bytes : Bytes) : Op bool :=
  if (MAX_STREAM_BUFFER_BYTES <? len bytes)%N then
    on_object fh (fun h => match h with HStreamingRead sh c => (HStreamingRead (shared_fail sh EFBIG) c, false) | _ => (h, false) end) false
  else
    atomically_when (fun fs =>
      match stream_object fs fh with
      | Some (sh, c) =>
          match push_try sh bytes with
          | (sh', Pushed) => Some (with_object fs fh (HStreamingRead (wake sh') c), true)
          | (sh', PushClosed) => Some (fs, false)
          | (_, PushFull) => None
          end
      | None => None
      end).

(** One turn of the task behind an events file; [true] to go on. *)
Definition follow_turn (fh receiver : N) : Op bool :=
  frame ← ask (QReceive receiver);
  match frame with
  | Some (Ok bytes) => shared_push fh bytes
  | Some (Err e) => _ ← end_stream fh (fun sh => shared_fail sh (backend_errno e)); mret false
  | None => _ ← end_stream fh shared_close; mret false
  end.

(** [renew_delay]: half of the time that is left, between 1 ms and 3 s. *)
Definition renew_delay (unacked : gmap Bytes N) (now : N) : option N :=
  match (map_to_list unacked).*2 with
  | [] => None
  | d :: rest =>
      let earliest := foldl N.min d rest in
      Some (N.max 1 (N.min 3000 ((earliest - now) / 2)))
  end.

(** [BTreeMap<Vec<u8>, u64>::keys]. *)
Definition unacked_ids (unacked : gmap Bytes N) : list Bytes := merge_sort bytes_le (map_to_list unacked).*1.

Definition kept_leases (results : list SettlementResult) : gmap Bytes N :=
  list_to_map (reverse (omap (fun r =>
    if bool_decide (sr_status r = PbApplied) && (0 <? sr_deadline_ms r)%N
    then Some (sr_delivery_id r, sr_deadline_ms r) else None) results)).

Section GroupReader.
Context `{SerdeJson}.

(** The deliveries of a fetch, pushed in order; [None] when the task ends. *)
Fixpoint push_fetched (fh : N) (l : list ReceivedDelivery) (unacked : gmap Bytes N) : Op (option (gmap Bytes N)) :=
  match l with
  | [] => mret (Some unacked)
  | d :: rest =>
      let unacked := <[rd_delivery_id d := rd_deadline_ms d]> unacked in
      match delivery_frame d with
      | Ok frame =>
          go_on ← shared_push fh frame;
          if (go_on : bool) then push_fetched fh rest unacked else mret None
      | Err _ => _ ← end_stream fh (fun sh => shared_fail sh EIO); mret None
      end
  end.

(** One turn of [spawn_group_reader]; [timer_first] says that the timer of the
    [select!] ran out before the fetch was answered, and the answer is lost. *)
Definition group_turn (fh : N) (key : ConsumerKey) (unacked : gmap Bytes N) (timer_first : bool) :
    Op (option (gmap Bytes N)) :=
  let '(mkConsumerKey t g c) := key in
  closed ← atomically (fun fs => (fs, match stream_object fs fh with Some (sh, _) => ss_closed sh | None => true end));
  if (closed : bool) then mret None
  else
    now ← ask QUnixMillis;
    let fetch : Op (option (BackendResult FetchResponse)) := r ← ask (QFetch t g c); mret (Some r) in
    fetched ← match renew_delay unacked now with
              | None => fetch
              | Some delay =>
                  if (delay <=? 1)%N then mret None
                  else r ← fetch; mret (if timer_first then None else r)
              end;
    match fetched with
    | None =>
        r ← ask (QRenew t g c (unacked_ids unacked));
        match r with
        | Ok results => mret (Some (kept_leases results))
        | Err (BeUnavailable _ | BeTimeout _) => mret (Some unacked)
        | Err e => _ ← end_stream fh (fun sh => shared_fail sh (backend_errno e)); mret None
        end
    | Some (Ok response) => push_fetched fh (fr_deliveries response) unacked
    | Some (Err (BeUnavailable _ | BeTimeout _)) => mret (Some unacked)
    | Some (Err e) => _ ← end_stream fh (fun sh => shared_fail sh (backend_errno e)); mret None
    end.

End GroupReader.
