(* ===== verification/FuseSafety.v ===== *)
(** * eventfs-fuse: one reader for each consumer

    A mount serves requests concurrently; [pool_step] interleaves any number of
    handlers, critical section by critical section, with any answers of the
    backend. The theorem is about what the documentation promises of consumer
    files: while a handle reads for a consumer, no other one does.

    An open in flight has marked its consumer before the handle exists, and a
    release unmarks it after the handle is gone. The proof accounts for them: a
    task owns consumers and handle numbers, [wp] says what a section may do to
    what it owns, whatever the other tasks own. *)

From S2P Require Import Prelude.
From S2P Require Import Bytes.
From S2P Require Import FusePath.
From S2P Require Import FuseHandle.
From S2P Require Import FuseCodec.
From S2P Require Import FuseInodes.
From S2P Require Import FuseBackend.
From S2P Require Import FuseStream.
From S2P Require Import Fuse.

(** ** Interleavings *)

Inductive Thread : Type := mkThread (A : Type) (m : Task A).

Arguments mkThread {A} m.

Record Pool : Type := mkPool { po_fs : Fs; po_threads : list Thread }.

Section Pool.
Context (request : Thread -> Prop).

(** A request arrives, a task takes its next section, is answered by the
    backend, or ends. The handle counter has not run through all numbers. *)
Inductive pool_step : Pool -> Pool -> Prop :=
| PsRequest fs l t : request t -> pool_step (mkPool fs l) (mkPool fs (t :: l))
| PsLock fs l1 l2 A X (section : Fs -> option (Fs * X)) (k : X -> Task A) fs' x :
    (fs_next_handle fs < u64_max)%N -> section fs = Some (fs', x) ->
    pool_step (mkPool fs (l1 ++ mkThread (Lock section k) :: l2)) (mkPool fs' (l1 ++ mkThread (k x) :: l2))
| PsAnswer fs l1 l2 A X (q : Query X) (k : X -> Task A) x :
    pool_step (mkPool fs (l1 ++ mkThread (Ask q k) :: l2)) (mkPool fs (l1 ++ mkThread (k x) :: l2))
| PsDone fs l1 l2 A (a : A) :
    pool_step (mkPool fs (l1 ++ mkThread (Done a) :: l2)) (mkPool fs (l1 ++ l2)).

Definition pool_reachable (p : Pool) : Prop := rtc pool_step (mkPool fs_new []) p.

End Pool.

(** ** What tasks own *)

Definition consumer_of (h : OpenHandle) : option ConsumerKey :=
  match h with HStreamingRead _ c => c | _ => None end.

(** The handle [fh] is open and reads for [key]. *)
Definition reads_for (fs : Fs) (fh : N) (key : ConsumerKey) : Prop :=
  fh ∈ fs_handles fs /\ exists h, fs_objects fs !! fh = Some h /\ consumer_of h = Some key.

(** Tasks under way own the consumers [K] and the handle numbers [I]. *)
Record fs_inv (fs : Fs) (K : gset ConsumerKey) (I : gset N) : Prop := {
  fi_active : forall key, key ∈ fs_active_consumers fs <-> key ∈ K \/ exists fh, reads_for fs fh key;
  fi_owned : forall key fh, key ∈ K -> ~ reads_for fs fh key;
  fi_unique : forall key fh1 fh2, reads_for fs fh1 key -> reads_for fs fh2 key -> fh1 = fh2;
  fi_next : forall fh, is_Some (fs_objects fs !! fh) \/ fh ∈ I -> (fh < fs_next_handle fs)%N;
  fi_fresh : forall fh, fh ∈ I -> fs_objects fs !! fh = None
}.

(** ** A logic for sections *)

Fixpoint wp {A} (m : Task A) (Q : A -> gset ConsumerKey -> gset N -> Prop) (K : gset ConsumerKey) (I : gset N) : Prop :=
  match m with
  | Done a => Q a K I
  | Lock section k =>
      forall fs FK FI fs' x, fs_inv fs (K ∪ FK) (I ∪ FI) -> K ## FK -> I ## FI -> (fs_next_handle fs < u64_max)%N ->
        section fs = Some (fs', x) ->
        exists K' I', K' ## FK /\ I' ## FI /\ fs_inv fs' (K' ∪ FK) (I' ∪ FI) /\ wp (k x) Q K' I'
  | Ask q k => forall x, wp (k x) Q K I
  end.

(** A task that owns nothing at the end. *)
Definition safe_thread (t : Thread) (K : gset ConsumerKey) (I : gset N) : Prop :=
  match t with mkThread m => wp m (fun _ K' I' => K' = ∅ /\ I' = ∅) K I end.

Lemma wp_bind {A B} (m : Task A) (f : A -> Task B) Q K I :
  wp m (fun a K' I' => wp (f a) Q K' I') K I -> wp (task_bind m f) Q K I.
Proof.
  revert K I. induction m as [a|X section k IH|X q k IH]; intros K I; cbn; [done| |].
  - intros H fs FK FI fs' x Hinv HK HI Hn Hs. destruct (H fs FK FI fs' x Hinv HK HI Hn Hs) as (K' & I' & ? & ? & ? & Hk).
    exists K', I'. split_ands; auto.
  - intros H x. auto.
Qed.

Lemma wp_mono {A} (m : Task A) (Q Q' : A -> gset ConsumerKey -> gset N -> Prop) K I :
  (forall a K' I', Q a K' I' -> Q' a K' I') -> wp m Q K I -> wp m Q' K I.
Proof.
  intros HQ. revert K I. induction m as [a|X section k IH|X q k IH]; intros K I; cbn; [auto| |].
  - intros H fs FK FI fs' x Hinv HK HI Hn Hs. destruct (H fs FK FI fs' x Hinv HK HI Hn Hs) as (K' & I' & ? & ? & ? & Hk).
    exists K', I'. split_ands; auto.
  - auto.
Qed.

(** The handlers that leave everything owned as it was. *)
Definition neutral {A} (m : Task A) : Prop := forall K I, wp m (fun _ K' I' => K' = K /\ I' = I) K I.

Lemma neutral_done {A} (a : A) : neutral (Done a).
Proof. intros K I. done. Qed.

Lemma neutral_bind {A B} (m : Task A) (f : A -> Task B) : neutral m -> (forall a, neutral (f a)) -> neutral (task_bind m f).
Proof.
  intros Hm Hf K I. apply wp_bind. eapply wp_mono; [|apply Hm]. intros a K' I' [-> ->]. apply Hf.
Qed.

Lemma neutral_op_bind {A B} (m : Op A) (f : A -> Op B) : neutral m -> (forall a, neutral (f a)) -> neutral (m ≫= f).
Proof. intros Hm Hf. apply neutral_bind; [done|]. intros [a|e]; [apply Hf|apply neutral_done]. Qed.

Lemma neutral_ask {X} (q : Query X) : neutral (ask q).
Proof. intros K I x. done. Qed.

(** A section keeps the accounts if it does, whatever is owned. *)
Definition keeps (fs fs' : Fs) : Prop := forall K I, fs_inv fs K I -> fs_inv fs' K I.

Lemma neutral_section {A} (section : Fs -> option (Fs * A)) :
  (forall fs fs' x, section fs = Some (fs', x) -> keeps fs fs') -> neutral (atomically_when section).
Proof.
  intros Hk K I fs FK FI fs' x Hinv HK HI _ Hs. exists K, I. split_ands; [done|done|by eapply Hk|done].
Qed.

Lemma neutral_atomically {A} (section : Fs -> Fs * A) :
  (forall fs, keeps fs (section fs).1) -> neutral (atomically section).
Proof. intros Hk. apply neutral_section. intros fs fs' x [= Hs]. specialize (Hk fs). by rewrite Hs in Hk. Qed.

Lemma keeps_refl fs : keeps fs fs.
Proof. by intros K I. Qed.

Lemma keeps_inodes fs t : keeps fs (with_inodes fs t).
Proof. intros K I [H1 H2 H3 H4 H5]. by split. Qed.

(** Replacing an object by one with the same consumer. *)
Lemma keeps_object fs fh h h' :
  fs_objects fs !! fh = Some h -> consumer_of h' = consumer_of h -> keeps fs (with_object fs fh h').
Proof.
  intros Hh Hc K I [H1 H2 H3 H4 H5].
  assert (Hr : forall fh' key, reads_for (with_object fs fh h') fh' key <-> reads_for fs fh' key).
  { intros fh' key. unfold reads_for. cbn. destruct (decide (fh' = fh)) as [->|Hne].
    - rewrite lookup_insert_eq, Hh. split; intros (Hin & x & [= <-] & Hx); (split; [done|]); eexists; (split; [done|]); congruence.
    - by rewrite lookup_insert_ne. }
  split; cbn.
  - intros key. rewrite H1. by setoid_rewrite Hr.
  - intros key fh'. rewrite Hr. apply H2.
  - intros key fh1 fh2. rewrite !Hr. apply H3.
  - intros fh' [Hs|Hs]; [|by apply H4; right]. apply H4. left. destruct (decide (fh' = fh)) as [->|Hne]; [by exists h|].
    by rewrite lookup_insert_ne in Hs.
  - intros fh' Hin. rewrite lookup_insert_ne; [by apply H5|]. intros <-. rewrite H5 in Hh by done. done.
Qed.

Create HintDb neutral.
#[export] Hint Resolve neutral_done neutral_ask keeps_refl keeps_inodes : neutral.

Lemma neutral_on_inodes {A} (f : InodeTable -> InodeTable * A) : neutral (on_inodes f).
Proof. apply neutral_atomically. intros fs. destruct (f (fs_inodes fs)). apply keeps_inodes. Qed.

Lemma neutral_on_object {A} fh (f : OpenHandle -> OpenHandle * A) absent :
  (forall h, consumer_of (f h).1 = consumer_of h) -> neutral (on_object fh f absent).
Proof.
  intros Hf. apply neutral_atomically. intros fs. destruct (fs_objects fs !! fh) as [h|] eqn:Hh; [|apply keeps_refl].
  specialize (Hf h). destruct (f h) as [h' a]. by eapply keeps_object.
Qed.

Lemma neutral_of_result {A} (r : result Errno A) : neutral (of_result r).
Proof. apply neutral_done. Qed.

Lemma neutral_ask_ok {X} (q : Query (BackendResult X)) : neutral (ask_ok q).
Proof. apply neutral_op_bind; [apply neutral_ask|]. intros r. apply neutral_done. Qed.

#[export] Hint Resolve neutral_on_inodes neutral_of_result neutral_ask_ok : neutral.

(** Follows the text of a handler: binds, branches and the sections above. *)
Ltac neutral :=
  repeat first
    [ solve [auto 2 with neutral]
    | apply neutral_op_bind; [|intros ?]
    | apply neutral_bind; [|intros ?]
    | progress (cbn beta iota zeta)
    | match goal with |- neutral (match ?x with _ => _ end) => destruct x end
    | match goal with |- neutral (let _ := _ in _) => cbn zeta end ].

(** ** The neutral handlers *)

Lemma neutral_raise {A} e : neutral (raise e : Op A).
Proof. apply neutral_done. Qed.

Lemma neutral_ret {A} (a : A) : neutral (mret a : Op A).
Proof. apply neutral_done. Qed.

Lemma neutral_read {A} (f : Fs -> A) : neutral (atomically (fun fs => (fs, f fs))).
Proof. apply neutral_atomically. intros fs. apply keeps_refl. Qed.

Lemma neutral_panic {A} message : neutral (panic message : Op A).
Proof. apply neutral_done. Qed.

#[export] Hint Resolve neutral_raise neutral_ret neutral_read neutral_panic : neutral.

Lemma neutral_inner_node ino : neutral (inner_node ino).
Proof. unfold inner_node. neutral. Qed.

Lemma neutral_inner_handle fh : neutral (inner_handle fh).
Proof. unfold inner_handle. neutral. Qed.

Lemma neutral_ensure_node n size : neutral (ensure_node n size).
Proof. apply neutral_on_inodes. Qed.

Lemma neutral_remember_node n size : neutral (remember_node n size).
Proof. apply neutral_on_inodes. Qed.

#[export] Hint Resolve neutral_inner_node neutral_inner_handle neutral_ensure_node neutral_remember_node : neutral.

Lemma neutral_state_attributes n : neutral (state_attributes n).
Proof. unfold state_attributes. neutral. Qed.

#[export] Hint Resolve neutral_state_attributes : neutral.

Lemma neutral_for_getattr n : neutral (state_attributes_for_getattr n).
Proof. unfold state_attributes_for_getattr. neutral. Qed.

Lemma neutral_child_exists parent c : neutral (child_exists parent c).
Proof. unfold child_exists. neutral. Qed.

#[export] Hint Resolve neutral_for_getattr neutral_child_exists : neutral.

Lemma neutral_lookup_child parent name : neutral (lookup_child parent name).
Proof. unfold lookup_child. neutral. Qed.

Lemma neutral_create_directory parent name : neutral (create_directory parent name).
Proof. unfold create_directory. neutral. Qed.

Lemma neutral_never {A} : neutral (never : Op A).
Proof. intros K I fs FK FI fs' x _ _ _ _. done. Qed.

#[export] Hint Resolve neutral_lookup_child neutral_create_directory neutral_never : neutral.

Lemma neutral_op_mapM {A B} (f : A -> Op B) l : (forall a, neutral (f a)) -> neutral (op_mapM f l).
Proof. intros Hf. induction l as [|a l IH]; cbn [op_mapM]; neutral. Qed.

Lemma neutral_list_states pages t token states : neutral (list_states pages t token states).
Proof. revert token states. induction pages as [|pages IH]; intros token states; cbn [list_states]; neutral. Qed.

Lemma neutral_expected_child n name : neutral (expected_child n name).
Proof. unfold expected_child. neutral. Qed.

#[export] Hint Resolve neutral_list_states neutral_expected_child : neutral.

Lemma neutral_children pages n : neutral (children pages n).
Proof. unfold children. neutral; apply neutral_op_mapM; intros ?; neutral. Qed.

#[export] Hint Resolve neutral_children : neutral.

Lemma neutral_add_children l st : neutral (add_children st l).
Proof.
  revert st. induction l as [|[[name c] size] l IH]; intros st; cbn [add_children]; neutral.
  unfold inner_retain_directory_node. neutral.
Qed.

#[export] Hint Resolve neutral_add_children : neutral.

Lemma neutral_load n st : neutral (load_next_directory_page n st).
Proof. unfold load_next_directory_page. neutral. Qed.

#[export] Hint Resolve neutral_load : neutral.

Lemma neutral_lock_directory fh : neutral (lock_directory fh).
Proof.
  apply neutral_section. intros fs fs' x. destruct (fs_objects fs !! fh) as [[n st []| | | | |]|] eqn:Hh; try done.
  intros [= <- <-]. by eapply keeps_object.
Qed.

Lemma neutral_unlock_directory fh st : neutral (unlock_directory fh st).
Proof.
  apply neutral_atomically. intros fs. destruct (fs_objects fs !! fh) as [[n st' b| | | | |]|] eqn:Hh; try apply keeps_refl.
  by eapply keeps_object.
Qed.

#[export] Hint Resolve neutral_lock_directory neutral_unlock_directory : neutral.

Lemma neutral_readdir fits ino fh offset : neutral (readdir fits ino fh offset).
Proof. unfold readdir, readdir_children. neutral. Qed.

Lemma neutral_shared_read fh offset size : neutral (shared_read fh offset size).
Proof.
  unfold shared_read. apply neutral_op_bind; [apply neutral_section|intros r; apply neutral_op_bind; [neutral|intros data]].
  - intros fs fs' x. unfold stream_object. destruct (fs_objects fs !! fh) as [[| |sh c| | |]|] eqn:Hh; try done.
    destruct (read_try sh offset size) as [sh' [[d|]|e]]; intros [= <- <-]; by eapply keeps_object.
  - apply neutral_op_bind; [|intros ?; neutral]. apply neutral_atomically. intros fs. unfold stream_object.
    destruct (fs_objects fs !! fh) as [[| |sh c| | |]|] eqn:Hh; try apply keeps_refl.
    cbn. case_if; [apply keeps_refl|]. by eapply keeps_object.
Qed.

#[export] Hint Resolve neutral_shared_read : neutral.

Lemma neutral_end_stream fh f : neutral (end_stream fh f).
Proof. apply neutral_on_object. by intros []. Qed.

Lemma neutral_shared_push fh bytes : neutral (shared_push fh bytes).
Proof.
  unfold shared_push. case_if; [apply neutral_on_object; by intros []|]. apply neutral_section.
  intros fs fs' x. unfold stream_object. destruct (fs_objects fs !! fh) as [[| |sh c| | |]|] eqn:Hh; try done.
  destruct (push_try sh bytes) as [sh' []]; intros [= <- <-]; [apply keeps_refl|by eapply keeps_object].
Qed.

#[export] Hint Resolve neutral_end_stream neutral_shared_push : neutral.

Section Handlers.
Context (mount : MountIdentity) (caps : Capabilities) `{SerdeJson}.

Lemma neutral_write fh offset data : neutral (write_request fh offset data).
Proof.
  unfold write_request. neutral. apply neutral_on_object. intros [| | |t b|t i r b|t g c b []]; cbn; try done;
    by destruct (buffered_write b offset data).
Qed.

Lemma neutral_submit {Q A} fh begin (call : Q -> Op (BackendResult A)) :
  (forall h, consumer_of (begin h).1 = consumer_of h) -> (forall q, neutral (call q)) -> neutral (submit fh begin call).
Proof.
  intros Hb Hc. unfold submit. apply neutral_op_bind; [by apply neutral_on_object|intros r]. neutral.
  apply neutral_on_object. by intros [| | | | |? ? ? ? []].
Qed.

Lemma neutral_commit fh : neutral (commit caps fh).
Proof.
  unfold commit. apply neutral_op_bind; [neutral|intros [[| | | | |]|]]; try apply neutral_ret.
  - apply neutral_op_bind; [neutral|intros fresh]. apply neutral_submit; [|intros [t' e]; apply neutral_ask].
    intros [| | |t' b| |]; cbn; try done. by destruct (buffered_begin b _).
  - apply neutral_submit; [|intros [[[t' i] rev] d]; apply neutral_ask].
    intros [| | | |t' i r b|]; cbn; try done. by destruct (buffered_begin b _).
  - apply neutral_submit; [|intros [[[t' g] c] e]; neutral].
    intros [| | | | |t' g c b []]; cbn; try done. by destruct (buffered_begin b _) as [b' [r|[e|[e|m]]]].
Qed.

End Handlers.
#[export] Hint Resolve neutral_write neutral_commit neutral_readdir : neutral.

(** ** Opening and releasing *)

(** A task takes a handle number. *)
Lemma inv_take_number fs K I :
  fs_inv fs K I -> (fs_next_handle fs < u64_max)%N ->
  fs_next_handle fs ∉ I /\
  fs_inv (mkFs (fs_inodes fs) (fs_objects fs) (fs_handles fs) (wrapping_add_u64 (fs_next_handle fs) 1)
            (fs_active_consumers fs)) K ({[fs_next_handle fs]} ∪ I).
Proof.
  intros [H1 H2 H3 H4 H5] Hn.
  assert (Hw : wrapping_add_u64 (fs_next_handle fs) 1 = (fs_next_handle fs + 1)%N)
    by (unfold wrapping_add_u64; rewrite N.mod_small; lia).
  split; [intros Hin; specialize (H4 _ (or_intror Hin)); lia|].
  split; cbn [fs_active_consumers fs_handles fs_objects fs_next_handle]; try done.
  - rewrite Hw. intros fh [Ho|[->%elem_of_singleton|Hi]%elem_of_union]; [|lia|].
    + specialize (H4 fh (or_introl Ho)). lia.
    + specialize (H4 fh (or_intror Hi)). lia.
  - intros fh [->%elem_of_singleton|Hi]%elem_of_union; [|by apply H5].
    destruct (fs_objects fs !! fs_next_handle fs) as [h|] eqn:E; [|done].
    specialize (H4 _ (or_introl (mk_is_Some _ _ E))). lia.
Qed.

Definition without (K : gset ConsumerKey) (o : option ConsumerKey) : gset ConsumerKey :=
  match o with Some key => K ∖ {[key]} | None => K end.

Definition along (K : gset ConsumerKey) (o : option ConsumerKey) : gset ConsumerKey :=
  match o with Some key => {[key]} ∪ K | None => K end.

(** The handle behind a number a task owns; its consumer passes to the handle. *)
Lemma inv_put_handle fs K I id h :
  fs_inv fs (along K (consumer_of h)) ({[id]} ∪ I) -> id ∉ I -> (forall key, consumer_of h = Some key -> key ∉ K) ->
  fs_inv (mkFs (fs_inodes fs) (<[id := h]> (fs_objects fs)) ({[id]} ∪ fs_handles fs) (fs_next_handle fs)
            (fs_active_consumers fs)) K I.
Proof.
  intros [H1 H2 H3 H4 H5] Hid Hkey. assert (Hnone : fs_objects fs !! id = None) by (apply H5; set_solver).
  set (fs' := mkFs _ _ _ _ _).
  assert (Hr : forall fh key, reads_for fs' fh key <-> reads_for fs fh key \/ (fh = id /\ consumer_of h = Some key)).
  { intros fh key. unfold reads_for, fs'. cbn. rewrite elem_of_union, elem_of_singleton. destruct (decide (fh = id)) as [->|Hne].
    - rewrite lookup_insert_eq, Hnone. naive_solver.
    - rewrite lookup_insert_ne by done. naive_solver. }
  assert (Hown : forall key fh, consumer_of h = Some key -> ~ reads_for fs fh key).
  { intros key fh Hc. apply H2. rewrite Hc. cbn. set_solver. }
  split.
  - intros key. change (fs_active_consumers fs') with (fs_active_consumers fs). rewrite H1. setoid_rewrite Hr.
    destruct (consumer_of h) as [k|] eqn:Hc; cbn [along]; [rewrite elem_of_union, elem_of_singleton|]; naive_solver.
  - intros key fh HK. rewrite Hr. intros [Hrd|[_ Hc]]; [|by eapply Hkey]. revert Hrd. apply H2.
    destruct (consumer_of h); cbn; set_solver.
  - intros key fh1 fh2. rewrite !Hr. intros [Ha|[-> Ha]] [Hb|[-> Hb]]; [by eapply H3| | |done].
    + by destruct (Hown key fh1 Hb).
    + by destruct (Hown key fh2 Ha).
  - intros fh [Ho|Hi]; [|apply H4; right; set_solver]. apply H4. cbn in Ho.
    destruct (decide (fh = id)) as [->|Hne]; [right; set_solver|]. rewrite lookup_insert_ne in Ho by done. by left.
  - intros fh Hi. cbn. rewrite lookup_insert_ne by (intros ->; done). apply H5. set_solver.
Qed.

(** Marking a consumer active. *)
Lemma inv_mark fs K I key :
  fs_inv fs K I -> key ∉ fs_active_consumers fs ->
  key ∉ K /\ fs_inv (mkFs (fs_inodes fs) (fs_objects fs) (fs_handles fs) (fs_next_handle fs)
                       ({[key]} ∪ fs_active_consumers fs)) ({[key]} ∪ K) I.
Proof.
  intros [H1 H2 H3 H4 H5] Hk. split; [intros Hin; apply Hk, H1; by left|].
  split; cbn [fs_active_consumers fs_handles fs_objects fs_next_handle]; try done.
  - intros k. rewrite !elem_of_union. specialize (H1 k). split; [intros [?|?%H1]|intros [[?|?]|?]]; tauto.
  - intros k fh [->%elem_of_singleton|Hin]%elem_of_union Hr; [|by eapply H2]. apply Hk, H1. right. by exists fh.
Qed.

Lemma inv_unmark fs K I key :
  fs_inv fs ({[key]} ∪ K) I -> key ∉ K ->
  fs_inv (mkFs (fs_inodes fs) (fs_objects fs) (fs_handles fs) (fs_next_handle fs) (fs_active_consumers fs ∖ {[key]})) K I.
Proof.
  intros [H1 H2 H3 H4 H5] Hk. split; cbn [fs_active_consumers fs_handles fs_objects fs_next_handle]; try done.
  - intros k. rewrite elem_of_difference, H1, elem_of_union, elem_of_singleton. split.
    + intros [[[->|Hin]|Hr] Hne]; [done|by left|by right].
    + intros [Hin|[fh Hr]].
      * split; [by left; right|by intros ->].
      * split; [right; by exists fh|]. intros ->. eapply (H2 key fh); [set_solver|exact Hr].
  - intros k fh Hin. apply H2. set_solver.
Qed.

(** Closing a handle; its consumer passes to the task. *)
Lemma inv_close fs K I fh :
  fs_inv fs K I ->
  let o := open_object fs fh ≫= consumer_of in
  (forall key, o = Some key -> key ∉ K) /\
  fs_inv (mkFs (fs_inodes fs) (fs_objects fs) (fs_handles fs ∖ {[fh]}) (fs_next_handle fs) (fs_active_consumers fs))
    (along K o) I.
Proof.
  intros [H1 H2 H3 H4 H5] o. set (fs' := mkFs _ _ _ _ _).
  assert (Ho : forall key, o = Some key <-> reads_for fs fh key).
  { intros key. unfold o, open_object, reads_for. case_bool_decide; [|naive_solver].
    destruct (fs_objects fs !! fh) as [h|]; cbn; naive_solver. }
  assert (Hr : forall fh' key, reads_for fs' fh' key <-> reads_for fs fh' key /\ fh' <> fh).
  { intros fh' key. unfold reads_for, fs'. cbn. rewrite elem_of_difference, elem_of_singleton. tauto. }
  split; [intros key Hk Hin; apply Ho in Hk; by eapply H2|].
  split; try done.
  - intros key. change (fs_active_consumers fs') with (fs_active_consumers fs). rewrite H1. setoid_rewrite Hr. split.
    + intros [HK|[fh' Hrd]]; [left; destruct o; cbn; set_solver|].
      destruct (decide (fh' = fh)) as [->|Hne]; [|right; by exists fh'].
      apply Ho in Hrd. rewrite Hrd. cbn. left. set_solver.
    + intros [HK|[fh' [Hrd _]]]; [|right; by exists fh'].
      destruct o as [k|] eqn:Eo; cbn in HK; [|by left]. apply elem_of_union in HK as [->%elem_of_singleton|HK]; [|by left].
      right. exists fh. by apply Ho.
  - intros key fh' HK. rewrite Hr. intros [Hrd Hne]. destruct o as [k|] eqn:Eo; cbn in HK; [|by eapply H2].
    apply elem_of_union in HK as [->%elem_of_singleton|HK]; [|by eapply H2].
    apply Hne. eapply H3; [exact Hrd|]. by apply Ho.
  - intros key fh1 fh2. rewrite !Hr. intros [Ha _] [Hb _]. by eapply H3.
Qed.

(** ** Handlers that take and give back *)

(** Owning nothing before and after. *)
Definition safe {A} (m : Task A) : Prop := wp m (fun _ K I => K = ∅ /\ I = ∅) ∅ ∅.

Lemma neutral_safe {A} (m : Task A) : neutral m -> safe m.
Proof. intros Hm. apply Hm. Qed.

Lemma safe_op_bind {A B} (m : Op A) (f : A -> Op B) : safe m -> (forall a, safe (f a)) -> safe (m ≫= f).
Proof.
  intros Hm Hf. apply wp_bind. eapply wp_mono; [|exact Hm]. intros [a|e] K I [-> ->]; [apply Hf|done].
Qed.

Lemma wp_insert_handle h Q :
  (forall id, Q (Ok id) ∅ ∅) -> wp (insert_handle h) Q (along ∅ (consumer_of h)) ∅.
Proof.
  intros HQ fs FK FI fs' x Hinv HK HI Hn [= <- <-]. apply inv_take_number in Hinv as [Hfresh Hinv]; [|done].
  exists (along ∅ (consumer_of h)), {[fs_next_handle fs]}. rewrite (left_id_L ∅ (∪)) in Hfresh, Hinv.
  split_ands; [done|set_solver|done|]. generalize (fs_next_handle fs). clear -HQ. intros id.
  intros fs FK' FI' fs' x Hinv HK HI Hn [= <- <-]. exists ∅, ∅. rewrite !(left_id_L ∅ (∪)).
  split_ands; [set_solver|set_solver| |apply HQ].
  apply inv_put_handle; [|set_solver|].
  - destruct (consumer_of h); cbn [along] in *; [|by rewrite (left_id_L ∅ (∪)) in Hinv]. by rewrite (right_id_L ∅ (∪)) in Hinv.
  - intros key Hk. rewrite Hk in HK. cbn in HK. set_solver.
Qed.

Lemma safe_insert_handle h : consumer_of h = None -> safe (insert_handle h).
Proof. intros Hh. pose proof (wp_insert_handle h (fun _ K I => K = ∅ /\ I = ∅)) as Hwp. rewrite Hh in Hwp. by apply Hwp. Qed.

Create HintDb safe.
#[export] Hint Resolve safe_insert_handle neutral_safe : safe.

Ltac safe :=
  repeat first
    [ solve [apply neutral_safe; auto 2 with neutral]
    | solve [auto 2 with safe]
    | apply safe_op_bind; [|intros ?]
    | progress (cbn beta iota zeta)
    | match goal with |- safe (match ?x with _ => _ end) => destruct x end ].

Section SafeHandlers.
Context (mount : MountIdentity) (caps : Capabilities) `{SerdeJson}.

(** The open of a consumer file marks the consumer first. *)
Lemma safe_open_consumer key :
  safe (inserted ← (atomically (fun fs =>
        (mkFs (fs_inodes fs) (fs_objects fs) (fs_handles fs) (fs_next_handle fs) ({[key]} ∪ fs_active_consumers fs),
         negb (bool_decide (key ∈ fs_active_consumers fs)))) : Op bool);
      if negb inserted then raise EBUSY
      else
        fh ← insert_handle (HStreamingRead shared_new (Some key));
        mret (fh, direct, None : option N)).
Proof.
  intros fs FK FI fs' x Hinv HK HI Hn [= <- <-]. rewrite !(left_id_L ∅ (∪)) in Hinv.
  case_bool_decide as Hact; cbn [negb].
  - exists ∅, ∅. rewrite !(left_id_L ∅ (∪)). split_ands; try done. destruct fs as [t o hs nx act]; cbn in *.
    by replace ({[key]} ∪ act) with act by set_solver.
  - apply inv_mark with (key := key) in Hinv as [Hkey Hinv]; [|done]. exists {[key]}, ∅.
    rewrite (left_id_L ∅ (∪)). split_ands; [set_solver|set_solver|done|]. apply (wp_bind (insert_handle _)).
    replace {[key]} with (along ∅ (consumer_of (HStreamingRead shared_new (Some key)))) by (cbn; set_solver).
    by apply wp_insert_handle.
Qed.

Lemma safe_open_handle n mode : safe (open_handle caps n mode).
Proof.
  unfold open_handle. destruct (is_directory n); [safe|].
  destruct mode, n; try (unfold type_of_names; safe; fail).
  unfold type_of_names. apply safe_op_bind; [safe|intros t]. apply safe_open_consumer.
Qed.

Lemma safe_opendir ino : safe (opendir ino).
Proof. unfold opendir. safe. Qed.

#[local] Hint Resolve safe_open_handle : safe.

Lemma safe_open_request ino mode : safe (open_request caps ino mode).
Proof. unfold open_request. safe. Qed.

Lemma safe_create_request parent name mode : safe (create_request mount caps parent name mode).
Proof. unfold create_request. safe. Qed.

(** Closing a handle: its consumer passes to the task. *)
Lemma wp_close fh {A} (k : option OpenHandle -> Task A) Q :
  (forall found, wp (k found) Q (along ∅ (found ≫= consumer_of)) ∅) ->
  wp (Lock (fun fs => Some (mkFs (fs_inodes fs) (fs_objects fs) (fs_handles fs ∖ {[fh]}) (fs_next_handle fs)
                              (fs_active_consumers fs), open_object fs fh)) k) Q ∅ ∅.
Proof.
  intros Hk fs FK FI fs' x Hinv HK HI Hn [= <- <-]. apply inv_close with (fh := fh) in Hinv as [Hkey Hinv].
  exists (along ∅ (open_object fs fh ≫= consumer_of)), ∅. rewrite !(left_id_L ∅ (∪)) in *. split_ands; [|done| |apply Hk].
  - destruct (open_object fs fh ≫= consumer_of) as [key|]; cbn; [|set_solver]. specialize (Hkey key eq_refl). set_solver.
  - destruct (open_object fs fh ≫= consumer_of) as [key|]; cbn in *; [by rewrite (right_id_L ∅ (∪))|by rewrite (left_id_L ∅ (∪))].
Qed.

Lemma wp_unmark key {A} (k : unit -> Task A) Q :
  wp (k tt) Q ∅ ∅ ->
  wp (Lock (fun fs => Some (mkFs (fs_inodes fs) (fs_objects fs) (fs_handles fs) (fs_next_handle fs)
                              (fs_active_consumers fs ∖ {[key]}), tt)) k) Q {[key]} ∅.
Proof.
  intros Hk fs FK FI fs' x Hinv HK HI Hn [= <- <-]. exists ∅, ∅. rewrite !(left_id_L ∅ (∪)) in *.
  split_ands; [set_solver|done| |done]. apply inv_unmark; [done|set_solver].
Qed.

Lemma wp_end_stream fh f K I : wp (end_stream fh f) (fun r K' I' => r = Ok tt /\ K' = K /\ I' = I) K I.
Proof.
  intros fs FK FI fs' [] Hinv HK HI Hn Hs. exists K, I. split_ands; try done.
  cbn in Hs. destruct (fs_objects fs !! fh) as [h|] eqn:Hh; [|congruence].
  destruct h; injection Hs as <-; by eapply keeps_object.
Qed.

(** [release] lets go of the consumer after the handle. *)
Lemma safe_release fh : safe (release caps fh).
Proof.
  apply wp_close. intros [h|]; cbn [ok_or mbind option_bind]; [|done].
  assert (Hc : safe (commit caps fh)) by apply neutral_safe, neutral_commit.
  destruct h as [| |sh [key|]| | |]; try exact Hc.
  - apply (wp_bind (end_stream fh shared_close ≫= _)), wp_bind. eapply wp_mono; [|apply wp_end_stream].
    intros r K I (-> & -> & ->). replace (along _ _) with ({[key]} : gset ConsumerKey) by (cbn; set_solver). by apply wp_unmark.
  - apply (wp_bind (end_stream fh shared_close ≫= _)), wp_bind. eapply wp_mono; [|apply wp_end_stream].
    by intros r K I (-> & -> & ->).
Qed.

Lemma neutral_releasedir fh : neutral (releasedir fh).
Proof.
  unfold releasedir. apply neutral_op_bind; [apply neutral_atomically|].
  - intros fs K I Hinv. pose proof (inv_close fs K I fh Hinv) as [_ Hclose].
    by destruct (open_object fs fh) as [[| | | | |]|].
  - intros found. unfold release_directory_nodes. neutral.
Qed.

Lemma neutral_lookup_request parent name : neutral (lookup_request mount parent name).
Proof. unfold lookup_request. neutral. Qed.

Lemma neutral_getattr ino : neutral (getattr mount ino).
Proof. unfold getattr. neutral. Qed.

Lemma neutral_mkdir parent name : neutral (mkdir mount parent name).
Proof. unfold mkdir. neutral. Qed.

Lemma neutral_read_request fh offset size : neutral (read_request fh offset size).
Proof. unfold read_request. neutral. Qed.

Lemma neutral_flush fh : neutral (flush caps fh).
Proof. unfold flush. neutral. Qed.

Lemma neutral_fsync fh : neutral (fsync caps fh).
Proof. unfold fsync. neutral. Qed.

Lemma neutral_poll fh schedule_notify : neutral (poll fh schedule_notify).
Proof.
  unfold poll. neutral. apply neutral_on_object. intros [| |sh c| | |]; try done.
  destruct schedule_notify; [by destruct (ready_or_register sh)|done].
Qed.

Lemma neutral_follow_turn fh receiver : neutral (follow_turn fh receiver).
Proof. unfold follow_turn. neutral. Qed.

Lemma neutral_push_fetched fh l unacked : neutral (push_fetched fh l unacked).
Proof. revert unacked. induction l as [|d l IH]; intros unacked; cbn [push_fetched]; neutral. Qed.

#[local] Hint Resolve neutral_push_fetched : neutral.

Lemma neutral_group_turn fh key unacked timer_first : neutral (group_turn fh key unacked timer_first).
Proof. destruct key as [t g c]. unfold group_turn. neutral. Qed.

End SafeHandlers.

(** ** The requests of a mount *)

Section Requests.
Context (mount : MountIdentity) (caps : Capabilities) (fits : list ReplyEntry -> ReplyEntry -> bool) `{SerdeJson}.

(** What runs as a task: the handlers of [Filesystem], and the turns of the
    readers that fill streams. *)
Inductive fuse_request : Thread -> Prop :=
| RqLookup parent name : fuse_request (mkThread (lookup_request mount parent name))
| RqForget ino nlookup : fuse_request (mkThread (forget_request ino nlookup))
| RqGetattr ino : fuse_request (mkThread (getattr mount ino))
| RqMkdir parent name : fuse_request (mkThread (mkdir mount parent name))
| RqRefuse : fuse_request (mkThread refuse)
| RqOpen ino mode : fuse_request (mkThread (open_request caps ino mode))
| RqCreate parent name mode : fuse_request (mkThread (create_request mount caps parent name mode))
| RqRead fh offset size : fuse_request (mkThread (read_request fh offset size))
| RqWrite fh offset data : fuse_request (mkThread (write_request fh offset data))
| RqFlush fh : fuse_request (mkThread (flush caps fh))
| RqFsync fh : fuse_request (mkThread (fsync caps fh))
| RqRelease fh : fuse_request (mkThread (release caps fh))
| RqPoll fh schedule_notify : fuse_request (mkThread (poll fh schedule_notify))
| RqOpendir ino : fuse_request (mkThread (opendir ino))
| RqReaddir ino fh offset : fuse_request (mkThread (readdir fits ino fh offset))
| RqReleasedir fh : fuse_request (mkThread (releasedir fh))
| RqFollow fh receiver : fuse_request (mkThread (follow_turn fh receiver))
| RqGroup fh key unacked timer_first : fuse_request (mkThread (group_turn fh key unacked timer_first)).

Lemma fuse_request_safe t : fuse_request t -> safe_thread t ∅ ∅.
Proof.
  destruct 1;
    [apply neutral_safe|apply neutral_safe|apply neutral_safe|apply neutral_safe|apply neutral_safe|apply safe_open_request
    |apply safe_create_request|apply neutral_safe|apply neutral_safe|apply neutral_safe|apply neutral_safe|apply safe_release|apply neutral_safe
    |apply safe_opendir|apply neutral_safe..];
    auto using neutral_lookup_request, neutral_getattr, neutral_mkdir, neutral_read_request, neutral_flush, neutral_fsync, neutral_poll,
      neutral_releasedir, neutral_follow_turn, neutral_group_turn with neutral.
  - apply neutral_on_inodes.
  - apply neutral_raise.
Qed.

(** The tasks under way own disjoint parts. *)
Inductive owned : list Thread -> gset ConsumerKey -> gset N -> Prop :=
| OwnedNil : owned [] ∅ ∅
| OwnedCons t l K I K' I' :
    safe_thread t K I -> owned l K' I' -> K ## K' -> I ## I' -> owned (t :: l) (K ∪ K') (I ∪ I').

Lemma owned_middle l1 t l2 K I :
  owned (l1 ++ t :: l2) K I <->
  exists Kt It K' I', safe_thread t Kt It /\ owned (l1 ++ l2) K' I' /\ Kt ## K' /\ It ## I' /\ K = Kt ∪ K' /\ I = It ∪ I'.
Proof.
  revert K I. induction l1 as [|t1 l1 IH]; intros K I; cbn [app].
  - split; [|intros (Kt & It & K' & I' & ? & ? & ? & ? & -> & ->); by constructor].
    inversion 1; subst. eexists _, _, _, _. by split_ands.
  - split.
    + inversion 1 as [|? ? K1 I1 K2 I2 Ht1 Hl]; subst. apply IH in Hl as (Kt & It & K' & I' & ? & ? & ? & ? & -> & ->).
      exists Kt, It, (K1 ∪ K'), (I1 ∪ I'). split_ands; [done|constructor; [done|done|set_solver..]|set_solver..].
    + intros (Kt & It & K2 & I2 & Ht & Hl & HK & HI & -> & ->). inversion Hl as [|? ? K1 I1 K' I' Ht1 Hl']; subst.
      replace (Kt ∪ (K1 ∪ K')) with (K1 ∪ (Kt ∪ K')) by set_solver. replace (It ∪ (I1 ∪ I')) with (I1 ∪ (It ∪ I')) by set_solver.
      constructor; [done| |set_solver..]. apply IH. exists Kt, It, K', I'. split_ands; [done|done|set_solver..].
Qed.

Definition pool_inv (p : Pool) : Prop := exists K I, owned (po_threads p) K I /\ fs_inv (po_fs p) K I.

Lemma fs_new_inv : fs_inv fs_new ∅ ∅.
Proof.
  assert (Hr : forall fh key, ~ reads_for fs_new fh key) by (intros fh key [Hin _]; set_solver).
  split; cbn [fs_new fs_active_consumers fs_objects fs_next_handle].
  - intros key. split; [set_solver|]. intros [Hin|[fh Hrd]]; [done|by apply Hr in Hrd].
  - set_solver.
  - intros key fh1 fh2 Hrd. by apply Hr in Hrd.
  - intros fh [[h Hh]|Hin]; [by rewrite lookup_empty in Hh|set_solver].
  - set_solver.
Qed.

Lemma pool_inv_step p p' : pool_step fuse_request p p' -> pool_inv p -> pool_inv p'.
Proof.
  intros Hstep (K & I & Hown & Hinv). destruct Hstep as [fs l t Ht|fs l1 l2 A X section k fs' x Hn Hs|fs l1 l2 A X q k x|fs l1 l2 A a];
    cbn [po_threads po_fs] in *.
  - exists (∅ ∪ K), (∅ ∪ I). split; [|by rewrite !(left_id_L ∅ (∪))].
    constructor; [by apply fuse_request_safe|done|set_solver..].
  - apply owned_middle in Hown as (Kt & It & K' & I' & Ht & Hl & HK & HI & -> & ->).
    destruct (Ht fs K' I' fs' x Hinv HK HI Hn Hs) as (Kt' & It' & HK' & HI' & Hinv' & Hk).
    exists (Kt' ∪ K'), (It' ∪ I'). split; [|done]. apply owned_middle. exists Kt', It', K', I'. by split_ands.
  - apply owned_middle in Hown as (Kt & It & K' & I' & Ht & Hl & HK & HI & -> & ->).
    exists (Kt ∪ K'), (It ∪ I'). split; [|done]. apply owned_middle. exists Kt, It, K', I'. split_ands; try done. apply Ht.
  - apply owned_middle in Hown as (Kt & It & K' & I' & [-> ->] & Hl & HK & HI & -> & ->).
    exists K', I'. rewrite !(left_id_L ∅ (∪)) in Hinv. done.
Qed.

Lemma pool_inv_reachable p : pool_reachable fuse_request p -> pool_inv p.
Proof.
  intros Hr. assert (Hp : pool_inv (mkPool fs_new [])) by (exists ∅, ∅; split; [constructor|apply fs_new_inv]).
  unfold pool_reachable in Hr. revert Hp. induction Hr; [done|eauto using pool_inv_step].
Qed.

(** C12: However the handlers of a mount and its stream readers are interleaved,
    and whatever the backend answers, at most one open handle reads for a
    consumer; while one does, the consumer is active, so that a further open is
    refused; and when no request is under way the active consumers are exactly
    those of the open handles, so that none stays blocked. *)
Theorem consumer_exclusive p :
  pool_reachable fuse_request p ->
  (forall key fh1 fh2, reads_for (po_fs p) fh1 key -> reads_for (po_fs p) fh2 key -> fh1 = fh2) /\
  (forall key fh, reads_for (po_fs p) fh key -> key ∈ fs_active_consumers (po_fs p)) /\
  (po_threads p = [] -> forall key, key ∈ fs_active_consumers (po_fs p) <-> exists fh, reads_for (po_fs p) fh key).
Proof.
  intros Hr. destruct (pool_inv_reachable p Hr) as (K & I & Hown & Hinv). split_ands.
  - apply (fi_unique _ _ _ Hinv).
  - intros key fh Hrd. apply (fi_active _ _ _ Hinv). right. by exists fh.
  - intros Hl key. rewrite Hl in Hown. inversion Hown; subst. rewrite (fi_active _ _ _ Hinv). set_solver.
Qed.

(** A request served alone is one of the interleavings. *)
Fixpoint serve {A} (backend : forall X, Query X -> X) (m : Task A) (fs : Fs) : option (Fs * A) :=
  match m with
  | Done a => Some (fs, a)
  | Lock section k =>
      if (fs_next_handle fs <? u64_max)%N then '(fs', x) ← section fs; serve backend (k x) fs' else None
  | Ask q k => serve backend (k (backend _ q)) fs
  end.

Lemma serve_in_pool {A} backend (m : Task A) fs fs' a l :
  serve backend m fs = Some (fs', a) -> rtc (pool_step fuse_request) (mkPool fs (mkThread m :: l)) (mkPool fs' l).
Proof.
  revert fs. induction m as [b|X section k IH|X q k IH]; intros fs; cbn [serve].
  - intros [= -> ->]. apply rtc_once. apply (PsDone _ _ [] l).
  - destruct (fs_next_handle fs <? u64_max)%N eqn:Hn; [|done]. destruct (section fs) as [[fs1 x]|] eqn:Hs; [|done].
    intros Hk. eapply rtc_l; [|by apply IH]. apply (PsLock _ _ [] l); [by apply N.ltb_lt|done].
  - intros Hk. eapply rtc_l; [|by eapply IH]. apply (PsAnswer _ _ [] l).
Qed.

Lemma serve_reachable {A} backend (m : Task A) fs fs' a :
  pool_reachable fuse_request (mkPool fs []) -> fuse_request (mkThread m) -> serve backend m fs = Some (fs', a) ->
  pool_reachable fuse_request (mkPool fs' []).
Proof.
  intros Hr Hm Hs. unfold pool_reachable in *. etrans; [exact Hr|]. eapply rtc_l; [by apply PsRequest|]. by eapply serve_in_pool.
Qed.

End Requests.

(** ** A session *)

Definition demo_backend (X : Type) (q : Query X) : X :=
  match q with
  | QListTypes => Ok [mkAggregateType "sales" "order"]
  | QRegister _ _ => Ok tt
  | QAppend _ _ => Ok 1%N
  | QFollow _ => Ok 7%N
  | QReceive _ => None
  | QListStatesPage _ _ _ => Ok (mkStatePage [] [])
  | QGetState _ _ => Ok None
  | QPutState _ _ _ data => Err (BeUnavailable "no quorum")
  | QListGroups _ => Ok ["billing"]
  | QCreateGroup _ _ _ => Ok tt
  | QFetch _ _ _ => Err (BeTimeout "no delivery")
  | QSettle _ _ _ _ => Ok []
  | QRenew _ _ _ _ => Ok []
  | QNewUuid => 5%N
  | QUnixMillis => 1000%N
  end.

Definition demo_mount : MountIdentity := mkMount 1000 1000.
Definition demo_caps : Capabilities := mkCapabilities 65536 65536.
Definition demo_fits (l : list ReplyEntry) (e : ReplyEntry) : bool := true.

Definition demo_request : Thread -> Prop := @fuse_request demo_mount demo_caps demo_fits demo_serde.

Definition demo_key : ConsumerKey := mkConsumerKey (mkAggregateType "sales" "order") "billing" "worker".

(** The directories of a group, and a consumer file opened for reading. *)
Definition demo_session : option Fs :=
  let served {A} (m : Task A) (fs : Fs) := fst <$> serve demo_backend m fs in
  fs ← served (mkdir demo_mount 1 (Some "sales")) fs_new;
  fs ← served (mkdir demo_mount 2 (Some "order")) fs;
  fs ← served (lookup_request demo_mount 3 (Some "groups")) fs;
  fs ← served (mkdir demo_mount 4 (Some "billing")) fs;
  served (create_request demo_mount demo_caps 5 (Some "worker.jsonl") O_RDONLY) fs.

Lemma demo_session_reachable fs : demo_session = Some fs -> pool_reachable demo_request (mkPool fs []).
Proof.
  intros Hs. unfold demo_session in Hs.
  apply bind_Some in Hs as (fs1 & ((f1 & a1) & H1 & ->)%fmap_Some & Hs).
  apply bind_Some in Hs as (fs2 & ((f2 & a2) & H2 & ->)%fmap_Some & Hs).
  apply bind_Some in Hs as (fs3 & ((f3 & a3) & H3 & ->)%fmap_Some & Hs).
  apply bind_Some in Hs as (fs4 & ((f4 & a4) & H4 & ->)%fmap_Some & Hs).
  apply fmap_Some in Hs as ((f5 & a5) & H5 & ->).
  eapply serve_reachable; [|apply RqCreate|exact H5].
  eapply serve_reachable; [|apply RqMkdir|exact H4].
  eapply serve_reachable; [|apply RqLookup|exact H3].
  eapply serve_reachable; [|apply RqMkdir|exact H2].
  eapply serve_reachable; [|apply RqMkdir|exact H1]. apply rtc_refl.
Qed.

Definition demo_open : Fs := default fs_new demo_session.

Lemma demo_session_open : demo_session = Some demo_open.
Proof.
  assert (Hs : is_Some demo_session).
  { assert (Hb : bool_decide (is_Some demo_session) = true) by (vm_compute; reflexivity). by apply bool_decide_eq_true in Hb. }
  unfold demo_open. by destruct Hs as [fs ->].
Qed.

Lemma demo_open_reads : reads_for demo_open 1 demo_key.
Proof.
  assert (Hb : bool_decide (1%N ∈ fs_handles demo_open) && bool_decide (fs_objects demo_open !! 1%N ≫= consumer_of = Some demo_key) = true)
    by (vm_compute; reflexivity).
  apply andb_true_iff in Hb as [H1%bool_decide_eq_true H2%bool_decide_eq_true]. split; [done|]. by apply bind_Some in H2.
Qed.

Lemma consumer_exclusive_witness :
  reads_for demo_open 1 demo_key /\ demo_key ∈ fs_active_consumers demo_open /\
  forall fh, reads_for demo_open fh demo_key -> fh = 1%N.
Proof.
  pose proof (consumer_exclusive demo_mount demo_caps demo_fits (mkPool demo_open [])
    (demo_session_reachable _ demo_session_open)) as (Hu & Ha & _).
  split_ands; [exact demo_open_reads|exact (Ha _ _ demo_open_reads)|].
  intros fh Hfh. exact (Hu _ _ _ Hfh demo_open_reads).
Defined.
