(* ===== verification/FuseListing.v ===== *)
(** * eventfs-fuse: listing directories

    What the kernel gets when it lists a directory of a mount: [opendir], then
    [readdir] from the offset of the last entry until a reply has no entries
    ([list_directory]). A directory of state documents is listed completely,
    page by page; every other directory shows only [.] and [..]. *)

From S2P Require Import Prelude.
From S2P Require Import Bytes.
From S2P Require Import Core.
From S2P Require Import Aggregate.
From S2P Require Import FusePath.
From S2P Require Import FuseHandle.
From S2P Require Import FuseCodec.
From S2P Require Import FuseInodes.
From S2P Require Import FuseBackend.
From S2P Require Import FuseStream.
From S2P Require Import Fuse.

(** ** Running tasks alone *)

Lemma run_task_bind {W A B} backend (m : Task A) (f : A -> Task B) fs (w : W) :
  run backend (task_bind m f) fs w =
    ('(fs', w', a) ← run backend m fs w; run backend (f a) fs' w').
Proof.
  revert fs w. induction m as [a|X section k IH|X q k IH]; intros fs w; cbn; [done| |].
  - destruct (section fs) as [[fs' x]|]; [apply IH|done].
  - destruct (backend X q w) as [w' x]. apply IH.
Qed.

Lemma run_op_bind {W A B} backend (m : Op A) (f : A -> Op B) fs (w : W) :
  run backend (m ≫= f) fs w =
    ('(fs', w', r) ← run backend m fs w;
     match r with Ok a => run backend (f a) fs' w' | Err e => Some (fs', w', Err e) end).
Proof.
  unfold mbind, op_bind. rewrite run_task_bind. destruct (run backend m fs w) as [[[fs' w'] [a|e]]|]; done.
Qed.

(** ** Inodes *)

(** The inode [ino] is [n] and will not be given out again. *)
Definition known (fs : Fs) (ino : N) (n : Node) : Prop :=
  table_node (fs_inodes fs) ino = Some n /\ (ino < it_next (fs_inodes fs) <= u64_max)%N.

(** Only inodes were added. *)
Definition extends (fs fs' : Fs) : Prop :=
  fs_objects fs' = fs_objects fs /\ fs_handles fs' = fs_handles fs /\ forall ino n, known fs ino n -> known fs' ino n.

#[export] Instance extends_preorder : PreOrder extends.
Proof.
  split; [by intros fs|]. intros fs1 fs2 fs3 (H1 & H2 & H3) (H4 & H5 & H6). unfold extends. split_ands; [congruence|congruence|].
  intros ino n Hk. by apply H6, H3.
Qed.

Lemma extends_ensure fs node size : extends fs (with_inodes fs (ensure (fs_inodes fs) node size).1).
Proof.
  unfold extends. split_ands; [done|done|]. intros ino n [Hn Hlt]. unfold known, table_node, ensure in *. cbn.
  destruct (it_by_node (fs_inodes fs) !! node); cbn; [done|]. rewrite lookup_insert_ne by lia.
  split; [done|]. unfold saturating_add_u64. lia.
Qed.

Lemma extends_retain_node fs node size : extends fs (with_inodes fs (retain_directory_node (fs_inodes fs) node size).1).
Proof.
  pose proof (extends_ensure fs node size) as (H1 & H2 & H3). unfold retain_directory_node.
  unfold extends. split_ands; [done|done|]. intros ino n Hk. specialize (H3 _ _ Hk). by destruct (ensure (fs_inodes fs) node size).
Qed.

Lemma extends_retain fs ino : extends fs (with_inodes fs (retain_directory (fs_inodes fs) ino)).
Proof. unfold extends. by split_ands. Qed.

Lemma run_ensure_node {W} backend fs (w : W) node size :
  exists ino fs', run backend (ensure_node node size) fs w = Some (fs', w, Ok ino) /\ extends fs fs'.
Proof.
  pose proof (extends_ensure fs node size) as He. cbn. destruct (ensure (fs_inodes fs) node size) as [t ino]. by eexists _, _.
Qed.

(** ** Replies *)

Definition entry_names (l : list ReplyEntry) : list string := map re_name l.

(** The kernel goes on at the offset of the last entry. *)
Definition ends_at (l : list ReplyEntry) (o : N) : Prop := forall e, last l = Some e -> re_offset e = o.

Section Listing.
Context {W : Type} (backend : forall X, Query X -> W -> W * X) (fits : list ReplyEntry -> ReplyEntry -> bool).

(** A reply has room for at least one entry. *)
Context (roomy : forall e, fits [] e = true).

Lemma emit_spec l : forall acc index acc' full,
  emit fits acc index l = (acc', full) -> ends_at acc (index + 2) ->
  exists m, m <= length l /\ entry_names acc' = entry_names acc ++ take m (map de_name l) /\
    (if full then m < length l else m = length l) /\ ends_at acc' (index + 2 + N.of_nat m) /\ (acc = [] -> l <> [] -> 1 <= m).
Proof.
  induction l as [|e l IH]; intros acc index acc' full; cbn [emit].
  - intros [= <- <-] He. exists 0. cbn. rewrite app_nil_r, N.add_0_r. split_ands; [lia|done..].
  - unfold reply_add. destruct (fits acc _) eqn:Hf.
    + intros He Hend. apply IH in He as (m & Hm & Hn & Hfull & Hends & _).
      * exists (S m). cbn [length map take]. unfold entry_names in *. rewrite Hn, map_app, <- app_assoc.
        split_ands; [lia|done|destruct full; lia| |lia].
        by replace (index + 2 + N.of_nat (S m))%N with (index + 1 + 2 + N.of_nat m)%N by lia.
      * intros x. rewrite last_snoc. intros [= <-]. cbn. lia.
    + intros [= <- <-] Hend. exists 0. cbn. rewrite app_nil_r, N.add_0_r. split_ands; [lia|done|lia|done|].
      intros ->. by rewrite roomy in Hf.
Qed.

(** ** Pages of state documents *)

Definition json (aggregate_id : string) : string := aggregate_id +:+ ".json".

Context (n : Node) (n_ok : node_ok n).

(** The backend serves these pages from [token] on: no page but the last is
    empty, and a token is not answered by itself. *)
Inductive served : Bytes -> list (list string) -> Prop :=
| ServedLast t token ids :
    node_aggregate_type n = Ok t ->
    (forall w, (backend _ (QListStatesPage t token STATE_DIRECTORY_PAGE_SIZE) w).2 = Ok (mkStatePage ids [])) ->
    served token [ids]
| ServedMore t token ids next pages :
    node_aggregate_type n = Ok t ->
    (forall w, (backend _ (QListStatesPage t token STATE_DIRECTORY_PAGE_SIZE) w).2 = Ok (mkStatePage ids next)) ->
    next <> [] -> next <> token -> ids <> [] -> served next pages -> served token (ids :: pages).

(** The directory handle will show [names] in all. *)
Definition shows (st : DirectoryState) (names : list string) : Prop :=
  exists pages, names = map de_name (ds_entries st) ++ map json (concat pages) /\ Forall identifier_ok (concat pages) /\
    if ds_complete st then pages = [] else is_states n = true /\ served (ds_next_page_token st) pages.

Lemma add_children_spec l : forall st fs (w : W),
  exists st' fs', run backend (add_children st l) fs w = Some (fs', w, (st', Ok tt)) /\ extends fs fs' /\
    map de_name (ds_entries st') = map de_name (ds_entries st) ++ map (fun c => c.1.1) l /\
    ds_complete st' = ds_complete st /\ ds_next_page_token st' = ds_next_page_token st.
Proof.
  induction l as [|[[name c] size] l IH]; intros st fs w; cbn [add_children].
  - exists st, fs. cbn. rewrite app_nil_r. by split_ands.
  - rewrite run_task_bind. cbn. pose proof (extends_retain_node fs c size) as He.
    destruct (retain_directory_node (fs_inodes fs) c size) as [t ino]. cbn in He |- *.
    match goal with |- context[run backend (add_children ?st' l)] =>
      destruct (IH st' (with_inodes fs t) w) as (st1 & fs1 & -> & He1 & Hn & Hc & Ht) end.
    exists st1, fs1. cbn in *. split_ands; [done|by etrans| |done..]. by rewrite Hn, map_app, <- app_assoc.
Qed.

Lemma children_of_page ids : Forall identifier_ok ids -> is_states n = true ->
  exists l, result_mapM (fun id =>
    c ← map_err path_errno (child n (id +:+ ".json")); Ok (id +:+ ".json", c, 0%N)) ids = Ok l /\
    map (fun c => c.1.1) l = map json ids.
Proof.
  destruct n as [| | | |s t| | | |]; try done. intros Hids _. induction Hids as [|id ids Hid Hids (l & Hl & Hn)].
  - by exists [].
  - exists ((json id, State s t id, 0%N) :: l). cbn [result_mapM]. destruct n_ok as [Hs Ht].
    rewrite (child_of (States s t) (id +:+ ".json") (State s t id)) by (cbn; tauto || reflexivity).
    cbn. cbn in Hl. rewrite Hl. cbn. by rewrite Hn.
Qed.

(** Loading a page of a directory that is not complete. *)
Lemma load_spec st names fs w : shows st names -> ds_complete st = false ->
  exists st' fs' w' added, run backend (load_next_directory_page n st) fs w = Some (fs', w', (st', Ok tt)) /\ extends fs fs' /\
    shows st' names /\ map de_name (ds_entries st') = map de_name (ds_entries st) ++ added /\
    (length (ds_entries st) < length names -> added <> []).
Proof.
  intros (pages & -> & Hids & Hs) Hc. rewrite Hc in Hs. destruct Hs as [Hst Hs].
  unfold load_next_directory_page. rewrite Hc, Hst. cbn [andb].
  destruct Hs as [t token ids Ht Hq|t token ids next pages Ht Hq Hne Htok Hnil Hs];
    rewrite run_task_bind, run_op_bind, Ht; cbn [of_result run mbind option_bind map_err];
    unfold ask_ok; rewrite run_op_bind; cbn; specialize (Hq w); destruct (backend _ _ w) as [w' r]; cbn in Hq |- *; subst r; cbn.
  - rewrite app_nil_r in *. cbn in Hids. rewrite app_nil_r in Hids. destruct (children_of_page ids Hids Hst) as (l & -> & Hn).
    match goal with |- context[add_children ?st2 l] =>
      destruct (add_children_spec l st2 fs w') as (st' & fs' & -> & He & Hnames & Hcomp & Htok) end.
    exists st', fs', w', (map json ids). cbn in *. rewrite Hnames, Hn. split_ands; try done.
    + exists []. rewrite Hnames, Hn, Hcomp, app_nil_r. by split_ands.
    + rewrite length_app, !length_map. destruct ids; cbn; [lia|done].
  - rewrite (bool_decide_eq_false_2 (next = [])), (bool_decide_eq_false_2 (next = token)) by done. cbn [negb andb].
    cbn in Hids. apply Forall_app in Hids as [Hids Hrest]. destruct (children_of_page ids Hids Hst) as (l & -> & Hn).
    match goal with |- context[add_children ?st2 l] =>
      destruct (add_children_spec l st2 fs w') as (st' & fs' & -> & He & Hnames & Hcomp & Htk) end.
    exists st', fs', w', (map json ids). cbn in *. rewrite Hnames, Hn. split_ands; try done.
    + exists pages. rewrite Hnames, Hn, Hcomp, Htk, map_app, app_assoc. by split_ands.
    + intros _. by destruct ids.
Qed.

(** ** One call of readdir *)

Context (ino fh : N).

(** The handle [fh] is the directory [n], which will show [names]. *)
Definition listing (fs : Fs) (names : list string) (st : DirectoryState) : Prop :=
  known fs ino n /\ open_object fs fh = Some (HDirectory n st false) /\ shows st names.

Lemma shows_names st names index m : shows st names -> index + m <= length (ds_entries st) ->
  take m (map de_name (drop index (ds_entries st))) = take m (drop index names).
Proof.
  intros (pages & -> & _) Hm. rewrite drop_app_le, take_app_le by (rewrite ?length_drop, ?length_map; lia).
  by rewrite fmap_drop.
Qed.

Lemma readdir_children_spec st names acc index fs w :
  shows st names -> index <= length (ds_entries st) -> ends_at acc (N.of_nat index + 2) ->
  exists st' fs' w' acc' m,
    run backend (readdir_children fits n st acc (N.of_nat index)) fs w = Some (fs', w', (st', Ok acc')) /\ extends fs fs' /\
    shows st' names /\ entry_names acc' = entry_names acc ++ take m (drop index names) /\
    ends_at acc' (N.of_nat index + 2 + N.of_nat m) /\ (index + m <= length (ds_entries st')) /\
    (acc = [] -> index < length names -> 1 <= m) /\ (ds_complete st = true -> w' = w /\ ds_complete st' = true).
Proof.
  intros Hshow Hi Hend. unfold readdir_children. rewrite Nat2N.id.
  destruct (emit fits acc (N.of_nat index) (drop index (ds_entries st))) as [acc1 full] eqn:He.
  apply emit_spec in He as (m & Hm & Hn & Hfull & Hends & Hpos); [|done]. rewrite length_drop in *.
  assert (Hn1 : entry_names acc1 = entry_names acc ++ take m (drop index names)) by (by rewrite Hn, (shows_names st names) by (done || lia)).
  assert (Hknown : index < length (ds_entries st) -> acc = [] -> 1 <= m).
  { intros Hlt ->. apply Hpos; [done|]. intros Hd%(f_equal length). rewrite length_drop in Hd. cbn in Hd. lia. }
  destruct full; [|destruct (ds_complete st) eqn:Hc].
  - exists st, fs, w, acc1, m. split_ands; try done; [lia|]. intros Hacc _. apply Hknown; [lia|done].
  - exists st, fs, w, acc1, m. split_ands; try done; [lia|]. intros Hacc Hlt. apply Hknown; [|done].
    destruct Hshow as (pages & -> & _ & Hp). rewrite Hc in Hp. subst pages. by rewrite app_nil_r, length_map in Hlt.
  - destruct (load_spec st names fs w Hshow Hc) as (st' & fs' & w' & added & Hrun & Hext & Hshow' & Hadd & Hsome).
    rewrite run_task_bind, Hrun. cbn [mbind option_bind].
    replace (N.of_nat index + len (drop index (ds_entries st)))%N with (N.of_nat (index + m)) by (unfold len; rewrite length_drop; lia).
    rewrite Nat2N.id. destruct (emit fits acc1 _ _) as [acc2 full2] eqn:He2.
    apply emit_spec in He2 as (m2 & Hm2 & Hn2 & _ & Hends2 & Hpos2);
      [|by replace (N.of_nat (index + m) + 2)%N with (N.of_nat index + 2 + N.of_nat m)%N by lia].
    assert (Hlen : length (ds_entries st') = length (ds_entries st) + length added)
      by (apply (f_equal length) in Hadd; by rewrite length_app, !length_map in Hadd).
    rewrite length_drop in Hm2. exists st', fs', w', acc2, (m + m2). cbn [fst]. split_ands; try done.
    + rewrite Hn2, Hn1, (shows_names st' names) by (done || lia). by rewrite <- app_assoc, <- drop_drop, take_take_drop.
    + by replace (N.of_nat index + 2 + N.of_nat (m + m2))%N with (N.of_nat (index + m) + 2 + N.of_nat m2)%N by lia.
    + lia.
    + intros -> Hlt. destruct (decide (index < length (ds_entries st))) as [Hlt'|Hge]; [specialize (Hknown Hlt' eq_refl); lia|].
      enough (1 <= m2) by lia. apply Hpos2.
      * apply (f_equal length) in Hn1. unfold entry_names in Hn1. rewrite length_map in Hn1. cbn in Hn1.
        replace m with 0 in Hn1 by lia. by destruct acc1.
      * intros Hd%(f_equal length). rewrite length_drop in Hd. cbn in Hd. destruct added; [apply Hsome; [lia|done]|cbn in Hlen; lia].
Qed.

Lemma open_object_lookup fs h : open_object fs fh = Some h -> fh ∈ fs_handles fs /\ fs_objects fs !! fh = Some h.
Proof. unfold open_object. by case_bool_decide. Qed.

Lemma run_inner_node fs (w : W) : table_node (fs_inodes fs) ino = Some n -> run backend (inner_node ino) fs w = Some (fs, w, Ok n).
Proof. intros Hn. destruct fs as [t o hs nx act]. cbn in *. by rewrite Hn. Qed.

(** The part of [readdir] under the directory's lock. *)
Lemma run_locked st names acc index fs w :
  listing fs names st -> index <= length (ds_entries st) -> ends_at acc (N.of_nat index + 2) ->
  exists st' fs' w' acc' m,
    run backend (st ← lock_directory fh;
                 task_bind (readdir_children fits n st acc (N.of_nat index)) (fun r =>
                   task_bind (unlock_directory fh r.1) (fun _ => Done r.2))) fs w = Some (fs', w', Ok acc') /\
    listing fs' names st' /\ entry_names acc' = entry_names acc ++ take m (drop index names) /\
    ends_at acc' (N.of_nat index + 2 + N.of_nat m) /\ (index + m <= length (ds_entries st')) /\
    (acc = [] -> index < length names -> 1 <= m) /\ (ds_complete st = true -> w' = w /\ ds_complete st' = true).
Proof.
  intros (Hk & [Hin Ho]%open_object_lookup & Hs) Hi Hend. rewrite run_op_bind. cbn. rewrite Ho. cbn.
  set (fs1 := with_object fs fh _).
  destruct (readdir_children_spec st names acc index fs1 w Hs Hi Hend)
    as (st' & fs' & w' & acc' & m & Hrun & (Hobj & Hh & Hkn) & Hs' & Hrest).
  rewrite run_task_bind, Hrun. cbn. rewrite Hobj. cbn. rewrite lookup_insert_eq.
  eexists st', _, w', acc', m. split; [done|]. split; [|done]. unfold listing. split_ands; [by apply Hkn| |done].
  unfold open_object. cbn. rewrite Hh. cbn. by rewrite bool_decide_eq_true_2, lookup_insert_eq by done.
Qed.

(** All entries of the listing. *)
Definition dots : list string := ["."; ".."].

Lemma listing_extends st names fs fs' : extends fs fs' -> listing fs names st -> listing fs' names st.
Proof.
  intros (Ho & Hh & Hk) (H1 & H2 & H3). unfold listing, open_object in *. rewrite Ho, Hh. auto.
Qed.

Lemma run_inner_handle fs (w : W) h : open_object fs fh = Some h -> run backend (inner_handle fh) fs w = Some (fs, w, Ok h).
Proof. intros Hh. cbn. by rewrite Hh. Qed.

Lemma readdir_spec st names o fs w :
  listing fs names st -> o <= length (ds_entries st) + 2 ->
  exists st' fs' w' l m,
    run backend (readdir fits ino fh (N.of_nat o)) fs w = Some (fs', w', Ok l) /\ listing fs' names st' /\
    entry_names l = take m (drop o (dots ++ names)) /\ ends_at l (N.of_nat (o + m)) /\ o + m <= length (ds_entries st') + 2 /\
    (o < 2 + length names -> 1 <= m) /\ (ds_complete st = true -> w' = w /\ ds_complete st' = true).
Proof.
  intros Hl Ho. pose proof Hl as (Hk & Hopen & _). unfold readdir. rewrite run_op_bind, run_inner_node by apply Hk.
  cbn [mbind option_bind]. rewrite run_op_bind, (run_inner_handle _ _ _ Hopen). cbn [mbind option_bind].
  rewrite bool_decide_eq_true_2 by done. cbn [negb].
  destruct o as [|[|o]].
  - unfold reply_add at 1. rewrite roomy. change (N.of_nat 0 =? 0)%N with true. change (N.of_nat 0 <=? 1)%N with true.
    change (N.of_nat 0 - 2)%N with (N.of_nat 0). cbv iota. rewrite run_op_bind.
    destruct (run_ensure_node backend fs w (parent_node n) 0) as (parent & fs1 & -> & Hext). cbn [mbind option_bind].
    apply (listing_extends _ _ _ _ Hext) in Hl. unfold reply_add. destruct (fits _ _).
    + destruct (run_locked st names ([] ++ [mkReplyEntry ino 1 FtDirectory "."] ++ [mkReplyEntry parent 2 FtDirectory ".."]) 0 fs1 w Hl)
        as (st' & fs' & w' & acc' & m & Hrun & Hl' & Hn & He & Hm & _ & Hc); [lia|by intros e [= <-]|].
      exists st', fs', w', acc', (S (S m)). split_ands; [exact Hrun|done| | |lia|lia|done].
      * by rewrite Hn.
      * by replace (N.of_nat (0 + S (S m))) with (N.of_nat 0 + 2 + N.of_nat m)%N by lia.
    + exists st, fs1, w. eexists _, 1. split_ands; [reflexivity|done|done|by intros e [= <-]|lia|lia|done].
  - change (N.of_nat 1 =? 0)%N with false. change (N.of_nat 1 <=? 1)%N with true.
    change (N.of_nat 1 - 2)%N with (N.of_nat 0). cbv iota. rewrite run_op_bind.
    destruct (run_ensure_node backend fs w (parent_node n) 0) as (parent & fs1 & -> & Hext). cbn [mbind option_bind].
    apply (listing_extends _ _ _ _ Hext) in Hl. unfold reply_add. rewrite roomy.
    destruct (run_locked st names ([] ++ [mkReplyEntry parent 2 FtDirectory ".."]) 0 fs1 w Hl)
      as (st' & fs' & w' & acc' & m & Hrun & Hl' & Hn & He & Hm & _ & Hc); [lia|by intros e [= <-]|].
    exists st', fs', w', acc', (S m). split_ands; [exact Hrun|done| | |lia|lia|done].
    + by rewrite Hn.
    + by replace (N.of_nat (1 + S m)) with (N.of_nat 0 + 2 + N.of_nat m)%N by lia.
  - replace (N.of_nat (S (S o)) =? 0)%N with false by (symmetry; apply N.eqb_neq; lia).
    replace (N.of_nat (S (S o)) <=? 1)%N with false by (symmetry; apply N.leb_gt; lia).
    replace (N.of_nat (S (S o)) - 2)%N with (N.of_nat o) by lia.
    destruct (run_locked st names [] o fs w Hl) as (st' & fs' & w' & acc' & m & Hrun & Hl' & Hn & He & Hm & Hp & Hc); [lia|done|].
    exists st', fs', w', acc', m. split_ands; [exact Hrun|done|done| |lia| |done].
    + by replace (N.of_nat (S (S o) + m)) with (N.of_nat o + 2 + N.of_nat m)%N by lia.
    + intros Hlt. apply Hp; [done|lia].
Qed.

(** Reading the directory from [offset] on, with enough calls. *)
Fixpoint read_entries (calls : nat) (offset : N) : Op (list string) :=
  match calls with
  | O => never
  | S calls' =>
      l ← readdir fits ino fh offset;
      match last l with
      | None => mret []
      | Some e => rest ← read_entries calls' (re_offset e); mret (entry_names l ++ rest)
      end
  end.

Lemma read_entries_spec calls : forall st names o fs w,
  listing fs names st -> o <= length (ds_entries st) + 2 -> length names + 3 <= o + calls ->
  exists fs' w', run backend (read_entries calls (N.of_nat o)) fs w = Some (fs', w', Ok (drop o (dots ++ names))) /\
    (ds_complete st = true -> w' = w).
Proof.
  induction calls as [|calls IH]; intros st names o fs w Hl Ho Hcalls.
  - destruct Hl as (_ & _ & pages & -> & _). rewrite length_app, !length_map in Hcalls. lia.
  - cbn [read_entries]. destruct (readdir_spec st names o fs w Hl Ho)
      as (st' & fs' & w' & l & m & Hrun & Hl' & Hn & Hend & Hm & Hpos & Hc).
    rewrite run_op_bind, Hrun. cbn [mbind option_bind].
    destruct (last l) as [e|] eqn:Hlast.
    + rewrite run_op_bind, (Hend _ Hlast).
      assert (Hm1 : 1 <= m).
      { destruct (decide (o < 2 + length names)) as [|Hge]; [auto|]. rewrite drop_ge, take_nil in Hn by (cbn; lia).
        apply (f_equal length) in Hn. unfold entry_names in Hn. rewrite length_map in Hn. by destruct l. }
      destruct (IH st' names (o + m) fs' w' Hl' Hm) as (fs2 & w2 & -> & Hw); [lia|]. cbn [mbind option_bind run mret].
      exists fs2, w2. split; [|intros Hd; destruct (Hc Hd) as [-> Hd']; auto].
      rewrite Hn, <- drop_drop, take_drop. done.
    + apply last_None in Hlast as ->. exists fs', w'. split; [|intros Hd; apply (Hc Hd)]. cbn.
      destruct (decide (o < 2 + length names)) as [Hlt|Hge]; [|by rewrite drop_ge by (cbn; lia)].
      specialize (Hpos Hlt). apply (f_equal length) in Hn. cbn in Hn. rewrite length_take, length_drop in Hn. cbn in Hn. lia.
Qed.

End Listing.

(** ** Listing a directory *)

(** What a program such as [ls] does. *)
Definition list_directory (fits : list ReplyEntry -> ReplyEntry -> bool) (calls : nat) (ino : N) : Op (list string) :=
  fh ← opendir ino;
  read_entries fits ino fh calls 0.

Lemma list_directory_spec {W} (backend : forall X, Query X -> W -> W * X) fits n ino names calls fs (w : W) :
  (forall e, fits [] e = true) -> node_ok n -> is_directory n = true -> known fs ino n ->
  shows backend n (directory_new n) names -> length names + 3 <= calls ->
  exists fs' w', run backend (list_directory fits calls ino) fs w = Some (fs', w', Ok (dots ++ names)) /\
    (is_states n = false -> w' = w).
Proof.
  intros Hroom Hok Hdir Hk Hs Hcalls. unfold list_directory, opendir. rewrite !run_op_bind, (run_inner_node _ n) by apply Hk.
  cbn [mbind option_bind]. rewrite Hdir. cbn [negb]. rewrite run_op_bind. cbn [mbind option_bind run on_inodes atomically].
  unfold insert_handle. rewrite run_op_bind. cbn [mbind option_bind run atomically fs_next_handle with_inodes].
  set (st := mkDirectory _ _ _ _ _). set (fs1 := mkFs _ _ _ _ _).
  assert (Hl : listing backend n ino (fs_next_handle fs) fs1 names st).
  { unfold listing. split_ands; [exact Hk| |exact Hs]. unfold open_object, fs1. cbn.
    by rewrite bool_decide_eq_true_2, lookup_insert_eq by set_solver. }
  destruct (read_entries_spec backend fits Hroom n Hok ino (fs_next_handle fs) calls st names 0 fs1 w Hl) as (fs' & w' & Hrun & Hw);
    [lia|lia|].
  exists fs', w'. split; [exact Hrun|]. intros Hst. apply Hw. cbn. by rewrite Hst.
Qed.

(** C20: Listing the [states] directory of an aggregate type shows [.], [..] and
    the file of every state document of the pages, in their order and each as
    often as the pages have it, in however many pages the backend answers and
    however few entries fit into a reply; the listing ends. The backend's pages
    are assumed to stay as they are while the directory is listed, and a page
    that is not the last to have a document and a new token ([served]): an empty
    page before the last would end the listing. The pages of the server have
    documents and a new token until the last one and no document twice
    ([state_pages_complete]). *)
Theorem states_listed {W} (backend : forall X, Query X -> W -> W * X) fits s ty ino pages calls fs (w : W)
    (room : forall e, fits [] e = true) (ok : identifier_ok s /\ identifier_ok ty) (at_ino : known fs ino (States s ty))
    (pages_served : served backend (States s ty) [] pages) (ids_ok : Forall identifier_ok (concat pages))
    (enough : length (concat pages) + 3 <= calls) :
  exists fs' w', run backend (list_directory fits calls ino) fs w =
    Some (fs', w', Ok (["."; ".."] ++ map (fun id => id +:+ ".json") (concat pages))).
Proof.
  destruct (list_directory_spec backend fits (States s ty) ino (map json (concat pages)) calls fs w)
    as (fs' & w' & Hrun & _); try done; [by exists pages|by rewrite length_map|]. by exists fs', w'.
Qed.

(** Listing any other directory (the root, a business space, an aggregate
    type, the groups) shows [.] and [..] only and does not ask the backend,
    whatever exists below it: its handle starts out as complete, so the children
    are never loaded. *)
Theorem other_directories_list_empty {W} (backend : forall X, Query X -> W -> W * X) fits n ino calls fs (w : W)
    (room : forall e, fits [] e = true) (ok : node_ok n) (directory : is_directory n = true) (other : is_states n = false)
    (at_ino : known fs ino n) (enough : 3 <= calls) :
  exists fs', run backend (list_directory fits calls ino) fs w = Some (fs', w, Ok ["."; ".."]).
Proof.
  destruct (list_directory_spec backend fits n ino [] calls fs w) as (fs' & w' & Hrun & Hw); try done.
  - exists []. cbn. rewrite other. by split_ands.
  - rewrite Hw in Hrun by done. by exists fs'.
Qed.

(** ** Examples *)

(** Two pages of one document each, and replies of one entry. *)
Definition two_pages_answer (X : Type) (q : Query X) : X :=
  match q with
  | QListTypes => Ok [mkAggregateType "sales" "order"]
  | QRegister _ _ | QCreateGroup _ _ _ => Ok tt
  | QAppend _ _ => Ok 1%N
  | QFollow _ => Ok 7%N
  | QReceive _ => None
  | QListStatesPage _ [] _ => Ok (mkStatePage ["order-1"] [x01])
  | QListStatesPage _ _ _ => Ok (mkStatePage ["order-2"] [])
  | QGetState _ _ => Ok None
  | QPutState _ _ _ _ => Err (BeUnavailable "no quorum")
  | QListGroups _ => Ok ["billing"]
  | QFetch _ _ _ => Err (BeTimeout "no delivery")
  | QSettle _ _ _ _ | QRenew _ _ _ _ => Ok []
  | QNewUuid => 5%N
  | QUnixMillis => 1000%N
  end.

Definition two_pages (X : Type) (q : Query X) (w : unit) : unit * X := (tt, two_pages_answer X q).

Definition one_entry (acc : list ReplyEntry) (e : ReplyEntry) : bool := match acc with [] => true | _ => false end.

Definition listed_fs : Fs :=
  with_inodes fs_new (ensure (ensure table_new (States "sales" "order") 0).1 (Groups "sales" "order") 0).1.

Lemma demo_identifiers : identifier_ok "sales" /\ identifier_ok "order" /\ identifier_ok "order-1" /\ identifier_ok "order-2".
Proof. split_ands; apply (validate_identifier_iff "identifier"); vm_compute; reflexivity. Qed.

Lemma states_listed_witness :
  exists fs' w', run two_pages (list_directory one_entry 5 2) listed_fs tt = Some (fs', w', Ok ["."; ".."; "order-1.json"; "order-2.json"]).
Proof.
  destruct demo_identifiers as (Hs & Ht & H1 & H2).
  apply (states_listed two_pages one_entry "sales" "order" 2 [["order-1"]; ["order-2"]] 5 listed_fs tt).
  - reflexivity.
  - by split.
  - split; [reflexivity|]. vm_compute. by split.
  - apply (ServedMore _ _ (mkAggregateType "sales" "order") _ _ [x01]); [by vm_compute|done|done|done|done|].
    apply (ServedLast _ _ (mkAggregateType "sales" "order")); [by vm_compute|done].
  - by apply Forall_cons_2; [|apply Forall_cons_2; [|apply Forall_nil_2]].
  - cbn. lia.
Defined.

Lemma other_directories_list_empty_witness :
  exists fs', run two_pages (list_directory one_entry 5 3) listed_fs tt = Some (fs', tt, Ok ["."; ".."]).
Proof.
  destruct demo_identifiers as (Hs & Ht & _).
  apply (other_directories_list_empty two_pages one_entry (Groups "sales" "order") 3 5 listed_fs tt); try done. lia.
Defined.
