(* ===== verification/Client.v ===== *)
(** * es-client: the SDK

    [es-client/src/error.rs] and [es-client/src/aggregate.rs]: the errors, the
    rotation of nodes, the retry loop [call] all methods go through, and the
    worker that keeps a followed stream open ([run_follow]).

    tonic is a parameter: connecting to an address and running an operation on a
    connection take the world and return the world after it, in which the
    cluster and other clients may have acted. An operation that fails may or may
    not have had an effect. The waits of the loop ([sleep]) are part of what
    happens to the world in the next operation. *)

From S2P Require Import Prelude.
From S2P Require Import Bytes.
From S2P Require Import Core.
From S2P Require Import Aggregate.
From S2P Require Import Redirect.
From S2P Require Import Store.
From S2P Require Import Config.
From S2P Require Import Topology.

(** ** Errors *)

(** gRPC status codes by number, where the server does not use them. *)
Definition CodeDeadlineExceeded : Code := CodeOther 4.
Definition CodePermissionDenied : Code := CodeOther 7.
Definition CodeResourceExhausted : Code := CodeOther 8.
Definition CodeAborted : Code := CodeOther 10.
Definition CodeOutOfRange : Code := CodeOther 11.
Definition CodeUnauthenticated : Code := CodeOther 16.

Inductive ClientError : Type :=
| InvalidConfig (message : string)
| ConnectionFailed (message : string)
| RpcFailed (code : Code) (message : string)
| NotLeader (leader : option string)
| PayloadTooLarge (message : string)
| AllNodesFailed (message : string).

Definition from_status (st : Status) : ClientError := RpcFailed (st_code st) (st_message st).

(** The derived [Debug] texts that appear in messages. *)
Class DebugText : Type := {
  debug_code : Code -> string;
  debug_leader : option string -> string
}.

(** [ClientError]'s [Display]. *)
Definition client_error_to_string `{DebugText} (e : ClientError) : string :=
  match e with
  | InvalidConfig m => "Invalid configuration: " +:+ m
  | ConnectionFailed m => "Connection failed: " +:+ m
  | RpcFailed code m => "RPC failed (" +:+ debug_code code +:+ "): " +:+ m
  | NotLeader leader => "Not leader, redirect to: " +:+ debug_leader leader
  | PayloadTooLarge m => "Payload too large: " +:+ m
  | AllNodesFailed m => "All nodes failed: " +:+ m
  end.

Definition is_retryable_code (c : Code) : bool :=
  bool_decide (c = CodeUnavailable) || bool_decide (c = CodeDeadlineExceeded) || bool_decide (c = CodeInternal).

Definition is_retryable_client_error (e : ClientError) : bool :=
  match e with
  | ConnectionFailed _ | AllNodesFailed _ | NotLeader _ => true
  | RpcFailed code _ => is_retryable_code code
  | InvalidConfig _ | PayloadTooLarge _ => false
  end.

(** ** The client *)

(** The addresses with an open connection, the nodes and the rotation counter. *)
Record Client : Type := mkClient {
  cl_clients : gset string;
  cl_nodes : list string;
  cl_cursor : N
}.

Inductive RetrySafety : Type := Idempotent | Ambiguous.

#[export] Instance RetrySafety_eq_dec : EqDecision RetrySafety.
Proof. solve_decision. Defined.

(** How connecting fails: the address or the TLS settings are refused, or the
    node does not answer. *)
Inductive ConnectError : Type :=
| BadAddress (error : string)
| BadTls (error : string)
| Unreachable (error : string).

(** [errors.join("；")]. *)
Fixpoint join_errors (l : list string) : string :=
  match l with
  | [] => ""
  | [e] => e
  | e :: rest => e +:+ "；" +:+ join_errors rest
  end.

(** [rotated_nodes]: the nodes from the one the counter points at. *)
Definition rotated_nodes (c : Client) : Client * list string :=
  let n := length (cl_nodes c) in
  let start := N.to_nat (cl_cursor c `mod` N.of_nat n)%N in
  (mkClient (cl_clients c) (cl_nodes c) (wrapping_add_u64 (cl_cursor c) 1),
   omap (fun offset => cl_nodes c !! ((start + offset) `mod` n)) (seq 0 n)).

(** The address in a leader hint, as a string. *)
Definition hinted_leader (st : Status) : option string :=
  normalize_endpoint ∘ String.string_of_list_byte <$> parse_leader_hint (as_bytes (st_message st)).

Section Net.
Context {W : Type} `{DebugText}.
Context (tonic_connect : string -> W -> W * result ConnectError unit).

Definition connect_one (address : string) (w : W) : W * result ClientError unit :=
  let '(w, r) := tonic_connect address w in
  (w, map_err (fun e =>
        match e with
        | BadAddress e => InvalidConfig ("非法节点地址 " +:+ address +:+ ": " +:+ e)
        | BadTls e => InvalidConfig ("节点 " +:+ address +:+ " TLS 配置失败: " +:+ e)
        | Unreachable e => ConnectionFailed e
        end) r).

(** [connect_with_tls]. *)
Definition client_connect (nodes : list string) (w : W) : W * result ClientError Client :=
  match map normalize_endpoint nodes with
  | [] => (w, Err (InvalidConfig "nodes list cannot be empty"))
  | first :: rest =>
      let '(w, r) := connect_one first w in
      (w, (fun _ => mkClient {[first]} (first :: rest) 0) <$> r)
  end.

Definition get_or_connect (address : string) (c : Client) (w : W) : Client * W * result ClientError unit :=
  if bool_decide (address ∈ cl_clients c) then (c, w, Ok tt)
  else
    match connect_one address w with
    | (w, Ok _) => (mkClient ({[address]} ∪ cl_clients c) (cl_nodes c) (cl_cursor c), w, Ok tt)
    | (w, Err e) => (c, w, Err e)
    end.

(** ** The retry loop *)

Section Call.
Context {T : Type} (safety : RetrySafety) (operation : string -> W -> W * result Status T).

(** After the plan is used up. *)
Definition exhausted (last_redirect : option string) (errors : list string) : ClientError :=
  match last_redirect, errors with
  | Some address, _ => NotLeader (Some address)
  | None, _ :: _ => AllNodesFailed (join_errors errors)
  | None, [] => NotLeader None
  end.

(** What the loop does after a target failed with a status: it goes on with a
    plan, or returns an error. *)
Definition after_status (plan : LeaderRetryPlan) (target : string) (last_redirect : option string) (errors : list string)
    (st : Status) : result ClientError (LeaderRetryPlan * option string * list string) :=
  if bool_decide (st_code st = CodeUnavailable) then
    match hinted_leader st with
    | Some address => Ok (redirect_to plan address, Some address, errors)
    | None =>
        if bool_decide (safety = Idempotent) then Ok (retry_later plan target, last_redirect, errors)
        else Err (from_status st)
    end
  else if bool_decide (safety = Idempotent) && is_retryable_code (st_code st) then
    Ok (retry_later plan target, last_redirect, errors ++ [target +:+ ": " +:+ st_message st])
  else Err (from_status st).

(** [None] when [fuel] does not suffice. *)
Fixpoint call_loop (fuel : nat) (plan : LeaderRetryPlan) (last_redirect : option string) (errors : list string)
    (c : Client) (w : W) : option (Client * W * result ClientError T) :=
  match plan_next plan with
  | (_, None) => Some (c, w, Err (exhausted last_redirect errors))
  | (plan, Some target) =>
      match fuel with
      | O => None
      | S fuel =>
          match get_or_connect target c w with
          | (c, w, Err e) =>
              call_loop fuel (retry_later plan target) last_redirect
                (errors ++ [target +:+ ": " +:+ client_error_to_string e]) c w
          | (c, w, Ok _) =>
              match operation target w with
              | (w, Ok response) => Some (c, w, Ok response)
              | (w, Err st) =>
                  match after_status plan target last_redirect errors st with
                  | Ok (plan, last_redirect, errors) => call_loop fuel plan last_redirect errors c w
                  | Err e => Some (c, w, Err e)
                  end
              end
          end
      end
  end.

(** [AggregateStoreClient::call]; [call_attempts] targets are enough. *)
Definition call_attempts (c : Client) : nat := 4 * length (cl_nodes c) + 4.

Definition client_call (c : Client) (w : W) : option (Client * W * result ClientError T) :=
  let '(c, nodes) := rotated_nodes c in
  call_loop (call_attempts c) (plan_new nodes) None [] c w.

End Call.

End Net.

(** ** Lemmas: rotation *)

Lemma omap_seq {A} (f : nat -> option A) (l : list A) k :
  (forall i, i < length l -> f (k + i) = l !! i) -> omap f (seq k (length l)) = l.
Proof.
  revert k. induction l as [|a l IH]; intros k Hf; [done|]. cbn.
  pose proof (Hf 0 ltac:(cbn; lia)) as H0. rewrite Nat.add_0_r in H0. rewrite H0. cbn. f_equal. apply IH.
  intros i Hi. replace (S k + i) with (k + S i) by lia. apply (Hf (S i)). cbn. lia.
Qed.

Lemma rotated_nodes_rotate c :
  (rotated_nodes c).2 = rotate (N.to_nat (cl_cursor c `mod` N.of_nat (length (cl_nodes c)))%N) (cl_nodes c).
Proof.
  unfold rotated_nodes. cbn [snd]. set (s := N.to_nat _).
  pose proof (omap_seq (fun offset => cl_nodes c !! ((s + offset) `mod` length (cl_nodes c))) (rotate s (cl_nodes c)) 0) as Ho.
  rewrite length_rotate in Ho. apply Ho. intros i Hi. rewrite lookup_rotate_r by done. f_equal. unfold rotate_nat_add. cbn [Nat.add].
  rewrite <- Nat2Z.inj_add, <- Nat2Z.inj_mod. by rewrite Nat2Z.id.
Qed.

Lemma rotated_nodes_permutation c : (rotated_nodes c).2 ≡ₚ cl_nodes c.
Proof.
  rewrite rotated_nodes_rotate. unfold rotate. rewrite Permutation_app_comm. by rewrite take_drop.
Qed.

(** ** Lemmas: the budget *)

Lemma plan_next_left plan plan' target : plan_next plan = (plan', Some target) -> attempts_left plan = S (attempts_left plan').
Proof. intros Hn%next_loop_attempts. unfold attempts_left in *. lia. Qed.

Lemma attempts_left_new nodes : attempts_left (plan_new nodes) = 4 * length nodes + 4.
Proof. unfold attempts_left. cbn. rewrite length_map. lia. Qed.

Lemma after_status_left safety plan target redirect errors st plan' redirect' errors' :
  after_status safety plan target redirect errors st = Ok (plan', redirect', errors') ->
  attempts_left plan' = attempts_left plan.
Proof. unfold after_status. intros Ha. repeat case_match; simplify_eq; done. Qed.

(** ** What the loop sends *)

Section Calls.
Context {W : Type} `{DebugText} {T : Type}.
Context (tonic_connect : string -> W -> W * result ConnectError unit).
Context (safety : RetrySafety) (operation : string -> W -> W * result Status T).

(** The operation and the answers it got so far. *)
Definition traced_connect (a : string) (wt : W * list (string * result Status T)) :=
  let '(w, r) := tonic_connect a wt.1 in ((w, wt.2), r).

Definition traced (a : string) (wt : W * list (string * result Status T)) :=
  let '(w, r) := operation a wt.1 in ((w, wt.2 ++ [(a, r)]), r).

(** The request was refused for another leader, or it may be repeated. *)
Definition may_resend (st : Status) : Prop :=
  (st_code st = CodeUnavailable /\ is_Some (hinted_leader st)) \/
  (safety = Idempotent /\ is_retryable_code (st_code st) = true).

(** The answers of a call and its result. *)
Inductive call_trace : list (string * result Status T) -> result ClientError T -> Prop :=
| TraceNone e : call_trace [] (Err e)
| TraceOk a v : call_trace [(a, Ok v)] (Ok v)
| TraceErr a st : call_trace [(a, Err st)] (Err (from_status st))
| TraceMore a st l r : may_resend st -> call_trace l r -> call_trace ((a, Err st) :: l) r.

Lemma after_status_spec plan target redirect errors st :
  match after_status safety plan target redirect errors st with
  | Ok _ => may_resend st
  | Err e => e = from_status st
  end.
Proof.
  unfold after_status, may_resend. case_bool_decide as Hu; [|destruct (bool_decide (safety = Idempotent) && is_retryable_code (st_code st)) eqn:Hr; [|done]].
  - destruct (hinted_leader st) eqn:Hh; [by left; eauto|]. case_bool_decide; [|done]. right. split; [done|].
    rewrite Hu. done.
  - apply andb_true_iff in Hr as [?%bool_decide_eq_true ?]. by right.
Qed.

Lemma get_or_connect_traced address c w tr :
  let '(c', (w', tr'), r) := get_or_connect traced_connect address c (w, tr) in
  tr' = tr /\ cl_nodes c' = cl_nodes c.
Proof.
  unfold get_or_connect. case_bool_decide; [done|]. unfold connect_one, traced_connect. cbn.
  destruct (tonic_connect address w) as [w' [[]|e]]; done.
Qed.

Lemma call_loop_trace fuel : forall plan redirect errors c w tr,
  attempts_left plan <= fuel ->
  exists c' w' tr' r,
    call_loop traced_connect safety traced fuel plan redirect errors c (w, tr) = Some (c', (w', tr ++ tr'), r) /\
    call_trace tr' r /\ length tr' <= attempts_left plan.
Proof.
  induction fuel as [|fuel IH]; intros plan redirect errors c w tr Hfuel; cbn [call_loop];
    destruct (plan_next plan) as [plan' [target|]] eqn:Hn;
    try (eexists c, w, [], _; rewrite app_nil_r; split_ands; [done|constructor|cbn; lia]).
  - apply plan_next_left in Hn. lia.
  - apply plan_next_left in Hn. pose proof (get_or_connect_traced target c w tr) as Hg.
    destruct (get_or_connect traced_connect target c (w, tr)) as [[c1 [w1 tr1]] [[]|e]]; destruct Hg as [-> _].
    + unfold traced at 1. cbn [fst snd]. destruct (operation target w1) as [w2 [v|st]].
      * eexists c1, w2, [_], _. split_ands; [done|constructor|cbn; lia].
      * pose proof (after_status_spec plan' target redirect errors st) as Hs.
        destruct (after_status safety plan' target redirect errors st) as [[[plan2 redirect2] errors2]|e] eqn:Ha.
        -- apply after_status_left in Ha.
           destruct (IH plan2 redirect2 errors2 c1 w2 (tr ++ [(target, Err st)])) as (c' & w' & tr' & r & Hr & Ht & Hl); [lia|].
           eexists c', w', (_ :: tr'), r. rewrite Hr, <- app_assoc. split_ands; [done|by constructor|cbn; lia].
        -- subst e. eexists c1, w2, [_], _. split_ands; [done|constructor|cbn; lia].
    + destruct (IH (retry_later plan' target) redirect (errors ++ [target +:+ ": " +:+ client_error_to_string e]) c1 w1 tr)
        as (c' & w' & tr' & r & Hr & Ht & Hl); [cbn; unfold attempts_left in *; cbn; lia|].
      exists c', w', tr', r. split_ands; [done|done|]. unfold attempts_left in *. cbn in Hl. lia.
Qed.

(** C13: A call of the client always returns, after at most [4 n + 4] requests to
    [n] nodes, whatever the nodes answer. It repeats a request only when the
    node refused it and named the leader, or when the method is idempotent and
    the status transient, so a state write or a fetch whose outcome is unknown
    is never sent again; it succeeds exactly with the answer of the last
    request, and an error is that of the last request or stands for a plan that
    was used up. *)
Theorem call_history (c : Client) (w : W) :
  exists c' w' tr r,
    client_call traced_connect safety traced c (w, []) = Some (c', (w', tr), r) /\
    call_trace tr r /\ length tr <= 4 * length (cl_nodes c) + 4.
Proof.
  unfold client_call. destruct (rotated_nodes c) as [c1 nodes] eqn:Hr.
  assert (Hlen : length nodes = length (cl_nodes c))
    by (pose proof (rotated_nodes_permutation c) as Hp; rewrite Hr in Hp; by rewrite Hp).
  assert (Hc1 : cl_nodes c1 = cl_nodes c) by (injection Hr as <- <-; done).
  unfold call_attempts. rewrite Hc1, <- Hlen.
  destruct (call_loop_trace (4 * length nodes + 4) (plan_new nodes) None [] c1 w []) as (c' & w' & tr & r & Hrun & Ht & Hl);
    [by rewrite attempts_left_new|]. rewrite attempts_left_new in Hl. exists c', w', tr, r. done.
Qed.

End Calls.

(** ** What a call does to the world *)

Section Worlds.
Context {W : Type} `{DebugText} {T : Type}.
Context (tonic_connect : string -> W -> W * result ConnectError unit).
Context (safety : RetrySafety) (operation : string -> W -> W * result Status T).

Inductive net_step (w w' : W) : Prop :=
| NetConnect a r : tonic_connect a w = (w', r) -> net_step w w'
| NetOperation a r : operation a w = (w', r) -> net_step w w'.

Lemma get_or_connect_step a c w c' w' r : get_or_connect tonic_connect a c w = (c', w', r) -> rtc net_step w w'.
Proof.
  unfold get_or_connect. case_bool_decide; [by intros [= <- <- <-]|]. unfold connect_one.
  destruct (tonic_connect a w) as [w1 [[]|e]] eqn:Hc; intros [= <- <- <-]; apply rtc_once; by econstructor.
Qed.

(** A success is the answer of an operation, run after what happened before. *)
Lemma call_loop_step fuel : forall plan redirect errors c w c' w' r,
  call_loop tonic_connect safety operation fuel plan redirect errors c w = Some (c', w', r) ->
  match r with
  | Ok v => exists a w1, rtc net_step w w1 /\ operation a w1 = (w', Ok v)
  | Err _ => rtc net_step w w'
  end.
Proof.
  induction fuel as [|fuel IH]; intros plan redirect errors c w c' w' r; cbn [call_loop];
    destruct (plan_next plan) as [plan' [target|]]; try (by intros [= <- <- <-]); try done.
  destruct (get_or_connect tonic_connect target c w) as [[c1 w1] [[]|e]] eqn:Hg; apply get_or_connect_step in Hg.
  - destruct (operation target w1) as [w2 [v|st]] eqn:Ho; [intros [= <- <- <-]; by eauto|].
    assert (H2 : rtc net_step w w2) by (eapply rtc_r; [exact Hg|by eapply NetOperation]).
    destruct (after_status _ _ _ _ _ _) as [[[plan2 redirect2] errors2]|e]; [|by intros [= <- <- <-]].
    intros Hr%IH. destruct r; [|by etrans]. destruct Hr as (node & w3 & Hw & Hv). exists node, w3. split; [by etrans|done].
  - intros Hr%IH. destruct r; [|by etrans]. destruct Hr as (node & w3 & Hw & Hv). exists node, w3. split; [by etrans|done].
Qed.

Lemma client_call_step c w c' w' r :
  client_call tonic_connect safety operation c w = Some (c', w', r) ->
  match r with
  | Ok v => exists a w1, rtc net_step w w1 /\ operation a w1 = (w', Ok v)
  | Err _ => rtc net_step w w'
  end.
Proof. unfold client_call. destruct (rotated_nodes c). apply call_loop_step. Qed.

End Worlds.

(** ** Finding the leader *)

Section Leader.
Context {W : Type} `{DebugText} {T : Type}.
Context (tonic_connect : string -> W -> W * result ConnectError unit).
Context (operation : string -> W -> W * result Status T) (leader : string).

Definition reachable (a : string) : Prop := forall w, exists w', tonic_connect a w = (w', Ok tt).

Definition answers (a : string) : Prop := forall w, exists w' v, operation a w = (w', Ok v).

(** The node names the leader. *)
Definition hints (a : string) : Prop := forall w, exists w' st,
  operation a w = (w', Err st) /\ st_code st = CodeUnavailable /\ hinted_leader st = Some leader.

(** The node is down or does not know the leader. *)
Definition transient (a : string) : Prop := forall w, exists w' st,
  operation a w = (w', Err st) /\ is_retryable_code (st_code st) = true /\ hinted_leader st = None.

Context (leader_up : reachable leader) (leader_answers : answers leader).

Lemma get_or_connect_reachable a c w : reachable a -> exists c' w', get_or_connect tonic_connect a c w = (c', w', Ok tt).
Proof.
  intros Hr. unfold get_or_connect. case_bool_decide; [by eauto|]. unfold connect_one.
  destruct (Hr w) as [w' ->]. by eexists _, _.
Qed.

Lemma call_loop_redirected fuel plan redirect errors c w :
  0 < attempts_left plan -> 0 < fuel ->
  exists c' w' v, call_loop tonic_connect Idempotent operation fuel (redirect_to plan leader) redirect errors c w = Some (c', w', Ok v).
Proof.
  intros Hleft Hfuel. destruct fuel as [|fuel]; [lia|]. cbn [call_loop].
  pose proof (plan_redirect_next plan leader Hleft) as Hn.
  destruct (plan_next (redirect_to plan leader)) as [plan' o]. cbn in Hn. subst o.
  destruct (get_or_connect_reachable leader c w leader_up) as (c1 & w1 & ->).
  destruct (leader_answers w1) as (w2 & v & ->). by eexists _, _, _.
Qed.

Lemma call_loop_finds rest : forall fuel budget tail extra backoff redirect errors c w,
  Exists (fun a => reachable a /\ (answers a \/ hints a)) rest ->
  Forall (fun a => answers a \/ hints a \/ transient a) rest ->
  length rest + 1 <= budget -> budget <= fuel ->
  exists c' w' v, call_loop tonic_connect Idempotent operation fuel
    (mkPlan budget tail (map (fun addr => mkItem addr KindNormal) rest ++ extra) ∅ backoff) redirect errors c w = Some (c', w', Ok v).
Proof.
  induction rest as [|a rest IH]; intros fuel budget tail extra backoff redirect errors c w Hgood Hall Hbudget Hfuel.
  { by apply Exists_nil in Hgood. }
  destruct fuel as [|fuel]; [cbn in Hbudget; lia|]. destruct budget as [|budget]; [cbn in Hbudget; lia|]. cbn in Hbudget.
  cbn [call_loop plan_next map app rp_budget rp_redirect_tail rp_queue rp_tried rp_backoff_target next_loop qi_addr qi_kind].
  unfold plan_next. cbn [map app rp_budget rp_redirect_tail rp_queue rp_tried rp_backoff_target next_loop qi_addr qi_kind].
  rewrite bool_decide_eq_false_2 by set_solver.
  set (plan' := mkPlan budget tail _ _ backoff).
  assert (Hgo : forall redirect errors c w, Exists (fun a => reachable a /\ (answers a \/ hints a)) rest ->
    exists c' w' v, call_loop tonic_connect Idempotent operation fuel (retry_later plan' a) redirect errors c w = Some (c', w', Ok v)).
  { intros redirect1 errors1 c1 w1 Hrest. unfold retry_later, plan'. cbn. rewrite <- app_assoc.
    replace (({[a]} ∪ ∅) ∖ {[a]}) with (∅ : gset string) by set_solver.
    apply Forall_cons in Hall as [_ Hall]. apply IH; [done|done|lia|lia]. }
  assert (Hanswer : forall redirect errors c w, answers a \/ hints a \/ (transient a /\ Exists (fun a => reachable a /\ (answers a \/ hints a)) rest) ->
    exists c' w' v,
      match operation a w with
      | (w, Ok response) => Some (c, w, Ok response)
      | (w, Err st) =>
          match after_status Idempotent plan' a redirect errors st with
          | Ok (plan, last_redirect, errors) => call_loop tonic_connect Idempotent operation fuel plan last_redirect errors c w
          | Err e => Some (c, w, Err e)
          end
      end = Some (c', w', Ok v)).
  { intros redirect1 errors1 c1 w1 [Ha|[Hh|[Ht Hrest]]].
    - destruct (Ha w1) as (w2 & v & ->). by eexists _, _, _.
    - destruct (Hh w1) as (w2 & st & -> & Hu & Hl). unfold after_status. rewrite bool_decide_eq_true_2, Hl by done.
      apply call_loop_redirected; [unfold attempts_left; cbn|]; lia.
    - destruct (Ht w1) as (w2 & st & -> & Hr & Hl). unfold after_status. rewrite Hl, Hr. cbn.
      case_bool_decide; by apply Hgo. }
  apply Exists_cons in Hgood as [[Hreach Hg]|Hrest].
  - destruct (get_or_connect_reachable a c w Hreach) as (c1 & w1 & ->). apply Hanswer. tauto.
  - apply Forall_cons in Hall as [Ha _].
    destruct (get_or_connect tonic_connect a c w) as [[c1 w1] [[]|e]]; [apply Hanswer; tauto|by apply Hgo].
Qed.

(** C21: An idempotent call finds the leader. The condition is on every configured
    node and stays while the call runs: a request that is sent to it is answered,
    or names the leader, or fails with an error that is worth a retry and names no
    other leader, as it does on a node that is down; and at least one that can be
    reached answers or names the leader, which can be reached and answers. Then
    the call succeeds within its budget, from whichever node the rotation starts. (A node that refuses the
    request for good, or that names another node than the leader, is outside this
    condition, and the call may fail.) *)
Theorem call_finds_leader (c : Client) (w : W)
    (some_node : Exists (fun a => reachable a /\ (answers a \/ hints a)) (cl_nodes c))
    (all_nodes : Forall (fun a => answers a \/ hints a \/ transient a) (cl_nodes c)) :
  exists c' w' v, client_call tonic_connect Idempotent operation c w = Some (c', w', Ok v).
Proof.
  unfold client_call. destruct (rotated_nodes c) as [c1 nodes] eqn:Hr.
  pose proof (rotated_nodes_permutation c) as Hp. rewrite Hr in Hp. cbn in Hp.
  assert (Hc1 : cl_nodes c1 = cl_nodes c) by (injection Hr as <- <-; done).
  unfold plan_new. rewrite <- (app_nil_r (map _ nodes)). apply call_loop_finds.
  - by rewrite Hp.
  - by rewrite Hp.
  - rewrite length_app, length_map. cbn. lia.
  - unfold call_attempts. rewrite Hc1, <- Hp, length_app, length_map. cbn. lia.
Qed.

End Leader.

(** Three nodes: one is down, one names the third, the third leads. *)
Definition demo_nodes : list string := ["http://a:1"; "http://b:2"; "http://c:3"].

Definition demo_debug_text : DebugText := {| debug_code := fun _ => "code"; debug_leader := fun _ => "leader" |}.

Definition demo_connect (a : string) (w : unit) : unit * result ConnectError unit :=
  (tt, if bool_decide (a = "http://a:1") then Err (Unreachable "refused") else Ok tt).

Definition demo_operation (a : string) (w : unit) : unit * result Status N :=
  (tt, if bool_decide (a = "http://c:3") then Ok 7%N
       else if bool_decide (a = "http://b:2") then Err (unavailable (leader_hint 3 "http://c:3"))
       else Err (unavailable "down")).

Lemma call_finds_leader_witness :
  exists c' w' v, @client_call _ demo_debug_text demo_connect _ Idempotent demo_operation (mkClient ∅ demo_nodes 0) tt = Some (c', w', Ok v).
Proof.
  apply (@call_finds_leader _ demo_debug_text _ demo_connect demo_operation "http://c:3").
  - intros []. by exists tt.
  - intros []. by exists tt, 7%N.
  - apply Exists_cons_tl, Exists_cons_hd. split; [intros []; by exists tt|]. right. intros [].
    by exists tt, (unavailable (leader_hint 3 "http://c:3")).
  - apply Forall_cons_2; [|apply Forall_cons_2; [|apply Forall_cons_2; [|apply Forall_nil_2]]].
    + right. right. intros []. by exists tt, (unavailable "down").
    + right. left. intros []. by exists tt, (unavailable (leader_hint 3 "http://c:3")).
    + left. intros []. by exists tt, 7%N.
Defined.
