(* ===== verification/ClientFollow.v ===== *)
(** * es-client: the followed stream

    [run_follow] of [es-client/src/aggregate.rs]: the worker that forwards the
    frames of a server's stream, remembers the cursor of each and opens the
    stream again from there when it ends. It is a state machine driven by what
    it waits for ([WorkerEvent]).

    The theorem composes it with the server: what [FollowStream.v] shows of one
    stream holds of all the streams of a worker, end to end. *)

From S2P Require Import Prelude.
From S2P Require Import Bytes.
From S2P Require Import Core.
From S2P Require Import Aggregate.
From S2P Require Import Catalog.
From S2P Require Import Store.
From S2P Require Import Keys.
From S2P Require Import RaftType.
From S2P Require Import LogStore.
From S2P Require Import StateMachine.
From S2P Require Import ShardSpec.
From S2P Require Import Codecs.
From S2P Require Import Apply.
From S2P Require Import Reads.
From S2P Require Import Config.
From S2P Require Import Topology.
From S2P Require Import Wire.
From S2P Require Import Follow.
From S2P Require Import FollowStream.
From S2P Require Import Client.

(** ** The worker *)

(** The message [FollowAggregateTypeEventsResponse] as received. *)
Record Received : Type := mkFrame { cf_payload : option FollowPayload; cf_cursor : Bytes }.

Record FollowRequest : Type := mkFollowRequest {
  fw_aggregate_type : option PbTypeRef;
  fw_start : option FollowStart
}.

(** Reading a stream, opening one again, or ended. *)
Inductive Worker : Type :=
| Reading (request : FollowRequest)
| Reopening (request : FollowRequest)
| Ended.

(** A message of the stream, and whether the receiver still took what was sent;
    the receiver found closed; the result of [open_follow]. *)
Inductive WorkerEvent : Type :=
| EvMessage (message : result Status (option Received)) (taken : bool)
| EvClosed
| EvOpen (opened : result ClientError unit).

Definition resume_from (request : FollowRequest) (frame : Received) : FollowRequest :=
  if bool_decide (cf_cursor frame = []) then request
  else mkFollowRequest (fw_aggregate_type request) (Some (FollowCursor (cf_cursor frame))).

(** The next state, and what was sent to the receiver. *)
Definition worker_step (s : Worker) (e : WorkerEvent) : Worker * list (result ClientError Received) :=
  match s, e with
  | Reading request, EvMessage (Ok (Some frame)) taken =>
      if taken then (Reading (resume_from request frame), [Ok frame]) else (Ended, [])
  | Reading request, EvMessage (Ok None) _ => (Reopening request, [])
  | Reading request, EvMessage (Err st) taken =>
      if is_retryable_code (st_code st) then (Reopening request, [])
      else (Ended, if taken then [Err (from_status st)] else [])
  | Reopening request, EvClosed => (Ended, [])
  | Reopening request, EvOpen (Ok _) => (Reading request, [])
  | Reopening request, EvOpen (Err e) =>
      if is_retryable_client_error e then (Reopening request, []) else (Ended, [Err e])
  | _, _ => (s, [])
  end.

Fixpoint run_follow (s : Worker) (events : list WorkerEvent) : Worker * list (result ClientError Received) :=
  match events with
  | [] => (s, [])
  | e :: rest =>
      let '(s, sent) := worker_step s e in
      let '(s, more) := run_follow s rest in
      (s, sent ++ more)
  end.

(** ** The streams behind it *)

(** A frame as the server sends it. *)
Definition received (r : FollowResponse) : Received := mkFrame (Some (fr_payload r)) (fr_cursor r).

Section Streams.
Context {M : Type} `{SmCodecLaws M} `{TreeLaws} `{TokenCodecLaws} `{!CodecTotal AggregateCursor}.
Context (ty : AggregateTypeId) (d : AggregateTypeDefinition) (hist : N -> N -> option AggregateEvent).

(** The positions a stream opened with this start begins at. *)
Definition opens_at (start : option FollowStart) (n : gmap N N) : Prop :=
  exists c, follow_start ty d start = Ok (c, false) /\ positions c = n.

(** The messages the worker can see, [rs] being those its stream has still to
    bring: a message with a frame is the next response of the server, and a
    stream that is opened brings what a server answers to the start of the
    request. Streams may end and fail at any point, and opening may fail. *)
Inductive streams : list FollowResponse -> Worker -> list WorkerEvent -> Prop :=
| StreamsNil rs s : streams rs s []
| StreamsFrame r rs request taken events :
    let e := EvMessage (Ok (Some (received r))) taken in
    streams rs (worker_step (Reading request) e).1 events ->
    streams (r :: rs) (Reading request) (e :: events)
| StreamsOpen rs rs' request events :
    served (M := M) ty hist d (fw_start request) rs' ->
    streams rs' (Reading request) events -> streams rs (Reopening request) (EvOpen (Ok tt) :: events)
| StreamsEnd rs s e events :
    (forall frame taken, e <> EvMessage (Ok (Some frame)) taken) -> (forall request, s = Reopening request -> e <> EvOpen (Ok tt)) ->
    streams rs (worker_step s e).1 events -> streams rs s (e :: events).

(** The frames a receiver got. *)
Definition frames (sent : list (result ClientError Received)) : list Received :=
  omap (fun r => match r with Ok f => Some f | Err _ => None end) sent.

(** A worker's own stream was opened with its request. *)
Definition client_streams (request : FollowRequest) (events : list WorkerEvent) : Prop :=
  exists rs, served (M := M) ty hist d (fw_start request) rs /\ streams rs (Reading request) events.

Context (Hd : definition_wf ty d).

(** No cursor is empty: the encoding of a cursor is not. *)
Context (cursor_bytes_nonempty : forall c, decode_cursor [] ty (td_partition_count d) <> Ok c).

Abbreviation stream := (follow_stream ty (td_partition_count d) hist).

(** The start of the request stands where the receiver does, and what the stream
    has still to bring goes on from there. *)
Definition at_positions (s : Worker) (rs : list FollowResponse) (n : gmap N N) : Prop :=
  match s with
  | Reading request => opens_at (fw_start request) n /\ exists n', stream n rs n'
  | Reopening request => opens_at (fw_start request) n
  | Ended => True
  end.

Lemma opens_at_unique start n n' : opens_at start n -> opens_at start n' -> n = n'.
Proof. intros (c & Hc & <-) (c' & Hc' & <-). rewrite Hc in Hc'. by injection Hc' as <-. Qed.

Lemma resume_from_opens request r n n' :
  stream n [r] n' -> opens_at (fw_start (resume_from request (received r))) n'.
Proof.
  intros Hs. assert (Hr : resumes_at ty (td_partition_count d) (fr_cursor r) n').
  { by inversion Hs as [|? ? ? ? ? ? ? ? ? ? Hrest|? ? ? ? ? ? ? Hrest]; inversion Hrest; subst. }
  destruct Hr as (c & Hc & Hp). unfold resume_from. cbn. rewrite bool_decide_eq_false_2.
  - exists c. cbn. by rewrite Hc.
  - intros He. rewrite He in Hc. by eapply cursor_bytes_nonempty.
Qed.

Lemma follow_stream_cons n r rs n' : stream n (r :: rs) n' -> exists n1, stream n [r] n1 /\ stream n1 rs n'.
Proof.
  inversion 1 as [|? p q e b ? ? Hp He Hb Hrest|? note b ? ? Hn Hb Hrest]; subst; eexists; (split; [|exact Hrest]).
  - by eapply FollowEvent; [..|constructor].
  - by eapply FollowNote; [..|constructor].
Qed.

Lemma served_opens start rs n : served (M := M) ty hist d start rs -> opens_at start n -> exists n', stream n rs n'.
Proof.
  intros Hs (c & Hc & <-). apply served_stream in Hs as (c' & n' & Hc' & Hf); [|done].
  rewrite Hc in Hc'. injection Hc' as <-. by exists n'.
Qed.

Lemma run_follow_ended events : run_follow Ended events = (Ended, []).
Proof. induction events as [|e events IH]; cbn; [done|by rewrite IH]. Qed.

Lemma worker_gapless left s events :
  streams left s events -> forall n, at_positions s left n ->
  exists rs n', frames (run_follow s events).2 = map received rs /\ stream n rs n'.
Proof.
  induction 1 as [left s|r left request taken events e Hs IH|left left' request events Ho Hs IH|left s e events He Ho Hs IH];
    intros n Hat.
  - exists [], n. split; [done|constructor].
  - destruct Hat as [Hat (n2 & (n1 & Hr & Hrest)%follow_stream_cons)]. cbn [run_follow]. destruct taken.
    + destruct (IH n1) as (rs & n3 & Hf & Hrs); [split; [by eapply resume_from_opens|by exists n2]|]. exists (r :: rs), n3.
      split; [|apply (follow_stream_app ty _ hist n [r] n1 rs n3 Hr Hrs)].
      cbn in Hf |- *. destruct (run_follow _ events) as [s' more]. cbn in *. by rewrite Hf.
    + exists [], n. split; [|constructor]. cbn. by rewrite run_follow_ended.
  - cbn [run_follow worker_step]. cbn in Hat. destruct (served_opens _ _ _ Ho Hat) as [n2 Hn2].
    destruct (IH n) as (rs & n3 & Hf & Hrs); [split; [done|by exists n2]|].
    exists rs, n3. by destruct (run_follow (Reading request) events).
  - destruct (IH n) as (rs & n2 & Hf & Hrs).
    + destruct s as [request|request|], e as [[[frame|]|st] taken| |[[]|er]]; try (by destruct (He frame taken));
        try (by destruct (Ho request eq_refl)); cbn; repeat case_match; try done; by apply Hat.
    + exists rs, n2. split; [|done]. cbn [run_follow].
      destruct (worker_step s e) as [s1 sent] eqn:Hw. cbn in Hf. destruct (run_follow s1 events) as [s2 more]. cbn in Hf |- *.
      unfold frames. rewrite omap_app. replace (omap _ sent) with (@nil Received); [done|].
      destruct s as [request|request|], e as [[[frame|]|st] taken| |[[]|er]]; cbn in Hw; try (by injection Hw as <- <-);
        try (by destruct (He frame taken)); repeat case_match; by injection Hw as <- <-.
Qed.

(** What a receiver gets, from where its request starts. *)
Lemma client_stream request events :
  client_streams request events ->
  exists n rs n', opens_at (fw_start request) n /\
    frames (run_follow (Reading request) events).2 = map received rs /\ stream n rs n'.
Proof.
  intros (left & Hsv & Hs). pose proof (served_stream ty hist d _ _ Hd Hsv) as (c & n1 & Hc & Hf).
  assert (Ho : opens_at (fw_start request) (positions c)) by (by exists c).
  destruct (worker_gapless _ _ _ Hs (positions c)) as (rs & n' & Hr & Hst); [split; [done|by exists n1]|].
  by exists (positions c), rs, n'.
Qed.


End Streams.

(** ** Witness

    All partitions of the type lie on shard 1, which holds two events. The first
    stream is refused by the shard once, brings the first event and ends; the
    server cannot be reached at first; the stream that is opened behind the event
    brings the second one. *)

#[local] Existing Instances demo_codecs demo_codec_laws mem_tree mem_tree_laws demo_token_codecs demo_token_laws.

Definition sources_from (c : AggregateCursor) : gmap N (list PartitionCursor) := default ∅ (follow_sources c demo_single).

Definition responses_from (c : AggregateCursor) (connections : list (Connection (@tree mem_tree))) : list FollowResponse :=
  concat (merger_run (merger_new c (dom (sources_from c)))
    (concat (source_messages (M := N) demo_type false (sources_from c) (fun _ => connections)))).2.

Lemma responses_served start c connections :
  follow_start demo_type demo_single start = Ok (c, false) ->
  Forall (fun q => (q <= u64_max)%N) (cu_next_positions c) -> is_Some (follow_sources c demo_single) ->
  map fst (btree_iter (sources_from c)) = [1%N] -> Forall (connection_ok (M := N) demo_type demo_hist 1) connections ->
  served (M := N) demo_type demo_hist demo_single start (responses_from c connections).
Proof.
  intros Hs Hu [m Hm] Hone Hk. exists c, m, (fun _ => connections).
  assert (Hf : sources_from c = m) by (unfold sources_from; by rewrite Hm).
  exists (concat (source_messages (M := N) demo_type false m (fun _ => connections))). unfold responses_from. rewrite Hf in *.
  destruct (btree_iter m) as [|[s1 cs1] [|? ?]] eqn:Hb; try discriminate Hone. injection Hone as ->.
  split_ands; [done|done|done| | |done].
  - intros s cs Hcs. apply elem_of_btree_iter in Hcs. rewrite Hb in Hcs. apply list_elem_of_singleton in Hcs as [= -> ->].
    split; [lia|done].
  - unfold source_messages. rewrite Hb. cbn [map concat]. rewrite app_nil_r. apply interleave_one.
Qed.

Definition no_response : FollowResponse := mkFollow PayloadRecovered [].

Definition demo_first : list FollowResponse := responses_from demo_start [Refused; demo_connection].

Definition demo_degraded : FollowResponse := nth 0 demo_first no_response.

Definition demo_event : FollowResponse := nth 1 demo_first no_response.

Definition demo_behind : AggregateCursor :=
  match decode_cursor (fr_cursor demo_event) demo_type 256 with Ok c => c | Err _ => demo_start end.

Definition demo_second : list FollowResponse := responses_from demo_behind [demo_connection].

Definition demo_next : FollowResponse := nth 0 demo_second no_response.

Example demo_first_responses : (length demo_first, is_event (fr_payload demo_degraded), is_event (fr_payload demo_event)) = (5, false, true).
Proof. vm_compute. reflexivity. Qed.

Example demo_second_responses : (length demo_second, is_event (fr_payload demo_next)) = (3, true).
Proof. vm_compute. reflexivity. Qed.

Definition demo_worker_events : list WorkerEvent :=
  [EvMessage (Ok (Some (received demo_degraded))) true; EvMessage (Ok (Some (received demo_event))) true;
   EvMessage (Ok None) true; EvOpen (Err (ConnectionFailed "down")); EvOpen (Ok tt);
   EvMessage (Ok (Some (received demo_next))) true].

Definition demo_follow_request : FollowRequest := mkFollowRequest None (Some FollowBeginning).

Lemma u64_bounds (c : AggregateCursor) :
  forallb (fun q => (q <=? u64_max)%N) (cu_next_positions c) = true -> Forall (fun q => (q <= u64_max)%N) (cu_next_positions c).
Proof. intros Hc. apply Forall_forall. intros q Hq. rewrite forallb_True in Hc. apply N.leb_le. by apply Hc. Qed.

Lemma demo_worker_streams : client_streams (M := N) demo_type demo_single demo_hist demo_follow_request demo_worker_events.
Proof.
  exists demo_first. split.
  - apply responses_served; [reflexivity|apply u64_bounds; vm_compute; reflexivity| |vm_compute; reflexivity|].
    + apply (bool_decide_unpack _). vm_compute. exact I.
    + constructor; [exact I|]. constructor; [exact demo_connection_ok|constructor].
  - assert (Hf : demo_first = demo_degraded :: demo_event :: skipn 2 demo_first) by (vm_compute; reflexivity).
    rewrite Hf. apply StreamsFrame. apply StreamsFrame.
    apply StreamsEnd; [done|done|]. cbn [worker_step fst]. apply StreamsEnd; [done|done|].
    cbn [worker_step is_retryable_client_error fst]. apply (StreamsOpen _ _ _ _ demo_second).
    + apply responses_served; [vm_compute; reflexivity|apply u64_bounds; vm_compute; reflexivity| |vm_compute; reflexivity|].
      * apply (bool_decide_unpack _). vm_compute. exact I.
      * constructor; [exact demo_connection_ok|constructor].
    + assert (Hs : demo_second = demo_next :: skipn 1 demo_second) by (vm_compute; reflexivity).
      rewrite Hs. apply StreamsFrame. apply StreamsNil.
Qed.

