(* ===== verification/GrpcBackend.v ===== *)
(** * eventfs-fuse: the backend over gRPC

    The methods of [AggregateStoreClient] ([es-client/src/aggregate.rs]), each a
    request sent through [client_call], and [GrpcBackend] of
    [eventfs-fuse/src/backend.rs], which answers the calls of the file system
    with them, with the conversion of errors.

    An [Rpc] is a request with the type of its answer, as the client receives
    it. The clock, fresh identifiers and the channel of a followed stream are
    parameters; what the channel carries is [forward_frame] of what
    [ClientFollow.run_follow] sends. *)

From S2P Require Import Prelude.
From S2P Require Import Bytes.
From S2P Require Import Core.
From S2P Require Import Aggregate.
From S2P Require Import Catalog.
From S2P Require Import GroupCatalog.
From S2P Require Import Store.
From S2P Require Import RaftType.
From S2P Require Import Config.
From S2P Require Import Topology.
From S2P Require Import Wire.
From S2P Require Import Follow.
From S2P Require Import FollowStream.
From S2P Require Import Service.
From S2P Require Import GroupService.
From S2P Require Import Client.
From S2P Require Import ClientFollow.
From S2P Require Import FusePath.
From S2P Require Import FuseHandle.
From S2P Require Import FuseCodec.
From S2P Require Import FuseBackend.

(** ** Requests *)

(** An aggregate type as listed: its identity may be absent. *)
Record ListedType : Type := mkListed { lt_aggregate_type : option PbTypeRef; lt_active : bool }.

Record StatesReply : Type := mkStatesReply { sy_states : list (string * N); sy_next_page_token : Bytes }.

Inductive Rpc : Type -> Type :=
| RpcCapabilities : Rpc PbCapabilities
| RpcRegister (ty : option PbTypeRef) (operation_id : Bytes) : Rpc PbTypeInfo
| RpcListTypes : Rpc (list ListedType)
| RpcGetType (ty : option PbTypeRef) : Rpc PbTypeInfo
| RpcAppend (q : AppendRequest) : Rpc N
| RpcFollow (q : FollowRequest) : Rpc N
| RpcListStates (ty : option PbTypeRef) (page_size : N) (page_token : Bytes) : Rpc StatesReply
| RpcGetState (ty : option PbTypeRef) (aggregate_id : string) : Rpc StateReply
| RpcPutState (q : PutStateRequest) : Rpc (N * N)
| RpcStatus : Rpc StoreStatus
| RpcCreateGroup (q : GroupRequest) : Rpc PbGroupInfo
| RpcUpdateGroup (q : GroupRequest) : Rpc PbGroupInfo
| RpcDeleteGroup (q : GroupRequest) : Rpc unit
| RpcGetGroup (ty : option PbTypeRef) (name : string) : Rpc PbGroupInfo
| RpcListGroups (ty : option PbTypeRef) : Rpc (list PbGroupInfo)
| RpcFetch (q : FetchRequest) : Rpc FetchResponse
| RpcSettle (ty : option PbTypeRef) (name consumer_id : string) (settlements : list PbSettlement) : Rpc (list SettlementResult)
| RpcRenew (ty : option PbTypeRef) (name consumer_id : string) (delivery_ids : list Bytes) : Rpc (list SettlementResult)
| RpcListPartitions (ty : option PbTypeRef) : Rpc (list PartitionInfo).

(** ** Errors *)

Section Errors.
Context `{DebugText}.

(** [From<ClientError> for BackendError]. *)
Definition backend_of (e : ClientError) : BackendError :=
  match e with
  | RpcFailed code m =>
      match code with
      | CodeInvalidArgument => BeInvalidArgument m
      | CodeNotFound => BeNotFound m
      | CodeAlreadyExists => BeAlreadyExists m
      | CodeFailedPrecondition =>
          if contains "payload" m then BeTooLarge m else if contains "stale" m then BeStale m else BeConflict m
      | CodeUnavailable => BeUnavailable m
      | _ =>
          if bool_decide (code = CodeAborted) then BeConflict m
          else if bool_decide (code = CodeResourceExhausted) || bool_decide (code = CodeOutOfRange) then BeTooLarge m
          else if bool_decide (code = CodePermissionDenied) || bool_decide (code = CodeUnauthenticated) then BePermissionDenied m
          else if bool_decide (code = CodeDeadlineExceeded) then BeTimeout m
          else BeInternal m
      end
  | PayloadTooLarge m => BeTooLarge m
  | InvalidConfig m => BeInvalidArgument m
  | ConnectionFailed m | AllNodesFailed m => BeUnavailable m
  | NotLeader leader => BeUnavailable ("leader=" +:+ debug_leader leader)
  end.

(** ** The frames of a followed stream *)

Context `{SerdeJson}.

(** What the task of [GrpcBackend::follow] forwards; [None] is [continue]. The
    encoding of an event does not fail, so neither does [codec::event_frame]. *)
Definition forward_frame (frame : result ClientError Received) : option (BackendResult Bytes) :=
  match frame with
  | Err e => Some (Err (backend_of e))
  | Ok f =>
      match cf_payload f with
      | Some (PayloadEvent e) => Some (Ok (FuseCodec.event_frame e))
      | Some PayloadCaughtUp => Some (Ok (status_frame "caught_up" None))
      | Some (PayloadDegraded count _) => Some (Ok (status_frame "degraded" (Some count)))
      | Some PayloadRecovered => Some (Ok (status_frame "recovered" None))
      | None => None
      end
  end.

End Errors.

(** ** The methods *)

Section Backend.
Context {W : Type} `{DebugText}.
Context (tonic_connect : string -> W -> W * result ConnectError unit).
Context (rpc : forall X, Rpc X -> string -> W -> W * result Status X).

(** Sending a request through [call]. The attempts suffice ([call_history]), so
    the last case does not arise. *)
Definition api {X} (safety : RetrySafety) (r : Rpc X) (cw : Client * W) : (Client * W) * result ClientError X :=
  match client_call tonic_connect safety (rpc X r) cw.1 cw.2 with
  | Some (c, w, x) => ((c, w), x)
  | None => (cw, Err (NotLeader None))
  end.

Definition Method (X : Type) : Type := Client * W -> (Client * W) * result ClientError X.

Definition open_follow (q : FollowRequest) : Method N := api Idempotent (RpcFollow q).
Definition capabilities : Method PbCapabilities := api Idempotent RpcCapabilities.
Definition client_register_type (ty : option PbTypeRef) (operation_id : Bytes) : Method PbTypeInfo :=
  api Idempotent (RpcRegister ty operation_id).
Definition client_list_types : Method (list ListedType) := api Idempotent RpcListTypes.
Definition client_get_type (ty : option PbTypeRef) : Method PbTypeInfo := api Idempotent (RpcGetType ty).
Definition client_append (q : AppendRequest) : Method N := api Idempotent (RpcAppend q).
(** [follow] opens the first stream; the worker is [run_follow]. *)
Definition client_follow (q : FollowRequest) : Method N := open_follow q.
Definition client_list_states (ty : option PbTypeRef) (page_size : N) (page_token : Bytes) : Method StatesReply :=
  api Idempotent (RpcListStates ty page_size page_token).
Definition client_get_state (ty : option PbTypeRef) (aggregate_id : string) : Method StateReply :=
  api Idempotent (RpcGetState ty aggregate_id).
Definition client_put_state (q : PutStateRequest) : Method (N * N) := api Ambiguous (RpcPutState q).
Definition client_status : Method StoreStatus := api Idempotent RpcStatus.
Definition client_create_group (q : GroupRequest) : Method PbGroupInfo := api Idempotent (RpcCreateGroup q).
Definition client_update_group (q : GroupRequest) : Method PbGroupInfo := api Idempotent (RpcUpdateGroup q).
Definition client_delete_group (q : GroupRequest) : Method unit := api Idempotent (RpcDeleteGroup q).
Definition client_get_group (ty : option PbTypeRef) (name : string) : Method PbGroupInfo := api Idempotent (RpcGetGroup ty name).
Definition client_list_groups (ty : option PbTypeRef) : Method (list PbGroupInfo) := api Idempotent (RpcListGroups ty).
Definition client_fetch_group (q : FetchRequest) : Method FetchResponse := api Ambiguous (RpcFetch q).
Definition client_settle_group (ty : option PbTypeRef) (name consumer_id : string) (settlements : list PbSettlement) :
    Method (list SettlementResult) :=
  api Idempotent (RpcSettle ty name consumer_id settlements).
Definition client_renew_group (ty : option PbTypeRef) (name consumer_id : string) (delivery_ids : list Bytes) :
    Method (list SettlementResult) :=
  api Idempotent (RpcRenew ty name consumer_id delivery_ids).
Definition client_list_partitions (ty : option PbTypeRef) : Method (list PartitionInfo) := api Idempotent (RpcListPartitions ty).

(** ** [GrpcBackend] *)

(** [self.client.clone().method(..).await?], with what becomes of the answer. *)
Definition api_ok {X Y} (m : Method X) (f : X -> BackendResult Y) (cw : Client * W) : (Client * W) * BackendResult Y :=
  let '(cw, x) := m cw in (cw, map_err backend_of x ≫= f).

(** [GrpcBackend::capabilities]. *)
Definition grpc_capabilities : Client * W -> (Client * W) * BackendResult FuseBackend.Capabilities :=
  api_ok capabilities validate_capabilities.

Definition listed_type (info : ListedType) : BackendResult AggregateType :=
  identity ← ok_or (BeInternal "聚合类型缺少身份") (lt_aggregate_type info);
  aggregate_type_new (pt_business_space identity) (pt_aggregate_type identity).

Definition grpc_list_types : Client * W -> (Client * W) * BackendResult (list AggregateType) :=
  api_ok client_list_types (fun infos => result_mapM listed_type (filter (fun i => lt_active i = true) infos)).

Definition grpc_register (t : AggregateType) (operation_id : Uuid) : Client * W -> (Client * W) * BackendResult unit :=
  api_ok (client_register_type (Some (at_proto t)) (uuid_bytes operation_id)) (fun _ => Ok tt).

Definition version_kind (v : AggregateVersionExpectation) : PbVersionKind :=
  match v with
  | VeAny => PvAny
  | VeNoAggregate => PvNoAggregate
  | VeExists => PvAggregateExists
  | VeExact version => PvExact version
  end.

Definition append_request (t : AggregateType) (e : EventEnvelope) : AppendRequest :=
  mkAppendRequest (Some (at_proto t)) (en_aggregate_id e) (Some (Some (version_kind (en_expected_version e))))
    (Some (mkPbNewEvent (uuid_bytes (en_event_id e)) (en_event_type e) (en_data e) (en_metadata e))).

Definition grpc_append (t : AggregateType) (e : EventEnvelope) : Client * W -> (Client * W) * BackendResult N :=
  api_ok (client_append (append_request t e)) Ok.

(** The request of [GrpcBackend::follow]; the answer is the open stream. *)
Definition follow_request (t : AggregateType) : FollowRequest :=
  mkFollowRequest (Some (at_proto t)) (Some FollowBeginning).

Definition grpc_follow (t : AggregateType) : Client * W -> (Client * W) * BackendResult N :=
  api_ok (client_follow (follow_request t)) Ok.

Definition grpc_list_states_page (t : AggregateType) (page_token : Bytes) (page_size : N) :
    Client * W -> (Client * W) * BackendResult StatePage :=
  api_ok (client_list_states (Some (at_proto t)) page_size page_token)
    (fun page => Ok (mkStatePage (map fst (sy_states page)) (sy_next_page_token page))).

Definition is_not_found (e : ClientError) : bool :=
  match e with RpcFailed CodeNotFound _ => true | _ => false end.

Definition grpc_get_state (t : AggregateType) (aggregate_id : string) (cw : Client * W) :
    (Client * W) * BackendResult (option StateDocument) :=
  let '(cw, r) := client_get_state (Some (at_proto t)) aggregate_id cw in
  (cw, match r with
       | Ok v => Ok (Some (mkStateDocument (sr_revision v) (sr_data v) (sr_modified_unix_millis v)))
       | Err e => if is_not_found e then Ok None else Err (backend_of e)
       end).

Definition put_request (t : AggregateType) (aggregate_id : string) (revision : option N) (data : Bytes) : PutStateRequest :=
  mkPutRequest (Some (at_proto t)) aggregate_id (Some (Some (from_option PrExact PrAbsent revision))) data.

Definition grpc_put_state (t : AggregateType) (aggregate_id : string) (revision : option N) (data : Bytes) :
    Client * W -> (Client * W) * BackendResult StateDocument :=
  api_ok (client_put_state (put_request t aggregate_id revision data)) (fun v => Ok (mkStateDocument v.1 data v.2)).

Definition grpc_list_groups (t : AggregateType) : Client * W -> (Client * W) * BackendResult (list string) :=
  api_ok (client_list_groups (Some (at_proto t))) (fun groups => Ok (map gi_name groups)).

Definition grpc_create_group (t : AggregateType) (group_name : string) (operation_id : Uuid) :
    Client * W -> (Client * W) * BackendResult unit :=
  api_ok (client_create_group (mkGroupRequest (Some (at_proto t)) group_name (Some (Some PsBeginning)) None 0
    (uuid_bytes operation_id))) (fun _ => Ok tt).

Definition grpc_fetch_group (t : AggregateType) (group_name consumer_id : string) :
    Client * W -> (Client * W) * BackendResult FetchResponse :=
  api_ok (client_fetch_group (mkFetchRequest (Some (at_proto t)) group_name consumer_id 128 (4 * 1024 * 1024) 1000)) Ok.

(** [.. as i32]. *)
Definition action_number (a : SettlementAction) : N :=
  match a with SaAck => 0 | SaRetry => 1 | SaPark => 2 | SaSkip => 3 end.

Definition grpc_settle_group (t : AggregateType) (group_name consumer_id : string) (settlements : list Settlement) :
    Client * W -> (Client * W) * BackendResult (list SettlementResult) :=
  api_ok (client_settle_group (Some (at_proto t)) group_name consumer_id
    (map (fun s => mkPbSettlement (sv_delivery_id s) (action_number (sv_action s)) (sv_reason s)) settlements)) Ok.

Definition grpc_renew_group (t : AggregateType) (group_name consumer_id : string) (delivery_ids : list Bytes) :
    Client * W -> (Client * W) * BackendResult (list SettlementResult) :=
  api_ok (client_renew_group (Some (at_proto t)) group_name consumer_id delivery_ids) Ok.

(** ** The backend of a mount *)

Context (receive : N -> W -> W * option (BackendResult Bytes)).
Context (fresh_uuid : W -> W * Uuid) (now : W -> W * N).

Definition locally {X} (f : W -> W * X) (cw : Client * W) : (Client * W) * X :=
  let '(w, x) := f cw.2 in ((cw.1, w), x).

Definition grpc_backend (X : Type) (q : Query X) : Client * W -> (Client * W) * X :=
  match q with
  | QListTypes => grpc_list_types
  | QRegister t op => grpc_register t op
  | QAppend t e => grpc_append t e
  | QFollow t => grpc_follow t
  | QReceive receiver => locally (receive receiver)
  | QListStatesPage t token size => grpc_list_states_page t token size
  | QGetState t id => grpc_get_state t id
  | QPutState t id revision data => grpc_put_state t id revision data
  | QListGroups t => grpc_list_groups t
  | QCreateGroup t name op => grpc_create_group t name op
  | QFetch t name consumer => grpc_fetch_group t name consumer
  | QSettle t name consumer settlements => grpc_settle_group t name consumer settlements
  | QRenew t name consumer ids => grpc_renew_group t name consumer ids
  | QNewUuid => locally fresh_uuid
  | QUnixMillis => locally now
  end.

End Backend.
