(* ===== verification/EndToEnd.v ===== *)
(** * A file written is a record stored

    The whole path of a write: the handlers of [eventfs-fuse], the codec of the
    line, the backend over gRPC, the client's retry loop, the service of a node
    and the state machines of the shards.

    What is assumed of the network between a client and the nodes is
    [Network]: while a request is under way the cluster moves on, and an answer
    that arrives is one that a node gave to this request, during the call. *)

From S2P Require Import Prelude.
From S2P Require Import Bytes.
From S2P Require Import Core.
From S2P Require Import Aggregate.
From S2P Require Import Catalog.
From S2P Require Import GroupCatalog.
From S2P Require Import Store.
From S2P Require Import RaftType.
From S2P Require Import StateMachine.
From S2P Require Import ShardSpec.
From S2P Require Import Codecs.
From S2P Require Import Apply.
From S2P Require Import Config.
From S2P Require Import Topology.
From S2P Require Import Wire.
From S2P Require Import Cluster.
From S2P Require Import SingleNode.
From S2P Require Import Service.
From S2P Require Import Client.
From S2P Require Import FusePath.
From S2P Require Import FuseHandle.
From S2P Require Import FuseCodec.
From S2P Require Import FuseInodes.
From S2P Require Import FuseBackend.
From S2P Require Import FuseStream.
From S2P Require Import Fuse.
From S2P Require Import FuseListing.
From S2P Require Import GrpcBackend.

(** ** Programs that use a mount *)

Section Programs.
Context (caps : FuseBackend.Capabilities) `{SerdeJson}.

(** Open a file for writing, write [data] in one piece, flush and close. *)
Definition write_file (ino : N) (data : Bytes) : Op unit :=
  opened ← open_request caps ino O_WRONLY;
  let fh := opened.1.1 in
  _ ← write_request fh 0 data;
  _ ← flush caps fh;
  release caps fh.

(** ** Lemmas: handlers run alone *)

Context {W : Type} (backend : forall X, Query X -> W -> W * X).

Lemma run_on_object {A} fs (w : W) fh (f : OpenHandle -> OpenHandle * A) absent h :
  fs_objects fs !! fh = Some h -> run backend (on_object fh f absent) fs w = Some (with_object fs fh (f h).1, w, Ok (f h).2).
Proof. intros Hh. cbn. rewrite Hh. by destruct (f h). Qed.

Lemma with_object_lookup fs fh h : fs_objects (with_object fs fh h) !! fh = Some h.
Proof. apply lookup_insert_eq. Qed.

Lemma with_object_twice fs fh h h' : with_object (with_object fs fh h) fh h' = with_object fs fh h'.
Proof. unfold with_object. cbn. by rewrite insert_insert_eq. Qed.

(** What a successful submission did. *)
Lemma submit_Ok {Q A} fs w fs' w' fh h begin (call : Q -> Op (BackendResult A)) :
  fs_objects fs !! fh = Some h -> run backend (submit fh begin call) fs w = Some (fs', w', Ok tt) ->
  (exists h', begin h = (h', Ok None) /\ fs' = with_object fs fh h' /\ w' = w) \/
  exists h' q fs1 w1 a, begin h = (h', Ok (Some q)) /\ run backend (call q) (with_object fs fh h') w = Some (fs1, w1, Ok (Ok a)) /\
    run backend (on_object fh (finish_object true) (Ok tt)) fs1 w1 = Some (fs', w', Ok (Ok tt)).
Proof.
  intros Hh. unfold submit. rewrite run_op_bind, (run_on_object fs w fh begin (Ok None) h Hh). cbn [mbind option_bind].
  destruct (begin h) as [h' [[q|]|e]]; cbn [fst snd]; rewrite run_op_bind; cbn [run mbind option_bind]; [| |done].
  - rewrite run_op_bind. destruct (run backend (call q) _ w) as [[[fs1 w1] [[a|e]|e]]|] eqn:Hc; cbn [mbind option_bind]; [| |done..].
    + rewrite run_op_bind. destruct (run backend (on_object _ _ _) fs1 w1) as [[[fs2 w2] [[[]|e]|e]]|] eqn:Hf;
        cbn [mbind option_bind is_ok]; [|done..]. cbn. intros [= -> ->]. right. by exists h', q, fs1, w1, a.
    + rewrite run_op_bind. destruct (run backend (on_object _ _ _) fs1 w1) as [[[fs2 w2] [[[]|e']|e']]|] eqn:Hf;
        cbn [mbind option_bind is_ok]; done.
  - cbn. intros [= <- <-]. left. by exists h'.
Qed.

Lemma commit_event_Ok fs w fs' w' fh t b :
  fs_objects fs !! fh = Some (HEventWrite t b) -> run backend (commit caps fh) fs w = Some (fs', w', Ok tt) ->
  let '(w1, fresh) := backend _ QNewUuid w in
  match buffered_begin b (fun bytes => parse_event bytes (cap_max_event_bytes caps) fresh) with
  | (b', Ok None) => fs' = with_object fs fh (HEventWrite t b') /\ w' = w1
  | (b', Ok (Some e)) =>
      exists v, backend _ (QAppend t e) w1 = (w', Ok v) /\ fs' = with_object fs fh (HEventWrite t (buffered_finish b' true))
  | (_, Err _) => False
  end.
Proof.
  intros Hh. unfold commit. rewrite run_op_bind. cbn [run mbind option_bind atomically]. rewrite Hh, run_op_bind. cbn [run ask mbind option_bind].
  destruct (backend _ QNewUuid w) as [w1 fresh]. intros Hs. apply (submit_Ok _ _ _ _ _ _ _ _ Hh) in Hs. cbn [begin_event] in Hs.
  destruct (buffered_begin b _) as [b' [[e|]|e]]; cbn [begun] in Hs.
  - destruct Hs as [(h' & Hb & _)|(h' & q & fs1 & w2 & v & Hb & Hc & Hf)]; [done|]. injection Hb as <- <-.
    cbn [run ask] in Hc. destruct (backend _ (QAppend t e) w1) as [w3 r] eqn:Ha. injection Hc as <- <- ->.
    cbn in Hf. rewrite lookup_insert_eq in Hf. cbn in Hf. injection Hf as <- <-. exists v. by rewrite with_object_twice.
  - destruct Hs as [(h' & Hb & -> & ->)|(h' & q & fs1 & w2 & v & Hb & _)]; [|done]. injection Hb as <-. done.
  - destruct Hs as [(h' & Hb & _)|(h' & q & fs1 & w2 & v & Hb & _)]; done.
Qed.

(** A handle that has just been opened. *)
Definition with_handle (fs : Fs) (h : OpenHandle) : Fs :=
  mkFs (fs_inodes fs) (<[fs_next_handle fs := h]> (fs_objects fs)) ({[fs_next_handle fs]} ∪ fs_handles fs)
    (wrapping_add_u64 (fs_next_handle fs) 1) (fs_active_consumers fs).

Lemma run_insert_handle fs (w : W) h :
  run backend (insert_handle h) fs w = Some (with_handle fs h, w, Ok (fs_next_handle fs)).
Proof. done. Qed.

Lemma open_object_with fs fh h h' : open_object fs fh = Some h -> open_object (with_object fs fh h') fh = Some h'.
Proof. unfold open_object. cbn. case_bool_decide; [|done]. by rewrite lookup_insert_eq. Qed.

Lemma open_object_new fs h : open_object (with_handle fs h) (fs_next_handle fs) = Some h.
Proof. unfold open_object. cbn. rewrite bool_decide_eq_true_2 by set_solver. by rewrite lookup_insert_eq. Qed.

(** Writing to, flushing and closing a file that was opened, when all succeed. *)
Lemma finish_file_Ok fs w fs' w' fh h data :
  open_object fs fh = Some h -> (forall sh c, h <> HStreamingRead sh c) ->
  run backend (_ ← write_request fh 0 data; _ ← flush caps fh; release caps fh) fs w = Some (fs', w', Ok tt) ->
  exists h1 n fs2 w2, write_object h 0 data = (h1, Ok n) /\
    run backend (commit caps fh) (with_object fs fh h1) w = Some (fs2, w2, Ok tt) /\
    (forall h2, open_object fs2 fh = Some h2 -> (forall sh c, h2 <> HStreamingRead sh c) ->
     exists fs3, fs_objects fs3 = fs_objects fs2 /\ run backend (commit caps fh) fs3 w2 = Some (fs', w', Ok tt)).
Proof.
  intros Ho Hns. pose proof (open_object_lookup fh fs h Ho) as [Hin Hh]. rewrite run_op_bind. unfold write_request.
  rewrite run_op_bind, (run_inner_handle backend fh fs w h Ho). cbn [mbind option_bind].
  rewrite run_op_bind, (run_on_object fs w fh _ _ h Hh). cbn [mbind option_bind run].
  destruct (write_object h 0 data) as [h1 [n|e]]; cbn [fst snd map_err]; [|done].
  rewrite run_op_bind. unfold flush. rewrite run_op_bind.
  rewrite (run_inner_handle backend fh _ w h1 (open_object_with _ _ _ _ Ho)). cbn [mbind option_bind].
  destruct (run backend (commit caps fh) (with_object fs fh h1) w) as [[[fs2 w2] [[]|e]]|] eqn:Hc; cbn [mbind option_bind]; [|done..].
  unfold release. rewrite run_op_bind. cbn [run mbind option_bind atomically]. intros Hr.
  exists h1, n, fs2, w2. split_ands; [done|done|]. intros h2 Ho2 Hns2. rewrite Ho2, run_op_bind in Hr.
  cbn [run of_result ok_or map_err mbind option_bind] in Hr. rewrite run_op_bind in Hr.
  eexists. split; [|destruct h2; [exact Hr|exact Hr|by destruct (Hns2 shared consumer)|exact Hr..]]. done.
Qed.

(** Writing to the events file of a type. *)
Lemma write_events_Ok fs w fs' w' ino s ty data :
  table_node (fs_inodes fs) ino = Some (Events s ty) -> identifier_ok s /\ identifier_ok ty ->
  run backend (write_file ino data) fs w = Some (fs', w', Ok tt) ->
  exists w1 fresh e w2 v fresh', backend _ QNewUuid w = (w1, fresh) /\
    parse_event data (cap_max_event_bytes caps) fresh = Ok e /\
    backend _ (QAppend (mkAggregateType s ty) e) w1 = (w2, Ok v) /\ backend _ QNewUuid w2 = (w', fresh').
Proof.
  intros Hn Hok. unfold write_file, open_request. rewrite run_op_bind, run_op_bind, (run_inner_node backend (Events s ty)) by done.
  cbn [mbind option_bind]. unfold open_handle. cbn [is_directory]. rewrite run_op_bind, (node_aggregate_type_ok _ s ty) by done.
  cbn [of_result run map_err mbind option_bind]. rewrite run_op_bind, run_insert_handle. cbn [mbind option_bind run mret op_ret].
  intros Hr. eapply finish_file_Ok in Hr as (h1 & n & fs2 & w2 & Hw & Hc & Hrel); [|apply open_object_new|done].
  cbn [fst write_object] in *. unfold buffered_write in Hw. cbn in Hw.
  destruct (_ <? _)%N; [done|]. injection Hw as <- <-.
  eapply commit_event_Ok in Hc; [|apply with_object_lookup]. destruct (backend _ QNewUuid w) as [w1 fresh] eqn:Hu.
  unfold buffered_begin in Hc. cbn in Hc. destruct (parse_event data _ fresh) as [e|e] eqn:Hp; [|done].
  destruct Hc as (v & Ha & ->).
  edestruct Hrel as (fs3 & Ho3 & Hc3); [eapply open_object_with, open_object_with, open_object_new|done|].
  eapply commit_event_Ok in Hc3; [|rewrite Ho3; apply with_object_lookup].
  destruct (backend _ QNewUuid w2) as [w3 fresh'] eqn:Hu'. cbn in Hc3. destruct Hc3 as [_ ->].
  by exists w1, fresh, e, w2, v, fresh'.
Qed.

Lemma commit_state_Ok fs w fs' w' fh t id rev b :
  fs_objects fs !! fh = Some (HStateWrite t id rev b) -> run backend (commit caps fh) fs w = Some (fs', w', Ok tt) ->
  match buffered_begin b (fun bytes => _ ← value_from_slice bytes; Ok bytes) with
  | (b', Ok None) => fs' = with_object fs fh (HStateWrite t id rev b') /\ w' = w
  | (b', Ok (Some data)) =>
      exists doc, backend _ (QPutState t id rev data) w = (w', Ok doc) /\
        fs' = with_object fs fh (HStateWrite t id rev (buffered_finish b' true))
  | (_, Err _) => False
  end.
Proof.
  intros Hh. unfold commit. rewrite run_op_bind. cbn [run mbind option_bind atomically]. rewrite Hh.
  intros Hs. apply (submit_Ok _ _ _ _ _ _ _ _ Hh) in Hs. cbn [begin_state] in Hs.
  destruct (buffered_begin b _) as [b' [[data|]|e]]; cbn [begun] in Hs.
  - destruct Hs as [(h' & Hb & _)|(h' & q & fs1 & w2 & doc & Hb & Hc & Hf)]; [done|]. injection Hb as <- <-.
    cbn [run ask] in Hc. destruct (backend _ (QPutState t id rev data) w) as [w3 r] eqn:Ha. injection Hc as <- <- ->.
    cbn in Hf. rewrite lookup_insert_eq in Hf. cbn in Hf. injection Hf as <- <-. exists doc. by rewrite with_object_twice.
  - destruct Hs as [(h' & Hb & -> & ->)|(h' & q & fs1 & w2 & v & Hb & _)]; [|done]. injection Hb as <-. done.
  - destruct Hs as [(h' & Hb & _)|(h' & q & fs1 & w2 & v & Hb & _)]; done.
Qed.

(** Writing to a state file. *)
Lemma write_state_Ok fs w fs' w' ino s ty id data :
  table_node (fs_inodes fs) ino = Some (State s ty id) -> identifier_ok s /\ identifier_ok ty ->
  run backend (write_file ino data) fs w = Some (fs', w', Ok tt) ->
  exists w1 found value doc, backend _ (QGetState (mkAggregateType s ty) id) w = (w1, Ok found) /\
    value_from_slice data = Ok value /\
    backend _ (QPutState (mkAggregateType s ty) id (sd_revision <$> found) data) w1 = (w', Ok doc).
Proof.
  intros Hn [Hs Ht]. unfold write_file, open_request. rewrite run_op_bind, run_op_bind, (run_inner_node backend (State s ty id)) by done.
  cbn [mbind option_bind]. unfold open_handle. cbn [is_directory]. unfold type_of_names, aggregate_type_new, type_id_new.
  rewrite (proj2 (validate_identifier_iff "business_space" s) Hs), (proj2 (validate_identifier_iff "aggregate_type" ty) Ht).
  rewrite run_op_bind. cbn [of_result run map_err mbind option_bind result_bind]. unfold ask_ok. rewrite run_op_bind, run_op_bind.
  cbn [run ask mbind option_bind]. destruct (backend _ (QGetState _ id) w) as [w1 [found|e]]; [|done].
  cbn [of_result run map_err mbind option_bind]. rewrite run_op_bind, run_insert_handle. cbn [mbind option_bind run mret op_ret].
  intros Hr. eapply finish_file_Ok in Hr as (h1 & n & fs2 & w2 & Hw & Hc & Hrel); [|apply open_object_new|done].
  cbn [fst write_object] in *. unfold buffered_write in Hw. cbn in Hw.
  destruct (_ <? _)%N; [done|]. injection Hw as <- <-.
  eapply commit_state_Ok in Hc; [|apply with_object_lookup]. unfold buffered_begin in Hc. cbn in Hc.
  destruct (value_from_slice data) as [value|e] eqn:Hv; [|done]. destruct Hc as (doc & Hp & ->).
  edestruct Hrel as (fs3 & Ho3 & Hc3); [eapply open_object_with, open_object_with, open_object_new|done|].
  eapply commit_state_Ok in Hc3; [|rewrite Ho3; apply with_object_lookup]. cbn in Hc3. destruct Hc3 as [_ ->].
  by exists w1, found, value, doc.
Qed.

End Programs.

Section EndToEnd.
Context {M : Type} `{ClusterLaws M} `{!SmCodecLaws M} `{DebugResponse} `{RpcCodecLaws}.
Context `{DebugText} `{SerdeJson}.
Context (tonic_connect : string -> world -> world * result ConnectError unit).
Context (rpc : forall X, Rpc X -> string -> world -> world * result Status X).
Context (receive : N -> world -> world * option (BackendResult Bytes)).
Context (fresh_uuid : world -> world * Uuid) (now : world -> world * N).

Abbreviation backend := (grpc_backend tonic_connect rpc receive fresh_uuid now).

Record Network : Prop := {
  net_connect a w w' r : world_ok w -> tonic_connect a w = (w', r) -> moves w w';
  net_rpc X (r : Rpc X) a w w' x : world_ok w -> rpc X r a w = (w', x) -> moves w w';
  net_uuid w w' u : world_ok w -> fresh_uuid w = (w', u) -> moves w w';
  (** The answer to an append is that of the handler on some node. *)
  net_append q a w w' v : world_ok w -> rpc _ (RpcAppend q) a w = (w', Ok v) ->
    exists n w1 w2, moves w w1 /\ append_aggregate_event n q w1 = (w2, Ok v) /\ moves w2 w';
  net_put q a w w' v : world_ok w -> rpc _ (RpcPutState q) a w = (w', Ok v) ->
    exists n w1 w2, moves w w1 /\ put_aggregate_state n q w1 = (w2, Ok v) /\ moves w2 w'
}.

Context (net : Network).

Lemma net_steps {X} (r : Rpc X) w w' : world_ok w -> rtc (net_step tonic_connect (rpc X r)) w w' -> moves w w'.
Proof.
  intros Hw Hs. induction Hs as [w|w w1 w2 Hs _ IH]; [by apply moves_refl|].
  assert (Hm : moves w w1) by (destruct Hs; [by eapply net_connect|by eapply net_rpc]).
  eapply moves_trans; [exact Hm|]. apply IH, Hm.
Qed.

(** A call that succeeds got its answer from a node. *)
Lemma api_Ok {X} safety (r : Rpc X) c w c' w' x :
  world_ok w -> api tonic_connect rpc safety r (c, w) = ((c', w'), Ok x) ->
  exists a w1, moves w w1 /\ rpc X r a w1 = (w', Ok x).
Proof.
  intros Hw. unfold api. cbn [fst snd]. destruct (client_call _ _ _ c w) as [[[c1 w1] r1]|] eqn:Hc; [|done].
  intros [= <- <- ->]. apply client_call_step in Hc as (a & w2 & Hs & Ho). exists a, w2. split; [by eapply net_steps|done].
Qed.

Lemma api_ok_Ok {X Y} safety (r : Rpc X) (f : X -> BackendResult Y) c w c' w' y :
  world_ok w -> api_ok (api tonic_connect rpc safety r) f (c, w) = ((c', w'), Ok y) ->
  exists x a w1, moves w w1 /\ rpc X r a w1 = (w', Ok x) /\ f x = Ok y.
Proof.
  intros Hw. unfold api_ok. destruct (api _ _ _ _ (c, w)) as [[c1 w1] [x|e]] eqn:Ha; [|done].
  intros [= <- <- Hf]. apply api_Ok in Ha as (a & w2 & Hm & Ho); [|done]. by exists x, a, w2.
Qed.

(** The event of a line, as it is stored: the identifier is the one of the line,
    or the fresh one the line was given, in its 16 bytes. *)
Definition stored_event (e : EventEnvelope) : NewAggregateEvent :=
  mkNewEvent (be_value (uuid_bytes (en_event_id e))) (en_event_type e) (en_data e) (en_metadata e).

Definition expected_of (v : AggregateVersionExpectation) : ExpectedAggregateVersion :=
  match v with
  | VeAny => AnyVersion
  | VeNoAggregate => NoAggregate
  | VeExists => AggregateExists
  | VeExact version => ExactVersion version
  end.

Lemma proto_type_of s ty tid : proto_aggregate_type (Some (at_proto (mkAggregateType s ty))) = Ok tid -> tid = mkTypeId s ty.
Proof.
  unfold proto_aggregate_type. intros Ht. cbn in Ht. apply map_err_Ok in Ht. unfold type_id_new in Ht. cbn in Ht.
  apply bind_Ok_inv in Ht as (? & _ & Ht). apply bind_Ok_inv in Ht as (? & _ & Ht). by injection Ht as <-.
Qed.

Lemma append_input_request n s ty e tid expected event :
  append_input n (append_request (mkAggregateType s ty) e) = Ok (tid, expected, event) ->
  tid = mkTypeId s ty /\ expected = expected_of (en_expected_version e) /\ event = stored_event e.
Proof.
  unfold append_input. intros Ha. apply bind_Ok_inv in Ha as (tid' & Ht & Ha). apply bind_Ok_inv in Ha as (? & _ & Ha).
  apply bind_Ok_inv in Ha as (ev & [= <-]%ok_or_Ok & Ha). apply bind_Ok_inv in Ha as (? & _ & Ha).
  apply bind_Ok_inv in Ha as (u & Hu%ok_or_Ok & Ha). apply bind_Ok_inv in Ha as (? & _ & Ha). injection Ha as <- <- <-.
  split_ands.
  - by apply proto_type_of in Ht.
  - by destruct (en_expected_version e).
  - unfold uuid_from_slice in Hu. cbn in Hu. unfold stored_event. destruct (_ =? _)%N in Hu; [|done]. by injection Hu as <-.
Qed.


Definition expected_revision (revision : option N) : ExpectedStateRevision :=
  from_option ExactRevision Absent revision.

Lemma grpc_get_state_moves t id c w cw' found :
  world_ok w -> grpc_get_state tonic_connect rpc t id (c, w) = (cw', Ok found) -> moves w cw'.2.
Proof.
  intros Hw. unfold grpc_get_state, client_get_state, api. cbn [fst snd].
  destruct (client_call _ _ _ c w) as [[[c1 w1] r]|] eqn:Hc; [|intros [= <- _]; by apply moves_refl].
  intros [= <- _]. cbn. apply client_call_step in Hc. destruct r as [v|e]; [|by eapply net_steps].
  destruct Hc as (a & w2 & Hs & Ho). apply net_steps in Hs; [|done]. eapply moves_trans; [exact Hs|].
  eapply net_rpc; [done|apply Hs|exact Ho].
Qed.

(** C11: A state file is replaced only as it was when it was opened. When a
    program opens the file of a state document, writes [data], flushes and closes
    it, and every step succeeds, then after the open, at one moment before the
    end, the document had exactly the revision found by the open (or did not
    exist, if none was found), and at that moment [data] took its place at the
    next revision: no update in between is lost. *)
Theorem state_file_replaces_opened (caps : FuseBackend.Capabilities) (s ty id : string) (ino : N) (data : Bytes)
    (fs fs' : Fs) (c c' : Client) (w w' : world)
    (Hw : world_ok w) (Hnode : table_node (fs_inodes fs) ino = Some (State s ty id)) (Hok : identifier_ok s /\ identifier_ok ty)
    (Hrun : run backend (write_file caps ino data) fs (c, w) = Some (fs', (c', w'), Ok tt)) :
  exists found c1 w1 d p pl sh1 sh2 revision,
    grpc_get_state tonic_connect rpc (mkAggregateType s ty) id (c, w) = ((c1, w1), Ok found) /\ moves w w1 /\
    partition_for d id = Ok p /\ td_placements d !! p = Some pl /\
    later (shard_of w1 (pl_shard_id pl)) sh1 /\ later sh2 (shard_of w' (pl_shard_id pl)) /\
    state_matches (expected_revision (sd_revision <$> found)) (s_states sh1 !! (mkTypeId s ty, p, id)) = true /\
    revision = match s_states sh1 !! (mkTypeId s ty, p, id) with None => 0 | Some st => st_revision st + 1 end%N /\
    s_states sh2 = <[(mkTypeId s ty, p, id) := mkState revision data]> (s_states sh1).
Proof.
  apply (write_state_Ok caps backend _ _ _ _ _ s ty id) in Hrun as ([c1 w1] & found & value & doc & Hg & _ & Hp); [|done..].
  cbn [grpc_backend] in Hg, Hp. apply grpc_get_state_moves in Hg as Hm1; [|done]. cbn in Hm1.
  apply api_ok_Ok in Hp as ([revision millis] & a & w2 & Hm2 & Hr & _); [|apply Hm1].
  apply (net_put net) in Hr as (n & w3 & w4 & Hm3 & Hput & Hm4); [|apply Hm2].
  apply put_state_replaced in Hput as (tid & expected & d & p & pl & sh1 & sh2 & hlc & Ht & He & _ & Hpart & Hpl & Hl1 & Hl2 & _ & Hst & Hrev & Hs2 & _);
    [|apply Hm3].
  apply proto_type_of in Ht as ->.
  assert (expected = expected_revision (sd_revision <$> found)) as ->.
  { cbn in He. destruct found as [f|]; cbn in He; by injection He as <-. }
  exists found, c1, w1, d, p, pl, sh1, sh2, revision. split_ands; try done.
  - etrans; [apply Hm2|]. etrans; [apply Hm3|exact Hl1].
  - etrans; [exact Hl2|apply Hm4].
Qed.

End EndToEnd.

(** ** Witnesses: a mount of the single node *)

#[local] Existing Instances demo_xxh3 demo_codecs demo_codec_laws demo_platform mem_tree mem_tree_laws demo_debug
  demo_rpc_codecs demo_rpc_laws demo_debug_text demo_serde.

Definition status_of (f : Failure) : Status := match f with Failed st => st | Panicked m => internal m end.

(** The node at every address serves the three requests. *)
Definition single_rpc (X : Type) (r : Rpc X) (a : string) (w : NodeWorld) : NodeWorld * result Status X :=
  match r with
  | RpcAppend q => append_aggregate_event (M := N) 1 q w
  | RpcPutState q => map_failure status_of (put_aggregate_state (M := N) 1 q) w
  | RpcGetState ty id => map_failure status_of (get_aggregate_state (M := N) 1 ty id) w
  | _ => (w, Err (unavailable "not served"))
  end.

Definition single_connect (a : string) (w : NodeWorld) : NodeWorld * result ConnectError unit := (w, Ok tt).

Definition single_uuid (w : NodeWorld) : NodeWorld * Uuid := (w, 77%N).


Lemma single_network : Network single_connect single_rpc single_uuid.
Proof.
  assert (Hmoves : forall X (r : Rpc X) a w w' x, world_ok w -> single_rpc X r a w = (w', x) -> moves w w').
  { intros X r a w w' x Hw. destruct r; cbn [single_rpc]; try (intros [= <- _]; by apply moves_refl).
    - intros Ha. exact (moving_append 1 q w w' x Hw Ha).
    - unfold map_failure. destruct (get_aggregate_state 1 ty aggregate_id w) as [w1 r] eqn:Hg. intros [= <- _].
      eapply get_state_runs; [exact Hw|exact Hg].
    - unfold map_failure. destruct (put_aggregate_state 1 q w) as [w1 r] eqn:Hg. intros [= <- _].
      eapply put_state_runs; [exact Hw|exact Hg]. }
  split.
  - intros a w w' r Hw [= <- _]. by apply moves_refl.
  - exact Hmoves.
  - intros w w' u Hw [= <- _]. by apply moves_refl.
  - intros q a w w' v Hw Hr. exists 1%N, w, w'. pose proof (Hmoves _ _ _ _ _ _ Hw Hr) as Hm.
    split_ands; [by apply moves_refl|exact Hr|apply moves_refl, Hm].
  - intros q a w w' v Hw Hr. exists 1%N, w, w'. pose proof (Hmoves _ _ _ _ _ _ Hw Hr) as Hm.
    split_ands; [by apply moves_refl| |apply moves_refl, Hm]. cbn [single_rpc] in Hr. unfold map_failure in Hr.
    destruct (put_aggregate_state 1 q w) as [w1 [r|e]]; cbn in Hr; congruence.
Qed.

Definition single_backend : forall X, Query X -> Client * NodeWorld -> (Client * NodeWorld) * X :=
  grpc_backend single_connect single_rpc (fun _ w => (w, None)) single_uuid (fun w => (w, 1000%N)).

(** A mount whose inodes 2 and 3 are the events file of the registered type and
    a state document of it. *)
Definition mounted_fs : Fs :=
  with_inodes fs_new (ensure (ensure table_new (Events "orders" "order") 0).1 (State "orders" "order" "order-1") 0).1.

Definition demo_limits : FuseBackend.Capabilities := FuseBackend.mkCapabilities 1048576 1048576.

Definition demo_line : Bytes :=
  code_text (mkWireEvent "1.0" "order-1" "placed" "paid" None (Some VeNoAggregate) "{}").

Definition demo_client : Client := mkClient ∅ ["http://a:1"] 0.

Abbreviation Outcome := (option (Fs * (Client * NodeWorld) * result (Thrown Errno) unit)).

Definition succeeded (o : Outcome) : bool := match o with Some (_, _, Ok _) => true | _ => false end.

Lemma succeeded_Some (o : Outcome) : succeeded o = true -> exists fs c w, o = Some (fs, (c, w), Ok tt).
Proof. destruct o as [[[fs [c w]] [[]|e]]|]; try done. intros _. by exists fs, c, w. Qed.

Definition demo_event_written : Outcome :=
  run single_backend (write_file demo_limits 2 demo_line) mounted_fs (demo_client, demo_registered.1).

Definition demo_state_written : Outcome :=
  run single_backend (write_file demo_limits 3 (code_text "{}")) mounted_fs (demo_client, demo_appended.1).

Lemma demo_event_succeeds : succeeded demo_event_written = true.
Proof. vm_compute. reflexivity. Qed.

Lemma demo_state_succeeds : succeeded demo_state_written = true.
Proof. vm_compute. reflexivity. Qed.

Lemma demo_names_ok : identifier_ok "orders" /\ identifier_ok "order".
Proof. split; apply (validate_identifier_iff "identifier"); vm_compute; reflexivity. Qed.


Lemma state_file_replaces_opened_witness :
  exists c1 w1 found sh1 sh2 p revision,
    grpc_get_state single_connect single_rpc (mkAggregateType "orders" "order") "order-1" (demo_client, demo_appended.1) = ((c1, w1), Ok found) /\
    state_matches (expected_revision (sd_revision <$> found)) (s_states sh1 !! (demo_type, p, "order-1")) = true /\
    s_states sh2 = <[(demo_type, p, "order-1") := mkState revision (code_text "{}")]> (s_states sh1).
Proof.
  destruct (succeeded_Some _ demo_state_succeeds) as (fs' & c' & w' & Hr). unfold demo_state_written in Hr.
  destruct (state_file_replaces_opened (H5 := single_node_laws) (SmCodecLaws0 := demo_codec_laws) single_connect single_rpc (fun _ w => (w, None)) single_uuid (fun w => (w, 1000%N)) single_network
    demo_limits "orders" "order" "order-1" 3 (code_text "{}") mounted_fs fs' demo_client c' demo_appended.1 w' demo_appended_ok eq_refl demo_names_ok Hr)
    as (found & c1 & w1 & d & p & pl & sh1 & sh2 & revision & Hg & _ & _ & _ & _ & _ & Hst & _ & Hs2).
  exists c1, w1, found, sh1, sh2, p, revision. split; [exact Hg|]. split; [exact Hst|exact Hs2].
Defined.
