(* ===== verification/RaftNetwork.v ===== *)
(** * es-raft: messages between the nodes and administration

    [es-raft/src/network.rs], the client of one peer with the splitting of
    batches that are too large for a message; [rpc_service.rs], the receiving
    side; [admin_service.rs], the administration of a node's Raft groups.

    openraft's messages and handles are parameters: [RaftMessages] with the
    bincode of the messages, [RaftHandle] with the operations of a handle on a
    world [W]. An error of a handle is the text it is printed as; the
    [Display] of a gRPC status is [status_to_string]. *)

From S2P Require Import Prelude.
From S2P Require Import Bytes.
From S2P Require Import Core.
From S2P Require Import Aggregate.
From S2P Require Import Store.
From S2P Require Import RaftType.
From S2P Require Import LogStore.
From S2P Require Import Config.
From S2P Require Import Topology.
From S2P Require Import Bootstrap.
From S2P Require Import Client.
From Stdlib Require Import Wellfounded.Inclusion.

(** es-proto/src/limits.rs. *)
Definition MAX_GRPC_MESSAGE_SIZE : N := 8 * 1024 * 1024.

(** ** Batches that are too large *)

Definition APPEND_WIRE_BUDGET : N := MAX_GRPC_MESSAGE_SIZE - 1024.

Inductive SplitAdvice : Type := NoSplit | ShrinkTo (hint : N) | SingleEntryTooLarge.

(** [v.clamp(lo, hi)]. *)
Definition clamp (v lo hi : N) : N := if (v <? lo)%N then lo else if (hi <? v)%N then hi else v.

(** The product wraps in the release profile. *)
Definition shrink_hint (entries payload_len : N) : N :=
  let by_budget := ((APPEND_WIRE_BUDGET * entries) mod 18446744073709551616 / payload_len)%N in
  clamp by_budget 1 (entries - 1).

Definition split_advice (entries payload_len : N) : SplitAdvice :=
  if (payload_len <=? APPEND_WIRE_BUDGET)%N then NoSplit
  else if (entries <=? 1)%N then SingleEntryTooLarge
  else ShrinkTo (shrink_hint entries payload_len).

(** openraft's [RPCError], as far as this code builds it. *)
Inductive RPCError : Type :=
| RpcNetwork (message : string)
| RpcPayloadTooLarge (entries_hint : N)
| RpcUnreachable (message : string).

Definition pre_send_oversize_err (entries payload_len : N) : option RPCError :=
  match split_advice entries payload_len with
  | NoSplit => None
  | ShrinkTo hint => Some (RpcPayloadTooLarge hint)
  | SingleEntryTooLarge => Some (RpcUnreachable "单条 AppendEntries 超过 8MB 消息上限")
  end.

Definition recv_oversize_err (entries : N) : RPCError :=
  if (entries <=? 1)%N then RpcUnreachable "单条 AppendEntries 超过对端消息上限"
  else RpcPayloadTooLarge (N.max (entries / 2) 1).

(** ** The parameters *)

Class RaftMessages : Type := {
  AppendEntriesRequest : Type;
  AppendEntriesResponse : Type;
  InstallSnapshotRequest : Type;
  InstallSnapshotResponse : Type;
  VoteRequest : Type;
  VoteResponse : Type;
  (** [req.entries.len()]. *)
  entries_len : AppendEntriesRequest -> N;
  c_append_request :: Codec AppendEntriesRequest;
  c_append_response :: Codec AppendEntriesResponse;
  c_install_request :: Codec InstallSnapshotRequest;
  c_install_response :: Codec InstallSnapshotResponse;
  c_vote_request :: Codec VoteRequest;
  c_vote_response :: Codec VoteResponse
}.

Class RaftMessageLaws `{RaftMessages} : Prop := {
  ml_append_request :: CodecLaws AppendEntriesRequest;
  ml_append_response :: CodecLaws AppendEntriesResponse;
  ml_install_request :: CodecLaws InstallSnapshotRequest;
  ml_install_response :: CodecLaws InstallSnapshotResponse;
  ml_vote_request :: CodecLaws VoteRequest;
  ml_vote_response :: CodecLaws VoteResponse
}.

Inductive ServerState : Type := StateLearner | StateFollower | StateCandidate | StateLeader | StateShutdown.

#[export] Instance ServerState_eq_dec : EqDecision ServerState.
Proof. solve_decision. Defined.

(** The derived [Debug] of [ServerState]. *)
Definition debug_server_state (s : ServerState) : string :=
  match s with
  | StateLearner => "Learner"
  | StateFollower => "Follower"
  | StateCandidate => "Candidate"
  | StateLeader => "Leader"
  | StateShutdown => "Shutdown"
  end.

(** What the code reads of [RaftMetrics]. *)
Record RaftMetrics : Type := mkMetrics {
  mt_id : N;
  mt_state : ServerState;
  mt_current_leader : option N;
  mt_current_term : N;
  mt_last_log_index : option N;
  mt_last_applied : option LogId;
  mt_voter_ids : list N
}.

(** A handle [S] of a Raft group, acting on the world [W]. *)
Class RaftHandle (W S : Type) `{RaftMessages} : Type := {
  raft_append_entries : S -> AppendEntriesRequest -> W -> W * result string AppendEntriesResponse;
  raft_install_snapshot : S -> InstallSnapshotRequest -> W -> W * result string InstallSnapshotResponse;
  raft_vote_rpc : S -> VoteRequest -> W -> W * result string VoteResponse;
  raft_initialize : S -> gmap N string -> W -> W * result string unit;
  raft_add_learner : S -> N -> string -> bool -> W -> W * result string unit;
  raft_change_membership : S -> gset N -> bool -> W -> W * result string unit;
  raft_metrics : S -> W -> W * RaftMetrics
}.

(** The messages of the Raft service all carry the shard and a payload. *)
Record RaftMessage : Type := mkRaftMessage { rm_shard_id : N; rm_payload : Bytes }.

(** ** The client of a peer *)

Record GrpcConnection : Type := mkConnection {
  cn_shard_id : N;
  cn_target : N;
  cn_addr : string;
  cn_tls : option TlsClientConfig;
  cn_client : option string
}.

(** [RaftNetworkFactory::new_client]. *)
Definition new_client (shard_id : N) (tls : option TlsClientConfig) (target : N) (addr : string) : GrpcConnection :=
  mkConnection shard_id target addr tls None.

Definition net_err (ctx e : string) : RPCError := RpcNetwork (ctx +:+ ": " +:+ e).

Section Network.
Context {W : Type} `{Platform} `{RaftMessages}.
Context (status_to_string : Status -> string).
(** A unary call of a peer: append, install and vote. *)
Context (rpc_append rpc_install rpc_vote : string -> RaftMessage -> W -> W * result Status Bytes).

(** [GrpcConnection::client]. *)
Definition connection_client (c : GrpcConnection) : GrpcConnection * result RPCError string :=
  match cn_client c with
  | Some client => (c, Ok client)
  | None =>
      let uri := normalize_endpoint (cn_addr c) in
      let r :=
        _ ← map_err (fun e => RpcNetwork ("节点 " +:+ pretty (cn_target c) +:+ " 地址 " +:+ uri +:+ " 非法: " +:+ e))
              (endpoint_from_shared uri);
        map_err (fun e => RpcNetwork ("节点 " +:+ pretty (cn_target c) +:+ " TLS 配置失败（" +:+ uri +:+ "）: " +:+ e))
          (apply_endpoint_tls uri (cn_tls c)) in
      match r with
      | Ok _ => (mkConnection (cn_shard_id c) (cn_target c) (cn_addr c) (cn_tls c) (Some uri), Ok uri)
      | Err e => (c, Err e)
      end
  end.

(** The part the three calls share: [on_status] maps a status. *)
Definition send {X} `{Codec X} (call : string -> RaftMessage -> W -> W * result Status Bytes)
    (on_status : Status -> RPCError) (decode_ctx : string) (payload : Bytes) (c : GrpcConnection) (w : W) :
    GrpcConnection * W * result RPCError X :=
  match connection_client c with
  | (c, Err e) => (c, w, Err e)
  | (c, Ok client) =>
      match call client (mkRaftMessage (cn_shard_id c) payload) w with
      | (w, Err st) => (c, w, Err (on_status st))
      | (w, Ok resp) => (c, w, map_err (net_err decode_ctx) (fst <$> bincode_decode resp))
      end
  end.

Definition append_entries (c : GrpcConnection) (req : AppendEntriesRequest) (w : W) :
    GrpcConnection * W * result RPCError AppendEntriesResponse :=
  match bincode_encode req with
  | Err e => (c, w, Err (net_err "序列化 AppendEntries 请求" e))
  | Ok payload =>
      match pre_send_oversize_err (entries_len req) (len payload) with
      | Some err => (c, w, Err err)
      | None =>
          send rpc_append
            (fun st => if bool_decide (st_code st = CodeResourceExhausted) then recv_oversize_err (entries_len req)
                       else net_err "AppendEntries RPC" (status_to_string st))
            "反序列化 AppendEntries 响应" payload c w
      end
  end.

Definition install_snapshot_rpc (c : GrpcConnection) (req : InstallSnapshotRequest) (w : W) :
    GrpcConnection * W * result RPCError InstallSnapshotResponse :=
  match bincode_encode req with
  | Err e => (c, w, Err (net_err "序列化 InstallSnapshot 请求" e))
  | Ok payload =>
      send rpc_install
        (fun st => if bool_decide (st_code st = CodeResourceExhausted) then RpcPayloadTooLarge 1
                   else net_err "InstallSnapshot RPC" (status_to_string st))
        "反序列化 InstallSnapshot 响应" payload c w
  end.

Definition vote (c : GrpcConnection) (req : VoteRequest) (w : W) :
    GrpcConnection * W * result RPCError VoteResponse :=
  match bincode_encode req with
  | Err e => (c, w, Err (net_err "序列化 Vote 请求" e))
  | Ok payload =>
      send rpc_vote (fun st => net_err "Vote RPC" (status_to_string st)) "反序列化 Vote 响应" payload c w
  end.

End Network.

(** ** rpc_service.rs *)

(** [decode] and [encode]: what follows the value is ignored. *)
Definition rpc_decode {A} `{Codec A} (bytes : Bytes) (what : string) : result Status A :=
  map_err (fun e => invalid_argument ("反序列化 " +:+ what +:+ " 失败: " +:+ e)) (fst <$> bincode_decode bytes).

Definition rpc_encode {A} `{Codec A} (v : A) (what : string) : result Status Bytes :=
  map_err (fun e => internal ("序列化 " +:+ what +:+ " 失败: " +:+ e)) (bincode_encode v).

(** The lookup every handler of the two services begins with. *)
Definition shard_of_request {S} (m : ShardManager S) (shard_id : N) : result Status S :=
  map_err (fun e => not_found ("分片 " +:+ pretty shard_id +:+ ": " +:+ error_to_string e)) (get_shard m shard_id).

Section Service.
Context {W S : Type} `{RaftHandle W S}.
Context (m : ShardManager S).

(** The part the three handlers share. *)
Definition serve_raft {X Y} `{Codec X} `{Codec Y} (op : S -> X -> W -> W * result string Y)
    (request_name op_name response_name : string) (req : RaftMessage) (w : W) : W * result Status Bytes :=
  match shard_of_request m (rm_shard_id req) with
  | Err st => (w, Err st)
  | Ok shard =>
      match rpc_decode (rm_payload req) request_name with
      | Err st => (w, Err st)
      | Ok raft_req =>
          match op shard raft_req w with
          | (w, Err e) => (w, Err (internal (op_name +:+ " 失败: " +:+ e)))
          | (w, Ok resp) => (w, rpc_encode resp response_name)
          end
      end
  end.

Definition serve_append_entries : RaftMessage -> W -> W * result Status Bytes :=
  serve_raft raft_append_entries "AppendEntriesRequest" "append_entries" "AppendEntriesResponse".

Definition serve_vote : RaftMessage -> W -> W * result Status Bytes :=
  serve_raft raft_vote_rpc "VoteRequest" "vote" "VoteResponse".

Definition serve_install_snapshot : RaftMessage -> W -> W * result Status Bytes :=
  serve_raft raft_install_snapshot "InstallSnapshotRequest" "install_snapshot" "InstallSnapshotResponse".

End Service.

(** ** admin_service.rs *)

Record RaftMember : Type := mkRaftMember { rmb_node_id : N; rmb_addr : string }.

Record InitializeRequest : Type := mkInitialize { iq_shard_id : N; iq_members : list RaftMember }.

Record AddLearnerRequest : Type := mkAddLearner {
  lq_shard_id : N;
  lq_member : option RaftMember;
  lq_blocking : bool
}.

Record ChangeMembershipRequest : Type := mkChange {
  mq_shard_id : N;
  mq_voter_ids : list N;
  mq_expected_voters : list N;
  mq_retain : bool
}.

Record ListShardsResponse : Type := mkShards { lr_node_id : N; lr_shard_ids : list N }.

Record GetRaftStateResponse : Type := mkState {
  gs_node_id : N;
  gs_server_state : string;
  gs_is_leader : bool;
  gs_has_leader : bool;
  gs_current_leader : N;
  gs_current_term : N;
  gs_has_last_log_index : bool;
  gs_last_log_index : N;
  gs_has_last_applied : bool;
  gs_last_applied : N;
  gs_voter_ids : list N
}.

(** [join(",")] of the ids of a [BTreeSet]. *)
Definition join_ids (l : list N) : string := String.concat "," (map pretty l).

Definition voters_text (s : gset N) : string := join_ids (sort_n (elements s)).

Section Admin.
Context {W S : Type} `{RaftHandle W S}.
Context (m : ShardManager S).

Definition admin_initialize (req : InitializeRequest) (w : W) : W * result Status unit :=
  match shard_of_request m (iq_shard_id req) with
  | Err st => (w, Err st)
  | Ok shard =>
      if bool_decide (iq_members req = []) then (w, Err (invalid_argument "members 不能为空"))
      else
        let members := collect_map (map (fun x => (rmb_node_id x, rmb_addr x)) (iq_members req)) in
        let '(w, r) := raft_initialize shard members w in
        (w, map_err (fun e => failed_precondition ("initialize 失败: " +:+ e)) r)
  end.

Definition admin_add_learner (req : AddLearnerRequest) (w : W) : W * result Status unit :=
  match shard_of_request m (lq_shard_id req) with
  | Err st => (w, Err st)
  | Ok shard =>
      match lq_member req with
      | None => (w, Err (invalid_argument "member 不能为空"))
      | Some member =>
          let '(w, r) := raft_add_learner shard (rmb_node_id member) (rmb_addr member) (lq_blocking req) w in
          (w, map_err (fun e => internal ("add_learner 失败: " +:+ e)) r)
      end
  end.

(** The check of [change_membership] against the voters the caller has read. *)
Definition check_expected (shard : S) (expected_voters : list N) (w : W) : W * result Status unit :=
  if bool_decide (expected_voters = []) then (w, Ok tt)
  else
    let '(w, mt) := raft_metrics shard w in
    let current : gset N := list_to_set (mt_voter_ids mt) in
    let expected : gset N := list_to_set expected_voters in
    if bool_decide (current = expected) then (w, Ok tt)
    else (w, Err (failed_precondition ("成员集合已变更：当前 [" +:+ voters_text current +:+ "]，期望 [" +:+
                    voters_text expected +:+ "]，请重读后重试"))).

Definition admin_change_membership (req : ChangeMembershipRequest) (w : W) : W * result Status unit :=
  match shard_of_request m (mq_shard_id req) with
  | Err st => (w, Err st)
  | Ok shard =>
      if bool_decide (mq_voter_ids req = []) then (w, Err (invalid_argument "voter_ids 不能为空"))
      else
        match check_expected shard (mq_expected_voters req) w with
        | (w, Err st) => (w, Err st)
        | (w, Ok _) =>
            let '(w, r) := raft_change_membership shard (list_to_set (mq_voter_ids req)) (mq_retain req) w in
            (w, map_err (fun e => internal ("change_membership 失败: " +:+ e)) r)
        end
  end.

Definition admin_list_shards : ListShardsResponse := mkShards (sm_node_id m) (Bootstrap.shard_ids m).

Definition raft_state_response (mt : RaftMetrics) : GetRaftStateResponse :=
  mkState (mt_id mt) (debug_server_state (mt_state mt)) (bool_decide (mt_state mt = StateLeader))
    (bool_decide (is_Some (mt_current_leader mt))) (default 0%N (mt_current_leader mt)) (mt_current_term mt)
    (bool_decide (is_Some (mt_last_log_index mt))) (default 0%N (mt_last_log_index mt))
    (bool_decide (is_Some (mt_last_applied mt))) (default 0%N (li_index <$> mt_last_applied mt))
    (mt_voter_ids mt).

Definition admin_get_raft_state (shard_id : N) (w : W) : W * result Status GetRaftStateResponse :=
  match shard_of_request m shard_id with
  | Err st => (w, Err st)
  | Ok shard => let '(w, mt) := raft_metrics shard w in (w, Ok (raft_state_response mt))
  end.

End Admin.

(** ** Lemmas *)

Lemma clamp_bounds v lo hi : (lo <= hi)%N -> (lo <= clamp v lo hi <= hi)%N.
Proof.
  intros Hle. unfold clamp. destruct (v <? lo)%N eqn:E1; [lia|]. destruct (hi <? v)%N eqn:E2; [lia|].
  apply N.ltb_ge in E1, E2. lia.
Qed.

(** Whatever the sizes, and even if the product wraps, the hint asks for fewer
    entries, and for at least one. *)
Lemma shrink_hint_bounds entries payload_len :
  (2 <= entries)%N -> (1 <= shrink_hint entries payload_len < entries)%N.
Proof.
  intros He. unfold shrink_hint.
  pose proof (clamp_bounds ((APPEND_WIRE_BUDGET * entries) mod 18446744073709551616 / payload_len) 1 (entries - 1)). lia.
Qed.

(** The hint is proportional: entries of average size fit the budget. *)
Lemma shrink_hint_fits entries payload_len :
  (APPEND_WIRE_BUDGET < payload_len)%N -> (APPEND_WIRE_BUDGET * entries <= u64_max)%N ->
  (shrink_hint entries payload_len = 1 \/
   shrink_hint entries payload_len * payload_len <= APPEND_WIRE_BUDGET * entries)%N.
Proof.
  intros Hp Hw. unfold shrink_hint. rewrite (N.mod_small (APPEND_WIRE_BUDGET * entries)) by lia.
  set (q := (APPEND_WIRE_BUDGET * entries / payload_len)%N).
  assert (Hq : (q * payload_len <= APPEND_WIRE_BUDGET * entries)%N).
  { unfold q. rewrite N.mul_comm. apply N.Div0.mul_div_le. }
  unfold clamp. destruct (q <? 1)%N; [by left|]. right. destruct (entries - 1 <? q)%N eqn:E2; [|done].
  apply N.ltb_lt in E2. etrans; [|exact Hq]. apply N.mul_le_mono_r. lia.
Qed.

Lemma recv_oversize_bounds entries hint :
  recv_oversize_err entries = RpcPayloadTooLarge hint -> (1 <= hint < entries)%N.
Proof.
  unfold recv_oversize_err. destruct (entries <=? 1)%N eqn:E; [discriminate|]. apply N.leb_gt in E. intros [= <-].
  pose proof (N.div_lt entries 2). lia.
Qed.

Section NetworkLemmas.
Context {W : Type} `{Platform} `{RaftMessages}.

Lemma connection_client_error c c' e hint : connection_client c = (c', Err e) -> e <> RpcPayloadTooLarge hint.
Proof.
  unfold connection_client. destruct (cn_client c); [discriminate|].
  destruct (endpoint_from_shared _); [|by intros [= _ <-]]. cbn [map_err mbind result_bind].
  destruct (apply_endpoint_tls _ _); by intros [= _ <-].
Qed.

Lemma send_error {X} `{Codec X} (call : string -> RaftMessage -> W -> W * result Status Bytes) on_status ctx payload c w c' w' hint :
  send (X := X) call on_status ctx payload c w = (c', w', Err (RpcPayloadTooLarge hint)) ->
  exists st, on_status st = RpcPayloadTooLarge hint.
Proof.
  unfold send. destruct (connection_client c) as [c1 [client|e]] eqn:Hc.
  2:{ intros [= _ _ ->]. by destruct (connection_client_error _ _ _ hint Hc). }
  destruct (call client _ w) as [w1 [resp|st]].
  - destruct (bincode_decode resp) as [[x n]|]; by intros [=].
  - intros [= _ _ Hst]. eauto.
Qed.

(** The address a connection calls, and a connection that calls its peer's. *)
Definition peer_uri (c : GrpcConnection) : string := normalize_endpoint (cn_addr c).

Definition connection_wf (c : GrpcConnection) : Prop := cn_client c = None \/ cn_client c = Some (peer_uri c).

Lemma connection_client_uri c c' uri :
  connection_wf c -> connection_client c = (c', Ok uri) -> uri = peer_uri c /\ connection_wf c' /\ cn_shard_id c' = cn_shard_id c.
Proof.
  unfold connection_client, connection_wf. intros [Hc|Hc]; rewrite Hc.
  - destruct (_ : result RPCError unit); [|discriminate]. intros [= <- <-]. cbn. auto.
  - intros [= <- <-]. auto.
Qed.

(** An answer came from the call to the peer, for the shard of the connection. *)
Lemma send_Ok {X} `{Codec X} (call : string -> RaftMessage -> W -> W * result Status Bytes) on_status ctx payload c w c' w' (x : X) :
  connection_wf c -> send call on_status ctx payload c w = (c', w', Ok x) ->
  connection_wf c' /\ cn_shard_id c' = cn_shard_id c /\
  exists resp n, call (peer_uri c) (mkRaftMessage (cn_shard_id c) payload) w = (w', Ok resp) /\ bincode_decode resp = Ok (x, n).
Proof.
  intros Hwf. unfold send. destruct (connection_client c) as [c1 [client|e]] eqn:Hc; [|discriminate].
  apply connection_client_uri in Hc as (-> & Hwf' & Hs); [|done]. rewrite Hs.
  destruct (call (peer_uri c) _ w) as [w1 [resp|st]] eqn:Hcall; [|discriminate].
  destruct (bincode_decode resp) as [[y n]|] eqn:Hd; [|by intros [=]]. cbn. intros [= <- <- <-].
  split_ands; [done|done|]. by exists resp, n.
Qed.

End NetworkLemmas.

Lemma serve_raft_Ok {W S X Y : Type} `{Codec X} `{Codec Y} (m : ShardManager S) (op : S -> X -> W -> W * result string Y)
    n1 n2 n3 shard_id payload w w' resp :
  serve_raft m op n1 n2 n3 (mkRaftMessage shard_id payload) w = (w', Ok resp) ->
  exists s x n y, get_shard m shard_id = Ok s /\ bincode_decode payload = Ok (x, n) /\ op s x w = (w', Ok y) /\
    bincode_encode y = Ok resp.
Proof.
  unfold serve_raft, shard_of_request. cbn [rm_shard_id rm_payload].
  destruct (get_shard m shard_id) as [s|] eqn:Hs; [|discriminate]. cbn [map_err]. unfold rpc_decode.
  destruct (bincode_decode payload) as [[x n]|] eqn:Hd; [|discriminate]. cbn.
  destruct (op s x w) as [w1 [y|e]] eqn:Hop; [|discriminate]. intros [= -> He%map_err_Ok].
  by exists s, x, n, y.
Qed.

(** A request and its answer, between the code of the two sides. *)
Lemma exchange {W S X Y : Type} `{CodecLaws X} `{CodecLaws Y} `{Platform} (call : string -> RaftMessage -> W -> W * result Status Bytes)
    (manager_at : string -> W -> ShardManager S)
    (op : S -> X -> W -> W * result string Y) n1 n2 n3 on_status ctx (req : X) payload c w c' w' res :
  (forall uri q w w' bytes, call uri q w = (w', Ok bytes) ->
     exists w1, serve_raft (manager_at uri w1) op n1 n2 n3 q w1 = (w', Ok bytes)) ->
  bincode_encode req = Ok payload -> connection_wf c ->
  send call on_status ctx payload c w = (c', w', Ok res) ->
  connection_wf c' /\ cn_shard_id c' = cn_shard_id c /\
  exists s w1, get_shard (manager_at (peer_uri c) w1) (cn_shard_id c) = Ok s /\ op s req w1 = (w', Ok res).
Proof.
  intros Hnet Henc Hwf (Hwf' & Hid & resp & n & Hcall & Hdec)%send_Ok; [|done]. split_ands; [done|done|].
  apply Hnet in Hcall as (w2 & (s & x & k & y & Hs & Hx & Hop & Hy)%serve_raft_Ok). exists s, w2. split; [done|].
  rewrite <- (app_nil_r payload), (bincode_round_trip _ _ [] Henc) in Hx.
  rewrite <- (app_nil_r resp), (bincode_round_trip _ _ [] Hy) in Hdec. congruence.
Qed.

(** A change of the members that was accepted replaced the voters the caller
    expected, as the handle showed them in the call. *)
Lemma change_membership_Ok {W S : Type} `{RaftHandle W S} (m : ShardManager S) req w w' :
  admin_change_membership m req w = (w', Ok tt) -> mq_expected_voters req <> [] ->
  exists s w1 mt, get_shard m (mq_shard_id req) = Ok s /\ raft_metrics s w = (w1, mt) /\
    (list_to_set (mt_voter_ids mt) : gset N) = list_to_set (mq_expected_voters req) /\
    raft_change_membership s (list_to_set (mq_voter_ids req)) (mq_retain req) w1 = (w', Ok tt).
Proof.
  unfold admin_change_membership, shard_of_request, check_expected. intros Hc Hne.
  destruct (get_shard m (mq_shard_id req)) as [s|]; [|discriminate]. cbn [map_err] in Hc.
  case_bool_decide; [discriminate|]. rewrite bool_decide_eq_false_2 in Hc by done.
  destruct (raft_metrics s w) as [w1 mt] eqn:Hm. case_bool_decide as Heq; [|discriminate].
  destruct (raft_change_membership s _ _ w1) as [w2 r] eqn:Hr. injection Hc as -> Hok%map_err_Ok. subst r.
  by exists s, w1, mt.
Qed.

(** ** Properties *)

Section Properties.
Context {W S : Type} `{Platform} `{RaftHandle W S} `{!RaftMessageLaws}.
Context (status_to_string : Status -> string).
Context (rpc_append rpc_install rpc_vote : string -> RaftMessage -> W -> W * result Status Bytes).

Abbreviation append c req w := (append_entries status_to_string rpc_append c req w).

(** Whoever asks for a smaller batch. *)
Lemma append_hint_bounds c req w c' w' hint :
  append c req w = (c', w', Err (RpcPayloadTooLarge hint)) -> (1 <= hint < entries_len req)%N.
Proof.
  unfold append_entries, pre_send_oversize_err, split_advice.
  destruct (bincode_encode req) as [payload|]; [|discriminate]. destruct (len payload <=? APPEND_WIRE_BUDGET)%N.
  - intros [st Hst]%send_error. case_bool_decide; [by apply recv_oversize_bounds|discriminate].
  - destruct (entries_len req <=? 1)%N eqn:E; [discriminate|]. apply N.leb_gt in E. intros [= _ _ <-].
    apply shrink_hint_bounds. lia.
Qed.

(** C37: a batch of entries that is too large is split, and never sent. Whoever
    finds it too large, the sender or the peer, openraft is asked for a smaller
    batch of at least one entry; a request over the budget does not reach the
    network, its hint is in proportion to its size, and a single entry over the
    budget is reported as unreachable, since it cannot be split. *)
Theorem oversized_batches_split (c c' : GrpcConnection) (req : AppendEntriesRequest) (w w' : W)
  (r : result RPCError AppendEntriesResponse) (Happ : append c req w = (c', w', r)) :
  let n := entries_len req in
  (forall hint, r = Err (RpcPayloadTooLarge hint) -> (1 <= hint < n)%N) /\
  (forall payload, bincode_encode req = Ok payload -> (APPEND_WIRE_BUDGET < len payload)%N ->
     c' = c /\ w' = w /\
     ((n <= 1)%N -> exists message, r = Err (RpcUnreachable message)) /\
     ((2 <= n)%N -> (APPEND_WIRE_BUDGET * n <= u64_max)%N -> exists hint, r = Err (RpcPayloadTooLarge hint) /\
        (hint = 1 \/ hint * len payload <= APPEND_WIRE_BUDGET * n)%N)).
Proof.
  intros n. split; [intros hint ->; by eapply append_hint_bounds|].
  unfold append_entries, pre_send_oversize_err, split_advice in Happ. fold n in Happ.
  intros payload Hp Hlen. rewrite Hp, (proj2 (N.leb_gt _ _) Hlen) in Happ.
  destruct (n <=? 1)%N eqn:E; [apply N.leb_le in E|apply N.leb_gt in E]; injection Happ as <- <- <-.
  - split_ands; [done|done|eauto|lia].
  - split_ands; [done|done|lia|]. intros _ Hw. eexists. split; [done|]. by apply shrink_hint_fits.
Qed.

(** Asking again for what the answer hints at ends. *)
Theorem batch_splitting_ends :
  well_founded (fun m n => exists c req w c' w', entries_len req = n /\
    append c req w = (c', w', Err (RpcPayloadTooLarge m))).
Proof.
  apply (wf_incl _ _ N.lt); [|exact N.lt_wf_0]. intros m n (c & req & w & c' & w' & <- & Happ%append_hint_bounds). lia.
Qed.

(** C36: the Raft messages between nodes are exact. [manager_at] gives the shards
    the node at an address hosts in a world, and the answers of a peer are those
    of its service on these. Then an append, an installation or a vote that
    returns was handled by the replica that the node at the connection's address
    hosts of the connection's shard, with the very request, and the result is the
    very response; and the connection stays one to that shard of that node, as it
    is when it is new. *)
Theorem raft_messages_exact (manager_at : string -> W -> ShardManager S) (c c' : GrpcConnection) (w w' : W)
  (Happend : forall uri q w w' bytes, rpc_append uri q w = (w', Ok bytes) ->
     exists w1, serve_append_entries (manager_at uri w1) q w1 = (w', Ok bytes))
  (Hinstall : forall uri q w w' bytes, rpc_install uri q w = (w', Ok bytes) ->
     exists w1, serve_install_snapshot (manager_at uri w1) q w1 = (w', Ok bytes))
  (Hvote : forall uri q w w' bytes, rpc_vote uri q w = (w', Ok bytes) ->
     exists w1, serve_vote (manager_at uri w1) q w1 = (w', Ok bytes))
  (Hc : connection_wf c) :
  let handled {X Y} (op : S -> X -> W -> W * result string Y) (req : X) (res : Y) :=
    connection_wf c' /\ cn_shard_id c' = cn_shard_id c /\
    exists s w1, get_shard (manager_at (peer_uri c) w1) (cn_shard_id c) = Ok s /\ op s req w1 = (w', Ok res) in
  (forall req res, append c req w = (c', w', Ok res) -> handled raft_append_entries req res) /\
  (forall req res, install_snapshot_rpc status_to_string rpc_install c req w = (c', w', Ok res) ->
     handled raft_install_snapshot req res) /\
  (forall req res, vote status_to_string rpc_vote c req w = (c', w', Ok res) -> handled raft_vote_rpc req res).
Proof.
  intros handled. split_ands; intros req res.
  - unfold append_entries. destruct (bincode_encode req) as [payload|] eqn:He; [|discriminate].
    destruct (pre_send_oversize_err _ _); [discriminate|]. by eapply exchange.
  - unfold install_snapshot_rpc. destruct (bincode_encode req) as [payload|] eqn:He; [|discriminate]. by eapply exchange.
  - unfold vote. destruct (bincode_encode req) as [payload|] eqn:He; [|discriminate]. by eapply exchange.
Qed.

End Properties.

(** ** Witnesses *)

(** The advice at the sizes the tests of the source use. *)
Example split_advice_thrice : split_advice 300 (APPEND_WIRE_BUDGET * 3) = ShrinkTo 100.
Proof. reflexivity. Qed.

Example split_advice_just_over : split_advice 300 (APPEND_WIRE_BUDGET + 1) = ShrinkTo 299.
Proof. reflexivity. Qed.

(** A cluster of one node and one shard, whose world is the set of its voters. *)
Definition demo_messages : RaftMessages := {|
  AppendEntriesRequest := list N; AppendEntriesResponse := N;
  InstallSnapshotRequest := N; InstallSnapshotResponse := N;
  VoteRequest := N; VoteResponse := N;
  entries_len := fun l => len l;
  c_append_request := countable_codec (list N); c_append_response := countable_codec N;
  c_install_request := countable_codec N; c_install_response := countable_codec N;
  c_vote_request := countable_codec N; c_vote_response := countable_codec N
|}.

Lemma demo_message_laws : @RaftMessageLaws demo_messages.
Proof. split; apply countable_codec_laws. Qed.

Definition demo_handle : @RaftHandle (gset N) unit demo_messages := {|
  raft_append_entries := fun _ (req : @AppendEntriesRequest demo_messages) w => (w, Ok (len req : @AppendEntriesResponse demo_messages));
  raft_install_snapshot := fun _ (req : @InstallSnapshotRequest demo_messages) w => (w, Ok (req : @InstallSnapshotResponse demo_messages));
  raft_vote_rpc := fun _ (req : @VoteRequest demo_messages) w => (w, Ok (req : @VoteResponse demo_messages));
  raft_initialize := fun _ members w => (dom members, Ok tt);
  raft_add_learner := fun _ _ _ _ w => (w, Ok tt);
  raft_change_membership := fun _ voters _ _ => (voters, Ok tt);
  raft_metrics := fun _ w => (w, mkMetrics 1 StateLeader (Some 1%N) 1 None None (elements w))
|}.

Definition demo_shards : ShardManager unit := mkManager {[0%N := tt]} 1 1.

(** The one node is at one address. *)
Definition demo_manager_at (uri : string) (w : gset N) : ShardManager unit :=
  if bool_decide (uri = "http://node1") then demo_shards else manager_new 2 0.

Definition demo_connection : GrpcConnection := mkConnection 0 1 "http://node1" None (Some "http://node1").

#[local] Existing Instances demo_platform demo_messages demo_message_laws demo_handle.

Definition demo_serve (serve : ShardManager unit -> RaftMessage -> gset N -> gset N * result Status Bytes) :
    string -> RaftMessage -> gset N -> gset N * result Status Bytes :=
  fun uri q w => serve (demo_manager_at uri w) q w.

Definition demo_append (call : string -> RaftMessage -> gset N -> gset N * result Status Bytes) (req : list N) :
    GrpcConnection * gset N * result RPCError N :=
  append_entries (fun _ => "status") call demo_connection req {[1%N]}.

(** The peer refuses the message: the batch of two is halved. *)
Definition demo_refuse (uri : string) (q : RaftMessage) (w : gset N) : gset N * result Status Bytes :=
  (w, Err (mkStatus CodeResourceExhausted "too large")).

Lemma oversized_batches_split_witness :
  demo_append demo_refuse [7; 8]%N = (demo_connection, {[1%N]}, Err (RpcPayloadTooLarge 1)) /\ (1 <= 1 < 2)%N.
Proof.
  assert (Hr : demo_append demo_refuse [7; 8]%N = (demo_connection, {[1%N]}, Err (RpcPayloadTooLarge 1))) by reflexivity.
  split; [exact Hr|].
  exact (proj1 (oversized_batches_split (fun _ => "status") demo_refuse demo_connection demo_connection
    ([7; 8]%N : list N) {[1%N]} {[1%N]} (Err (RpcPayloadTooLarge 1)) Hr) 1%N eq_refl).
Defined.

Lemma raft_messages_exact_witness :
  demo_append (demo_serve serve_append_entries) [7; 8]%N = (demo_connection, {[1%N]}, Ok 2%N) /\
  exists s w1, get_shard (demo_manager_at "http://node1" w1) 0 = Ok s /\
    raft_append_entries s ([7; 8]%N : list N) w1 = ({[1%N]}, Ok (2%N : AppendEntriesResponse)).
Proof.
  assert (Hr : demo_append (demo_serve serve_append_entries) [7; 8]%N = (demo_connection, {[1%N]}, Ok 2%N))
    by (vm_compute; reflexivity).
  split; [exact Hr|].
  refine (proj2 (proj2 (proj1 (raft_messages_exact (fun _ => "status") (demo_serve serve_append_entries)
    (demo_serve serve_install_snapshot) (demo_serve serve_vote) demo_manager_at demo_connection demo_connection {[1%N]} {[1%N]} _ _ _ _)
    ([7; 8]%N : list N) (2%N : AppendEntriesResponse) Hr))).
  - intros uri q w w' bytes Hs. by exists w.
  - intros uri q w w' bytes Hs. by exists w.
  - intros uri q w w' bytes Hs. by exists w.
  - by right.
Defined.
