(* ===== verification/Ctl.v ===== *)
(** * es-ctl: administration of a cluster

    [es-ctl/src/client.rs], [shards.rs] and the commands [init], [member] and
    [status] of [es-ctl/src/commands/]: connections and leader lookup, the
    shards of the cluster, and what the commands ask of the administration
    service ([RaftNetwork.v]).

    The calls of that service are the class [AdminRpc]; connecting is the
    parameter [tonic_connect], as in [Client.v]. An [anyhow] error is the list
    of its messages, the outermost first. A command returns what it did for each
    shard, in order, with its result; printing is left out. The waits between
    the rounds of a retry only pass time. *)

From S2P Require Import Prelude.
From S2P Require Import Bytes.
From S2P Require Import Core.
From S2P Require Import Aggregate.
From S2P Require Import Store.
From S2P Require Import RaftType.
From S2P Require Import LogStore.
From S2P Require Import Config.
From S2P Require Import Topology.
From S2P Require Import Bootstrap.
From S2P Require Import Client.
From S2P Require Import RaftNetwork.

Abbreviation Anyhow := (list string).

(** [{e}] and [{e:#}]. *)
Definition anyhow_display (e : Anyhow) : string := default "" (head e).
Definition anyhow_alternate (e : Anyhow) : string := String.concat ": " e.

(** ** client.rs *)

Record ClusterClient : Type := mkCluster {
  cc_endpoints : list string;
  cc_channels : gset string;
  cc_cursor : N
}.

(** [filter(|endpoint| seen.insert(endpoint.clone()))]. *)
Fixpoint first_occurrences (seen : gset string) (l : list string) : list string :=
  match l with
  | [] => []
  | e :: l' =>
      if bool_decide (e ∈ seen) then first_occurrences seen l'
      else e :: first_occurrences ({[e]} ∪ seen) l'
  end.

(** [ClusterClient::new]. *)
Definition cluster_client_new (endpoints : list string) : result Anyhow ClusterClient :=
  if bool_decide (endpoints = []) then Err ["--endpoints 不能为空"]
  else Ok (mkCluster (first_occurrences ∅ (map normalize_endpoint endpoints)) ∅ 0).

(** The endpoints are not empty: [new] has checked. *)
Definition rotated_endpoints (c : ClusterClient) : ClusterClient * list string :=
  let n := length (cc_endpoints c) in
  let start := N.to_nat (cc_cursor c `mod` N.of_nat n)%N in
  (mkCluster (cc_endpoints c) (cc_channels c) (wrapping_add_u64 (cc_cursor c) 1),
   omap (fun offset => cc_endpoints c !! ((start + offset) `mod` n)) (seq 0 n)).

Inductive LeaderLookupError : Type := NotInitialized | NoLeader (detail : string).

(** The administration service of an endpoint. *)
Class AdminRpc (W : Type) : Type := {
  rpc_initialize : string -> InitializeRequest -> W -> W * result Status unit;
  rpc_add_learner : string -> AddLearnerRequest -> W -> W * result Status unit;
  rpc_change_membership : string -> ChangeMembershipRequest -> W -> W * result Status unit;
  rpc_list_shards : string -> W -> W * result Status ListShardsResponse;
  rpc_get_raft_state : string -> N -> W -> W * result Status GetRaftStateResponse
}.

Section Cluster.
Context {W : Type} `{AdminRpc W}.
Context (tonic_connect : string -> W -> W * result ConnectError unit).

Abbreviation Session := (ClusterClient * W)%type.

(** [channel_for]; [admin_client] only wraps the channel. *)
Definition admin_client (endpoint : string) (s : Session) : Session * result Anyhow unit :=
  let '(c, w) := s in
  if bool_decide (endpoint ∈ cc_channels c) then (s, Ok tt)
  else
    match tonic_connect endpoint w with
    | (w, Ok _) => ((mkCluster (cc_endpoints c) ({[endpoint]} ∪ cc_channels c) (cc_cursor c), w), Ok tt)
    | (w, Err e) =>
        ((c, w), Err (match e with
                      | BadAddress e => ["非法端点 " +:+ endpoint; e]
                      | BadTls e => ["端点 " +:+ endpoint +:+ " TLS 装配失败: " +:+ e]
                      | Unreachable e => ["连接端点 " +:+ endpoint +:+ " 失败"; e]
                      end))
    end.

(** A call through a fresh or cached channel. *)
Definition via {X} (call : W -> W * result Status X) (endpoint : string) (s : Session) : Session * result Status X :=
  match admin_client endpoint s with
  | (s, Err e) => (s, Err (internal ("连接失败: " +:+ anyhow_display e)))
  | ((c, w), Ok _) => let '(w, r) := call w in ((c, w), r)
  end.

Definition get_raft_state_via (endpoint : string) (shard_id : N) : Session -> Session * result Status GetRaftStateResponse :=
  via (rpc_get_raft_state endpoint shard_id) endpoint.

Definition list_shards_via (endpoint : string) : Session -> Session * result Status ListShardsResponse :=
  via (rpc_list_shards endpoint) endpoint.

Fixpoint try_find_leader_loop (shard_id : N) (endpoints : list string) (initialized : bool) (errors : list string)
    (s : Session) : Session * result LeaderLookupError (string * N) :=
  match endpoints with
  | [] => (s, Err (if initialized then NoLeader (String.concat "；" errors) else NotInitialized))
  | endpoint :: rest =>
      match get_raft_state_via endpoint shard_id s with
      | (s, Ok state) =>
          if gs_is_leader state then (s, Ok (endpoint, gs_node_id state))
          else try_find_leader_loop shard_id rest true errors s
      | (s, Err st) =>
          if bool_decide (st_code st = CodeNotFound) then try_find_leader_loop shard_id rest initialized errors s
          else try_find_leader_loop shard_id rest initialized (errors ++ [endpoint +:+ ": " +:+ st_message st]) s
      end
  end.

Definition try_find_leader (shard_id : N) (s : Session) : Session * result LeaderLookupError (string * N) :=
  let '(c, endpoints) := rotated_endpoints s.1 in
  try_find_leader_loop shard_id endpoints false [] (c, s.2).

Definition find_leader (shard_id : N) (s : Session) : Session * result Anyhow (string * N) :=
  let '(s, r) := try_find_leader shard_id s in
  (s, map_err (fun e =>
        match e with
        | NotInitialized =>
            ["分片 " +:+ pretty shard_id +:+ " 未初始化：所有端点均返回 not_found（请先运行 esctl init）"]
        | NoLeader detail =>
            ["分片 " +:+ pretty shard_id +:+ " 当前无 leader（选举中或全部端点不可达：" +:+ detail +:+ "）"]
        end) r).

(** The rounds of [with_admin_leader]; [f] runs on a connected endpoint. *)
Fixpoint admin_rounds {T} (rounds : nat) (shard_id : N) (f : string -> W -> W * result Status T) (last_error : string)
    (s : Session) : Session * result Anyhow T :=
  match rounds with
  | O => (s, Err ["分片 " +:+ pretty shard_id +:+ " 管理操作失败：" +:+ last_error])
  | S rounds =>
      match try_find_leader shard_id s with
      | (s, Err NotInitialized) =>
          (s, Err ["分片 " +:+ pretty shard_id +:+ " 未初始化（请先运行 esctl init）"])
      | (s, Err (NoLeader detail)) => admin_rounds rounds shard_id f detail s
      | (s, Ok (endpoint, _)) =>
          match admin_client endpoint s with
          | (s, Err e) => admin_rounds rounds shard_id f (anyhow_display e) s
          | ((c, w), Ok _) =>
              match f endpoint w with
              | (w, Ok value) => ((c, w), Ok value)
              | (w, Err st) => admin_rounds rounds shard_id f (st_message st) (c, w)
              end
          end
      end
  end.

Definition with_admin_leader {T} (shard_id : N) (f : string -> W -> W * result Status T) : Session -> Session * result Anyhow T :=
  admin_rounds 3 shard_id f "".

End Cluster.

(** ** shards.rs *)

Definition DEFAULT_SHARD_COUNT : N := 8.

Inductive ShardScopeSource : Type := FromFlag | FromListShards | DefaultFallback.

Record ShardScope : Type := mkScope { sp_ids : list N; sp_source : ShardScopeSource }.

(** [(0..n).collect()]. *)
Definition range_ids (n : N) : list N := map N.of_nat (seq 0 (N.to_nat n)).

(** [count]; [m + 1] wraps in the release profile. *)
Definition scope_count (s : ShardScope) : N :=
  match last (sp_ids s) with Some m => wrapping_add_u64 m 1 | None => 0%N end.

(** What a command has done for a shard, as it prints it. *)
Inductive Change : Type :=
| Initialized (shard_id : N) (members : list RaftMember)
| MemberChanged (shard_id node_id : N) (detail : string).

Section Commands.
Context {W : Type} `{AdminRpc W}.
Context (tonic_connect : string -> W -> W * result ConnectError unit).

Abbreviation Session := (ClusterClient * W)%type.

(** The loop of [detect_shard_scope]: an endpoint that fails is skipped. *)
Fixpoint union_of_shards (endpoints : list string) (all : gset N) (s : Session) : Session * gset N :=
  match endpoints with
  | [] => (s, all)
  | endpoint :: rest =>
      match list_shards_via tonic_connect endpoint s with
      | (s, Ok resp) => union_of_shards rest (all ∪ list_to_set (lr_shard_ids resp)) s
      | (s, Err _) => union_of_shards rest all s
      end
  end.

Definition detect_shard_scope (flag : option N) (s : Session) : Session * ShardScope :=
  match flag with
  | Some n => (s, mkScope (range_ids n) FromFlag)
  | None =>
      let '(s, all) := union_of_shards (cc_endpoints s.1) ∅ s in
      (s, if bool_decide (all = ∅) then mkScope (range_ids DEFAULT_SHARD_COUNT) DefaultFallback
          else mkScope (sort_n (elements all)) FromListShards)
  end.

(** ** Commands *)

(** The state of a command: the connections, the cached scope and the world. *)
Record Ctx : Type := mkCtx { cx_session : Session; cx_scope : option ShardScope }.

Definition Cmd (A : Type) : Type := Ctx -> Ctx * list Change * result Anyhow A.

#[export] Instance cmd_ret : MRet Cmd := fun A a cx => (cx, [], Ok a).

#[export] Instance cmd_bind : MBind Cmd := fun A B f m cx =>
  match m cx with
  | (cx, out, Ok a) => let '(cx, out', r) := f a cx in (cx, out ++ out', r)
  | (cx, out, Err e) => (cx, out, Err e)
  end.

Definition on_session {A} (op : Session -> Session * result Anyhow A) : Cmd A := fun cx =>
  let '(s, r) := op (cx_session cx) in (mkCtx s (cx_scope cx), [], r).

Definition print_change (c : Change) : Cmd unit := fun cx => (cx, [c], Ok tt).

Definition bail {A} (e : Anyhow) : Cmd A := fun cx => (cx, [], Err e).

(** [map_err(|e| anyhow!("..{e:#}"))]. *)
Definition failing_with {A} (what : string) (m : Session -> Session * result Anyhow A) : Cmd A :=
  on_session (fun s => let '(s, r) := m s in (s, map_err (fun e => [what +:+ anyhow_alternate e]) r)).

Fixpoint cmd_each {A} (l : list A) (body : A -> Cmd unit) : Cmd unit :=
  match l with
  | [] => mret tt
  | a :: l' => _ ← body a; cmd_each l' body
  end.

Context (shards_flag : option N).

(** [Ctx::shards]. *)
Definition ctx_shards : Cmd ShardScope := fun cx =>
  match cx_scope cx with
  | Some scope => (cx, [], Ok scope)
  | None =>
      let '(s, scope) := detect_shard_scope shards_flag (cx_session cx) in
      (mkCtx s (Some scope), [], Ok scope)
  end.

(** [target_shards], of [init] and of [member]. *)
Definition target_shards (all_shards : bool) (shard : option N) : Cmd (list N) :=
  if all_shards then scope ← ctx_shards; mret (sp_ids scope)
  else mret [default 0%N shard].

(** *** init.rs *)

(** The endpoints in turn, until one answers [Ok] or says that the shard is
    initialised; a connection that fails ends the loop. *)
Fixpoint init_loop (shard_id : N) (members : list RaftMember) (endpoints : list string) (last_err : option string)
    (s : Session) : Session * result Anyhow unit :=
  match endpoints with
  | [] =>
      (s, Err ["分片 " +:+ pretty shard_id +:+ " 初始化失败：所有端点不可用或已初始化（" +:+
               default "无错误" last_err +:+ "）"])
  | endpoint :: rest =>
      match admin_client tonic_connect endpoint s with
      | (s, Err e) => (s, Err e)
      | ((c, w), Ok _) =>
          match rpc_initialize endpoint (mkInitialize shard_id members) w with
          | (w, Ok _) => ((c, w), Ok tt)
          | (w, Err st) =>
              if bool_decide (st_code st = CodeFailedPrecondition) || bool_decide (st_code st = CodeAlreadyExists)
              then ((c, w), Err ["分片 " +:+ pretty shard_id +:+ " 初始化失败：" +:+ st_message st])
              else init_loop shard_id members rest (Some (endpoint +:+ ": " +:+ st_message st)) (c, w)
          end
      end
  end.

Definition init_shard (shard_id : N) (members : list RaftMember) : Cmd unit :=
  _ ← on_session (fun s =>
        let '(c, endpoints) := rotated_endpoints s.1 in init_loop shard_id members endpoints None (c, s.2));
  print_change (Initialized shard_id members).

(** All shards are tried; the failures are reported at the end. *)
Fixpoint init_all (members : list RaftMember) (shards : list N) (failures : list string) : Cmd (list string) :=
  match shards with
  | [] => mret failures
  | shard_id :: rest => fun cx =>
      match init_shard shard_id members cx with
      | (cx, out, r) =>
          let failures :=
            match r with
            | Ok _ => failures
            | Err e => failures ++ ["分片 " +:+ pretty shard_id +:+ ": " +:+ anyhow_alternate e]
            end in
          let '(cx, out', r') := init_all members rest failures cx in (cx, out ++ out', r')
      end
  end.

Definition init_run (all_shards : bool) (shard : option N) (member : list (N * string)) : Cmd unit :=
  shards ← target_shards all_shards shard;
  let members := map (fun m => mkRaftMember m.1 (normalize_endpoint m.2)) member in
  failures ← init_all members shards [];
  if bool_decide (failures = []) then mret tt
  else bail ["部分分片初始化失败：" +:+ String.concat "；" failures].

(** *** member.rs *)

(** The closure of the second step of [run_add]: the voters as the leader shows
    them, with the node, expecting that they are still the same. *)
Definition promote (shard_id node_id : N) (endpoint : string) (w : W) : W * result Status (list N) :=
  match rpc_get_raft_state endpoint shard_id w with
  | (w, Err st) => (w, Err st)
  | (w, Ok state) =>
      let voters_list := sort_n (elements ({[node_id]} ∪ list_to_set (gs_voter_ids state) : gset N)) in
      let '(w, r) := rpc_change_membership endpoint (mkChange shard_id voters_list (gs_voter_ids state) false) w in
      (w, (fun _ => voters_list) <$> r)
  end.

Definition add_one (member : RaftMember) (blocking learner_only : bool) (shard_id : N) : Cmd unit :=
  _ ← failing_with ("分片 " +:+ pretty shard_id +:+ " 添加 learner 失败：")
        (with_admin_leader tonic_connect shard_id
          (fun endpoint => rpc_add_learner endpoint (mkAddLearner shard_id (Some member) blocking)));
  if learner_only : bool then print_change (MemberChanged shard_id (rmb_node_id member) "已加入分片为 learner")
  else
    voters ← failing_with ("分片 " +:+ pretty shard_id +:+ " 提升成员失败：")
               (with_admin_leader tonic_connect shard_id (promote shard_id (rmb_node_id member)));
    print_change (MemberChanged shard_id (rmb_node_id member)
      ("已提升为投票成员（voters=[" +:+ join_ids voters +:+ "]）")).

Definition run_add (all_shards : bool) (shard : option N) (node_id : N) (addr : string) (no_blocking learner_only : bool) :
    Cmd unit :=
  shards ← target_shards all_shards shard;
  cmd_each shards (add_one (mkRaftMember node_id (normalize_endpoint addr)) (negb no_blocking) learner_only).

(** The closure of [run_remove]. *)
Definition demote (shard_id node_id : N) (retain : bool) (endpoint : string) (w : W) : W * result Status unit :=
  match rpc_get_raft_state endpoint shard_id w with
  | (w, Err st) => (w, Err st)
  | (w, Ok state) =>
      let remain := sort_n (elements (list_to_set (gs_voter_ids state) ∖ {[node_id]} : gset N)) in
      rpc_change_membership endpoint (mkChange shard_id remain (gs_voter_ids state) retain) w
  end.

Definition remove_one (node_id : N) (retain : bool) (shard_id : N) : Cmd unit :=
  '(leader_ep, _) ← on_session (find_leader tonic_connect shard_id);
  state ← on_session (fun s =>
            let '(s, r) := get_raft_state_via tonic_connect leader_ep shard_id s in
            (s, map_err (fun st => ["查询分片 " +:+ pretty shard_id +:+ " 状态失败：" +:+ st_message st]) r));
  let voters : gset N := list_to_set (gs_voter_ids state) in
  if negb (bool_decide (node_id ∈ voters))
  then bail ["分片 " +:+ pretty shard_id +:+ " 的投票成员为 [" +:+ voters_text voters +:+ "]，节点 " +:+
             pretty node_id +:+ " 不在其中（learner 无法移除，无对应 RPC）"]
  else
    _ ← failing_with ("分片 " +:+ pretty shard_id +:+ " 移除成员失败：")
          (with_admin_leader tonic_connect shard_id (demote shard_id node_id retain));
    let remain_text := voters_text (voters ∖ {[node_id]}) in
    print_change (MemberChanged shard_id node_id
      (if retain : bool then "已降级为 learner（voters=[" +:+ remain_text +:+ "]）"
       else "已从投票成员中移除（voters=[" +:+ remain_text +:+ "]）")).

Definition run_remove (all_shards : bool) (shard : option N) (node_id : N) (retain : bool) : Cmd unit :=
  shards ← target_shards all_shards shard;
  cmd_each shards (remove_one node_id retain).

(** [run_list]: the states of a shard over all endpoints, the errors, and
    whether any endpoint answered. *)
Fixpoint list_shard (shard_id : N) (endpoints : list string) (acc : list GetRaftStateResponse * list string * bool)
    (s : Session) : Session * (list GetRaftStateResponse * list string * bool) :=
  match endpoints with
  | [] => (s, acc)
  | endpoint :: rest =>
      let '(nodes, errors, reachable) := acc in
      match get_raft_state_via tonic_connect endpoint shard_id s with
      | (s, Ok state) => list_shard shard_id rest (nodes ++ [state], errors, true) s
      | (s, Err st) =>
          if bool_decide (st_code st = CodeNotFound) then list_shard shard_id rest acc s
          else list_shard shard_id rest (nodes, errors ++ [endpoint +:+ ": " +:+ st_message st], reachable) s
      end
  end.

Fixpoint list_all (shards : list N) (acc : list (N * list GetRaftStateResponse) * list string * bool) (s : Session) :
    Session * (list (N * list GetRaftStateResponse) * list string * bool) :=
  match shards with
  | [] => (s, acc)
  | shard_id :: rest =>
      let '(per_shard, errors, reachable) := acc in
      let '(s, (nodes, errors, reachable)) := list_shard shard_id (cc_endpoints s.1) ([], errors, reachable) s in
      list_all rest (per_shard ++ [(shard_id, nodes)], errors, reachable) s
  end.

Definition run_list : Cmd (list (N * list GetRaftStateResponse)) :=
  scope ← ctx_shards;
  on_session (fun s =>
    let '(s, (per_shard, errors, reachable)) := list_all (sp_ids scope) ([], [], false) s in
    (s, if reachable : bool then Ok per_shard
        else Err ["所有端点均不可达，无法查询成员状态（" +:+
                  (if bool_decide (errors = []) then "无错误" else String.concat "；" errors) +:+ "）"])).

(** *** status.rs *)

Record StatusRow : Type := mkRow {
  sw_endpoint : string;
  sw_reachable : bool;
  sw_leader_of : list N;
  sw_following_of : list N;
  sw_term : N
}.

Fixpoint status_row (row : StatusRow) (shards : list N) (s : Session) : Session * StatusRow :=
  match shards with
  | [] => (s, row)
  | shard_id :: rest =>
      match get_raft_state_via tonic_connect (sw_endpoint row) shard_id s with
      | (s, Err _) => status_row row rest s
      | (s, Ok state) =>
          status_row
            (mkRow (sw_endpoint row) true
               (if gs_is_leader state then sw_leader_of row ++ [shard_id] else sw_leader_of row)
               (if negb (gs_is_leader state) && gs_has_leader state then sw_following_of row ++ [shard_id]
                else sw_following_of row)
               (N.max (sw_term row) (gs_current_term state)))
            rest s
      end
  end.

Fixpoint status_rows (shards : list N) (endpoints : list string) (rows : list StatusRow) (s : Session) :
    Session * list StatusRow :=
  match endpoints with
  | [] => (s, rows)
  | endpoint :: rest =>
      let '(s, row) := status_row (mkRow endpoint false [] [] 0) shards s in
      status_rows shards rest (rows ++ [row]) s
  end.

Definition status_run : Cmd (list StatusRow) :=
  scope ← ctx_shards;
  on_session (fun s =>
    let '(s, rows) := status_rows (sp_ids scope) (cc_endpoints s.1) [] s in
    (s, if existsb sw_reachable rows then Ok rows
        else Err ["全部端点不可达：" +:+ String.concat ", " (cc_endpoints s.1)])).

End Commands.

(** ** Lemmas: what a command reports *)

Section Lemmas.
Context {W S : Type} `{RaftHandle W S} `{AdminRpc W}.
Context (tonic_connect : string -> W -> W * result ConnectError unit).

(** A value of [with_admin_leader] is one of its closure, at some endpoint. *)
Lemma admin_rounds_Ok {T} rounds shard_id (f : string -> W -> W * result Status T) last_error s s' v :
  admin_rounds tonic_connect rounds shard_id f last_error s = (s', Ok v) ->
  exists endpoint w w', f endpoint w = (w', Ok v).
Proof.
  revert last_error s. induction rounds as [|rounds IH]; intros last_error s; cbn [admin_rounds]; [discriminate|].
  destruct (try_find_leader _ _ s) as [s1 [[endpoint id]|[|detail]]]; [|discriminate|apply IH].
  destruct (admin_client _ endpoint s1) as [[c w] [u|e]]; [|apply IH].
  destruct (f endpoint w) as [w' [value|st]] eqn:Hf; [|apply IH]. intros [= _ <-]. by exists endpoint, w, w'.
Qed.

(** What a sequence of two commands reports. *)
Lemma cmd_bind_out {A B} (m : Cmd A) (f : A -> Cmd B) (cx cx' : Ctx (W := W)) out r c :
  (m ≫= f) cx = (cx', out, r) -> c ∈ out ->
  exists cx1 out1 r1, m cx = (cx1, out1, r1) /\
    (c ∈ out1 \/ exists a cx2 out2 r2, r1 = Ok a /\ f a cx1 = (cx2, out2, r2) /\ c ∈ out2).
Proof.
  unfold mbind, cmd_bind. destruct (m cx) as [[cx1 out1] [a|e]].
  - destruct (f a cx1) as [[cx2 out2] r2] eqn:Hf. intros [= _ <- _] [Hc|Hc]%elem_of_app.
    + exists cx1, out1, (Ok a). auto.
    + exists cx1, out1, (Ok a). split; [done|]. right. by exists a, cx2, out2, r2.
  - intros [= _ <- _] Hc. exists cx1, out1, (Err e). auto.
Qed.

(** An operation on the connections reports nothing itself. *)
Lemma session_then_out {A B} (op : ClusterClient * W -> ClusterClient * W * result Anyhow A) (f : A -> Cmd B)
    (cx cx' : Ctx (W := W)) out r c :
  (on_session op ≫= f) cx = (cx', out, r) -> c ∈ out ->
  exists s s' a cx1 cx2 out2 r2, op s = (s', Ok a) /\ f a cx1 = (cx2, out2, r2) /\ c ∈ out2.
Proof.
  intros Hr Hc. destruct (cmd_bind_out _ _ _ _ _ _ _ Hr Hc) as (cx1 & out1 & r1 & Hm & Hin).
  unfold on_session in Hm. destruct (op (cx_session cx)) as [s1 r0] eqn:Hop. injection Hm as <- <- <-.
  destruct Hin as [Hin|(a & cx2 & out2 & r2 & -> & Hf & Hin)]; [by apply elem_of_nil in Hin|].
  by exists (cx_session cx), s1, a, (mkCtx s1 (cx_scope cx)), cx2, out2, r2.
Qed.

Lemma failing_then_out {A B} what (m : ClusterClient * W -> ClusterClient * W * result Anyhow A) (f : A -> Cmd B)
    (cx cx' : Ctx (W := W)) out r c :
  (failing_with what m ≫= f) cx = (cx', out, r) -> c ∈ out ->
  exists s s' a cx1 cx2 out2 r2, m s = (s', Ok a) /\ f a cx1 = (cx2, out2, r2) /\ c ∈ out2.
Proof.
  intros Hr Hc. apply (session_then_out _ _ _ _ _ _ _ Hr) in Hc as (s & s' & a & cx1 & cx2 & out2 & r2 & Hm & Hrest).
  destruct (m s) as [s1 r1] eqn:Hms. injection Hm as <- ->%map_err_Ok. by exists s, s1, a, cx1, cx2, out2, r2.
Qed.

Lemma cmd_each_out {A} (l : list A) (body : A -> Cmd unit) (cx cx' : Ctx (W := W)) out r c :
  cmd_each l body cx = (cx', out, r) -> c ∈ out ->
  exists a cx1 cx2 out1 r1, a ∈ l /\ body a cx1 = (cx2, out1, r1) /\ c ∈ out1.
Proof.
  revert cx cx' out r. induction l as [|a l IH]; intros cx cx' out r; cbn [cmd_each].
  - intros [= _ <- _] Hc. by apply elem_of_nil in Hc.
  - intros Hr Hc. destruct (cmd_bind_out _ _ _ _ _ _ _ Hr Hc) as (cx1 & out1 & r1 & Hm & [Hin|Hin]).
    + exists a, cx, cx1, out1, r1. split; [by left|done].
    + destruct Hin as (u & cx2 & out2 & r2 & -> & Hf & Hin). destruct (IH _ _ _ _ Hf Hin) as (a' & ? & ? & ? & ? & ? & ?).
      do 5 eexists. split; [by right|done].
Qed.

Lemma target_shards_out shards_flag all shard (cx cx' : Ctx (W := W)) out r :
  target_shards tonic_connect shards_flag all shard cx = (cx', out, r) -> out = [].
Proof.
  unfold target_shards, ctx_shards, mbind, cmd_bind. destruct all; [|by intros [= _ <- _]].
  destruct (cx_scope cx); [by intros [= _ <- _]|].
  destruct (detect_shard_scope _ _ _) as [s scope]. by intros [= _ <- _].
Qed.

(** The shards the node behind an endpoint hosts in a world. *)
Context (manager_at : string -> W -> ShardManager S).

(** The answers are those of the service of the node behind the endpoint. *)
Record AdminNetwork : Prop := {
  an_change endpoint q w w' : rpc_change_membership endpoint q w = (w', Ok tt) ->
    exists w1, admin_change_membership (manager_at endpoint w1) q w1 = (w', Ok tt);
  an_learner endpoint q w w' : rpc_add_learner endpoint q w = (w', Ok tt) ->
    exists w1, admin_add_learner (manager_at endpoint w1) q w1 = (w', Ok tt)
}.

(** A change of the voters of a shard from [V] to [V'] that the replica of some
    endpoint's node accepted: its own view of the voters was [V] when the change
    was checked. (An empty [V] is not checked.) *)
Definition voters_changed (shard_id : N) (retain : bool) (V V' : gset N) : Prop :=
  exists endpoint s w w1 w2, get_shard (manager_at endpoint w) shard_id = Ok s /\
    raft_change_membership s V' retain w1 = (w2, Ok tt) /\
    (V = ∅ /\ w1 = w \/ exists mt, raft_metrics s w = (w1, mt) /\ list_to_set (mt_voter_ids mt) = V).

(** A learner of a shard that the replica of some endpoint's node accepted. *)
Definition learner_added (shard_id : N) (member : RaftMember) (blocking : bool) : Prop :=
  exists endpoint s w w', get_shard (manager_at endpoint w) shard_id = Ok s /\
    raft_add_learner s (rmb_node_id member) (rmb_addr member) blocking w = (w', Ok tt).

Context (net : AdminNetwork).

Lemma change_checked endpoint shard_id voters expected retain w w' :
  rpc_change_membership endpoint (mkChange shard_id voters expected retain) w = (w', Ok tt) ->
  voters_changed shard_id retain (list_to_set expected) (list_to_set voters).
Proof.
  intros (w1 & Hc)%(an_change net). destruct (decide (expected = [])) as [->|Hne].
  - unfold admin_change_membership, shard_of_request, check_expected in Hc. cbn in Hc.
    destruct (get_shard (manager_at endpoint w1) shard_id) as [s|] eqn:Hs; [|discriminate]. cbn [map_err] in Hc.
    case_bool_decide; [discriminate|]. destruct (raft_change_membership s _ retain w1) as [w2 r] eqn:Hr.
    injection Hc as -> Hok%map_err_Ok. subst r. exists endpoint, s, w1, w1, w'. auto.
  - apply change_membership_Ok in Hc as (s & w2 & mt & Hs & Hm & Hv & Hr); [|done]. cbn in *.
    exists endpoint, s, w1, w2, w'. split_ands; [done|done|right; eauto].
Qed.

Lemma learner_accepted endpoint shard_id member blocking w w' :
  rpc_add_learner endpoint (mkAddLearner shard_id (Some member) blocking) w = (w', Ok tt) ->
  learner_added shard_id member blocking.
Proof.
  intros (w1 & Hc)%(an_learner net). unfold admin_add_learner, shard_of_request in Hc. cbn in Hc.
  destruct (get_shard (manager_at endpoint w1) shard_id) as [s|] eqn:Hs; [|discriminate]. cbn [map_err] in Hc.
  destruct (raft_add_learner s _ _ _ w1) as [w2 r] eqn:Hr. injection Hc as -> Hok%map_err_Ok. subst r.
  by exists endpoint, s, w1, w'.
Qed.

Lemma sorted_voters (V : gset N) : list_to_set (sort_n (elements V)) = V.
Proof.
  apply set_eq. intros x. rewrite elem_of_list_to_set. unfold sort_n. rewrite merge_sort_Permutation.
  apply elem_of_elements.
Qed.

Lemma promote_Ok shard_id node_id endpoint w w' l :
  promote shard_id node_id endpoint w = (w', Ok l) ->
  exists V, voters_changed shard_id false V ({[node_id]} ∪ V) /\ l = sort_n (elements ({[node_id]} ∪ V)).
Proof.
  unfold promote. destruct (rpc_get_raft_state endpoint shard_id w) as [w1 [state|st]]; [|discriminate].
  destruct (rpc_change_membership _ _ w1) as [w2 r] eqn:Hr. intros [= _ Hl].
  destruct r as [[]|st]; [|discriminate]. injection Hl as <-. apply change_checked in Hr.
  rewrite sorted_voters in Hr. eauto.
Qed.

Lemma demote_Ok shard_id node_id retain endpoint w w' :
  demote shard_id node_id retain endpoint w = (w', Ok tt) ->
  exists V, voters_changed shard_id retain V (V ∖ {[node_id]}).
Proof.
  unfold demote. destruct (rpc_get_raft_state endpoint shard_id w) as [w1 [state|st]]; [|discriminate].
  intros Hr%change_checked. rewrite sorted_voters in Hr. eauto.
Qed.

End Lemmas.

(** ** Properties *)

Section Properties.
Context {W S : Type} `{RaftHandle W S} `{AdminRpc W}.
Context (tonic_connect : string -> W -> W * result ConnectError unit).

Section Members.
Context (manager_at : string -> W -> ShardManager S) (net : AdminNetwork manager_at).

Lemma add_one_out member blocking learner_only shard_id (cx cx' : Ctx (W := W)) out r c :
  add_one tonic_connect member blocking learner_only shard_id cx = (cx', out, r) -> c ∈ out ->
  exists detail, c = MemberChanged shard_id (rmb_node_id member) detail /\
    learner_added manager_at shard_id member blocking /\
    (learner_only = false -> exists V, voters_changed manager_at shard_id false V ({[rmb_node_id member]} ∪ V)).
Proof.
  intros Hr Hc. apply (failing_then_out _ _ _ _ _ _ _ _ Hr) in Hc as (s0 & s1 & [] & cx1 & cx2 & out2 & r2 & Hl & Hp & Hc).
  apply admin_rounds_Ok in Hl as (ep & w0 & w1 & Hl). apply (learner_accepted _ net) in Hl. cbn beta iota in Hp.
  destruct learner_only.
  - injection Hp as _ <- _. apply list_elem_of_singleton in Hc as ->. eexists. by split_ands.
  - apply (failing_then_out _ _ _ _ _ _ _ _ Hp) in Hc as (s & s' & voters & cx3 & cx4 & out4 & r4 & Hok & Hprint & Hc).
    injection Hprint as _ <- _. apply list_elem_of_singleton in Hc as ->.
    apply admin_rounds_Ok in Hok as (endpoint & w & w' & Hok). apply (promote_Ok _ net) in Hok as (V & HV & _). eauto 6.
Qed.

Lemma remove_one_out node_id retain shard_id (cx cx' : Ctx (W := W)) out r c :
  remove_one tonic_connect node_id retain shard_id cx = (cx', out, r) -> c ∈ out ->
  exists V detail, c = MemberChanged shard_id node_id detail /\
    voters_changed manager_at shard_id retain V (V ∖ {[node_id]}).
Proof.
  intros Hr Hc. apply (session_then_out _ _ _ _ _ _ _ Hr) in Hc as (_ & _ & [ep id] & cx1 & cx2 & out2 & r2 & _ & Hp & Hc).
  apply (session_then_out _ _ _ _ _ _ _ Hp) in Hc as (_ & _ & state & cx3 & cx4 & out4 & r4 & _ & Hdo & Hc).
  cbv zeta in Hdo. destruct (negb _) in Hdo; [injection Hdo as _ <- _; by apply elem_of_nil in Hc|].
  apply (failing_then_out _ _ _ _ _ _ _ _ Hdo) in Hc as (s & s' & [] & cx5 & cx6 & out6 & r6 & Hok & Hprint & Hc).
  injection Hprint as _ <- _. apply list_elem_of_singleton in Hc as ->.
  apply admin_rounds_Ok in Hok as (endpoint & w & w' & Hok). apply (demote_Ok _ net) in Hok as (V & HV). eauto.
Qed.


End Members.

(** A cluster that cannot be reached is reported as not initialised: every
    endpoint that refuses the connection is passed over like one that does not
    know the shard, so an operation gives up after one round, with the advice to
    initialise the shard. *)
Theorem unreachable_reported_uninitialized {T} (shard_id : N) (f : string -> W -> W * result Status T)
  (c : ClusterClient) (w : W) (Hnone : cc_channels c = ∅)
  (Hdown : forall endpoint w, exists w' e, tonic_connect endpoint w = (w', Err e)) :
  exists s', with_admin_leader tonic_connect shard_id f (c, w) =
    (s', Err ["分片 " +:+ pretty shard_id +:+ " 未初始化（请先运行 esctl init）"]).
Proof.
  assert (Hloop : forall endpoints errors (c : ClusterClient) w, cc_channels c = ∅ -> exists s',
    try_find_leader_loop tonic_connect shard_id endpoints false errors (c, w) = (s', Err NotInitialized)).
  { intros endpoints. induction endpoints as [|endpoint rest IH]; intros errors c0 w0 Hc; cbn [try_find_leader_loop]; [eauto|].
    destruct (Hdown endpoint w0) as (w1 & e & He). unfold get_raft_state_via, via, admin_client.
    rewrite Hc, bool_decide_eq_false_2 by set_solver. rewrite He. cbn [st_code internal].
    rewrite bool_decide_eq_false_2 by discriminate. by apply IH. }
  unfold with_admin_leader. cbn [admin_rounds]. unfold try_find_leader.
  destruct (rotated_endpoints (c, w).1) as [c1 endpoints] eqn:Hrot.
  destruct (Hloop endpoints [] c1 w) as [s' Hs']; [by injection Hrot as <- _|].
  cbn [fst snd]. rewrite Hs'. eauto.
Qed.

(** Initialising a shard ends at the first endpoint that cannot be connected
    to: the endpoints after it are not asked. *)
Theorem init_stops_at_unreachable (shard_id : N) (members : list RaftMember) (endpoint : string) (rest : list string)
  (last_err : option string) (c : ClusterClient) (w w' : W) (e : ConnectError)
  (Hnew : endpoint ∉ cc_channels c) (Hdown : tonic_connect endpoint w = (w', Err e)) :
  exists err, init_loop tonic_connect shard_id members (endpoint :: rest) last_err (c, w) = ((c, w'), Err err).
Proof.
  cbn [init_loop]. unfold admin_client. rewrite bool_decide_eq_false_2 by done. rewrite Hdown. eauto.
Qed.

End Properties.

(** ** Witnesses *)

#[local] Existing Instances demo_messages demo_handle.

(** The cluster of [RaftNetwork.v], reached at any endpoint. *)
Definition demo_admin : AdminRpc (gset N) := {|
  rpc_initialize := fun _ => admin_initialize demo_shards;
  rpc_add_learner := fun _ => admin_add_learner demo_shards;
  rpc_change_membership := fun _ => admin_change_membership demo_shards;
  rpc_list_shards := fun _ w => (w, Ok (admin_list_shards demo_shards));
  rpc_get_raft_state := fun _ => admin_get_raft_state demo_shards
|}.

#[local] Existing Instance demo_admin.

Definition demo_dial (endpoint : string) (w : gset N) : gset N * result ConnectError unit := (w, Ok tt).

Definition demo_ctx : Ctx (W := gset N) := mkCtx (mkCluster ["http://node1"] ∅ 0, {[1%N]}) None.

Definition demo_add : Ctx (W := gset N) * list Change * result Anyhow unit :=
  run_add demo_dial None true None 2 "node2:50051" false false demo_ctx.

Lemma demo_admin_network : AdminNetwork (W := gset N) (S := unit) (fun _ _ => demo_shards).
Proof. split; intros endpoint q w w' Hq; by exists w. Qed.

Definition demo_added : Change := MemberChanged 0 2 "已提升为投票成员（voters=[1,2]）".

(** A node is added: the voters are {1, 2} afterwards. *)
Lemma demo_add_ok : demo_add.1.2 = [demo_added] /\ is_ok demo_add.2 = true /\
  snd (cx_session demo_add.1.1) = ({[1; 2]}%N : gset N).
Proof. vm_compute. split_ands; reflexivity. Qed.


(** No endpoint answers. *)
Definition demo_refused (endpoint : string) (w : gset N) : gset N * result ConnectError unit := (w, Err (Unreachable "refused")).

Lemma unreachable_reported_uninitialized_witness :
  exists s', with_admin_leader demo_refused 0 (promote 0 2) (mkCluster ["http://node1"] ∅ 0, {[1%N]}) =
    (s', Err ["分片 0 未初始化（请先运行 esctl init）"]).
Proof.
  exact (unreachable_reported_uninitialized demo_refused 0 (promote 0 2) (mkCluster ["http://node1"] ∅ 0) {[1%N]} eq_refl
    (fun endpoint w => ex_intro _ w (ex_intro _ (Unreachable "refused") eq_refl))).
Defined.

Lemma init_stops_at_unreachable_witness :
  exists err, init_loop demo_refused 0 [] ["http://node1"; "http://node2"] None (mkCluster [] ∅ 0, {[1%N]}) =
    ((mkCluster [] ∅ 0, {[1%N]}), Err err).
Proof.
  exact (init_stops_at_unreachable demo_refused 0 [] "http://node1" ["http://node2"] None (mkCluster [] ∅ 0) {[1%N]} {[1%N]}
    (Unreachable "refused") ltac:(set_solver) eq_refl).
Defined.
