(* ===== verification/CtlOutput.v ===== *)
(** * es-ctl: the output

    [es-ctl/src/output.rs]: event data and identifiers as text, and the aligned
    tables of the commands. Text is the list of its UTF-8 bytes; its characters
    are the bytes that do not continue one. *)

From S2P Require Import Prelude.
From S2P Require Import Bytes.
From S2P Require Import Redirect.
From S2P Require Import Keys.
From S2P Require Import FuseCodec.

(** [event_data_text]. *)
Definition event_data_text (data : Bytes) : Bytes :=
  if utf8_valid data then data else as_bytes "hex:" ++ as_bytes (hex (take 32 data)).

(** [event_id_text]; [uuid_text] is the [Display] of a [Uuid] of 16 bytes. *)
Definition event_id_text (uuid_text : Bytes -> Bytes) (event_id : Bytes) : Bytes :=
  if bool_decide (length event_id = 16) then uuid_text event_id else as_bytes (hex event_id).

(** [chars().count()]. *)
Definition char_count (s : Bytes) : nat := length (List.filter (fun b => negb (is_continuation b)) s).

Definition spaces (n : nat) : Bytes := replicate n x20.

(** [join("  ")]. *)
Fixpoint join_cells (l : list Bytes) : Bytes :=
  match l with
  | [] => []
  | [cell] => cell
  | cell :: rest => cell ++ spaces 2 ++ join_cells rest
  end.

(** The widest cell of the column, its title included. *)
Definition widths (header : list Bytes) (rows : list (list Bytes)) : list nat :=
  imap (fun index title => Nat.max (max_list (omap (fun row => char_count <$> row !! index) rows)) (char_count title)) header.

Fixpoint padded (ws : list nat) (cells : list Bytes) : list Bytes :=
  match ws, cells with
  | w :: ws', cell :: cells' => (cell ++ spaces (w - char_count cell)) :: padded ws' cells'
  | _, _ => []
  end.

(** A line; there are as many cells as widths. *)
Definition render (ws : list nat) (cells : list Bytes) : Bytes := trim_end (join_cells (padded ws cells)).

(** The lines of a table: the titles, and each row with a cell for each title. *)
Definition table_cells (header : list Bytes) (rows : list (list Bytes)) : list (list Bytes) :=
  header :: map (fun row => map (fun index => default [] (row !! index)) (seq 0 (length header))) rows.

(** [render_table]. *)
Definition render_table (header : list Bytes) (rows : list (list Bytes)) : Bytes :=
  concat (map (fun cells => render (widths header rows) cells ++ [x0a]) (table_cells header rows)).

(** ** Lemmas *)

Lemma char_count_app a b : char_count (a ++ b) = char_count a + char_count b.
Proof. unfold char_count. by rewrite List.filter_app, length_app. Qed.

Lemma char_count_spaces n : char_count (spaces n) = n.
Proof. induction n as [|n IH]; [done|]. cbn. f_equal. exact IH. Qed.

(** Where the column [k] starts. *)
Definition column_start (ws : list nat) (k : nat) : nat := sum_list (take k ws) + 2 * k.

Lemma join_cells_cons a l : l <> [] -> join_cells (a :: l) = a ++ spaces 2 ++ join_cells l.
Proof. by destruct l. Qed.

Lemma padded_column ws cells k cell :
  Forall2 (fun w c => char_count c <= w) ws cells -> cells !! k = Some cell ->
  exists before after, join_cells (padded ws cells) = before ++ cell ++ after /\ char_count before = column_start ws k.
Proof.
  intros Hf. revert k. induction Hf as [|w c ws cells Hc Hf IH]; intros k Hk; [done|]. destruct k as [|k].
  - injection Hk as ->. cbn [padded]. destruct (padded ws cells) as [|d l] eqn:Hp.
    + by exists [], (spaces (w - char_count cell)).
    + exists [], (spaces (w - char_count cell) ++ spaces 2 ++ join_cells (d :: l)). split; [|done].
      by rewrite join_cells_cons, <- app_assoc.
  - cbn in Hk. destruct (IH k Hk) as (before & after & Hj & Hb). exists (c ++ spaces (w - char_count c) ++ spaces 2 ++ before), after.
    split.
    + cbn [padded]. rewrite join_cells_cons, Hj by (by destruct Hf). by rewrite <- !app_assoc.
    + rewrite !char_count_app, !char_count_spaces, Hb. unfold column_start.
      change (sum_list (take (S k) (w :: ws))) with (w + sum_list (take k ws)). lia.
Qed.

Lemma max_list_le n l : n ∈ l -> n <= max_list l.
Proof. apply max_list_elem_of_le. Qed.

Lemma widths_fit header rows cells :
  cells ∈ table_cells header rows -> Forall2 (fun w c => char_count c <= w) (widths header rows) cells.
Proof.
  intros Hin. apply Forall2_same_length_lookup. unfold widths. split.
  - rewrite length_imap. unfold table_cells in Hin.
    apply elem_of_cons in Hin as [->|(row & -> & _)%list_elem_of_fmap]; [done|]. by rewrite length_map, length_seq.
  - intros k w c Hw Hc. apply list_lookup_imap_Some in Hw as (title & Ht & ->).
    apply elem_of_cons in Hin as [->|(row & -> & Hrow)%list_elem_of_fmap]; [rewrite Ht in Hc; injection Hc as ->; lia|].
    change (map ?f ?l) with (f <$> l) in Hc. apply list_lookup_fmap_Some in Hc as (i & -> & Hi). apply lookup_seq in Hi as [-> _].
    cbn. destruct (row !! k) as [cell|] eqn:E; cbn; [|lia]. apply Nat.max_le_iff. left. apply max_list_le.
    apply list_elem_of_omap. exists row. by rewrite E.
Qed.

(** ** Properties *)

(** The columns of a table are aligned. In every line a cell starts as many
    characters into the line as its column in every other line, whatever the
    characters of the cells are; spaces at the end of a line are cut off. *)
Theorem table_columns_aligned (header : list Bytes) (rows : list (list Bytes)) (cells : list Bytes) (k : nat) (cell : Bytes)
  (Hline : cells ∈ table_cells header rows) (Hcell : cells !! k = Some cell) :
  exists line before after,
    render (widths header rows) cells = trim_end line /\ line = before ++ cell ++ after /\
    char_count before = column_start (widths header rows) k.
Proof.
  destruct (padded_column _ _ _ _ (widths_fit _ _ _ Hline) Hcell) as (before & after & Hj & Hb).
  exists (join_cells (padded (widths header rows) cells)), before, after. by split_ands.
Qed.

(** Two columns, a missing cell, and a character of three bytes. *)
Definition demo_titles : list Bytes := [as_bytes "A"; as_bytes "BB"].
Definition demo_rows : list (list Bytes) := [[as_bytes "状"; as_bytes "long"]; [as_bytes "222"; as_bytes "x"]; [as_bytes "4"]].

Example demo_rendered :
  render_table demo_titles demo_rows =
  concat (map (fun line => as_bytes line ++ [x0a]) ["A    BB"; "状    long"; "222  x"; "4"]).
Proof. vm_compute. reflexivity. Qed.

Lemma table_columns_aligned_witness :
  exists line before after, render (widths demo_titles demo_rows) (table_cells demo_titles demo_rows !!! 1) = trim_end line /\
    line = before ++ as_bytes "long" ++ after /\ char_count before = 5.
Proof.
  exact (table_columns_aligned demo_titles demo_rows (table_cells demo_titles demo_rows !!! 1) 1 (as_bytes "long")
    ltac:(right; left) eq_refl).
Defined.
