(* ===== verification/CtlAggregate.v ===== *)
(** * es-ctl: the aggregate commands

    The argument parsers of [es-ctl/src/cli.rs], [output.rs] as far as tokens
    and identifiers are concerned, and [es-ctl/src/commands/aggregate.rs]: what
    each command asks of the cluster through the SDK's methods ([GrpcBackend.v])
    and what it reports.

    A command is a [Script]: it acts on the world and ends with a value, an
    [anyhow] error (its messages, the outermost first) or a panic. The value is
    what the command prints; the layout of text, tables and JSON is left out.
    The uuid crate and clap are not in the repository: [uuid_parse] and [new_v4]
    are parameters, and a command starts from parsed arguments. [debug_str] is
    the [Debug] text of a string. *)

From S2P Require Import Prelude.
From S2P Require Import Bytes.
From S2P Require Import Core.
From S2P Require Import Aggregate.
From S2P Require Import Catalog.
From S2P Require Import GroupCatalog.
From S2P Require Import Redirect.
From S2P Require Import Store.
From S2P Require Import Keys.
From S2P Require Import RaftType.
From S2P Require Import LogStore.
From S2P Require Import StateMachine.
From S2P Require Import ShardSpec.
From S2P Require Import Codecs.
From S2P Require Import Apply.
From S2P Require Import Reads.
From S2P Require Import Config.
From S2P Require Import Topology.
From S2P Require Import Wire.
From S2P Require Import Follow.
From S2P Require Import FollowStream.
From S2P Require Import Cluster.
From S2P Require Import SingleNode.
From S2P Require Import Service.
From S2P Require Import GroupService.
From S2P Require Import Client.
From S2P Require Import ClientFollow.
From S2P Require Import FusePath.
From S2P Require Import FuseHandle.
From S2P Require Import FuseCodec.
From S2P Require Import FuseBackend.
From S2P Require Import GrpcBackend.
From S2P Require Import EndToEnd.
From S2P Require Import Ctl.

(** ** cli.rs: parsing arguments *)

(** [char::to_digit(10)] of a byte. *)
Definition to_digit10 (b : byte) : option N :=
  let n := Byte.to_N b in if ((48 <=? n) && (n <=? 57))%N then Some (n - 48)%N else None.

Fixpoint parse_digits (acc : N) (digits : Bytes) : option N :=
  match digits with
  | [] => Some acc
  | b :: rest =>
      d ← to_digit10 b;
      let acc := (acc * 10 + d)%N in
      if (acc <=? u64_max)%N then parse_digits acc rest else None
  end.

(** [str::parse::<u64>]: digits, after an optional plus sign. *)
Definition parse_u64 (s : string) : option N :=
  match as_bytes s with
  | [] | [x2b] => None
  | x2b :: digits => parse_digits 0 digits
  | digits => parse_digits 0 digits
  end.

(** The [ParseIntError] of a text that does not parse. *)
Fixpoint digits_error (acc : N) (digits : Bytes) : string :=
  match digits with
  | [] => "cannot parse integer from empty string"
  | b :: rest =>
      match to_digit10 b with
      | None => "invalid digit found in string"
      | Some d =>
          if (acc * 10 + d <=? u64_max)%N then digits_error (acc * 10 + d) rest
          else "number too large to fit in target type"
      end
  end.

Definition parse_int_error (s : string) : string :=
  match as_bytes s with
  | x2b :: ((_ :: _) as digits) => digits_error 0 digits
  | digits => digits_error 0 digits
  end.

Record MemberArg : Type := mkMemberArg { ma_node_id : N; ma_addr : string }.

Inductive ExpectedAggregateVersionArg : Type := EvaAny | EvaNoAggregate | EvaAggregateExists | EvaExact (version : N).

Section Parsing.
Context (debug_str : string -> string).

(** [MemberArg::from_str]. *)
Definition member_from_str (s : string) : result string MemberArg :=
  '(id, addr) ← ok_or ("非法成员 " +:+ debug_str s +:+ "：应为 ID@ADDR，如 2@127.0.0.1:50052")
                  (split_once [x40] (as_bytes s));
  node_id ← ok_or ("非法成员 " +:+ debug_str s +:+ "：节点 ID 应为数字") (parse_u64 (String.string_of_list_byte id));
  if bool_decide (addr = []) then Err ("非法成员 " +:+ debug_str s +:+ "：地址不能为空")
  else Ok (mkMemberArg node_id (String.string_of_list_byte addr)).

Definition parse_shards (s : string) : result string N :=
  v ← ok_or ("非法分片数 " +:+ debug_str s +:+ "：应为数字") (parse_u64 s);
  if (v =? 0)%N then Err "分片数必须 ≥ 1" else Ok v.

(** [ExpectedAggregateVersionArg::from_str]. *)
Definition expected_version_from_str (s : string) : result string ExpectedAggregateVersionArg :=
  if bool_decide (s = "any") then Ok EvaAny
  else if bool_decide (s = "no-aggregate") || bool_decide (s = "noaggregate") then Ok EvaNoAggregate
  else if bool_decide (s = "exists") then Ok EvaAggregateExists
  else
    EvaExact <$> ok_or ("非法聚合期望版本 " +:+ debug_str s +:+ "：应为 any、no-aggregate、exists 或数字") (parse_u64 s).

End Parsing.

(** ** cli.rs: the arguments of the commands *)

Record AggregateTypeArgs : Type := mkTypeArgs { ta_business_space : string; ta_aggregate_type : string }.

Record AggregateTypeRegisterArgs : Type := mkRegisterArgs {
  ra_business_space : string;
  ra_aggregate_type : string;
  ra_operation_id : option string
}.

Record AggregateAppendArgs : Type := mkAppendArgs {
  aa_business_space : string;
  aa_aggregate_type : string;
  aa_aggregate_id : string;
  aa_event_type : string;
  aa_data : option string;
  aa_data_file : option string;
  aa_metadata : option string;
  aa_event_id : option string;
  aa_expected_version : ExpectedAggregateVersionArg
}.

Record AggregateFollowArgs : Type := mkFollowArgs {
  fa_business_space : string;
  fa_aggregate_type : string;
  fa_now : bool;
  fa_cursor : option string;
  fa_once : bool
}.

Record AggregateStateListArgs : Type := mkStateListArgs {
  sla_business_space : string;
  sla_aggregate_type : string;
  sla_page_size : N;
  sla_page_token : option string
}.

Record AggregateStateGetArgs : Type := mkStateGetArgs {
  sga_business_space : string;
  sga_aggregate_type : string;
  sga_aggregate_id : string
}.

Record AggregateStatePutArgs : Type := mkStatePutArgs {
  spa_business_space : string;
  spa_aggregate_type : string;
  spa_aggregate_id : string;
  spa_data : option string;
  spa_data_file : option string;
  spa_expected_revision : string
}.

Record AggregateGroupSettingsArgs : Type := mkSettingsArgs {
  gsa_max_unacked_per_consumer : option N;
  gsa_max_unacked_per_group : option N;
  gsa_ack_timeout_ms : option N;
  gsa_max_retries : option N;
  gsa_retry_min_ms : option N;
  gsa_retry_max_ms : option N
}.

Record AggregateGroupCreateArgs : Type := mkCreateArgs {
  gca_business_space : string;
  gca_aggregate_type : string;
  gca_name : string;
  gca_now : bool;
  gca_operation_id : option string;
  gca_settings : AggregateGroupSettingsArgs
}.

Record AggregateGroupUpdateArgs : Type := mkUpdateArgs {
  gua_business_space : string;
  gua_aggregate_type : string;
  gua_name : string;
  gua_expected_revision : N;
  gua_reset_beginning : bool;
  gua_reset_now : bool;
  gua_operation_id : option string;
  gua_settings : AggregateGroupSettingsArgs
}.

Record AggregateGroupDeleteArgs : Type := mkDeleteArgs {
  gda_business_space : string;
  gda_aggregate_type : string;
  gda_name : string;
  gda_expected_revision : N;
  gda_operation_id : option string
}.

Record AggregateGroupFetchArgs : Type := mkFetchArgs {
  gfa_business_space : string;
  gfa_aggregate_type : string;
  gfa_name : string;
  gfa_consumer : string;
  gfa_max_events : N;
  gfa_max_bytes : N;
  gfa_wait_ms : N
}.

Record AggregateGroupSettleArgs : Type := mkSettleArgs {
  gta_business_space : string;
  gta_aggregate_type : string;
  gta_name : string;
  gta_consumer : string;
  gta_delivery : string;
  gta_action : SettlementAction;
  gta_reason : string
}.

(** ** aggregate.rs: helpers *)

Definition type_ref (business_space aggregate_type : string) : PbTypeRef := mkTypeRef business_space aggregate_type.

(** A token, back from its hexadecimal text. *)
Definition token_from_hex (value : string) : result (Thrown Anyhow) Bytes :=
  if negb (N.even (len (as_bytes value))) then Err (Raised ["十六进制 token 长度必须为偶数"])
  else
    map_err (fun e => match e with Raised _ => Raised ["token 包含非法十六进制字符"] | Panics m => Panics m end)
      (decode_pairs (as_bytes value)).

Definition expected_version (v : ExpectedAggregateVersionArg) : PbVersionKind :=
  match v with
  | EvaAny => PvAny
  | EvaNoAggregate => PvNoAggregate
  | EvaAggregateExists => PvAggregateExists
  | EvaExact version => PvExact version
  end.

Definition has_group_settings (v : AggregateGroupSettingsArgs) : bool :=
  bool_decide (is_Some (gsa_max_unacked_per_consumer v)) || bool_decide (is_Some (gsa_max_unacked_per_group v)) ||
  bool_decide (is_Some (gsa_ack_timeout_ms v)) || bool_decide (is_Some (gsa_max_retries v)) ||
  bool_decide (is_Some (gsa_retry_min_ms v)) || bool_decide (is_Some (gsa_retry_max_ms v)).

Definition merged_group_settings (v : AggregateGroupSettingsArgs) (current : option AggregateGroupSettings) :
    option AggregateGroupSettings :=
  if negb (has_group_settings v) then None
  else
    let or_current {X} (explicit : option X) (get : AggregateGroupSettings -> X) :=
      default (from_option get (get settings_default) current) explicit in
    Some (mkSettings
      (or_current (gsa_max_unacked_per_consumer v) max_unacked_per_consumer)
      (or_current (gsa_max_unacked_per_group v) max_unacked_per_group)
      (or_current (gsa_ack_timeout_ms v) ack_timeout_ms)
      (or_current (gsa_max_retries v) max_retries)
      (or_current (gsa_retry_min_ms v) retry_min_ms)
      (or_current (gsa_retry_max_ms v) retry_max_ms)).

Section Commands.
Context {W : Type} `{Platform} `{SerdeJson} `{DebugText}.
Context (debug_str : string -> string) (uuid_parse : string -> result string Uuid) (new_v4 : W -> W * Uuid).
Context (tonic_connect : string -> W -> W * result ConnectError unit).
Context (rpc : forall X, Rpc X -> string -> W -> W * result Status X).
Context (cluster : ClusterClient).

(** ** Scripts *)

Definition Script (A : Type) : Type := W -> W * result (Thrown Anyhow) A.

#[export] Instance script_ret : MRet Script := fun A a w => (w, Ok a).

#[export] Instance script_bind : MBind Script := fun A B f m w =>
  match m w with
  | (w, Ok a) => f a w
  | (w, Err e) => (w, Err e)
  end.

Definition now_or_fail {A} (r : result (Thrown Anyhow) A) : Script A := fun w => (w, r).

Definition fresh : Script Uuid := fun w => let '(w, u) := new_v4 w in (w, Ok u).

(** [anyhow::Error::new] of a client's error, which has no source. *)
Definition client_failed (e : ClientError) : Thrown Anyhow := Raised [client_error_to_string e].

(** [connect]. *)
Definition connect : Script Client := fun w =>
  let '(w, r) := client_connect tonic_connect (cc_endpoints cluster) w in (w, map_err client_failed r).

(** A call with an open client. *)
Definition asking {X} (c : Client) (m : Method (W := W) X) : Script (Client * X) := fun w =>
  let '((c, w), r) := m (c, w) in (w, map_err client_failed ((fun x => (c, x)) <$> r)).

Definition ask {X} (c : Client) (m : Method (W := W) X) : Script X :=
  answered ← asking c m; mret answered.2.

(** [load_json]; clap lets exactly one of the two sources through. *)
Definition load_json (inline file : option string) : result (Thrown Anyhow) Bytes :=
  bytes ← match inline, file with
          | Some value, None => Ok (as_bytes value)
          | None, Some path => map_err (fun e => Raised ["读取 JSON 文件 " +:+ path +:+ " 失败"; e]) (fs_read path)
          | _, _ => Err (Panics "internal error: entered unreachable code: clap 参数组已保证二选一")
          end;
  _ ← map_err (fun e => Raised ["payload 必须是合法 JSON"; e]) (value_from_slice bytes);
  Ok bytes.

(** A UUID given as an argument, or a new one; [what] says what it is for. *)
Definition uuid_or_new (what : string -> string) (value : option string) : Script Uuid :=
  match value with
  | Some v => now_or_fail (map_err (fun e => Raised [what v; e]) (uuid_parse v))
  | None => fresh
  end.

Definition operation_id : option string -> Script Uuid := uuid_or_new (fun _ => "operation ID 必须是 UUID").

(** ** Types and events *)

Definition register (a : AggregateTypeRegisterArgs) : Script PbTypeInfo :=
  operation_id ← uuid_or_new (fun v => "非法 operation ID " +:+ debug_str v) (ra_operation_id a);
  c ← connect;
  ask c (client_register_type tonic_connect rpc (Some (type_ref (ra_business_space a) (ra_aggregate_type a)))
           (uuid_bytes operation_id)).

Definition list_types : Script (list ListedType) := c ← connect; ask c (client_list_types tonic_connect rpc).

Definition get (a : AggregateTypeArgs) : Script PbTypeInfo :=
  c ← connect;
  ask c (client_get_type tonic_connect rpc (Some (type_ref (ta_business_space a) (ta_aggregate_type a)))).

Definition partitions (a : AggregateTypeArgs) : Script (list PartitionInfo) :=
  c ← connect;
  ask c (client_list_partitions tonic_connect rpc (Some (type_ref (ta_business_space a) (ta_aggregate_type a)))).

(** The version the event was given, and its identifier. *)
Definition append (a : AggregateAppendArgs) : Script (N * Uuid) :=
  data ← now_or_fail (load_json (aa_data a) (aa_data_file a));
  let metadata := as_bytes (default "{}" (aa_metadata a)) in
  _ ← now_or_fail (map_err (fun e => Raised ["metadata 必须是合法 JSON"; e]) (value_from_slice metadata));
  event_id ← uuid_or_new (fun v => "非法 event ID " +:+ debug_str v) (aa_event_id a);
  c ← connect;
  version ← ask c (client_append tonic_connect rpc
    (mkAppendRequest (Some (type_ref (aa_business_space a) (aa_aggregate_type a))) (aa_aggregate_id a)
       (Some (Some (expected_version (aa_expected_version a))))
       (Some (mkPbNewEvent (uuid_bytes event_id) (aa_event_type a) data metadata))));
  mret (version, event_id).

(** ** Following *)

(** What is reported of a frame, with the cursor it carries. *)
Inductive FollowLine : Type :=
| LineEvent (event : PbEvent) (cursor : string)
| LineCaughtUp (cursor : string)
| LineDegraded (unavailable_sources : N)
| LineRecovered.

(** [cursor] takes precedence; clap refuses it together with [now]. *)
Definition follow_arg (a : AggregateFollowArgs) : result (Thrown Anyhow) FollowStart :=
  match fa_cursor a with
  | Some cursor => FollowCursor <$> token_from_hex cursor
  | None => Ok (if fa_now a then FollowNow else FollowBeginning)
  end.

(** The loop over the stream: what it reports and how it ended, [None] while it
    waits for the next item. An item [None] is the end of the stream. *)
Fixpoint follow_loop (once : bool) (items : list (option (result ClientError Received))) :
    list FollowLine * option (result (Thrown Anyhow) unit) :=
  match items with
  | [] => ([], None)
  | None :: _ => ([], Some (Ok tt))
  | Some (Err e) :: _ => ([], Some (Err (client_failed e)))
  | Some (Ok frame) :: rest =>
      let cursor := hex (cf_cursor frame) in
      let after line := let '(lines, r) := follow_loop once rest in (line :: lines, r) in
      match cf_payload frame with
      | Some (PayloadEvent e) => after (LineEvent e cursor)
      | Some PayloadCaughtUp => if once then ([LineCaughtUp cursor], Some (Ok tt)) else after (LineCaughtUp cursor)
      | Some (PayloadDegraded count _) =>
          if once
          then ([], Some (Err (Raised ["follow 已降级，" +:+ pretty count +:+ " 个来源不可用，无法确认完全追平"])))
          else after (LineDegraded count)
      | Some PayloadRecovered => after LineRecovered
      | None => follow_loop once rest
      end
  end.

Definition follow_open (a : AggregateFollowArgs) : Script N :=
  start ← now_or_fail (follow_arg a);
  c ← connect;
  ask c (client_follow tonic_connect rpc
           (mkFollowRequest (Some (type_ref (fa_business_space a) (fa_aggregate_type a))) (Some start))).

(** [follow], on a stream that yields [items]. *)
Definition follow (a : AggregateFollowArgs) (items : list (option (result ClientError Received))) (w : W) :
    W * (list FollowLine * option (result (Thrown Anyhow) unit)) :=
  match follow_open a w with
  | (w, Ok _) => (w, follow_loop (fa_once a) items)
  | (w, Err e) => (w, ([], Some (Err e)))
  end.

(** ** State documents *)

Definition state_list (a : AggregateStateListArgs) : Script StatesReply :=
  c ← connect;
  page_token ← now_or_fail (from_option token_from_hex (Ok []) (sla_page_token a));
  ask c (client_list_states tonic_connect rpc (Some (type_ref (sla_business_space a) (sla_aggregate_type a)))
           (sla_page_size a) page_token).

Definition state_get (a : AggregateStateGetArgs) : Script StateReply :=
  c ← connect;
  ask c (client_get_state tonic_connect rpc (Some (type_ref (sga_business_space a) (sga_aggregate_type a)))
           (sga_aggregate_id a)).

Definition revision_arg (s : string) : result (Thrown Anyhow) PbRevisionKind :=
  if bool_decide (s = "absent") then Ok PrAbsent
  else PrExact <$> ok_or (Raised ["expected-revision 必须是 absent 或无符号整数"; parse_int_error s]) (parse_u64 s).

(** The revision of the document that was stored. *)
Definition state_put (a : AggregateStatePutArgs) : Script N :=
  data ← now_or_fail (load_json (spa_data a) (spa_data_file a));
  kind ← now_or_fail (revision_arg (spa_expected_revision a));
  c ← connect;
  stored ← ask c (client_put_state tonic_connect rpc
    (mkPutRequest (Some (type_ref (spa_business_space a) (spa_aggregate_type a))) (spa_aggregate_id a)
       (Some (Some kind)) data));
  mret stored.1.

(** ** Consumer groups *)

Definition group_create (a : AggregateGroupCreateArgs) : Script PbGroupInfo :=
  let start := if gca_now a then PsNow else PsBeginning in
  c ← connect;
  op ← operation_id (gca_operation_id a);
  ask c (client_create_group tonic_connect rpc
    (mkGroupRequest (Some (type_ref (gca_business_space a) (gca_aggregate_type a))) (gca_name a) (Some (Some start))
       (merged_group_settings (gca_settings a) None) 0 (uuid_bytes op))).

Definition reset_start (a : AggregateGroupUpdateArgs) : option PbGroupStartKind :=
  if gua_reset_now a then Some PsNow else if gua_reset_beginning a then Some PsBeginning else None.

(** The settings that are not given are those the group has; the server always
    sends them. *)
Definition group_update (a : AggregateGroupUpdateArgs) : Script PbGroupInfo :=
  if negb (gua_reset_beginning a) && negb (gua_reset_now a) && negb (has_group_settings (gua_settings a))
  then now_or_fail (Err (Raised ["update 至少需要一个 settings 参数或 reset 参数"]))
  else
    let identity := type_ref (gua_business_space a) (gua_aggregate_type a) in
    c ← connect;
    '(c, current) ← (if has_group_settings (gua_settings a)
                     then '(c, group) ← asking c (client_get_group tonic_connect rpc (Some identity) (gua_name a));
                          mret (c, Some group)
                     else mret (c, None));
    op ← operation_id (gua_operation_id a);
    ask c (client_update_group tonic_connect rpc
      (mkGroupRequest (Some identity) (gua_name a) (Some <$> reset_start a)
         (merged_group_settings (gua_settings a) (gi_settings <$> current)) (gua_expected_revision a) (uuid_bytes op))).

Definition group_delete (a : AggregateGroupDeleteArgs) : Script unit :=
  c ← connect;
  op ← operation_id (gda_operation_id a);
  ask c (client_delete_group tonic_connect rpc
    (mkGroupRequest (Some (type_ref (gda_business_space a) (gda_aggregate_type a))) (gda_name a) None None
       (gda_expected_revision a) (uuid_bytes op))).

Definition group_list (a : AggregateTypeArgs) : Script (list PbGroupInfo) :=
  c ← connect;
  ask c (client_list_groups tonic_connect rpc (Some (type_ref (ta_business_space a) (ta_aggregate_type a)))).

Definition group_fetch (a : AggregateGroupFetchArgs) : Script FetchResponse :=
  c ← connect;
  ask c (client_fetch_group tonic_connect rpc
    (mkFetchRequest (Some (type_ref (gfa_business_space a) (gfa_aggregate_type a))) (gfa_name a) (gfa_consumer a)
       (gfa_max_events a) (gfa_max_bytes a) (gfa_wait_ms a))).

(** The delivery as it was given, and what became of it. *)
Definition group_settle (a : AggregateGroupSettleArgs) : Script (string * PbSettlementStatus) :=
  c ← connect;
  delivery_id ← now_or_fail (token_from_hex (gta_delivery a));
  results ← ask c (client_settle_group tonic_connect rpc
    (Some (type_ref (gta_business_space a) (gta_aggregate_type a))) (gta_name a) (gta_consumer a)
    [mkPbSettlement delivery_id (action_number (gta_action a)) (gta_reason a)]);
  first ← now_or_fail (ok_or (Raised ["服务端未返回 settlement 结果"]) (head results));
  mret (gta_delivery a, sr_status first).

(** ** The command *)

Inductive AggregateAction : Type :=
| ActCapabilities
| ActTypeRegister (a : AggregateTypeRegisterArgs)
| ActTypeList
| ActTypeGet (a : AggregateTypeArgs)
| ActAppend (a : AggregateAppendArgs)
| ActFollow (a : AggregateFollowArgs) (items : list (option (result ClientError Received)))
| ActStateList (a : AggregateStateListArgs)
| ActStateGet (a : AggregateStateGetArgs)
| ActStatePut (a : AggregateStatePutArgs)
| ActGroupCreate (a : AggregateGroupCreateArgs)
| ActGroupUpdate (a : AggregateGroupUpdateArgs)
| ActGroupDelete (a : AggregateGroupDeleteArgs)
| ActGroupList (a : AggregateTypeArgs)
| ActGroupFetch (a : AggregateGroupFetchArgs)
| ActGroupSettle (a : AggregateGroupSettleArgs)
| ActStatus
| ActPartitions (a : AggregateTypeArgs).

(** What is printed. *)
Inductive Printed : Type :=
| PrintCapabilities (v : PbCapabilities)
| PrintTypes (infos : list PbTypeInfo)
| PrintListedTypes (infos : list ListedType)
| PrintAppended (aggregate_id : string) (version : N) (event_id : Uuid)
| PrintLines (lines : list FollowLine)
| PrintStates (page : list (string * N)) (next_page_token : string)
| PrintState (revision : N) (data : Bytes)
| PrintStored (aggregate_id : string) (revision : N)
| PrintGroups (groups : list PbGroupInfo)
| PrintDeleted (name : string)
| PrintFetched (r : FetchResponse) (delivery_ids : list string)
| PrintSettled (delivery : string) (status : PbSettlementStatus)
| PrintStatus (v : StoreStatus)
| PrintPartitions (l : list PartitionInfo).

Definition printing {A} (f : A -> Printed) (m : Script A) (w : W) : W * list Printed * option (result (Thrown Anyhow) unit) :=
  match m w with
  | (w, Ok a) => (w, [f a], Some (Ok tt))
  | (w, Err e) => (w, [], Some (Err e))
  end.

(** [run]: the world after it, what it printed and its result, [None] for a
    follow that goes on. *)
Definition run (action : AggregateAction) : W -> W * list Printed * option (result (Thrown Anyhow) unit) :=
  match action with
  | ActCapabilities => printing PrintCapabilities (c ← connect; ask c (capabilities tonic_connect rpc))
  | ActTypeRegister a => printing (fun i => PrintTypes [i]) (register a)
  | ActTypeList => printing PrintListedTypes list_types
  | ActTypeGet a => printing (fun i => PrintTypes [i]) (get a)
  | ActAppend a => printing (fun r => PrintAppended (aa_aggregate_id a) r.1 r.2) (append a)
  | ActFollow a items => fun w => let '(w, (lines, r)) := follow a items w in (w, [PrintLines lines], r)
  | ActStateList a => printing (fun r => PrintStates (sy_states r) (hex (sy_next_page_token r))) (state_list a)
  | ActStateGet a => printing (fun r => PrintState (sr_revision r) (sr_data r)) (state_get a)
  | ActStatePut a => printing (PrintStored (spa_aggregate_id a)) (state_put a)
  | ActGroupCreate a => printing (fun g => PrintGroups [g]) (group_create a)
  | ActGroupUpdate a => printing (fun g => PrintGroups [g]) (group_update a)
  | ActGroupDelete a => printing (fun _ => PrintDeleted (gda_name a)) (group_delete a)
  | ActGroupList a => printing PrintGroups (group_list a)
  | ActGroupFetch a => printing (fun r => PrintFetched r (map (fun d => hex (rd_delivery_id d)) (fr_deliveries r))) (group_fetch a)
  | ActGroupSettle a => printing (fun r => PrintSettled r.1 r.2) (group_settle a)
  | ActStatus => printing PrintStatus (c ← connect; ask c (client_status tonic_connect rpc))
  | ActPartitions a => printing PrintPartitions (partitions a)
  end.

End Commands.

(** ** Lemmas: numbers and tokens as text *)

Lemma pretty_digit d : (d < 10)%N -> to_digit10 (Ascii.byte_of_ascii (pretty_N_char d)) = Some d.
Proof.
  intros Hd. assert (Hc : d ∈ map N.of_nat (seq 0 10)).
  { apply list_elem_of_fmap. exists (N.to_nat d). split; [lia|]. apply elem_of_seq. lia. }
  cbn in Hc. repeat (apply elem_of_cons in Hc as [-> | Hc]; [reflexivity|]). by apply elem_of_nil in Hc.
Qed.

Lemma parse_pretty_go n : forall s, exists k, forall acc, (acc * 10 ^ k + n <= u64_max)%N ->
  parse_digits acc (as_bytes (pretty_N_go n s)) = parse_digits (acc * 10 ^ k + n) (as_bytes s).
Proof.
  induction (N.lt_wf_0 n) as [n _ IH]. intros s. destruct (decide (n = 0)%N) as [->|Hn].
  { exists 0%N. intros acc _. rewrite pretty_N_go_0. f_equal. lia. }
  destruct (IH (n / 10)%N ltac:(apply N.div_lt; lia) (String (pretty_N_char (n mod 10)) s)) as [k Hk].
  exists (N.succ k). intros acc Hacc. rewrite pretty_N_go_step by lia.
  pose proof (N.div_mod n 10 ltac:(done)) as Hdm. rewrite N.pow_succ_r' in *.
  assert (Hle : (acc * 10 ^ k <= acc * (10 * 10 ^ k))%N) by (apply N.mul_le_mono_l; lia).
  assert (Hq : (n / 10 <= n)%N) by (apply N.Div0.div_le_upper_bound; lia).
  rewrite Hk by lia.
  change (as_bytes (String ?c s)) with (Ascii.byte_of_ascii c :: as_bytes s). cbn [parse_digits].
  rewrite pretty_digit by (by apply N.mod_lt). cbn [mbind option_bind].
  replace ((acc * 10 ^ k + n / 10) * 10 + n mod 10)%N with (acc * (10 * 10 ^ k) + n)%N by lia.
  by rewrite (proj2 (N.leb_le _ _)).
Qed.

Lemma parse_digits_pretty n : (n <= u64_max)%N -> parse_digits 0 (as_bytes (pretty n)) = Some n.
Proof.
  intros Hn. unfold pretty, pretty_N. destruct (decide (n = 0)%N) as [->|H0]; [reflexivity|].
  destruct (parse_pretty_go n "") as [k Hk]. rewrite Hk by lia. reflexivity.
Qed.

Lemma parse_digits_all acc l n : parse_digits acc l = Some n -> Forall (fun b => is_Some (to_digit10 b)) l.
Proof.
  revert acc. induction l as [|b l IH]; intros acc; cbn [parse_digits]; [constructor|].
  destruct (to_digit10 b) as [d|] eqn:Hd; [|done]. cbn [mbind option_bind]. case_if; [|done].
  intros Hl. constructor; [by rewrite Hd|by eapply IH].
Qed.

Lemma pretty_digits n : (n <= u64_max)%N -> Forall (fun b => is_Some (to_digit10 b)) (as_bytes (pretty n)).
Proof. intros Hn. by eapply parse_digits_all, parse_digits_pretty. Qed.

Lemma parse_u64_digits s n : as_bytes s <> [] -> parse_digits 0 (as_bytes s) = Some n -> parse_u64 s = Some n.
Proof.
  unfold parse_u64. intros Hne Hp. destruct (as_bytes s) as [|b l]; [done|].
  apply parse_digits_all in Hp as Hd. apply Forall_inv in Hd as [d Hd]. by destruct b.
Qed.

(** A printed number is read back. *)
Lemma parse_u64_pretty n : (n <= u64_max)%N -> parse_u64 (pretty n) = Some n.
Proof.
  intros Hn. apply parse_digits_pretty in Hn as Hp. apply parse_u64_digits; [|done].
  intros He. rewrite He in Hp. cbn in Hp. injection Hp as <-. discriminate.
Qed.

(** A number is none of the words. *)
Lemma pretty_no_word n b : (n <= u64_max)%N -> to_digit10 b = None -> b ∉ as_bytes (pretty n).
Proof.
  intros Hn Hb Hin. pose proof (proj1 (Forall_forall _ _) (pretty_digits n Hn) b Hin) as [d Hd]. congruence.
Qed.

Lemma pretty_not_word n (s : string) (b : byte) :
  (n <= u64_max)%N -> to_digit10 b = None -> b ∈ as_bytes s -> pretty n <> s.
Proof. intros Hn Hb Hin <-. by apply (pretty_no_word n b). Qed.

Lemma token_round_trip bytes : token_from_hex (hex bytes) = Ok bytes.
Proof. unfold token_from_hex. rewrite hex_length, N.even_mul, hex_decodes. done. Qed.

(** ** Lemmas: scripts *)

Section ScriptLemmas.
Context {W : Type}.

Lemma script_bind_Ok {A B} (m : Script A) (f : A -> Script B) (w w' : W) b :
  (m ≫= f) w = (w', Ok b) -> exists w1 a, m w = (w1, Ok a) /\ f a w1 = (w', Ok b).
Proof. unfold mbind, script_bind. destruct (m w) as [w1 [a|e]]; [|done]. eauto. Qed.

Lemma now_or_fail_Ok {A} (r : result (Thrown Anyhow) A) (w w' : W) a :
  now_or_fail r w = (w', Ok a) -> w' = w /\ r = Ok a.
Proof. by intros [= <- ->]. Qed.

Lemma ask_Ok `{DebugText} {X} (c : Client) (m : Method (W := W) X) w w' x :
  ask c m w = (w', Ok x) -> exists c', m (c, w) = ((c', w'), Ok x).
Proof.
  intros (w1 & [c1 x1] & Ha & [= <- <-])%script_bind_Ok. unfold asking in Ha.
  destruct (m (c, w)) as [[c2 w2] [x2|e]]; cbn in Ha; [|done]. injection Ha as <- <- <-. eauto.
Qed.

End ScriptLemmas.

(** ** Lemmas: following *)

Section FollowLemmas.
Context {M : Type} `{SmCodecLaws M} `{TreeLaws} `{TokenCodecLaws} `{!CodecTotal AggregateCursor} `{DebugText} {W : Type}.
Context (tonic_connect : string -> W -> W * result ConnectError unit).
Context (rpc : forall X, Rpc X -> string -> W -> W * result Status X).
Context (cluster : ClusterClient).
Context (ty : AggregateTypeId) (d : AggregateTypeDefinition) (hist : N -> N -> option AggregateEvent).

Abbreviation stream := (follow_stream ty (td_partition_count d) hist).

(** The stream the worker feeds, while it is read. *)
Definition channel (out : Worker * list (result ClientError Received)) : list (option (result ClientError Received)) :=
  map Some out.2 ++ match out.1 with Ended => [None] | _ => [] end.

(** The command goes on reading. *)
Definition still_read (e : WorkerEvent) : Prop :=
  match e with EvMessage _ taken => taken = true | EvClosed => False | EvOpen _ => True end.

Definition line_of (r : FollowResponse) : FollowLine :=
  match fr_payload r with
  | PayloadEvent e => LineEvent e (hex (fr_cursor r))
  | PayloadCaughtUp => LineCaughtUp (hex (fr_cursor r))
  | PayloadDegraded count _ => LineDegraded count
  | PayloadRecovered => LineRecovered
  end.

Definition line_cursor (l : FollowLine) : option string :=
  match l with LineEvent _ c | LineCaughtUp c => Some c | LineDegraded _ | LineRecovered => None end.

Definition degraded (l : FollowLine) : Prop := match l with LineDegraded _ => True | _ => False end.

(** What is reported is a beginning of what was received. *)
Lemma follow_loop_lines once sent tail rs lines r :
  Forall (fun i => i = None) tail -> frames sent = map received rs ->
  follow_loop once (map Some sent ++ tail) = (lines, r) ->
  exists rs1 rs2, rs = rs1 ++ rs2 /\ lines = map line_of rs1.
Proof.
  intros Ht. revert rs lines r. induction sent as [|[frame|e] sent IH]; intros rs lines r; cbn [map app].
  - intros _ Hl. exists [], rs. split; [done|]. destruct Ht as [|i tail' -> _]; cbn in Hl; by injection Hl as <- _.
  - destruct rs as [|resp rs]; cbn; [done|]. intros [= -> Hf] Hl. cbn in Hl.
    destruct (follow_loop once (map Some sent ++ tail)) as [more r'] eqn:Hm.
    destruct (IH rs more r' Hf eq_refl) as (rs1 & rs2 & -> & ->).
    assert (Hline : lines = [] \/ lines = [line_of resp] \/ lines = line_of resp :: map line_of rs1).
    { destruct resp as [[e| |c b|] cursor]; cbn in Hl |- *; destruct once; injection Hl as <- _; auto. }
    destruct Hline as [-> | [-> | ->]].
    + by exists [], (resp :: rs1 ++ rs2).
    + by exists [resp], (rs1 ++ rs2).
    + by exists (resp :: rs1), rs2.
  - intros _ [= <- _]. by exists [], rs.
Qed.

(** A success of [--once] before the end of the stream is a catch-up, with no
    degradation before it. *)
Lemma follow_loop_once sent tail lines :
  follow_loop true (map Some sent ++ tail) = (lines, Some (Ok tt)) ->
  tail = [] \/ (exists e, Err e ∈ sent) ->
  exists before cursor, lines = before ++ [LineCaughtUp cursor] /\ Forall (fun l => ~ degraded l) lines.
Proof.
  revert lines. induction sent as [|[frame|e] sent IH]; intros lines; cbn [map app].
  - intros Hl [-> | (e & He)]; [done|]. by apply elem_of_nil in He.
  - intros Hl Hor. assert (Hor' : tail = [] \/ exists e, Err e ∈ sent).
    { destruct Hor as [?|(e & [[=]|He]%elem_of_cons)]; [by left|]. right. eauto. }
    cbn in Hl. destruct (follow_loop true (map Some sent ++ tail)) as [more r].
    destruct (cf_payload frame) as [[e| |c b|]|].
    + injection Hl as <- ->. destruct (IH _ eq_refl Hor') as (before & cursor & -> & Hd).
      eexists (_ :: before), cursor. split; [done|]. constructor; [by intros []|done].
    + injection Hl as <-. exists [], (hex (cf_cursor frame)). split; [done|]. repeat constructor. by intros [].
    + done.
    + injection Hl as <- ->. destruct (IH _ eq_refl Hor') as (before & cursor & -> & Hd).
      eexists (_ :: before), cursor. split; [done|]. constructor; [by intros []|done].
    + injection Hl as -> ->. by apply IH.
  - done.
Qed.

(** The worker ends only after it has reported an error. *)
Lemma ended_reported s events : Forall still_read events -> s <> Ended -> (run_follow s events).1 = Ended ->
  exists e, Err e ∈ (run_follow s events).2.
Proof.
  intros Hr. revert s. induction Hr as [|e events He _ IH]; intros s Hs; [done|]. cbn [run_follow].
  destruct (worker_step s e) as [s1 sent] eqn:Hw. specialize (IH s1).
  destruct (run_follow s1 events) as [s2 more]. cbn [fst snd] in *. intros ->.
  assert (Hend : s1 = Ended -> exists er, Err er ∈ sent).
  { intros ->. destruct s as [q|q|], e as [[[f|]|st] taken| |[[]|er]]; cbn in Hw, He; try done; subst;
      repeat case_match; try done; injection Hw as <-; eexists; by left. }
  destruct s1 as [q|q|]; [destruct IH as [er Her]; try done..|destruct Hend as [er Her]; [done|]]; exists er; apply elem_of_app; auto.
Qed.

(** The stream up to a response, whose cursor goes on from there. *)
Lemma follow_stream_at n rs1 resp rs2 n' :
  stream n (rs1 ++ resp :: rs2) n' ->
  exists n1, stream n (rs1 ++ [resp]) n1 /\ opens_at ty d (Some (FollowCursor (fr_cursor resp))) n1.
Proof.
  revert n. induction rs1 as [|r1 rs1 IH]; intros n; cbn [app]; inversion 1 as [|? p q e b ? ? Hp He Hb Hrest|? note b ? ? Hn Hb Hrest]; subst.
  - exists (<[p := (q + 1)%N]> n). split; [by econstructor; [..|constructor]|].
    destruct Hb as (c & Hc & Hpos). exists c. cbn. by rewrite Hc.
  - exists n. split; [by constructor; [..|constructor]|]. destruct Hb as (c & Hc & Hpos). exists c. cbn. by rewrite Hc.
  - destruct (IH _ Hrest) as (n1 & Hs & Ho). exists n1. split; [by econstructor|done].
  - destruct (IH _ Hrest) as (n1 & Hs & Ho). exists n1. split; [by constructor|done].
Qed.

Lemma follow_stream_prefix n rs1 rs2 n' : stream n (rs1 ++ rs2) n' -> exists n1, stream n rs1 n1.
Proof.
  revert n. induction rs1 as [|r1 rs1 IH]; intros n; cbn [app]; [intros _; exists n; constructor|].
  inversion 1 as [|? p q e b ? ? Hp He Hb Hrest|? note b ? ? Hn Hb Hrest]; subst; destruct (IH _ Hrest) as [n1 Hs];
    exists n1; [by econstructor|by constructor].
Qed.

Context (Hd : definition_wf ty d).
Context (cursor_bytes_nonempty : forall c, decode_cursor [] ty (td_partition_count d) <> Ok c).

Lemma follow_lines a start items (w w' : W) lines r :
  follow_arg a = Ok start -> follow tonic_connect rpc cluster a items w = (w', (lines, r)) ->
  follow_loop (fa_once a) items = (lines, r) \/ lines = [] /\ r <> Some (Ok tt).
Proof.
  intros Hs. unfold follow. destruct (follow_open _ _ _ a w) as [w1 [x|e]].
  - intros [= <- Hr]. by left.
  - intros [= <- <- <-]. by right.
Qed.


End FollowLemmas.

(** ** Properties: arguments *)

(** What the commands print is accepted by the options that ask for it: a
    revision or version, a member, and the tokens. *)
Theorem arguments_round_trip (debug_str : string -> string) (n : N) (addr : string) (bytes : Bytes) (a : AggregateFollowArgs)
  (Hn : (n <= u64_max)%N) (Haddr : addr <> "") (Hcursor : fa_cursor a = Some (hex bytes)) :
  revision_arg (pretty n) = Ok (PrExact n) /\
  expected_version_from_str debug_str (pretty n) = Ok (EvaExact n) /\
  member_from_str debug_str (pretty n +:+ "@" +:+ addr) = Ok (mkMemberArg n addr) /\
  follow_arg a = Ok (FollowCursor bytes).
Proof.
  assert (Hw : forall s b, to_digit10 b = None -> b ∈ as_bytes s -> pretty n <> s) by (intros; by eapply pretty_not_word).
  split_ands.
  - unfold revision_arg. rewrite bool_decide_eq_false_2 by (apply (Hw _ x61); [done|by left]). by rewrite parse_u64_pretty.
  - unfold expected_version_from_str. rewrite !bool_decide_eq_false_2.
    + by rewrite parse_u64_pretty.
    + apply (Hw _ x65); [done|by left].
    + apply (Hw _ x6e); [done|by left].
    + apply (Hw _ x6e); [done|by left].
    + apply (Hw _ x61); [done|by left].
  - unfold member_from_str. rewrite !as_bytes_app. change (as_bytes "@") with [x40].
    rewrite (split_once_app (as_bytes (pretty n)) x40 [] (as_bytes addr)) by (by apply pretty_no_word).
    cbn [mbind result_bind ok_or]. rewrite bool_decide_eq_false_2 by (by destruct addr).
    unfold as_bytes. rewrite !String.string_of_list_byte_of_string, parse_u64_pretty by done. done.
  - unfold follow_arg. rewrite Hcursor, token_round_trip. done.
Qed.

(** Settings that are not given are kept. An update that is applied to the group
    whose settings were read leaves every setting as it was or as it was given,
    and without a reset it keeps the progress: the start, the positions and the
    epoch. *)
Theorem group_update_keeps_rest (a : AggregateGroupUpdateArgs) (settings : AggregateGroupSettings) (op count : N)
  (c : AggregateGroupCatalog) (existing : AggregateGroupDefinition)
  (Hex : gc_groups c !! (gd_aggregate_type existing, gd_name existing) = Some existing)
  (Hset : merged_group_settings (gua_settings a) (Some (gd_settings existing)) = Some settings)
  (Hrev : gua_expected_revision a = gd_revision existing) (Hop : gd_last_operation_id existing <> op)
  (Hvalid : group_validate (mkGroup (gd_aggregate_type existing) (gd_name existing) (gd_revision existing) (gd_epoch existing)
     (gd_start existing) (gd_partition_starts existing) settings (gd_create_operation_id existing) op) count = Ok tt)
  (Hreset : reset_start a = None) :
  exists c' g, group_catalog_apply c (GroupReplace (mkGroup (gd_aggregate_type existing) (gd_name existing)
      (gd_revision existing) (gd_epoch existing) (gd_start existing) (gd_partition_starts existing) settings
      (gd_create_operation_id existing) op) (gua_expected_revision a) count (bool_decide (is_Some (Some <$> reset_start a)))) =
    (c', mkGroupApply (gc_revision c') (GOutGroup g)) /\
  gc_groups c' !! (gd_aggregate_type existing, gd_name existing) = Some g /\
  gd_start g = gd_start existing /\ gd_partition_starts g = gd_partition_starts existing /\ gd_epoch g = gd_epoch existing /\
  max_unacked_per_consumer (gd_settings g) =
    default (max_unacked_per_consumer (gd_settings existing)) (gsa_max_unacked_per_consumer (gua_settings a)) /\
  max_unacked_per_group (gd_settings g) =
    default (max_unacked_per_group (gd_settings existing)) (gsa_max_unacked_per_group (gua_settings a)) /\
  ack_timeout_ms (gd_settings g) = default (ack_timeout_ms (gd_settings existing)) (gsa_ack_timeout_ms (gua_settings a)) /\
  max_retries (gd_settings g) = default (max_retries (gd_settings existing)) (gsa_max_retries (gua_settings a)) /\
  retry_min_ms (gd_settings g) = default (retry_min_ms (gd_settings existing)) (gsa_retry_min_ms (gua_settings a)) /\
  retry_max_ms (gd_settings g) = default (retry_max_ms (gd_settings existing)) (gsa_retry_max_ms (gua_settings a)).
Proof.
  rewrite Hreset. rewrite bool_decide_eq_false_2 by (by intros [? [=]]).
  unfold group_catalog_apply, group_replace. rewrite Hvalid. unfold group_key.
  cbn [gd_aggregate_type gd_name]. rewrite Hex.
  cbn [gd_last_operation_id]. rewrite (proj2 (N.eqb_neq _ _) Hop), Hrev, N.eqb_refl. cbn [negb].
  unfold merged_group_settings in Hset. destruct (negb _); [done|]. injection Hset as <-.
  do 2 eexists. split; [reflexivity|]. split; [apply lookup_insert_eq|]. by split_ands.
Qed.

(** ** Properties: the cluster *)

Section Recorded.
Context {M : Type} `{ClusterLaws M} `{!SmCodecLaws M} `{DebugResponse} `{RpcCodecLaws}.
Context `{DebugText} `{SerdeJson}.
Context (debug_str : string -> string) (uuid_parse : string -> result string Uuid) (new_v4 : world -> world * Uuid).
Context (tonic_connect : string -> world -> world * result ConnectError unit).
Context (rpc : forall X, Rpc X -> string -> world -> world * result Status X).
Context (net : Network tonic_connect rpc new_v4).
Context (cluster : ClusterClient).

Lemma connect_Ok w w' c : world_ok w -> connect tonic_connect cluster w = (w', Ok c) -> moves w w'.
Proof.
  intros Hw. unfold connect, client_connect. destruct (map normalize_endpoint (cc_endpoints cluster)) as [|first rest]; [done|].
  unfold connect_one. destruct (tonic_connect first w) as [w1 r] eqn:Hc. intros [= <- _]. by eapply net_connect.
Qed.

Lemma uuid_or_new_Ok what value w w' u :
  world_ok w -> uuid_or_new uuid_parse new_v4 what value w = (w', Ok u) ->
  moves w w' /\ forall text, value = Some text -> uuid_parse text = Ok u.
Proof.
  intros Hw. destruct value as [text|]; cbn [uuid_or_new].
  - intros [-> Hp%map_err_Ok]%now_or_fail_Ok. split; [by apply moves_refl|]. by intros ? [= <-].
  - unfold fresh. destruct (new_v4 w) as [w1 u1] eqn:Hu. intros [= <- _]. split; [by eapply net_uuid|done].
Qed.

(** A call that succeeds was answered by some node. *)
Lemma ask_api_Ok {X} safety (r : Rpc X) c w w' x :
  world_ok w -> ask c (api tonic_connect rpc safety r) w = (w', Ok x) -> exists a w1, moves w w1 /\ rpc X r a w1 = (w', Ok x).
Proof. intros Hw (c' & Ha)%ask_Ok. by eapply (api_Ok tonic_connect rpc new_v4 net). Qed.

Definition version_of (v : ExpectedAggregateVersionArg) : AggregateVersionExpectation :=
  match v with
  | EvaAny => VeAny
  | EvaNoAggregate => VeNoAggregate
  | EvaAggregateExists => VeExists
  | EvaExact version => VeExact version
  end.

Lemma expected_version_kind v : expected_version v = version_kind (version_of v).
Proof. by destruct v. Qed.

(** The event of the arguments, with the data that was loaded and its identifier. *)
Definition appended_event (a : AggregateAppendArgs) (data : Bytes) (id : Uuid) : EventEnvelope :=
  mkEnvelope (aa_aggregate_id a) (aa_event_type a) data (as_bytes (default "{}" (aa_metadata a))) id
    (version_of (aa_expected_version a)).

(** C38: An event that [esctl aggregate append] reports is recorded exactly once
    in the partition of its aggregate. If the command succeeds, with a version and
    an identifier, which is the one that was given if one was, then the shard on
    which the active definition of the type places the partition of the aggregate
    holds an event with that identifier at that version, the only one with it in
    the partition, together with the record that makes a repetition of the command
    with [--event-id] return the same version. The stored event is the one of the
    arguments, on their aggregate and at a version they expected, unless the
    identifier was used before by a request whose 128-bit fingerprint is the same
    although its content is not. *)
Theorem append_command_recorded (a : AggregateAppendArgs) (w w' : world) (version : N) (id : Uuid) (Hw : world_ok w)
  (Hrun : append debug_str uuid_parse new_v4 tonic_connect rpc cluster a w = (w', Ok (version, id))) :
  exists data n d w1,
    load_json (aa_data a) (aa_data_file a) = Ok data /\
    (forall text, aa_event_id a = Some text -> uuid_parse text = Ok id) /\
    moves w w1 /\ moves w1 w' /\
    active_in (mkTypeId (aa_business_space a) (aa_aggregate_type a)) d (shard_of w1 (control n)) /\
    recorded (mkTypeId (aa_business_space a) (aa_aggregate_type a)) (aa_aggregate_id a)
      (expected_of (version_of (aa_expected_version a))) (stored_event (appended_event a data id)) version d w'.
Proof.
  unfold append in Hrun. apply script_bind_Ok in Hrun as (wa & data & [-> Hdata]%now_or_fail_Ok & Hrun).
  apply script_bind_Ok in Hrun as (wa & u & [-> _]%now_or_fail_Ok & Hrun).
  apply script_bind_Ok in Hrun as (wb & id0 & Hid & Hrun). apply uuid_or_new_Ok in Hid as [Hm1 Hid]; [|done].
  apply script_bind_Ok in Hrun as (wc & c & Hc & Hrun). apply connect_Ok in Hc as Hm2; [|apply Hm1].
  apply script_bind_Ok in Hrun as (wd & v & Ha & [= <- <- <-]). apply ask_api_Ok in Ha as (addr & we & Hm3 & Hr); [|apply Hm2].
  rewrite expected_version_kind in Hr.
  apply (net_append _ _ _ net) in Hr as (n & w1 & w2 & Hm4 & Happ & Hm5); [|apply Hm3].
  pose proof (append_recorded n _ _ _ _ (proj1 Hm4) Happ) as (tid & expected & event & d & Hin & Hact & Hrec).
  pose proof (moving_append n _ _ _ _ (proj1 Hm4) Happ) as Hm6.
  apply (append_input_request n (aa_business_space a) (aa_aggregate_type a) (appended_event a data id0)) in Hin as (-> & -> & ->).
  exists data, n, d, w2. split_ands; [done|done| |done|done|].
  - eapply moves_trans; [exact Hm1|]. eapply moves_trans; [exact Hm2|]. eapply moves_trans; [exact Hm3|]. by eapply moves_trans.
  - eapply recorded_moves; [exact Hm5|apply Hm6|exact Hrec].
Qed.

(** A document is replaced only at the revision the command was given: when
    [esctl aggregate state put] succeeds, at one moment during the command the
    document had that revision, or did not exist for [absent], and then the data
    took its place at the revision that is reported. *)
Theorem state_put_replaces_expected (a : AggregateStatePutArgs) (w w' : world) (revision : N) (Hw : world_ok w)
  (Hrun : state_put tonic_connect rpc cluster a w = (w', Ok revision)) :
  exists data kind expected d p pl sh1 sh2,
    load_json (spa_data a) (spa_data_file a) = Ok data /\ revision_arg (spa_expected_revision a) = Ok kind /\
    expected = match kind with PrAbsent => Absent | PrExact r => ExactRevision r end /\
    partition_for d (spa_aggregate_id a) = Ok p /\ td_placements d !! p = Some pl /\
    later (shard_of w (pl_shard_id pl)) sh1 /\ later sh2 (shard_of w' (pl_shard_id pl)) /\
    let key := (mkTypeId (spa_business_space a) (spa_aggregate_type a), p, spa_aggregate_id a) in
    state_matches expected (s_states sh1 !! key) = true /\
    revision = match s_states sh1 !! key with None => 0 | Some st => st_revision st + 1 end%N /\
    s_states sh2 = <[key := mkState revision data]> (s_states sh1).
Proof.
  unfold state_put in Hrun. apply script_bind_Ok in Hrun as (wa & data & [-> Hdata]%now_or_fail_Ok & Hrun).
  apply script_bind_Ok in Hrun as (wa & kind & [-> Hkind]%now_or_fail_Ok & Hrun).
  apply script_bind_Ok in Hrun as (wb & c & Hc & Hrun). apply connect_Ok in Hc as Hm1; [|done].
  apply script_bind_Ok in Hrun as (wc & [rev millis] & Ha & [= <- <-]).
  apply ask_api_Ok in Ha as (addr & wd & Hm2 & Hr); [|apply Hm1].
  apply (net_put _ _ _ net) in Hr as (n & w1 & w2 & Hm3 & Hput & Hm4); [|apply Hm2].
  apply put_state_replaced in Hput as (tid & expected & d & p & pl & sh1 & sh2 & hlc & Ht & He & _ & Hpart & Hpl & Hl1 & Hl2 & _ & Hst & Hrev & Hs2 & _);
    [|apply Hm3].
  apply (proto_type_of (spa_business_space a) (spa_aggregate_type a)) in Ht as ->.
  assert (Hex : expected = match kind with PrAbsent => Absent | PrExact r => ExactRevision r end).
  { destruct kind; cbn in He; by injection He as <-. }
  exists data, kind, expected, d, p, pl, sh1, sh2. split_ands; try done.
  - etrans; [apply Hm1|]. etrans; [apply Hm2|]. etrans; [apply Hm3|exact Hl1].
  - etrans; [exact Hl2|apply Hm4].
Qed.

End Recorded.

(** ** Witnesses *)

#[local] Existing Instances demo_xxh3 demo_codecs demo_codec_laws demo_platform mem_tree mem_tree_laws demo_debug
  demo_rpc_codecs demo_rpc_laws demo_debug_text demo_token_codecs.

Lemma arguments_round_trip_witness :
  revision_arg (pretty 42%N) = Ok (PrExact 42) /\
  member_from_str id (pretty 42%N +:+ "@" +:+ "127.0.0.1:50052") = Ok (mkMemberArg 42 "127.0.0.1:50052") /\
  follow_arg (mkFollowArgs "orders" "order" false (Some (hex [x0a; xff])) false) = Ok (FollowCursor [x0a; xff]).
Proof.
  destruct (arguments_round_trip id 42 "127.0.0.1:50052" [x0a; xff]
    (mkFollowArgs "orders" "order" false (Some (hex [x0a; xff])) false) ltac:(lia) ltac:(done) eq_refl) as (H1 & _ & H2 & H3).
  split; [exact H1|]. split; [exact H2|exact H3].
Defined.

(** The retries of a group are set to 9. *)
Definition demo_workers : AggregateGroupDefinition := group_created demo_group.

Definition demo_update : AggregateGroupUpdateArgs :=
  mkUpdateArgs "orders" "order" "workers" 1 false false None (mkSettingsArgs None None None (Some 9%N) None None).

Definition demo_merged : AggregateGroupSettings :=
  default settings_default (merged_group_settings (gua_settings demo_update) (Some (gd_settings demo_workers))).

Lemma group_update_keeps_rest_witness :
  exists c' g, gc_groups c' !! (demo_type, "workers") = Some g /\ max_retries (gd_settings g) = 9%N /\
    ack_timeout_ms (gd_settings g) = ack_timeout_ms (gd_settings demo_workers).
Proof.
  destruct (group_update_keeps_rest demo_update demo_merged 99 2 demo_group_catalog demo_workers
    ltac:(vm_compute; reflexivity) eq_refl eq_refl ltac:(done) ltac:(vm_compute; reflexivity) eq_refl)
    as (c' & g & _ & Hg & _ & _ & _ & _ & _ & Hack & Hret & _).
  exists c', g. split; [exact Hg|]. split; [exact Hret|exact Hack].
Defined.

(** Every text is JSON, and the text of a UUID is not looked at. *)
Definition demo_any_json : SerdeJson := {|
  value := string;
  value_is_object := @value_is_object demo_serde;
  value_string := fun s => s;
  value_from_slice := fun b => Ok (String.string_of_list_byte b);
  wire_event_from_slice := @wire_event_from_slice demo_serde;
  wire_settlements_from_slice := @wire_settlements_from_slice demo_serde;
  value_to_vec := as_bytes;
  object_to_vec := @object_to_vec demo_serde;
  object_from_slice := @object_from_slice demo_serde
|}.

#[local] Existing Instance demo_any_json.

Definition demo_uuid_parse (s : string) : result string Uuid := Ok 88%N.

Definition demo_endpoints : ClusterClient := mkCluster ["http://a:1"] ∅ 0.

Definition demo_append_args : AggregateAppendArgs :=
  mkAppendArgs "orders" "order" "order-1" "placed" (Some "{}") None None (Some "00000000-0000-0000-0000-000000000058") EvaNoAggregate.

Definition demo_put_args : AggregateStatePutArgs := mkStatePutArgs "orders" "order" "order-1" (Some "{}") None "absent".

Definition demo_append_run : NodeWorld * result (Thrown Anyhow) (N * Uuid) :=
  append id demo_uuid_parse single_uuid single_connect single_rpc demo_endpoints demo_append_args demo_registered.1.

Definition demo_put_run : NodeWorld * result (Thrown Anyhow) N :=
  state_put single_connect single_rpc demo_endpoints demo_put_args demo_appended.1.

Lemma demo_append_run_ok : demo_append_run.2 = Ok (0%N, 88%N).
Proof. vm_compute. reflexivity. Qed.

Lemma demo_put_run_ok : demo_put_run.2 = Ok 0%N.
Proof. vm_compute. reflexivity. Qed.

Lemma append_command_recorded_witness :
  demo_append_run.2 = Ok (0%N, 88%N) /\
  exists d, recorded demo_type "order-1" NoAggregate (stored_event (appended_event demo_append_args (as_bytes "{}") 88)) 0 d demo_append_run.1.
Proof.
  split; [exact demo_append_run_ok|].
  assert (Hr : demo_append_run = (demo_append_run.1, Ok (0%N, 88%N))).
  { rewrite <- demo_append_run_ok. by destruct demo_append_run. }
  unfold demo_append_run at 1 in Hr.
  destruct (append_command_recorded (H5 := single_node_laws) (SmCodecLaws0 := demo_codec_laws) id demo_uuid_parse single_uuid
    single_connect single_rpc single_network demo_endpoints demo_append_args demo_registered.1 demo_append_run.1 0 88 demo_registered_ok Hr)
    as (data & n & d & w1 & Hd & _ & _ & _ & _ & Hrec).
  injection Hd as <-. exists d. exact Hrec.
Defined.

Lemma state_put_replaces_expected_witness :
  demo_put_run.2 = Ok 0%N /\ exists sh1 sh2 p, s_states sh1 !! (demo_type, p, "order-1") = None /\
    s_states sh2 = <[(demo_type, p, "order-1") := mkState 0 (as_bytes "{}")]> (s_states sh1).
Proof.
  split; [exact demo_put_run_ok|].
  assert (Hr : demo_put_run = (demo_put_run.1, Ok 0%N)).
  { rewrite <- demo_put_run_ok. by destruct demo_put_run. }
  unfold demo_put_run at 1 in Hr.
  destruct (state_put_replaces_expected (H5 := single_node_laws) (SmCodecLaws0 := demo_codec_laws) single_uuid
    single_connect single_rpc single_network demo_endpoints demo_put_args demo_appended.1 demo_put_run.1 0 demo_appended_ok Hr)
    as (data & kind & expected & d & p & pl & sh1 & sh2 & Hd & Hk & He & _ & _ & _ & _ & Hst & _ & Hs2).
  injection Hd as <-. injection Hk as <-. subst expected. exists sh1, sh2, p. split; [|exact Hs2].
  cbn in Hst. by destruct (s_states sh1 !! _).
Defined.

Definition demo_caught_up : FollowResponse := nth 1 demo_second no_response.

(** The events of [ClientFollow.v], followed once: the stream ends behind the
    first event and the next one brings the second event and the catch-up. *)
Definition demo_once_events : list WorkerEvent :=
  [EvMessage (Ok (Some (received demo_event))) true; EvMessage (Ok None) true; EvOpen (Ok tt);
   EvMessage (Ok (Some (received demo_next))) true; EvMessage (Ok (Some (received demo_caught_up))) true].

Definition demo_follow_args : AggregateFollowArgs := mkFollowArgs "orders" "order" false None true.

Definition demo_once_request : FollowRequest := mkFollowRequest (Some (type_ref "orders" "order")) (Some FollowBeginning).

(** A node that opens a stream for every follow request. *)
Definition following_rpc (X : Type) (r : Rpc X) (a : string) (w : NodeWorld) : NodeWorld * result Status X :=
  match r in Rpc X return NodeWorld * result Status X with
  | RpcFollow _ => (w, Ok 1%N)
  | r => single_rpc _ r a w
  end.

Definition demo_follow_lines : NodeWorld * (list FollowLine * option (result (Thrown Anyhow) unit)) :=
  follow single_connect following_rpc demo_endpoints demo_follow_args (channel (run_follow (Reading demo_once_request) demo_once_events))
    world_empty.

Lemma demo_once_streams : client_streams (M := N) demo_type demo_single demo_hist demo_once_request demo_once_events.
Proof.
  exists (responses_from demo_start [demo_connection]). split.
  - apply responses_served; [reflexivity|apply u64_bounds; vm_compute; reflexivity| |vm_compute; reflexivity|].
    + apply (bool_decide_unpack _). vm_compute. exact I.
    + constructor; [exact demo_connection_ok|constructor].
  - assert (Hf : responses_from demo_start [demo_connection] = demo_event :: skipn 1 (responses_from demo_start [demo_connection]))
      by (vm_compute; reflexivity).
    rewrite Hf. apply StreamsFrame. apply StreamsEnd; [done|done|]. cbn [worker_step fst]. apply (StreamsOpen _ _ _ _ demo_second).
    + apply responses_served; [vm_compute; reflexivity|apply u64_bounds; vm_compute; reflexivity| |vm_compute; reflexivity|].
      * apply (bool_decide_unpack _). vm_compute. exact I.
      * constructor; [exact demo_connection_ok|constructor].
    + assert (Hs : demo_second = demo_next :: demo_caught_up :: skipn 2 demo_second) by (vm_compute; reflexivity).
      rewrite Hs. apply StreamsFrame. cbn [worker_step fst]. apply StreamsFrame. apply StreamsNil.
Qed.


(** A token with a character of two bytes across a pair of bytes ends the
    command with a panic; here the text [aéa]. *)
Example token_argument_panics :
  token_from_hex (String.string_of_list_byte [x61; xc3; xa9; x61]) = Err (Panics "byte index is not a char boundary").
Proof. vm_compute. reflexivity. Qed.
