(* ===== verification/CtlSnapshot.v ===== *)
(** * es-ctl: the snapshot commands

    [es-ctl/src/commands/snapshot.rs]: listing the snapshot files of a data
    directory, and restoring a shard offline with [Restore.v], after the file
    has been checked and the operator has confirmed.

    Each shard has a store of its own under the data directory, which cannot be
    opened while a server holds its lock. Flushing and closing it only print a
    warning when they fail. *)

From S2P Require Import Prelude.
From S2P Require Import Bytes.
From S2P Require Import Core.
From S2P Require Import Redirect.
From S2P Require Import Keys.
From S2P Require Import Store.
From S2P Require Import RaftType.
From S2P Require Import LogStore.
From S2P Require Import StateMachine.
From S2P Require Import Codecs.
From S2P Require Import Apply.
From S2P Require Import Snapshot.
From S2P Require Import Install.
From S2P Require Import Restore.
From S2P Require Import Client.
From S2P Require Import Ctl.

(** [Compression::display_name]. *)
Definition display_name (c : Compression) : string :=
  match c with CompressionNone => "none" | Zstd => "zstd" | Lz4 => "lz4" end.

(** [to_lowercase], as far as the answer is concerned: no other letter has [y],
    [e] or [s] as its lower case. *)
Definition ascii_lower (b : byte) : byte :=
  let n := Byte.to_N b in if ((65 <=? n) && (n <=? 90))%N then byte_of_N (n + 32) else b.

Definition is_yes (line : string) : bool :=
  let answer := map ascii_lower (trim (as_bytes line)) in
  bool_decide (answer = as_bytes "y") || bool_decide (answer = as_bytes "yes").

(** The arguments: the file under its path, [None] if it does not exist. *)
Record SnapshotRestoreArgs : Type := mkRestoreArgs {
  sra_data_dir : string;
  sra_snapshot_file : string;
  sra_source : SnapshotSource;
  sra_yes : bool
}.

(** [confirm]; [line] is what reading the standard input gives. *)
Definition confirm (a : SnapshotRestoreArgs) (line : result string string) : result Anyhow unit :=
  if sra_yes a then Ok tt
  else
    line ← map_err (fun e => ["读取确认输入"; e]) line;
    if is_yes line then Ok tt else Err ["已取消（数据未改动）"].

(** A line of the listing: the name, what the header says, and the size. *)
Record SnapshotRow : Type := mkSnapshotRow {
  sn_file : string;
  sn_shard : N;
  sn_term : N;
  sn_index : N;
  sn_id : string;
  sn_compress : string;
  sn_payload : N
}.

Section Commands.
Context {M : Type} `{Json (SnapshotMeta M)} `{Frames} `{Tree} `{SmCodecs M} `{!Codec (option LogId)}.
Context (readdir : Dir -> list (string * Bytes)).

(** A data directory: whether it exists, what opening the store of a shard
    gives, and its snapshot directory. *)
Record DataDir : Type := mkDataDir {
  dd_exists : bool;
  dd_open : N -> result string tree;
  dd_snapshots : option Dir
}.

(** [list]: a damaged file is listed by its name only. *)
Definition snapshot_row (e : SnapshotEntry (M := M)) : string + SnapshotRow :=
  match sy_parsed e with
  | None => inl (sy_path e)
  | Some (h, m) =>
      inr (mkSnapshotRow (sy_path e) (h_shard_id h) (log_key (sn_last_log_id m)).1 (log_key (sn_last_log_id m)).2
             (sn_snapshot_id m) (display_name (h_compression h)) (h_payload_len h))
  end.

Definition snapshot_list (dir : string) (snapshots : option Dir) : result Anyhow (list (string + SnapshotRow)) :=
  d ← ok_or ["快照目录不存在：" +:+ dir +:+ "（数据目录可能未初始化，或未配置自定义快照目录）"] snapshots;
  Ok (map snapshot_row (list_entries readdir d)).

(** [validate], with the header that [run_restore] reads again. *)
Definition restore_validate (a : SnapshotRestoreArgs) (d : DataDir) : result Anyhow SnapshotHeader :=
  if negb (dd_exists d) then Err ["数据目录不存在：" +:+ sra_data_dir a]
  else
    file ← ok_or ["快照文件不存在：" +:+ sra_snapshot_file a] (source_file (default ∅ (dd_snapshots d)) (sra_source a));
    '(header, _, _) ← map_err (fun e => ["快照文件无效: " +:+ e]) (read_header (M := M) (file_reader file));
    Ok header.

(** [run_restore]: the data directory after it, and the report. *)
Definition run_restore (a : SnapshotRestoreArgs) (line : result string string) (d : DataDir) :
    DataDir * result Anyhow RestoreReport :=
  match (header ← restore_validate a d; _ ← confirm a line;
         t ← map_err (fun e => ["打开数据目录 " +:+ sra_data_dir a +:+ "/shard-" +:+ pretty (h_shard_id header) +:+
                                " 失败（集群可能仍在运行，LOCK 被占用）: " +:+ e]) (dd_open d (h_shard_id header));
         Ok (h_shard_id header, t)) with
  | Err e => (d, Err e)
  | Ok (shard_id, t) =>
      let '(t', snapshots, r) := restore readdir shard_id t (default ∅ (dd_snapshots d)) (sra_source a) in
      (mkDataDir true (fun s => if (s =? shard_id)%N then Ok t' else dd_open d s) (Some snapshots),
       map_err (fun e => ["恢复失败"; error_to_string e]) r)
  end.

(** ** Lemmas *)

Lemma restore_validate_file a d h :
  restore_validate a d = Ok h -> dd_exists d = true /\
  exists file meta r, source_file (default ∅ (dd_snapshots d)) (sra_source a) = Some file /\
    read_header (M := M) (file_reader file) = Ok (h, meta, r).
Proof.
  unfold restore_validate. destruct (dd_exists d); [|discriminate]. cbn [negb].
  intros (file & Hf & ([[h' m] r] & Hr%map_err_Ok & [= ->])%bind_Ok_inv)%bind_Ok_inv. split; [done|].
  destruct (source_file _ _) as [f|]; [|discriminate]. injection Hf as ->. by exists file, m, r.
Qed.

Lemma restore_error_keeps t dir src shard_id t' dir' e :
  restore (M := M) readdir shard_id t dir src = (t', dir', Err e) -> t' = t.
Proof.
  unfold restore. destruct (restore_open _ _ _) as [[[[h m] r] f]|]; [|by intros [= <- _ _]].
  destruct (restore_txn _ _ _ _ _) as [[t1 n]|]; [discriminate|]. by intros [= <- _ _].
Qed.

(** ** Properties *)

(** [esctl snapshot restore] is careful with the data. It succeeds only if the
    operator agreed and the store of the shard the file belongs to, no other,
    could be opened, which a running server prevents; it then is the restore of
    that shard. When it fails every store is as it was, and without the agreement
    nothing has changed at all. *)
Theorem restore_command_safe (a : SnapshotRestoreArgs) (line : result string string) (d d' : DataDir)
  (r : result Anyhow RestoreReport) (Hrun : run_restore a line d = (d', r)) :
  (forall report, r = Ok report -> confirm a line = Ok tt /\
     exists file h meta rest t t' snapshots, source_file (default ∅ (dd_snapshots d)) (sra_source a) = Some file /\
       read_header (M := M) (file_reader file) = Ok (h, meta, rest) /\ dd_open d (h_shard_id h) = Ok t /\
       restore readdir (h_shard_id h) t (default ∅ (dd_snapshots d)) (sra_source a) = (t', snapshots, Ok report) /\
       dd_snapshots d' = Some snapshots /\
       forall s, dd_open d' s = if (s =? h_shard_id h)%N then Ok t' else dd_open d s) /\
  (forall e, r = Err e -> forall s, dd_open d' s = dd_open d s) /\
  (forall e, confirm a line = Err e -> d' = d /\ exists e', r = Err e').
Proof.
  unfold run_restore in Hrun. destruct (restore_validate a d) as [h|e] eqn:Hv; cbn [mbind result_bind] in Hrun.
  2:{ injection Hrun as <- <-. split_ands; [done|done|eauto]. }
  destruct (confirm a line) as [[]|e] eqn:Hc; cbn [mbind result_bind] in Hrun.
  2:{ injection Hrun as <- <-. split_ands; [done|done|eauto]. }
  destruct (dd_open d (h_shard_id h)) as [t|e] eqn:Ho; cbn [map_err mbind result_bind] in Hrun.
  2:{ injection Hrun as <- <-. split_ands; [done|done|eauto]. }
  destruct (restore readdir (h_shard_id h) t _ _) as [[t' snapshots] r'] eqn:Hr. injection Hrun as <- <-.
  apply restore_validate_file in Hv as (_ & file & meta & rest & Hf & Hh). split_ands; [| |done].
  - intros report ->%map_err_Ok. split; [done|]. by exists file, h, meta, rest, t, t', snapshots.
  - intros e. destruct r' as [report|e']; [done|]. intros _ s. apply restore_error_keeps in Hr as ->. cbn [dd_open].
    destruct (s =? h_shard_id h)%N eqn:Hs; [|done]. apply N.eqb_eq in Hs as ->. by rewrite Ho.
Qed.

End Commands.

(** ** Witness *)

(** A data directory with the snapshots of [Install.v] and empty stores; the one
    of shard 2 is locked. *)
Definition demo_data_dir : DataDir (H1 := mem_tree) :=
  mkDataDir (H1 := mem_tree) true
    (fun s => if (s =? 2)%N then Err "locked" else Ok ((∅ : gmap Bytes Bytes) : @tree mem_tree)) (Some demo_dir).

Definition demo_restore_args (file : option Bytes) : SnapshotRestoreArgs :=
  mkRestoreArgs "/data" "/backup/a.esnap" (Elsewhere file) false.

Definition demo_restore_command (file : option Bytes) (line : string) : DataDir (H1 := mem_tree) * result Anyhow RestoreReport :=
  @run_restore N demo_json demo_frames mem_tree demo_codecs (countable_codec (option LogId)) map_to_list
    (demo_restore_args file) (Ok line) demo_data_dir.

Definition demo_built_file : option Bytes :=
  match demo_build Zstd 3 ∅ with Ok (_, _, file) => Some file | Err _ => None end.

Lemma demo_restore_command_ok : is_ok (demo_restore_command demo_built_file "Yes").2 = true.
Proof. vm_compute. reflexivity. Qed.

Lemma restore_command_safe_witness :
  is_ok (demo_restore_command demo_built_file "Yes").2 = true /\
  (exists file h meta rest, demo_built_file = Some file /\ @read_header N demo_json (file_reader file) = Ok (h, meta, rest) /\
     forall s, s <> h_shard_id h -> dd_open (demo_restore_command demo_built_file "Yes").1 s = dd_open demo_data_dir s) /\
  (demo_restore_command demo_built_file "n").1 = demo_data_dir.
Proof.
  split; [exact demo_restore_command_ok|]. split.
  - pose proof demo_restore_command_ok as Hok. destruct (demo_restore_command demo_built_file "Yes") as [d' [report|e]] eqn:Hr; [|discriminate].
    unfold demo_restore_command in Hr.
    destruct (proj1 (@restore_command_safe N demo_json demo_frames mem_tree demo_codecs (countable_codec (option LogId))
      map_to_list (demo_restore_args demo_built_file) (Ok "Yes") demo_data_dir d' (Ok report) Hr) report eq_refl)
      as (_ & file & h & meta & rest & t & t' & snapshots & Hf & Hh & _ & _ & _ & Hs).
    exists file, h, meta, rest. split; [exact Hf|]. split; [exact Hh|]. intros s Hne. cbn [fst]. rewrite Hs.
    by rewrite (proj2 (N.eqb_neq _ _) Hne).
  - destruct (demo_restore_command demo_built_file "n") as [d' r] eqn:Hr.
    unfold demo_restore_command in Hr.
    exact (proj1 (proj2 (proj2 (@restore_command_safe N demo_json demo_frames mem_tree demo_codecs (countable_codec (option LogId))
      map_to_list (demo_restore_args demo_built_file) (Ok "n") demo_data_dir d' r Hr)) ["已取消（数据未改动）"] eq_refl)).
Defined.
