(* ===== verification/Server.v ===== *)
(** * es-server: a node from its start to its stop

    [es-server/src/factory.rs], the storage and the Raft group of one shard;
    [server.rs], the parts of a node, its initialisation, its listeners and its
    shutdown; [main.rs], reading the configuration and the order of the start;
    [watcher.rs], the loop that follows the configuration file.

    Directories, the store, the Raft groups and the listeners belong to a world
    [W]. The configuration file changes under the program, so every read of it
    is an argument: the bytes the file held at that moment, or the error. The
    loop of the watcher takes one [WatchEvent] for each turn of its [select!];
    [hash] is [DefaultHasher] on the bytes. *)

From S2P Require Import Prelude.
From S2P Require Import Bytes.
From S2P Require Import Core.
From S2P Require Import Redirect.
From S2P Require Import Keys.
From S2P Require Import Store.
From S2P Require Import RaftType.
From S2P Require Import LogStore.
From S2P Require Import StateMachine.
From S2P Require Import ShardSpec.
From S2P Require Import Codecs.
From S2P Require Import Apply.
From S2P Require Import History.
From S2P Require Import Snapshot.
From S2P Require Import Config.
From S2P Require Import Topology.
From S2P Require Import Bootstrap.
From S2P Require Import RaftNetwork.

(** An operation of the process. *)
Section Io.
Context {W : Type}.

Definition Io (A : Type) : Type := W -> W * result string A.

#[export] Instance io_ret : MRet Io := fun A a w => (w, Ok a).

#[export] Instance io_bind : MBind Io := fun A B f m w =>
  match m w with
  | (w, Ok a) => f a w
  | (w, Err e) => (w, Err e)
  end.

Definition io_lift {A} (r : result string A) : Io A := fun w => (w, r).

(** [map_err]. *)
Definition io_err {A} (f : string -> string) (m : Io A) : Io A := fun w => let '(w, r) := m w in (w, map_err f r).

Lemma io_bind_Ok {A B} (m : Io A) (f : A -> Io B) w w' b :
  (x ← m; f x) w = (w', Ok b) -> exists w1 a, m w = (w1, Ok a) /\ f a w1 = (w', Ok b).
Proof. unfold mbind, io_bind. destruct (m w) as [w1 [a|e]]; [|done]. intros H. by exists w1, a. Qed.

Lemma io_lift_Ok {A} (r : result string A) w w' a : io_lift r w = (w', Ok a) -> w' = w /\ r = Ok a.
Proof. by intros [= <- ->]. Qed.

End Io.

(** ** Paths *)

(** [Path::join] with a relative name. *)
Definition path_join (base name : string) : string :=
  if bool_decide (base = "") || ends_with "/" base then base +:+ name else base +:+ "/" +:+ name.

Definition shard_dir (c : Config) (shard_id : N) : string :=
  path_join (data_dir (cf_storage c)) ("shard-" +:+ pretty shard_id).

Definition snapshot_dir (c : Config) : string :=
  default (path_join (data_dir (cf_storage c)) "snapshots") (ss_dir (cf_snapshot c)).

(** ** factory.rs *)

(** [SnapshotConfig] of snapshot.rs. *)
Record SnapshotConfig : Type := mkSnapshotConfig {
  sc_dir : string;
  sc_compression : Compression;
  sc_keep : N
}.

(** The fields of [openraft::Config] the code sets. *)
Record RaftConfig : Type := mkRaftConfig {
  rc_cluster_name : string;
  rc_heartbeat_interval : N;
  rc_election_timeout_min : N;
  rc_election_timeout_max : N;
  rc_logs_since_last : N;
  rc_max_in_snapshot_log_to_keep : N;
  rc_snapshot_max_chunk_size : N
}.

(** [GrpcNetwork] of network.rs, from which [new_client] makes its clients. *)
Record GrpcNetwork : Type := mkGrpcNetwork { gn_shard_id : N; gn_tls : option TlsClientConfig }.

(** [EsStorage] of storage.rs; the broadcast channel is a parameter of the
    services that subscribe to it. *)
Record EsStorage `{Tree} {M : Type} : Type := mkStorageOf {
  es_shard_id : N;
  es_tree : tree;
  es_cache : @SmCache M;
  es_snapshot : SnapshotConfig
}.

(** [Shard] of shard.rs. *)
Record Shard `{Tree} {M R : Type} : Type := mkShard {
  sh_shard_id : N;
  sh_raft : R;
  sh_storage : EsStorage (M := M)
}.
Arguments Shard {_} M R.
Arguments mkShard {_ M R}.
Arguments mkStorageOf {_ M}.
Arguments EsStorage {_} M.

Definition raft_config (c : Config) (shard_id : N) : RaftConfig :=
  mkRaftConfig ("eventstore-shard-" +:+ pretty shard_id) 300 600 900 5000 1000 (ss_max_chunk_size (cf_snapshot c)).

Section Factory.
Context {W M R : Type} `{Platform} `{SmCodecs M} `{Tree}.
Context (membership_default : StoredMembership M).
Context (create_dir_all : string -> Io (W := W) unit) (open_tree : string -> N -> Io (W := W) tree).
Context (raft_config_validate : RaftConfig -> result string RaftConfig).
Context (raft_new : N -> RaftConfig -> GrpcNetwork -> EsStorage M -> Io (W := W) R).

(** [EsStorage::new]; [SnapshotStore::new] creates nothing. *)
Definition storage_new (shard_id : N) (t : tree) (snapshot : SnapshotConfig) : EsStorage M :=
  mkStorageOf shard_id t (mkCache None membership_default) snapshot.

(** [create_shard]. *)
Definition create_shard (c : Config) (shard_id : N) : Io (W := W) (Shard M R) :=
  _ ← create_dir_all (shard_dir c shard_id);
  t ← open_tree (shard_dir c shard_id) (memtable_arena_bytes (cf_storage c));
  _ ← create_dir_all (snapshot_dir c);
  let snap_cfg := mkSnapshotConfig (snapshot_dir c) (ss_compression (cf_snapshot c)) (ss_keep (cf_snapshot c)) in
  let storage := storage_new shard_id t snap_cfg in
  '(t, cache) ← io_lift (map_err error_to_string (restore_applied_state shard_id (es_tree storage) (es_cache storage)));
  let storage := mkStorageOf shard_id t cache snap_cfg in
  cfg ← io_lift (raft_config_validate (raft_config c shard_id));
  client_tls ← io_lift (tls_trust c);
  raft ← raft_new (node_id (cf_node c)) cfg (mkGrpcNetwork shard_id client_tls) storage;
  mret (mkShard shard_id raft storage).

End Factory.

(** ** server.rs *)

Record Server (S : Type) : Type := mkServer {
  sv_config : Config;
  sv_shard_manager : ShardManager S;
  sv_topology : RuntimeTopologySnapshot
}.
Arguments mkServer {S}.
Arguments sv_config {S}.
Arguments sv_shard_manager {S}.
Arguments sv_topology {S}.

(** A gRPC service a listener serves. *)
Inductive GrpcService : Type := AggregateStoreService | RaftRpcService | RaftAdminService | AggregateStoreInternalService.

(** A listener: its address, the certificate and the key it identifies itself
    with, its services, and the largest message they take and send. *)
Record Listener : Type := mkListener {
  ln_addr : string;
  ln_identity : option (Bytes * Bytes);
  ln_services : list GrpcService;
  ln_max_message : N
}.

Section Serve.
Context `{Platform} (tls_config : Bytes -> Bytes -> result string unit).

(** The identity of a listener; the [expect]s are a panic with this message. *)
Definition listener_identity (c : Config) : result string (option (Bytes * Bytes)) :=
  match cf_tls c with
  | None => Ok None
  | Some t =>
      cert_path ← ok_or "配置已验证" (cert_file t);
      cert ← fs_read cert_path;
      key_path ← ok_or "配置已验证" (key_file t);
      key ← fs_read key_path;
      _ ← tls_config cert key;
      Ok (Some (cert, key))
  end.

(** [serve], up to the listening itself: the listeners it runs. *)
Definition serve (c : Config) : result string (list Listener) :=
  _ ← parse_socket_addr (listen_addr (cf_node c));
  identity ← listener_identity c;
  let public := mkListener (listen_addr (cf_node c)) identity
                  [AggregateStoreService; RaftRpcService; RaftAdminService] MAX_GRPC_MESSAGE_SIZE in
  match internal_listen_addr (cf_node c) with
  | None => Ok [public]
  | Some internal_addr =>
      _ ← parse_socket_addr internal_addr;
      identity ← listener_identity c;
      Ok [public; mkListener internal_addr identity [AggregateStoreInternalService] MAX_GRPC_MESSAGE_SIZE]
  end.

End Serve.

Section Node.
Context {W S : Type} `{Platform}.
Context (create_dir_all : string -> Io (W := W) unit) (create_shard : Config -> N -> Io (W := W) S).
Context (get_raft_state : N -> N -> W -> W * option RaftState).
Context (is_initialized : N -> W -> W * option bool) (initialize : N -> gmap N string -> W -> W * InitResult).

(** [Server::new]. *)
Definition server_new (c : Config) : result string (Server S) :=
  _ ← config_validate c;
  tp ← from_config c;
  Ok (mkServer c (manager_new (node_id (cf_node c)) (shard_count c)) tp).

(** The loop of [init]: the shards that are registered when it ends. *)
Fixpoint init_shards (c : Config) (m : ShardManager S) (shards : list N) (w : W) : W * (ShardManager S * result string unit) :=
  match shards with
  | [] => (w, (m, Ok tt))
  | s :: rest =>
      match create_shard c s w with
      | (w, Err e) => (w, (m, Err e))
      | (w, Ok shard) =>
          match register_shard m s shard with
          | Err e => (w, (m, Err (error_to_string e)))
          | Ok m => init_shards c m rest w
          end
      end
  end.

(** [init]: the server, and the background tasks that form the clusters
    ([boot_task]). *)
Definition init (sv : Server S) (w : W) : W * (Server S * result string BootPlan) :=
  let c := sv_config sv in
  match (_ ← create_dir_all (data_dir (cf_storage c)); create_dir_all (snapshot_dir c)) w with
  | (w, Err e) => (w, (sv, Err e))
  | (w, Ok _) =>
      let '(w, (m, r)) := init_shards c (sv_shard_manager sv) (local_shards c) w in
      (w, (mkServer c m (sv_topology sv), _ ← r; Ok (run c)))
  end.

(** [EsStorage::close]. *)
Context (raft_shutdown flush_wal tree_close : S -> Io (W := W) unit).

Definition storage_close (shard : S) : Io (W := W) unit :=
  _ ← io_err (fun e => error_to_string (Storage ("flush_wal 失败: " +:+ e))) (flush_wal shard);
  io_err (fun e => error_to_string (Storage ("close 失败: " +:+ e))) (tree_close shard).

(** [close_shard]: failures are logged. *)
Definition close_shard (shard : S) (w : W) : W := (storage_close shard (raft_shutdown shard w).1).1.

(** [shutdown]. *)
Definition shutdown (sv : Server S) (w : W) : W :=
  foldl (fun w s => match get_shard (sv_shard_manager sv) s with Ok shard => close_shard shard w | Err _ => w end)
    w (shard_ids (sv_shard_manager sv)).

End Node.

(** ** main.rs *)

(** [Args]. *)
Record Args : Type := mkArgs { ar_config : string; ar_node_id : option N; ar_listen : option string }.

Section Start.
Context {W S : Type} `{Platform}.
Context (toml_from_str json_from_str : string -> result string Config).
Context (create_dir_all : string -> Io (W := W) unit) (create_shard : Config -> N -> Io (W := W) S).
Context (get_raft_state : N -> N -> W -> W * option RaftState).
Context (is_initialized : N -> W -> W * option bool) (initialize : N -> gmap N string -> W -> W * InitResult).
Context (hash : Bytes -> N).

(** [load_config]; [read] is what the file held. *)
Definition load_config (path : string) (read : result string Bytes) : result string Config :=
  content ← read_to_string read;
  if ends_with ".json" path then json_from_str content else toml_from_str content.

(** ** watcher.rs *)

(** [file_fingerprint]. *)
Definition file_fingerprint (read : result string Bytes) : option N :=
  match read with Ok bytes => Some (hash bytes) | Err _ => None end.

(** The watcher and what it shares with the server; [wt_running] is whether its
    task still runs. *)
Record Watcher : Type := mkWatcher {
  wt_node_id : N;
  wt_fingerprint : option N;
  wt_shard_manager : ShardManager S;
  wt_topology : RuntimeTopologySnapshot;
  wt_running : bool
}.

(** A turn of the [select!]: the shutdown, a tick of the reconciliation with the
    file at its three reads, a notification (an error, or one that is handled
    after the delay, with the shutdown flag and the reads after it), and the end
    of the notifications. *)
Inductive WatchEvent : Type :=
| WatchShutdown
| WatchTick (now change after : result string Bytes)
| WatchNotified (event_ok stopping : bool) (change after : result string Bytes)
| WatchClosed.

(** [handle_config_change] and the fingerprint that is taken after it. *)
Definition watch_change (t : Watcher) (change after : result string Bytes) (w : W) : W * Watcher :=
  let '(w, (m, tp)) := handle_config_change get_raft_state is_initialized initialize create_shard toml_from_str
                         change (wt_node_id t) (wt_shard_manager t) (wt_topology t) w in
  (w, mkWatcher (wt_node_id t) (file_fingerprint after) m tp (wt_running t)).

Definition watch_end (t : Watcher) : Watcher :=
  mkWatcher (wt_node_id t) (wt_fingerprint t) (wt_shard_manager t) (wt_topology t) false.

(** One turn of the loop of [spawn]. *)
Definition watch_step (t : Watcher) (ev : WatchEvent) (w : W) : W * Watcher :=
  if negb (wt_running t) then (w, t)
  else
    match ev with
    | WatchShutdown | WatchClosed => (w, watch_end t)
    | WatchTick now change after =>
        if bool_decide (file_fingerprint now = wt_fingerprint t) then (w, t) else watch_change t change after w
    | WatchNotified false _ _ _ => (w, t)
    | WatchNotified true true _ _ => (w, watch_end t)
    | WatchNotified true false change after => watch_change t change after w
    end.

Fixpoint watch (t : Watcher) (evs : list WatchEvent) (w : W) : W * Watcher :=
  match evs with
  | [] => (w, t)
  | ev :: rest => let '(w, t) := watch_step t ev w in watch t rest w
  end.

(** [spawn], on a server; [read] is the file at its first fingerprint. *)
Definition spawn (sv : Server S) (read : result string Bytes) : Watcher :=
  mkWatcher (node_id (cf_node (sv_config sv))) (file_fingerprint read) (sv_shard_manager sv) (sv_topology sv) true.

(** The rest of [main] once the exit signal came: the watcher is stopped, then
    the shards, which it shares with the server. *)
Definition stop (raft_shutdown flush_wal tree_close : S -> Io (W := W) unit) (sv : Server S) (t : Watcher) (w : W) : W :=
  let t := watch_end t in
  shutdown raft_shutdown flush_wal tree_close (mkServer (sv_config sv) (wt_shard_manager t) (wt_topology t)) w.

Definition init_io (sv : Server S) : Io (W := W) (Server S * BootPlan) := fun w =>
  let '(w, (sv, r)) := init create_dir_all create_shard sv w in (w, (fun plan => (sv, plan)) <$> r).

(** [main], up to its services: the server, the tasks that form the clusters and
    the watcher, if the start succeeds; [notify] is how setting up the
    notifications ended. *)
Definition start (args : Args) (first second : result string Bytes) (notify : result string unit) :
    Io (W := W) (Server S * BootPlan * option Watcher) :=
  config ← io_lift (load_config (ar_config args) first);
  let config := apply_overrides config (ar_node_id args) (ar_listen args) in
  sv ← io_lift (server_new config);
  '(sv, plan) ← init_io sv;
  mret (sv, plan, match notify with Ok _ => Some (spawn sv second) | Err _ => None end).

End Start.

(** ** Lemmas: the start *)

Lemma path_join_inj base x y : path_join base x = path_join base y -> x = y.
Proof. unfold path_join. destruct (_ || _); intros H; repeat apply (inj (String.append _)) in H; exact H. Qed.

Lemma shard_dir_inj c s s' : shard_dir c s = shard_dir c s' -> s = s'.
Proof. intros H%path_join_inj%(inj (String.append _)). by apply (inj pretty). Qed.

Section StartLemmas.
Context {W S : Type} `{Platform}.
Context (toml_from_str json_from_str : string -> result string Config).
Context (create_dir_all : string -> Io (W := W) unit) (create_shard : Config -> N -> Io (W := W) S).
Context (get_raft_state : N -> N -> W -> W * option RaftState).
Context (is_initialized : N -> W -> W * option bool) (initialize : N -> gmap N string -> W -> W * InitResult).
Context (hash : Bytes -> N).

Lemma init_shards_spec c m shards w w' m' r :
  init_shards create_shard c m shards w = (w', (m', r)) ->
  sm_shards m ⊆ sm_shards m' /\ sm_node_id m' = sm_node_id m /\
  (forall x, is_Some (sm_shards m' !! x) -> x ∈ shards \/ is_Some (sm_shards m !! x)) /\
  (r = Ok tt -> forall s, s ∈ shards -> is_Some (sm_shards m' !! s)).
Proof.
  revert m w. induction shards as [|s rest IH]; intros m w; cbn [init_shards].
  { intros [= _ <- <-]. split_ands; [done|done|by right|]. intros _ s. by intros ?%elem_of_nil. }
  destruct (create_shard c s w) as [w1 [shard|e]].
  2: { intros [= _ <- <-]. split_ands; [done|done|by right|done]. }
  unfold register_shard. destruct (sm_shards m !! s) as [old|] eqn:Hs.
  { intros [= _ <- <-]. split_ands; [done|done|by right|done]. }
  intros (Hsub & Hid & Hnew & Hall)%IH. cbn in Hsub, Hid, Hnew. split_ands.
  - etrans; [|exact Hsub]. by apply insert_subseteq.
  - done.
  - intros x [Hx|[v [[<- _]|[_ Hx]]%lookup_insert_Some]]%Hnew; [left; by right|left; by left|right; by exists v].
  - intros Hr x [->|Hx]%elem_of_cons; [|by apply Hall].
    exists shard. eapply lookup_weaken; [|exact Hsub]. apply lookup_insert_eq.
Qed.

(** What a successful start leaves. *)
Lemma start_spec args first second notify w w' sv plan watcher :
  start toml_from_str json_from_str create_dir_all create_shard hash args first second notify w =
    (w', Ok (sv, plan, watcher)) ->
  config_validate (sv_config sv) = Ok tt /\ from_config (sv_config sv) = Ok (sv_topology sv) /\
  sm_node_id (sv_shard_manager sv) = node_id (cf_node (sv_config sv)) /\
  (forall s, is_Some (sm_shards (sv_shard_manager sv) !! s) <-> s ∈ local_shards (sv_config sv)) /\
  plan = run (sv_config sv) /\
  forall t, watcher = Some t -> t = spawn hash sv second.
Proof.
  intros (w1 & c0 & [-> _]%io_lift_Ok & Hr)%io_bind_Ok.
  apply io_bind_Ok in Hr as (w2 & sv0 & [-> Hnew]%io_lift_Ok & Hr).
  apply io_bind_Ok in Hr as (w3 & [sv1 plan1] & Hinit & [= _ <- <- <-]).
  unfold server_new in Hnew. apply bind_Ok_inv in Hnew as ([] & Hv & (tp & Htp & [= <-])%bind_Ok_inv).
  unfold init_io, init in Hinit. cbn [sv_config sv_shard_manager sv_topology] in Hinit.
  match type of Hinit with context [match ?m w with _ => _ end] => destruct (m w) as [wa [?|e]] end; [|done].
  destruct (init_shards _ _ _ _ _) as [wb [m r]] eqn:Hs. apply init_shards_spec in Hs as (_ & Hid & Honly & Hall).
  destruct r as [[]|e]; [|done]. cbn in Hinit. injection Hinit as _ <- <-. cbn [sv_config sv_shard_manager sv_topology].
  split_ands; [done|done|done| |done|].
  - intros s. split; [|by apply Hall]. intros [Hx|Hx]%Honly; [done|]. cbn in Hx. rewrite lookup_empty in Hx. by destruct Hx.
  - intros t. by destruct notify; intros [= <-].
Qed.

End StartLemmas.

(** ** Lemmas: the watcher *)

Section WatchLemmas.
Context {W S : Type} `{Platform}.
Context (toml_from_str : string -> result string Config) (create_shard : Config -> N -> Io (W := W) S).
Context (get_raft_state : N -> N -> W -> W * option RaftState).
Context (is_initialized : N -> W -> W * option bool) (initialize : N -> gmap N string -> W -> W * InitResult).
Context (hash : Bytes -> N).

Notation watch_step := (watch_step toml_from_str create_shard get_raft_state is_initialized initialize hash).
Notation watch_change := (watch_change toml_from_str create_shard get_raft_state is_initialized initialize hash).
Notation watch := (watch toml_from_str create_shard get_raft_state is_initialized initialize hash).
Notation handle_config_change :=
  (handle_config_change get_raft_state is_initialized initialize create_shard toml_from_str).

(** A configuration a running node follows: it is valid, the published topology
    is derived from it, and the shards it places on the node are running. *)
Definition followed (t : Watcher (S := S)) (c : Config) : Prop :=
  config_validate c = Ok tt /\ node_id (cf_node c) = wt_node_id t /\ from_config c = Ok (wt_topology t) /\
  forall s, s ∈ local_shards c -> is_Some (sm_shards (wt_shard_manager t) !! s).

(** What no change takes back. *)
Definition kept (t t' : Watcher (S := S)) : Prop :=
  wt_node_id t' = wt_node_id t /\ sm_shards (wt_shard_manager t) ⊆ sm_shards (wt_shard_manager t') /\
  sm_node_id (wt_shard_manager t') = sm_node_id (wt_shard_manager t) /\
  tp_control_shard_id (wt_topology t') = tp_control_shard_id (wt_topology t) /\
  forall s, s ∈ tp_all_shards (wt_topology t) -> s ∈ tp_all_shards (wt_topology t').

#[local] Instance kept_preorder : PreOrder kept.
Proof.
  split; [intros t; unfold kept; by split_ands|]. intros t1 t2 t3 (? & ? & ? & ? & Hs) (? & ? & ? & ? & Hs').
  unfold kept. split_ands; [congruence|by etrans|congruence|congruence|]. intros s Hin. by apply Hs', Hs.
Qed.

Lemma watch_change_spec t c change after w w' t' :
  followed t c -> watch_change t change after w = (w', t') -> (exists c', followed t' c') /\ kept t t'.
Proof.
  intros (Hv & Hid & Htp & Hrun). unfold Server.watch_change.
  destruct (handle_config_change _ _ _ _ _) as [w1 [m tp]] eqn:Hch. intros [= <- <-].
  unfold Bootstrap.handle_config_change in Hch. destruct (_ ← read_to_string change; _) as [parsed|e].
  2: { injection Hch as _ <- <-. split; [by exists c|by (unfold kept; split_ands)]. }
  eapply apply_config_cases in Hch as (Hsub & Hmid & _ & Hcase); [|exact Htp].
  assert (Hweak : forall s, is_Some (sm_shards (wt_shard_manager t) !! s) -> is_Some (sm_shards m !! s)).
  { intros s [v Hs]. exists v. by eapply lookup_weaken. }
  destruct Hcase as [->|(Hv' & Hl & Hf & _ & Hc & Hs)].
  - split; [|by (unfold kept; split_ands)]. exists c. unfold followed. split_ands; [done|done|done|]. intros s Hin. by apply Hweak, Hrun.
  - split; [|by (unfold kept; split_ands)]. eexists. unfold followed. split_ands; [exact Hv'|done|exact Hf|exact Hl].
Qed.

Lemma watch_step_spec t c ev w w' t' :
  followed t c -> watch_step t ev w = (w', t') -> (exists c', followed t' c') /\ kept t t'.
Proof.
  intros Hf. unfold Server.watch_step.
  assert (Hsame : (exists c', followed t c') /\ kept t t) by (split; [by exists c|reflexivity]).
  assert (Hend : (exists c', followed (watch_end t) c') /\ kept t (watch_end t)).
  { split; [by exists c|by (unfold kept; split_ands)]. }
  destruct (negb _); [by intros [= _ <-]|]. destruct ev as [|now change after|[] [] change after|];
    try (by intros [= _ <-]); [case_bool_decide; [by intros [= _ <-]|]|]; by eapply watch_change_spec.
Qed.

Lemma watch_spec t c evs w w' t' :
  followed t c -> watch t evs w = (w', t') -> (exists c', followed t' c') /\ kept t t'.
Proof.
  revert t c w. induction evs as [|ev evs IH]; intros t c w Hf; cbn [Server.watch].
  { intros [= _ <-]. split; [by exists c|reflexivity]. }
  destruct (watch_step t ev w) as [w1 t1] eqn:Hs. destruct (watch_step_spec _ _ _ _ _ _ Hf Hs) as [[c1 Hf1] Hk].
  intros Hw. destruct (IH _ _ _ Hf1 Hw) as [Hc Hk']. split; [done|]. by etrans.
Qed.

(** A tick that finds the fingerprint it has does nothing. *)
Lemma watch_quiet t content n w :
  wt_fingerprint t = file_fingerprint hash content -> watch t (replicate n (WatchTick content content content)) w = (w, t).
Proof.
  intros Hf. induction n as [|n IH]; [done|]. cbn [replicate Server.watch]. unfold Server.watch_step.
  rewrite Hf, bool_decide_eq_true_2 by done. by destruct (negb _).
Qed.

Lemma watch_change_fingerprint t change after w : wt_fingerprint (watch_change t change after w).2 = file_fingerprint hash after.
Proof. unfold Server.watch_change. by destruct (handle_config_change _ _ _ _ _) as [? [? ?]]. Qed.

(** If every shard can be created, every shard that is missing is. *)
Lemma create_added_total c m all l w :
  (forall s w, s ∈ l -> exists sh, (create_shard c s w).2 = Ok sh) ->
  (create_added get_raft_state is_initialized initialize create_shard c m all l w).2.2 = all.
Proof.
  intros Hcr. revert m w. induction l as [|s l IH]; intros m w; [done|]. cbn [create_added].
  assert (Hb : exists w1 m1, create_shard_blocking get_raft_state is_initialized initialize create_shard c m s w = (w1, Ok m1)).
  { unfold create_shard_blocking. rewrite shard_ids_existsb. case_bool_decide as Hs; [by eexists _, _|].
    destruct (Hcr s w) as [sh Hsh]; [by left|]. destruct (create_shard c s w) as [w1 r]. cbn in Hsh. subst r.
    unfold register_shard. destruct (sm_shards m !! s) eqn:Hn; [by destruct Hs|].
    destruct (bootstrap_new_shard _ _ _ _ _ _ _). by eexists _, _. }
  destruct Hb as (w1 & m1 & ->). apply IH. intros x w2 Hx. apply Hcr. by right.
Qed.

Lemma apply_config_applies parsed self_id m tp next w :
  let c := apply_overrides parsed (Some self_id) None in
  config_validate c = Ok tt -> from_config c = Ok next -> tp_control_shard_id next = tp_control_shard_id tp ->
  (forall s, s ∈ tp_all_shards tp -> s ∈ tp_all_shards next) ->
  (forall s w, s ∈ local_shards c -> exists sh, (create_shard c s w).2 = Ok sh) ->
  exists w' m', apply_config get_raft_state is_initialized initialize create_shard parsed self_id m tp w = (w', (m', next)) /\
    forall s, s ∈ local_shards c -> is_Some (sm_shards m' !! s).
Proof.
  intros c Hv Hf Hc Hs Hcr. unfold apply_config. fold c. rewrite Hv.
  pose proof (create_added_total c m true (List.filter (fun s => negb (existsb (N.eqb s) (shard_ids m))) (btree_set (local_shards c))) w) as Ha.
  destruct (create_added _ _ _ _ _ _ _ _ _) as [w1 [m1 all]] eqn:Hadd. cbn in Ha. rewrite Ha in *.
  2, 3: intros s w2 [Hin _]%list_elem_of_In%filter_In; apply Hcr; rewrite <- elem_of_btree_set; by apply list_elem_of_In.
  apply create_added_spec in Hadd as (Hsub & _ & _ & Hreg). destruct (Hreg eq_refl) as [_ Hl].
  exists w1, m1. split.
  - unfold reload. rewrite Hf, Hc, N.eqb_refl. cbn [negb]. rewrite bool_decide_eq_true_2; [done|].
    match goal with |- ?l0 = [] => destruct l0 as [|s l] eqn:Hrem end; [done|].
    assert (Hin : In s (s :: l)) by apply in_eq. rewrite <- Hrem in Hin. apply filter_In in Hin as [Hin Hn%negb_true_iff].
    apply list_elem_of_In, Hs, list_elem_of_In in Hin. pose proof (existsb_exists (N.eqb s) (tp_all_shards next)) as [_ He].
    rewrite He in Hn; [done|]. exists s. by rewrite N.eqb_refl.
  - intros s Hin. destruct (sm_shards m !! s) as [v|] eqn:E; [exists v; by eapply lookup_weaken|].
    apply Hl, list_elem_of_In, filter_In. rewrite <- list_elem_of_In, elem_of_btree_set, shard_ids_existsb, E.
    split; [done|]. by rewrite bool_decide_eq_false_2 by (by intros []).
Qed.

End WatchLemmas.

(** ** Properties *)

Section FactoryProperties.
Context {W M R : Type} `{Platform} `{SmCodecLaws M} `{TreeLaws}.
Context (membership_default : StoredMembership M).
Context (create_dir_all : string -> Io (W := W) unit) (open_tree : string -> N -> Io (W := W) tree).
Context (raft_config_validate : RaftConfig -> result string RaftConfig).
Context (raft_new : N -> RaftConfig -> GrpcNetwork -> EsStorage M -> Io (W := W) R).

(** A shard comes back as it was left. Its store is opened in a directory of its
    own; if the store holds a shard state and what was applied to it, the storage
    the Raft group starts with has that state, and its cache is what was applied,
    or the default of a fresh store, so the group goes on after the last entry
    that was applied; the group is the one the shard has. On a validated
    configuration it sends snapshots in chunks within the message bound. *)
Theorem created_shard_recovers (c : Config) (shard_id : N) (w w' : W) (sh : Shard M R) (s0 : shard)
  (ap : option (AppliedState M)) (Hshard : (shard_id <= u64_max)%N) (Hv : config_validate c = Ok tt)
  (Hdisk : forall n w1 w2 t, open_tree (shard_dir c shard_id) n w1 = (w2, Ok t) ->
     ShardRep (M := M) shard_id (tree_view t) s0 ap)
  (Hcfg : forall rc rc', raft_config_validate rc = Ok rc' -> rc' = rc)
  (Hrun : create_shard membership_default create_dir_all open_tree raft_config_validate raft_new c shard_id w = (w', Ok sh)) :
  let st := sh_storage sh in
  sh_shard_id sh = shard_id /\ es_shard_id st = shard_id /\
  ShardRep (M := M) shard_id (tree_view (es_tree st)) s0 ap /\
  es_cache st = from_option (fun a => mkCache (as_last_applied a) (as_membership a)) (mkCache None membership_default) ap /\
  (forall other, shard_dir c other = shard_dir c shard_id -> other = shard_id) /\
  exists tls w1, tls_trust c = Ok tls /\
    raft_new (node_id (cf_node c)) (raft_config c shard_id) (mkGrpcNetwork shard_id tls) st w1 = (w', Ok (sh_raft sh)) /\
    (1 <= rc_snapshot_max_chunk_size (raft_config c shard_id) <= MAX_SNAPSHOT_CHUNK_BYTES)%N.
Proof.
  unfold create_shard in Hrun. apply io_bind_Ok in Hrun as (w1 & [] & _ & Hrun).
  apply io_bind_Ok in Hrun as (w2 & t & Hrep%Hdisk & Hrun). apply io_bind_Ok in Hrun as (w3 & [] & _ & Hrun).
  apply io_bind_Ok in Hrun as (w4 & [t1 cache] & [-> Hres%map_err_Ok]%io_lift_Ok & Hrun). cbn [storage_new es_tree es_cache] in Hres.
  apply io_bind_Ok in Hrun as (w5 & cfg & [-> ->%Hcfg]%io_lift_Ok & Hrun).
  apply io_bind_Ok in Hrun as (w6 & tls & [-> Htls]%io_lift_Ok & Hrun).
  apply io_bind_Ok in Hrun as (w7 & raft & Hraft & [= -> <-]). cbn [sh_shard_id sh_storage sh_raft es_shard_id es_tree es_cache].
  split_ands; [done|done| eapply restore_keeps; [exact Hshard|exact Hrep|exact Hres]| | |].
  - destruct ap as [a|]; [by apply (restore_spec _ Hshard _ _ _ _ _ _ Hrep) in Hres as [-> _]|].
    apply bind_Ok_inv in Hres as (o & Hg%storage_get_view & (c1 & Hc & (t2 & _ & [= _ <-])%bind_Ok_inv)%bind_Ok_inv).
    pose proof (rep_values _ _ _ _ Hrep (KApplied shard_id) ltac:(by split) eq_refl) as Hn.
    change (tree_view t !! sm_applied_state shard_id = None) in Hn. rewrite Hn in Hg. subst o.
    by injection Hc as <-.
  - intros other Heq. by eapply shard_dir_inj.
  - exists tls, w3. split_ands; [done|exact Hraft| |]; cbn [raft_config rc_snapshot_max_chunk_size];
      by apply config_valid_rules in Hv as (_ & (_ & _ & _ & ? & ?) & _).
Qed.

End FactoryProperties.

Section NodeProperties.
Context {W S : Type} `{Platform}.
Context (toml_from_str json_from_str : string -> result string Config).
Context (create_dir_all : string -> Io (W := W) unit) (create_shard : Config -> N -> Io (W := W) S).
Context (get_raft_state : N -> N -> W -> W * option RaftState).
Context (is_initialized : N -> W -> W * option bool) (initialize : N -> gmap N string -> W -> W * InitResult).
Context (hash : Bytes -> N).

(** C30: a running node only publishes what it serves. After a start that
    succeeded, and whatever then happens to the configuration file, in whatever
    order the watcher takes notice of it, the topology the request handlers work
    with is that of a valid configuration of this node all of whose shards on
    this node are running. No shard that was started is ever stopped, and the
    identity of the node, the control shard and the shards of the cluster at the
    start are kept. *)
Theorem published_shards_running (args : Args) (first second : result string Bytes) (notify : result string unit)
  (w w1 w2 w' : W) (sv : Server S) (plan : BootPlan) (t0 t : Watcher (S := S)) (evs : list WatchEvent)
  (Hstart : start toml_from_str json_from_str create_dir_all create_shard hash args first second notify w =
     (w1, Ok (sv, plan, Some t0)))
  (Hwatch : watch toml_from_str create_shard get_raft_state is_initialized initialize hash t0 evs w2 = (w', t)) :
  (exists c, config_validate c = Ok tt /\ node_id (cf_node c) = node_id (cf_node (sv_config sv)) /\
     from_config c = Ok (wt_topology t) /\
     forall s, s ∈ local_shards c -> is_Some (sm_shards (wt_shard_manager t) !! s)) /\
  (forall s, s ∈ local_shards (sv_config sv) -> is_Some (sm_shards (wt_shard_manager t) !! s)) /\
  sm_shards (sv_shard_manager sv) ⊆ sm_shards (wt_shard_manager t) /\
  sm_node_id (wt_shard_manager t) = node_id (cf_node (sv_config sv)) /\
  tp_control_shard_id (wt_topology t) = tp_control_shard_id (sv_topology sv) /\
  (forall s, s ∈ tp_all_shards (sv_topology sv) -> s ∈ tp_all_shards (wt_topology t)).
Proof.
  apply start_spec in Hstart as (Hv & Htp & Hid & Hsh & _ & Ht0). specialize (Ht0 t0 eq_refl) as ->.
  assert (Hf : followed (spawn hash sv second) (sv_config sv)).
  { unfold followed. split_ands; [done|done|done|]. intros s. apply Hsh. }
  destruct (watch_spec _ _ _ _ _ _ _ _ _ _ _ _ Hf Hwatch) as [(c & Hv' & Hid' & Htp' & Hrun) (Hn & Hsub & Hm & Hc & Hall)].
  cbn [spawn wt_node_id wt_shard_manager wt_topology] in *. split_ands; [| |exact Hsub| |done|done].
  - exists c. split_ands; [done|congruence|done|done].
  - intros s [v Hs]%Hsh. exists v. by eapply lookup_weaken.
  - congruence.
Qed.

(** A change that stays in the file is followed. If a tick finds a file with
    another fingerprint that holds a valid configuration of this node, with the
    same control shard and all the shards of the cluster, and the shards can be
    created, then after it the configuration's topology is published and its
    shards on this node are running; and as long as the file stays as it is,
    nothing changes any more. *)
Theorem change_followed (t t' : Watcher (S := S)) (parsed : Config) (bytes : Bytes) (content : string)
  (next : RuntimeTopologySnapshot) (ticks : nat) (w w' : W)
  (Hrun : wt_running t = true) (Hnew : wt_fingerprint t <> Some (hash bytes))
  (Hread : read_to_string (Ok bytes) = Ok content) (Hparse : toml_from_str content = Ok parsed) :
  let c := apply_overrides parsed (Some (wt_node_id t)) None in
  let tick := WatchTick (Ok bytes) (Ok bytes) (Ok bytes) in
  config_validate c = Ok tt -> from_config c = Ok next ->
  tp_control_shard_id next = tp_control_shard_id (wt_topology t) ->
  (forall s, s ∈ tp_all_shards (wt_topology t) -> s ∈ tp_all_shards next) ->
  (forall s w, s ∈ local_shards c -> exists sh, (create_shard c s w).2 = Ok sh) ->
  watch toml_from_str create_shard get_raft_state is_initialized initialize hash t (tick :: replicate ticks tick) w = (w', t') ->
  wt_topology t' = next /\ (forall s, s ∈ local_shards c -> is_Some (sm_shards (wt_shard_manager t') !! s)) /\
  watch_step toml_from_str create_shard get_raft_state is_initialized initialize hash t tick w = (w', t').
Proof.
  intros c tick Hv Htp Hctl Hall Hcr.
  assert (Hstep : watch_step toml_from_str create_shard get_raft_state is_initialized initialize hash t tick w =
    watch_change toml_from_str create_shard get_raft_state is_initialized initialize hash t (Ok bytes) (Ok bytes) w).
  { unfold tick, watch_step. rewrite Hrun. cbn [negb]. by rewrite bool_decide_eq_false_2 by (cbn; congruence). }
  cbn [watch]. rewrite Hstep.
  destruct (watch_change _ _ _ _ _ _ t _ _ w) as [w1 t1] eqn:Hch. pose proof Hch as Hch'.
  assert (Hfp : wt_fingerprint t1 = file_fingerprint hash (Ok bytes)).
  { change t1 with ((w1, t1).2). rewrite <- Hch. apply watch_change_fingerprint. }
  unfold tick. rewrite watch_quiet by exact Hfp. intros [= <- <-].
  unfold watch_change, handle_config_change in Hch. rewrite Hread in Hch. cbn in Hch. rewrite Hparse in Hch.
  destruct (apply_config_applies create_shard get_raft_state is_initialized initialize parsed (wt_node_id t)
    (wt_shard_manager t) (wt_topology t) next w Hv Htp Hctl Hall Hcr) as (w2 & m & Ha & Hl).
  rewrite Ha in Hch. injection Hch as _ <-. by split_ands.
Qed.

(** A write between the two reads of a tick is missed. The fingerprint is taken
    again after the change was applied, so what the file holds by then counts as
    applied: if it was written in between, no later tick looks at it, and the
    node stays with the configuration before. *)
Theorem write_during_change_missed (t t' : Watcher (S := S)) (now change after : result string Bytes) (ticks : nat) (w w' : W)
  (Hrun : wt_running t = true) (Hnew : file_fingerprint hash now <> wt_fingerprint t)
  (Hstep : watch_change toml_from_str create_shard get_raft_state is_initialized initialize hash t change change w = (w', t')) :
  exists t2, watch toml_from_str create_shard get_raft_state is_initialized initialize hash t
      (WatchTick now change after :: replicate ticks (WatchTick after after after)) w = (w', t2) /\
    wt_topology t2 = wt_topology t' /\ wt_shard_manager t2 = wt_shard_manager t'.
Proof.
  cbn [watch]. unfold watch_step at 1. rewrite Hrun. cbn [negb]. rewrite bool_decide_eq_false_2 by done.
  unfold watch_change in Hstep |- *. destruct (handle_config_change _ _ _ _ _ _ _ _ _ _) as [w1 [m tp]].
  injection Hstep as <- <-. rewrite watch_quiet by done. by eexists.
Qed.

End NodeProperties.

Section StopProperties.
Context {W S : Type} (raft_shutdown flush_wal tree_close : S -> Io (W := W) unit).

(** The shards of a node with their ids, in the order of [shutdown]. *)
Definition closing_order (m : ShardManager S) : list (N * S) :=
  omap (fun s => pair s <$> sm_shards m !! s) (shard_ids m).

Lemma closing_order_ids m : (closing_order m).*1 = shard_ids m.
Proof.
  unfold closing_order. assert (Hin : forall s, s ∈ shard_ids m -> is_Some (sm_shards m !! s)) by (intros s; by rewrite elem_of_shard_ids).
  revert Hin. generalize (shard_ids m). intros l Hin. induction l as [|s l IH]; [done|]. cbn [omap list_omap].
  destruct (Hin s ltac:(left)) as [v Hv]. rewrite Hv. cbn. f_equal. apply IH. intros x Hx. apply Hin. by right.
Qed.

Lemma shard_ids_NoDup (m : ShardManager S) : NoDup (shard_ids m).
Proof. unfold shard_ids, sort_n. rewrite merge_sort_Permutation. apply NoDup_fst_map_to_list. Qed.

Lemma shutdown_order (sv : Server S) w :
  shutdown raft_shutdown flush_wal tree_close sv w =
  foldl (fun w kv => close_shard raft_shutdown flush_wal tree_close kv.2 w) w (closing_order (sv_shard_manager sv)).
Proof.
  unfold shutdown, closing_order. generalize (shard_ids (sv_shard_manager sv)). intros l. revert w.
  induction l as [|s l IH]; intros w; [done|]. cbn [foldl omap list_omap]. rewrite IH. unfold get_shard, ok_or.
  by destruct (sm_shards (sv_shard_manager sv) !! s).
Qed.

(** Nothing is left open at the exit. Every shard that runs, those the watcher
    added too, is closed exactly once, its Raft group before its store, in the
    order of the ids; what fails for one does not keep the others open. *)
Theorem stop_closes_every_shard (sv : Server S) (t : Watcher (S := S)) (w : W) :
  exists l, l ≡ₚ map_to_list (sm_shards (wt_shard_manager t)) /\ StronglySorted N.le l.*1 /\
    stop raft_shutdown flush_wal tree_close sv t w =
    foldl (fun w kv => (storage_close flush_wal tree_close kv.2 (raft_shutdown kv.2 w).1).1) w l.
Proof.
  exists (closing_order (wt_shard_manager t)). split_ands; [| |apply shutdown_order].
  - apply NoDup_Permutation; [| apply NoDup_map_to_list|].
    + apply (NoDup_fmap_1 fst). rewrite closing_order_ids. apply shard_ids_NoDup.
    + intros [s v]. unfold closing_order. rewrite list_elem_of_omap, elem_of_map_to_list. split.
      * intros (x & _ & Hx). destruct (sm_shards (wt_shard_manager t) !! x) eqn:E; [|done]. by injection Hx as <- <-.
      * intros Hv. exists s. rewrite Hv, elem_of_shard_ids. split; [by exists v|done].
  - rewrite closing_order_ids. unfold shard_ids, sort_n. apply (StronglySorted_merge_sort N.le).
Qed.

End StopProperties.

Section ServeProperties.
Context `{Platform} (tls_config : Bytes -> Bytes -> result string unit).

Lemma listener_identity_tls c identity :
  listener_identity tls_config c = Ok identity -> is_Some identity <-> is_Some (cf_tls c).
Proof.
  unfold listener_identity. destruct (cf_tls c) as [tls|]; [|by intros [= <-]].
  intros (? & _ & (? & _ & (? & _ & (? & _ & (? & _ & [= <-])%bind_Ok_inv)%bind_Ok_inv)%bind_Ok_inv)%bind_Ok_inv)%bind_Ok_inv.
  by split; eexists.
Qed.

(** What a node listens on. With a valid configuration whose address and
    certificate can be used the listeners start, without a panic. The internal
    service is served only on the internal listener, at another address than the
    public services and alone; with another node in the cluster there is such a
    listener; and the listeners identify themselves with a certificate if and
    only if TLS is configured. *)
Theorem listeners_separate (c : Config) (Hv : config_validate c = Ok tt) :
  (parse_socket_addr (listen_addr (cf_node c)) = Ok tt -> (forall cert key, tls_config cert key = Ok tt) ->
     exists ls, serve tls_config c = Ok ls) /\
  forall ls, serve tls_config c = Ok ls ->
    (forall l, l ∈ ls -> AggregateStoreInternalService ∈ ln_services l ->
       internal_listen_addr (cf_node c) = Some (ln_addr l) /\ ln_addr l <> listen_addr (cf_node c) /\
       ln_services l = [AggregateStoreInternalService]) /\
    (exists l, l ∈ ls /\ ln_addr l = listen_addr (cf_node c) /\ AggregateStoreService ∈ ln_services l) /\
    ((exists p, p ∈ peers (cf_node c) /\ peer_id p <> node_id (cf_node c)) ->
       exists l, l ∈ ls /\ AggregateStoreInternalService ∈ ln_services l) /\
    (forall l, l ∈ ls -> is_Some (ln_identity l) <-> is_Some (cf_tls c)).
Proof.
  apply config_valid_rules in Hv as (_ & _ & (Hint & _ & Hpeers) & Htls). split.
  - intros Hp Hid. unfold serve. rewrite Hp. cbn.
    assert (Hi : exists i, listener_identity tls_config c = Ok i).
    { unfold listener_identity. destruct (cf_tls c) as [tls|]; [|by eexists].
      destruct (Htls tls eq_refl) as ((f & -> & b & Hb & _) & (k & -> & bk & Hk & _) & _). cbn. rewrite Hb. cbn. rewrite Hk. cbn.
      rewrite Hid. by eexists. }
    destruct Hi as [i Hi]. rewrite Hi. cbn. destruct (internal_listen_addr (cf_node c)) as [a|]; [|by eexists].
    destruct (Hint a eq_refl) as [Ha _]. rewrite Ha. cbn. by eexists.
  - intros ls (? & _ & (i & Hi%listener_identity_tls & Hls)%bind_Ok_inv)%bind_Ok_inv.
    destruct (internal_listen_addr (cf_node c)) as [a|] eqn:Ha.
    + apply bind_Ok_inv in Hls as (? & _ & (i2 & Hi2%listener_identity_tls & [= <-])%bind_Ok_inv).
      destruct (Hint a eq_refl) as [_ Hne]. split_ands.
      * intros l [->|[->|[]%elem_of_nil]%elem_of_cons]%elem_of_cons; cbn; [set_solver|done].
      * eexists. split_ands; [by left|done|by left].
      * intros _. eexists. split; [by right; left|by left].
      * intros l [->|[->|[]%elem_of_nil]%elem_of_cons]%elem_of_cons; done.
    + injection Hls as <-. split_ands.
      * intros l ->%list_elem_of_singleton. cbn. set_solver.
      * eexists. split_ands; [by left|done|by left].
      * intros (p & Hp & Hne). by destruct (Hpeers p Hp Hne).
      * by intros l ->%list_elem_of_singleton.
Qed.

End ServeProperties.

(** ** Witnesses *)

#[local] Existing Instances demo_platform demo_codecs demo_codec_laws mem_tree mem_tree_laws.

(** Shard 3 on an empty store. *)
Definition demo_shard : Shard N unit :=
  mkShard 3 tt (mkStorageOf 3 (∅ : @tree mem_tree) (mkCache None (mkStored None 0%N)) (mkSnapshotConfig "./data/snapshots" Zstd 3)).

Definition demo_factory_run : unit * result string (Shard N unit) :=
  create_shard (mkStored None 0%N) (fun _ w => (w, Ok tt)) (fun _ _ w => (w, Ok (∅ : @tree mem_tree)))
    (fun rc => Ok rc) (fun _ _ _ _ w => (w, Ok tt)) config_default 3 tt.

Lemma demo_created : demo_factory_run = (tt, Ok demo_shard).
Proof. reflexivity. Qed.

Lemma created_shard_recovers_witness :
  demo_factory_run = (tt, Ok demo_shard) /\ ShardRep (M := N) 3 (tree_view (es_tree (sh_storage demo_shard))) shard_empty None.
Proof.
  split; [exact demo_created|].
  refine (proj1 (proj2 (proj2 (created_shard_recovers (mkStored None 0%N) (fun _ w => (w, Ok tt))
    (fun _ _ w => (w, Ok (∅ : @tree mem_tree))) (fun rc => Ok rc) (fun _ _ _ _ w => (w, Ok tt)) config_default 3 tt tt
    demo_shard shard_empty None _ _ _ _ demo_created)))).
  - done.
  - vm_compute. reflexivity.
  - intros n w1 w2 t [= _ <-]. apply ShardRep_empty.
  - by intros rc rc' [= ->].
Defined.

(** A file that holds [a] places shard 0 on the node, one that holds [b] also
    shard 1; anything else does not parse. *)
Definition demo_toml (content : string) : result string Config :=
  if bool_decide (content = "a") then Ok config_default
  else if bool_decide (content = "b") then Ok demo_config2 else Err "expected a table".

Definition demo_hash (bytes : Bytes) : N := from_option Byte.to_N 0%N (head bytes).

Definition demo_file (content : string) : result string Bytes := Ok (as_bytes content).

Definition demo_node_start : unit * result string (Server N * BootPlan * option (Watcher (S := N))) :=
  start demo_toml demo_toml (fun _ w => (w, Ok tt)) (fun _ s w => (w, Ok s)) demo_hash
    (mkArgs "config.toml" None None) (demo_file "a") (demo_file "a") (Ok tt) tt.

Definition demo_server : Server N :=
  mkServer config_default (mkManager {[0%N := 0%N]} 1 1)
    (mkTopology (mkRemote 1 ∅ ∅ ∅ None) [0%N] 0).

Definition demo_watch (t : Watcher (S := N)) (evs : list WatchEvent) : unit * Watcher (S := N) :=
  watch demo_toml (fun _ s w => (w, Ok s)) (fun _ _ w => (w, None)) (fun _ w => (w, Some false))
    (fun _ _ w => (w, InitOk)) demo_hash t evs tt.

(** The file is damaged, then repaired with a new shard. *)
Definition demo_events : list WatchEvent :=
  [WatchTick (demo_file "?") (demo_file "?") (demo_file "?"); WatchNotified true false (demo_file "b") (demo_file "b");
   WatchShutdown].

Lemma demo_node_started : demo_node_start = (tt, Ok (demo_server, PlanDisabled, Some (spawn demo_hash demo_server (demo_file "a")))).
Proof. vm_compute. reflexivity. Qed.

Lemma published_shards_running_witness :
  tp_all_shards (wt_topology (demo_watch (spawn demo_hash demo_server (demo_file "a")) demo_events).2) = [0; 1]%N /\
  tp_control_shard_id (wt_topology (demo_watch (spawn demo_hash demo_server (demo_file "a")) demo_events).2) = 0%N.
Proof.
  split; [vm_compute; reflexivity|].
  exact (proj1 (proj2 (proj2 (proj2 (proj2 (published_shards_running demo_toml demo_toml (fun _ w => (w, Ok tt))
    (fun _ s w => (w, Ok s)) (fun _ _ w => (w, None)) (fun _ w => (w, Some false)) (fun _ _ w => (w, InitOk)) demo_hash
    (mkArgs "config.toml" None None) (demo_file "a") (demo_file "a") (Ok tt) tt tt tt tt demo_server PlanDisabled
    (spawn demo_hash demo_server (demo_file "a")) (demo_watch (spawn demo_hash demo_server (demo_file "a")) demo_events).2
    demo_events demo_node_started ltac:(vm_compute; reflexivity))))))).
Defined.

Lemma change_followed_witness :
  wt_topology (demo_watch (spawn demo_hash demo_server (demo_file "a"))
    (replicate 3 (WatchTick (demo_file "b") (demo_file "b") (demo_file "b")))).2 =
  mkTopology (mkRemote 1 ∅ ∅ ∅ None) [0; 1]%N 0.
Proof.
  refine (proj1 (change_followed demo_toml (fun _ s w => (w, Ok s)) (fun _ _ w => (w, None)) (fun _ w => (w, Some false))
    (fun _ _ w => (w, InitOk)) demo_hash (spawn demo_hash demo_server (demo_file "a")) _ demo_config2 (as_bytes "b") "b"
    (mkTopology (mkRemote 1 ∅ ∅ ∅ None) [0; 1]%N 0) 2 tt tt _ _ _ _ _ _ _ _ _ _)).
  - reflexivity.
  - vm_compute. discriminate.
  - vm_compute. reflexivity.
  - vm_compute. reflexivity.
  - vm_compute. reflexivity.
  - vm_compute. reflexivity.
  - reflexivity.
  - intros s. cbn. set_solver.
  - intros s w _. by eexists.
  - by rewrite (surjective_pairing (watch _ _ _ _ _ _ _ _ _)); destruct (watch _ _ _ _ _ _ _ _ _).1.
Defined.

(** Shard 1 is written to the file while the damaged file is handled. *)
Lemma write_during_change_missed_witness :
  wt_topology (demo_watch (spawn demo_hash demo_server (demo_file "a"))
    (WatchTick (demo_file "?") (demo_file "?") (demo_file "b") ::
     replicate 5 (WatchTick (demo_file "b") (demo_file "b") (demo_file "b")))).2 = sv_topology demo_server.
Proof.
  destruct (write_during_change_missed demo_toml (fun _ s w => (w, Ok s)) (fun _ _ w => (w, None)) (fun _ w => (w, Some false))
    (fun _ _ w => (w, InitOk)) demo_hash (spawn demo_hash demo_server (demo_file "a"))
    (mkWatcher 1 (Some 63%N) (sv_shard_manager demo_server) (sv_topology demo_server) true)
    (demo_file "?") (demo_file "?") (demo_file "b") 5 tt tt eq_refl) as (t2 & Hw & Ht & _).
  - vm_compute. discriminate.
  - vm_compute. reflexivity.
  - unfold demo_watch. rewrite Hw. exact Ht.
Defined.

Lemma listeners_separate_witness :
  exists l, l ∈ [mkListener "0.0.0.0:1" None [AggregateStoreService; RaftRpcService; RaftAdminService] MAX_GRPC_MESSAGE_SIZE;
                 mkListener "0.0.0.0:11" None [AggregateStoreInternalService] MAX_GRPC_MESSAGE_SIZE] /\
    AggregateStoreInternalService ∈ ln_services l.
Proof.
  refine (proj1 (proj2 (proj2 (proj2 (listeners_separate (fun _ _ => Ok tt) (demo_cluster 1) _) _ _))) _).
  - vm_compute. reflexivity.
  - vm_compute. reflexivity.
  - exists (mkPeer 2 "https://b:2" (Some "b:12")). split; [right; left|done].
Defined.
